(* ===== verification/_CoqProject ===== *)
-Q . S2P
Prelude.v
Config.v
MacTable.v
SlotTable.v
NeighborTable.v
Nanopb.v
Descriptor.v
NanopbMessages.v
NanopbCorrect.v
NanopbSafe.v
NanopbFlat.v
Wire.v
Platform.v
Logger.v
ErrorCore.v
SerialFraming.v
MeshDescriptor.v
Hardware.v
SevenSeg.v
Eeprom.v
ReplayCache.v
RouteTable.v
PeerRegistry.v
Transport.v
Crypto.v
Enrollment.v
KeyStore.v
Routers.v
Beacon.v
Authorizer.v
Node.v
Messenger.v
RouteReport.v
Mesh.v
Flood.v
Network.v
BootWindow.v
HwMac.v
Boot.v
Adapter.v
SerialAdapter.v
PirAdapter.v
App.v
Main.v
MeshTask.v
RxTask.v
SerialLine.v
Startup.v
EndToEnd.v
Telemetry.v
