(* ===== verification/Prelude.v ===== *)
(** * Lattice firmware: a verification development

    The program (src/firmware/main) is the firmware of a node of a wireless sensor
    mesh: an ESP32 that is either a leaf (a PIR motion sensor), or the master, which
    is attached to a server by a serial line.  Frames are flooded or source-routed
    over ESP-NOW, payloads are sealed end to end with ChaCha20-Poly1305 under X25519
    keys, and relay paths are reported under a chain of MACs.  All state is
    in RAM, apart from what the node writes to NVS flash.

    ** How the development is built

    Every handler is a Rocq function in a small state monad [W] ([Platform]).  The
    world it threads consists of the trace of platform calls, newest first (radio
    sends, NVS reads and writes, GPIO, UART, timer, deliveries to the application),
    and the two static states the code keeps (EEPROM manager, error core).  A call is
    answered by [Env], an arbitrary function of the history; [Halt] is the device
    restarting (or hanging where the code waits for ever).  State of a component is a
    record passed in and out.  Machine integers are [Z] with their wrap-around written
    out ([u8] .. [u64]); bytes, MACs and keys are [list Z].  NVS contents are not a
    separate state: [nvs_store] computes them from the trace, so that flash survives a
    restart and RAM does not.

    Not readable here, hence parameters: ESP-IDF ([Env], with the laws [NvsLawful],
    [ClockLawful], [ClockTicks] as hypotheses), mbedtls ([Crypto], [CryptoLawful]: key agreement,
    and opening succeeds exactly on what sealing produces), the constants of the
    lattice-protocol submodule ([Protocol]), the generated master pin ([Pin]), FreeRTOS
    task notifications ([TaskNotify], [NotifyLawful]).  So is what a protobuf union's
    memory reads as through another field ([Memory], [MemoryLawful]), which C leaves
    open.  Each is instantiated by a concrete function where a witness needs it
    ([ref_env], [slow_env], [display_env], [documented_protocol], [ref_notify],
    [demo_memory], a toy cipher).

    ** Files, in dependency order, and the code they model

    - [Prelude]: integers, bytes, notation, automation and list lemmas.
    - [Config]: project_config.h, sizes of persistence/eeprom/EepromCore.h.
    - [MacTable], [SlotTable]: network/mac_table.h and the bounded evicting table on it.
    - [NeighborTable]: mesh/NeighborTable.h, forwarding candidates.
    - [Nanopb]: mesh/serialization/nanopb, the protobuf encoder and decoder for the kinds
      of fields mesh.pb.h has, over a list of fields; [Descriptor]: pb.h's packed
      descriptors and pb_common.c's iterator.
    - [NanopbMessages]: the runtime for all statically allocated fields and for nested
      messages; [NanopbCorrect]: its bytes and the round trip; [NanopbSafe]: decoding
      arbitrary bytes; [NanopbFlat]: on flat messages it is [Nanopb].
    - [Wire]: the frame and mesh/CompactMessage.
    - [Platform]: the ESP-IDF boundary, the monad and its program logic ([wp], [emits]).
    - [Logger]: logging/*, the levels, their gates and the bytes written.
    - [ErrorCore]: error/*, reporting, blinking, and which errors restart the device.
    - [SerialFraming]: mesh.pb.h and adapter/serial/SerialFraming.
    - [MeshDescriptor]: the C structure of mesh.pb.h, its layout and its descriptor.
    - [Hardware]: hardware/input/* and hardware/output/Led: pins, LED, button, PIR.
    - [SevenSeg]: hardware/output/SevenSegDisplay, with a receiver of its two-wire bus.
    - [Eeprom]: persistence/eeprom/*, each load and save as its sequence of NVS calls.
    - [ReplayCache]: mesh/ReplayCache.h, incoming replays and outgoing (epoch, seq).
    - [RouteTable], [PeerRegistry], [Transport], [Crypto], [Enrollment], [KeyStore],
      [Routers], [Beacon], [Authorizer], [Messenger], [RouteReport]: the files of mesh/
      with those names ([Crypto] also crypto/Crypto.h, [KeyStore] mesh/E2EKeyStore.h and
      E2EKeyLookup.h, [Routers] UplinkRouter and DownlinkRouter, [Transport] also
      PendingRelayQueue).
    - [Node]: the members of class Mesh; [Mesh]: its methods (boot, receive dispatch,
      periodic loop, role switches); [Boot]: properties of a reboot.
    - [Flood]: what one node sends in answer to one frame; [Network]: nodes of this
      firmware and the frames in flight between them.
    - [BootWindow]: frames that arrive before the boot has linked the receive callback;
      [HwMac]: network/hw_mac.h, the cached own MAC.
    - [Adapter], [SerialAdapter], [PirAdapter]: adapter/*, the application on top.
    - [App]: app/*, boot check, buttons, display state machine.
    - [Main]: main.cpp, the boot sequence from the error core on, the receive callback,
      one housekeeping pass.
    - [MeshTask]: main.cpp's mesh task, the receive path with the callback run at the
      delivery, and [firmware_step], the interleaving of the two tasks and the motion interrupt.
    - [RxTask]: MeshTransport's ring buffer and the task notification between the radio's
      receive callback and the mesh task, call by call.
    - [SerialLine]: everything that shares UART0: frames, the key line, log text.
    - [Startup]: main.cpp's [app_main] from power-on: driver set-up, boot, task creation;
      and [power_cycle], the worlds a device reaches until it restarts.
    - [EndToEnd]: a server command through all of it; [Telemetry]: a reading the other
      way, from a leaf's adapter to the server's line.

    The radio's receive callback only fills the ring buffer of [Transport] and notifies the
    mesh task ([RxTask]); [mesh_task] drains it and calls [handleReceivedMessage], which dispatches on the type to [Beacon],
    [Enrollment], [RouteReport] or [processAdapterData] ([Routers] to classify,
    [Authorizer] to open, then delivery).  Delivered frames reach [dataRecvCallback] and
    the adapter, which answers through [Messenger].  [housekeeping] is the other task.

    ** What the theorems show

    - Security of reception: what is delivered, recorded or registered is
      authenticated, fresh and addressed here ([receive_safe], [authorize_authentic],
      [route_report_authentic], [joinack_authentic], [replay_run_increasing],
      [registerPeerWithKey_no_rekey]).
    - The mesh as a whole: whatever the topology and the order of deliveries, a frame
      costs a bounded number of transmissions and each node relays a numbered frame
      only once ([flood_dies_out], [no_broadcast_storm]).  [Network] counts the frames a
      handler sends; beacons, which the periodic loop relays, enter as new frames, and
      frames with epoch 0, which the replay cache does not see, are bounded by the hop
      limit only.
    - Transmission: nothing sealed leaves in clear and no nonce pair is drawn twice,
      reboots included ([transmitCore_seals], [draws_fresh], [boot_epoch_advances]).
    - Protocols end to end: enrollment, downlink, route report and the server's
      CONFIG_SET from the serial line to the node's next boot ([enroll_handshake],
      [downlink_end_to_end], [route_report_end_to_end], [source_route_delivers],
      [config_command_end_to_end], [enrollment_reaches_server],
      [reading_reaches_server], [config_button_swaps_role]).
    - Start-up: no driver is used before it is set up ([drivers_before_use]), and from
      power-on to restart nothing erases NVS but the boot's answer to a stale partition
      ([firmware_never_wipes]).
    - Invariants: [node_wf] holds in every reachable state of a node, and of the whole
      firmware from power-on ([reachable_wf], [firmware_wf]).
    - Reception: every frame the ring buffer took is handled, once and in order, whenever
      the radio delivers between the task's calls ([received_frames_handled]).
    - Codecs: [pb_roundtrip], [serial_link_roundtrip], [seal_relay_open],
      [peers_roundtrip], [framing_safe], [text_on_the_line], [log_output].  The protobuf
      codec over the packed words is the one over the list of fields
      ([iterator_is_cursor], [codec_on_descriptor]), for the structure as the compiler
      lays it out.  The runtime for nested messages decodes what it encodes
      ([nested_roundtrip]), keeps every member within its memory and its type on any
      input ([decode_typed]), and is the codec above on flat messages
      ([flat_runtime_agrees]).
    - Data structures against their specifications: [key_lookup_correct],
      [registerDownlinkPeer_refines], [observeAndMinDistance_correct],
      [isReplay_spec], [downlink_peer_table_bounded].
    - Devices: [setSegments_on_bus], [segments_read], [writeByte_ends],
      [button_debounce], [led_pulse_finishes]; [pir_cooldown], with the interrupt at any
      point of a pass ([pir_pass_is_loop]).
    - What the code does not achieve is stated as lemmas too, e.g.
      [reset_never_wipes], [wdt_counter_cleared], [default_peers_garbled],
      [own_echo_restarts], [join_ack_forgeable], [stale_keys_after_rekey],
      [boot_window_loses_frame].

    ** Bounds and fuel

    Loops over tables and fields are structural.  [decode_fields] takes fuel;
    every iteration consumes input, so the length that [pb_decode] passes is enough
    ([decode_fields_fuel]); likewise the fuel of [inner_loop] ([inner_loop_fuel]) and of
    [call_until_done], the lengths of their streams.  [decode_packed] counts the room left in
    the array, and stops where the code reports an overflow.  The iterator's searches get the number of fields, the most
    turns they make ([find_field], [find_extension_none]).  [wait_ack] polls at most [ACK_POLLS] = 21001 times: with a
    clock that advances at least 1 us per read the 20 ms are over before
    ([writeByte_ends]).  [pumpLedsUntilIdle] takes fuel, and 1200007 rounds suffice for
    every pattern ([pump_ends]).  [dataRecvCallback] is its body unfolded twice, which is
    the code's recursion ([data_callback_terminates]).  The clock is assumed below 2^63
    us where a theorem compares times.

    ** Not modelled

    - The text of log messages: [Logger] says what reaches the line, but the calls to it
      are modelled only in [validateServerConfiguration] (the shipped firmware compiles
      the rest to nothing, or filters it at LOG_NONE).
    - Preemption inside a handler or a housekeeping pass: [RxTask] interleaves reception
      with the mesh task's calls on the ring buffer; elsewhere a step is one wake-up of
      the mesh task or one housekeeping pass ([concurrent_frames_lost] shows what preemption can do to the
      line).  In [Mesh] a delivery is the event [EvDeliver]; [MeshTask] and
      [with_callback] run the receive callback at the delivery, and
      [receive_on_board_refines] relates the two.
    - The red LED's error patterns ([EvPulse]) and error codes on the display
      ([EvShow]) are events, not animated; microsecond delays and pull-ups leave none.
    - nanopb's extension registrations and message-level submessage callbacks, which no
      message here declares, and what its options compile out: allocated pointer fields
      with [pb_release], double-to-float conversion, UTF-8 validation.
    - The SIMULATE_MODE and UNIT_TEST blocks, which the firmware does not compile. *)
From stdpp Require Export base decidable option list numbers list_numbers sets strings.
From Stdlib Require Export ZArith Lia.

#[export] Set Default Goal Selector "!".
Open Scope Z_scope.

(** * Machine integers

    Unsigned integers of width [w] are kept as [Z] in [0 <= x < 2^w]; every
    operation of the code that can leave that range is wrapped explicitly. *)
Definition u8 (x : Z) : Z := x mod 2 ^ 8.
Definition u16 (x : Z) : Z := x mod 2 ^ 16.
Definition u32 (x : Z) : Z := x mod 2 ^ 32.
Definition u64 (x : Z) : Z := x mod 2 ^ 64.

Declare Scope lattice_scope.
Delimit Scope lattice_scope with lat.
Open Scope lattice_scope.

(** Unsigned 64-bit subtraction, as in [nowMs - e.lastSeenMs]. *)
Notation "a '-64' b" := (u64 (a - b)) (at level 50, left associativity) : lattice_scope.

(** Bytes are [Z] in [0 <= b < 256]; byte arrays and MAC addresses are lists. *)
Abbreviation bytes := (list Z) (only parsing).
Abbreviation mac := (list Z) (only parsing).

Definition is_byte (b : Z) : Prop := 0 <= b < 256.
Definition is_bytes (n : nat) (l : bytes) : Prop := length l = n ∧ Forall is_byte l.

(** [lattice::mac::eq] (network/MacEq.h): memcmp of two 6-byte arrays. *)
Definition mac_eq (a b : mac) : bool := bool_decide (a = b).

(** [BROADCAST_MAC] (mesh/broadcast_mac.h). *)
Definition BROADCAST_MAC : mac := [255; 255; 255; 255; 255; 255].
Definition ZERO_MAC : mac := [0; 0; 0; 0; 0; 0].

Definition zeros (n : nat) : bytes := replicate n 0.

(** [lattice::mem::is_zero] (network/mem.h). *)
Fixpoint is_zero (p : bytes) : bool :=
  match p with
  | [] => true
  | b :: p' => if negb (b =? 0) then false else is_zero p'
  end.

(** [memcpy] out of the middle of an array, and into it. *)
Definition slice (i n : nat) (l : bytes) : bytes := take n (drop i l).
Definition splice (i : nat) (src dst : bytes) : bytes :=
  take i dst ++ src ++ drop (i + length src) dst.

(** The little-endian image of an [n]-byte integer ([memcpy] on the ESP32). *)
Fixpoint le_bytes (n : nat) (x : Z) : bytes :=
  match n with
  | O => []
  | S n' => x mod 256 :: le_bytes n' (x / 256)
  end.

Fixpoint le_value (l : bytes) : Z :=
  match l with
  | [] => 0
  | b :: l' => b + 256 * le_value l'
  end.

(** First index whose element satisfies a boolean test: the shape of every
    [for (i = 0; i < n; ++i) if (p(e[i])) return i;] loop of the code. *)
Fixpoint first_such {A} (p : A → bool) (l : list A) : option nat :=
  match l with
  | [] => None
  | x :: l' => if p x then Some O else S <$> first_such p l'
  end.

(** Minimum of [f] over the elements that satisfy [p], starting from [best]: the
    shape of the minimum-search loops. *)
Fixpoint min_such {A} (p : A → bool) (f : A → Z) (l : list A) (best : Z) : Z :=
  match l with
  | [] => best
  | x :: l' => min_such p f l' (if p x then if f x <? best then f x else best else best)
  end.

(** A test on all [n]-bit extensions of [base], by binary splitting. *)
Fixpoint all_pow2 (n : nat) (f : Z → bool) (base : Z) : bool :=
  match n with
  | O => f base
  | S n' => all_pow2 n' f (2 * base) && all_pow2 n' f (2 * base + 1)
  end.

(** * Tactics *)

(** Turn boolean hypotheses and goals about integers and decisions into
    propositions. *)
Ltac bsimp :=
  repeat match goal with
  | H : context [bool_decide ?P] |- _ => destruct (bool_decide_reflect P) in H
  | H : negb _ = true |- _ => apply negb_true_iff in H
  | H : negb _ = false |- _ => apply negb_false_iff in H
  | H : (_ && _) = true |- _ => apply andb_true_iff in H as [? ?]
  | H : (_ || _) = false |- _ => apply orb_false_iff in H as [? ?]
  | H : (_ <? _) = true |- _ => apply Z.ltb_lt in H
  | H : (_ <? _) = false |- _ => apply Z.ltb_ge in H
  | H : (_ <=? _) = true |- _ => apply Z.leb_le in H
  | H : (_ <=? _) = false |- _ => apply Z.leb_gt in H
  | H : (_ =? _) = true |- _ => apply Z.eqb_eq in H
  | H : (_ =? _) = false |- _ => apply Z.eqb_neq in H
  end.

(** Split the first [if]/[match] found in the goal (resp. a hypothesis), keeping
    the equation. *)
Ltac split_if :=
  match goal with
  | |- context [if ?b then _ else _] => destruct b eqn:?
  end.
Ltac split_match :=
  match goal with
  | |- context [match ?x with _ => _ end] => destruct x eqn:?
  end.
Ltac split_match_in H :=
  match type of H with
  | context [match ?x with _ => _ end] => destruct x eqn:?
  end.

(** Take a successful computation in [option] apart. *)
Ltac unbind :=
  repeat match goal with
  | p : (_ * _)%type |- _ => destruct p
  | H : None = Some _ |- _ => discriminate H
  | H : Some _ = Some _ |- _ => injection H; clear H; intros; subst
  | H : (_, _) = (_, _) |- _ => injection H; clear H; intros; subst
  | H : mbind _ _ = Some _ |- _ => apply bind_Some in H as (? & ? & ?)
  | H : (if ?b then _ else _) = Some _ |- _ => destruct b eqn:?
  end.

Create HintDb lattice discriminated.
Create Rewrite HintDb lattice.

(** * Lemmas on the helpers above *)

Lemma mac_eq_true a b : mac_eq a b = true ↔ a = b.
Proof. apply bool_decide_eq_true. Qed.

Lemma mac_eq_false a b : mac_eq a b = false ↔ a ≠ b.
Proof. apply bool_decide_eq_false. Qed.

Lemma mac_eq_refl a : mac_eq a a = true.
Proof. by apply mac_eq_true. Qed.
#[export] Hint Rewrite mac_eq_refl : lattice.

Lemma mac_eq_sym a b : mac_eq a b = mac_eq b a.
Proof. apply bool_decide_ext. naive_solver. Qed.

Ltac mac_cases :=
  repeat match goal with
  | H : mac_eq _ _ = true |- _ => apply mac_eq_true in H
  | H : mac_eq _ _ = false |- _ => apply mac_eq_false in H
  end.

Lemma is_zero_true p : is_zero p = true ↔ p = zeros (length p).
Proof.
  unfold zeros. induction p as [|b p IH]; cbn; [done|].
  destruct (Z.eqb_spec b 0) as [->|Hb]; cbn.
  - rewrite IH. split; [by intros <-|by intros [=]].
  - naive_solver.
Qed.

Lemma u64_range x : 0 <= u64 x < 2 ^ 64.
Proof. apply Z.mod_pos_bound. lia. Qed.

Lemma u64_small x : 0 <= x < 2 ^ 64 → u64 x = x.
Proof. apply Z.mod_small. Qed.

Lemma sub64_le a b : 0 <= b <= a → a < 2 ^ 64 → a -64 b = a - b.
Proof. intros. apply u64_small. lia. Qed.

Lemma sub64_diag a : a -64 a = 0.
Proof. unfold u64. by rewrite Z.sub_diag. Qed.
#[export] Hint Rewrite sub64_diag : lattice.

Section first_such.
Context {A : Type} (p : A → bool).
Implicit Types (l : list A) (i j : nat).

Lemma first_such_Some l i :
  first_such p l = Some i ↔
  (∃ x, l !! i = Some x ∧ p x = true) ∧
  (∀ j x, (j < i)%nat → l !! j = Some x → p x = false).
Proof.
  revert i. induction l as [|y l IH]; intros i; cbn.
  - split; [done|]. intros [(x & Hx & _) _]. by rewrite lookup_nil in Hx.
  - destruct (p y) eqn:Hy.
    + split.
      * intros [= <-]. split; [by exists y|]. intros; lia.
      * intros [_ Hmin]. destruct i as [|i]; [done|].
        specialize (Hmin O y ltac:(lia) eq_refl). congruence.
    + rewrite fmap_Some. split.
      * intros (k & Hk & ->). apply IH in Hk as [Hx Hmin].
        split; [done|]. intros [|j] x Hj Hl; cbn in Hl; [by simplify_eq|].
        eapply Hmin; [|done]. lia.
      * intros [(x & Hx & Hpx) Hmin].
        destruct i as [|i]; cbn in Hx; [simplify_eq; congruence|].
        exists i. split; [|done]. apply IH. split; [eauto|].
        intros j z Hj Hz. by apply (Hmin (S j) z ltac:(lia)).
Qed.

Lemma first_such_None l :
  first_such p l = None ↔ ∀ j x, l !! j = Some x → p x = false.
Proof.
  induction l as [|y l IH]; cbn.
  - split; [|done]. intros _ j x Hx. by rewrite lookup_nil in Hx.
  - destruct (p y) eqn:Hy.
    + split; [done|]. intros H. specialize (H O y eq_refl). congruence.
    + rewrite fmap_None, IH. split.
      * intros H [|j] x Hx; cbn in Hx; [by simplify_eq|by eapply H].
      * intros H j x Hx. by apply (H (S j) x).
Qed.

Lemma first_such_lt l i : first_such p l = Some i → (i < length l)%nat.
Proof.
  intros [(x & Hx & _) _]%first_such_Some. by eapply lookup_lt_Some.
Qed.

Lemma first_such_app l1 l2 :
  first_such p (l1 ++ l2) =
  match first_such p l1 with
  | Some i => Some i
  | None => (λ i, (length l1 + i)%nat) <$> first_such p l2
  end.
Proof.
  induction l1 as [|y l1 IH]; cbn.
  - by destruct (first_such p l2).
  - destruct (p y); [done|]. rewrite IH.
    by destruct (first_such p l1); destruct (first_such p l2).
Qed.
End first_such.

Lemma first_such_ext {A} (p q : A → bool) l :
  (∀ j x, l !! j = Some x → p x = q x) → first_such p l = first_such q l.
Proof.
  induction l as [|y l IH]; intros H; cbn; [done|].
  rewrite (H O y eq_refl). destruct (q y); [done|].
  f_equal. apply IH. intros j x Hx. by apply (H (S j) x).
Qed.

Section min_such.
Context {A : Type} (p : A → bool) (f : A → Z).
Implicit Types (l : list A).

Definition is_min_such (l : list A) (best r : Z) : Prop :=
  r <= best ∧
  (∀ j x, l !! j = Some x → p x = true → r <= f x) ∧
  (r = best ∨ ∃ j x, l !! j = Some x ∧ p x = true ∧ r = f x).

Lemma min_such_spec l best : is_min_such l best (min_such p f l best).
Proof.
  revert best. induction l as [|y l IH]; intros best; cbn.
  - split_and!; [lia| |by left]. intros j x Hx. by rewrite lookup_nil in Hx.
  - set (b := if p y then _ else best).
    destruct (IH b) as (Hle & Hall & Hatt).
    assert (b <= best ∧ (p y = true → b <= f y) ∧ (b = best ∨ (p y = true ∧ b = f y)))
      as (Hb1 & Hb2 & Hb3).
    { subst b. destruct (p y); [|by auto with lia].
      destruct (Z.ltb_spec (f y) best); split_and!; auto with lia. }
    split_and!.
    + lia.
    + intros [|j] x Hx Hp; cbn in Hx; [simplify_eq; specialize (Hb2 Hp); lia|by eapply Hall].
    + destruct Hatt as [->|(j & x & Hj & Hp & ->)].
      * destruct Hb3 as [->|[Hp ->]]; [by left|right; by exists O, y].
      * right. by exists (S j), x.
Qed.

Lemma is_min_such_unique l best r1 r2 :
  is_min_such l best r1 → is_min_such l best r2 → r1 = r2.
Proof.
  intros (H1 & H2 & H3) (K1 & K2 & K3).
  assert (r1 <= r2 ∧ r2 <= r1); [|lia]. split.
  - destruct K3 as [->|(j & x & Hx & Hp & ->)]; [done|by eapply H2].
  - destruct H3 as [->|(j & x & Hx & Hp & ->)]; [done|by eapply K2].
Qed.
End min_such.

Lemma all_pow2_spec n f base x :
  all_pow2 n f base = true →
  base * 2 ^ Z.of_nat n <= x < (base + 1) * 2 ^ Z.of_nat n → f x = true.
Proof.
  revert base. induction n as [|n IH]; intros base; cbn [all_pow2].
  - intros H Hx. cbn in Hx. by replace x with base by lia.
  - rewrite Nat2Z.inj_succ, Z.pow_succ_r by lia. intros [H0 H1]%andb_true_iff Hx.
    destruct (Z.lt_ge_cases x ((2 * base + 1) * 2 ^ Z.of_nat n)).
    + apply (IH (2 * base)); [done|lia].
    + apply (IH (2 * base + 1)); [done|lia].
Qed.

Section slices.
Implicit Types (l src : bytes) (i n : nat).

Lemma length_splice i src l :
  (i + length src <= length l)%nat → length (splice i src l) = length l.
Proof.
  intros H. unfold splice. rewrite !length_app, length_take, length_drop. lia.
Qed.

Lemma slice_splice_same i src l :
  (i + length src <= length l)%nat → slice i (length src) (splice i src l) = src.
Proof.
  intros H. unfold slice, splice.
  rewrite drop_app_length' by (rewrite length_take; lia).
  by rewrite take_app_length.
Qed.

Lemma slice_splice_before i j n src l :
  (i + length src <= length l)%nat → (j + n <= i)%nat →
  slice j n (splice i src l) = slice j n l.
Proof.
  intros H Hj. unfold slice, splice.
  rewrite drop_app_le by (rewrite length_take; lia).
  rewrite take_app_le by (rewrite length_drop, length_take; lia).
  rewrite <- (take_drop i l) at 2.
  rewrite drop_app_le by (rewrite length_take; lia).
  by rewrite take_app_le by (rewrite length_drop, length_take; lia).
Qed.

Lemma slice_length i n l : (i + n <= length l)%nat → length (slice i n l) = n.
Proof. intros. unfold slice. rewrite length_take, length_drop. lia. Qed.
End slices.

Lemma le_bytes_length n x : length (le_bytes n x) = n.
Proof. revert x. induction n as [|n IH]; intros x; cbn; [done|]. by rewrite IH. Qed.

Lemma le_value_bytes n x : 0 <= x < 256 ^ Z.of_nat n → le_value (le_bytes n x) = x.
Proof.
  revert x. induction n as [|n IH]; intros x Hx; cbn [le_bytes le_value].
  - cbn in Hx. lia.
  - rewrite IH.
    + pose proof (Z.div_mod x 256 ltac:(lia)). lia.
    + rewrite Nat2Z.inj_succ, Z.pow_succ_r in Hx by lia.
      split; [apply Z.div_pos; lia|]. apply Z.div_lt_upper_bound; lia.
Qed.

Lemma le_bytes_inj n x y :
  0 <= x < 256 ^ Z.of_nat n → 0 <= y < 256 ^ Z.of_nat n →
  le_bytes n x = le_bytes n y → x = y.
Proof.
  intros Hx Hy E. by rewrite <- (le_value_bytes n x), <- (le_value_bytes n y), E.
Qed.

(** Pointwise facts of [<[i:=x]> l] used by every table. *)
Lemma lookup_insert_cases {A} (l : list A) i j x y :
  <[i:=x]> l !! j = Some y →
  (i = j ∧ (i < length l)%nat ∧ y = x) ∨ (i ≠ j ∧ l !! j = Some y).
Proof.
  rewrite list_lookup_insert_Some. naive_solver.
Qed.
