(* ===== verification/Config.v ===== *)
(** Compile-time constants of the firmware ([project_config.h] and
    [EEPROM_SIZES] of [persistence/eeprom/EepromCore.h]). *)
From S2P Require Import Prelude.

Definition DEV_MODE : bool := false.
Definition DEFAULT_DEV_MASTER : bool := true.
(** The enum value of [SERIAL_ADAPTER]. *)
Definition DEFAULT_ADAPTER : Z := 1.
Definition MASTER_BEACON_INTERVAL_MS : Z := 3000.
Definition STALE_MASTER_THRESHOLD_MS : Z := 9000.
Definition DUAL_MASTER_MODE : bool := false.
Definition RELAY_JITTER_MAX_MS : Z := 64.
Definition DEFAULT_MESH_KEY : bytes :=
  [0x12; 0x34; 0x56; 0x78; 0x9A; 0xBC; 0xDE; 0xF0;
   0x11; 0x22; 0x33; 0x44; 0x55; 0x66; 0x77; 0x88].
Definition DEFAULT_PEERS : list mac :=
  [[0xAA; 0xBB; 0xCC; 0xDD; 0xEE; 0x01]; [0xAA; 0xBB; 0xCC; 0xDD; 0xEE; 0x02]].

(** [TxPowerPreset]: the enum is its [uint8_t] value. *)
Definition TX_POWER_VALUES : list Z := [8; 56; 80].
Definition DEFAULT_TX_POWER_PRESET : Z := 2.

Definition LATTICE_E2E_KEYCACHE_MAX : nat := 10.
Definition LATTICE_E2E_KEYCACHE_MAX_LEAF : nat := 2.
Definition LATTICE_NEIGHBOR_MAX : nat := 8.
Definition LATTICE_REPLAY_MAX_ORIGINS : nat := 12.
Definition LATTICE_ROUTE_TABLE_MAX : nat := 16.
Definition LATTICE_DOWNLINK_PEER_MAX : nat := 4.
Definition MAX_HOPS : Z := 8.
Definition STALE_PEER_THRESHOLD_MS : Z := 8000.
Definition HEALTH_REPORT_INTERVAL_MS : Z := 30000.
Definition ROUTE_REPORT_INTERVAL_MS : Z := HEALTH_REPORT_INTERVAL_MS * 2.

Definition MESH_KEY_SIZE : nat := 16.
Definition MAX_PEERS : nat := 10.
Definition PEER_RECORD_SIZE : nat := 38.

Definition WIFI_CHANNEL : Z := 1.
Definition RED_LED_PIN : Z := 33.
Definition GREEN_LED_PIN : Z := 26.
Definition CONFIG_BUTTON_PIN : Z := 32.
Definition RESET_BUTTON_PIN : Z := 25.
Definition SEVSEG_DATA_PIN : Z := 23.
Definition SEVSEG_CLK_PIN : Z := 22.
Definition ENABLE_SEVSEG_DISPLAY : bool := true.
