(* ===== verification/MacTable.v ===== *)
(** The "MAC-keyed table" skeleton of [network/mac_table.h]: linear search by
    MAC and oldest-timestamp eviction, generic in the entry type (the stride
    and field offset of the code become a projection). *)
From S2P Require Import Prelude.

Section MacTable.
Context {E : Type}.
Implicit Types (es : list E).

(** [mac_table::find]: [None] is the [SIZE_MAX] result. *)
Definition find (key : E → mac) (es : list E) (m : mac) : option nat :=
  first_such (λ e, mac_eq (key e) m) es.

(** The loop of [mac_table::evict_oldest_by_ts] from index [i] on. *)
Fixpoint evict_loop (ts : E → Z) (es : list E) (i oldestIdx : nat) (oldestTs : Z) : nat :=
  match es with
  | [] => oldestIdx
  | e :: es' =>
      if ts e <? oldestTs then evict_loop ts es' (S i) i (ts e)
      else evict_loop ts es' (S i) oldestIdx oldestTs
  end.

Definition evict_oldest_by_ts (ts : E → Z) (es : list E) : nat :=
  match es with
  | [] => O
  | e :: es' => evict_loop ts es' 1 O (ts e)
  end.

Lemma find_Some key es m i :
  find key es m = Some i ↔
  (∃ e, es !! i = Some e ∧ key e = m) ∧
  (∀ j e, (j < i)%nat → es !! j = Some e → key e ≠ m).
Proof.
  unfold find. rewrite first_such_Some.
  setoid_rewrite mac_eq_true. setoid_rewrite mac_eq_false. done.
Qed.

Lemma find_None key es m :
  find key es m = None ↔ ∀ j e, es !! j = Some e → key e ≠ m.
Proof. unfold find. rewrite first_such_None. by setoid_rewrite mac_eq_false. Qed.

(** The loop returns either the running candidate or a strictly older entry
    of the suffix, and nothing in the suffix is older than the result. *)
Lemma evict_loop_spec ts all es i best bestTs :
  (∃ pre, all = pre ++ es ∧ length pre = i) →
  (∃ b, all !! best = Some b ∧ ts b = bestTs) →
  (∀ j e, (j < i)%nat → all !! j = Some e → bestTs <= ts e) →
  ∃ b, all !! evict_loop ts es i best bestTs = Some b ∧
       ∀ j e, all !! j = Some e → ts b <= ts e.
Proof.
  revert i best bestTs. induction es as [|e es IH]; intros i best bestTs
    (pre & Hall & Hlen) (b & Hb & Hbts) Hmin; cbn.
  - exists b. split; [done|]. intros j e Hj. rewrite Hbts.
    apply (Hmin j); [|done]. apply lookup_lt_Some in Hj.
    rewrite Hall, app_nil_r in Hj. lia.
  - assert (all !! i = Some e) as Hi.
    { rewrite Hall, lookup_app_r by lia. by rewrite Hlen, Nat.sub_diag. }
    assert (∃ pre', all = pre' ++ es ∧ length pre' = S i) as Hpre.
    { exists (pre ++ [e]). rewrite <- app_assoc, length_app. cbn. split; [done|lia]. }
    destruct (Z.ltb_spec (ts e) bestTs).
    + apply IH; [done|by exists e|]. intros j x Hj Hx.
      destruct (decide (j = i)) as [->|]; [by simplify_eq|].
      specialize (Hmin j x ltac:(lia) Hx). lia.
    + apply IH; [done|by exists b|]. intros j x Hj Hx.
      destruct (decide (j = i)) as [->|]; [by simplify_eq|].
      apply (Hmin j x); [lia|done].
Qed.

Lemma evict_oldest_spec ts es :
  es ≠ [] →
  ∃ b, es !! evict_oldest_by_ts ts es = Some b ∧
       ∀ j e, es !! j = Some e → ts b <= ts e.
Proof.
  destruct es as [|e0 es]; [done|]. intros _. cbn.
  apply evict_loop_spec; [by exists [e0]|by exists e0|].
  intros [|j] e Hj He; [by simplify_eq/=|lia].
Qed.

Lemma evict_oldest_lt ts es : es ≠ [] → (evict_oldest_by_ts ts es < length es)%nat.
Proof. intros (b & Hb & _)%(evict_oldest_spec ts). by eapply lookup_lt_Some. Qed.
End MacTable.

#[export] Hint Resolve evict_oldest_lt : lattice.
