(* ===== verification/SlotTable.v ===== *)
(** Bounded MAC-keyed tables with a validity flag per slot, evicting the oldest
    slot when full: the representation [ReplayCache] and [RouteTable] share on
    top of [network/mac_table.h].  The laws below are what their clients use. *)
From S2P Require Import Prelude MacTable.

Section SlotTable.
Context {E : Type} (key : E → mac) (valid : E → bool) (ts : E → Z).
Implicit Types (t : list E) (m : mac) (e : E) (i j : nat).

(** [mac_table::find] followed by the test of the slot's flag. *)
Definition find_valid t m : option nat :=
  match find key t m with
  | Some idx =>
      match t !! idx with
      | Some e => if valid e then Some idx else None
      | None => None
      end
  | None => None
  end.

(** First free slot, else the oldest. *)
Definition alloc t : nat :=
  match first_such (λ e, negb (valid e)) t with
  | Some i => i
  | None => evict_oldest_by_ts ts t
  end.

Definition write t e : list E :=
  <[match find_valid t (key e) with Some i => i | None => alloc t end := e]> t.

Definition slot_lookup t m : option E := i ← find_valid t m; t !! i.

(** Slots are filled from the front and never freed one by one; a MAC has at
    most one valid slot. *)
Record slots_wf (n : nat) t : Prop := {
  swf_length : length t = n;
  swf_prefix : ∀ i j ei ej, (i < j)%nat → t !! i = Some ei → t !! j = Some ej →
    valid ej = true → valid ei = true;
  swf_unique : ∀ i j ei ej, t !! i = Some ei → t !! j = Some ej →
    valid ei = true → valid ej = true → key ei = key ej → i = j
}.

Lemma slots_wf_empty n e : valid e = false → slots_wf n (replicate n e).
Proof.
  intros Hv. split; [apply length_replicate|..].
  - intros i j ei ej _ [-> _]%lookup_replicate [-> _]%lookup_replicate. congruence.
  - intros i j ei ej [-> _]%lookup_replicate. congruence.
Qed.

Context (n : nat).

Lemma find_valid_Some t m i :
  slots_wf n t →
  find_valid t m = Some i ↔ ∃ e, t !! i = Some e ∧ valid e = true ∧ key e = m.
Proof.
  intros W. unfold find_valid. split.
  - destruct (find key t m) as [k|] eqn:F; [|done].
    apply find_Some in F as [(e & He & Hm) _]. rewrite He.
    destruct (valid e) eqn:V; [|done]. intros [= <-]. eauto.
  - intros (e & He & V & Hm). destruct (find key t m) as [k|] eqn:F.
    + apply find_Some in F as [(e' & He' & Hm') Hmin]. rewrite He'.
      assert (k <= i)%nat by (destruct (le_lt_dec k i); [done|exfalso; by eapply Hmin]).
      assert (valid e' = true) as V'.
      { destruct (decide (k = i)) as [->|]; [by simplify_eq|].
        eapply (swf_prefix n t W k i); [lia|done..]. }
      rewrite V'. f_equal. eapply (swf_unique n t W); [done..|]. congruence.
    + rewrite find_None in F. exfalso. by eapply F.
Qed.

Lemma slot_lookup_Some t m e :
  slots_wf n t →
  slot_lookup t m = Some e ↔ ∃ i, t !! i = Some e ∧ valid e = true ∧ key e = m.
Proof.
  intros W. unfold slot_lookup. rewrite bind_Some. split.
  - intros (i & F & He). apply (find_valid_Some t m i W) in F as (e' & He' & ?).
    simplify_eq. eauto.
  - intros (i & He & V & Hm). exists i. split; [|done].
    apply (find_valid_Some t m i W). eauto.
Qed.

Lemma slot_lookup_None t m :
  slots_wf n t → slot_lookup t m = None ↔ find_valid t m = None.
Proof.
  intros W. unfold slot_lookup. destruct (find_valid t m) as [i|] eqn:F; cbn; [|done].
  apply (find_valid_Some t m i W) in F as (e & -> & _). done.
Qed.

(** The slot [write] uses. *)
Definition write_slot t m : nat :=
  match find_valid t m with Some i => i | None => alloc t end.

Lemma alloc_lt t : (0 < n)%nat → slots_wf n t → (alloc t < length t)%nat.
Proof.
  intros Hn W. unfold alloc. destruct (first_such _ t) eqn:F; [by eapply first_such_lt|].
  apply evict_oldest_lt. intros ->. apply (swf_length n) in W. cbn in W. lia.
Qed.

Lemma write_slot_lt t m : (0 < n)%nat → slots_wf n t → (write_slot t m < length t)%nat.
Proof.
  intros Hn W. unfold write_slot. destruct (find_valid t m) as [i|] eqn:F.
  - apply (find_valid_Some t m i W) in F as (e & He & _). by eapply lookup_lt_Some.
  - by apply alloc_lt.
Qed.

Lemma write_slot_other t m j e :
  slots_wf n t → t !! j = Some e → valid e = true → j ≠ write_slot t m → key e ≠ m.
Proof.
  intros W He V Hj Hm. apply Hj. unfold write_slot.
  assert (find_valid t m = Some j) as ->; [|done].
  apply find_valid_Some; eauto.
Qed.

Lemma write_slot_prefix t m i e :
  slots_wf n t → (i < write_slot t m)%nat → t !! i = Some e → valid e = true.
Proof.
  intros W Hi He. unfold write_slot in Hi. destruct (find_valid t m) as [k|] eqn:F.
  - apply (find_valid_Some t m k W) in F as (e' & He' & V & _).
    by eapply (swf_prefix n t W i k).
  - unfold alloc in Hi. destruct (first_such _ t) as [k|] eqn:F1.
    + apply first_such_Some in F1 as [_ Hmin]. specialize (Hmin i e Hi He).
      by apply negb_false_iff.
    + rewrite first_such_None in F1. by apply negb_false_iff, (F1 i).
Qed.

Lemma write_wf t e : valid e = true → slots_wf n t → slots_wf n (write t e).
Proof.
  intros V W. change (write t e) with (<[write_slot t (key e) := e]> t). split.
  - rewrite length_insert. by apply W.
  - intros i j ei ej Hij Hi Hj Vj.
    apply lookup_insert_cases in Hi as [(_ & _ & ->)|[_ Hi]]; [done|].
    apply lookup_insert_cases in Hj as [(Ej & _ & _)|[_ Hj]].
    + subst j. by eapply (write_slot_prefix t (key e) i).
    + by eapply (swf_prefix n t W i j).
  - intros i j ei ej Hi Hj Vi Vj Hm.
    apply lookup_insert_cases in Hi as [(<- & _ & ->)|[Hik Hi]];
    apply lookup_insert_cases in Hj as [(<- & _ & ->)|[Hjk Hj]]; [done|..].
    + exfalso. by eapply (write_slot_other t (key e) j ej).
    + exfalso. by eapply (write_slot_other t (key e) i ei).
    + by eapply (swf_unique n t W).
Qed.

Lemma lookup_write_same t e :
  (0 < n)%nat → valid e = true → slots_wf n t → slot_lookup (write t e) (key e) = Some e.
Proof.
  intros Hn V W. apply slot_lookup_Some; [by apply write_wf|].
  exists (write_slot t (key e)). split_and!; [|done..].
  apply list_lookup_insert_eq. by apply write_slot_lt.
Qed.

(** The key already has a slot, or a slot is free. *)
Definition has_room t m : Prop :=
  find_valid t m ≠ None ∨ ∃ i e, t !! i = Some e ∧ valid e = false.

Lemma write_slot_room t m e :
  slots_wf n t → has_room t m → t !! write_slot t m = Some e → valid e = true → key e = m.
Proof.
  intros W R He V. unfold write_slot in He. destruct (find_valid t m) as [i|] eqn:F.
  - apply (find_valid_Some t m i W) in F as (e' & He' & _ & Hk). by simplify_eq.
  - destruct R as [|(i & e' & Hi & Vi)]; [done|]. unfold alloc in He.
    destruct (first_such _ t) as [k|] eqn:F1.
    + apply first_such_Some in F1 as [(x & Hx & Vx) _]. simplify_eq.
      by rewrite V in Vx.
    + rewrite first_such_None in F1. specialize (F1 i e' Hi). by rewrite Vi in F1.
Qed.

Lemma lookup_write_room t e m :
  valid e = true → slots_wf n t → has_room t (key e) → m ≠ key e →
  slot_lookup (write t e) m = slot_lookup t m.
Proof.
  intros V W R Hm. apply option_eq. intros x.
  rewrite !slot_lookup_Some by (try apply write_wf; done). split.
  - intros (i & Hi & Vx & <-).
    apply lookup_insert_cases in Hi as [(_ & _ & ->)|[_ Hi]]; [done|eauto].
  - intros (i & Hi & Vx & <-). exists i. split_and!; [|done..].
    unfold write. rewrite list_lookup_insert_ne; [done|].
    change (write_slot t (key e) ≠ i). intros <-. by eapply Hm, write_slot_room.
Qed.

(** A full table loses exactly its oldest slot. *)
Lemma lookup_write_full t e :
  (0 < n)%nat → valid e = true → slots_wf n t → ¬ has_room t (key e) →
  ∃ old, slot_lookup t (key old) = Some old ∧
    (∀ i x, t !! i = Some x → ts old <= ts x) ∧
    ∀ m, m ≠ key e →
      slot_lookup (write t e) m = if mac_eq m (key old) then None else slot_lookup t m.
Proof.
  intros Hn V W R.
  assert (find_valid t (key e) = None) as F.
  { destruct (find_valid t (key e)) eqn:F; [|done]. exfalso. apply R. left. by rewrite F. }
  assert (∀ i x, t !! i = Some x → valid x = true) as Hall.
  { intros i x Hx. destruct (valid x) eqn:Vx; [done|]. exfalso. apply R. right. eauto. }
  assert (alloc t = evict_oldest_by_ts ts t) as Ea.
  { unfold alloc. destruct (first_such _ t) as [k|] eqn:F1; [|done].
    apply first_such_Some in F1 as [(x & Hx & Vx) _]. by rewrite (Hall k x Hx) in Vx. }
  destruct (evict_oldest_spec ts t) as (old & Hold & Hmin).
  { intros ->. apply (swf_length n) in W. cbn in W. lia. }
  exists old. split_and!; [apply slot_lookup_Some; eauto|done|].
  intros m Hm. apply option_eq. intros x.
  rewrite slot_lookup_Some by by apply write_wf.
  unfold write. rewrite F, Ea. destruct (mac_eq m (key old)) eqn:Em; mac_cases.
  - split; [|done]. intros (i & Hi & Vx & Hk).
    apply lookup_insert_cases in Hi as [(_ & _ & ->)|[Hi Hx]]; [done|].
    exfalso. apply Hi. symmetry. eapply (swf_unique n t W i _ x old); eauto. congruence.
  - rewrite slot_lookup_Some by done. split.
    + intros (i & Hi & Vx & Hk).
      apply lookup_insert_cases in Hi as [(_ & _ & ->)|[_ Hi]]; [done|eauto].
    + intros (i & Hi & Vx & Hk). exists i. split_and!; [|done..].
      rewrite list_lookup_insert_ne; [done|]. intros <-. by simplify_eq.
Qed.

(** Pigeonhole: a table whose keys come from at most [n] MACs never evicts. *)
Lemma room_of_bound t m (O : list mac) :
  slots_wf n t → (length O <= n)%nat → m ∈ O →
  (∀ i e, t !! i = Some e → valid e = true → key e ∈ O) → has_room t m.
Proof.
  intros W HO Hm Hkeys. destruct (find_valid t m) eqn:F; [left; by rewrite F|].
  destruct (first_such (λ e, negb (valid e)) t) as [i|] eqn:F1.
  - apply first_such_Some in F1 as [(e & He & Ve) _]. right. exists i, e.
    split; [done|]. by apply negb_true_iff.
  - exfalso. rewrite first_such_None in F1.
    assert (∀ i e, t !! i = Some e → valid e = true) as Hall.
    { intros i e He. by apply negb_false_iff, (F1 i). }
    assert (NoDup (m :: (key <$> t))) as Hnd.
    { constructor.
      - intros (e & -> & [i He]%list_elem_of_lookup)%list_elem_of_fmap.
        assert (find_valid t (key e) = Some i) as E'; [|congruence].
        apply find_valid_Some; eauto.
      - apply NoDup_alt. intros i j k Hi Hj.
        apply list_lookup_fmap_Some in Hi as (ei & -> & Hi).
        apply list_lookup_fmap_Some in Hj as (ej & Hk & Hj).
        eapply (swf_unique n t W); eauto. }
    assert (m :: (key <$> t) ⊆+ O) as Hs%submseteq_length.
    { apply NoDup_submseteq; [done|]. intros x [->|Hx]%elem_of_cons; [done|].
      apply list_elem_of_fmap in Hx as (e & -> & [i He]%list_elem_of_lookup). eauto. }
    cbn in Hs. rewrite length_fmap, (swf_length n t W) in Hs. lia.
Qed.
End SlotTable.
#[export] Hint Resolve write_wf slots_wf_empty : lattice.
