(* ===== verification/NeighborTable.v ===== *)
(** [mesh/NeighborTable.h]: forwarding candidates toward the master, learned
    from overheard beacons.  A table is the list of its
    [LATTICE_NEIGHBOR_MAX] slots. *)
From S2P Require Import Prelude Config MacTable.

Record nentry := NEntry {
  n_mac : mac;
  masterDistance : Z;
  n_valid : bool;
  n_lastSeenMs : Z
}.

Abbreviation neighbor_table := (list nentry).

Definition nentry_zero : nentry := NEntry ZERO_MAC 0 false 0.
Definition neighbors_clear : neighbor_table := replicate LATTICE_NEIGHBOR_MAX nentry_zero.

(** [nowMs - e.lastSeenMs >= STALE_PEER_THRESHOLD_MS] on [uint64_t]. *)
Definition n_stale (nowMs : Z) (e : nentry) : bool :=
  STALE_PEER_THRESHOLD_MS <=? nowMs -64 n_lastSeenMs e.

Definition findSlot (t : neighbor_table) (m : mac) : option nat :=
  match find n_mac t m with
  | None => None
  | Some idx =>
      match t !! idx with
      | Some e => if negb (n_valid e) then None else Some idx
      | None => None
      end
  end.

(** The [farthest] loop of [allocateSlot]: strictly greater wins, so ties keep
    the lowest index. *)
Fixpoint farthest_loop (es : list nentry) (i idx : nat) (dist : Z) : nat :=
  match es with
  | [] => idx
  | e :: es' =>
      if dist <? masterDistance e then farthest_loop es' (S i) i (masterDistance e)
      else farthest_loop es' (S i) idx dist
  end.

Definition farthest (t : neighbor_table) : nat :=
  match t with
  | [] => O
  | e :: es => farthest_loop es 1 O (masterDistance e)
  end.

Definition allocateSlot (t : neighbor_table) (nowMs : Z) : nat :=
  match first_such (λ e, negb (n_valid e)) t with
  | Some i => i
  | None =>
      match first_such (n_stale nowMs) t with
      | Some i => i
      | None => farthest t
      end
  end.

Definition observe (t : neighbor_table) (m : mac) (distance nowMs : Z) : neighbor_table :=
  let slot := match findSlot t m with
              | Some i => i
              | None => allocateSlot t nowMs
              end in
  <[slot := NEntry m distance true nowMs]> t.

(** [minFreshDistance]: the fold over valid, fresh entries. *)
Fixpoint min_fresh_loop (nowMs : Z) (es : list nentry) (best : Z) : Z :=
  match es with
  | [] => best
  | e :: es' =>
      if negb (n_valid e) then min_fresh_loop nowMs es' best
      else if n_stale nowMs e then min_fresh_loop nowMs es' best
      else min_fresh_loop nowMs es' (if masterDistance e <? best then masterDistance e else best)
  end.

Definition minFreshDistance (t : neighbor_table) (nowMs : Z) : Z :=
  min_fresh_loop nowMs t 0xFF.

(** The local variables of [observeAndMinDistance]; an index still at
    [LATTICE_NEIGHBOR_MAX] is [None]. *)
Record fold_state := FoldState {
  matchIdx : option nat;
  firstInvalidIdx : option nat;
  firstStaleIdx : option nat;
  farthestIdx : option nat;
  farthestDistance : Z;
  bestOther : Z
}.

Definition fold_init : fold_state := FoldState None None None None 0 0xFF.

Definition fold_step (m : mac) (nowMs : Z) (i : nat) (e : nentry) (s : fold_state) : fold_state :=
  if negb (n_valid e) then
    FoldState (matchIdx s)
      (match firstInvalidIdx s with None => Some i | Some k => Some k end)
      (firstStaleIdx s) (farthestIdx s) (farthestDistance s) (bestOther s)
  else if mac_eq (n_mac e) m then
    FoldState (Some i) (firstInvalidIdx s) (firstStaleIdx s) (farthestIdx s)
      (farthestDistance s) (bestOther s)
  else
    let stale := n_stale nowMs e in
    let take_far := match farthestIdx s with
                    | None => true
                    | Some _ => farthestDistance s <? masterDistance e
                    end in
    FoldState (matchIdx s) (firstInvalidIdx s)
      (if stale then match firstStaleIdx s with None => Some i | Some k => Some k end
       else firstStaleIdx s)
      (if take_far then Some i else farthestIdx s)
      (if take_far then masterDistance e else farthestDistance s)
      (if stale then bestOther s
       else if masterDistance e <? bestOther s then masterDistance e else bestOther s).

Fixpoint fold_loop (m : mac) (nowMs : Z) (es : list nentry) (i : nat) (s : fold_state) : fold_state :=
  match es with
  | [] => s
  | e :: es' => fold_loop m nowMs es' (S i) (fold_step m nowMs i e s)
  end.

(** [slotIdx] selection after the loop; [LATTICE_NEIGHBOR_MAX] would be the
    out-of-range index the code never reaches. *)
Definition fold_slot (s : fold_state) : nat :=
  match matchIdx s with
  | Some i => i
  | None =>
      match firstInvalidIdx s with
      | Some i => i
      | None =>
          match firstStaleIdx s with
          | Some i => i
          | None =>
              match farthestIdx s with
              | Some i => i
              | None => LATTICE_NEIGHBOR_MAX
              end
          end
      end
  end.

Definition observeAndMinDistance (t : neighbor_table) (m : mac) (distance nowMs : Z)
    : neighbor_table * Z :=
  let s := fold_loop m nowMs t 0 fold_init in
  (<[fold_slot s := NEntry m distance true nowMs]> t,
   if distance <? bestOther s then distance else bestOther s).

(** [selectNextHop]: the loop keeps the freshest admissible entry. *)
Definition hop_candidate (ownDistance nowMs : Z) (e : nentry) : bool :=
  n_valid e && negb (n_stale nowMs e) && negb (ownDistance <=? masterDistance e).

Fixpoint next_hop_loop (ownDistance nowMs : Z) (es : list nentry) (best : option nentry)
    : option nentry :=
  match es with
  | [] => best
  | e :: es' =>
      if negb (n_valid e) then next_hop_loop ownDistance nowMs es' best
      else if n_stale nowMs e then next_hop_loop ownDistance nowMs es' best
      else if ownDistance <=? masterDistance e then next_hop_loop ownDistance nowMs es' best
      else
        next_hop_loop ownDistance nowMs es'
          (match best with
           | None => Some e
           | Some b => if n_lastSeenMs b <? n_lastSeenMs e then Some e else Some b
           end)
  end.

Definition selectNextHop (t : neighbor_table) (ownDistance nowMs : Z) : option mac :=
  n_mac <$> next_hop_loop ownDistance nowMs t None.

Definition contains (t : neighbor_table) (m : mac) : bool :=
  match find n_mac t m with
  | Some idx => match t !! idx with Some e => n_valid e | None => false end
  | None => false
  end.

(** * Well-formed tables

    Slots are filled from the front and never invalidated one by one, so valid
    slots form a prefix; and no two valid slots carry the same MAC. *)
Record neighbors_wf (t : neighbor_table) : Prop := {
  nwf_length : length t = LATTICE_NEIGHBOR_MAX;
  nwf_prefix : ∀ i j ei ej, (i < j)%nat → t !! i = Some ei → t !! j = Some ej →
    n_valid ej = true → n_valid ei = true;
  nwf_unique : ∀ i j ei ej, t !! i = Some ei → t !! j = Some ej →
    n_valid ei = true → n_valid ej = true → n_mac ei = n_mac ej → i = j
}.

(** An entry that counts as a live route: valid and fresh at [nowMs]. *)
Definition n_fresh (nowMs : Z) (e : nentry) : bool := n_valid e && negb (n_stale nowMs e).

(** The slot that holds [m], as a relation. *)
Definition slot_of (t : neighbor_table) (m : mac) (i : nat) : Prop :=
  ∃ e, t !! i = Some e ∧ n_valid e = true ∧ n_mac e = m.

Lemma n_stale_now m d nowMs : n_stale nowMs (NEntry m d true nowMs) = false.
Proof. unfold n_stale. cbn. by rewrite sub64_diag. Qed.

Lemma neighbors_clear_wf : neighbors_wf neighbors_clear.
Proof.
  unfold neighbors_clear. split.
  - apply length_replicate.
  - intros i j ei ej _ [-> _]%lookup_replicate [-> _]%lookup_replicate. done.
  - intros i j ei ej [-> _]%lookup_replicate. done.
Qed.

Lemma farthest_loop_spec all es i idx dist :
  (∃ pre, all = pre ++ es ∧ length pre = i) →
  (∃ e, all !! idx = Some e ∧ masterDistance e = dist) →
  (∀ j e, (j < i)%nat → all !! j = Some e → masterDistance e <= dist) →
  ∃ b, all !! farthest_loop es i idx dist = Some b ∧
       ∀ j e, all !! j = Some e → masterDistance e <= masterDistance b.
Proof.
  revert i idx dist. induction es as [|e es IH]; intros i idx dist
    (pre & Hall & Hlen) (b & Hb & Hbd) Hmax; cbn.
  - exists b. split; [done|]. intros j e Hj. rewrite Hbd. apply (Hmax j); [|done].
    apply lookup_lt_Some in Hj. rewrite Hall, app_nil_r in Hj. lia.
  - assert (all !! i = Some e) as Hi.
    { rewrite Hall, lookup_app_r by lia. by rewrite Hlen, Nat.sub_diag. }
    assert (∃ pre', all = pre' ++ es ∧ length pre' = S i) as Hpre.
    { exists (pre ++ [e]). rewrite <- app_assoc, length_app. cbn. split; [done|lia]. }
    destruct (Z.ltb_spec dist (masterDistance e));
      (apply IH; [done|eauto|]; intros j x Hj Hx;
       destruct (decide (j = i)) as [->|]; [simplify_eq; lia|];
       specialize (Hmax j x ltac:(lia) Hx); lia).
Qed.

Lemma farthest_spec t :
  t ≠ [] →
  ∃ b, t !! farthest t = Some b ∧
       ∀ j e, t !! j = Some e → masterDistance e <= masterDistance b.
Proof.
  destruct t as [|e0 es]; [done|]. intros _. cbn.
  apply farthest_loop_spec; [by exists [e0]|by exists e0|].
  intros [|j] e Hj He; [simplify_eq/=; lia|lia].
Qed.

Lemma allocateSlot_lt t nowMs : neighbors_wf t → (allocateSlot t nowMs < length t)%nat.
Proof.
  intros W. unfold allocateSlot.
  destruct (first_such (λ e, negb (n_valid e)) t) eqn:E1; [by eapply first_such_lt|].
  destruct (first_such (n_stale nowMs) t) eqn:E2; [by eapply first_such_lt|].
  destruct (farthest_spec t) as (b & Hb & _); [|by eapply lookup_lt_Some].
  intros ->. by destruct W.
Qed.

(** [findSlot] is exact on well-formed tables. *)
Lemma findSlot_slot_of t m i : neighbors_wf t → findSlot t m = Some i ↔ slot_of t m i.
Proof.
  intros W. unfold findSlot, slot_of. split.
  - destruct (find n_mac t m) as [k|] eqn:F; [|done].
    apply find_Some in F as [(e & He & Hm) _]. rewrite He.
    destruct (n_valid e) eqn:V; cbn; [|done]. intros [= <-]. eauto.
  - intros (e & He & V & Hm). destruct (find n_mac t m) as [k|] eqn:F.
    + apply find_Some in F as [(e' & He' & Hm') Hmin]. rewrite He'.
      assert (k <= i)%nat by (destruct (le_lt_dec k i); [done|exfalso; by eapply Hmin]).
      assert (n_valid e' = true) as V'.
      { destruct (decide (k = i)) as [->|]; [by simplify_eq|].
        eapply (nwf_prefix t W k i); [lia|done..]. }
      rewrite V'. cbn. f_equal. by eapply nwf_unique; try done; rewrite Hm, Hm'.
    + rewrite find_None in F. exfalso. by eapply F.
Qed.

Lemma findSlot_None t m : neighbors_wf t → findSlot t m = None ↔ ∀ i, ¬ slot_of t m i.
Proof.
  intros W. split.
  - intros F i Hi. apply findSlot_slot_of in Hi; [congruence|done].
  - intros H. destruct (findSlot t m) eqn:F; [|done].
    exfalso. eapply H. by apply findSlot_slot_of.
Qed.

(** The slot [observe] writes: the one that holds [m], else an allocated one. *)
Definition observe_slot (t : neighbor_table) (m : mac) (nowMs : Z) : nat :=
  match findSlot t m with Some i => i | None => allocateSlot t nowMs end.

Lemma observe_unfold t m d nowMs :
  observe t m d nowMs = <[observe_slot t m nowMs := NEntry m d true nowMs]> t.
Proof. done. Qed.

Lemma observe_slot_lt t m nowMs : neighbors_wf t → (observe_slot t m nowMs < length t)%nat.
Proof.
  intros W. unfold observe_slot. destruct (findSlot t m) as [i|] eqn:F.
  - apply findSlot_slot_of in F as (e & He & _); [|done]. by eapply lookup_lt_Some.
  - by apply allocateSlot_lt.
Qed.

(** Any other valid slot carries a different MAC. *)
Lemma observe_slot_other t m nowMs j e :
  neighbors_wf t → t !! j = Some e → n_valid e = true → j ≠ observe_slot t m nowMs → n_mac e ≠ m.
Proof.
  intros W He V Hj Hm. apply Hj. unfold observe_slot.
  assert (findSlot t m = Some j) as ->; [|done].
  apply findSlot_slot_of; [done|]. by exists e.
Qed.

(** Every slot before the written one is valid. *)
Lemma observe_slot_prefix t m nowMs i e :
  neighbors_wf t → (i < observe_slot t m nowMs)%nat → t !! i = Some e → n_valid e = true.
Proof.
  intros W Hi He. unfold observe_slot in Hi. destruct (findSlot t m) as [k|] eqn:F.
  - apply findSlot_slot_of in F as (e' & He' & V & _); [|done]. by eapply (nwf_prefix t W i k).
  - unfold allocateSlot in Hi. destruct (first_such _ t) as [k|] eqn:F1.
    + apply first_such_Some in F1 as [_ Hmin]. specialize (Hmin i e Hi He).
      by apply negb_false_iff.
    + rewrite first_such_None in F1. by apply negb_false_iff, (F1 i).
Qed.

Lemma observe_wf_aux t m d nowMs : neighbors_wf t → neighbors_wf (observe t m d nowMs).
Proof.
  intros W. rewrite observe_unfold. split.
  - rewrite length_insert. by apply W.
  - intros i j ei ej Hij Hi Hj V.
    apply lookup_insert_cases in Hi as [(_ & _ & ->)|[_ Hi]]; [done|].
    apply lookup_insert_cases in Hj as [(Ej & _ & _)|[_ Hj]].
    + subst j. by eapply (observe_slot_prefix t m nowMs i).
    + by eapply (nwf_prefix t W i j).
  - intros i j ei ej Hi Hj Vi Vj Hm.
    apply lookup_insert_cases in Hi as [(<- & _ & ->)|[Hik Hi]];
    apply lookup_insert_cases in Hj as [(<- & _ & ->)|[Hjk Hj]]; cbn in *.
    + done.
    + exfalso. by eapply (observe_slot_other t m nowMs j ej).
    + exfalso. by eapply (observe_slot_other t m nowMs i ei).
    + by eapply nwf_unique.
Qed.

(** * The fused routine against its reference *)

(** Entries the fused minimum ranges over. *)
Definition other_fresh (m : mac) (nowMs : Z) (e : nentry) : bool :=
  n_valid e && negb (mac_eq (n_mac e) m) && negb (n_stale nowMs e).

Lemma minFreshDistance_such t nowMs :
  minFreshDistance t nowMs = min_such (n_fresh nowMs) masterDistance t 0xFF.
Proof.
  unfold minFreshDistance. generalize 0xFF.
  induction t as [|e t IH]; intros best; cbn; [done|].
  rewrite <- !IH. unfold n_fresh. by destruct (n_valid e), (n_stale nowMs e).
Qed.

Section fold_loop.
Context (m : mac) (nowMs : Z).

Lemma fold_bestOther es i s :
  bestOther (fold_loop m nowMs es i s) =
  min_such (other_fresh m nowMs) masterDistance es (bestOther s).
Proof.
  revert i s. induction es as [|e es IH]; intros i s; cbn; [done|].
  rewrite IH. f_equal. unfold fold_step, other_fresh.
  by destruct (n_valid e), (mac_eq (n_mac e) m), (n_stale nowMs e).
Qed.

Lemma fold_firstInvalid es i s :
  firstInvalidIdx (fold_loop m nowMs es i s) =
  match firstInvalidIdx s with
  | Some k => Some k
  | None => (λ k, (i + k)%nat) <$> first_such (λ e, negb (n_valid e)) es
  end.
Proof.
  revert i s. induction es as [|e es IH]; intros i s; cbn.
  - by destruct (firstInvalidIdx s).
  - rewrite IH. unfold fold_step. destruct (n_valid e); cbn.
    + destruct (mac_eq (n_mac e) m); cbn; (destruct (firstInvalidIdx s); [done|]);
        (destruct (first_such _ es); cbn; [f_equal; lia|done]).
    + destruct (firstInvalidIdx s); [done|]. f_equal; lia.
Qed.

(** No valid entry of [es] carries [m]. *)
Definition no_match (es : list nentry) : Prop :=
  ∀ e, e ∈ es → n_valid e = true → n_mac e ≠ m.

Lemma fold_match_None es i s :
  no_match es → matchIdx (fold_loop m nowMs es i s) = matchIdx s.
Proof.
  revert i s. induction es as [|e es IH]; intros i s H; cbn; [done|].
  rewrite IH by (intros x Hx; apply H; by constructor). unfold fold_step.
  destruct (n_valid e) eqn:V; cbn; [|done].
  destruct (mac_eq (n_mac e) m) eqn:M; cbn; [|done]. mac_cases.
  exfalso. by apply (H e); [left|..].
Qed.

Lemma fold_match_Some es i s k :
  (∃ e, es !! k = Some e ∧ n_valid e = true ∧ n_mac e = m) →
  (∀ j e, es !! j = Some e → n_valid e = true → n_mac e = m → j = k) →
  matchIdx (fold_loop m nowMs es i s) = Some (i + k)%nat.
Proof.
  revert i s k. induction es as [|e es IH]; intros i s k (e0 & He0 & V & M) U; cbn.
  { by rewrite lookup_nil in He0. }
  destruct k as [|k].
  - injection He0 as ->. rewrite fold_match_None.
    + apply mac_eq_true in M. unfold fold_step. rewrite V, M. cbn. f_equal; lia.
    + intros x [j Hj]%list_elem_of_lookup V' M'.
      specialize (U (S j) x Hj V' M'). lia.
  - rewrite (IH _ _ k).
    + f_equal; lia.
    + by exists e0.
    + intros j x Hx V' M'. specialize (U (S j) x Hx V' M'). lia.
Qed.

Lemma fold_firstStale es i s :
  no_match es → (∀ e, e ∈ es → n_valid e = true) →
  firstStaleIdx (fold_loop m nowMs es i s) =
  match firstStaleIdx s with
  | Some k => Some k
  | None => (λ k, (i + k)%nat) <$> first_such (n_stale nowMs) es
  end.
Proof.
  revert i s. induction es as [|e es IH]; intros i s H Hv; cbn.
  - by destruct (firstStaleIdx s).
  - rewrite IH; [|intros x Hx; apply H; by constructor
                 |intros x Hx; apply Hv; by constructor].
    assert (n_valid e = true) as V by (apply Hv; left).
    assert (mac_eq (n_mac e) m = false) as M.
    { apply mac_eq_false, H; [left|done]. }
    unfold fold_step. rewrite V, M. cbn.
    destruct (firstStaleIdx s), (n_stale nowMs e); cbn; try done.
    + f_equal; lia.
    + destruct (first_such _ es); cbn; [|done]. f_equal; lia.
Qed.

Lemma fold_farthest es i s k :
  no_match es → (∀ e, e ∈ es → n_valid e = true) →
  farthestIdx s = Some k →
  farthestIdx (fold_loop m nowMs es i s) = Some (farthest_loop es i k (farthestDistance s)).
Proof.
  revert i s k. induction es as [|e es IH]; intros i s k H Hv Hs; cbn; [done|].
  assert (n_valid e = true) as V by (apply Hv; left).
  assert (mac_eq (n_mac e) m = false) as M.
  { apply mac_eq_false, H; [left|done]. }
  assert (no_match es) by (intros x Hx; apply H; by constructor).
  assert (∀ x, x ∈ es → n_valid x = true) by (intros x Hx; apply Hv; by constructor).
  destruct (farthestDistance s <? masterDistance e) eqn:F.
  - rewrite (IH _ _ i); try done; unfold fold_step; rewrite V, M, Hs; cbn; by rewrite F.
  - rewrite (IH _ _ k); try done; unfold fold_step; rewrite V, M, Hs; cbn; by rewrite F.
Qed.
End fold_loop.

Lemma no_match_slot t m : (∀ i, ¬ slot_of t m i) → no_match m t.
Proof. intros H e [i Hi]%list_elem_of_lookup V M. eapply (H i). by exists e. Qed.

(** The one-pass slot search picks the slot [observe] would pick. *)
Lemma fold_slot_observe t m nowMs :
  neighbors_wf t → fold_slot (fold_loop m nowMs t 0 fold_init) = observe_slot t m nowMs.
Proof.
  intros W. unfold fold_slot, observe_slot. destruct (findSlot t m) as [k|] eqn:F.
  - apply findSlot_slot_of in F as (e & He & V & M); [|done].
    rewrite (fold_match_Some _ _ _ _ _ k); [done|by exists e|].
    intros j x Hx V' M'. eapply nwf_unique; try done. by rewrite M, M'.
  - pose proof (no_match_slot t m (proj1 (findSlot_None t m W) F)) as NM.
    rewrite fold_match_None by done. cbn. rewrite fold_firstInvalid. cbn.
    unfold allocateSlot. destruct (first_such _ t) as [i|] eqn:F1; cbn; [done|].
    assert (∀ e, e ∈ t → n_valid e = true) as Hv.
    { rewrite first_such_None in F1. intros e [j Hj]%list_elem_of_lookup.
      by apply negb_false_iff, (F1 j). }
    rewrite fold_firstStale by done. cbn.
    destruct (first_such (n_stale nowMs) t) as [i|]; cbn; [done|].
    destruct t as [|e0 t]; [by destruct W|]. cbn [fold_loop].
    assert (n_valid e0 = true) as V0 by (apply Hv; left).
    assert (mac_eq (n_mac e0) m = false) as M0 by (apply mac_eq_false, NM; [left|done]).
    rewrite (fold_farthest _ _ _ _ _ O).
    + unfold fold_step. rewrite V0, M0. cbn. done.
    + intros x Hx. apply NM. by constructor.
    + intros x Hx. apply Hv. by constructor.
    + unfold fold_step. by rewrite V0, M0.
Qed.

Lemma evicted_other_min t m nowMs j e :
  neighbors_wf t → t !! j = Some e → other_fresh m nowMs e = true →
  j = observe_slot t m nowMs →
  ∃ j' e', j' ≠ j ∧ t !! j' = Some e' ∧ n_fresh nowMs e' = true ∧
           masterDistance e' <= masterDistance e.
Proof.
  intros W He O ->. unfold other_fresh in O. bsimp. mac_cases.
  unfold observe_slot in He |- *. destruct (findSlot t m) as [k|] eqn:F.
  { apply findSlot_slot_of in F as (e' & He' & _ & M); [|done]. by simplify_eq. }
  unfold allocateSlot in He |- *.
  destruct (first_such (λ e, negb (n_valid e)) t) as [k|] eqn:F1.
  { apply first_such_Some in F1 as [(e' & He' & V) _]. simplify_eq. bsimp. congruence. }
  destruct (first_such (n_stale nowMs) t) as [k|] eqn:F2.
  { apply first_such_Some in F2 as [(e' & He' & V) _]. simplify_eq. congruence. }
  rewrite first_such_None in F1, F2.
  assert (t ≠ []) as Hne by (intros ->; by destruct W).
  destruct (farthest_spec t Hne) as (b & Hb & Hmax). simplify_eq.
  set (j' := if decide (farthest t = 0%nat) then 1%nat else 0%nat).
  destruct (lookup_lt_is_Some_2 t j') as [e' He'].
  { rewrite (nwf_length t W). subst j'. unfold LATTICE_NEIGHBOR_MAX. destruct (decide _); lia. }
  exists j', e'. split_and!; [|done| |by eapply Hmax].
  - subst j'. destruct (decide _); lia.
  - unfold n_fresh. rewrite (F2 j' e' He'). specialize (F1 j' e' He'). bsimp. by rewrite F1.
Qed.

Lemma observe_min_fused t m d nowMs :
  neighbors_wf t →
  observeAndMinDistance t m d nowMs =
  (observe t m d nowMs, minFreshDistance (observe t m d nowMs) nowMs).
Proof.
  intros W. unfold observeAndMinDistance.
  rewrite fold_slot_observe, <- observe_unfold by done. f_equal.
  rewrite fold_bestOther, minFreshDistance_such. cbn [bestOther fold_init].
  pose proof (min_such_spec (other_fresh m nowMs) masterDistance t 0xFF) as (Hle & Hall & Hatt).
  set (bo := min_such _ _ _ _) in *. set (e0 := NEntry m d true nowMs).
  pose proof (observe_slot_lt t m nowMs W) as Hlt.
  pose proof (min_such_spec (n_fresh nowMs) masterDistance (observe t m d nowMs) 0xFF)
    as (Rle & Rall & Ratt).
  set (r := min_such _ _ (observe _ _ _ _) _) in *. rewrite observe_unfold in Rall, Ratt.
  assert (r <= d) as Rd.
  { apply (Rall (observe_slot t m nowMs) e0); [by apply list_lookup_insert_eq|].
    unfold n_fresh, e0. by rewrite n_stale_now. }
  assert (r <= bo) as Rbo.
  { destruct Hatt as [->|(j & e & Hj & O & ->)]; [done|].
    destruct (decide (j = observe_slot t m nowMs)) as [E|Hne].
    - destruct (evicted_other_min t m nowMs j e W Hj O E) as (j' & e' & Hne & He' & Fr & Hd).
      transitivity (masterDistance e'); [|done]. apply (Rall j'); [|done].
      rewrite list_lookup_insert_ne; congruence.
    - apply (Rall j); [by rewrite list_lookup_insert_ne|].
      unfold other_fresh in O. bsimp. unfold n_fresh. by bsimp; rewrite H, H0. }
  assert (d <= r ∨ bo <= r) as Hor; [|destruct (Z.ltb_spec d bo); lia].
  destruct Ratt as [E|(j & e & Hj & Fr & E)]; [lia|].
  apply lookup_insert_cases in Hj as [(_ & _ & ->)|[Hne Hj]]; [cbn in E; lia|].
  right. rewrite E. apply (Hall j); [done|].
  unfold n_fresh in Fr. bsimp. unfold other_fresh.
  assert (mac_eq (n_mac e) m = false) as ->; [|by rewrite H, H0].
  apply mac_eq_false. by eapply observe_slot_other.
Qed.

(** C40. The fused single pass [observeAndMinDistance] returns exactly what
    [observe] followed by [minFreshDistance] returns, on every well-formed
    table: same table, same minimum, including when a slot is evicted. *)
Theorem observeAndMinDistance_correct t m d nowMs :
  neighbors_wf t →
  observeAndMinDistance t m d nowMs =
  (observe t m d nowMs, minFreshDistance (observe t m d nowMs) nowMs).
Proof. apply observe_min_fused. Qed.

(** Distances recorded from frames below the hop limit stay below it. *)
Definition distances_below (limit : Z) (t : neighbor_table) : Prop :=
  ∀ e, e ∈ t → n_valid e = true → 0 <= masterDistance e < limit.

Lemma distances_below_clear limit : distances_below limit neighbors_clear.
Proof. intros e He V. apply list_elem_of_lookup in He as [i [-> _]%lookup_replicate]. done. Qed.

Lemma distances_below_observe limit t m d nowMs :
  0 <= d < limit → distances_below limit t → distances_below limit (observe t m d nowMs).
Proof.
  intros Hd H e [i He]%list_elem_of_lookup V.
  apply lookup_insert_cases in He as [(_ & _ & ->)|[_ He]]; [done|].
  apply H; [by eapply list_elem_of_lookup_2|done].
Qed.

(** Right after an observation some neighbor is fresh, so the minimum is a
    recorded distance, at most the observed one. *)
Lemma minFresh_after_observe t m d nowMs :
  neighbors_wf t → d <= 0xFF →
  let t' := observe t m d nowMs in
  minFreshDistance t' nowMs <= d ∧
  (d < 0xFF → ∃ e, e ∈ t' ∧ n_fresh nowMs e = true ∧ minFreshDistance t' nowMs = masterDistance e).
Proof.
  intros W Hd t'. rewrite minFreshDistance_such.
  destruct (min_such_spec (n_fresh nowMs) masterDistance t' 0xFF) as (Hle & Hall & Hatt).
  assert (min_such (n_fresh nowMs) masterDistance t' 0xFF <= d) as Hmin.
  { apply (Hall (observe_slot t m nowMs) (NEntry m d true nowMs)).
    - by apply list_lookup_insert_eq, observe_slot_lt.
    - unfold n_fresh. by rewrite n_stale_now. }
  split; [done|]. intros Hlt. destruct Hatt as [E|(j & e & Hj & Fr & E)]; [lia|].
  exists e. split_and!; [by eapply list_elem_of_lookup_2|done..].
Qed.

(** * Next-hop selection *)

Lemma hop_candidate_true d nowMs e :
  hop_candidate d nowMs e = true ↔
  n_valid e = true ∧ n_stale nowMs e = false ∧ masterDistance e < d.
Proof.
  unfold hop_candidate. rewrite !andb_true_iff, !negb_true_iff, Z.leb_gt. tauto.
Qed.

Lemma next_hop_loop_spec d nowMs es best :
  match next_hop_loop d nowMs es best with
  | Some r =>
      (best = Some r ∨ (r ∈ es ∧ hop_candidate d nowMs r = true)) ∧
      (∀ b, best = Some b → n_lastSeenMs b <= n_lastSeenMs r) ∧
      (∀ e, e ∈ es → hop_candidate d nowMs e = true → n_lastSeenMs e <= n_lastSeenMs r)
  | None => best = None ∧ ∀ e, e ∈ es → hop_candidate d nowMs e = false
  end.
Proof.
  revert best. induction es as [|e es IH]; intros best; cbn.
  - destruct best as [b|]; split_and!; set_solver.
  - assert (hop_candidate d nowMs e = false ∨ hop_candidate d nowMs e = true) as [C|C]
      by (destruct (hop_candidate d nowMs e); auto).
    + assert ((if negb (n_valid e) then next_hop_loop d nowMs es best
               else if n_stale nowMs e then next_hop_loop d nowMs es best
               else if d <=? masterDistance e then next_hop_loop d nowMs es best
               else next_hop_loop d nowMs es
                 (match best with
                  | None => Some e
                  | Some b => if n_lastSeenMs b <? n_lastSeenMs e then Some e else Some b
                  end)) = next_hop_loop d nowMs es best) as ->.
      { unfold hop_candidate in C.
        by destruct (n_valid e), (n_stale nowMs e), (d <=? masterDistance e). }
      specialize (IH best). destruct (next_hop_loop d nowMs es best) as [r|].
      * destruct IH as (Hor & Hb & Hes). split_and!; [|done|].
        -- destruct Hor as [?|[? ?]]; [by left|right; split; [by right|done]].
        -- intros x [->|Hx]%elem_of_cons Hc; [congruence|by apply Hes].
      * destruct IH as [-> IH]. split; [done|].
        intros x [->|Hx]%elem_of_cons; [done|by apply IH].
    + pose proof C as (V & S & D)%hop_candidate_true.
      rewrite V, S. cbn. destruct (Z.leb_spec d (masterDistance e)); [lia|].
      specialize (IH (match best with
                      | None => Some e
                      | Some b => if n_lastSeenMs b <? n_lastSeenMs e then Some e else Some b
                      end)).
      destruct (next_hop_loop d nowMs es _) as [r|].
      * destruct IH as (Hor & Hb & Hes). destruct best as [b|].
        -- destruct (Z.ltb_spec (n_lastSeenMs b) (n_lastSeenMs e));
             specialize (Hb _ eq_refl); split_and!.
           ++ destruct Hor as [[= ->]|[? ?]]; right; set_solver.
           ++ intros ? [= <-]; lia.
           ++ intros x [->|Hx]%elem_of_cons; [lia|by apply Hes].
           ++ destruct Hor as [[= ->]|[? ?]]; [by left|right; set_solver].
           ++ intros ? [= <-]; lia.
           ++ intros x [->|Hx]%elem_of_cons; [lia|by apply Hes].
        -- specialize (Hb _ eq_refl). split_and!; [|done|].
           ++ destruct Hor as [[= ->]|[? ?]]; right; set_solver.
           ++ intros x [->|Hx]%elem_of_cons; [lia|by apply Hes].
      * destruct IH as [IH _]. destruct best; [by destruct (_ <? _)|done].
Qed.

Lemma selectNextHop_closer t d nowMs h :
  selectNextHop t d nowMs = Some h →
  ∃ e, e ∈ t ∧ n_mac e = h ∧ n_valid e = true ∧ n_stale nowMs e = false ∧ masterDistance e < d.
Proof.
  unfold selectNextHop. pose proof (next_hop_loop_spec d nowMs t None) as H.
  destruct (next_hop_loop d nowMs t None) as [r|]; cbn; [|done]. intros [= <-].
  destruct H as ([?|[Hr C]] & _ & _); [done|]. apply hop_candidate_true in C as (? & ? & ?).
  by exists r.
Qed.

(** [selectNextHop] returns the MAC of a valid, fresh neighbor strictly
    closer to the master than this node, and the freshest such one; it returns
    nothing exactly when no neighbor qualifies.  In particular an uplink hop
    always decreases the distance to the master. *)
Theorem selectNextHop_spec t ownDistance nowMs :
  match selectNextHop t ownDistance nowMs with
  | Some h =>
      ∃ e, e ∈ t ∧ n_mac e = h ∧ n_valid e = true ∧ n_stale nowMs e = false ∧
           masterDistance e < ownDistance ∧
           ∀ e', e' ∈ t → hop_candidate ownDistance nowMs e' = true →
                 n_lastSeenMs e' <= n_lastSeenMs e
  | None => ∀ e, e ∈ t → hop_candidate ownDistance nowMs e = false
  end.
Proof.
  unfold selectNextHop. pose proof (next_hop_loop_spec ownDistance nowMs t None) as H.
  destruct (next_hop_loop ownDistance nowMs t None) as [r|]; cbn; [|by destruct H].
  destruct H as ([?|[Hr C]] & _ & Hes); [done|].
  apply hop_candidate_true in C as (? & ? & ?). by exists r.
Qed.

Lemma contains_slot_of t m : neighbors_wf t → contains t m = true ↔ ∃ i, slot_of t m i.
Proof.
  intros W. unfold contains. setoid_rewrite <- (findSlot_slot_of t m); [|done].
  unfold findSlot. destruct (find n_mac t m) as [i|]; [|naive_solver].
  destruct (t !! i) as [e|]; [|naive_solver].
  destruct (n_valid e); cbn; naive_solver.
Qed.

(** Why slot [i] may be overwritten for a MAC that has no slot yet: it is free,
    or the table is full and it is stale, or nothing is stale and no neighbor is
    farther from the master. *)
Definition may_evict (t : neighbor_table) (nowMs : Z) (e : nentry) : Prop :=
  n_valid e = false ∨
  ((∀ e', e' ∈ t → n_valid e' = true) ∧
   (n_stale nowMs e = true ∨
    ((∀ e', e' ∈ t → n_stale nowMs e' = false) ∧
     (∀ e', e' ∈ t → masterDistance e' <= masterDistance e)))).

Lemma allocateSlot_may_evict t nowMs :
  neighbors_wf t → ∃ e, t !! allocateSlot t nowMs = Some e ∧ may_evict t nowMs e.
Proof.
  intros W. unfold allocateSlot, may_evict.
  destruct (first_such (λ e, negb (n_valid e)) t) as [i|] eqn:F1.
  { apply first_such_Some in F1 as [(e & He & V) _]. bsimp. eauto. }
  assert (∀ e', e' ∈ t → n_valid e' = true) as Hv.
  { rewrite first_such_None in F1. intros e [j Hj]%list_elem_of_lookup.
    by apply negb_false_iff, (F1 j). }
  destruct (first_such (n_stale nowMs) t) as [i|] eqn:F2.
  { apply first_such_Some in F2 as [(e & He & S) _]. eauto 7. }
  destruct (farthest_spec t) as (b & Hb & Hmax); [by intros ->; destruct W|].
  exists b. split; [done|]. right. split; [done|]. right.
  rewrite first_such_None in F2. split; intros e [j Hj]%list_elem_of_lookup; eauto.
Qed.

(** [observe] keeps the table well-formed, records the neighbor with its
    distance and time stamp, and forgets another neighbor only by the eviction
    policy: a free slot first, else a stale one, else the farthest. *)
Theorem observe_spec t m d nowMs :
  neighbors_wf t →
  let t' := observe t m d nowMs in
  neighbors_wf t' ∧ contains t' m = true ∧ NEntry m d true nowMs ∈ t' ∧
  (∀ i e, t !! i = Some e → n_valid e = true → n_mac e ≠ m →
     t' !! i = Some e ∨ (findSlot t m = None ∧ may_evict t nowMs e)).
Proof.
  intros W t'. pose proof (observe_slot_lt t m nowMs W) as Hlt.
  assert (neighbors_wf t') as W' by by apply observe_wf_aux.
  assert (t' !! observe_slot t m nowMs = Some (NEntry m d true nowMs)) as Hs
    by by apply list_lookup_insert_eq.
  split_and!; [done| | |].
  - apply contains_slot_of; [done|]. by exists (observe_slot t m nowMs), (NEntry m d true nowMs).
  - by eapply list_elem_of_lookup_2.
  - intros i e He V Hm. subst t'. rewrite observe_unfold.
    destruct (decide (i = observe_slot t m nowMs)) as [->|Hne].
    + right. unfold observe_slot in He. destruct (findSlot t m) as [k|] eqn:F.
      * apply findSlot_slot_of in F as (e' & He' & _ & M); [|done]. congruence.
      * destruct (allocateSlot_may_evict t nowMs W) as (e' & He' & ?). by simplify_eq.
    + left. by rewrite list_lookup_insert_ne.
Qed.

(** * Concrete tables for the witnesses *)

Definition demo_neighbors : neighbor_table :=
  observe (observe neighbors_clear [1; 1; 1; 1; 1; 1] 2 1000) [2; 2; 2; 2; 2; 2] 1 1500.

Lemma demo_neighbors_wf : neighbors_wf demo_neighbors.
Proof. apply observe_wf_aux, observe_wf_aux, neighbors_clear_wf. Qed.

Lemma observeAndMinDistance_correct_witness :
  observeAndMinDistance demo_neighbors [3; 3; 3; 3; 3; 3] 4 9200 =
    (observe demo_neighbors [3; 3; 3; 3; 3; 3] 4 9200, 1) ∧
  neighbors_wf demo_neighbors.
Proof.
  split; [|exact demo_neighbors_wf].
  rewrite (observeAndMinDistance_correct demo_neighbors [3; 3; 3; 3; 3; 3] 4 9200
             demo_neighbors_wf).
  vm_compute. reflexivity.
Defined.

Lemma observe_spec_witness :
  contains (observe demo_neighbors [9; 9; 9; 9; 9; 9] 3 9600) [9; 9; 9; 9; 9; 9] = true.
Proof. exact (proj1 (proj2 (observe_spec demo_neighbors _ 3 9600 demo_neighbors_wf))). Defined.
