(* ===== verification/Nanopb.v ===== *)
(** The protobuf runtime (mesh/serialization/nanopb): the encoder and the decoder,
    for messages of static scalar, bytes and fixed-length bytes fields and callback
    fields without functions, which is what [mesh.pb.h] declares.  The packed
    descriptors and the iterator that walks over them are in Descriptor, the other kinds
    of fields and nested messages in NanopbMessages.

    A message structure is the list of its slots, in descriptor order; a stream
    is the list of the bytes written so far, or still to be read. *)
From S2P Require Import Prelude.

(** * Descriptors and structures

    Of the [PB_LTYPE_], [PB_HTYPE_] and [PB_ATYPE_] kinds the ones the descriptor uses;
    a [field] is what the iterator knows of the current field. *)
Inductive ltype := LT_UVARINT | LT_SVARINT | LT_BYTES | LT_FIXED_LENGTH_BYTES.
Inductive htype := HT_SINGULAR | HT_OPTIONAL.       (* OPTIONAL has a [has_] flag *)
Inductive atype := AT_STATIC | AT_CALLBACK.

(** [f_size] is the data size of the member; for BYTES, of its [bytes] array. *)
Record field := Field {
  f_tag : Z;
  f_ltype : ltype;
  f_htype : htype;
  f_atype : atype;
  f_size : nat
}.

Inductive value :=
  | VInt (z : Z)
  | VBytes (size : nat) (buf : bytes)
  | VFixed (buf : bytes)
  | VCallback.                                      (* functions all null *)

Record slot := Slot { s_has : bool; s_val : value }.

Definition PB_SIZE_MAX : Z := 2 ^ 16 - 1.
Definition PB_WT_VARINT : Z := 0.
Definition PB_WT_64BIT : Z := 1.
Definition PB_WT_STRING : Z := 2.
Definition PB_WT_32BIT : Z := 5.

(** * The output stream *)
(** [o_bytes] is what was written, [bytes_written] its length.  A sizing stream (one
    without a callback) only counts: its bytes stand for nothing and are kept zero. *)
Record pb_ostream := OStream { o_bytes : bytes; max_size : nat; o_sizing : bool }.

Definition pb_ostream_from_buffer (bufsize : nat) : pb_ostream := OStream [] bufsize false.

Definition pb_write (s : pb_ostream) (buf : bytes) : option pb_ostream :=
  if o_sizing s then Some (OStream (o_bytes s ++ zeros (length buf)) (max_size s) true)
  else if (0 <? length buf)%nat && (max_size s <? length (o_bytes s) + length buf)%nat then None
  else Some (OStream (o_bytes s ++ buf) (max_size s) false).

(** The two loops of [pb_encode_varint_32]; each returns [byte] and [buffer]. *)
Fixpoint varint_low (k : nat) (low high byte : Z) (buffer : bytes) : Z * bytes :=
  match k with
  | O => (byte, buffer)
  | S k' =>
      if negb (low =? 0) || negb (high =? 0) then
        varint_low k' (Z.shiftr low 7) high (Z.land low 0x7F) (buffer ++ [Z.lor byte 0x80])
      else (byte, buffer)
  end.
Fixpoint varint_high (k : nat) (high byte : Z) (buffer : bytes) : Z * bytes :=
  match k with
  | O => (byte, buffer)
  | S k' =>
      if high =? 0 then (byte, buffer)
      else varint_high k' (Z.shiftr high 7) (Z.land high 0x7F) (buffer ++ [Z.lor byte 0x80])
  end.

(** The second loop runs at most 5 times: [high >> 3] has 29 bits. *)
Definition varint_buffer (low high : Z) : bytes :=
  let (byte, buffer) := varint_low 4 (Z.shiftr low 7) high (Z.land low 0x7F) [] in
  let (byte', buffer') :=
    if high =? 0 then (byte, buffer)
    else varint_high 5 (Z.shiftr high 3) (Z.lor byte (Z.shiftl (Z.land high 0x07) 4)) buffer in
  buffer' ++ [byte'].

Definition pb_encode_varint_32 (s : pb_ostream) (low high : Z) : option pb_ostream :=
  pb_write s (varint_buffer low high).

Definition pb_encode_varint (s : pb_ostream) (v : Z) : option pb_ostream :=
  if v <=? 0x7F then pb_write s [u8 v]
  else pb_encode_varint_32 s (u32 v) (u32 (Z.shiftr v 32)).

Definition zigzag (v : Z) : Z :=
  let mask := Z.shiftr (u64 (-1)) 1 in
  if v <? 0 then u64 (Z.lnot (u64 (Z.shiftl (Z.land (u64 v) mask) 1)))
  else u64 (Z.shiftl (u64 v) 1).
Definition pb_encode_svarint (s : pb_ostream) (v : Z) : option pb_ostream :=
  pb_encode_varint s (zigzag v).

Definition pb_encode_tag (s : pb_ostream) (wiretype field_number : Z) : option pb_ostream :=
  pb_encode_varint s (Z.lor (Z.shiftl field_number 3) wiretype).

Definition pb_encode_tag_for_field (s : pb_ostream) (f : field) : option pb_ostream :=
  let wiretype := match f_ltype f with
                  | LT_UVARINT | LT_SVARINT => PB_WT_VARINT
                  | LT_BYTES | LT_FIXED_LENGTH_BYTES => PB_WT_STRING
                  end in
  pb_encode_tag s wiretype (f_tag f).

Definition pb_encode_string (s : pb_ostream) (buffer : bytes) : option pb_ostream :=
  s1 ← pb_encode_varint s (Z.of_nat (length buffer)); pb_write s1 buffer.

(** * Encoding *)
Definition valid_int_size (n : nat) : bool :=
  ((n =? 1) || (n =? 2) || (n =? 4) || (n =? 8))%nat.

Definition pb_enc_varint (s : pb_ostream) (f : field) (z : Z) : option pb_ostream :=
  if negb (valid_int_size (f_size f)) then None
  else match f_ltype f with
       | LT_UVARINT => pb_encode_varint s z
       | _ => pb_encode_svarint s z
       end.

Definition pb_enc_bytes (s : pb_ostream) (f : field) (size : nat) (buf : bytes)
    : option pb_ostream :=
  if (f_size f <? size)%nat then None else pb_encode_string s (take size buf).

Definition encode_basic_field (s : pb_ostream) (f : field) (v : value) : option pb_ostream :=
  s1 ← pb_encode_tag_for_field s f;
  match f_ltype f, v with
  | LT_UVARINT, VInt z | LT_SVARINT, VInt z => pb_enc_varint s1 f z
  | LT_BYTES, VBytes size buf => pb_enc_bytes s1 f size buf
  | LT_FIXED_LENGTH_BYTES, VFixed buf => pb_encode_string s1 (take (f_size f) buf)
  | _, _ => None                                    (* not a value of the member *)
  end.

(** The proto3 singular cases of [pb_check_proto3_default_value]. *)
Definition pb_check_proto3_default_value (f : field) (v : value) : bool :=
  match v with
  | VInt z => z =? 0
  | VBytes size _ => (size =? 0)%nat
  | VFixed _ => (f_size f =? 0)%nat
  | VCallback => true
  end.

(** A callback field's default callback, without an encode function, writes
    nothing. *)
Definition encode_field (s : pb_ostream) (f : field) (sl : slot) : option pb_ostream :=
  match f_htype f, f_atype f with
  | HT_OPTIONAL, AT_STATIC =>
      if s_has sl then encode_basic_field s f (s_val sl) else Some s
  | HT_SINGULAR, AT_STATIC =>
      if pb_check_proto3_default_value f (s_val sl) then Some s
      else encode_basic_field s f (s_val sl)
  | _, AT_CALLBACK => Some s
  end.

Fixpoint pb_encode (s : pb_ostream) (desc : list field) (msg : list slot) : option pb_ostream :=
  match desc, msg with
  | f :: desc', sl :: msg' => s1 ← encode_field s f sl; pb_encode s1 desc' msg'
  | _, _ => Some s
  end.

(** * The input stream: every reader returns what is left *)
Definition pb_read (s : bytes) (count : nat) : option (bytes * bytes) :=
  if (length s <? count)%nat then None else Some (take count s, drop count s).

Fixpoint decode_varint_loop (bitpos result : Z) (s : bytes) : option (Z * bytes) :=
  match s with
  | [] => None
  | byte :: s' =>
      if (63 <=? bitpos) && negb (Z.land byte 0xFE =? 0) then None
      else
        let result' := Z.lor result (u64 (Z.shiftl (Z.land byte 0x7F) bitpos)) in
        if negb (Z.land byte 0x80 =? 0) then decode_varint_loop (u8 (bitpos + 7)) result' s'
        else Some (result', s')
  end.
Definition pb_decode_varint (s : bytes) : option (Z * bytes) := decode_varint_loop 0 0 s.

(** The multibyte loop of [pb_decode_varint32_eof]. *)
Fixpoint decode_varint32_loop (bitpos result : Z) (s : bytes) : option (Z * bytes) :=
  match s with
  | [] => None
  | byte :: s' =>
      let continue r :=
        if negb (Z.land byte 0x80 =? 0) then decode_varint32_loop (u8 (bitpos + 7)) r s'
        else Some (r, s') in
      if 32 <=? bitpos then
        let sign_extension := if bitpos <? 63 then 0xFF else 0x01 in
        let valid_extension :=
          (Z.land byte 0x7F =? 0)
          || (negb (Z.shiftr result 31 =? 0) && (byte =? sign_extension)) in
        if (64 <=? bitpos) || negb valid_extension then None else continue result
      else if bitpos =? 28 then
        if negb (Z.land byte 0x70 =? 0) && negb (Z.land byte 0x78 =? 0x78) then None
        else continue (Z.lor result (u32 (Z.shiftl (Z.land byte 0x0F) bitpos)))
      else continue (Z.lor result (u32 (Z.shiftl (Z.land byte 0x7F) bitpos)))
  end.
(** The [eof] flag is only raised on an empty stream, which no caller passes
    where it would be read. *)
Definition pb_decode_varint32 (s : bytes) : option (Z * bytes) :=
  match s with
  | [] => None
  | byte :: s' =>
      if Z.land byte 0x80 =? 0 then Some (byte, s')
      else decode_varint32_loop 7 (Z.land byte 0x7F) s'
  end.

Definition pb_decode_svarint (s : bytes) : option (Z * bytes) :=
  '(v, s1) ← pb_decode_varint s;
  Some (if negb (Z.land v 1 =? 0) then Z.lnot (Z.shiftr v 1) else Z.shiftr v 1, s1).

Definition pb_decode_tag (s : bytes) : option (Z * Z * bytes) :=
  '(temp, s1) ← pb_decode_varint32 s; Some (Z.land temp 7, Z.shiftr temp 3, s1).

Fixpoint pb_skip_varint (s : bytes) : option bytes :=
  match s with
  | [] => None
  | byte :: s' => if negb (Z.land byte 0x80 =? 0) then pb_skip_varint s' else Some s'
  end.
Definition pb_skip_string (s : bytes) : option bytes :=
  '(len, s1) ← pb_decode_varint32 s; snd <$> pb_read s1 (Z.to_nat len).
Definition pb_skip_field (wire_type : Z) (s : bytes) : option bytes :=
  if wire_type =? PB_WT_VARINT then pb_skip_varint s
  else if wire_type =? PB_WT_64BIT then snd <$> pb_read s 8
  else if wire_type =? PB_WT_STRING then pb_skip_string s
  else if wire_type =? PB_WT_32BIT then snd <$> pb_read s 4
  else None.

(** [read_raw_value] into a buffer of [k] bytes; only the length matters. *)
Fixpoint read_raw_varint (k : nat) (s : bytes) : option bytes :=
  match k, s with
  | S k', byte :: s' =>
      if negb (Z.land byte 0x80 =? 0) then read_raw_varint k' s' else Some s'
  | _, _ => None
  end.
Definition read_raw_value (wire_type : Z) (k : nat) (s : bytes) : option bytes :=
  if wire_type =? PB_WT_VARINT then read_raw_varint k s
  else if wire_type =? PB_WT_64BIT then snd <$> pb_read s 8
  else if wire_type =? PB_WT_32BIT then snd <$> pb_read s 4
  else None.

(** * Decoding *)

(** The value stored in an [n]-byte signed member. *)
Definition sint (n : nat) (z : Z) : Z :=
  let w := 2 ^ (8 * Z.of_nat n) in (z + w / 2) mod w - w / 2.

Definition pb_dec_varint (f : field) (s : bytes) : option (value * bytes) :=
  match f_ltype f with
  | LT_UVARINT =>
      '(v, s1) ← pb_decode_varint s;
      if negb (valid_int_size (f_size f)) then None
      else let clamped := v mod 2 ^ (8 * Z.of_nat (f_size f)) in
           if negb (clamped =? v) then None else Some (VInt clamped, s1)
  | _ =>
      '(v, s1) ← pb_decode_svarint s;
      if negb (valid_int_size (f_size f)) then None
      else let clamped := sint (f_size f) v in
           if negb (clamped =? v) then None else Some (VInt clamped, s1)
  end.

(** [buf] is the member's array before the call. *)
Definition pb_dec_bytes (f : field) (buf : bytes) (s : bytes) : option (value * bytes) :=
  '(size, s1) ← pb_decode_varint32 s;
  if PB_SIZE_MAX <? size then None
  else if (f_size f <? Z.to_nat size)%nat then None
  else '(l, s2) ← pb_read s1 (Z.to_nat size);
       Some (VBytes (Z.to_nat size) (splice 0 l buf), s2).

Definition pb_dec_fixed_length_bytes (f : field) (s : bytes) : option (value * bytes) :=
  '(size, s1) ← pb_decode_varint32 s;
  if PB_SIZE_MAX <? size then None
  else if size =? 0 then Some (VFixed (zeros (f_size f)), s1)
  else if negb (size =? Z.of_nat (f_size f)) then None
  else '(l, s2) ← pb_read s1 (f_size f); Some (VFixed l, s2).

Definition decode_basic_field (wire_type : Z) (f : field) (v : value) (s : bytes)
    : option (value * bytes) :=
  match f_ltype f with
  | LT_UVARINT | LT_SVARINT =>
      if negb (wire_type =? PB_WT_VARINT) then None else pb_dec_varint f s
  | LT_BYTES =>
      if negb (wire_type =? PB_WT_STRING) then None
      else pb_dec_bytes f (match v with VBytes _ buf => buf | _ => [] end) s
  | LT_FIXED_LENGTH_BYTES =>
      if negb (wire_type =? PB_WT_STRING) then None else pb_dec_fixed_length_bytes f s
  end.

(** The default callback has no decode function and consumes nothing, so the
    substream is skipped when it is closed. *)
Definition decode_callback_field (wire_type : Z) (s : bytes) : option bytes :=
  if wire_type =? PB_WT_STRING then
    '(size, s1) ← pb_decode_varint32 s;
    if (length s1 <? Z.to_nat size)%nat then None else Some (drop (Z.to_nat size) s1)
  else read_raw_value wire_type 10 s.

Definition decode_field (wire_type : Z) (f : field) (sl : slot) (s : bytes)
    : option (slot * bytes) :=
  match f_atype f with
  | AT_STATIC =>
      let has := match f_htype f with HT_OPTIONAL => true | HT_SINGULAR => s_has sl end in
      '(v, s1) ← decode_basic_field wire_type f (s_val sl) s; Some (Slot has v, s1)
  | AT_CALLBACK => s1 ← decode_callback_field wire_type s; Some (sl, s1)
  end.

Definition pb_field_set_to_default (f : field) : slot :=
  match f_atype f with
  | AT_CALLBACK => Slot false VCallback
  | AT_STATIC =>
      Slot false (match f_ltype f with
                  | LT_UVARINT | LT_SVARINT => VInt 0
                  | LT_BYTES => VBytes 0 (zeros (f_size f))
                  | LT_FIXED_LENGTH_BYTES => VFixed (zeros (f_size f))
                  end)
  end.
Definition pb_message_set_to_defaults (desc : list field) : list slot :=
  pb_field_set_to_default <$> desc.

(** What the search of [pb_field_iter_find] comes to: see Descriptor. *)
Definition find_by_tag (desc : list field) (tag : Z) : option nat :=
  first_such (λ f, f_tag f =? tag) desc.

(** The loop of [pb_decode_inner]; every iteration consumes a byte, so the
    length of the stream is fuel enough ([decode_fields_fuel] below). *)
Fixpoint decode_fields (k : nat) (desc : list field) (msg : list slot) (s : bytes)
    : option (list slot) :=
  match s, k with
  | [], _ => Some msg
  | _, O => None
  | _, S k' =>
      '(wire_type, tag, s1) ← pb_decode_tag s;
      if tag =? 0 then None
      else match find_by_tag desc tag with
           | None => s2 ← pb_skip_field wire_type s1; decode_fields k' desc msg s2
           | Some i =>
               f ← desc !! i; sl ← msg !! i;
               '(sl', s2) ← decode_field wire_type f sl s1;
               decode_fields k' desc (<[i := sl']> msg) s2
           end
  end.

Definition pb_decode (desc : list field) (s : bytes) : option (list slot) :=
  decode_fields (length s) desc (pb_message_set_to_defaults desc) s.

(** * Varints against their base-128 definition *)
Fixpoint varint (k : nat) (v : Z) : bytes :=
  match k with
  | O => [v]
  | S k' => if v <? 128 then [v] else (v mod 128 + 128) :: varint k' (v / 128)
  end.

Lemma land_127 x : Z.land x 0x7F = x mod 128.
Proof. change 0x7F with (Z.ones 7). by rewrite Z.land_ones by lia. Qed.

Lemma shiftr_7 x : Z.shiftr x 7 = x / 128.
Proof. by rewrite Z.shiftr_div_pow2 by lia. Qed.

Lemma land_128 x : 0 <= x < 256 → Z.land x 0x80 = if x <? 128 then 0 else 128.
Proof.
  intros Hx. assert (all_pow2 8 (λ x, Z.land x 0x80 =? (if x <? 128 then 0 else 128)) 0 = true)
    as H by (vm_compute; done).
  apply (all_pow2_spec _ _ _ x) in H; [by apply Z.eqb_eq|]. cbn. lia.
Qed.

Lemma lor_128 x : 0 <= x < 128 → Z.lor x 0x80 = x + 128.
Proof.
  intros Hx. assert (all_pow2 7 (λ x, Z.lor x 0x80 =? x + 128) 0 = true) as H by (vm_compute; done).
  apply (all_pow2_spec _ _ _ x) in H; [by apply Z.eqb_eq|]. cbn. lia.
Qed.

(** Bits that do not overlap add up. *)
Lemma lor_shiftl_add x y n : 0 <= n → 0 <= x < 2 ^ n → Z.lor x (Z.shiftl y n) = x + y * 2 ^ n.
Proof.
  intros Hn Hx. rewrite Z.shiftl_mul_pow2 by done.
  rewrite <- Z.add_lor_land.
  assert (Z.land x (y * 2 ^ n) = 0) as ->; [|lia].
  apply Z.bits_inj'. intros i Hi. rewrite Z.land_spec, Z.bits_0.
  destruct (Z.lt_ge_cases i n).
  - rewrite (Z.mul_pow2_bits_low y n i) by lia. apply andb_false_r.
  - destruct (decide (x = 0)) as [->|]; [by rewrite Z.bits_0|].
    rewrite (Z.bits_above_log2 x i); [done|lia|]. apply Z.log2_lt_pow2; [lia|].
    pose proof (Z.pow_le_mono_r 2 n i). lia.
Qed.

Lemma varint_small k v : v < 128 → varint k v = [v].
Proof. intros H. destruct k; cbn; [done|]. by destruct (Z.ltb_spec v 128); [|lia]. Qed.

Lemma varint_step k v : 128 <= v → varint (S k) v = (v mod 128 + 128) :: varint k (v / 128).
Proof. intros H. cbn. by destruct (Z.ltb_spec v 128); [lia|]. Qed.

Lemma varint_step' k b r : 0 <= b < 128 → 0 < r → varint (S k) (b + 128 * r) = (b + 128) :: varint k r.
Proof.
  intros Hb Hr. rewrite varint_step by lia.
  replace ((b + 128 * r) mod 128) with b.
  - do 2 f_equal. rewrite Z.mul_comm, Z.div_add by lia. rewrite Z.div_small by lia. lia.
  - rewrite Z.mul_comm, Z.mod_add by lia. by rewrite Z.mod_small by lia.
Qed.

Lemma varint_length k v m : 0 <= v < 128 ^ Z.of_nat m → (0 < m)%nat → (length (varint k v) <= m)%nat.
Proof.
  revert v m. induction k as [|k IH]; intros v m Hv Hm; cbn [varint]; [cbn; lia|].
  destruct (Z.ltb_spec v 128); [cbn; lia|]. cbn [length].
  destruct m as [|[|m]]; [lia|change (128 ^ Z.of_nat 1) with 128 in Hv; lia|].
  apply le_n_S, IH; [|lia]. rewrite Nat2Z.inj_succ, Z.pow_succ_r in Hv by lia.
  split; [apply Z.div_pos; lia|]. apply Z.div_lt_upper_bound; lia.
Qed.

Lemma varint_high_spec k high byte buffer :
  0 <= byte < 128 → 0 <= high < 128 ^ Z.of_nat k →
  (let (b, buf) := varint_high k high byte buffer in buf ++ [b])
  = buffer ++ varint k (byte + 128 * high).
Proof.
  revert high byte buffer. induction k as [|k IH]; intros high byte buffer Hb Hh; cbn [varint_high].
  - change (128 ^ Z.of_nat 0) with 1 in Hh. replace high with 0 by lia. cbn. do 2 f_equal. lia.
  - rewrite Nat2Z.inj_succ, Z.pow_succ_r in Hh by lia.
    destruct (Z.eqb_spec high 0) as [->|Hne].
    { rewrite Z.mul_0_r, Z.add_0_r. by rewrite varint_small by lia. }
    rewrite IH.
    + rewrite lor_128, land_127, shiftr_7 by done. rewrite <- app_assoc. f_equal. cbn [app].
      rewrite varint_step' by lia. do 2 f_equal. pose proof (Z.div_mod high 128). lia.
    + rewrite land_127. apply Z.mod_pos_bound. lia.
    + rewrite shiftr_7. split; [apply Z.div_pos; lia|]. apply Z.div_lt_upper_bound; lia.
Qed.

(** The first loop with [k] rounds left: [low] has [7 * k] bits above the
    current byte and [high] sits above those. *)
Lemma varint_low_spec k low high byte buffer :
  0 <= byte < 128 → (high ≠ 0 → k = O → byte < 16) →
  0 <= low → 8 * low < 128 ^ Z.of_nat k → 0 <= high < 2 ^ 32 →
  (let (b, buf) := varint_low k low high byte buffer in
   let (b', buf') := if high =? 0 then (b, buf)
                     else varint_high 5 (Z.shiftr high 3)
                            (Z.lor b (Z.shiftl (Z.land high 0x07) 4)) buf in
   buf' ++ [b'])
  = buffer ++ varint (k + 5) (byte + 128 * low + 16 * 128 ^ Z.of_nat k * high).
Proof.
  intros Hb H0 Hl Hl8 Hh. revert low byte buffer Hb H0 Hl Hl8.
  induction k as [|k IH]; intros low byte buffer Hb H0 Hl Hl8; cbn [varint_low].
  - change (128 ^ Z.of_nat 0) with 1 in *. assert (low = 0) as -> by lia.
    destruct (Z.eqb_spec high 0) as [->|Hne].
    { replace (byte + 128 * 0 + 16 * 1 * 0) with byte by lia. by rewrite varint_small by lia. }
    specialize (H0 Hne eq_refl). rewrite lor_shiftl_add by lia.
    change 7 with (Z.ones 3) at 1. rewrite Z.land_ones by lia.
    rewrite Z.shiftr_div_pow2 by lia. change (2 ^ 3) with 8. change (2 ^ 4) with 16.
    pose proof (Z.mod_pos_bound high 8 eq_refl). pose proof (Z.div_mod high 8 ltac:(lia)).
    rewrite varint_high_spec; [|lia|].
    + do 2 f_equal. lia.
    + split; [apply Z.div_pos; lia|]. apply Z.div_lt_upper_bound; [lia|].
      eapply Z.lt_le_trans; [apply Hh|]. vm_compute. done.
  - rewrite Nat2Z.inj_succ, Z.pow_succ_r in * by lia.
    pose proof (Z.pow_pos_nonneg 128 (Z.of_nat k) eq_refl ltac:(lia)).
    destruct (negb (low =? 0) || negb (high =? 0)) eqn:Hc.
    2:{ apply orb_false_iff in Hc as [?%negb_false_iff%Z.eqb_eq ?%negb_false_iff%Z.eqb_eq].
        subst. cbn [Z.eqb]. rewrite !Z.mul_0_r, !Z.add_0_r. by rewrite varint_small by lia. }
    assert (0 < low + 16 * 128 ^ Z.of_nat k * high) as Hpos.
    { apply orb_true_iff in Hc as [Hc|Hc]; apply negb_true_iff, Z.eqb_neq in Hc; nia. }
    rewrite land_127, shiftr_7, lor_128 by done.
    pose proof (Z.mod_pos_bound low 128 eq_refl). pose proof (Z.div_mod low 128 ltac:(lia)) as Hd.
    rewrite IH.
    + rewrite <- app_assoc. f_equal. cbn [app plus].
      replace (byte + 128 * low + 16 * (128 * 128 ^ Z.of_nat k) * high)
        with (byte + 128 * (low + 16 * 128 ^ Z.of_nat k * high)) by ring.
      rewrite varint_step' by lia. do 2 f_equal. rewrite Hd at 3. ring.
    + lia.
    + intros _ ->. change (128 ^ Z.of_nat 0) with 1 in *. rewrite Z.mod_small by lia. lia.
    + apply Z.div_pos; lia.
    + assert (128 * (8 * (low / 128)) < 128 * 128 ^ Z.of_nat k); lia.
Qed.

(** The encoder writes the base-128 representation. *)
Lemma pb_encode_varint_write s v :
  0 <= v < 2 ^ 64 → pb_encode_varint s v = pb_write s (varint 9 v).
Proof.
  intros Hv. unfold pb_encode_varint, pb_encode_varint_32. destruct (Z.leb_spec v 0x7F).
  { unfold u8. rewrite Z.mod_small by lia. by rewrite varint_small by lia. }
  f_equal. unfold varint_buffer. set (low := u32 v). set (high := u32 (Z.shiftr v 32)).
  assert (0 <= low < 2 ^ 32) as Hl by (apply Z.mod_pos_bound; lia).
  assert (high = v / 2 ^ 32) as Hh.
  { unfold high, u32. rewrite Z.shiftr_div_pow2 by lia. apply Z.mod_small.
    split; [apply Z.div_pos; lia|]. apply Z.div_lt_upper_bound; lia. }
  assert (v = low + 2 ^ 32 * high) as Hd.
  { rewrite Hh. unfold low, u32. pose proof (Z.div_mod v (2 ^ 32)). lia. }
  assert (0 <= high < 2 ^ 32) as Hhr.
  { rewrite Hh. split; [apply Z.div_pos; lia|]. apply Z.div_lt_upper_bound; lia. }
  rewrite land_127, shiftr_7.
  pose proof (Z.mod_pos_bound low 128 eq_refl). pose proof (Z.div_mod low 128 ltac:(lia)).
  rewrite (varint_low_spec 4); [|lia|done| | |done].
  - cbn [app plus]. f_equal. change (16 * 128 ^ Z.of_nat 4) with (2 ^ 32). lia.
  - apply Z.div_pos; lia.
  - change (128 ^ Z.of_nat 4) with (2 ^ 28). lia.
Qed.

Lemma land_0 n x : 0 <= n → 0 <= x < 2 ^ n → Z.land x (Z.shiftl (Z.ones (8 - n)) n) = 0.
Proof.
  intros Hn Hx. apply Z.bits_inj'. intros i Hi. rewrite Z.land_spec, Z.bits_0.
  destruct (Z.lt_ge_cases i n).
  - rewrite (Z.shiftl_spec_low _ n i) by lia. apply andb_false_r.
  - destruct (decide (x = 0)) as [->|]; [by rewrite Z.bits_0|].
    rewrite (Z.bits_above_log2 x i); [done|lia|]. apply Z.log2_lt_pow2; [lia|].
    pose proof (Z.pow_le_mono_r 2 n i). lia.
Qed.

(** A byte of a varint that is not the last. *)
Lemma continued_byte v :
  0 <= v mod 128 < 128 ∧ v = 128 * (v / 128) + v mod 128 ∧
  Z.land (v mod 128 + 128) 0x80 = 128 ∧ Z.land (v mod 128 + 128) 0x7F = v mod 128.
Proof.
  pose proof (Z.mod_pos_bound v 128 eq_refl). pose proof (Z.div_mod v 128 ltac:(lia)).
  split_and!; [lia..| |].
  - rewrite land_128 by lia. by destruct (Z.ltb_spec (v mod 128 + 128) 128); [lia|].
  - rewrite land_127. replace (v mod 128 + 128) with (v mod 128 + 1 * 128) by lia.
    rewrite Z.mod_add, Z.mod_mod by lia. done.
Qed.

(** Adding the next seven bits of a varint. *)
Lemma varint_accumulate w result v bitpos :
  0 <= bitpos → 0 <= result < 2 ^ bitpos → 0 <= v → v * 2 ^ bitpos < 2 ^ w → 0 <= w →
  Z.lor result (Z.shiftl v bitpos mod 2 ^ w) = result + v * 2 ^ bitpos.
Proof.
  intros Hb Hr Hv Hw Hw0. rewrite Z.mod_small.
  - by rewrite lor_shiftl_add.
  - rewrite Z.shiftl_mul_pow2 by done. nia.
Qed.

Lemma decode_varint_loop_varint k v bitpos result rest :
  0 <= v < 2 ^ (64 - bitpos) → 0 <= bitpos <= 63 → 0 <= result < 2 ^ bitpos →
  v < 128 ^ Z.of_nat (S k) →
  decode_varint_loop bitpos result (varint k v ++ rest) = Some (result + v * 2 ^ bitpos, rest).
Proof.
  revert v bitpos result. induction k as [|k IH]; intros v bitpos result Hv Hb Hr Hk.
  all: assert (2 ^ (64 - bitpos) * 2 ^ bitpos = 2 ^ 64) as Hp by (rewrite <- Z.pow_add_r by lia; f_equal; lia).
  all: pose proof (Z.pow_pos_nonneg 2 bitpos eq_refl ltac:(lia)).
  all: assert (∀ x, 0 <= x < 128 → x < 2 ^ (64 - bitpos) →
    decode_varint_loop bitpos result (x :: rest) = Some (result + x * 2 ^ bitpos, rest)) as Hlast.
  1,3: intros x Hx Hxp; cbn [decode_varint_loop]; rewrite land_128, land_127 by lia;
    rewrite (Z.mod_small x 128) by lia; destruct (Z.ltb_spec x 128); [|lia];
    unfold u64; rewrite (varint_accumulate 64) by (try nia; lia); cbn [negb Z.eqb];
    destruct (Z.leb_spec 63 bitpos); [|done];
    assert (bitpos = 63) as -> by lia; change 0xFE with (Z.shiftl (Z.ones (8 - 1)) 1); rewrite (land_0 1 x) by lia; done.
  - change (128 ^ Z.of_nat 1) with 128 in Hk. apply Hlast; lia.
  - destruct (Z.lt_ge_cases v 128); [rewrite varint_small by lia; apply Hlast; lia|].
    rewrite varint_step by lia. cbn [app decode_varint_loop].
    assert (bitpos <= 56) as Hb'.
    { destruct (Z.le_gt_cases bitpos 56); [done|].
      assert (2 ^ (64 - bitpos) <= 2 ^ 7) by (apply Z.pow_le_mono_r; lia). lia. }
    destruct (continued_byte v) as (Hm & Hd & E1 & E2). rewrite E1, E2.
    destruct (Z.leb_spec 63 bitpos); [lia|]. cbn [andb negb Z.eqb].
    assert (2 ^ (bitpos + 7) = 128 * 2 ^ bitpos) as Hp7 by (rewrite Z.pow_add_r by lia; lia).
    unfold u64. rewrite (varint_accumulate 64) by (try nia; lia).
    unfold u8. rewrite (Z.mod_small (bitpos + 7)) by lia.
    rewrite IH.
    + do 2 f_equal. rewrite Hp7. nia.
    + split; [apply Z.div_pos; lia|]. apply Z.div_lt_upper_bound; [lia|].
      replace (64 - bitpos) with (7 + (64 - (bitpos + 7))) in Hv by lia.
      rewrite Z.pow_add_r in Hv by lia. lia.
    + lia.
    + rewrite Hp7. nia.
    + rewrite Nat2Z.inj_succ, Z.pow_succ_r in Hk by lia. apply Z.div_lt_upper_bound; lia.
Qed.

Lemma pb_decode_varint_varint v rest :
  0 <= v < 2 ^ 64 → pb_decode_varint (varint 9 v ++ rest) = Some (v, rest).
Proof.
  intros Hv. unfold pb_decode_varint. rewrite decode_varint_loop_varint; [|lia..| |].
  - do 2 f_equal. lia.
  - cbn. lia.
  - eapply Z.lt_le_trans; [apply Hv|]. vm_compute. done.
Qed.

Lemma decode_varint32_loop_varint k v (i : nat) result rest :
  (0 < i <= 4)%nat → 0 <= v → result + v * 2 ^ (7 * Z.of_nat i) < 2 ^ 32 →
  0 <= result < 2 ^ (7 * Z.of_nat i) → v < 128 ^ Z.of_nat (S k) →
  decode_varint32_loop (7 * Z.of_nat i) result (varint k v ++ rest)
  = Some (result + v * 2 ^ (7 * Z.of_nat i), rest).
Proof.
  revert v i result. induction k as [|k IH]; intros v i result Hi Hv Hb Hr Hk.
  all: set (bitpos := 7 * Z.of_nat i) in *.
  all: pose proof (Z.pow_pos_nonneg 2 bitpos eq_refl ltac:(lia)).
  all: assert (∀ x, 0 <= x < 128 → x * 2 ^ bitpos < 2 ^ 32 →
    decode_varint32_loop bitpos result (x :: rest) = Some (result + x * 2 ^ bitpos, rest)) as Hlast.
  1,3: intros x Hx Hxp; cbn [decode_varint32_loop]; rewrite land_128 by lia;
    destruct (Z.ltb_spec x 128); [|lia]; cbn [negb Z.eqb];
    destruct (Z.leb_spec 32 bitpos); [lia|];
    destruct (Z.eqb_spec bitpos 28) as [E|_];
    [ rewrite E in *; assert (x < 16) by lia;
      assert (Z.land x 0x70 = 0) as ->
        by (assert (all_pow2 4 (λ x, Z.land x 0x70 =? 0) 0 = true) as HH by (vm_compute; done);
            apply (all_pow2_spec _ _ _ x) in HH; [by apply Z.eqb_eq|cbn; lia]);
      change 0x0F with (Z.ones 4); rewrite Z.land_ones by lia;
      rewrite (Z.mod_small x (2 ^ 4)) by lia
    | rewrite land_127, (Z.mod_small x 128) by lia ];
    unfold u32; rewrite (varint_accumulate 32) by lia; done.
  - change (128 ^ Z.of_nat 1) with 128 in Hk. apply Hlast; nia.
  - destruct (Z.lt_ge_cases v 128); [rewrite varint_small by lia; apply Hlast; nia|].
    rewrite varint_step by lia. cbn [app decode_varint32_loop].
    assert (i <= 3)%nat as Hi3.
    { destruct (Nat.le_gt_cases i 3); [done|]. assert (i = 4%nat) as -> by lia.
      subst bitpos. change (2 ^ (7 * Z.of_nat 4)) with (2 ^ 28) in *. lia. }
    destruct (continued_byte v) as (Hm & Hd & E1 & E2). rewrite E1, E2.
    destruct (Z.leb_spec 32 bitpos); [lia|]. destruct (Z.eqb_spec bitpos 28); [lia|].
    cbn [negb Z.eqb].
    assert (2 ^ (bitpos + 7) = 128 * 2 ^ bitpos) as Hp7 by (rewrite Z.pow_add_r by lia; lia).
    unfold u32. rewrite (varint_accumulate 32) by (try nia; lia).
    unfold u8. rewrite (Z.mod_small (bitpos + 7)) by lia.
    replace (bitpos + 7) with (7 * Z.of_nat (S i)) in * by lia.
    rewrite IH.
    + do 2 f_equal. rewrite Hp7. nia.
    + lia.
    + apply Z.div_pos; lia.
    + rewrite Hp7. nia.
    + rewrite Hp7. nia.
    + rewrite Nat2Z.inj_succ, Z.pow_succ_r in Hk by lia. apply Z.div_lt_upper_bound; lia.
Qed.

Lemma pb_decode_varint32_varint v rest :
  0 <= v < 2 ^ 32 → pb_decode_varint32 (varint 9 v ++ rest) = Some (v, rest).
Proof.
  intros Hv. destruct (Z.lt_ge_cases v 128).
  { rewrite varint_small by lia. cbn [app pb_decode_varint32]. rewrite land_128 by lia.
    by destruct (Z.ltb_spec v 128); [|lia]. }
  rewrite varint_step by lia. cbn [app pb_decode_varint32].
  destruct (continued_byte v) as (Hm & Hd & E1 & E2). rewrite E1, E2. cbn [Z.eqb].
  change 7 with (7 * Z.of_nat 1) at 1. rewrite decode_varint32_loop_varint.
  - do 2 f_equal. change (2 ^ (7 * Z.of_nat 1)) with 128. lia.
  - lia.
  - apply Z.div_pos; lia.
  - change (2 ^ (7 * Z.of_nat 1)) with 128. lia.
  - change (2 ^ (7 * Z.of_nat 1)) with 128. lia.
  - apply Z.div_lt_upper_bound; [lia|]. eapply Z.lt_le_trans; [apply Hv|]. vm_compute. done.
Qed.

Lemma zigzag_value v : - 2 ^ 63 <= v < 2 ^ 63 → zigzag v = if v <? 0 then -2 * v - 1 else 2 * v.
Proof.
  intros Hv. unfold zigzag. change (Z.shiftr (u64 (-1)) 1) with (Z.ones 63).
  rewrite Z.land_ones, !Z.shiftl_mul_pow2 by lia. unfold u64, Z.lnot.
  destruct (Z.ltb_spec v 0).
  - replace (v mod 2 ^ 64) with (v + 2 ^ 64) by (rewrite <- (Z.mod_add v 1) by lia;
      rewrite Z.mod_small by lia; lia).
    replace ((v + 2 ^ 64) mod 2 ^ 63) with (v + 2 ^ 63)
      by (replace (v + 2 ^ 64) with (v + 2 ^ 63 + 1 * 2 ^ 63) by lia;
          rewrite Z.mod_add, Z.mod_small by lia; lia).
    rewrite (Z.mod_small ((v + 2 ^ 63) * 2 ^ 1)) by lia.
    rewrite <- (Z.mod_add _ 1) by lia. rewrite Z.mod_small by lia. lia.
  - rewrite (Z.mod_small v) by lia. rewrite Z.mod_small by lia. lia.
Qed.

Lemma pb_decode_svarint_zigzag v rest :
  - 2 ^ 63 <= v < 2 ^ 63 → pb_decode_svarint (varint 9 (zigzag v) ++ rest) = Some (v, rest).
Proof.
  intros Hv. unfold pb_decode_svarint. rewrite zigzag_value by done.
  assert (∀ x, Z.land x 1 = x mod 2) as E1 by (intros; by rewrite (Z.land_ones _ 1)).
  destruct (Z.ltb_spec v 0); rewrite pb_decode_varint_varint by lia; cbn [mbind option_bind];
    rewrite E1, Z.shiftr_div_pow2 by lia; change (2 ^ 1) with 2; do 2 f_equal.
  - replace (-2 * v - 1) with (1 + (- v - 1) * 2) by lia. rewrite Z.mod_add, Z.div_add by lia.
    change (1 mod 2) with 1. change (1 / 2) with 0. cbn [Z.eqb negb]. unfold Z.lnot. lia.
  - replace (2 * v) with (0 + v * 2) by lia. rewrite Z.mod_add, Z.div_add by lia.
    change (0 mod 2) with 0. change (0 / 2) with 0. cbn [Z.eqb negb]. lia.
Qed.

(** * Encoding as one write *)
Lemma pb_write_nil s : pb_write s [] = Some s.
Proof. unfold pb_write. destruct s as [l m []]; cbn; by rewrite app_nil_r. Qed.

Lemma pb_write_sizing s l :
  o_sizing s = true → pb_write s l = Some (OStream (o_bytes s ++ zeros (length l)) (max_size s) true).
Proof. unfold pb_write. by intros ->. Qed.

Lemma pb_write_cases s l :
  o_sizing s = false →
  l ≠ [] → pb_write s l = if (max_size s <? length (o_bytes s) + length l)%nat then None
                          else Some (OStream (o_bytes s ++ l) (max_size s) false).
Proof. intros Hs Hl. unfold pb_write. rewrite Hs. by destruct l. Qed.

Lemma pb_write_app s a b : (s1 ← pb_write s a; pb_write s1 b) = pb_write s (a ++ b).
Proof.
  destruct (o_sizing s) eqn:Hs.
  { rewrite !pb_write_sizing by done. cbn [mbind option_bind]. rewrite pb_write_sizing by done.
    unfold zeros. by rewrite length_app, replicate_add, app_assoc. }
  destruct (decide (a = [])) as [->|Ha]; [by rewrite pb_write_nil|].
  destruct (decide (b = [])) as [->|Hb].
  { rewrite app_nil_r. destruct (pb_write s a) as [s1|]; [apply pb_write_nil|done]. }
  rewrite (pb_write_cases s a), (pb_write_cases s (a ++ b)) by (done || by destruct a).
  rewrite length_app. destruct (Nat.ltb_spec (max_size s) (length (o_bytes s) + length a)) as [H|H];
    cbn [mbind option_bind].
  - by destruct (Nat.ltb_spec (max_size s) (length (o_bytes s) + (length a + length b))); [|lia].
  - rewrite pb_write_cases by done. cbn [o_bytes max_size].
    by rewrite length_app, <- app_assoc, Nat.add_assoc.
Qed.

(** A buffer stream accepts exactly what fits. *)
Lemma pb_write_from_buffer n l :
  pb_write (pb_ostream_from_buffer n) l =
  if (length l <=? n)%nat then Some (OStream l n false) else None.
Proof.
  destruct l as [|x l]; [by rewrite pb_write_nil|].
  rewrite pb_write_cases by done. cbn [pb_ostream_from_buffer o_bytes max_size app].
  change (length [] + length (x :: l))%nat with (length (x :: l)).
  destruct (Nat.leb_spec (length (x :: l)) n), (Nat.ltb_spec n (length (x :: l))); [lia|done..|lia].
Qed.

(** The bytes of a field, written out. *)
Definition tag_bytes (f : field) : bytes :=
  varint 9 (8 * f_tag f + match f_ltype f with
                          | LT_UVARINT | LT_SVARINT => PB_WT_VARINT
                          | LT_BYTES | LT_FIXED_LENGTH_BYTES => PB_WT_STRING
                          end).
Definition string_bytes (l : bytes) : bytes := varint 9 (Z.of_nat (length l)) ++ l.
Definition value_bytes (f : field) (v : value) : bytes :=
  match v with
  | VInt z => varint 9 (match f_ltype f with LT_UVARINT => z | _ => zigzag z end)
  | VBytes size buf => string_bytes (take size buf)
  | VFixed buf => string_bytes buf
  | VCallback => []
  end.

(** Is the field written at all? *)
Definition emitted (f : field) (sl : slot) : bool :=
  match f_htype f, f_atype f with
  | HT_OPTIONAL, AT_STATIC => s_has sl
  | HT_SINGULAR, AT_STATIC => negb (pb_check_proto3_default_value f (s_val sl))
  | _, AT_CALLBACK => false
  end.
Definition field_bytes (f : field) (sl : slot) : bytes :=
  if emitted f sl then tag_bytes f ++ value_bytes f (s_val sl) else [].
Definition message_bytes (desc : list field) (msg : list slot) : bytes :=
  concat (zip_with field_bytes desc msg).

(** * Well-formed descriptors and structures *)
Definition field_ok (f : field) : Prop :=
  0 < f_tag f < 2 ^ 16 ∧
  match f_ltype f with
  | LT_UVARINT | LT_SVARINT => valid_int_size (f_size f) = true
  | LT_BYTES => Z.of_nat (f_size f) < 2 ^ 16 - 2
  | LT_FIXED_LENGTH_BYTES => 0 < Z.of_nat (f_size f) < 2 ^ 16 - 2
  end.
Definition desc_ok (desc : list field) : Prop := Forall field_ok desc ∧ NoDup (f_tag <$> desc).

(** [v] is a value of the member, in the form the decoder leaves it in: the
    unused tail of a bytes array is zero. *)
Definition value_ok (f : field) (v : value) : Prop :=
  let w := 8 * Z.of_nat (f_size f) in
  match f_ltype f, v with
  | LT_UVARINT, VInt z => 0 <= z < 2 ^ w
  | LT_SVARINT, VInt z => - 2 ^ (w - 1) <= z < 2 ^ (w - 1)
  | LT_BYTES, VBytes size buf =>
      (size <= f_size f)%nat ∧ ∃ l, length l = size ∧ buf = l ++ zeros (f_size f - size)
  | LT_FIXED_LENGTH_BYTES, VFixed buf => length buf = f_size f
  | _, _ => False
  end.

(** Members that are absent hold their default. *)
Definition slot_ok (f : field) (sl : slot) : Prop :=
  match f_atype f with
  | AT_CALLBACK => sl = Slot false VCallback
  | AT_STATIC =>
      value_ok f (s_val sl) ∧ (f_htype f = HT_SINGULAR → s_has sl = false) ∧
      (emitted f sl = false → sl = pb_field_set_to_default f)
  end.

Lemma valid_int_size_cases n :
  valid_int_size n = true → n = 1%nat ∨ n = 2%nat ∨ n = 4%nat ∨ n = 8%nat.
Proof.
  unfold valid_int_size. rewrite !orb_true_iff, !Nat.eqb_eq. lia.
Qed.

(** * Encoding writes [message_bytes] *)
Lemma pb_encode_tag_bytes s f : field_ok f → pb_encode_tag_for_field s f = pb_write s (tag_bytes f).
Proof.
  intros [Ht _]. unfold pb_encode_tag_for_field, pb_encode_tag, tag_bytes.
  assert (∀ wt, 0 <= wt < 8 → Z.lor (Z.shiftl (f_tag f) 3) wt = 8 * f_tag f + wt) as E.
  { intros wt Hwt. rewrite Z.lor_comm, lor_shiftl_add by lia. lia. }
  unfold PB_WT_VARINT, PB_WT_STRING.
  destruct (f_ltype f); rewrite E, pb_encode_varint_write by lia; done.
Qed.

Lemma pb_encode_string_bytes s l :
  Z.of_nat (length l) < 2 ^ 16 → pb_encode_string s l = pb_write s (string_bytes l).
Proof.
  intros Hl. unfold pb_encode_string, string_bytes.
  rewrite pb_encode_varint_write by lia. apply pb_write_app.
Qed.

(** The range of a [w]-bit member is within 64 bits. *)
Lemma int_width n : valid_int_size n = true →
  (0 < n)%nat ∧ 2 ^ (8 * Z.of_nat n) <= 2 ^ 64 ∧ 2 ^ (8 * Z.of_nat n - 1) <= 2 ^ 63.
Proof. intros [->|[->|[->| ->]]]%valid_int_size_cases; (split; [lia|]; vm_compute; done). Qed.

Lemma encode_basic_field_bytes s f v :
  field_ok f → value_ok f v →
  encode_basic_field s f v = pb_write s (tag_bytes f ++ value_bytes f v).
Proof.
  intros HF HV. rewrite <- pb_write_app. unfold encode_basic_field.
  rewrite pb_encode_tag_bytes by done. destruct (pb_write s (tag_bytes f)) as [s1|]; [|done].
  cbn [mbind option_bind]. destruct HF as [_ HF]. unfold value_ok in HV.
  destruct (f_ltype f) eqn:Hlt, v as [z|size buf|buf|]; try done; cbn [value_bytes]; rewrite ?Hlt.
  - unfold pb_enc_varint. rewrite HF, Hlt. cbn [negb]. apply pb_encode_varint_write.
    pose proof (int_width _ HF). lia.
  - unfold pb_enc_varint. rewrite HF, Hlt. cbn [negb]. apply pb_encode_varint_write.
    pose proof (int_width _ HF). rewrite zigzag_value by lia. destruct (Z.ltb_spec z 0); lia.
  - destruct HV as (Hs & l & Hl & ->). unfold pb_enc_bytes.
    destruct (Nat.ltb_spec (f_size f) size); [lia|]. apply pb_encode_string_bytes.
    rewrite length_take. lia.
  - rewrite take_ge by lia. apply pb_encode_string_bytes. lia.
Qed.

Lemma encode_field_bytes s f sl :
  field_ok f → slot_ok f sl → encode_field s f sl = pb_write s (field_bytes f sl).
Proof.
  intros HF HS. unfold slot_ok in HS. unfold field_bytes, encode_field, emitted in *.
  destruct (f_atype f) eqn:Ha.
  2:{ destruct (f_htype f); by rewrite pb_write_nil. }
  destruct HS as (HV & _ & _). destruct (f_htype f).
  - destruct (pb_check_proto3_default_value f (s_val sl)); cbn [negb].
    + by rewrite pb_write_nil.
    + by apply encode_basic_field_bytes.
  - destruct (s_has sl); [by apply encode_basic_field_bytes|by rewrite pb_write_nil].
Qed.

Lemma pb_encode_bytes desc msg s :
  Forall field_ok desc → Forall2 slot_ok desc msg →
  pb_encode s desc msg = pb_write s (message_bytes desc msg).
Proof.
  intros HD HM. revert s HD. induction HM as [|f sl desc msg Hsl HM IH]; intros s HD.
  - by rewrite pb_write_nil.
  - apply Forall_cons in HD as [Hf HD]. unfold message_bytes. cbn [pb_encode zip_with concat].
    rewrite <- pb_write_app, encode_field_bytes by done.
    destruct (pb_write s (field_bytes f sl)) as [s1|]; [|done]. cbn. by apply IH.
Qed.

(** * Every iteration of the decoder consumes input *)
Lemma decode_varint_loop_shorter bitpos r s v s' :
  decode_varint_loop bitpos r s = Some (v, s') → (length s' < length s)%nat.
Proof.
  revert bitpos r. induction s as [|b s IH]; intros bitpos r; cbn; [done|].
  destruct (_ && _); [done|]. destruct (negb _); [|intros; by simplify_eq; lia].
  intros H. apply IH in H. lia.
Qed.

Lemma decode_varint32_loop_shorter bitpos r s v s' :
  decode_varint32_loop bitpos r s = Some (v, s') → (length s' < length s)%nat.
Proof.
  revert bitpos r. induction s as [|b s IH]; intros bitpos r; cbn [decode_varint32_loop length]; [done|].
  assert (∀ r', (if negb (Z.land b 0x80 =? 0) then decode_varint32_loop (u8 (bitpos + 7)) r' s
                 else Some (r', s)) = Some (v, s') → (length s' < S (length s))%nat) as Hc.
  { intros r'. destruct (negb _); [|intros; by simplify_eq; lia]. intros H. apply IH in H. lia. }
  destruct (32 <=? bitpos).
  { destruct (_ || _); [done|apply Hc]. }
  destruct (bitpos =? 28); [destruct (_ && _); [done|]|]; apply Hc.
Qed.

Lemma pb_decode_varint32_shorter s v s' :
  pb_decode_varint32 s = Some (v, s') → (length s' < length s)%nat.
Proof.
  destruct s as [|b s]; cbn; [done|]. destruct (_ =? 0); [intros; by simplify_eq; lia|].
  intros H%decode_varint32_loop_shorter. lia.
Qed.

Lemma pb_decode_tag_shorter s wt tag s' :
  pb_decode_tag s = Some (wt, tag, s') → (length s' < length s)%nat.
Proof.
  unfold pb_decode_tag. intros ([v s1] & H & E)%bind_Some. cbn in E. simplify_eq.
  by apply pb_decode_varint32_shorter in H.
Qed.

Lemma pb_read_shorter s n l s' : pb_read s n = Some (l, s') → (length s' <= length s)%nat.
Proof. unfold pb_read. destruct (_ <? _)%nat; [done|]. intros. simplify_eq. rewrite length_drop. lia. Qed.

Lemma pb_skip_varint_shorter s s' : pb_skip_varint s = Some s' → (length s' <= length s)%nat.
Proof.
  induction s as [|b s IH]; cbn; [done|]. destruct (negb _); [|intros; by simplify_eq; lia].
  intros H%IH. lia.
Qed.

Lemma read_raw_varint_shorter k s s' : read_raw_varint k s = Some s' → (length s' <= length s)%nat.
Proof.
  revert s. induction k as [|k IH]; intros [|b s]; cbn; try done.
  destruct (negb _); [|intros; by simplify_eq; lia]. intros H%IH. lia.
Qed.

Lemma read_raw_value_shorter wt k s s' :
  read_raw_value wt k s = Some s' → (length s' <= length s)%nat.
Proof.
  unfold read_raw_value. destruct (wt =? _); [apply read_raw_varint_shorter|].
  repeat (destruct (wt =? _); [intros ([l s1] & H & ->)%fmap_Some; by apply pb_read_shorter in H|]).
  done.
Qed.

Lemma pb_skip_field_shorter wt s s' : pb_skip_field wt s = Some s' → (length s' <= length s)%nat.
Proof.
  unfold pb_skip_field, pb_skip_string. destruct (wt =? _); [apply pb_skip_varint_shorter|].
  destruct (wt =? _); [intros ([l s1] & H & ->)%fmap_Some; by apply pb_read_shorter in H|].
  destruct (wt =? _).
  { intros ([n s1] & H1 & ([l s2] & H2 & ->)%fmap_Some)%bind_Some.
    apply pb_decode_varint32_shorter in H1. apply pb_read_shorter in H2. cbn. lia. }
  destruct (wt =? _); [intros ([l s1] & H & ->)%fmap_Some; by apply pb_read_shorter in H|done].
Qed.

Lemma decode_basic_field_shorter wt f v s v' s' :
  decode_basic_field wt f v s = Some (v', s') → (length s' <= length s)%nat.
Proof.
  unfold decode_basic_field, pb_dec_varint, pb_dec_bytes, pb_dec_fixed_length_bytes,
    pb_decode_svarint, pb_decode_varint.
  destruct (f_ltype f); (destruct (negb _); [done|]);
    intros ([n s1] & H1 & H2)%bind_Some; cbn beta iota in H2.
  - apply decode_varint_loop_shorter in H1. destruct (negb (valid_int_size _)); [done|].
    cbv zeta in H2. destruct (negb _); simplify_eq. lia.
  - apply bind_Some in H1 as ([n1 s2] & H1 & E). cbn in E. simplify_eq.
    apply decode_varint_loop_shorter in H1. destruct (negb (valid_int_size _)); [done|].
    cbv zeta in H2. destruct (negb _); simplify_eq. lia.
  - apply pb_decode_varint32_shorter in H1. destruct (_ <? _); [done|].
    destruct (_ <? _)%nat; [done|]. apply bind_Some in H2 as ([l s2] & H2 & E). cbn in E.
    simplify_eq. apply pb_read_shorter in H2. lia.
  - apply pb_decode_varint32_shorter in H1. destruct (_ <? _); [done|].
    destruct (_ =? 0); [by simplify_eq; lia|]. destruct (negb _); [done|].
    apply bind_Some in H2 as ([l s2] & H2 & E). cbn in E. simplify_eq.
    apply pb_read_shorter in H2. lia.
Qed.

Lemma decode_field_shorter wt f sl s sl' s' :
  decode_field wt f sl s = Some (sl', s') → (length s' <= length s)%nat.
Proof.
  unfold decode_field. destruct (f_atype f).
  - intros ([v s1] & H & E)%bind_Some. cbn in E. simplify_eq.
    by apply decode_basic_field_shorter in H.
  - intros (s1 & H & E)%bind_Some. cbn in E. simplify_eq. unfold decode_callback_field in H.
    destruct (_ =? _); [|by apply read_raw_value_shorter in H].
    apply bind_Some in H as ([n s2] & H & E). cbn beta iota in E.
    destruct (_ <? _)%nat; simplify_eq. apply pb_decode_varint32_shorter in H.
    rewrite length_drop. lia.
Qed.

(** The fuel [pb_decode] passes is enough: more changes nothing. *)
Lemma decode_fields_fuel desc k1 k2 msg s :
  (length s <= k1)%nat → (length s <= k2)%nat →
  decode_fields k1 desc msg s = decode_fields k2 desc msg s.
Proof.
  revert k2 msg s. induction k1 as [|k1 IH]; intros k2 msg s H1 H2.
  { destruct s; cbn in H1; [|lia]. by destruct k2. }
  destruct s as [|b s]; [by destruct k2|]. destruct k2 as [|k2]; [cbn in H2; lia|].
  cbn [decode_fields]. destruct (pb_decode_tag (b :: s)) as [[[wt tag] s1]|] eqn:Ht; [|done].
  apply pb_decode_tag_shorter in Ht. cbn [mbind option_bind].
  destruct (tag =? 0); [done|]. destruct (find_by_tag desc tag) as [i|].
  - destruct (desc !! i) as [f|]; [|done]. destruct (msg !! i) as [sl|]; [|done]. cbn [mbind option_bind].
    destruct (decode_field wt f sl s1) as [[sl' s2]|] eqn:Hf; [|done]. cbn [mbind option_bind].
    apply decode_field_shorter in Hf. apply IH; cbn in *; lia.
  - destruct (pb_skip_field wt s1) as [s2|] eqn:Hs; [|done]. cbn [mbind option_bind].
    apply pb_skip_field_shorter in Hs. apply IH; cbn in *; lia.
Qed.

(** * What the encoder wrote, the decoder reads back *)
Definition wire_type_of (f : field) : Z :=
  match f_ltype f with
  | LT_UVARINT | LT_SVARINT => PB_WT_VARINT
  | LT_BYTES | LT_FIXED_LENGTH_BYTES => PB_WT_STRING
  end.

Lemma pb_decode_tag_bytes f rest :
  field_ok f → pb_decode_tag (tag_bytes f ++ rest) = Some (wire_type_of f, f_tag f, rest).
Proof.
  intros [Ht _]. unfold pb_decode_tag, tag_bytes. fold (wire_type_of f).
  assert (0 <= wire_type_of f < 8) as Hw by (unfold wire_type_of; destruct (f_ltype f); done).
  rewrite pb_decode_varint32_varint by lia. cbn [mbind option_bind].
  rewrite (Z.land_ones _ 3) by lia. rewrite Z.shiftr_div_pow2 by lia. change (2 ^ 3) with 8.
  replace (8 * f_tag f + wire_type_of f) with (wire_type_of f + f_tag f * 8) by lia.
  by rewrite Z.mod_add, Z.div_add, Z.mod_small, Z.div_small by lia.
Qed.

Lemma pb_read_app l rest : pb_read (l ++ rest) (length l) = Some (l, rest).
Proof.
  unfold pb_read. rewrite length_app.
  destruct (Nat.ltb_spec (length l + length rest) (length l)); [lia|].
  by rewrite take_app_length, drop_app_length.
Qed.

Lemma sint_small n z :
  (0 < n)%nat → - 2 ^ (8 * Z.of_nat n - 1) <= z < 2 ^ (8 * Z.of_nat n - 1) → sint n z = z.
Proof.
  intros Hn Hz. unfold sint.
  assert (2 ^ (8 * Z.of_nat n) = 2 * 2 ^ (8 * Z.of_nat n - 1)) as E.
  { rewrite <- Z.pow_succ_r by lia. f_equal. lia. }
  rewrite E, (Z.mul_comm 2), Z.div_mul by lia. rewrite Z.mod_small; lia.
Qed.

Lemma decode_field_bytes f sl rest :
  field_ok f → slot_ok f sl → emitted f sl = true →
  decode_field (wire_type_of f) f (pb_field_set_to_default f) (value_bytes f (s_val sl) ++ rest)
  = Some (sl, rest).
Proof.
  intros [_ HF] HS He. unfold slot_ok in HS. unfold emitted in He.
  unfold decode_field, pb_field_set_to_default, decode_basic_field, wire_type_of in *.
  destruct (f_atype f); [|by destruct (f_htype f)]. destruct HS as (HV & Hh & _).
  destruct sl as [has v]. cbn [s_val s_has] in *.
  assert (has = match f_htype f with HT_OPTIONAL => true | HT_SINGULAR => false end) as ->
    by (destruct (f_htype f); [by apply Hh|done]).
  unfold value_ok in HV.
  destruct (f_ltype f) eqn:Hlt, v as [z|size buf|buf|]; try done; cbn [value_bytes]; rewrite ?Hlt.
  - rewrite Z.eqb_refl. cbn [negb]. unfold pb_dec_varint. rewrite Hlt, HF.
    pose proof (int_width _ HF). rewrite pb_decode_varint_varint by lia. cbn [mbind option_bind negb].
    rewrite Z.mod_small, Z.eqb_refl by lia. by destruct (f_htype f).
  - rewrite Z.eqb_refl. cbn [negb]. unfold pb_dec_varint. rewrite Hlt, HF.
    pose proof (int_width _ HF). rewrite pb_decode_svarint_zigzag by lia. cbn [mbind option_bind negb].
    rewrite sint_small, Z.eqb_refl; [by destruct (f_htype f)| |lia].
    apply valid_int_size_cases in HF. lia.
  - destruct HV as (Hs & l & Hl & ->). rewrite Z.eqb_refl. cbn [negb]. unfold pb_dec_bytes, string_bytes.
    rewrite <- app_assoc, pb_decode_varint32_varint by (rewrite length_take; lia).
    cbn [mbind option_bind]. rewrite Nat2Z.id, take_app_length' by done.
    unfold PB_SIZE_MAX. destruct (Z.ltb_spec (2 ^ 16 - 1) (Z.of_nat (length l))); [lia|].
    destruct (Nat.ltb_spec (f_size f) (length l)); [lia|].
    rewrite pb_read_app. cbn [mbind option_bind]. unfold splice. cbn [take app].
    unfold zeros. rewrite drop_replicate. rewrite Hl. by destruct (f_htype f).
  - rewrite Z.eqb_refl. cbn [negb]. unfold pb_dec_fixed_length_bytes, string_bytes.
    rewrite <- app_assoc, pb_decode_varint32_varint by lia. cbn [mbind option_bind].
    unfold PB_SIZE_MAX. destruct (Z.ltb_spec (2 ^ 16 - 1) (Z.of_nat (length buf))); [lia|].
    destruct (Z.eqb_spec (Z.of_nat (length buf)) 0); [lia|].
    rewrite HV, Z.eqb_refl. cbn [negb]. rewrite <- HV, pb_read_app. by destruct (f_htype f).
Qed.

Lemma field_iter_find_middle pre f post :
  NoDup (f_tag <$> (pre ++ f :: post)) →
  find_by_tag (pre ++ f :: post) (f_tag f) = Some (length pre).
Proof.
  intros H. unfold find_by_tag. apply first_such_Some. split.
  - exists f. split; [|apply Z.eqb_refl]. by rewrite list_lookup_middle.
  - intros j g Hj Hg. apply Z.eqb_neq. intros Heq.
    assert (j = length pre); [|lia].
    apply (NoDup_lookup _ j (length pre) (f_tag f) H); apply list_lookup_fmap_Some.
    + exists g. by rewrite Heq.
    + exists f. by rewrite list_lookup_middle.
Qed.

Lemma decode_fields_bytes pre premsg desc msg k :
  desc_ok (pre ++ desc) → length pre = length premsg → Forall2 slot_ok desc msg →
  (length (message_bytes desc msg) <= k)%nat →
  decode_fields k (pre ++ desc) (premsg ++ pb_message_set_to_defaults desc) (message_bytes desc msg)
  = Some (premsg ++ msg).
Proof.
  intros HD HL HM Hk. revert pre premsg k HD HL Hk.
  induction HM as [|f sl desc msg Hsl HM IH]; intros pre premsg k HD HL Hk.
  { by destruct k. }
  assert (∀ k', (length (message_bytes desc msg) <= k')%nat →
    decode_fields k' (pre ++ f :: desc) (premsg ++ sl :: pb_message_set_to_defaults desc)
      (message_bytes desc msg) = Some (premsg ++ sl :: msg)) as Hrest.
  { intros k' Hk'. specialize (IH (pre ++ [f]) (premsg ++ [sl]) k').
    rewrite <- !app_assoc in IH. apply IH; [done| |done]. rewrite !length_app. cbn. lia. }
  assert (message_bytes (f :: desc) (sl :: msg) = field_bytes f sl ++ message_bytes desc msg) as E
    by done.
  assert (field_ok f) as HF by (destruct HD as [HD _]; by apply Forall_app in HD as [_ [? _]%Forall_cons]).
  change (pb_message_set_to_defaults (f :: desc))
    with (pb_field_set_to_default f :: pb_message_set_to_defaults desc).
  rewrite E in *. unfold field_bytes in *. destruct (emitted f sl) eqn:He.
  - rewrite <- app_assoc.
    pose proof (pb_decode_tag_bytes f (value_bytes f (s_val sl) ++ message_bytes desc msg) HF) as Ht.
    pose proof (pb_decode_tag_shorter _ _ _ _ Ht) as Hlen.
    destruct (tag_bytes f ++ value_bytes f (s_val sl) ++ message_bytes desc msg) as [|b s] eqn:Es;
      [cbn in Hlen; lia|].
    destruct k as [|k]; [rewrite <- app_assoc, Es in Hk; cbn in Hk; lia|].
    cbn [decode_fields]. rewrite Ht. cbn [mbind option_bind].
    destruct HF as [Htag HF']. destruct (Z.eqb_spec (f_tag f) 0); [lia|].
    rewrite field_iter_find_middle by apply HD. rewrite list_lookup_middle by done.
    rewrite HL, list_lookup_middle by done. cbn [mbind option_bind].
    rewrite (decode_field_bytes f sl) by done. cbn [mbind option_bind].
    replace (length premsg) with (length premsg + 0)%nat by lia. rewrite insert_app_r.
    cbn [list_insert insert]. apply Hrest.
    rewrite <- app_assoc, Es in Hk. rewrite length_app in Hlen. cbn in *. lia.
  - assert (sl = pb_field_set_to_default f) as <-.
    { unfold slot_ok in Hsl. unfold pb_field_set_to_default.
      destruct (f_atype f) eqn:Ha; [|done]. destruct Hsl as (_ & _ & Hs). rewrite (Hs He).
      unfold pb_field_set_to_default. by rewrite Ha. }
    apply Hrest. done.
Qed.

(** C15. What [pb_encode] writes into a large enough buffer, [pb_decode] turns back
    into the structure, for every descriptor of the supported kind and every
    structure whose absent members are zero; the encoder fails exactly when the
    message does not fit the buffer. *)
Theorem pb_roundtrip desc msg n :
  desc_ok desc → Forall2 slot_ok desc msg →
  let out := message_bytes desc msg in
  pb_encode (pb_ostream_from_buffer n) desc msg =
    (if (length out <=? n)%nat then Some (OStream out n false) else None) ∧
  pb_decode desc out = Some msg.
Proof.
  intros HD HM out. split.
  - rewrite pb_encode_bytes by (apply HD || done). apply pb_write_from_buffer.
  - unfold pb_decode. by apply (decode_fields_bytes [] []).
Qed.

(** A message of one number and one optional byte field, as generated code
    describes it. *)
Definition demo_desc : list field :=
  [Field 1 LT_UVARINT HT_SINGULAR AT_STATIC 4; Field 6 LT_BYTES HT_OPTIONAL AT_STATIC 3].
Definition demo_slots : list slot :=
  [Slot false (VInt 300); Slot true (VBytes 3 [7; 8; 9])].

Lemma pb_roundtrip_witness :
  message_bytes demo_desc demo_slots = [8; 172; 2; 50; 3; 7; 8; 9] ∧
  pb_encode (pb_ostream_from_buffer 8) demo_desc demo_slots =
    Some (OStream [8; 172; 2; 50; 3; 7; 8; 9] 8 false) ∧
  pb_decode demo_desc [8; 172; 2; 50; 3; 7; 8; 9] = Some demo_slots.
Proof.
  split; [reflexivity|].
  apply (pb_roundtrip demo_desc demo_slots 8).
  - split.
    + repeat constructor; cbn; lia.
    + apply (bool_decide_unpack _). vm_compute. exact I.
  - constructor; [|constructor; [|constructor]].
    + split; [cbn; lia|]. split; [done|]. cbn. by intros.
    + split; [|done]. cbn. split; [lia|]. by exists [7; 8; 9].
Defined.
