(* ===== verification/Descriptor.v ===== *)
(** The message descriptors of the protobuf runtime (mesh/serialization/nanopb):
    the packed words the [PB_FIELDINFO] macros of pb.h emit, the field iterator of
    pb_common.c that walks over them, and the loops of pb_encode.c and pb_decode.c
    that the iterator drives.  The file Nanopb works on a list of fields; the
    theorems here justify that list: the iterator reads back what the macros
    packed, its search finds what a search in the list finds, and encoding and
    decoding over the packed descriptor are encoding and decoding over the list.

    A read beyond [field_info] or [submsg_info] is [None]; the theorems show that
    none happens. *)
From S2P Require Import Prelude Nanopb.

(** * Packed descriptors *)
Definition PB_LTYPE_UVARINT : Z := 0x02.
Definition PB_LTYPE_SVARINT : Z := 0x03.
Definition PB_LTYPE_BYTES : Z := 0x06.
Definition PB_LTYPE_SUBMESSAGE : Z := 0x08.
Definition PB_LTYPE_SUBMSG_W_CB : Z := 0x09.
Definition PB_LTYPE_EXTENSION : Z := 0x0A.
Definition PB_LTYPE_FIXED_LENGTH_BYTES : Z := 0x0B.
Definition PB_HTYPE_REQUIRED : Z := 0x00.
Definition PB_HTYPE_OPTIONAL : Z := 0x10.
Definition PB_HTYPE_SINGULAR : Z := 0x10.
Definition PB_HTYPE_REPEATED : Z := 0x20.
Definition PB_ATYPE_STATIC : Z := 0x00.
Definition PB_ATYPE_POINTER : Z := 0x80.
Definition PB_ATYPE_CALLBACK : Z := 0x40.
Definition PB_ATYPE (x : Z) : Z := Z.land x 0xC0.
Definition PB_HTYPE (x : Z) : Z := Z.land x 0x30.
Definition PB_LTYPE (x : Z) : Z := Z.land x 0x0F.
Definition PB_LTYPE_IS_SUBMSG (x : Z) : bool :=
  (PB_LTYPE x =? PB_LTYPE_SUBMESSAGE) || (PB_LTYPE x =? PB_LTYPE_SUBMSG_W_CB).

(** The arguments of a [PB_FIELDINFO] macro. *)
Record fieldinfo := FieldInfo {
  fi_tag : Z; fi_type : Z; fi_data_offset : Z; fi_data_size : Z; fi_size_offset : Z;
  fi_array_size : Z
}.

(** [(int_least8_t)]. *)
Definition int_least8 (x : Z) : Z := (x + 128) mod 256 - 128.

Definition PB_FIELDINFO_1 (f : fieldinfo) : list Z :=
  [ Z.lor (Z.lor (Z.lor
      (Z.lor (Z.lor 0 (Z.land (Z.shiftl (fi_tag f) 2) 0xFF)) (Z.shiftl (fi_type f) 8))
      (Z.shiftl (Z.land (u32 (fi_data_offset f)) 0xFF) 16))
      (Z.shiftl (Z.land (u32 (fi_size_offset f)) 0x0F) 24))
      (Z.shiftl (Z.land (u32 (fi_data_size f)) 0x0F) 28) ].

Definition PB_FIELDINFO_2 (f : fieldinfo) : list Z :=
  [ Z.lor (Z.lor (Z.lor (Z.lor 1 (Z.land (Z.shiftl (fi_tag f) 2) 0xFF)) (Z.shiftl (fi_type f) 8))
      (Z.shiftl (Z.land (u32 (fi_array_size f)) 0xFFF) 16))
      (Z.shiftl (Z.land (u32 (fi_size_offset f)) 0x0F) 28);
    Z.lor (Z.lor (Z.land (u32 (fi_data_offset f)) 0xFFFF)
                 (Z.shiftl (Z.land (u32 (fi_data_size f)) 0xFFF) 16))
      (Z.shiftl (Z.land (u32 (fi_tag f)) 0x3C0) 22) ].

Definition offset_and_tag (f : fieldinfo) : Z :=
  Z.lor (u32 (int_least8 (fi_size_offset f))) (Z.land (u32 (Z.shiftl (u32 (fi_tag f)) 2)) 0xFFFFFF00).

Definition PB_FIELDINFO_4 (f : fieldinfo) : list Z :=
  [ Z.lor (Z.lor (Z.lor 2 (Z.land (Z.shiftl (fi_tag f) 2) 0xFF)) (Z.shiftl (fi_type f) 8))
      (Z.shiftl (Z.land (u32 (fi_array_size f)) 0xFFFF) 16);
    offset_and_tag f; u32 (fi_data_offset f); u32 (fi_data_size f) ].

Definition PB_FIELDINFO_8 (f : fieldinfo) : list Z :=
  [ Z.lor (Z.lor 3 (Z.land (Z.shiftl (fi_tag f) 2) 0xFF)) (Z.shiftl (fi_type f) 8);
    offset_and_tag f; u32 (fi_data_offset f); u32 (fi_data_size f); u32 (fi_array_size f); 0; 0; 0 ].

Inductive width := WIDTH_1 | WIDTH_2 | WIDTH_4 | WIDTH_8.

Definition PB_FIELDINFO (w : width) : fieldinfo → list Z :=
  match w with
  | WIDTH_1 => PB_FIELDINFO_1 | WIDTH_2 => PB_FIELDINFO_2
  | WIDTH_4 => PB_FIELDINFO_4 | WIDTH_8 => PB_FIELDINFO_8
  end.

Definition PB_FITS (value bits : Z) : bool := u32 value <? 2 ^ bits.

(** The static assertions, for 16-bit sizes. *)
Definition PB_FIELDINFO_ASSERT (w : width) (f : fieldinfo) : bool :=
  match w with
  | WIDTH_1 =>
      PB_FITS (fi_tag f) 6 && PB_FITS (fi_data_offset f) 8 && PB_FITS (fi_size_offset f) 4 &&
      PB_FITS (fi_data_size f) 4 && PB_FITS (fi_array_size f) 1
  | WIDTH_2 =>
      PB_FITS (fi_tag f) 10 && PB_FITS (fi_data_offset f) 16 && PB_FITS (fi_size_offset f) 4 &&
      PB_FITS (fi_data_size f) 12 && PB_FITS (fi_array_size f) 12
  | WIDTH_4 | WIDTH_8 =>
      PB_FITS (fi_tag f) 16 && PB_FITS (fi_data_offset f) 16 &&
      PB_FITS (int_least8 (fi_size_offset f)) 8 && PB_FITS (fi_data_size f) 16 &&
      PB_FITS (fi_array_size f) 16
  end.

#[warnings="-register-all"]
Inductive pb_msgdesc := MsgDesc {
  field_info : list Z;
  submsg_info : list pb_msgdesc;
  field_count : Z;
  required_field_count : Z;
  largest_tag : Z
}.

(** [PB_BIND]: the fields of the message with their widths, and its submessages. *)
Definition PB_BIND (l : list (width * fieldinfo)) (subs : list pb_msgdesc) : pb_msgdesc :=
  MsgDesc (concat ((λ x, PB_FIELDINFO x.1 x.2) <$> l) ++ [0]) subs
    (u16 (Z.of_nat (length l)))
    (u16 (Z.of_nat (length (filter (λ x, PB_HTYPE (fi_type x.2) = PB_HTYPE_REQUIRED) l))))
    (u16 (foldl (λ n x, n * 0 + fi_tag x.2) 0 l)).

(** * The iterator *)
Inductive size_pointer := AtAddress (a : Z) | OwnArraySize.

Record pb_field_iter := Iter {
  descriptor : pb_msgdesc;
  message : option Z;                      (* the structure's address; null is [None] *)
  index : Z;
  field_info_index : Z;
  required_field_index : Z;
  submessage_index : Z;
  tag : Z;
  data_size : Z;
  array_size : Z;
  type : Z;
  pField : option Z;
  pData : option Z;
  pSize : option size_pointer;
  submsg_desc : option pb_msgdesc
}.

(** The position is all that moves before the values are loaded. *)
Definition with_position (i fi req sub : Z) (it : pb_field_iter) : pb_field_iter :=
  Iter (descriptor it) (message it) i fi req sub (tag it) (data_size it) (array_size it) (type it)
    (pField it) (pData it) (pSize it) (submsg_desc it).

(** [PB_PROGMEM_READU32] of the word [k] after the iterator's own. *)
Definition info_word (it : pb_field_iter) (k : Z) : option Z :=
  field_info (descriptor it) !! Z.to_nat (field_info_index it + k).

(** tag, array size, size offset, data offset, data size. *)
Definition unpacked : Type := Z * Z * Z * Z * Z.

Definition unpack_words (it : pb_field_iter) (word0 : Z) : option unpacked :=
  let low_tag := Z.land (Z.shiftr word0 2) 0x3F in
  match Z.land word0 3 with
  | 0 =>
      Some (u16 low_tag, 1, Z.land (Z.shiftr word0 24) 0x0F, Z.land (Z.shiftr word0 16) 0xFF,
            u16 (Z.land (Z.shiftr word0 28) 0x0F))
  | 1 =>
      word1 ← info_word it 1;
      Some (u16 (Z.lor low_tag (Z.shiftl (Z.shiftr word1 28) 6)), u16 (Z.land (Z.shiftr word0 16) 0x0FFF),
            Z.land (Z.shiftr word0 28) 0x0F, Z.land word1 0xFFFF,
            u16 (Z.land (Z.shiftr word1 16) 0x0FFF))
  | 2 =>
      word1 ← info_word it 1; word2 ← info_word it 2; word3 ← info_word it 3;
      Some (u16 (Z.lor low_tag (u32 (Z.shiftl (Z.shiftr word1 8) 6))), u16 (Z.shiftr word0 16),
            int_least8 (Z.land word1 0xFF), word2, u16 word3)
  | _ =>
      word1 ← info_word it 1; word2 ← info_word it 2; word3 ← info_word it 3; word4 ← info_word it 4;
      Some (u16 (Z.lor low_tag (u32 (Z.shiftl (Z.shiftr word1 8) 6))), u16 word4,
            int_least8 (Z.land word1 0xFF), word2, u16 word3)
  end.

Section Iterator.
(** The pointer stored at an address, for members that are allocated elsewhere. *)
Context (pointer_at : Z → option Z).

Definition load_descriptor_values (it : pb_field_iter) : option (bool * pb_field_iter) :=
  if field_count (descriptor it) <=? index it then Some (false, it)
  else
    word0 ← info_word it 0;
    '(t, arr, size_offset, data_offset, ds) ← unpack_words it word0;
    let ty := Z.land (Z.shiftr word0 8) 0xFF in
    let '(pf, pd, ps) :=
      match message it with
      | None => (None, pData it, None)
      | Some m =>
          let a := m + data_offset in
          (Some a,
           (if PB_ATYPE ty =? PB_ATYPE_POINTER then pointer_at a else Some a),
           (if negb (size_offset =? 0) then Some (AtAddress (a - size_offset))
            else if (PB_HTYPE ty =? PB_HTYPE_REPEATED) &&
                    ((PB_ATYPE ty =? PB_ATYPE_STATIC) || (PB_ATYPE ty =? PB_ATYPE_POINTER))
            then Some OwnArraySize else None))
      end in
    sd ← (if PB_LTYPE_IS_SUBMSG ty
          then Some <$> (submsg_info (descriptor it) !! Z.to_nat (submessage_index it))
          else Some (None : option pb_msgdesc));
    Some (true,
          Iter (descriptor it) (message it) (index it) (field_info_index it) (required_field_index it)
            (submessage_index it) t ds arr ty pf pd ps sd).

Definition advance_iterator (it : pb_field_iter) : option pb_field_iter :=
  let i := u16 (index it + 1) in
  if field_count (descriptor it) <=? i then Some (with_position 0 0 0 0 it)
  else
    prev_descriptor ← info_word it 0;
    let prev_type := Z.land (Z.shiftr prev_descriptor 8) 0xFF in
    let descriptor_len := Z.shiftl 1 (Z.land prev_descriptor 3) in
    Some (with_position i (u16 (field_info_index it + descriptor_len))
            (u16 (required_field_index it + Z.b2z (PB_HTYPE prev_type =? PB_HTYPE_REQUIRED)))
            (u16 (submessage_index it + Z.b2z (PB_LTYPE_IS_SUBMSG prev_type))) it).

Definition pb_field_iter_begin (desc : pb_msgdesc) (m : option Z) : option (bool * pb_field_iter) :=
  load_descriptor_values (Iter desc m 0 0 0 0 0 0 0 0 None None None None).

Definition pb_field_iter_next (it : pb_field_iter) : option (bool * pb_field_iter) :=
  it1 ← advance_iterator it; '(_, it2) ← load_descriptor_values it1;
  Some (negb (index it2 =? 0), it2).

(** The do-while loop of the search; at most [field_count] turns, see [find_loop_spec]. *)
Fixpoint find_loop (fuel : nat) (t start : Z) (it : pb_field_iter) : option (bool * pb_field_iter) :=
  match fuel with
  | O => None
  | S fuel' =>
      it1 ← advance_iterator it;
      fieldinfo ← info_word it1 0;
      '(found, it2) ←
        (if Z.land (Z.shiftr fieldinfo 2) 0x3F =? Z.land t 0x3F then
           '(_, it') ← load_descriptor_values it1;
           Some ((tag it' =? t) && negb (PB_LTYPE (type it') =? PB_LTYPE_EXTENSION), it')
         else Some (false, it1));
      if (found : bool) then Some (true, it2)
      else if index it2 =? start then '(_, it3) ← load_descriptor_values it2; Some (false, it3)
      else find_loop fuel' t start it2
  end.

Definition pb_field_iter_find (it : pb_field_iter) (t : Z) : option (bool * pb_field_iter) :=
  if tag it =? t then Some (true, it)
  else if largest_tag (descriptor it) <? t then Some (false, it)
  else
    let start := index it in
    let it1 := if t <? tag it
               then with_position (field_count (descriptor it)) (field_info_index it)
                      (required_field_index it) (submessage_index it) it
               else it in
    find_loop (Z.to_nat (field_count (descriptor it))) t start it1.

Fixpoint find_extension_loop (fuel : nat) (start : Z) (it : pb_field_iter) : option (bool * pb_field_iter) :=
  match fuel with
  | O => None
  | S fuel' =>
      it1 ← advance_iterator it;
      fieldinfo ← info_word it1 0;
      if PB_LTYPE (Z.land (Z.shiftr fieldinfo 8) 0xFF) =? PB_LTYPE_EXTENSION
      then load_descriptor_values it1
      else if index it1 =? start then '(_, it2) ← load_descriptor_values it1; Some (false, it2)
      else find_extension_loop fuel' start it1
  end.

Definition pb_field_iter_find_extension (it : pb_field_iter) : option (bool * pb_field_iter) :=
  if PB_LTYPE (type it) =? PB_LTYPE_EXTENSION then Some (true, it)
  else find_extension_loop (Z.to_nat (field_count (descriptor it))) (index it) it.
End Iterator.

(** * What was packed is read back *)
Lemma low_bits code t :
  0 <= code < 4 → 0 <= t → Z.lor code (Z.land (Z.shiftl t 2) 0xFF) = code + 4 * (t mod 64).
Proof.
  intros Hc Ht. change 0xFF with (Z.ones 8). rewrite Z.land_ones, (Z.shiftl_mul_pow2 t) by lia.
  assert ((t * 2 ^ 2) mod 2 ^ 8 = Z.shiftl (t mod 64) 2) as ->.
  { rewrite Z.shiftl_mul_pow2 by lia. change (2 ^ 8) with (64 * 2 ^ 2). by rewrite Z.mul_mod_distr_r by lia. }
  rewrite lor_shiftl_add by lia. lia.
Qed.

Lemma land_ones' x n m : m = Z.ones n → 0 <= n → Z.land x m = x mod 2 ^ n.
Proof. intros ->. apply Z.land_ones. Qed.

(** The numbers a [PB_FIELDINFO] macro can be given: what its assertion checks, and
    what the generator keeps to besides (one-word fields are no arrays; the offset of
    the size is not truncated by its cast). *)
Record info_ok (w : width) (f : fieldinfo) : Prop := {
  io_assert : PB_FIELDINFO_ASSERT w f = true;
  io_tag : 0 < fi_tag f < 2 ^ 32;
  io_type : 0 <= fi_type f < 256;
  io_data_offset : 0 <= fi_data_offset f < 2 ^ 32;
  io_data_size : 0 <= fi_data_size f < 2 ^ 32;
  io_size_offset : 0 <= fi_size_offset f < 128;
  io_array_size : 0 <= fi_array_size f < 2 ^ 32;
  io_single : w = WIDTH_1 → fi_array_size f = 1
}.

Definition words_of (w : width) : Z :=
  match w with WIDTH_1 => 1 | WIDTH_2 => 2 | WIDTH_4 => 4 | WIDTH_8 => 8 end.

Lemma u32_small x : 0 <= x < 2 ^ 32 → u32 x = x.
Proof. apply Z.mod_small. Qed.
Lemma u16_small x : 0 <= x < 2 ^ 16 → u16 x = x.
Proof. apply Z.mod_small. Qed.
Lemma int_least8_small x : 0 <= x < 128 → int_least8 x = x.
Proof. intros H. unfold int_least8. rewrite Z.mod_small by lia. lia. Qed.

(** Disjoint bit fields, innermost first. *)
Ltac add_fields :=
  repeat match goal with
         | |- context [Z.lor ?a (Z.shiftl ?b ?n)] =>
             lazymatch a with
             | context [Z.lor _ _] => fail
             | _ => rewrite (lor_shiftl_add a b n) by lia
             end
         end.

(** The first word of each format, and the word of size offset and tag. *)
Definition head_word (code t ty : Z) : Z := code + 4 * (t mod 64) + 256 * ty.

Lemma head_word_bound code t ty : 0 <= code < 4 → 0 <= ty < 256 → 0 <= head_word code t ty < 2 ^ 16.
Proof. unfold head_word. pose proof (Z.mod_pos_bound t 64). lia. Qed.

Lemma head_word_pack code t ty :
  0 <= code < 4 → 0 <= t → 0 <= ty < 256 →
  Z.lor (Z.lor code (Z.land (Z.shiftl t 2) 0xFF)) (Z.shiftl ty 8) = head_word code t ty.
Proof.
  intros Hc Ht Hy. rewrite low_bits by done. pose proof (Z.mod_pos_bound t 64).
  rewrite lor_shiftl_add by lia. unfold head_word. lia.
Qed.

(** The head of a first word, whatever stands above it. *)
Lemma head_word_read code t ty x :
  0 <= code < 4 → 0 <= ty < 256 → 0 <= x →
  let w := head_word code t ty + x * 2 ^ 16 in
  Z.land w 3 = code ∧ Z.land (Z.shiftr w 2) 0x3F = t mod 64 ∧ Z.land (Z.shiftr w 8) 0xFF = ty ∧
  Z.shiftr w 16 = x.
Proof.
  intros Hc Hy Hx w. pose proof (Z.mod_pos_bound t 64 ltac:(lia)). subst w. unfold head_word.
  rewrite !Z.shiftr_div_pow2 by lia.
  rewrite (land_ones' _ 2 3), (land_ones' _ 6 0x3F), (land_ones' _ 8 0xFF) by done.
  remember (t mod 64) as l. clear Heql. split_and!; Z.div_mod_to_equations; lia.
Qed.

(** The bits of a number from [n] up. *)
Lemma land_high t n k :
  0 <= n → 0 <= k → 0 <= t < 2 ^ (n + k) → Z.land t (Z.shiftl (Z.ones k) n) = Z.shiftl (t / 2 ^ n) n.
Proof.
  intros Hn Hk Ht. rewrite <- Z.shiftr_div_pow2 by done.
  apply Z.bits_inj'. intros i Hi. rewrite Z.land_spec, !(Z.shiftl_spec _ n) by lia.
  destruct (Z.lt_ge_cases i n) as [L|L].
  - rewrite !(Z.testbit_neg_r _ (i - n)) by lia. apply andb_false_r.
  - rewrite Z.shiftr_spec by lia. replace (i - n + n) with i by lia.
    destruct (Z.lt_ge_cases i (n + k)) as [U|U].
    + rewrite Z.ones_spec_low by lia. apply andb_true_r.
    + rewrite Z.ones_spec_high by lia. destruct (decide (t = 0)) as [->|]; [by rewrite Z.bits_0|].
      rewrite (Z.bits_above_log2 _ i); [done|lia|]. apply (Z.lt_le_trans _ (n + k)); [|done].
      apply Z.log2_lt_pow2; lia.
Qed.

Lemma offset_and_tag_pack f :
  0 <= fi_tag f < 2 ^ 16 → 0 <= fi_size_offset f < 128 →
  offset_and_tag f = fi_size_offset f + 256 * (fi_tag f / 64).
Proof.
  intros Ht Hs. unfold offset_and_tag. rewrite int_least8_small, (u32_small (fi_size_offset f)) by lia.
  rewrite (u32_small (fi_tag f)), Z.shiftl_mul_pow2 by lia. rewrite (u32_small (_ * _)) by lia.
  change 0xFFFFFF00 with (Z.shiftl (Z.ones 24) 8). rewrite land_high by lia.
  replace (fi_tag f * 2 ^ 2 / 2 ^ 8) with (fi_tag f / 64) by (Z.div_mod_to_equations; lia).
  rewrite lor_shiftl_add by lia. lia.
Qed.

(** The second word of the two-word format. *)
Lemma second_word f :
  0 <= fi_tag f < 2 ^ 10 → 0 <= fi_data_offset f < 2 ^ 16 → 0 <= fi_data_size f < 2 ^ 12 →
  PB_FIELDINFO_2 f !! 1%nat = Some (fi_data_offset f + 2 ^ 16 * fi_data_size f + 2 ^ 28 * (fi_tag f / 64)).
Proof.
  intros Ht Ho Hs. cbn. f_equal. rewrite !u32_small by lia.
  rewrite (land_ones' _ 16 0xFFFF), (land_ones' _ 12 0xFFF) by done. rewrite !Z.mod_small by lia.
  change 0x3C0 with (Z.shiftl (Z.ones 4) 6). rewrite land_high, Z.shiftl_shiftl by lia.
  change (6 + 22) with 28. change (2 ^ 6) with 64. add_fields. lia.
Qed.

(** The iterator's own words are those of field [f]. *)
Definition on_field (w : width) (f : fieldinfo) (it : pb_field_iter) : Prop :=
  ∀ k x, PB_FIELDINFO w f !! k = Some x → info_word it (Z.of_nat k) = Some x.

(** The first word with its upper half apart. *)
Definition upper_half (w : width) (f : fieldinfo) : Z :=
  match w with
  | WIDTH_1 => fi_data_offset f + 2 ^ 8 * fi_size_offset f + 2 ^ 12 * fi_data_size f
  | WIDTH_2 => fi_array_size f + 2 ^ 12 * fi_size_offset f
  | WIDTH_4 => fi_array_size f
  | WIDTH_8 => 0
  end.
Definition width_code (w : width) : Z :=
  match w with WIDTH_1 => 0 | WIDTH_2 => 1 | WIDTH_4 => 2 | WIDTH_8 => 3 end.

(** What the assertions say of unsigned numbers. *)
Lemma fits_small x n : 0 <= x < 2 ^ 32 → PB_FITS x n = true → x < 2 ^ n.
Proof. intros H. unfold PB_FITS. rewrite u32_small by done. apply Z.ltb_lt. Qed.

Lemma info_sizes w f :
  info_ok w f →
  fi_data_offset f < 2 ^ 16 ∧ fi_data_size f < 2 ^ 16 ∧ fi_array_size f < 2 ^ 16 ∧ fi_tag f < 2 ^ 16 ∧
  (w = WIDTH_1 → fi_tag f < 2 ^ 6 ∧ fi_data_offset f < 2 ^ 8 ∧ fi_size_offset f < 2 ^ 4 ∧ fi_data_size f < 2 ^ 4) ∧
  (w = WIDTH_2 → fi_tag f < 2 ^ 10 ∧ fi_size_offset f < 2 ^ 4 ∧ fi_data_size f < 2 ^ 12 ∧ fi_array_size f < 2 ^ 12).
Proof.
  intros [HA Ht _ Hd Hs Hso Ha H1]. destruct w; cbn in HA; rewrite !andb_true_iff in HA;
    destruct HA as [[[[T%fits_small O%fits_small] S] D%fits_small] A%fits_small]; try lia;
    try (apply fits_small in S; [|lia]); split_and!; try done; lia.
Qed.

Lemma first_word w f :
  info_ok w f → PB_FIELDINFO w f !! 0%nat = Some (head_word (width_code w) (fi_tag f) (fi_type f) + upper_half w f * 2 ^ 16).
Proof.
  intros I. destruct (info_sizes w f I) as (B1 & B2 & B3 & B4 & C1 & C2). destruct I as [_ Ht Hy Hd Hs Hso Ha _].
  destruct w; cbn; f_equal; rewrite ?u32_small by lia;
    (rewrite head_word_pack by lia);
    pose proof (λ c H, head_word_bound c (fi_tag f) (fi_type f) H Hy) as HB.
  - destruct C1 as (? & ? & ? & ?); [done|]. specialize (HB 0 ltac:(lia)).
    rewrite (land_ones' _ 8 0xFF), (land_ones' (fi_size_offset f) 4), (land_ones' (fi_data_size f) 4) by done.
    rewrite !Z.mod_small by lia. add_fields. lia.
  - destruct C2 as (? & ? & ? & ?); [done|]. specialize (HB 1 ltac:(lia)).
    rewrite (land_ones' _ 12 0xFFF), (land_ones' (fi_size_offset f) 4) by done.
    rewrite !Z.mod_small by lia. add_fields. lia.
  - specialize (HB 2 ltac:(lia)). rewrite (land_ones' _ 16 0xFFFF) by done.
    rewrite !Z.mod_small by lia. add_fields. lia.
  - lia.
Qed.

Lemma tag_join t : 0 <= t < 2 ^ 16 → u16 (Z.lor (t mod 64) (Z.shiftl (t / 64) 6)) = t.
Proof.
  intros H. pose proof (Z.mod_pos_bound t 64 ltac:(lia)). rewrite lor_shiftl_add by lia.
  replace (t mod 64 + t / 64 * 2 ^ 6) with t by (Z.div_mod_to_equations; lia). by apply u16_small.
Qed.

(** The word of size offset and tag, taken apart. *)
Lemma offset_and_tag_read f :
  0 <= fi_tag f < 2 ^ 16 → 0 <= fi_size_offset f < 128 →
  u16 (Z.lor (fi_tag f mod 64) (u32 (Z.shiftl (Z.shiftr (offset_and_tag f) 8) 6))) = fi_tag f ∧
  int_least8 (Z.land (offset_and_tag f) 0xFF) = fi_size_offset f.
Proof.
  intros Ht Hs. rewrite offset_and_tag_pack by done. rewrite (land_ones' _ 8 0xFF), Z.shiftr_div_pow2 by done.
  replace ((fi_size_offset f + 256 * (fi_tag f / 64)) / 2 ^ 8) with (fi_tag f / 64) by (Z.div_mod_to_equations; lia).
  replace ((fi_size_offset f + 256 * (fi_tag f / 64)) mod 2 ^ 8) with (fi_size_offset f) by (Z.div_mod_to_equations; lia).
  split; [|by apply int_least8_small]. rewrite u32_small; [by apply tag_join|].
  rewrite Z.shiftl_mul_pow2 by lia. Z.div_mod_to_equations; lia.
Qed.

(** Reading back what was packed. *)
Lemma unpack_packed w f it :
  info_ok w f → on_field w f it →
  ∃ word0, info_word it 0 = Some word0 ∧
    unpack_words it word0 =
      Some (fi_tag f, fi_array_size f, fi_size_offset f, fi_data_offset f, fi_data_size f) ∧
    Z.land (Z.shiftr word0 8) 0xFF = fi_type f ∧ Z.land (Z.shiftr word0 2) 0x3F = fi_tag f mod 64 ∧
    Z.shiftl 1 (Z.land word0 3) = words_of w.
Proof.
  intros I HF. destruct (info_sizes w f I) as (B1 & B2 & B3 & B4 & C1 & C2).
  pose proof (HF _ _ (first_word w f I)) as E0. destruct I as [_ Ht Hy Hd Hs Hso Ha H1].
  set (word0 := _ + _) in E0. assert (0 <= upper_half w f) as HU by (destruct w; cbn; lia).
  destruct (head_word_read (width_code w) (fi_tag f) (fi_type f) (upper_half w f)) as (R1 & R2 & R3 & R4);
    [by destruct w|done..|].
  exists word0. split; [exact E0|]. fold word0 in R1, R2, R3, R4. split; [|by rewrite R1; destruct w].
  assert (∀ n, 16 <= n → Z.shiftr word0 n = upper_half w f / 2 ^ (n - 16)) as RS.
  { intros n Hn. rewrite <- R4, <- Z.shiftr_div_pow2, Z.shiftr_shiftr by lia. f_equal. lia. }
  unfold unpack_words. rewrite R1, R2. destruct w; cbn [width_code upper_half] in *.
  - destruct C1 as (? & ? & ? & ?); [done|]. rewrite !RS by lia.
    rewrite (land_ones' _ 4 0x0F), (land_ones' _ 4 0x0F), (land_ones' _ 8 0xFF) by done.
    rewrite H1 by done. rewrite u16_small by (pose proof (Z.mod_pos_bound (fi_tag f) 64); lia).
    rewrite u16_small by (pose proof (Z.mod_pos_bound ((fi_data_offset f + 2 ^ 8 * fi_size_offset f + 2 ^ 12 * fi_data_size f) / 2 ^ (28 - 16)) (2 ^ 4)); lia).
    repeat f_equal; Z.div_mod_to_equations; lia.
  - destruct C2 as (? & ? & ? & ?); [done|].
    pose proof (HF _ _ (second_word f ltac:(lia) ltac:(lia) ltac:(lia))) as E1. change (Z.of_nat 1) with 1 in E1.
    rewrite E1. cbn [mbind option_bind]. rewrite !RS, !Z.shiftr_div_pow2 by lia.
    rewrite (land_ones' _ 4 0x0F), !(land_ones' _ 12 0x0FFF), (land_ones' _ 16 0xFFFF) by done.
    set (word1 := _ + _ + _).
    replace (word1 / 2 ^ 28) with (fi_tag f / 64) by (subst word1; Z.div_mod_to_equations; lia).
    rewrite tag_join by lia.
    replace (word1 mod 2 ^ 16) with (fi_data_offset f) by (subst word1; Z.div_mod_to_equations; lia).
    replace ((word1 / 2 ^ 16) mod 2 ^ 12) with (fi_data_size f) by (subst word1; Z.div_mod_to_equations; lia).
    rewrite Z.div_1_r.
    replace ((fi_array_size f + 2 ^ 12 * fi_size_offset f) mod 2 ^ 12) with (fi_array_size f)
      by (Z.div_mod_to_equations; lia).
    rewrite !u16_small by lia. repeat f_equal. Z.div_mod_to_equations; lia.
  - destruct (offset_and_tag_read f) as [ET ES]; [lia..|].
    pose proof (λ k x, HF k x) as W. cbn in W.
    rewrite (W 1%nat _ eq_refl : info_word it 1 = _), (W 2%nat _ eq_refl : info_word it 2 = _),
      (W 3%nat _ eq_refl : info_word it 3 = _). cbn [mbind option_bind].
    rewrite ET, ES, RS, Z.div_1_r by lia. by rewrite !u32_small, !u16_small by lia.
  - destruct (offset_and_tag_read f) as [ET ES]; [lia..|].
    pose proof (λ k x, HF k x) as W. cbn in W.
    rewrite (W 1%nat _ eq_refl : info_word it 1 = _), (W 2%nat _ eq_refl : info_word it 2 = _),
      (W 3%nat _ eq_refl : info_word it 3 = _), (W 4%nat _ eq_refl : info_word it 4 = _). cbn [mbind option_bind].
    rewrite ET, ES. by rewrite !u32_small, !u16_small by lia.
Qed.

(** * The walk over a descriptor *)
Section Walk.
Context (pointer_at : Z → option Z) (l : list (width * fieldinfo)) (subs : list pb_msgdesc) (m : Z).
#[local] Abbreviation d := (PB_BIND l subs).
#[local] Abbreviation load := (load_descriptor_values pointer_at).

(** A quantity of the fields before the field [k], summed up. *)
Definition before (g : width * fieldinfo → Z) (k : nat) : Z := foldr (λ x n, g x + n) 0 (take k l).
Definition field_words (x : width * fieldinfo) : Z := words_of x.1.
Definition required_one (x : width * fieldinfo) : Z := Z.b2z (PB_HTYPE (fi_type x.2) =? PB_HTYPE_REQUIRED).
Definition submsg_one (x : width * fieldinfo) : Z := Z.b2z (PB_LTYPE_IS_SUBMSG (fi_type x.2)).

(** What the generator keeps to: the assertions hold, the tags ascend, the counts fit
    their 16 bits, and every submessage has a descriptor. *)
Record packed : Prop := {
  pk_fields : ∀ k x, l !! k = Some x → info_ok x.1 x.2;
  pk_sorted : ∀ i j x y, (i < j)%nat → l !! i = Some x → l !! j = Some y → fi_tag x.2 < fi_tag y.2;
  pk_count : Z.of_nat (length l) < 2 ^ 16 - 1;
  pk_words : before field_words (length l) < 2 ^ 16;
  pk_subs : before submsg_one (length l) <= Z.of_nat (length subs)
}.

(** The iterator on the field [k], all its values loaded. *)
Definition iter_for (k : nat) (f : fieldinfo) : pb_field_iter :=
  let a := m + fi_data_offset f in
  let ty := fi_type f in
  Iter d (Some m) (Z.of_nat k) (before field_words k) (before required_one k) (before submsg_one k)
    (fi_tag f) (fi_data_size f) (fi_array_size f) ty (Some a)
    (if PB_ATYPE ty =? PB_ATYPE_POINTER then pointer_at a else Some a)
    (if negb (fi_size_offset f =? 0) then Some (AtAddress (a - fi_size_offset f))
     else if (PB_HTYPE ty =? PB_HTYPE_REPEATED) &&
             ((PB_ATYPE ty =? PB_ATYPE_STATIC) || (PB_ATYPE ty =? PB_ATYPE_POINTER))
     then Some OwnArraySize else None)
    (if PB_LTYPE_IS_SUBMSG ty then subs !! Z.to_nat (before submsg_one k) else None).

(** The iterator has moved to the field [k]; its values may be those of another. *)
Record at_field (k : nat) (it : pb_field_iter) : Prop := {
  af_descriptor : descriptor it = d;
  af_message : message it = Some m;
  af_index : index it = Z.of_nat k;
  af_words : field_info_index it = before field_words k;
  af_required : required_field_index it = before required_one k;
  af_submsgs : submessage_index it = before submsg_one k
}.

Lemma iter_for_at k f : at_field k (iter_for k f).
Proof. done. Qed.

Lemma before_S g k x : l !! k = Some x → before g (S k) = before g k + g x.
Proof.
  intros Hx. unfold before. rewrite (take_S_r _ _ _ Hx), foldr_app. cbn. rewrite Z.add_0_r.
  induction (take k l) as [|y t IH]; cbn; [done|]. rewrite IH. lia.
Qed.

Lemma before_mono g j k : (∀ x, 0 <= g x) → (j <= k)%nat → 0 <= before g j <= before g k.
Proof.
  intros Hg. assert (∀ t, 0 <= foldr (λ x n, g x + n) 0 t) as H0.
  { induction t as [|y t IH]; cbn; [done|]. specialize (Hg y). lia. }
  intros Hjk. split; [apply H0|]. unfold before. replace (take j l) with (take j (take k l)).
  2: { rewrite take_take. f_equal. lia. }
  generalize (take k l). clear Hjk. revert j. induction j as [|j IH]; intros t; cbn; [rewrite take_0; apply H0|].
  destruct t as [|y t]; cbn; [done|]. specialize (IH t). lia.
Qed.

Lemma field_words_pos x : 0 <= field_words x.
Proof. by destruct x as [[]]. Qed.
Lemma required_one_pos x : 0 <= required_one x.
Proof. unfold required_one. by destruct (_ =? _). Qed.
Lemma submsg_one_pos x : 0 <= submsg_one x.
Proof. unfold submsg_one. by destruct (PB_LTYPE_IS_SUBMSG _). Qed.

Lemma field_length w f : Z.of_nat (length (PB_FIELDINFO w f)) = words_of w.
Proof. by destruct w. Qed.

Lemma words_before k :
  Z.of_nat (length (concat ((λ x : width * fieldinfo, PB_FIELDINFO x.1 x.2) <$> take k l))) = before field_words k.
Proof.
  unfold before. induction (take k l) as [|x t IH]; cbn; [done|].
  rewrite length_app, Nat2Z.inj_add, field_length. by rewrite IH.
Qed.

Lemma at_on_field k x it : l !! k = Some x → at_field k it → on_field x.1 x.2 it.
Proof.
  intros Hx [Hd _ _ Hw _ _] j y Hy. unfold info_word. rewrite Hd, Hw. cbn [PB_BIND field_info].
  rewrite <- words_before, <- Nat2Z.inj_add, Nat2Z.id.
  rewrite <- (take_drop_middle _ _ _ Hx) at 2. rewrite fmap_app, fmap_cons, concat_app. cbn [concat].
  rewrite <- !app_assoc, lookup_app_r by lia. rewrite Nat.add_comm, Nat.add_sub.
  rewrite lookup_app_l; [done|]. by eapply lookup_lt_Some.
Qed.

Context (P : packed).

Lemma d_count : field_count d = Z.of_nat (length l).
Proof using P. cbn. apply u16_small. pose proof (pk_count P). lia. Qed.

(** The quantities of the iterator stay in 16 bits. *)
Lemma before_small g k :
  (∀ x, 0 <= g x) → before g (length l) < 2 ^ 16 → (k <= length l)%nat → u16 (before g k) = before g k.
Proof. intros Hg Hn Hk. apply u16_small. pose proof (before_mono g k (length l) Hg Hk). lia. Qed.

Lemma before_ones g k : (∀ x, 0 <= g x <= 1) → (k <= length l)%nat → 0 <= before g k <= Z.of_nat k.
Proof.
  intros Hg. induction k as [|k IH]; intros Hk; [done|].
  destruct (lookup_lt_is_Some_2 l k) as [x Hx]; [lia|]. rewrite (before_S _ _ _ Hx). specialize (Hg x). lia.
Qed.

Lemma submsg_present k w f :
  l !! k = Some (w, f) → PB_LTYPE_IS_SUBMSG (fi_type f) = true →
  ∃ sd, subs !! Z.to_nat (before submsg_one k) = Some sd.
Proof using P.
  intros Hx Hs. apply lookup_lt_is_Some_2. pose proof (pk_subs P) as HS.
  pose proof (before_mono submsg_one (S k) (length l) submsg_one_pos) as HM.
  apply lookup_lt_Some in Hx as Hk. specialize (HM Hk). rewrite (before_S _ _ _ Hx) in HM.
  change (submsg_one (w, f)) with (Z.b2z (PB_LTYPE_IS_SUBMSG (fi_type f))) in HM. rewrite Hs in HM.
  change (Z.b2z true) with 1 in HM.
  pose proof (before_mono submsg_one 0 k submsg_one_pos ltac:(lia)). cbn in HM. lia.
Qed.

Lemma load_field k w f it : l !! k = Some (w, f) → at_field k it → load it = Some (true, iter_for k f).
Proof using P.
  intros Hx A. pose proof (pk_fields P _ _ Hx) as I. pose proof (at_on_field _ _ _ Hx A) as HF.
  destruct (unpack_packed _ _ _ I HF) as (word0 & E0 & EU & ET & _). cbn [fst snd] in *.
  unfold load_descriptor_values. destruct A as [Hd Hm Hi Hw Hr Hs]. apply lookup_lt_Some in Hx as Hk.
  rewrite Hd, d_count, Hi. destruct (Z.leb_spec (Z.of_nat (length l)) (Z.of_nat k)) as [|_]; [lia|].
  rewrite E0. cbn [mbind option_bind]. rewrite EU. cbn [mbind option_bind]. rewrite ET, Hm, Hs.
  unfold iter_for. destruct (PB_LTYPE_IS_SUBMSG (fi_type f)) eqn:Hsub; cbn [mbind option_bind].
  - destruct (submsg_present k w f Hx Hsub) as [sd Esd]. cbn [PB_BIND submsg_info]. rewrite Esd.
    cbn. rewrite Hw, Hr. done.
  - rewrite Hw, Hr. done.
Qed.

(** The place after [k], the first place after the last. *)
Definition next (k : nat) : nat := if (S k <? length l)%nat then S k else 0%nat.

Lemma advance_past it :
  descriptor it = d → message it = Some m → index it = Z.of_nat (length l) →
  ∃ it', advance_iterator it = Some it' ∧ at_field 0 it'.
Proof using P.
  intros Hd Hm Hi. unfold advance_iterator. rewrite Hd, Hi, d_count. pose proof (pk_count P).
  rewrite u16_small by lia. destruct (Z.leb_spec (Z.of_nat (length l)) (Z.of_nat (length l) + 1)); [|lia].
  eexists. split; [reflexivity|]. done.
Qed.

Lemma advance_field k it :
  (k < length l)%nat → at_field k it → ∃ it', advance_iterator it = Some it' ∧ at_field (next k) it'.
Proof using P.
  intros Hk A. pose proof (pk_count P) as HC. destruct (lookup_lt_is_Some_2 l k Hk) as [[w f] Hx].
  pose proof (pk_fields P _ _ Hx) as I. pose proof (at_on_field _ _ _ Hx A) as HF.
  destruct (unpack_packed _ _ _ I HF) as (word0 & E0 & _ & ET & _ & EW). cbn [fst snd] in *.
  destruct A as [Hd Hm Hi Hw Hr Hs]. unfold advance_iterator, next.
  rewrite Hd, Hi, d_count. rewrite u16_small by lia.
  destruct (Nat.ltb_spec (S k) (length l)) as [L|L].
  2: { destruct (Z.leb_spec (Z.of_nat (length l)) (Z.of_nat k + 1)); [|lia]. eexists. split; [reflexivity|]. done. }
  destruct (Z.leb_spec (Z.of_nat (length l)) (Z.of_nat k + 1)); [lia|].
  rewrite E0. cbn [mbind option_bind]. rewrite ET, EW, Hw, Hr, Hs. eexists. split; [reflexivity|].
  pose proof (λ g, before_S g k _ Hx) as HB.
  assert (∀ g, (∀ x, 0 <= g x <= 1) → u16 (before g (S k)) = before g (S k)) as H1.
  { intros g Hg. apply u16_small. pose proof (before_ones g (S k) Hg ltac:(lia)). lia. }
  constructor; cbn; [done|done|lia|..].
  - change (words_of w) with (field_words (w, f)). rewrite <- HB. apply before_small; [apply field_words_pos|apply P|lia].
  - change (Z.b2z _) with (required_one (w, f)). rewrite <- HB. apply H1. intros x. unfold required_one. by destruct (_ =? _).
  - change (Z.b2z _) with (submsg_one (w, f)). rewrite <- HB. apply H1. intros x. unfold submsg_one. by destruct (PB_LTYPE_IS_SUBMSG _).
Qed.

(** * The iterator's operations *)
Lemma begin_field w f : l !! 0%nat = Some (w, f) → pb_field_iter_begin pointer_at d (Some m) = Some (true, iter_for 0 f).
Proof using P. intros Hx. by apply (load_field 0 w f). Qed.

Lemma next_lt k : (k < length l)%nat → (next k < length l)%nat.
Proof. unfold next. destruct (Nat.ltb_spec (S k) (length l)); lia. Qed.

Lemma next_field k f0 w f :
  (k < length l)%nat → l !! next k = Some (w, f) →
  pb_field_iter_next pointer_at (iter_for k f0) = Some (negb (next k =? 0)%nat, iter_for (next k) f).
Proof using P.
  intros Hk Hx. unfold pb_field_iter_next.
  destruct (advance_field k (iter_for k f0) Hk (iter_for_at k f0)) as (it & -> & A).
  cbn [mbind option_bind]. rewrite (load_field _ _ _ _ Hx A). cbn. by destruct (next k).
Qed.

(** * The search *)
Definition wanted (t : Z) (x : width * fieldinfo) : bool :=
  (fi_tag x.2 =? t) && negb (PB_LTYPE (fi_type x.2) =? PB_LTYPE_EXTENSION).

Definition iter_at (k : nat) : pb_field_iter :=
  match l !! k with
  | Some x => iter_for k x.2
  | None => Iter d (Some m) 0 0 0 0 0 0 0 0 None None None None
  end.

(** The search in the list of fields, with the iterator left at [s] when it fails. *)
Definition search_result (t : Z) (s : nat) : bool * pb_field_iter :=
  match first_such (wanted t) l with
  | Some i => (true, iter_at i)
  | None => (false, iter_at s)
  end.

Lemma iter_at_lookup k x : l !! k = Some x → iter_at k = iter_for k x.2.
Proof. unfold iter_at. by intros ->. Qed.

Lemma tags_unique i j x y :
  l !! i = Some x → l !! j = Some y → fi_tag x.2 = fi_tag y.2 → i = j.
Proof using P.
  intros Hi Hj E. destruct (Nat.lt_trichotomy i j) as [L|[L|L]]; [|done|].
  - pose proof (pk_sorted P _ _ _ _ L Hi Hj). lia.
  - pose proof (pk_sorted P _ _ _ _ L Hj Hi). lia.
Qed.

Lemma wanted_tag t x : wanted t x = true → fi_tag x.2 = t.
Proof. unfold wanted. rewrite andb_true_iff, Z.eqb_eq. tauto. Qed.

Lemma search_hit t s k x : l !! k = Some x → wanted t x = true → search_result t s = (true, iter_at k).
Proof using P.
  intros Hk Hx. unfold search_result. assert (first_such (wanted t) l = Some k) as ->; [|done].
  apply first_such_Some. split; [by exists x|]. intros j y Hj Hy.
  destruct (wanted t y) eqn:Ey; [|done]. apply wanted_tag in Hx, Ey.
  assert (j = k) by (eapply tags_unique; [done..|congruence]). lia.
Qed.

Lemma search_miss t s : (∀ j x, l !! j = Some x → wanted t x = false) → search_result t s = (false, iter_at s).
Proof. intros H. unfold search_result. by apply first_such_None in H as ->. Qed.

#[local] Abbreviation goes_to it k :=
  (∃ it1, advance_iterator it = Some it1 ∧ at_field k it1) (only parsing).

(** One turn of the loop, at the field [k]. *)
Lemma find_turn fuel t s it k x :
  l !! k = Some x → goes_to it k →
  ∃ it2, at_field k it2 ∧
    find_loop pointer_at (S fuel) t s it =
    if wanted t x then Some (true, iter_at k)
    else if Z.of_nat k =? s then Some (false, iter_at k) else find_loop pointer_at fuel t s it2.
Proof using P.
  intros Hx (it1 & Ea & A). destruct x as [w f]. pose proof (load_field _ _ _ _ Hx A) as EL.
  destruct (unpack_packed _ _ _ (pk_fields P _ _ Hx) (at_on_field _ _ _ Hx A)) as (word0 & E0 & _ & _ & EG & _).
  cbn [find_loop fst snd] in *. rewrite Ea. cbn [mbind option_bind]. rewrite E0. cbn [mbind option_bind].
  rewrite EG, (land_ones' t 6 0x3F) by done. change (2 ^ 6) with 64. rewrite (iter_at_lookup _ _ Hx). cbn [snd].
  destruct (Z.eqb_spec (fi_tag f mod 64) (t mod 64)) as [E|E].
  - exists (iter_for k f). split; [apply iter_for_at|]. rewrite EL. cbn [mbind option_bind].
    change (tag (iter_for k f)) with (fi_tag f). change (type (iter_for k f)) with (fi_type f).
    change ((fi_tag f =? t) && _) with (wanted t (w, f)). destruct (wanted t (w, f)); [done|].
    change (index (iter_for k f)) with (Z.of_nat k).
    rewrite (load_field _ _ _ _ Hx (iter_for_at k f)). done.
  - exists it1. split; [done|]. assert (wanted t (w, f) = false) as ->.
    { unfold wanted. cbn. destruct (Z.eqb_spec (fi_tag f) t) as [Et|]; [by rewrite Et in E|done]. }
    cbn [mbind option_bind]. rewrite (af_index _ _ A), EL. done.
Qed.

(** The walk up to the start, with nothing wanted elsewhere. *)
Lemma walk_up n : ∀ fuel t it k s,
  (k + n = s)%nat → (s < length l)%nat → (n < fuel)%nat → goes_to it k →
  (∀ j x, l !! j = Some x → wanted t x = true → (k <= j <= s)%nat) →
  find_loop pointer_at fuel t (Z.of_nat s) it = Some (search_result t s).
Proof using P.
  induction n as [|n IH]; intros fuel t it k s Hs Hl Hf Hg Hw; destruct fuel as [|fuel]; [lia| |lia|];
    (destruct (lookup_lt_is_Some_2 l k) as [x Hx]; [lia|]);
    destruct (find_turn fuel t (Z.of_nat s) it k x Hx Hg) as (it2 & A & ->);
    (destruct (wanted t x) eqn:Ex; [by rewrite (search_hit t s k x)|]).
  - assert (s = k) as -> by lia. rewrite Z.eqb_refl. rewrite search_miss; [done|].
    intros j y Hy. destruct (wanted t y) eqn:Ey; [|done].
    assert (j = k) as -> by (specialize (Hw j y Hy Ey); lia). congruence.
  - destruct (Z.eqb_spec (Z.of_nat k) (Z.of_nat s)); [lia|]. apply (IH _ _ _ (S k)); [lia..| |].
    + pose proof (advance_field k it2 ltac:(lia) A) as Ha. unfold next in Ha.
      destruct (Nat.ltb_spec (S k) (length l)); [done|lia].
    + intros j y Hy Ey. pose proof (Hw j y Hy Ey). destruct (decide (j = k)) as [->|]; [congruence|lia].
Qed.

(** The walk over the end to the start. *)
Lemma walk_wrap n : ∀ fuel t it k s,
  (k + n = length l)%nat → (s < k)%nat → (n + s < fuel)%nat → goes_to it (if decide (n = 0%nat) then 0%nat else k) →
  (∀ j x, l !! j = Some x → wanted t x = true → (k <= j ∨ j <= s)%nat) →
  find_loop pointer_at fuel t (Z.of_nat s) it = Some (search_result t s).
Proof using P.
  induction n as [|n IH]; intros fuel t it k s Hk Hs Hf Hg Hw.
  - apply (walk_up s _ _ _ 0%nat); [lia..|done|]. intros j x Hx Ex.
    pose proof (Hw j x Hx Ex). apply lookup_lt_Some in Hx. lia.
  - destruct fuel as [|fuel]; [lia|]. destruct (lookup_lt_is_Some_2 l k) as [x Hx]; [lia|].
    destruct (find_turn fuel t (Z.of_nat s) it k x Hx Hg) as (it2 & A & ->).
    destruct (wanted t x) eqn:Ex; [by rewrite (search_hit t s k x)|].
    destruct (Z.eqb_spec (Z.of_nat k) (Z.of_nat s)); [lia|]. apply (IH _ _ _ (S k)); [lia..| |].
    + pose proof (advance_field k it2 ltac:(lia) A) as Ha. unfold next in Ha.
      destruct (Nat.ltb_spec (S k) (length l)), (decide (n = 0%nat)); [lia|done..|lia].
    + intros j y Hy Ey. pose proof (Hw j y Hy Ey). destruct (decide (j = k)) as [->|]; [congruence|lia].
Qed.

Lemma largest_tag_last x : last l = Some x → largest_tag d = fi_tag x.2.
Proof using P.
  intros Hx. cbn. apply last_Some in Hx as [l' El]. rewrite El, foldl_app. cbn. rewrite Z.mul_0_r.
  assert (l !! length l' = Some x) as Hx by (rewrite El; by apply list_lookup_middle).
  destruct (pk_fields P _ _ Hx) as [HA Ht _ _ _ _ _ _]. pose proof (info_sizes _ _ (pk_fields P _ _ Hx)).
  apply u16_small. lia.
Qed.

Lemma beyond_largest t s : (0 < length l)%nat → largest_tag d < t → search_result t s = (false, iter_at s).
Proof using P.
  intros Hl Ht. destruct (lookup_lt_is_Some_2 l (length l - 1)) as [x Hx]; [lia|].
  rewrite (largest_tag_last x) in Ht by (rewrite last_lookup; rewrite <- Hx; f_equal; lia).
  apply search_miss. intros j y Hy. destruct (wanted t y) eqn:Ey; [|done]. apply wanted_tag in Ey. exfalso.
  apply lookup_lt_Some in Hy as Hj. destruct (decide (j = (length l - 1)%nat)) as [->|]; [congruence + (simplify_eq; lia)|].
  pose proof (pk_sorted P j (length l - 1)%nat y x ltac:(lia) Hy Hx). lia.
Qed.

(** The search of the iterator, from any field [k], against the search in the list. *)
Lemma find_field k x t :
  l !! k = Some x →
  pb_field_iter_find pointer_at (iter_at k) t =
    Some (if fi_tag x.2 =? t then (true, iter_at k) else search_result t k).
Proof using P.
  intros Hx. unfold pb_field_iter_find. rewrite (iter_at_lookup k x Hx).
  change (tag (iter_for k x.2)) with (fi_tag x.2). change (descriptor (iter_for k x.2)) with d.
  change (index (iter_for k x.2)) with (Z.of_nat k).
  destruct (Z.eqb_spec (fi_tag x.2) t) as [|Hne]; [done|]. apply lookup_lt_Some in Hx as Hk.
  destruct (Z.ltb_spec (largest_tag d) t) as [Hl|_].
  { rewrite beyond_largest by (done || lia). by rewrite (iter_at_lookup k x Hx). }
  rewrite d_count, Nat2Z.id. destruct (Z.ltb_spec t (fi_tag x.2)) as [L|L].
  - apply (walk_up k _ _ _ 0%nat); [lia..| |].
    + by apply advance_past.
    + intros j y Hy Ey%wanted_tag. destruct (decide (k < j)%nat) as [Hj|]; [|lia].
      pose proof (pk_sorted P _ _ _ _ Hj Hx Hy). lia.
  - apply (walk_wrap (length l - S k) _ _ _ (S k)); [lia..| |].
    + destruct (advance_field k (iter_for k x.2) Hk (iter_for_at k x.2)) as (it & E & A). exists it. split; [done|].
      unfold next in A. destruct (Nat.ltb_spec (S k) (length l)), (decide (length l - S k = 0)%nat); [lia|done..|lia].
    + intros j y _ _. lia.
Qed.

(** The search for an extension field, in a message that has none: a full turn. *)
Lemma no_extension_turn n : ∀ fuel it k s,
  (∀ j x, l !! j = Some x → PB_LTYPE (fi_type x.2) ≠ PB_LTYPE_EXTENSION) →
  (s < length l)%nat → (k < length l)%nat → goes_to it k → (n < fuel)%nat →
  (if decide (k <= s)%nat then k + n = s else k + n = length l + s)%nat →
  find_extension_loop pointer_at fuel (Z.of_nat s) it = Some (false, iter_at s).
Proof using P.
  induction n as [|n IH]; intros fuel it k s HX Hs Hk (it1 & Ea & A) Hf Hn; destruct fuel as [|fuel]; try lia;
    (destruct (lookup_lt_is_Some_2 l k) as [[w f] Hx]; [lia|]);
    destruct (unpack_packed _ _ _ (pk_fields P _ _ Hx) (at_on_field _ _ _ Hx A)) as (word0 & E0 & _ & ET & _);
    cbn [find_extension_loop fst snd] in *; rewrite Ea; cbn [mbind option_bind]; rewrite E0; cbn [mbind option_bind];
    rewrite ET; (destruct (Z.eqb_spec (PB_LTYPE (fi_type f)) PB_LTYPE_EXTENSION) as [Hext|_]; [by destruct (HX _ _ Hx)|]);
    rewrite (af_index _ _ A).
  - assert (k = s) as -> by (destruct (decide (k <= s)%nat); lia).
    rewrite Z.eqb_refl, (load_field _ _ _ _ Hx A), (iter_at_lookup _ _ Hx). done.
  - destruct (Z.eqb_spec (Z.of_nat k) (Z.of_nat s)) as [|_]; [destruct (decide (k <= s)%nat); lia|].
    apply (IH _ _ (next k)); [done|done|by apply next_lt|by apply advance_field|lia|].
    unfold next. destruct (Nat.ltb_spec (S k) (length l)); repeat case_decide; lia.
Qed.

Lemma find_extension_none k x :
  (∀ j y, l !! j = Some y → PB_LTYPE (fi_type y.2) ≠ PB_LTYPE_EXTENSION) →
  l !! k = Some x → pb_field_iter_find_extension pointer_at (iter_at k) = Some (false, iter_at k).
Proof using P.
  intros HX Hx. unfold pb_field_iter_find_extension. rewrite (iter_at_lookup k x Hx).
  change (type (iter_for k x.2)) with (fi_type x.2). apply lookup_lt_Some in Hx as Hk.
  destruct (Z.eqb_spec (PB_LTYPE (fi_type x.2)) PB_LTYPE_EXTENSION) as [Hext|_]; [by destruct (HX _ _ Hx)|].
  change (field_count (descriptor (iter_for k x.2))) with (field_count d). rewrite d_count, Nat2Z.id.
  change (index (iter_for k x.2)) with (Z.of_nat k). rewrite <- (iter_at_lookup k x Hx).
  apply (no_extension_turn (length l - 1) _ _ (next k)); [done|done|by apply next_lt| |lia|].
  - apply advance_field; [done|]. by rewrite (iter_at_lookup k x Hx).
  - unfold next. destruct (Nat.ltb_spec (S k) (length l)); repeat case_decide; lia.
Qed.
End Walk.

(** * The loops over the fields *)

(** A field of the kinds that Nanopb models, from its packed description.  The size of a
    BYTES field counts its length word; a callback field has no member to be sized. *)
Definition ltype_of (ty : Z) : option ltype :=
  let lt := PB_LTYPE ty in
  if lt =? PB_LTYPE_UVARINT then Some LT_UVARINT
  else if lt =? PB_LTYPE_SVARINT then Some LT_SVARINT
  else if lt =? PB_LTYPE_BYTES then Some LT_BYTES
  else if lt =? PB_LTYPE_FIXED_LENGTH_BYTES then Some LT_FIXED_LENGTH_BYTES
  else None.

Definition field_with (t ty ds : Z) (has : bool) : option field :=
  lt ← ltype_of ty;
  if negb (PB_HTYPE ty =? PB_HTYPE_OPTIONAL) then None
  else if PB_ATYPE ty =? PB_ATYPE_STATIC then
    Some (Field t lt (if has then HT_OPTIONAL else HT_SINGULAR) AT_STATIC
            (Z.to_nat (match lt with LT_BYTES => ds - 2 | _ => ds end)))
  else if PB_ATYPE ty =? PB_ATYPE_CALLBACK then Some (Field t lt HT_OPTIONAL AT_CALLBACK 0)
  else None.

Definition field_of (it : pb_field_iter) : option field :=
  field_with (tag it) (type it) (data_size it) (match pSize it with Some _ => true | None => false end).

Section Loops.
Context (pointer_at : Z → option Z).

(** [pb_message_set_to_defaults], without default values; callbacks are left alone. *)
Fixpoint defaults_loop (fuel : nat) (it : pb_field_iter) (msg : list slot) : option (list slot * pb_field_iter) :=
  match fuel with
  | O => None
  | S fuel' =>
      f ← field_of it;
      let i := Z.to_nat (index it) in
      let msg' := match f_atype f with
                  | AT_STATIC => <[i := pb_field_set_to_default f]> msg
                  | AT_CALLBACK => msg
                  end in
      '(more, it') ← pb_field_iter_next pointer_at it;
      if (more : bool) then defaults_loop fuel' it' msg' else Some (msg', it')
  end.

(** The loop of [pb_decode_inner]: the outer option is a read outside the descriptor or a
    field of another kind, the inner one the function's result. *)
Fixpoint inner_loop (fuel : nat) (it : pb_field_iter) (extension_range_start : Z) (msg : list slot)
    (s : bytes) : option (option (list slot)) :=
  match s, fuel with
  | [], _ => if required_field_count (descriptor it) =? 0 then Some (Some msg) else None
  | _, O => None
  | _, S fuel' =>
      match pb_decode_tag s with
      | None => Some None
      | Some (wire_type, t, s1) =>
          if t =? 0 then Some None
          else
            '(found, it1) ← pb_field_iter_find pointer_at it t;
            if negb found || (PB_LTYPE (type it1) =? PB_LTYPE_EXTENSION) then
              '(start, it2) ←
                (if extension_range_start =? 0 then
                   '(extension, it') ← pb_field_iter_find_extension pointer_at it1;
                   if (extension : bool) then None else Some (u32 (-1), it')
                 else Some (extension_range_start, it1));
              (* no extension takes the field *)
              match pb_skip_field wire_type s1 with
              | None => Some None
              | Some s2 => inner_loop fuel' it2 start msg s2
              end
            else
              f ← field_of it1; sl ← msg !! Z.to_nat (index it1);
              match decode_field wire_type f sl s1 with
              | None => Some None
              | Some (sl', s2) => inner_loop fuel' it1 extension_range_start (<[Z.to_nat (index it1) := sl']> msg) s2
              end
      end
  end.

Definition pb_decode_inner (desc : pb_msgdesc) (dest : Z) (msg : list slot) (s : bytes)
    : option (option (list slot)) :=
  '(ok, it) ← pb_field_iter_begin pointer_at desc (Some dest);
  '(msg', it') ← (if (ok : bool) then defaults_loop (Z.to_nat (field_count desc)) it msg else Some (msg, it));
  inner_loop (length s) it' 0 msg' s.

(** The loop of [pb_encode]. *)
Fixpoint encode_loop (fuel : nat) (it : pb_field_iter) (msg : list slot) (s : pb_ostream)
    : option (option pb_ostream) :=
  match fuel with
  | O => None
  | S fuel' =>
      f ← field_of it; sl ← msg !! Z.to_nat (index it);
      match encode_field s f sl with
      | None => Some None
      | Some s1 =>
          '(more, it') ← pb_field_iter_next pointer_at it;
          if (more : bool) then encode_loop fuel' it' msg s1 else Some (Some s1)
      end
  end.

Definition pb_encode_struct (desc : pb_msgdesc) (src : Z) (msg : list slot) (s : pb_ostream)
    : option (option pb_ostream) :=
  '(ok, it) ← pb_field_iter_begin pointer_at desc (Some src);
  if negb ok then Some (Some s) else encode_loop (Z.to_nat (field_count desc)) it msg s.
End Loops.

(** * Over the packed descriptor as over the list *)
Definition field_of_info (f : fieldinfo) : option field :=
  field_with (fi_tag f) (fi_type f) (fi_data_size f) (negb (fi_size_offset f =? 0)).

Section Refine.
Context (pointer_at : Z → option Z) (l : list (width * fieldinfo)) (subs : list pb_msgdesc) (m : Z)
  (desc : list field).
#[local] Abbreviation d := (PB_BIND l subs).
#[local] Abbreviation iter_at := (iter_at pointer_at l subs m).

Context (P : packed l subs) (HF : (λ x, field_of_info x.2) <$> l = Some <$> desc).

Lemma field_lookup k x : l !! k = Some x → ∃ f, desc !! k = Some f ∧ field_of_info x.2 = Some f.
Proof using HF.
  intros Hx. assert (((λ x, field_of_info x.2) <$> l) !! k = (Some <$> desc) !! k) as E by (by rewrite HF).
  rewrite !list_lookup_fmap, Hx in E. destruct (desc !! k) as [f|]; [|done]. exists f. by injection E.
Qed.

Lemma field_lookup' k f : desc !! k = Some f → ∃ x, l !! k = Some x ∧ field_of_info x.2 = Some f.
Proof using HF.
  intros Hf. assert (((λ x, field_of_info x.2) <$> l) !! k = (Some <$> desc) !! k) as E by (by rewrite HF).
  rewrite !list_lookup_fmap, Hf in E. destruct (l !! k) as [x|]; [|done]. exists x. by injection E.
Qed.

Lemma desc_length : length desc = length l.
Proof using HF. rewrite <- (length_fmap Some desc), <- HF. apply length_fmap. Qed.

Lemma field_with_kind t ty ds has f :
  field_with t ty ds has = Some f →
  PB_HTYPE ty = PB_HTYPE_OPTIONAL ∧ PB_LTYPE ty ≠ PB_LTYPE_EXTENSION ∧ PB_LTYPE_IS_SUBMSG ty = false ∧ f_tag f = t.
Proof.
  unfold field_with, ltype_of, PB_LTYPE_IS_SUBMSG.
  destruct (Z.eqb_spec (PB_HTYPE ty) PB_HTYPE_OPTIONAL) as [->|]; cbn [negb]; [|by destruct (PB_LTYPE ty =? _); repeat case_match].
  destruct (Z.eqb_spec (PB_LTYPE ty) PB_LTYPE_UVARINT) as [->|]; [|
  destruct (Z.eqb_spec (PB_LTYPE ty) PB_LTYPE_SVARINT) as [->|]; [|
  destruct (Z.eqb_spec (PB_LTYPE ty) PB_LTYPE_BYTES) as [->|]; [|
  destruct (Z.eqb_spec (PB_LTYPE ty) PB_LTYPE_FIXED_LENGTH_BYTES) as [->|]; [|done]]]];
  cbn [mbind option_bind]; repeat case_match; intros [= <-]; split_and!; done.
Qed.

Lemma field_of_iter k (x : width * fieldinfo) f :
  field_of_info x.2 = Some f → field_of (iter_for pointer_at l subs m k x.2) = Some f ∧ f_tag f = fi_tag x.2.
Proof.
  intros Hf. pose proof (field_with_kind _ _ _ _ _ Hf) as (HH & _ & _ & Ht). split; [|done]. rewrite <- Hf.
  unfold field_of, field_of_info, iter_for. cbn [tag type data_size pSize]. f_equal.
  rewrite HH. by destruct (fi_size_offset x.2 =? 0).
Qed.

Lemma kind_of x f : field_of_info x = Some f →
  PB_HTYPE (fi_type x) = PB_HTYPE_OPTIONAL ∧ PB_LTYPE (fi_type x) ≠ PB_LTYPE_EXTENSION ∧
  PB_LTYPE_IS_SUBMSG (fi_type x) = false ∧ f_tag f = fi_tag x.
Proof. apply field_with_kind. Qed.

(** The walking search from any field is the list's. *)
Lemma find_listed k t :
  (k < length l)%nat →
  pb_field_iter_find pointer_at (iter_at k) t =
    Some (match find_by_tag desc t with Some i => (true, iter_at i) | None => (false, iter_at k) end).
Proof using P HF.
  intros Hk. destruct (lookup_lt_is_Some_2 l k Hk) as [x Hx].
  rewrite (find_field pointer_at l subs m P k x t Hx). f_equal.
  assert (∀ j y, l !! j = Some y → wanted t y = (fi_tag y.2 =? t)) as HW.
  { intros j y Hy. destruct (field_lookup j y Hy) as (f & _ & Ef). apply kind_of in Ef as (_ & HX & _).
    unfold wanted. destruct (Z.eqb_spec (PB_LTYPE (fi_type y.2)) PB_LTYPE_EXTENSION); [done|]. apply andb_true_r. }
  assert (first_such (wanted t) l = find_by_tag desc t) as <-.
  { unfold find_by_tag. rewrite (first_such_ext _ (λ y : width * fieldinfo, fi_tag y.2 =? t)) by done.
    clear HW Hx Hk P. revert desc HF. induction l as [|y l' IH]; intros [|f dl] E; try done. cbn in E |- *.
    injection E as Ey E. apply kind_of in Ey as (_ & _ & _ & ->). by rewrite (IH dl). }
  destruct (Z.eqb_spec (fi_tag x.2) t) as [<-|]; [|done].
  symmetry. apply (search_hit pointer_at l subs m P (fi_tag x.2) k k x Hx). by rewrite (HW k x Hx), Z.eqb_refl.
Qed.

Lemma field_at k f : desc !! k = Some f → field_of (iter_at k) = Some f.
Proof using HF.
  intros Hf. destruct (field_lookup' k f Hf) as (x & Hx & Ef). rewrite (iter_at_lookup _ _ _ _ _ _ Hx).
  by apply field_of_iter.
Qed.

Lemma index_at k : (k < length l)%nat → index (iter_at k) = Z.of_nat k.
Proof. intros [x Hx]%lookup_lt_is_Some_2. by rewrite (iter_at_lookup _ _ _ _ _ _ Hx). Qed.

Lemma descriptor_at k : descriptor (iter_at k) = d.
Proof. unfold Descriptor.iter_at. by destruct (l !! k). Qed.

Lemma next_at k :
  (k < length l)%nat →
  pb_field_iter_next pointer_at (iter_at k) = Some (negb (next l k =? 0)%nat, iter_at (next l k)).
Proof using P.
  intros Hk. destruct (lookup_lt_is_Some_2 l k Hk) as [x Hx].
  destruct (lookup_lt_is_Some_2 l (next l k)) as [[w f] Hn]; [by apply next_lt|].
  rewrite (iter_at_lookup _ _ _ _ _ _ Hx), (iter_at_lookup _ _ _ _ _ _ Hn). by apply (next_field _ _ _ _ P _ _ w).
Qed.

Lemma no_required : required_field_count d = 0.
Proof using HF.
  cbn. assert (filter (λ x, PB_HTYPE (fi_type x.2) = PB_HTYPE_REQUIRED) l = []) as ->; [|done].
  apply elem_of_nil_inv. intros x [HR [k Hk]%list_elem_of_lookup]%list_elem_of_filter.
  destruct (field_lookup k x Hk) as (f & _ & Ef). apply kind_of in Ef as (HH & _). by rewrite HR in HH.
Qed.

(** The members before [k], and those the defaults leave alone, have their defaults. *)
Definition defaults_to (k : nat) (msg : list slot) : Prop :=
  length msg = length l ∧
  ∀ i f, desc !! i = Some f → (i < k)%nat ∨ f_atype f = AT_CALLBACK → msg !! i = Some (pb_field_set_to_default f).

Definition set_default (k : nat) (f : field) (msg : list slot) : list slot :=
  match f_atype f with AT_STATIC => <[k := pb_field_set_to_default f]> msg | AT_CALLBACK => msg end.

Lemma defaults_step k f msg : desc !! k = Some f → defaults_to k msg → defaults_to (S k) (set_default k f msg).
Proof using HF.
  intros Hk [Hl Hd]. unfold set_default. apply lookup_lt_Some in Hk as Hlt. rewrite desc_length in Hlt.
  split; [by destruct (f_atype f); rewrite ?length_insert|]. intros i g Hi Hc. destruct (decide (i = k)) as [->|Hne].
  - assert (g = f) as -> by congruence. destruct (f_atype f) eqn:Ha; [apply list_lookup_insert_eq; lia|]. apply Hd; [done|by right].
  - destruct (f_atype f); [rewrite list_lookup_insert_ne by done|]; (apply Hd; [done|]); destruct Hc; [left; lia|by right|left; lia|by right].
Qed.

Lemma defaults_all msg : defaults_to (length l) msg → msg = pb_message_set_to_defaults desc.
Proof using HF.
  intros [Hl Hd]. unfold pb_message_set_to_defaults. apply list_eq. intros i. rewrite list_lookup_fmap.
  destruct (desc !! i) as [f|] eqn:Hi; cbn.
  - apply Hd; [done|]. left. apply lookup_lt_Some in Hi. by rewrite desc_length in Hi.
  - apply lookup_ge_None. apply lookup_ge_None in Hi. rewrite desc_length in Hi. lia.
Qed.

(** Everything set to its default, whatever the memory held. *)
Lemma defaults_spec j : ∀ fuel k msg,
  (k + S j = length l)%nat → (j < fuel)%nat → defaults_to k msg →
  defaults_loop pointer_at fuel (iter_at k) msg = Some (pb_message_set_to_defaults desc, iter_at 0).
Proof using P HF.
  induction j as [|j IH]; intros fuel k msg Hk Hf Hd; (destruct fuel as [|fuel]; [lia|]);
    (destruct (lookup_lt_is_Some_2 desc k) as [f Hfk]; [rewrite desc_length; lia|]);
    cbn [defaults_loop]; rewrite (field_at k f Hfk); cbn [mbind option_bind];
    rewrite next_at, index_at, Nat2Z.id by lia; cbn [mbind option_bind]; unfold next;
    fold (set_default k f msg); pose proof (defaults_step k f msg Hfk Hd) as Hd'.
  - destruct (Nat.ltb_spec (S k) (length l)); [lia|]. cbn [negb Nat.eqb].
    replace (S k) with (length l) in Hd' by lia. by rewrite (defaults_all _ Hd').
  - destruct (Nat.ltb_spec (S k) (length l)); [|lia]. cbn [negb Nat.eqb]. apply IH; [lia..|done].
Qed.

(** The decoder's loop, from any field. *)
Lemma inner_loop_spec fuel : ∀ k start msg s,
  (k < length l)%nat → length msg = length l → (length s <= fuel)%nat →
  inner_loop pointer_at fuel (iter_at k) start msg s = Some (decode_fields fuel desc msg s).
Proof using P HF.
  induction fuel as [|fuel IH]; intros k start msg s Hk Hl Hs;
    (destruct s as [|b s]; [cbn [inner_loop decode_fields]; by rewrite descriptor_at, no_required|]); [cbn in Hs; lia|].
  cbn [inner_loop decode_fields]. destruct (pb_decode_tag (b :: s)) as [[[wt t] s1]|] eqn:Et; [|done].
  cbn [mbind option_bind]. apply pb_decode_tag_shorter in Et. destruct (t =? 0); [done|].
  rewrite (find_listed k t Hk). cbn [mbind option_bind].
  destruct (find_by_tag desc t) as [i|] eqn:Ei.
  - apply first_such_Some in Ei as [(f & Hf & _) _]. destruct (field_lookup' i f Hf) as (x & Hx & Ef).
    apply lookup_lt_Some in Hx as Hi. destruct (lookup_lt_is_Some_2 msg i) as [sl Hsl]; [lia|].
    apply kind_of in Ef as (_ & HX & _). rewrite (field_at i f Hf), (index_at i Hi), Nat2Z.id.
    assert (type (iter_at i) = fi_type x.2) as -> by (by rewrite (iter_at_lookup _ _ _ _ _ _ Hx)).
    destruct (Z.eqb_spec (PB_LTYPE (fi_type x.2)) PB_LTYPE_EXTENSION); [done|]. cbn [negb orb mbind option_bind].
    rewrite Hf, Hsl. cbn [mbind option_bind]. destruct (decode_field wt f sl s1) as [[sl' s2]|] eqn:Ed; [|done].
    apply decode_field_shorter in Ed. cbn [mbind option_bind]. apply IH; [done|by rewrite length_insert|lia].
  - cbn [negb orb].
    assert (∀ j y, l !! j = Some y → PB_LTYPE (fi_type y.2) ≠ PB_LTYPE_EXTENSION) as HX.
    { intros j y Hy. destruct (field_lookup j y Hy) as (f & _ & Ef). by apply kind_of in Ef as (_ & HX & _). }
    destruct (lookup_lt_is_Some_2 l k Hk) as [x Hx].
    assert (∃ start', (if start =? 0 then
       '(extension, it') ← pb_field_iter_find_extension pointer_at (iter_at k);
       if (extension : bool) then None else Some (u32 (-1), it') else Some (start, iter_at k)) = Some (start', iter_at k)) as [start' ->].
    { destruct (start =? 0); [|by eexists]. rewrite (find_extension_none _ _ _ _ P _ _ HX Hx). by eexists. }
    cbn [mbind option_bind]. destruct (pb_skip_field wt s1) as [s2|] eqn:Ek; [|done].
    apply pb_skip_field_shorter in Ek. cbn [mbind option_bind]. apply IH; [done|done|lia].
Qed.

Lemma encode_loop_spec j : ∀ fuel k msg s,
  (k + S j = length l)%nat → (j < fuel)%nat → length msg = length l →
  encode_loop pointer_at fuel (iter_at k) msg s = Some (Nanopb.pb_encode s (drop k desc) (drop k msg)).
Proof using P HF.
  induction j as [|j IH]; intros fuel k msg s Hk Hf Hl; (destruct fuel as [|fuel]; [lia|]);
    (destruct (lookup_lt_is_Some_2 desc k) as [f Hfk]; [rewrite desc_length; lia|]);
    (destruct (lookup_lt_is_Some_2 msg k) as [sl Hsk]; [lia|]);
    cbn [encode_loop]; rewrite (field_at k f Hfk); cbn [mbind option_bind];
    rewrite index_at, Nat2Z.id, Hsk by lia; cbn [mbind option_bind];
    rewrite (drop_S _ _ _ Hfk), (drop_S _ _ _ Hsk); cbn [Nanopb.pb_encode];
    (destruct (encode_field s f sl) as [s1|]; [|done]); cbn [mbind option_bind];
    rewrite next_at by lia; cbn [mbind option_bind]; unfold next.
  - destruct (Nat.ltb_spec (S k) (length l)); [lia|]. cbn [negb Nat.eqb].
    by rewrite drop_ge by (rewrite desc_length; lia).
  - destruct (Nat.ltb_spec (S k) (length l)); [|lia]. cbn [negb Nat.eqb]. apply IH; lia.
Qed.

Context (HN : l ≠ []).

Lemma begin_at : pb_field_iter_begin pointer_at d (Some m) = Some (true, iter_at 0).
Proof using P HN.
  assert (length l ≠ 0%nat) as Hn by (intros E%nil_length_inv; exact (HN E)).
  destruct (lookup_lt_is_Some_2 l 0) as [[w f] H0]; [lia|].
  rewrite (iter_at_lookup _ _ _ _ _ _ H0). by apply (begin_field _ _ _ _ P w).
Qed.
End Refine.

(** * Checking a descriptor *)
Definition info_okb (x : width * fieldinfo) : bool :=
  let '(w, f) := x in
  let below lo v hi := (lo <=? v) && (v <? hi) in
  PB_FIELDINFO_ASSERT w f && below 1 (fi_tag f) (2 ^ 32) && below 0 (fi_type f) 256 &&
  below 0 (fi_data_offset f) (2 ^ 32) && below 0 (fi_data_size f) (2 ^ 32) &&
  below 0 (fi_size_offset f) 128 && below 0 (fi_array_size f) (2 ^ 32) &&
  match w with WIDTH_1 => fi_array_size f =? 1 | _ => true end.

Fixpoint ascending (t : Z) (l : list (width * fieldinfo)) : bool :=
  match l with [] => true | x :: l' => (t <? fi_tag x.2) && ascending (fi_tag x.2) l' end.

Definition packedb (l : list (width * fieldinfo)) (subs : list pb_msgdesc) : bool :=
  forallb info_okb l && ascending 0 l && (Z.of_nat (length l) <? 2 ^ 16 - 1) &&
  (before l field_words (length l) <? 2 ^ 16) &&
  (before l submsg_one (length l) <=? Z.of_nat (length subs)).

Lemma info_okb_ok x : info_okb x = true → info_ok x.1 x.2.
Proof.
  destruct x as [w f]. unfold info_okb. rewrite !andb_true_iff, !Z.leb_le, !Z.ltb_lt.
  intros [[[[[[[HA ?] ?] ?] ?] ?] ?] HS]. split; cbn; [exact HA|lia..|]. intros ->. by apply Z.eqb_eq.
Qed.

Lemma ascending_above t l : ascending t l = true → ∀ i x, l !! i = Some x → t < fi_tag x.2.
Proof.
  revert t. induction l as [|y l IH]; intros t H i x Hx; [done|]. cbn in H.
  apply andb_true_iff in H as [H1%Z.ltb_lt H2]. destruct i as [|i]; cbn in Hx; [by simplify_eq|].
  specialize (IH _ H2 _ _ Hx). lia.
Qed.

Lemma ascending_sorted t l : ascending t l = true →
  ∀ i j x y, (i < j)%nat → l !! i = Some x → l !! j = Some y → fi_tag x.2 < fi_tag y.2.
Proof.
  revert t. induction l as [|z l IH]; intros t H i j x y Hij Hx Hy; [done|]. cbn in H.
  apply andb_true_iff in H as [_ H2]. destruct j as [|j]; [lia|]. cbn in Hy.
  destruct i as [|i]; cbn in Hx; [|by apply (IH _ H2 i j); [lia|..]].
  simplify_eq. by apply (ascending_above _ l H2 j).
Qed.

Lemma packedb_packed l subs : packedb l subs = true → packed l subs.
Proof.
  unfold packedb. rewrite !andb_true_iff, Z.leb_le, !Z.ltb_lt. intros [[[[HF HA] HC] HW] HS].
  split; [|by apply (ascending_sorted 0)|done..].
  intros k x Hx. apply info_okb_ok. rewrite forallb_forall in HF. apply HF.
  apply list_elem_of_In. by eapply list_elem_of_lookup_2.
Qed.

(** * The iterator as a cursor *)
(** A cursor is a place in the list of fields; its operations are those of the
    iterator, a search being a search from the front of the list. *)
Inductive iter_op := IterNext | IterFind (t : Z) | IterFindExtension.

Definition cursor_op (l : list (width * fieldinfo)) (o : iter_op) (k : nat) : bool * nat :=
  match o with
  | IterNext => let k' := if (S k <? length l)%nat then S k else 0%nat in (negb (k' =? 0)%nat, k')
  | IterFind t =>
      match first_such (λ x, fi_tag x.2 =? t) l with Some i => (true, i) | None => (false, k) end
  | IterFindExtension => (false, k)
  end.

Fixpoint cursor_run (l : list (width * fieldinfo)) (os : list iter_op) (k : nat) : list bool * nat :=
  match os with
  | [] => ([], k)
  | o :: os' => let '(b, k1) := cursor_op l o k in let '(bs, k2) := cursor_run l os' k1 in (b :: bs, k2)
  end.

Definition iter_op_run (pointer_at : Z → option Z) (o : iter_op) (it : pb_field_iter)
    : option (bool * pb_field_iter) :=
  match o with
  | IterNext => pb_field_iter_next pointer_at it
  | IterFind t => pb_field_iter_find pointer_at it t
  | IterFindExtension => pb_field_iter_find_extension pointer_at it
  end.

Fixpoint iter_run (pointer_at : Z → option Z) (os : list iter_op) (it : pb_field_iter)
    : option (list bool * pb_field_iter) :=
  match os with
  | [] => Some ([], it)
  | o :: os' =>
      '(b, it1) ← iter_op_run pointer_at o it; '(bs, it2) ← iter_run pointer_at os' it1; Some (b :: bs, it2)
  end.

(** What the iterator shows of the field it stands on. *)
Definition shows (it : pb_field_iter) (m : Z) (f : fieldinfo) : Prop :=
  tag it = fi_tag f ∧ type it = fi_type f ∧ data_size it = fi_data_size f ∧ array_size it = fi_array_size f ∧
  pField it = Some (m + fi_data_offset f) ∧
  (fi_size_offset f ≠ 0 → pSize it = Some (AtAddress (m + fi_data_offset f - fi_size_offset f))).

Section Cursor.
Context (pointer_at : Z → option Z) (l : list (width * fieldinfo)) (subs : list pb_msgdesc) (m : Z).
Context (P : packed l subs) (HX : ∀ k x, l !! k = Some x → PB_LTYPE (fi_type x.2) ≠ PB_LTYPE_EXTENSION).
#[local] Abbreviation iter_at := (iter_at pointer_at l subs m).

Lemma cursor_op_lt o k : (k < length l)%nat → ((cursor_op l o k).2 < length l)%nat.
Proof using.
  intros Hk. destruct o as [|t|]; cbn [cursor_op snd];
    [|destruct (first_such _ l) eqn:E; [by eapply first_such_lt|done]|done].
  destruct (Nat.ltb_spec (S k) (length l)); lia.
Qed.

Lemma iter_op_cursor o k :
  (k < length l)%nat →
  iter_op_run pointer_at o (iter_at k) = Some ((cursor_op l o k).1, iter_at (cursor_op l o k).2).
Proof using P HX.
  intros Hk. destruct (lookup_lt_is_Some_2 l k Hk) as [x Hx]. destruct o as [|t|]; cbn [iter_op_run cursor_op].
  - by apply next_at.
  - rewrite (find_field _ _ _ _ P k x t Hx). unfold search_result.
    rewrite (first_such_ext (wanted t) (λ x, fi_tag x.2 =? t)).
    2: { intros j y Hy. unfold wanted. specialize (HX j y Hy). apply Z.eqb_neq in HX. rewrite HX. apply andb_true_r. }
    destruct (Z.eqb_spec (fi_tag x.2) t) as [<-|]; [|by destruct (first_such _ l)].
    assert (first_such (λ y : width * fieldinfo, fi_tag y.2 =? fi_tag x.2) l = Some k) as ->; [|done].
    apply first_such_Some. split; [exists x; by rewrite Z.eqb_refl|]. intros j y Hj Hy.
    apply Z.eqb_neq. intros E. assert (j = k) by (by eapply (tags_unique l subs P)). lia.
  - by apply (find_extension_none _ _ _ _ P k x HX).
Qed.

Lemma iter_run_cursor os : ∀ k, (k < length l)%nat →
  iter_run pointer_at os (iter_at k) = Some ((cursor_run l os k).1, iter_at (cursor_run l os k).2) ∧
  ((cursor_run l os k).2 < length l)%nat.
Proof using P HX.
  induction os as [|o os IH]; intros k Hk; cbn [iter_run cursor_run]; [done|].
  rewrite iter_op_cursor by done. cbn [mbind option_bind]. pose proof (cursor_op_lt o k Hk) as Hk1.
  destruct (cursor_op l o k) as [b k1]. cbn [fst snd] in *. destruct (IH k1 Hk1) as [-> Hl].
  cbn [mbind option_bind]. by destruct (cursor_run l os k1).
Qed.
End Cursor.


(** Decoding and encoding over a packed descriptor, for messages of the kinds Nanopb
    models. *)
Lemma decode_over_packed pointer_at l subs m desc msg s :
  packed l subs → l ≠ [] → (λ x, field_of_info x.2) <$> l = Some <$> desc →
  length msg = length desc →
  (∀ i f, desc !! i = Some f → f_atype f = AT_CALLBACK → msg !! i = Some (pb_field_set_to_default f)) →
  pb_decode_inner pointer_at (PB_BIND l subs) m msg s = Some (pb_decode desc s).
Proof.
  intros P HN HF Hl HC. unfold pb_decode_inner, pb_decode. rewrite begin_at by done. cbn [mbind option_bind].
  assert (length l ≠ 0%nat) as Hn by (intros E%nil_length_inv; exact (HN E)).
  pose proof (desc_length _ _ HF) as HD. rewrite d_count, Nat2Z.id by done.
  rewrite (defaults_spec pointer_at l subs m desc P HF (length l - 1)); [|lia..|].
  2: { split; [congruence|]. intros i f Hi [?|Ha]; [lia|by apply HC]. }
  cbn [mbind option_bind]. apply inner_loop_spec; [done|done|lia| |done].
  unfold pb_message_set_to_defaults. by rewrite length_fmap.
Qed.

Lemma encode_over_packed pointer_at l subs m desc msg s :
  packed l subs → l ≠ [] → (λ x, field_of_info x.2) <$> l = Some <$> desc →
  length msg = length desc →
  pb_encode_struct pointer_at (PB_BIND l subs) m msg s = Some (Nanopb.pb_encode s desc msg).
Proof.
  intros P HN HF Hl. unfold pb_encode_struct. rewrite begin_at by done. cbn [mbind option_bind negb].
  assert (length l ≠ 0%nat) as Hn by (intros E%nil_length_inv; exact (HN E)).
  pose proof (desc_length _ _ HF) as HD. rewrite d_count, Nat2Z.id by done.
  rewrite (encode_loop_spec pointer_at l subs m desc P HF (length l - 1)); [|lia..]. by rewrite !drop_0.
Qed.

(** * Witness *)
(** A descriptor of all four widths: a number, a bytes field with its [has_] flag, one
    far down the structure and an array. *)
Definition demo_info : list (width * fieldinfo) :=
  [(WIDTH_1, FieldInfo 1 (PB_HTYPE_SINGULAR + PB_LTYPE_UVARINT) 0 4 0 1);
   (WIDTH_2, FieldInfo 70 (PB_HTYPE_OPTIONAL + PB_LTYPE_BYTES) 6 66 2 1);
   (WIDTH_4, FieldInfo 900 (PB_HTYPE_OPTIONAL + PB_LTYPE_BYTES) 70 5002 2 1);
   (WIDTH_8, FieldInfo 1024 (PB_HTYPE_REPEATED + PB_LTYPE_UVARINT) 5080 4 8 3000)].

