(* ===== verification/NanopbMessages.v ===== *)
(** The protobuf runtime (mesh/serialization/nanopb) for every kind of statically
    allocated field: numbers of all wire types, bytes, strings, nested messages, required
    and repeated fields, packed or not, arrays of fixed length and oneofs, besides the
    kinds the file Nanopb has, whose readers and writers of numbers are used here.

    A structure is the list of its members.  A descriptor is a tree, since a statically
    allocated structure cannot contain itself; what the runtime can do with a message is
    defined by recursion on it, each function being given the operations of the
    submessages.  The file Descriptor has the packed words and the iterator, for all
    these kinds. *)
From S2P Require Import Prelude Nanopb.

(** * Descriptors and structures *)
Inductive ltype :=
  | LT_BOOL | LT_VARINT | LT_UVARINT | LT_SVARINT | LT_FIXED32 | LT_FIXED64
  | LT_BYTES | LT_STRING | LT_SUBMESSAGE | LT_FIXED_LENGTH_BYTES.
(** FIXARRAY is REPEATED with the array's own size for a count; SINGULAR is OPTIONAL
    without a [has_] flag. *)
Inductive htype := HT_REQUIRED | HT_OPTIONAL | HT_SINGULAR | HT_REPEATED | HT_FIXARRAY | HT_ONEOF.
#[global] Instance htype_eq_dec : EqDecision htype.
Proof. solve_decision. Defined.

(** [f_member]: the member of the structure; the fields of a oneof share theirs. *)
Record field := Field {
  f_tag : Z;
  f_ltype : ltype;
  f_htype : htype;
  f_atype : atype;
  data_size : nat;
  array_size : nat;
  f_member : nat
}.

(** [field_callback]: [pb_default_field_callback] or null. *)
#[warnings="-register-all"]
Inductive pb_msgdesc := MsgDesc {
  fields : list (field * option pb_msgdesc);
  default_value : option bytes;
  field_callback : bool
}.

Definition PB_WT_PACKED : Z := 255.
Definition PB_MAX_REQUIRED_FIELDS : nat := 64.
Definition PB_DECODE_NOINIT : Z := 0x01.
Definition PB_DECODE_DELIMITED : Z := 0x02.
Definition PB_DECODE_NULLTERMINATED : Z := 0x04.
Definition PB_ENCODE_DELIMITED : Z := 0x02.
Definition PB_ENCODE_NULLTERMINATED : Z := 0x04.

(** [LTYPE <= PB_LTYPE_LAST_PACKABLE]. *)
Definition packable (t : ltype) : bool :=
  match t with
  | LT_BOOL | LT_VARINT | LT_UVARINT | LT_SVARINT | LT_FIXED32 | LT_FIXED64 => true
  | _ => false
  end.

(** [pb_callback_t]: the user's function, and the state it keeps behind [arg].  [funcs]
    is a union: a callback has one of the two functions, or null.  Callback fields are
    not in a oneof. *)
Inductive callback_funcs {A : Type} :=
  | FuncNull
  | FuncDecode (decode : bytes → A → option (bytes * A))
  | FuncEncode (encode : pb_ostream → A → option pb_ostream).
Arguments callback_funcs : clear implicits.
Record pb_callback {A : Type} := Callback { funcs : callback_funcs A; arg : A }.
Arguments pb_callback : clear implicits.
Arguments Callback {_} _ _.

(** [VInt]: a bool's byte, an integer of the member's type, or the 32 or 64 bits of a
    fixed-width number.  [VZero]: a union whose memory is zero. *)
Inductive value {A : Type} :=
  | VInt (z : Z)
  | VBytes (size : nat) (buf : bytes)
  | VString (buf : bytes)
  | VFixed (buf : bytes)
  | VMessage (members : list slot)
  | VZero
with slot {A : Type} :=
  | One (has : bool) (v : value)
  | Many (count : nat) (items : list value)
  | Union (which : Z) (v : value)
  | Func (c : pb_callback A).
Arguments value : clear implicits.
Arguments slot : clear implicits.

(** The null pointer as an [arg], and what the memory of a union, left by another field,
    reads as through this one. *)
Class Memory (A : Type) := {
  null_arg : A;
  reread : field → value A → value A
}.

Section Messages.
Context {A : Type} {Mem : Memory A}.
Local Abbreviation value := (value A).
Local Abbreviation slot := (slot A).

(** * What the runtime does with a message type *)
Record message_ops := Ops {
  op_zero : list slot;                                      (* memset 0 *)
  op_encode : list slot → pb_ostream → option pb_ostream;   (* pb_encode *)
  op_is_default : list slot → bool;                         (* every field is default *)
  op_needs_init : bool;
  op_set_defaults : list slot → option (list slot);         (* pb_message_set_to_defaults *)
  op_decode : Z → list slot → bytes → option (list slot * bytes)   (* pb_decode_inner *)
}.
Implicit Types (f : field) (sub : option message_ops) (s : pb_ostream) (m : list slot).

(** * Encoding *)
Definition PB_OSTREAM_SIZING : pb_ostream := OStream [] 0 true.

Definition pb_enc_bool s (z : Z) : option pb_ostream :=
  pb_encode_varint s (if negb (z =? 0) then 1 else 0).

Definition pb_enc_varint s f (z : Z) : option pb_ostream :=
  if negb (valid_int_size (data_size f)) then None
  else match f_ltype f with
       | LT_UVARINT => pb_encode_varint s z
       | LT_SVARINT => pb_encode_svarint s z
       | _ => pb_encode_varint s (u64 z)
       end.

Definition pb_encode_fixed32 s (val : Z) : option pb_ostream :=
  pb_write s [Z.land val 0xFF; Z.land (Z.shiftr val 8) 0xFF; Z.land (Z.shiftr val 16) 0xFF;
              Z.land (Z.shiftr val 24) 0xFF].
Definition pb_encode_fixed64 s (val : Z) : option pb_ostream :=
  pb_write s [Z.land val 0xFF; Z.land (Z.shiftr val 8) 0xFF; Z.land (Z.shiftr val 16) 0xFF;
              Z.land (Z.shiftr val 24) 0xFF; Z.land (Z.shiftr val 32) 0xFF;
              Z.land (Z.shiftr val 40) 0xFF; Z.land (Z.shiftr val 48) 0xFF;
              Z.land (Z.shiftr val 56) 0xFF].

Definition pb_enc_fixed s f (z : Z) : option pb_ostream :=
  if (data_size f =? 4)%nat then pb_encode_fixed32 s z
  else if (data_size f =? 8)%nat then pb_encode_fixed64 s z
  else None.

(** [data_size] counts the two bytes of [size] before the array. *)
Definition pb_enc_bytes s f (size : nat) (buf : bytes) : option pb_ostream :=
  if (data_size f - 2 <? size)%nat then None else pb_encode_string s (take size buf).

(** The loop over the characters, to at most [k]. *)
Fixpoint strnlen (k : nat) (str : bytes) : nat :=
  match k, str with
  | S k', c :: str' => if c =? 0 then O else S (strnlen k' str')
  | _, _ => O
  end.
Definition pb_enc_string s f (buf : bytes) : option pb_ostream :=
  if (data_size f =? 0)%nat then None
  else
    let size := strnlen (data_size f - 1) buf in
    if negb (nth size buf 0 =? 0) then None else pb_encode_string s (take size buf).

Definition pb_enc_fixed_length_bytes s f (buf : bytes) : option pb_ostream :=
  pb_encode_string s (take (data_size f) buf).

(** The size first, on a sizing stream; then the contents, on a substream that holds
    exactly as much. *)
Definition pb_encode_submessage s (o : message_ops) m : option pb_ostream :=
  substream ← op_encode o m PB_OSTREAM_SIZING;
  let size := length (o_bytes substream) in
  s1 ← pb_encode_varint s (Z.of_nat size);
  if o_sizing s1 then pb_write s1 (zeros size)
  else if (max_size s1 <? length (o_bytes s1) + size)%nat then None
  else
    substream' ← op_encode o m (OStream [] size false);
    if negb (length (o_bytes substream') =? size)%nat then None
    else Some (OStream (o_bytes s1 ++ o_bytes substream') (max_size s1) false).

Definition pb_enc_submessage s sub m : option pb_ostream :=
  o ← sub; pb_encode_submessage s o m.

Definition wiretype (t : ltype) : Z :=
  match t with
  | LT_BOOL | LT_VARINT | LT_UVARINT | LT_SVARINT => PB_WT_VARINT
  | LT_FIXED32 => PB_WT_32BIT
  | LT_FIXED64 => PB_WT_64BIT
  | LT_BYTES | LT_STRING | LT_SUBMESSAGE | LT_FIXED_LENGTH_BYTES => PB_WT_STRING
  end.
Definition pb_encode_tag_for_field s f : option pb_ostream :=
  pb_encode_tag s (wiretype (f_ltype f)) (f_tag f).

Definition encode_basic_field s f sub (v : value) : option pb_ostream :=
  s1 ← pb_encode_tag_for_field s f;
  match f_ltype f, v with
  | LT_BOOL, VInt z => pb_enc_bool s1 z
  | LT_VARINT, VInt z | LT_UVARINT, VInt z | LT_SVARINT, VInt z => pb_enc_varint s1 f z
  | LT_FIXED32, VInt z | LT_FIXED64, VInt z => pb_enc_fixed s1 f z
  | LT_BYTES, VBytes size buf => pb_enc_bytes s1 f size buf
  | LT_STRING, VString buf => pb_enc_string s1 f buf
  | LT_SUBMESSAGE, VMessage m => pb_enc_submessage s1 sub m
  | LT_FIXED_LENGTH_BYTES, VFixed buf => pb_enc_fixed_length_bytes s1 f buf
  | _, _ => None                                    (* not a value of the member *)
  end.

(** A loop over the first [count] items. *)
Fixpoint write_items (write : pb_ostream → value → option pb_ostream) (l : list value) s
    : option pb_ostream :=
  match l with
  | [] => Some s
  | v :: l' => s1 ← write s v; write_items write l' s1
  end.

Definition int_of (v : value) : option Z := match v with VInt z => Some z | _ => None end.

(** The contents of a packed array: bools are read as integers. *)
Definition is_fixed (t : ltype) : bool :=
  match t with LT_FIXED32 | LT_FIXED64 => true | _ => false end.
Definition packed_size f (l : list value) : option nat :=
  match f_ltype f with
  | LT_FIXED32 => Some (4 * length l)%nat
  | LT_FIXED64 => Some (8 * length l)%nat
  | _ =>
      sizestream ← write_items (λ s v, z ← int_of v; pb_enc_varint s f z) l PB_OSTREAM_SIZING;
      Some (length (o_bytes sizestream))
  end.

Definition encode_array s f sub (count : nat) (items : list value) : option pb_ostream :=
  if (count =? 0)%nat then Some s
  else if (array_size f <? count)%nat then None
  else
    let l := take count items in
    if packable (f_ltype f) then
      s1 ← pb_encode_tag s PB_WT_STRING (f_tag f);
      size ← packed_size f l;
      s2 ← pb_encode_varint s1 (Z.of_nat size);
      if o_sizing s2 then pb_write s2 (zeros size)
      else write_items (λ s v, z ← int_of v;
             if is_fixed (f_ltype f) then pb_enc_fixed s f z else pb_enc_varint s f z) l s2
    else write_items (λ s v, encode_basic_field s f sub v) l s.

(** [has_default]: the message descriptor has default values; [callback]: it has a
    field callback. *)
Definition pb_check_proto3_default_value (has_default callback : bool) f sub (sl : slot) : bool :=
  match f_atype f, sl with
  | AT_CALLBACK, Func c => if callback then match funcs c with FuncNull => true | _ => false end else true
  | AT_CALLBACK, _ => false
  | AT_STATIC, sl =>
      match f_htype f, sl with
      | HT_REPEATED, Many count _ => (count =? 0)%nat
      | HT_FIXARRAY, _ => (array_size f =? 0)%nat
      | HT_ONEOF, Union which _ => which =? 0
      | HT_OPTIONAL, One has _ => negb has
      | HT_SINGULAR, One _ v =>
          if has_default then false
          else match f_ltype f, v with
               | LT_BYTES, VBytes size _ => (size =? 0)%nat
               | LT_STRING, VString buf => nth 0 buf 0 =? 0
               | LT_FIXED_LENGTH_BYTES, _ => (data_size f =? 0)%nat
               | LT_SUBMESSAGE, VMessage m => match sub with Some o => op_is_default o m | None => true end
               | _, VInt z => z =? 0
               | _, _ => false
               end
      | _, _ => false
      end
  end.

(** [pb_default_field_callback], as the encoder calls it. *)
Definition encode_callback_field (callback : bool) s (c : pb_callback A) : option pb_ostream :=
  if callback then
    match funcs c with
    | FuncNull => Some s
    | FuncEncode encode => encode s (arg c)
    | FuncDecode _ => None                          (* calls the other function *)
    end
  else Some s.

Definition encode_field (has_default callback : bool) s f sub (sl : slot) : option pb_ostream :=
  let present :=
    match f_atype f, f_htype f, sl with
    | AT_STATIC, HT_ONEOF, Union which _ => which =? f_tag f
    | AT_STATIC, HT_OPTIONAL, One has _ => has
    | AT_STATIC, HT_SINGULAR, _ => negb (pb_check_proto3_default_value has_default callback f sub sl)
    | _, _, _ => true
    end in
  if negb present then Some s
  else
    match f_atype f, f_htype f, sl with
    | AT_CALLBACK, _, Func c => encode_callback_field callback s c
    | AT_STATIC, HT_REPEATED, Many count items => encode_array s f sub count items
    | AT_STATIC, HT_FIXARRAY, Many _ items => encode_array s f sub (array_size f) items
    | AT_STATIC, (HT_REQUIRED | HT_OPTIONAL | HT_SINGULAR), One _ v
    | AT_STATIC, HT_ONEOF, Union _ v => encode_basic_field s f sub v
    | _, _, _ => None                               (* not the member's kind *)
    end.

(** The loops of [pb_encode] and of [pb_check_proto3_default_value] over a message. *)
Fixpoint encode_fields (has_default callback : bool) (l : list (field * option message_ops)) m s
    : option pb_ostream :=
  match l with
  | [] => Some s
  | (f, sub) :: l' =>
      sl ← m !! f_member f;
      s1 ← encode_field has_default callback s f sub sl;
      encode_fields has_default callback l' m s1
  end.
Definition fields_default (has_default callback : bool) (l : list (field * option message_ops)) m : bool :=
  forallb (λ x, match m !! f_member x.1 with
                | Some sl => pb_check_proto3_default_value has_default callback x.1 x.2 sl
                | None => true
                end) l.

(** * Decoding *)
Definition pb_decode_bool (buf : bytes) : option (Z * bytes) :=
  '(value, s1) ← pb_decode_varint32 buf; Some (if negb (value =? 0) then 1 else 0, s1).

Definition pb_decode_fixed32 (buf : bytes) : option (Z * bytes) :=
  '(b, s1) ← pb_read buf 4;
  Some (Z.lor (Z.lor (Z.lor (nth 0 b 0) (Z.shiftl (nth 1 b 0) 8)) (Z.shiftl (nth 2 b 0) 16))
         (Z.shiftl (nth 3 b 0) 24), s1).
Definition pb_decode_fixed64 (buf : bytes) : option (Z * bytes) :=
  '(b, s1) ← pb_read buf 8;
  Some (Z.lor (Z.lor (Z.lor (Z.lor (Z.lor (Z.lor (Z.lor (nth 0 b 0) (Z.shiftl (nth 1 b 0) 8))
         (Z.shiftl (nth 2 b 0) 16)) (Z.shiftl (nth 3 b 0) 24)) (Z.shiftl (nth 4 b 0) 32))
         (Z.shiftl (nth 5 b 0) 40)) (Z.shiftl (nth 6 b 0) 48)) (Z.shiftl (nth 7 b 0) 56), s1).

(** A varint field of up to 32 bits is cut to 32 bits before its range is checked. *)
Definition pb_dec_varint f (buf : bytes) : option (Z * bytes) :=
  match f_ltype f with
  | LT_UVARINT =>
      '(value, s1) ← pb_decode_varint buf;
      if negb (valid_int_size (data_size f)) then None
      else let clamped := value mod 2 ^ (8 * Z.of_nat (data_size f)) in
           if negb (clamped =? value) then None else Some (clamped, s1)
  | _ =>
      '(svalue, s1) ← match f_ltype f with
                      | LT_SVARINT => pb_decode_svarint buf
                      | _ => '(value, s1) ← pb_decode_varint buf;
                             Some (if (data_size f =? 8)%nat then sint 8 value else sint 4 value, s1)
                      end;
      if negb (valid_int_size (data_size f)) then None
      else let clamped := sint (data_size f) svalue in
           if negb (clamped =? svalue) then None else Some (clamped, s1)
  end.

(** [old]: the member's array before the call. *)
Definition pb_dec_bytes f (old buf : bytes) : option (value * bytes) :=
  '(size, s1) ← pb_decode_varint32 buf;
  if PB_SIZE_MAX <? size then None
  else if Z.of_nat (data_size f) <? size + 2 then None
  else '(l, s2) ← pb_read s1 (Z.to_nat size);
       Some (VBytes (Z.to_nat size) (splice 0 l old), s2).

Definition pb_dec_string f (old buf : bytes) : option (value * bytes) :=
  '(size, s1) ← pb_decode_varint32 buf;
  if size =? 2 ^ 32 - 1 then None
  else if Z.of_nat (data_size f) <? size + 1 then None
  else let dest := splice (Z.to_nat size) [0] old in
       '(l, s2) ← pb_read s1 (Z.to_nat size);
       Some (VString (splice 0 l dest), s2).

Definition pb_dec_fixed_length_bytes f (buf : bytes) : option (value * bytes) :=
  '(size, s1) ← pb_decode_varint32 buf;
  if PB_SIZE_MAX <? size then None
  else if size =? 0 then Some (VFixed (zeros (data_size f)), s1)
  else if negb (size =? Z.of_nat (data_size f)) then None
  else '(l, s2) ← pb_read s1 (data_size f); Some (VFixed l, s2).

(** The substream and the rest of the parent stream, which is where closing the
    substream leaves it. *)
Definition pb_make_string_substream (buf : bytes) : option (bytes * bytes) :=
  '(size, s1) ← pb_decode_varint32 buf;
  if Z.of_nat (length s1) <? size then None
  else Some (take (Z.to_nat size) s1, drop (Z.to_nat size) s1).

(** A repeated field's items were not initialised with the message. *)
Definition pb_dec_submessage f sub m (buf : bytes) : option (value * bytes) :=
  '(substream, rest) ← pb_make_string_substream buf;
  o ← sub;
  let flags := match f_htype f with HT_REPEATED | HT_FIXARRAY => 0 | _ => PB_DECODE_NOINIT end in
  '(m', _) ← op_decode o flags m substream;
  Some (VMessage m', rest).

Definition decode_basic_field (wire_type : Z) f sub (v : value) (buf : bytes) : option (value * bytes) :=
  let packed_or wt := (wire_type =? wt) || (wire_type =? PB_WT_PACKED) in
  let number (r : option (Z * bytes)) := '(z, s1) ← r; Some (VInt z, s1) in
  match f_ltype f with
  | LT_BOOL => if packed_or PB_WT_VARINT then number (pb_decode_bool buf) else None
  | LT_VARINT | LT_UVARINT | LT_SVARINT =>
      if packed_or PB_WT_VARINT then number (pb_dec_varint f buf) else None
  | LT_FIXED32 => if packed_or PB_WT_32BIT then number (pb_decode_fixed32 buf) else None
  | LT_FIXED64 => if packed_or PB_WT_64BIT then number (pb_decode_fixed64 buf) else None
  | LT_BYTES =>
      if wire_type =? PB_WT_STRING
      then pb_dec_bytes f (match v with VBytes _ old => old | _ => [] end) buf else None
  | LT_STRING =>
      if wire_type =? PB_WT_STRING
      then pb_dec_string f (match v with VString old => old | _ => [] end) buf else None
  | LT_SUBMESSAGE =>
      if wire_type =? PB_WT_STRING
      then pb_dec_submessage f sub (match v with VMessage m => m | _ => [] end) buf else None
  | LT_FIXED_LENGTH_BYTES =>
      if wire_type =? PB_WT_STRING then pb_dec_fixed_length_bytes f buf else None
  end.

(** A member's memory set to zero. *)
Definition zero_value f sub : value :=
  match f_ltype f with
  | LT_BYTES => VBytes 0 (zeros (data_size f - 2))
  | LT_STRING => VString (zeros (data_size f))
  | LT_SUBMESSAGE => VMessage (match sub with Some o => op_zero o | None => [] end)
  | LT_FIXED_LENGTH_BYTES => VFixed (zeros (data_size f))
  | _ => VInt 0
  end.
Definition zero_slot f sub : slot :=
  match f_htype f with
  | HT_REPEATED | HT_FIXARRAY => Many 0 (replicate (array_size f) (zero_value f sub))
  | HT_ONEOF => Union 0 VZero
  | _ => One false (zero_value f sub)
  end.

(** The loop over a packed array, into the items from [count] on; [room] is how many
    are left. *)
Fixpoint decode_packed (room : nat) f sub (count : nat) (items : list value) (buf : bytes)
    : option (nat * list value) :=
  match buf with
  | [] => Some (count, items)
  | _ =>
      match room with
      | O => None                                   (* array overflow *)
      | S room' =>
          old ← items !! count;
          '(v, s1) ← decode_basic_field PB_WT_PACKED f sub old buf;
          decode_packed room' f sub (S count) (<[count := v]> items) s1
      end
  end.

Definition decode_repeated (wire_type : Z) f sub (count : nat) (items : list value) (buf : bytes)
    : option (nat * list value * bytes) :=
  if (wire_type =? PB_WT_STRING) && packable (f_ltype f) then
    '(substream, rest) ← pb_make_string_substream buf;
    '(count', items') ← decode_packed (array_size f - count) f sub count items substream;
    Some (count', items', rest)
  else if (array_size f <=? count)%nat then None
  else
    old ← items !! count;
    '(v, rest) ← decode_basic_field wire_type f sub old buf;
    Some (S count, <[count := v]> items, rest).

(** What a oneof's union holds for the field. *)
Definition union_value f sub (which : Z) (v : value) : option value :=
  if which =? f_tag f then Some v
  else match f_ltype f, sub with
       | LT_SUBMESSAGE, Some o =>
           if op_needs_init o then VMessage <$> op_set_defaults o (op_zero o) else Some (VMessage (op_zero o))
       | _, _ => Some (match v with VZero => zero_value f sub | _ => reread f v end)
       end.

(** [fixed_count]: how many items of the fixed-length array being decoded have come. *)
Definition decode_static_field (wire_type : Z) f sub (sl : slot) (fixed_count : nat) (buf : bytes)
    : option (slot * nat * bytes) :=
  match f_htype f, sl with
  | HT_REQUIRED, One has v | HT_SINGULAR, One has v =>
      '(v', rest) ← decode_basic_field wire_type f sub v buf; Some (One has v', fixed_count, rest)
  | HT_OPTIONAL, One _ v =>
      '(v', rest) ← decode_basic_field wire_type f sub v buf; Some (One true v', fixed_count, rest)
  | HT_REPEATED, Many count items =>
      '(count', items', rest) ← decode_repeated wire_type f sub count items buf;
      Some (Many count' items', fixed_count, rest)
  | HT_FIXARRAY, Many count items =>
      '(count', items', rest) ← decode_repeated wire_type f sub fixed_count items buf;
      Some (Many count items', count', rest)
  | HT_ONEOF, Union which v =>
      v0 ← union_value f sub which v;
      '(v', rest) ← decode_basic_field wire_type f sub v0 buf; Some (Union (f_tag f) v', fixed_count, rest)
  | _, _ => None                                    (* not the member's kind *)
  end.

(** [pb_default_field_callback], as the decoder calls it. *)
Definition call_decode (c : pb_callback A) (buf : bytes) : option (bytes * pb_callback A) :=
  match funcs c with
  | FuncNull => Some (buf, c)
  | FuncDecode decode => '(rest, a) ← decode buf (arg c); Some (rest, Callback (funcs c) a)
  | FuncEncode _ => None                            (* calls the other function *)
  end.

(** The loop that calls it as long as it consumes something. *)
Fixpoint call_until_done (k : nat) (c : pb_callback A) (substream : bytes) : option (pb_callback A) :=
  '(rest, c') ← call_decode c substream;
  match k with
  | S k' => if (0 <? length rest)%nat && (length rest <? length substream)%nat
            then call_until_done k' c' rest else Some c'
  | O => Some c'
  end.

(** [read_raw_value]'s contents are what the stream has lost. *)
Definition decode_callback_field (callback : bool) (wire_type : Z) (c : pb_callback A) (buf : bytes)
    : option (pb_callback A * bytes) :=
  if negb callback then rest ← pb_skip_field wire_type buf; Some (c, rest)
  else if wire_type =? PB_WT_STRING then
    '(substream, rest) ← pb_make_string_substream buf;
    c' ← call_until_done (length substream) c substream; Some (c', rest)
  else
    rest ← read_raw_value wire_type 10 buf;
    '(_, c') ← call_decode c (take (length buf - length rest) buf); Some (c', rest).

Definition decode_field (callback : bool) (wire_type : Z) f sub (sl : slot) (fixed_count : nat)
    (buf : bytes) : option (slot * nat * bytes) :=
  match f_atype f, sl with
  | AT_STATIC, _ => decode_static_field wire_type f sub sl fixed_count buf
  | AT_CALLBACK, Func c =>
      '(c', rest) ← decode_callback_field callback wire_type c buf; Some (Func c', fixed_count, rest)
  | AT_CALLBACK, _ => None
  end.

(** * Defaults *)
Definition pb_field_set_to_default f sub (sl : slot) : option slot :=
  match f_atype f, f_htype f, sl with
  | AT_CALLBACK, _, _ => Some sl
  | AT_STATIC, HT_REPEATED, Many _ items => Some (Many 0 items)
  | AT_STATIC, HT_FIXARRAY, _ => Some sl
  | AT_STATIC, HT_ONEOF, Union _ v => Some (Union 0 v)
  | AT_STATIC, _, One has v =>
      let has' := match f_htype f with HT_OPTIONAL => false | _ => has end in
      match f_ltype f, sub, v with
      | LT_SUBMESSAGE, Some o, VMessage m =>
          if op_needs_init o then m' ← op_set_defaults o m; Some (One has' (VMessage m'))
          else Some (One has' (zero_value f sub))
      | _, _, _ => Some (One has' (zero_value f sub))
      end
  | _, _, _ => None                                 (* not the member's kind *)
  end.

(** [*(bool* )iter->pSize = false], after a default was read.  Only optional fields are
    written this way: a generated [default_value] has no repeated fields and no oneofs. *)
Definition clear_has f (sl : slot) : slot :=
  match f_htype f, sl with
  | HT_OPTIONAL, One _ v => One false v
  | HT_REPEATED, Many _ items => Many 0 items
  | HT_ONEOF, Union _ v => Union 0 v
  | _, _ => sl
  end.

(** The loop; [wire_type] and [tag] were read from [defstream]. *)
Fixpoint set_to_defaults (callback : bool) (l : list (field * option message_ops)) (wire_type tag : Z)
    (defstream : bytes) m : option (list slot) :=
  match l with
  | [] => Some m
  | (f, sub) :: l' =>
      sl ← m !! f_member f;
      sl1 ← pb_field_set_to_default f sub sl;
      if negb (tag =? 0) && (f_tag f =? tag) then
        '(sl2, _, s1) ← decode_field callback wire_type f sub sl1 0 defstream;
        '(wire_type', tag', s2) ← pb_decode_tag s1;
        set_to_defaults callback l' wire_type' tag' s2 (<[f_member f := clear_has f sl2]> m)
      else set_to_defaults callback l' wire_type tag defstream (<[f_member f := sl1]> m)
  end.

Definition pb_message_set_to_defaults (def : option bytes) (callback : bool)
    (l : list (field * option message_ops)) m : option (list slot) :=
  match def with
  | Some d =>
      '(wire_type, tag, defstream) ← pb_decode_tag d;
      set_to_defaults callback l wire_type tag defstream m
  | None => set_to_defaults callback l PB_WT_VARINT 0 [] m
  end.

(** * Decoding a message *)
(** The locals of [pb_decode_inner]: the field whose fixed count is being tracked, its
    count and its total, and the bits of the required fields seen. *)
Record locals := Locals {
  fixed_count_field : option nat;
  fixed_count_size : nat;
  fixed_count_total_size : nat;
  fields_seen : Z * Z                               (* two words of 32 bits *)
}.
Definition locals_new : locals := Locals None 0 0 (0, 0).

Definition fixed_count_done (lo : locals) : bool :=
  match fixed_count_field lo with
  | None => true
  | Some _ => (fixed_count_size lo =? fixed_count_total_size lo)%nat
  end.

(** [iter.required_field_index] of field [i]. *)
Definition is_required (x : field * option message_ops) : bool :=
  match f_htype x.1 with HT_REQUIRED => true | _ => false end.
Definition count_required (l : list (field * option message_ops)) : nat :=
  length (filter (λ x, is_required x = true) l).

(** The fixed-length array's tracking before the field is decoded. *)
Definition track_fixed (i : nat) f (lo : locals) : option locals :=
  match f_htype f, f_atype f with
  | HT_FIXARRAY, AT_STATIC =>
      if bool_decide (fixed_count_field lo = Some i) then Some lo
      else if negb (fixed_count_done lo) then None
      else Some (Locals (Some i) 0 (array_size f) (fields_seen lo))
  | _, _ => Some lo
  end.

Definition mark_seen (required_field_index : nat) f (lo : locals) : locals :=
  match f_htype f with
  | HT_REQUIRED =>
      if (required_field_index <? PB_MAX_REQUIRED_FIELDS)%nat then
        let tmp := u32 (Z.shiftl 1 (Z.land (Z.of_nat required_field_index) 31)) in
        let '(w0, w1) := fields_seen lo in
        Locals (fixed_count_field lo) (fixed_count_size lo) (fixed_count_total_size lo)
          (if Z.shiftr (Z.of_nat required_field_index) 5 =? 0 then (Z.lor w0 tmp, w1) else (w0, Z.lor w1 tmp))
      else lo
  | _ => lo
  end.

(** Whole words first, then the remaining bits. *)
Definition allbits : Z := u32 (Z.lnot 0).
Definition all_required_seen (required_field_count : nat) (seen : Z * Z) : bool :=
  let req := Z.of_nat (Nat.min required_field_count PB_MAX_REQUIRED_FIELDS) in
  let word (i : Z) := if i =? 0 then seen.1 else seen.2 in
  let full := Z.shiftr req 5 in
  ((full <? 1) || (word 0 =? allbits)) && ((full <? 2) || (word 1 =? allbits)) &&
  ((Z.land req 31 =? 0) || (word full =? Z.shiftr allbits (32 - Z.land req 31))).

Definition finish (l : list (field * option message_ops)) (lo : locals) m (rest : bytes)
    : option (list slot * bytes) :=
  if negb (fixed_count_done lo) then None
  else if negb (all_required_seen (count_required l) (fields_seen lo)) then None
  else Some (m, rest).

(** The tags of a descriptor are distinct, so it does not matter where the search starts. *)
Definition find_by_tag (l : list (field * option message_ops)) (tag : Z) : option nat :=
  first_such (λ x, f_tag x.1 =? tag) l.

(** The loop; every iteration consumes a byte, so the stream's length is fuel enough. *)
Fixpoint inner_loop (k : nat) (callback : bool) (flags : Z) (l : list (field * option message_ops))
    (lo : locals) m (buf : bytes) : option (list slot * bytes) :=
  match buf, k with
  | [], _ => finish l lo m []
  | _, O => None
  | _, S k' =>
      '(wire_type, tag, s1) ← pb_decode_tag buf;
      if tag =? 0 then
        if negb (Z.land flags PB_DECODE_NULLTERMINATED =? 0) then finish l lo m s1 else None
      else
        match find_by_tag l tag with
        | None => s2 ← pb_skip_field wire_type s1; inner_loop k' callback flags l lo m s2
        | Some i =>
            '(f, sub) ← l !! i;
            lo1 ← track_fixed i f lo;
            let lo2 := mark_seen (count_required (take i l)) f lo1 in
            sl ← m !! f_member f;
            '(sl', fixed, s2) ← decode_field callback wire_type f sub sl (fixed_count_size lo2) s1;
            inner_loop k' callback flags l
              (Locals (fixed_count_field lo2) fixed (fixed_count_total_size lo2) (fields_seen lo2))
              (<[f_member f := sl']> m) s2
        end
  end.

Definition pb_decode_inner (def : option bytes) (callback : bool) (l : list (field * option message_ops))
    (flags : Z) m (buf : bytes) : option (list slot * bytes) :=
  m0 ← (if Z.land flags PB_DECODE_NOINIT =? 0 then pb_message_set_to_defaults def callback l m else Some m);
  inner_loop (length buf) callback flags l locals_new m0 buf.

(** * The operations of a descriptor *)
(** Member [i] of a structure whose memory is zero. *)
Definition zero_member (l : list (field * option message_ops)) (i : nat) : slot :=
  match first_such (λ x, (f_member x.1 =? i)%nat) l ≫= λ j, l !! j with
  | Some (f, sub) =>
      match f_atype f with AT_STATIC => zero_slot f sub | AT_CALLBACK => Func (Callback FuncNull null_arg) end
  | None => One false VZero
  end.
Definition member_count (l : list (field * option message_ops)) : nat :=
  fold_right (λ x n, Nat.max (S (f_member x.1)) n) O l.
Definition zero_members (l : list (field * option message_ops)) : list slot :=
  zero_member l <$> seq 0 (member_count l).

Definition message_ops_of (def : option bytes) (callback : bool) (l : list (field * option message_ops))
    : message_ops := {|
  op_zero := zero_members l;
  op_encode := encode_fields (bool_decide (is_Some def)) callback l;
  op_is_default := fields_default (bool_decide (is_Some def)) callback l;
  op_needs_init := bool_decide (is_Some def) || callback || existsb (λ x, bool_decide (is_Some x.2)) l;
  op_set_defaults := pb_message_set_to_defaults def callback l;
  op_decode := pb_decode_inner def callback l
|}.

Fixpoint ops (d : pb_msgdesc) : message_ops :=
  match d with
  | MsgDesc l def callback =>
      message_ops_of def callback
        (map (λ x, (x.1, match x.2 with Some d' => Some (ops d') | None => None end)) l)
  end.

(** * The interface of the runtime *)
Definition pb_encode (d : pb_msgdesc) m s : option pb_ostream := op_encode (ops d) m s.

Definition pb_encode_ex (flags : Z) (d : pb_msgdesc) m s : option pb_ostream :=
  if negb (Z.land flags PB_ENCODE_DELIMITED =? 0) then pb_encode_submessage s (ops d) m
  else if negb (Z.land flags PB_ENCODE_NULLTERMINATED =? 0) then s1 ← pb_encode d m s; pb_write s1 [0]
  else pb_encode d m s.

Definition pb_get_encoded_size (d : pb_msgdesc) m : option nat :=
  (λ s, length (o_bytes s)) <$> pb_encode d m PB_OSTREAM_SIZING.

Definition pb_decode_ex (flags : Z) (d : pb_msgdesc) m (buf : bytes) : option (list slot * bytes) :=
  if Z.land flags PB_DECODE_DELIMITED =? 0 then op_decode (ops d) flags m buf
  else
    '(substream, rest) ← pb_make_string_substream buf;
    '(m', _) ← op_decode (ops d) flags m substream; Some (m', rest).

Definition pb_decode (d : pb_msgdesc) m (buf : bytes) : option (list slot) :=
  fst <$> op_decode (ops d) 0 m buf.
End Messages.
