(* ===== verification/NanopbCorrect.v ===== *)
(** The protobuf runtime for nested messages is correct: what the encoder of
    NanopbMessages writes is [message_bytes], in a buffer or on a sizing stream; the
    decoder turns it back into the structure.

    A message type's operations and its specification are built alike from those of its
    submessages, so a statement about all descriptors is proved by showing that a message
    has it when its submessages have. *)
From S2P Require Import Prelude Nanopb NanopbMessages.

Section Correct.
Context {A : Type} {Mem : Memory A}.
Local Abbreviation value := (value A).
Local Abbreviation slot := (slot A).
Local Abbreviation message_ops := (message_ops (A := A)).

(** * Descriptor induction *)
Lemma pb_msgdesc_nested_ind (P : pb_msgdesc → Prop) :
  (∀ l def callback, Forall (λ x, ∀ d, x.2 = Some d → P d) l → P (MsgDesc l def callback)) → ∀ d, P d.
Proof using.
  intros H. fix IH 1. intros [l def callback]. apply H. induction l as [|[f [d|]] l IHl].
  - constructor.
  - constructor; [|exact IHl]. intros d' [= <-]. apply IH.
  - constructor; [|exact IHl]. intros d' [=].
Qed.

(** * The bytes of a message *)
(** What a message type promises: its operations, its bytes, and which structures it
    speaks of. *)
Record spec := Spec {
  sp_ops : message_ops;
  sp_bytes : list slot → bytes;
  sp_ok : list slot → Prop
}.
Implicit Types (f : field) (sub : option spec) (v : value) (sl : slot) (m : list slot)
  (l : list (field * option spec)).

Definition ops_of sub : option message_ops := sp_ops <$> sub.
Definition with_ops l : list (field * option message_ops) := (λ x, (x.1, ops_of x.2)) <$> l.

Definition tag_bytes f (wt : Z) : bytes := varint 9 (8 * f_tag f + wt).
Definition string_bytes (b : bytes) : bytes := varint 9 (Z.of_nat (length b)) ++ b.

Definition value_bytes f sub v : bytes :=
  match f_ltype f, v with
  | LT_BOOL, VInt z => [z]
  | LT_UVARINT, VInt z => varint 9 z
  | LT_SVARINT, VInt z => varint 9 (zigzag z)
  | LT_VARINT, VInt z => varint 9 (u64 z)
  | LT_FIXED32, VInt z => le_bytes 4 z
  | LT_FIXED64, VInt z => le_bytes 8 z
  | LT_BYTES, VBytes size buf => string_bytes (take size buf)
  | LT_STRING, VString buf => string_bytes (take (strnlen (data_size f - 1) buf) buf)
  | LT_FIXED_LENGTH_BYTES, VFixed buf => string_bytes buf
  | LT_SUBMESSAGE, VMessage m => string_bytes (match sub with Some sp => sp_bytes sp m | None => [] end)
  | _, _ => []
  end.
Definition basic_bytes f sub v : bytes := tag_bytes f (wiretype (f_ltype f)) ++ value_bytes f sub v.
Definition array_bytes f sub (vs : list value) : bytes :=
  if packable (f_ltype f) then tag_bytes f PB_WT_STRING ++ string_bytes (concat (value_bytes f sub <$> vs))
  else concat (basic_bytes f sub <$> vs).

(** Is the field written, and what then? *)
Definition emitted f sub sl : bool :=
  match f_atype f, f_htype f, sl with
  | AT_CALLBACK, _, _ => false
  | AT_STATIC, HT_REQUIRED, _ => true
  | AT_STATIC, HT_OPTIONAL, One has _ => has
  | AT_STATIC, HT_SINGULAR, _ => negb (pb_check_proto3_default_value false true f (ops_of sub) sl)
  | AT_STATIC, HT_REPEATED, Many count _ => negb (count =? 0)%nat
  | AT_STATIC, HT_FIXARRAY, _ => negb (array_size f =? 0)%nat
  | AT_STATIC, HT_ONEOF, Union which _ => which =? f_tag f
  | _, _, _ => false
  end.
Definition slot_bytes f sub sl : bytes :=
  match f_htype f, sl with
  | HT_REPEATED, Many count items => array_bytes f sub (take count items)
  | HT_FIXARRAY, Many _ items => array_bytes f sub items
  | _, One _ v | _, Union _ v => basic_bytes f sub v
  | _, _ => []
  end.
Definition field_bytes f sub m : bytes :=
  match m !! f_member f with
  | Some sl => if emitted f sub sl then slot_bytes f sub sl else []
  | None => []
  end.
Definition fields_bytes l m : bytes := concat ((λ x, field_bytes x.1 x.2 m) <$> l).

(** * Well-formed descriptors and structures *)
(** Sizes within their types; a callback without functions cannot supply a required
    field. *)
Definition field_ok f : Prop :=
  0 < f_tag f < 2 ^ 16 ∧ Z.of_nat (data_size f) < 2 ^ 16 ∧
  (f_htype f = HT_REQUIRED → f_atype f = AT_STATIC) ∧
  match f_ltype f with
  | LT_BOOL => data_size f = 1%nat
  | LT_VARINT | LT_UVARINT | LT_SVARINT => valid_int_size (data_size f) = true
  | LT_FIXED32 => data_size f = 4%nat
  | LT_FIXED64 => data_size f = 8%nat
  | LT_BYTES => (2 <= data_size f)%nat
  | LT_STRING | LT_FIXED_LENGTH_BYTES => (0 < data_size f)%nat
  | LT_SUBMESSAGE => True
  end.

(** [v] is a value of the member, in the form the decoder leaves it in: unused bytes
    are zero. *)
Definition value_ok f sub v : Prop :=
  let w := 8 * Z.of_nat (data_size f) in
  match f_ltype f, v with
  | LT_BOOL, VInt z => z = 0 ∨ z = 1
  | LT_UVARINT, VInt z | LT_FIXED32, VInt z | LT_FIXED64, VInt z => 0 <= z < 2 ^ w
  | LT_VARINT, VInt z | LT_SVARINT, VInt z => - 2 ^ (w - 1) <= z < 2 ^ (w - 1)
  | LT_BYTES, VBytes size buf =>
      (size <= data_size f - 2)%nat ∧ ∃ b, length b = size ∧ buf = b ++ zeros (data_size f - 2 - size)
  | LT_STRING, VString buf =>
      ∃ b, (length b < data_size f)%nat ∧ Forall (λ c, c ≠ 0) b ∧ buf = b ++ zeros (data_size f - length b)
  | LT_FIXED_LENGTH_BYTES, VFixed buf => length buf = data_size f
  | LT_SUBMESSAGE, VMessage m => ∃ sp, sub = Some sp ∧ sp_ok sp m
  | _, _ => False
  end.

Definition zero_of f sub : value := zero_value f (ops_of sub).

(** The member of an emitted field. *)
Definition slot_ok f sub sl : Prop :=
  match f_htype f, sl with
  | HT_REQUIRED, One has v | HT_SINGULAR, One has v => has = false ∧ value_ok f sub v
  | HT_OPTIONAL, One _ v => value_ok f sub v
  | HT_REPEATED, Many count items =>
      ∃ vs, length vs = count ∧ (count <= array_size f)%nat ∧ Forall (value_ok f sub) vs ∧
        items = vs ++ replicate (array_size f - count) (zero_of f sub)
  | HT_FIXARRAY, Many count items =>
      count = 0%nat ∧ length items = array_size f ∧ Forall (value_ok f sub) items
  | HT_ONEOF, Union _ v => value_ok f sub v
  | _, _ => False
  end.

(** A field writes its member, if any does. *)
Definition writes m (i : nat) (x : field * option spec) : bool :=
  (f_member x.1 =? i)%nat && match m !! i with Some sl => emitted x.1 x.2 sl | None => false end.

(** Members nothing is written for are zero. *)
Definition struct_ok l m : Prop :=
  length m = member_count (with_ops l) ∧
  Forall (λ x, ∀ sl, m !! f_member x.1 = Some sl → emitted x.1 x.2 sl = true → slot_ok x.1 x.2 sl) l ∧
  ∀ i, (i < length m)%nat → existsb (writes m i) l = false → m !! i = Some (zero_member (with_ops l) i).

(** Only the fields of a oneof share a member; a submessage has a descriptor. *)
Definition fields_ok l : Prop :=
  Forall (λ x, field_ok x.1) l ∧ NoDup ((λ x, f_tag x.1) <$> l) ∧
  (∀ i j x y, l !! i = Some x → l !! j = Some y → f_member x.1 = f_member y.1 → i ≠ j →
     f_htype x.1 = HT_ONEOF ∧ f_htype y.1 = HT_ONEOF ∧ f_atype x.1 = AT_STATIC ∧ f_atype y.1 = AT_STATIC).

(** Descriptors without default values of their own. *)
Fixpoint spec_of (d : pb_msgdesc) : spec :=
  match d with
  | MsgDesc l def callback =>
      let l' := map (λ x, (x.1, match x.2 with Some d' => Some (spec_of d') | None => None end)) l in
      Spec (message_ops_of def callback (with_ops l')) (fields_bytes l') (struct_ok l')
  end.
Definition specs (l : list (field * option pb_msgdesc)) : list (field * option spec) :=
  (λ x : field * option pb_msgdesc, (x.1, spec_of <$> x.2)) <$> l.

Fixpoint desc_ok (d : pb_msgdesc) : Prop :=
  match d with
  | MsgDesc l def _ =>
      def = None ∧
      fields_ok (specs l) ∧
      fold_right (λ x P, match x.2 with Some d' => desc_ok d' | None => True end ∧ P) True l
  end.

Definition message_bytes (d : pb_msgdesc) (m : list slot) : bytes := sp_bytes (spec_of d) m.
Definition message_ok (d : pb_msgdesc) (m : list slot) : Prop := sp_ok (spec_of d) m.

Lemma spec_of_ops d : sp_ops (spec_of d) = ops d.
Proof using.
  induction d as [l def callback IH] using pb_msgdesc_nested_ind. cbn. f_equal. unfold with_ops, ops_of.
  rewrite <- list_fmap_compose. apply list_fmap_ext. intros i [f [d|]] Hx; cbn; [|done].
  do 2 f_equal. rewrite Forall_lookup in IH. by apply (IH i (f, Some d) Hx).
Qed.

(** * Encoding is one write *)
Lemma encode_string_bytes s b :
  Z.of_nat (length b) < 2 ^ 64 → pb_encode_string s b = pb_write s (string_bytes b).
Proof using.
  intros Hl. unfold pb_encode_string, string_bytes. rewrite pb_encode_varint_write by lia. apply pb_write_app.
Qed.

Lemma tag_write s f wt : field_ok f → 0 <= wt < 8 → pb_encode_tag s wt (f_tag f) = pb_write s (tag_bytes f wt).
Proof using.
  intros [Ht _] Hw. unfold pb_encode_tag, tag_bytes.
  rewrite Z.lor_comm, lor_shiftl_add by lia. replace (wt + f_tag f * 2 ^ 3) with (8 * f_tag f + wt) by lia.
  apply pb_encode_varint_write. lia.
Qed.

Lemma wiretype_range t : 0 <= wiretype t < 8.
Proof using. by destruct t. Qed.

Lemma byte_of z k : 0 <= k → Z.land (Z.shiftr z (8 * k)) 0xFF = z / 256 ^ k mod 256.
Proof using.
  intros Hk. rewrite (Z.land_ones _ 8), Z.shiftr_div_pow2 by lia. by rewrite Z.pow_mul_r by lia.
Qed.
Lemma fixed32_bytes z :
  [Z.land z 0xFF; Z.land (Z.shiftr z 8) 0xFF; Z.land (Z.shiftr z 16) 0xFF; Z.land (Z.shiftr z 24) 0xFF] = le_bytes 4 z.
Proof using.
  pose proof (byte_of z 0) as H0. pose proof (byte_of z 1) as H1. pose proof (byte_of z 2) as H2.
  pose proof (byte_of z 3) as H3. rewrite Z.shiftr_0_r in H0.
  change (8 * 1) with 8 in H1. change (8 * 2) with 16 in H2. change (8 * 3) with 24 in H3.
  rewrite H0, H1, H2, H3 by lia. cbn [le_bytes]. rewrite !Z.div_div by lia.
  change (256 ^ 0) with 1. by rewrite Z.div_1_r.
Qed.
Lemma fixed64_bytes z :
  [Z.land z 0xFF; Z.land (Z.shiftr z 8) 0xFF; Z.land (Z.shiftr z 16) 0xFF; Z.land (Z.shiftr z 24) 0xFF;
   Z.land (Z.shiftr z 32) 0xFF; Z.land (Z.shiftr z 40) 0xFF; Z.land (Z.shiftr z 48) 0xFF; Z.land (Z.shiftr z 56) 0xFF]
  = le_bytes 8 z.
Proof using.
  pose proof (fixed32_bytes z) as HL. pose proof (fixed32_bytes (Z.shiftr z 32)) as HH.
  rewrite !Z.shiftr_shiftr in HH by lia. change (32 + 8) with 40 in HH. change (32 + 16) with 48 in HH.
  change (32 + 24) with 56 in HH.
  rewrite (Z.shiftr_div_pow2 z 32) in HH by lia.
  injection HL as -> -> -> ->. rewrite (Z.shiftr_div_pow2 z 32) by lia. injection HH as -> -> -> ->.
  cbn [le_bytes]. rewrite !Z.div_div by lia. done.
Qed.

Lemma write_items_bytes (write : pb_ostream → value → option pb_ostream) (g : value → bytes) (vs : list value) s :
  Forall (λ v, ∀ s, write s v = pb_write s (g v)) vs →
  write_items write vs s = pb_write s (concat (g <$> vs)).
Proof using.
  intros H. revert s. induction H as [|v vs Hv _ IH]; intros s; [by rewrite pb_write_nil|].
  cbn [write_items fmap list_fmap concat]. rewrite Hv, <- pb_write_app.
  destruct (pb_write s (g v)) as [s1|]; [|done]. cbn [mbind option_bind]. apply IH.
Qed.

Lemma length_concat_le (ls : list bytes) : Forall (λ b, length b <= length (concat ls))%nat ls.
Proof using.
  induction ls as [|b ls IH]; [done|]. cbn [concat]. constructor; [rewrite length_app; lia|].
  eapply Forall_impl; [exact IH|]. intros b' H. cbn in *. rewrite length_app. lia.
Qed.

Lemma varint_nonempty k z : varint k z ≠ [].
Proof using. destruct k as [|k]; cbn; [done|]. by destruct (z <? 128). Qed.

(** After a write that wrote something the stream is within its bounds. *)
Lemma pb_write_fits s b s1 :
  b ≠ [] → pb_write s b = Some s1 → o_sizing s1 = true ∨ (length (o_bytes s1) <= max_size s1)%nat.
Proof using.
  intros Hb. unfold pb_write. destruct (o_sizing s); [intros [= <-]; by left|].
  destruct b as [|c b]; [done|]. 
  destruct (Nat.ltb_spec 0 (length (c :: b))) as [_|]; [|cbn in *; lia]. cbn [andb].
  destruct (Nat.ltb_spec (max_size s) (length (o_bytes s) + length (c :: b))); [done|].
  intros [= <-]. right. cbn [o_bytes max_size]. rewrite length_app. lia.
Qed.

(** The part of [pb_encode_submessage] after the size: sizing and writing agree. *)
Lemma sized_write s (b : bytes) :
  o_sizing s = true ∨ (length (o_bytes s) <= max_size s)%nat →
  (if o_sizing s then pb_write s (zeros (length b))
   else if (max_size s <? length (o_bytes s) + length b)%nat then None
   else Some (OStream (o_bytes s ++ b) (max_size s) false)) = pb_write s b.
Proof using.
  intros Hfit. destruct (o_sizing s) eqn:Hs.
  - rewrite !pb_write_sizing by done. unfold zeros. by rewrite length_replicate.
  - destruct Hfit as [|Hfit]; [done|]. destruct (decide (b = [])) as [->|Hb]; [|by rewrite pb_write_cases].
    rewrite pb_write_nil, Nat.add_0_r, app_nil_r. destruct s as [o mx sz]. cbn [o_sizing o_bytes max_size] in *. subst sz.
    by destruct (Nat.ltb_spec mx (length o)); [lia|].
Qed.

Lemma strnlen_terminated (b : bytes) n k :
  Forall (λ c, c ≠ 0) b → (length b <= k)%nat → (0 < n)%nat → strnlen k (b ++ zeros n) = length b.
Proof using.
  intros Hb. revert k. induction Hb as [|c b Hc _ IH]; intros k Hk Hn; cbn in *.
  - destruct n as [|n]; [lia|]. by destruct k.
  - destruct k as [|k]; [lia|]. cbn [strnlen]. destruct (Z.eqb_spec c 0); [done|]. f_equal. apply IH; lia.
Qed.

Local Abbreviation small b := (Z.of_nat (length b) < 2 ^ 32).

(** What every type of submessage is shown to have. *)
Definition encodes (sp : spec) : Prop := ∀ m s,
  sp_ok sp m → Z.of_nat (length (sp_bytes sp m)) < 2 ^ 32 →
  op_encode (sp_ops sp) m s = pb_write s (sp_bytes sp m).

Section Field.
Context (f : field) (sub : option spec) (Hf : field_ok f) (Hsub : ∀ sp, sub = Some sp → encodes sp).

Lemma submessage_write (sp : spec) m s :
  encodes sp → sp_ok sp m → Z.of_nat (length (sp_bytes sp m)) < 2 ^ 32 →
  pb_encode_submessage s (sp_ops sp) m = pb_write s (string_bytes (sp_bytes sp m)).
Proof using.
  intros HE Hm Hl. unfold pb_encode_submessage, string_bytes. rewrite HE, pb_write_sizing by done.
  cbn [mbind option_bind o_bytes PB_OSTREAM_SIZING app]. set (b := sp_bytes sp m).
  assert (length (zeros (length b)) = length b) as -> by apply length_replicate.
  rewrite pb_encode_varint_write by (subst b; lia). rewrite <- pb_write_app.
  destruct (pb_write s (varint 9 _)) as [s1|] eqn:Hs; [|done]. cbn [mbind option_bind].
  apply pb_write_fits in Hs; [|apply varint_nonempty].
  rewrite HE by done. fold b.
  assert (pb_write (OStream [] (length b) false) b = Some (OStream b (length b) false)) as ->.
  { change (OStream [] (length b) false) with (pb_ostream_from_buffer (length b)).
    by rewrite pb_write_from_buffer, Nat.leb_refl. }
  cbn [mbind option_bind o_bytes]. rewrite Nat.eqb_refl. cbn [negb]. by apply sized_write.
Qed.

(** A number as the array encoder writes it, bools included. *)
Lemma number_write s v :
  packable (f_ltype f) = true → value_ok f sub v →
  (z ← int_of v; if is_fixed (f_ltype f) then pb_enc_fixed s f z else pb_enc_varint s f z)
  = pb_write s (value_bytes f sub v).
Proof using Hf.
  intros Hp Hv. destruct Hf as (_ & _ & _ & Hs). unfold value_ok, value_bytes in *.
  destruct (f_ltype f) eqn:Hlt, v as [z| | | | |]; try done; cbn [int_of mbind option_bind is_fixed].
  - unfold pb_enc_varint. rewrite Hs, Hlt. cbn [valid_int_size Nat.eqb orb negb].
    rewrite u64_small by lia. rewrite pb_encode_varint_write by lia. by rewrite varint_small by lia.
  - unfold pb_enc_varint. rewrite Hs, Hlt. cbn [negb]. apply pb_encode_varint_write, u64_range.
  - unfold pb_enc_varint. rewrite Hs, Hlt. cbn [negb]. apply int_width in Hs.
    apply pb_encode_varint_write. lia.
  - unfold pb_enc_varint. rewrite Hs, Hlt. cbn [negb]. apply int_width in Hs.
    apply pb_encode_varint_write. rewrite zigzag_value by lia. destruct (Z.ltb_spec z 0); lia.
  - unfold pb_enc_fixed. rewrite Hs. cbn [Nat.eqb]. unfold pb_encode_fixed32. by rewrite fixed32_bytes.
  - unfold pb_enc_fixed. rewrite Hs. cbn [Nat.eqb]. unfold pb_encode_fixed64. by rewrite fixed64_bytes.
Qed.

Lemma value_write s v :
  value_ok f sub v → small (value_bytes f sub v) →
  encode_basic_field s f (ops_of sub) v = pb_write s (basic_bytes f sub v).
Proof using Hf Hsub.
  intros Hv Hl. unfold encode_basic_field, pb_encode_tag_for_field, basic_bytes.
  rewrite tag_write by (done || apply wiretype_range). rewrite <- pb_write_app.
  destruct (pb_write s (tag_bytes f _)) as [s1|]; [|done]. cbn [mbind option_bind].
  destruct (packable (f_ltype f)) eqn:Hp.
  { rewrite <- number_write by done. unfold value_ok in Hv.
    destruct (f_ltype f) eqn:Hlt, v as [z| | | | |]; try done; cbn [int_of mbind option_bind is_fixed].
    destruct Hf as (_ & _ & _ & Hs). rewrite Hlt in Hs. unfold pb_enc_bool, pb_enc_varint. rewrite Hs, Hlt.
    cbn [valid_int_size Nat.eqb orb negb]. rewrite u64_small by lia. f_equal. by destruct Hv as [-> | ->]. }
  destruct Hf as (_ & Hd & _ & Hs). unfold value_ok, value_bytes in *.
  destruct (f_ltype f) eqn:Hlt; try done; destruct v as [z|size buf|buf|buf|m|]; try done.
  - destruct Hv as (Hsz & b & Hb & ->). unfold pb_enc_bytes.
    destruct (Nat.ltb_spec (data_size f - 2) size); [lia|]. rewrite take_app_length' by done.
    apply encode_string_bytes. lia.
  - destruct Hv as (b & Hb & HF & ->). unfold pb_enc_string. destruct (Nat.eqb_spec (data_size f) 0); [lia|].
    rewrite strnlen_terminated by (done || lia).
    rewrite app_nth2, Nat.sub_diag by lia. rewrite take_app_length.
    destruct (data_size f - length b)%nat eqn:Hn; [lia|]. cbn [zeros replicate nth Z.eqb negb].
    apply encode_string_bytes. lia.
  - destruct Hv as (sp & -> & Hm). cbn [ops_of fmap option_fmap option_map]. apply submessage_write; [by apply Hsub|done|].
    unfold string_bytes in Hl. rewrite length_app in Hl. lia.
  - unfold pb_enc_fixed_length_bytes. rewrite take_ge by lia. apply encode_string_bytes. lia.
Qed.

Lemma small_concat (ls : list bytes) : small (concat ls) → Forall (λ b, small b) ls.
Proof using. intros H. eapply Forall_impl; [apply length_concat_le|]. intros b Hb. cbn in *. lia. Qed.

Lemma items_small (g : value → bytes) vs :
  Forall (value_ok f sub) vs → small (concat (g <$> vs)) →
  Forall (λ v, value_ok f sub v ∧ small (g v)) vs.
Proof using.
  intros Hv Hl%small_concat. rewrite Forall_fmap in Hl. by apply Forall_and.
Qed.

Lemma packed_size_bytes vs :
  packable (f_ltype f) = true → Forall (value_ok f sub) vs →
  packed_size f vs = Some (length (concat (value_bytes f sub <$> vs))).
Proof using Hf.
  intros Hp Hv. unfold packed_size.
  assert (∀ n, (∀ v, value_ok f sub v → length (value_bytes f sub v) = n) →
    length (concat (value_bytes f sub <$> vs)) = n * length vs)%nat as Hfix.
  { intros n Hn. clear Hp. induction Hv as [|v vs Hv _ IH]; cbn [fmap list_fmap concat length]; [lia|].
    rewrite length_app, IH, (Hn v Hv). lia. }
  assert (is_fixed (f_ltype f) = false →
    (sizestream ← write_items (λ s v, z ← int_of v; pb_enc_varint s f z) vs PB_OSTREAM_SIZING;
     Some (length (o_bytes sizestream))) = Some (length (concat (value_bytes f sub <$> vs)))) as Hvar.
  { intros Hx. rewrite (write_items_bytes _ (value_bytes f sub)).
    - rewrite pb_write_sizing by done. cbn [mbind option_bind o_bytes PB_OSTREAM_SIZING app]. unfold zeros. by rewrite length_replicate.
    - eapply Forall_impl; [exact Hv|]. intros v Hok s. cbn beta. rewrite <- number_write by done. by rewrite Hx. }
  destruct (f_ltype f) eqn:Hlt; try done; try (by apply Hvar).
  - rewrite (Hfix 4%nat); [done|]. intros v. unfold value_ok, value_bytes. rewrite Hlt.
    by destruct v.
  - rewrite (Hfix 8%nat); [done|]. intros v. unfold value_ok, value_bytes. rewrite Hlt.
    by destruct v.
Qed.

Lemma array_write s count items vs :
  take count items = vs → length vs = count → (0 < count <= array_size f)%nat →
  Forall (value_ok f sub) vs → small (array_bytes f sub vs) →
  encode_array s f (ops_of sub) count items = pb_write s (array_bytes f sub vs).
Proof using Hf Hsub.
  intros Hvs Hlen Hc Hv Hl. unfold encode_array, array_bytes in *. rewrite Hvs.
  destruct (Nat.eqb_spec count 0); [lia|]. destruct (Nat.ltb_spec (array_size f) count); [lia|].
  destruct (packable (f_ltype f)) eqn:Hp.
  - rewrite tag_write by done. rewrite <- pb_write_app. destruct (pb_write s _) as [s1|]; [|done].
    cbn [mbind option_bind]. rewrite packed_size_bytes by done. cbn [mbind option_bind]. unfold string_bytes in *.
    rewrite !length_app in Hl. set (b := concat _) in *.
    rewrite pb_encode_varint_write by lia. rewrite <- pb_write_app.
    destruct (pb_write s1 (varint 9 _)) as [s2|]; [|done]. cbn [mbind option_bind].
    assert (write_items (λ s v, z ← int_of v;
      if is_fixed (f_ltype f) then pb_enc_fixed s f z else pb_enc_varint s f z) vs s2 = pb_write s2 b) as ->.
    { apply write_items_bytes. eapply Forall_impl; [exact Hv|]. intros v Hok s'. by apply number_write. }
    destruct (o_sizing s2) eqn:Hs; [|done]. rewrite !pb_write_sizing by done. unfold zeros. by rewrite length_replicate.
  - apply write_items_bytes. eapply Forall_impl; [by apply (items_small (basic_bytes f sub))|].
    intros v [Hok Hs] s'. apply value_write; [done|]. unfold basic_bytes in Hs. rewrite length_app in Hs. lia.
Qed.

(** The kind of member the field expects; callbacks have no functions. *)
Definition kind_ok f sl : Prop :=
  match f_atype f, f_htype f, sl with
  | AT_CALLBACK, _, Func c => c = Callback FuncNull null_arg
  | AT_STATIC, (HT_REQUIRED | HT_OPTIONAL | HT_SINGULAR), One _ _ => True
  | AT_STATIC, (HT_REPEATED | HT_FIXARRAY), Many _ _ => True
  | AT_STATIC, HT_ONEOF, Union _ _ => True
  | _, _, _ => False
  end.

Lemma slot_write callback s sl :
  kind_ok f sl → (emitted f sub sl = true → slot_ok f sub sl) →
  small (if emitted f sub sl then slot_bytes f sub sl else []) →
  encode_field false callback s f (ops_of sub) sl
  = pb_write s (if emitted f sub sl then slot_bytes f sub sl else []).
Proof using Hf Hsub.
  intros Hk Hok Hl. unfold kind_ok, emitted, slot_ok, slot_bytes, encode_field in *.
  assert (∀ v, value_ok f sub v → small (basic_bytes f sub v) →
    encode_basic_field s f (ops_of sub) v = pb_write s (basic_bytes f sub v)) as Hb.
  { intros v Hv Hs. apply value_write; [done|]. unfold basic_bytes in Hs. rewrite length_app in Hs. lia. }
  destruct (f_atype f) eqn:Ha.
  2:{ destruct sl as [| | |c]; try (by destruct (f_htype f)).
      assert (c = Callback FuncNull null_arg) as -> by (by destruct (f_htype f)).
      rewrite pb_write_nil. unfold encode_callback_field. cbn [funcs negb].
      by destruct (f_htype f), callback. }
  destruct (f_htype f) eqn:Hh, sl as [has v|count items|which v|c]; try done.
  - apply Hb; [|done]. by apply Hok.
  - destruct has; cbn [negb]; [|by rewrite pb_write_nil]. apply Hb; [by apply Hok|done].
  - unfold pb_check_proto3_default_value in *. rewrite Ha, Hh in *. cbv iota in *.
    match goal with |- context [negb (negb ?b)] => destruct b end; cbn [negb] in *; [by rewrite pb_write_nil|].
    apply Hb; [by apply Hok|done].
  - cbn [negb]. destruct (Nat.eqb_spec count 0) as [->|Hc]; cbn [negb] in *; [by rewrite pb_write_nil|].
    destruct (Hok eq_refl) as (vs & Hn & Hle & HF & ->). rewrite take_app_length' in * by done.
    apply array_write; [by rewrite take_app_length'|done|lia|done..].
  - cbn [negb]. destruct (Nat.eqb_spec (array_size f) 0) as [Hz|Hc]; cbn [negb] in *.
    { unfold encode_array. by rewrite Hz, Nat.eqb_refl, pb_write_nil. }
    destruct (Hok eq_refl) as (_ & Hn & HF). apply array_write; [by apply take_ge; lia|done|lia|done..].
  - destruct (which =? f_tag f); cbn [negb]; [|by rewrite pb_write_nil]. apply Hb; [by apply Hok|done].
Qed.
End Field.

(** * Induction over message types *)
Definition message_spec (callback : bool) l : spec :=
  Spec (message_ops_of None callback (with_ops l)) (fields_bytes l) (struct_ok l).

(** What a message has when its submessages have it, all well-formed descriptors have. *)
Lemma message_ind (Q : spec → Prop) :
  (∀ callback l, fields_ok l → Forall (λ x, ∀ sp, x.2 = Some sp → Q sp) l → Q (message_spec callback l)) →
  ∀ d, desc_ok d → Q (spec_of d).
Proof using.
  intros H d. induction d as [l def callback IH] using pb_msgdesc_nested_ind. intros (-> & Hl & Hd).
  apply (H callback (specs l) Hl). clear Hl. unfold specs. apply Forall_fmap.
  induction IH as [|[f [d|]] l Hx _ IHl]; [done| |]; destruct Hd as [Hd1 Hd2]; (constructor; [|by apply IHl]).
  - intros sp [= <-]. by apply Hx.
  - by intros sp [=].
Qed.

(** * Structures *)
Lemma member_count_lt (l : list (field * option message_ops)) i x :
  l !! i = Some x → (f_member x.1 < member_count l)%nat.
Proof using.
  revert i. induction l as [|y l IH]; intros [|i] Hx; try done.
  - injection Hx as ->. change (member_count (x :: l)) with (Nat.max (S (f_member x.1)) (member_count l)). lia.
  - change (member_count (y :: l)) with (Nat.max (S (f_member y.1)) (member_count l)). apply IH in Hx. lia.
Qed.

Lemma with_ops_lookup l i x : l !! i = Some x → with_ops l !! i = Some (x.1, ops_of x.2).
Proof using. intros Hx. unfold with_ops. by rewrite list_lookup_fmap, Hx. Qed.

Lemma zero_kind f sub :
  kind_ok f (match f_atype f with
             | AT_STATIC => zero_slot f (ops_of sub) | AT_CALLBACK => Func (Callback FuncNull null_arg)
             end).
Proof using.
  unfold kind_ok, zero_slot. by destruct (f_atype f), (f_htype f).
Qed.

(** The member of field [x] when memory is zero. *)
Lemma zero_member_kind l i x :
  fields_ok l → l !! i = Some x →
  kind_ok x.1 (zero_member (with_ops l) (f_member x.1)) ∧
  (f_atype x.1 = AT_STATIC → zero_member (with_ops l) (f_member x.1) = zero_slot x.1 (ops_of x.2)).
Proof using.
  intros (_ & _ & Hsh) Hx. unfold zero_member.
  destruct (first_such _ _) as [j|] eqn:Hj.
  - apply first_such_Some in Hj as [(y & Hy & Hm) _]. unfold with_ops in Hy.
    rewrite list_lookup_fmap in Hy. destruct (l !! j) as [z|] eqn:Hz; [|done]. injection Hy as <-.
    apply Nat.eqb_eq in Hm. cbn [fst] in Hm. cbn [mbind option_bind]. rewrite (with_ops_lookup _ _ _ Hz).
    destruct (decide (i = j)) as [<-|Hne].
    { assert (z = x) as -> by congruence. split; [apply zero_kind|]. by intros ->. }
    destruct (Hsh i j x z Hx Hz) as (H1 & H2 & H3 & H4); [done|done|].
    rewrite H4. unfold kind_ok, zero_slot. by rewrite H1, H2, H3.
  - pose proof (with_ops_lookup _ _ _ Hx) as Hx'. apply (proj1 (first_such_None _ _) Hj i) in Hx'.
    apply Nat.eqb_neq in Hx'. done.
Qed.

Lemma slot_ok_kind f sub sl : f_atype f = AT_STATIC → slot_ok f sub sl → kind_ok f sl.
Proof using. unfold slot_ok, kind_ok. intros ->. by destruct (f_htype f), sl. Qed.

Lemma emitted_static f sub sl : emitted f sub sl = true → f_atype f = AT_STATIC.
Proof using. unfold emitted. by destruct (f_atype f), (f_htype f). Qed.

Lemma writes_existsb l m i j x :
  l !! j = Some x → writes m i x = true → existsb (writes m i) l = true.
Proof using. intros Hx Hw. apply existsb_exists. exists x. split; [|done]. by apply list_elem_of_In, list_elem_of_lookup_2 with j. Qed.

(** What the fields find in a well-formed structure. *)
Lemma struct_field l m i x :
  fields_ok l → struct_ok l m → l !! i = Some x →
  ∃ sl, m !! f_member x.1 = Some sl ∧ kind_ok x.1 sl ∧ (emitted x.1 x.2 sl = true → slot_ok x.1 x.2 sl).
Proof using.
  intros Hl (Hn & HE & HZ) Hx. pose proof (with_ops_lookup _ _ _ Hx) as Hx'. apply member_count_lt in Hx'.
  cbn [fst] in Hx'. rewrite <- Hn in Hx'. destruct (lookup_lt_is_Some_2 m (f_member x.1) Hx') as [sl Hsl].
  exists sl. split; [done|]. rewrite Forall_lookup in HE.
  split; [|by apply (HE i x Hx)].
  destruct (existsb (writes m (f_member x.1)) l) eqn:Hw.
  - apply existsb_exists in Hw as (y & [j Hy]%list_elem_of_In%list_elem_of_lookup_1 & Hw).
    unfold writes in Hw. apply andb_true_iff in Hw as [Hm%Nat.eqb_eq Hw]. rewrite Hsl in Hw.
    pose proof (HE j y Hy sl) as HE'. rewrite Hm in HE'. specialize (HE' Hsl Hw).
    destruct (decide (i = j)) as [<-|Hne].
    { assert (y = x) as -> by congruence. apply slot_ok_kind with x.2; [by eapply emitted_static|done]. }
    destruct Hl as (_ & _ & Hsh). destruct (Hsh i j x y Hx Hy) as (H1 & H2 & H3 & H4); [done|done|].
    apply slot_ok_kind in HE'; [|done]. unfold kind_ok in *. by rewrite H1, H2, H3, H4 in *.
  - rewrite (HZ _ Hx' Hw) in Hsl. injection Hsl as <-. by apply (zero_member_kind l i x).
Qed.

(** * Messages are encoded as [message_bytes] *)
Lemma fields_write l m : 
  fields_ok l → Forall (λ x, ∀ sp, x.2 = Some sp → encodes sp) l → struct_ok l m →
  small (fields_bytes l m) →
  ∀ callback s, encode_fields false callback (with_ops l) m s = pb_write s (fields_bytes l m).
Proof using.
  intros Hl HE Hm Hs callback.
  assert (∀ k, Forall (λ x, ∃ sl, m !! f_member x.1 = Some sl ∧ kind_ok x.1 sl ∧
    (emitted x.1 x.2 sl = true → slot_ok x.1 x.2 sl)) (drop k l)) as HF.
  { intros k. apply Forall_drop, Forall_lookup. intros i x Hx. by eapply struct_field. }
  specialize (HF O). cbn [drop] in HF. destruct Hl as (Hok & _ & _). clear Hm.
  induction l as [|x l IH]; intros s; [by rewrite pb_write_nil|].
  apply Forall_cons in HE as [HEx HE]. apply Forall_cons in Hok as [Hokx Hok]. 
  apply Forall_cons in HF as [(sl & Hsl & Hk & Hsok) HF].
  unfold fields_bytes in *. cbn [fmap list_fmap concat] in *. rewrite length_app in Hs.
  destruct x as [f sub]. cbn [fst snd] in *. unfold with_ops. cbn [fmap list_fmap encode_fields fst snd].
  rewrite Hsl. cbn [mbind option_bind]. unfold field_bytes at 1 in Hs. unfold field_bytes at 1. rewrite Hsl in *.
  rewrite slot_write by (done || lia). rewrite <- pb_write_app.
  destruct (pb_write s _) as [s1|]; [|done]. cbn [mbind option_bind]. apply IH; [done|done|lia|done].
Qed.

Lemma message_encodes d : desc_ok d → encodes (spec_of d).
Proof using.
  apply message_ind. intros callback l Hl Hsub m s Hm Hs. by apply fields_write.
Qed.

(** * Reading consumes input *)
Section Shorter.
Implicit Types (o : option message_ops) (buf rest : bytes).

Lemma substream_shorter buf b rest :
  pb_make_string_substream buf = Some (b, rest) → (length rest <= length buf)%nat.
Proof using.
  unfold pb_make_string_substream. intros H. unbind. apply pb_decode_varint32_shorter in H.
  rewrite length_drop. lia.
Qed.

Lemma pb_dec_varint_shorter f buf z rest :
  pb_dec_varint f buf = Some (z, rest) → (length rest <= length buf)%nat.
Proof using.
  unfold pb_dec_varint, pb_decode_svarint, pb_decode_varint. intros H.
  destruct (f_ltype f); cbv zeta in H; unbind;
    match goal with H : decode_varint_loop _ _ _ = _ |- _ => apply decode_varint_loop_shorter in H; lia end.
Qed.

Lemma basic_field_shorter wt f o v buf v' rest :
  decode_basic_field wt f o v buf = Some (v', rest) → (length rest <= length buf)%nat.
Proof using.
  unfold decode_basic_field, pb_decode_bool, pb_decode_fixed32, pb_decode_fixed64, pb_dec_bytes, pb_dec_string,
    pb_dec_fixed_length_bytes, pb_dec_submessage. intros H.
  destruct (f_ltype f); cbv zeta in H; unbind;
    repeat match goal with
    | H : pb_decode_varint32 _ = _ |- _ => apply pb_decode_varint32_shorter in H
    | H : pb_read _ _ = _ |- _ => apply pb_read_shorter in H
    | H : pb_dec_varint _ _ = _ |- _ => apply pb_dec_varint_shorter in H
    | H : pb_make_string_substream _ = _ |- _ => apply substream_shorter in H
    end; lia.
Qed.

Lemma any_field_shorter callback wt f o sl n buf sl' n' rest :
  decode_field callback wt f o sl n buf = Some (sl', n', rest) → (length rest <= length buf)%nat.
Proof using.
  assert (∀ count items count' items' rest', decode_repeated wt f o count items buf = Some (count', items', rest') →
    (length rest' <= length buf)%nat) as Hrep.
  { unfold decode_repeated. intros count items count' items' rest' H. unbind.
    - by eapply substream_shorter.
    - by eapply basic_field_shorter. }
  unfold decode_field, decode_static_field, decode_callback_field. intros H.
  destruct (f_atype f); [destruct (f_htype f)|]; destruct sl; try done; unbind;
    solve [ by eapply basic_field_shorter | by eapply Hrep | by eapply substream_shorter
          | by eapply pb_skip_field_shorter | by eapply read_raw_value_shorter ].
Qed.

(** The fuel [pb_decode_inner] passes is enough: more changes nothing. *)
Lemma inner_loop_fuel callback flags (l : list (field * option message_ops)) k1 k2 lo m buf :
  (length buf <= k1)%nat → (length buf <= k2)%nat →
  inner_loop k1 callback flags l lo m buf = inner_loop k2 callback flags l lo m buf.
Proof using.
  revert k2 lo m buf. induction k1 as [|k1 IH]; intros k2 lo m buf H1 H2.
  { destruct buf; cbn in H1; [|lia]. by destruct k2. }
  destruct buf as [|b buf]; [by destruct k2|]. destruct k2 as [|k2]; [cbn in H2; lia|].
  cbn [inner_loop]. destruct (pb_decode_tag (b :: buf)) as [[[wt tag] s1]|] eqn:Ht; [|done].
  apply pb_decode_tag_shorter in Ht. cbn [mbind option_bind]. cbn in H1, H2, Ht.
  destruct (tag =? 0); [done|]. destruct (find_by_tag l tag) as [i|].
  - destruct (l !! i) as [[f o]|]; [|done]. cbn [mbind option_bind].
    destruct (track_fixed i f lo) as [lo1|]; [|done]. cbn [mbind option_bind].
    destruct (m !! f_member f) as [sl|]; [|done]. cbn [mbind option_bind].
    destruct (decode_field callback wt f o sl _ s1) as [[[sl' n'] s2]|] eqn:Hf; [|done]. cbn [mbind option_bind].
    apply any_field_shorter in Hf. apply IH; lia.
  - destruct (pb_skip_field wt s1) as [s2|] eqn:Hs; [|done]. cbn [mbind option_bind].
    apply pb_skip_field_shorter in Hs. apply IH; lia.
Qed.

Lemma inner_loop_shorter callback flags (l : list (field * option message_ops)) k lo m buf m' rest :
  inner_loop k callback flags l lo m buf = Some (m', rest) → (length rest <= length buf)%nat.
Proof using.
  assert (∀ lo m rest0, finish l lo m rest0 = Some (m', rest) → rest = rest0) as Hfin.
  { unfold finish. intros lo0 m0 rest0 H. by unbind. }
  revert lo m buf. induction k as [|k IH]; intros lo m buf H;
    (destruct buf as [|b buf]; cbn [inner_loop] in H; [by apply Hfin in H as ->|]); [done|].
  apply bind_Some in H as ([[wt tag] s1] & Ht & H). apply pb_decode_tag_shorter in Ht.
  destruct (tag =? 0); [destruct (negb _); [apply Hfin in H as ->; lia|done]|].
  destruct (find_by_tag l tag) as [i|].
  - apply bind_Some in H as ([f o] & _ & H). apply bind_Some in H as (lo1 & _ & H). cbv zeta in H.
    apply bind_Some in H as (sl & _ & H). apply bind_Some in H as ([[sl' n'] s2] & Hd & H).
    apply any_field_shorter in Hd. apply IH in H. lia.
  - apply bind_Some in H as (s2 & Hs & H). apply pb_skip_field_shorter in Hs. apply IH in H. lia.
Qed.

Lemma ops_shorter d flags m buf m' rest :
  op_decode (ops (Mem := Mem) d) flags m buf = Some (m', rest) → (length rest <= length buf)%nat.
Proof using.
  destruct d as [l def callback]. cbn [ops op_decode message_ops_of]. unfold pb_decode_inner.
  intros (m0 & _ & H)%bind_Some. by apply inner_loop_shorter in H.
Qed.
End Shorter.

(** * What the encoder wrote, the decoder reads back *)
Lemma lor_byte x y n : 0 <= x < 2 ^ n → 0 <= n → Z.lor x (Z.shiftl y n) = x + 2 ^ n * y.
Proof using. intros Hx Hn. rewrite lor_shiftl_add by lia. lia. Qed.

(** Bytes put together with shifts, innermost first. *)
Ltac lor_bytes :=
  repeat match goal with |- context [?x mod 256] =>
    let b := fresh "b" in pose proof (Z.mod_pos_bound x 256 eq_refl); set (b := x mod 256) in * end;
  repeat match goal with |- context [Z.lor ?x (Z.shiftl ?y ?n)] =>
    lazymatch x with context [Z.lor] => fail | _ => rewrite (lor_byte x y n) by lia end end.

Lemma read_fixed32 z rest :
  0 <= z < 2 ^ 32 → pb_decode_fixed32 (le_bytes 4 z ++ rest) = Some (z, rest).
Proof using.
  intros Hz. unfold pb_decode_fixed32. pose proof (pb_read_app (le_bytes 4 z) rest) as Hr.
  rewrite le_bytes_length in Hr. rewrite Hr. cbn [mbind option_bind]. do 2 f_equal.
  pose proof (le_value_bytes 4 z Hz) as E. cbn [le_bytes le_value] in E. cbn [le_bytes nth]. lor_bytes. lia.
Qed.

Lemma read_fixed64 z rest :
  0 <= z < 2 ^ 64 → pb_decode_fixed64 (le_bytes 8 z ++ rest) = Some (z, rest).
Proof using.
  intros Hz. unfold pb_decode_fixed64. pose proof (pb_read_app (le_bytes 8 z) rest) as Hr.
  rewrite le_bytes_length in Hr. rewrite Hr. cbn [mbind option_bind]. do 2 f_equal.
  pose proof (le_value_bytes 8 z Hz) as E. cbn [le_bytes le_value] in E. cbn [le_bytes nth]. lor_bytes. lia.
Qed.

Lemma read_string_length b rest :
  small b → pb_decode_varint32 (string_bytes b ++ rest) = Some (Z.of_nat (length b), b ++ rest).
Proof using.
  intros Hb. unfold string_bytes. rewrite <- app_assoc. apply pb_decode_varint32_varint. lia.
Qed.

Lemma read_substream b rest :
  small b → pb_make_string_substream (string_bytes b ++ rest) = Some (b, rest).
Proof using.
  intros Hb. unfold pb_make_string_substream. rewrite read_string_length by done. cbn [mbind option_bind].
  rewrite length_app, Nat2Z.id. destruct (Z.ltb_spec (Z.of_nat (length b + length rest)) (Z.of_nat (length b))); [lia|].
  by rewrite take_app_length, drop_app_length.
Qed.

(** What every type of submessage is shown to have, of the decoder. *)
Definition decodes (sp : spec) : Prop :=
  op_set_defaults (sp_ops sp) (op_zero (sp_ops sp)) = Some (op_zero (sp_ops sp)) ∧
  ∀ flags m, sp_ok sp m → small (sp_bytes sp m) →
    op_decode (sp_ops sp) flags (op_zero (sp_ops sp)) (sp_bytes sp m) = Some (m, []).

Lemma sint_u64 n z : (n <= 8)%nat → sint n (u64 z) = sint n z.
Proof using.
  intros Hn. unfold sint, u64. cbv zeta. f_equal. rewrite <- (Zplus_mod_idemp_l (z mod 2 ^ 64)), <- (Zplus_mod_idemp_l z).
  f_equal. f_equal. apply Z.mod_mod_divide.
  exists (2 ^ (64 - 8 * Z.of_nat n)). rewrite <- Z.pow_add_r by lia. f_equal. lia.
Qed.

Section ReadField.
Context (f : field) (sub : option spec) (Hf : field_ok f) (Hsub : ∀ sp, sub = Some sp → decodes sp).

Lemma number_read wt v rest :
  packable (f_ltype f) = true → wt = wiretype (f_ltype f) ∨ wt = PB_WT_PACKED → value_ok f sub v →
  ∀ o old, decode_basic_field wt f o old (value_bytes f sub v ++ rest) = Some (v, rest).
Proof using Hf.
  intros Hp Hw Hv o old. destruct Hf as (_ & _ & _ & Hs).
  unfold decode_basic_field. cbv zeta.
  assert ((wt =? wiretype (f_ltype f)) || (wt =? PB_WT_PACKED) = true) as Hpk.
  { destruct Hw as [-> | ->]; [by rewrite Z.eqb_refl|apply orb_true_r]. }
  clear Hw. unfold value_ok, value_bytes in *.
  destruct (f_ltype f) eqn:Hlt, v as [z| | | | |]; try done; cbn [wiretype] in Hpk; rewrite Hpk.
  - unfold pb_decode_bool. pose proof (pb_decode_varint32_varint z rest) as E.
    rewrite varint_small in E by lia. rewrite E by lia. cbn [mbind option_bind]. by destruct Hv as [-> | ->].
  - unfold pb_dec_varint. rewrite Hlt. rewrite pb_decode_varint_varint by apply u64_range.
    cbn [mbind option_bind]. rewrite Hs. cbn [negb].
    assert ((if (data_size f =? 8)%nat then sint 8 (u64 z) else sint 4 (u64 z)) = z) as ->.
    { destruct (valid_int_size_cases _ Hs) as [Hd|[Hd|[Hd|Hd]]]; rewrite Hd in *;
        cbn [Nat.eqb]; rewrite sint_u64 by lia; apply sint_small; (lia || by (cbn in Hv |- *; lia)). }
    rewrite sint_small, Z.eqb_refl; [done|apply int_width in Hs; lia|done].
  - unfold pb_dec_varint. rewrite Hlt, Hs. pose proof (int_width _ Hs).
    rewrite pb_decode_varint_varint by lia. cbn [mbind option_bind negb].
    by rewrite Z.mod_small, Z.eqb_refl by lia.
  - unfold pb_dec_varint. rewrite Hlt, Hs. pose proof (int_width _ Hs).
    rewrite pb_decode_svarint_zigzag by lia. cbn [mbind option_bind negb].
    by rewrite sint_small, Z.eqb_refl by (done || lia).
  - rewrite read_fixed32; [done|]. by rewrite Hs in Hv.
  - rewrite read_fixed64; [done|]. by rewrite Hs in Hv.
Qed.

Lemma value_read wt v rest :
  wt = wiretype (f_ltype f) → value_ok f sub v → small (value_bytes f sub v) →
  decode_basic_field wt f (ops_of sub) (zero_of f sub) (value_bytes f sub v ++ rest) = Some (v, rest).
Proof using Hf Hsub.
  intros -> Hv Hl. destruct (packable (f_ltype f)) eqn:Hp; [apply number_read; by auto|].
  destruct Hf as (_ & Hd & _ & Hs). unfold decode_basic_field, value_ok, value_bytes, zero_of, zero_value in *.
  destruct (f_ltype f) eqn:Hlt; try done; destruct v as [z|size buf|buf|buf|m|]; try done;
    cbn [wiretype]; rewrite Z.eqb_refl.
  - destruct Hv as (Hsz & b & Hb & ->). rewrite take_app_length' in * by done. unfold pb_dec_bytes.
    rewrite read_string_length by lia. cbn [mbind option_bind]. rewrite Nat2Z.id.
    unfold PB_SIZE_MAX. destruct (Z.ltb_spec (2 ^ 16 - 1) (Z.of_nat (length b))); [lia|].
    destruct (Z.ltb_spec (Z.of_nat (data_size f)) (Z.of_nat (length b) + 2)); [lia|].
    rewrite pb_read_app. cbn [mbind option_bind]. unfold splice, zeros. cbn [take app]. rewrite drop_replicate.
    by rewrite Hb.
  - destruct Hv as (b & Hb & HF & ->). rewrite strnlen_terminated in * by (done || lia).
    rewrite take_app_length in *. unfold pb_dec_string. rewrite read_string_length by lia. cbn [mbind option_bind].
    rewrite Nat2Z.id. destruct (Z.eqb_spec (Z.of_nat (length b)) (2 ^ 32 - 1)); [lia|].
    destruct (Z.ltb_spec (Z.of_nat (data_size f)) (Z.of_nat (length b) + 1)); [lia|].
    rewrite pb_read_app. cbn [mbind option_bind]. do 3 f_equal. unfold splice, zeros. cbn [take app plus length].
    rewrite take_replicate, Nat.min_l, drop_replicate by lia.
    rewrite take_0. cbn [app]. f_equal. rewrite drop_app_length' by (rewrite length_replicate; lia).
    by replace (data_size f - length b)%nat with (S (data_size f - (length b + 1))) by lia.
  - destruct Hv as (sp & Esub & Hm). destruct (Hsub sp Esub) as [_ HD]. unfold ops_of. rewrite Esub in *.
    cbn [fmap option_fmap option_map]. unfold pb_dec_submessage.
    assert (small (sp_bytes sp m)) as Hsm by (unfold string_bytes in Hl; rewrite length_app in Hl; lia).
    rewrite read_substream by done. cbn [mbind option_bind].
    by rewrite HD.
  - unfold pb_dec_fixed_length_bytes.
    rewrite read_string_length by lia. cbn [mbind option_bind].
    unfold PB_SIZE_MAX. destruct (Z.ltb_spec (2 ^ 16 - 1) (Z.of_nat (length buf))); [lia|].
    destruct (Z.eqb_spec (Z.of_nat (length buf)) 0); [lia|]. rewrite Hv, Z.eqb_refl. cbn [negb].
    by rewrite <- Hv, pb_read_app.
Qed.

Lemma packable_nonempty v : packable (f_ltype f) = true → value_ok f sub v → value_bytes f sub v ≠ [].
Proof using.
  unfold value_ok, value_bytes. destruct (f_ltype f), v; try done; intros _ _; apply varint_nonempty.
Qed.

(** The loop over a packed array. *)
Lemma packed_read vs pre room post :
  packable (f_ltype f) = true → Forall (value_ok f sub) vs → (length vs <= room)%nat → (length vs <= length post)%nat →
  decode_packed room f (ops_of sub) (length pre) (pre ++ post) (concat (value_bytes f sub <$> vs))
  = Some (length pre + length vs, pre ++ vs ++ drop (length vs) post)%nat.
Proof using Hf.
  intros Hp Hv. revert pre room post. induction Hv as [|v vs Hv Hvs IH]; intros pre room post Hroom Hpost.
  { cbn. destruct room; by rewrite Nat.add_0_r, drop_0. }
  destruct room as [|room]; [cbn in Hroom; lia|]. destruct post as [|old post]; [cbn in Hpost; lia|].
  cbn [fmap list_fmap concat]. pose proof (packable_nonempty v Hp Hv) as Hne.
  pose proof (number_read PB_WT_PACKED v (concat (value_bytes f sub <$> vs)) Hp (or_intror eq_refl) Hv (ops_of sub) old) as Hr.
  destruct (value_bytes f sub v) as [|b bs]; [done|]. cbn [decode_packed app].
  rewrite list_lookup_middle by done. cbn [mbind option_bind]. cbn [app] in Hr. rewrite Hr. cbn [mbind option_bind].
  replace (<[length pre:=v]> (pre ++ old :: post)) with ((pre ++ [v]) ++ post).
  2:{ replace (length pre) with (length pre + 0)%nat at 1 by lia. rewrite insert_app_r. by rewrite <- app_assoc. }
  replace (S (length pre)) with (length (pre ++ [v])) by (rewrite length_app; cbn; lia).
  rewrite IH by (cbn in *; lia). rewrite length_app, <- app_assoc. cbn [length drop app].
  by replace (length pre + 1 + length vs)%nat with (length pre + S (length vs))%nat by lia.
Qed.
End ReadField.

Lemma tag_read f wt rest :
  field_ok f → 0 <= wt < 8 → pb_decode_tag (tag_bytes f wt ++ rest) = Some (wt, f_tag f, rest).
Proof using.
  intros [Ht _] Hw. unfold pb_decode_tag, tag_bytes.
  rewrite pb_decode_varint32_varint by lia. cbn [mbind option_bind].
  rewrite (Z.land_ones _ 3) by lia. rewrite Z.shiftr_div_pow2 by lia. change (2 ^ 3) with 8.
  replace (8 * f_tag f + wt) with (wt + f_tag f * 8) by lia.
  by rewrite Z.mod_add, Z.div_add, Z.mod_small, Z.div_small by lia.
Qed.

Section ReadMessage.
Context (callback : bool) (flags : Z) (l : list (field * option spec)).
Context (Hl : fields_ok l).
Context (Hsub : Forall (λ x, ∀ sp, x.2 = Some sp → decodes sp) l).

Definition run (lo : locals) m (buf : bytes) : option (list slot * bytes) :=
  inner_loop (length buf) callback flags (with_ops l) lo m buf.

Section At.
Context (i : nat) (f : field) (sub : option spec) (Hi : l !! i = Some (f, sub)).

Definition required_before : nat := count_required (take i (with_ops l)).

Lemma at_field_ok : field_ok f.
Proof using Hi Hl. destruct Hl as (H & _). rewrite Forall_lookup in H. exact (H i _ Hi). Qed.

Lemma at_sub : ∀ sp, sub = Some sp → decodes sp.
Proof using Hi Hsub. rewrite Forall_lookup in Hsub. exact (Hsub i _ Hi). Qed.

Lemma at_find : find_by_tag (with_ops l) (f_tag f) = Some i.
Proof using Hi Hl.
  destruct Hl as (_ & HD & _). apply first_such_Some. split.
  - exists (f, ops_of sub). split; [by apply with_ops_lookup in Hi|apply Z.eqb_refl].
  - intros j [g o] Hj Hg. unfold with_ops in Hg. rewrite list_lookup_fmap in Hg.
    destruct (l !! j) as [[g' sub']|] eqn:Hlj; [|done]. injection Hg as -> <-. cbn. apply Z.eqb_neq. intros Heq.
    assert (j = i); [|lia]. apply (NoDup_lookup _ j i (f_tag f) HD); rewrite list_lookup_fmap.
    + rewrite Hlj. cbn. by rewrite Heq.
    + by rewrite Hi.
Qed.

(** One turn of the loop. *)
Lemma run_one lo lo1 m sl sl' wt (b : bytes) n rest :
  track_fixed i f lo = Some lo1 → m !! f_member f = Some sl → 0 <= wt < 8 →
  let lo2 := mark_seen required_before f lo1 in
  decode_field callback wt f (ops_of sub) sl (fixed_count_size lo2) (b ++ rest) = Some (sl', n, rest) →
  run lo m (tag_bytes f wt ++ b ++ rest) =
  run (Locals (fixed_count_field lo2) n (fixed_count_total_size lo2) (fields_seen lo2)) (<[f_member f := sl']> m) rest.
Proof using Hi Hl.
  intros Ht Hm Hw lo2 Hd. pose proof at_field_ok as Hf. pose proof (tag_read f wt (b ++ rest) Hf Hw) as Htag.
  pose proof (pb_decode_tag_shorter _ _ _ _ Htag) as Hlen. unfold run.
  destruct (tag_bytes f wt ++ b ++ rest) as [|c buf] eqn:Eb; [cbn in Hlen; lia|].
  cbn [length inner_loop]. rewrite Htag. cbn [mbind option_bind].
  destruct Hf as [Hf0 _]. destruct (Z.eqb_spec (f_tag f) 0); [lia|].
  rewrite at_find, (with_ops_lookup _ _ _ Hi). cbn [mbind option_bind fst snd]. rewrite Ht. cbn [mbind option_bind].
  cbv zeta. fold required_before. fold lo2. rewrite Hm. cbn [mbind option_bind]. rewrite Hd. cbn [mbind option_bind]. apply inner_loop_fuel; [|done].
  rewrite length_app in Hlen. cbn in Hlen. lia.
Qed.

Lemma run_same lo m sl sl' wt (b : bytes) rest :
  f_htype f ≠ HT_FIXARRAY → m !! f_member f = Some sl → 0 <= wt < 8 →
  (∀ n, decode_field callback wt f (ops_of sub) sl n (b ++ rest) = Some (sl', n, rest)) →
  run lo m (tag_bytes f wt ++ b ++ rest) = run (mark_seen required_before f lo) (<[f_member f := sl']> m) rest.
Proof using Hi Hl.
  intros Hh Hm Hw Hd. rewrite (run_one lo lo m sl sl' wt b (fixed_count_size (mark_seen required_before f lo)) rest); [|by unfold track_fixed; destruct (f_htype f)|done..].
  by destruct (mark_seen required_before f lo).
Qed.

(** A field that is one value. *)
Lemma run_basic lo m sl rest :
  f_htype f ≠ HT_REPEATED → f_htype f ≠ HT_FIXARRAY →
  f_atype f = AT_STATIC → slot_ok f sub sl → emitted f sub sl = true →
  small (slot_bytes f sub sl) → m !! f_member f = Some (zero_slot f (ops_of sub)) →
  run lo m (slot_bytes f sub sl ++ rest) = run (mark_seen required_before f lo) (<[f_member f := sl]> m) rest.
Proof using Hi Hl Hsub.
  intros Hh1 Hh2 Ha Hok He Hs Hm. pose proof at_field_ok as Hf. pose proof at_sub as Hsp.
  assert (∀ v, value_ok f sub v → small (basic_bytes f sub v) →
    decode_basic_field (wiretype (f_ltype f)) f (ops_of sub) (zero_of f sub) (value_bytes f sub v ++ rest)
    = Some (v, rest)) as Hv.
  { intros v Hv Hb. apply value_read; try done. unfold basic_bytes in Hb. rewrite length_app in Hb. lia. }
  unfold slot_ok, slot_bytes, emitted, zero_slot in *. rewrite Ha in He.
  destruct (f_htype f) eqn:Hh; try done; destruct sl as [has v|n items|which v|c]; try done;
    unfold basic_bytes; rewrite <- app_assoc.
  - destruct Hok as [-> Hok]. eapply run_same; [by rewrite Hh|exact Hm|apply wiretype_range|].
    intros n. unfold decode_field, decode_static_field. rewrite Ha, Hh. by rewrite Hv.
  - rewrite He. eapply run_same; [by rewrite Hh|exact Hm|apply wiretype_range|].
    intros n. unfold decode_field, decode_static_field. rewrite Ha, Hh. by rewrite Hv.
  - destruct Hok as [-> Hok]. eapply run_same; [by rewrite Hh|exact Hm|apply wiretype_range|].
    intros n. unfold decode_field, decode_static_field. rewrite Ha, Hh. by rewrite Hv.
  - apply Z.eqb_eq in He as ->. eapply run_same; [by rewrite Hh|exact Hm|apply wiretype_range|].
    intros n. unfold decode_field, decode_static_field. rewrite Ha, Hh.
    assert (union_value f (ops_of sub) 0 VZero = Some (zero_of f sub)) as ->.
    { unfold union_value, zero_of, zero_value. destruct Hf as [Htag _]. destruct (Z.eqb_spec 0 (f_tag f)); [lia|].
      destruct (f_ltype f); try done. destruct sub as [sp|] eqn:Es; [|done]. cbn [ops_of fmap option_fmap option_map].
      destruct (Hsp sp eq_refl) as [HZ _]. rewrite HZ. by destruct (op_needs_init _). }
    cbn [mbind option_bind]. by rewrite Hv.
Qed.

(** One item of an unpacked array. *)
Lemma repeated_item pre v post rest :
  (packable (f_ltype f) = false) → value_ok f sub v → small (value_bytes f sub v) →
  (length pre < array_size f)%nat →
  decode_repeated (wiretype (f_ltype f)) f (ops_of sub) (length pre) (pre ++ zero_of f sub :: post)
    (value_bytes f sub v ++ rest) = Some (S (length pre), (pre ++ [v]) ++ post, rest).
Proof using Hi Hl Hsub.
  intros Hp Hv Hs Hn. pose proof at_field_ok as Hf. pose proof at_sub as Hsp. unfold decode_repeated.
  rewrite Hp, andb_false_r. destruct (Nat.leb_spec (array_size f) (length pre)); [lia|].
  rewrite list_lookup_middle by done. cbn [mbind option_bind]. rewrite value_read by done. cbn [mbind option_bind].
  replace (length pre) with (length pre + 0)%nat at 2 by lia. rewrite insert_app_r. by rewrite <- app_assoc.
Qed.

(** A packed array. *)
Lemma repeated_packed vs rest :
  packable (f_ltype f) = true → Forall (value_ok f sub) vs → (length vs <= array_size f)%nat →
  small (string_bytes (concat (value_bytes f sub <$> vs))) →
  decode_repeated PB_WT_STRING f (ops_of sub) 0 (replicate (array_size f) (zero_of f sub))
    (string_bytes (concat (value_bytes f sub <$> vs)) ++ rest)
  = Some (length vs, vs ++ replicate (array_size f - length vs) (zero_of f sub), rest).
Proof using Hi Hl.
  intros Hp Hv Hn Hs. pose proof at_field_ok as Hf. unfold decode_repeated. rewrite Hp. cbn [andb Z.eqb PB_WT_STRING].
  rewrite read_substream by (unfold string_bytes in Hs; rewrite length_app in Hs; lia).
  cbn [mbind option_bind]. rewrite Nat.sub_0_r.
  pose proof (packed_read f sub Hf vs [] (array_size f) (replicate (array_size f) (zero_of f sub)) Hp Hv Hn) as Hr.
  cbn [length app plus] in Hr. rewrite length_replicate in Hr. rewrite Hr by done. cbn [mbind option_bind].
  by rewrite drop_replicate.
Qed.

Lemma basic_cons (v : value) vs rest :
  concat (basic_bytes f sub <$> v :: vs) ++ rest =
  tag_bytes f (wiretype (f_ltype f)) ++ value_bytes f sub v ++ concat (basic_bytes f sub <$> vs) ++ rest.
Proof using. cbn [fmap list_fmap concat]. unfold basic_bytes at 1. by rewrite <- !app_assoc. Qed.

Lemma basic_small v vs :
  small (concat (basic_bytes f sub <$> v :: vs)) →
  small (value_bytes f sub v) ∧ small (concat (basic_bytes f sub <$> vs)).
Proof using.
  cbn [fmap list_fmap concat]. unfold basic_bytes at 1. rewrite !length_app. lia.
Qed.

(** The items of an unpacked array, one turn of the loop each. *)
Lemma run_items vs lo rest :
  f_htype f = HT_REPEATED → f_atype f = AT_STATIC → packable (f_ltype f) = false →
  Forall (value_ok f sub) vs → small (concat (basic_bytes f sub <$> vs)) →
  ∀ pre k m, m !! f_member f = Some (Many (length pre) (pre ++ replicate k (zero_of f sub))) →
  (length vs <= k)%nat → (length pre + k = array_size f)%nat →
  run lo m (concat (basic_bytes f sub <$> vs) ++ rest) =
  run lo (<[f_member f := Many (length pre + length vs) (pre ++ vs ++ replicate (k - length vs) (zero_of f sub))]> m) rest.
Proof using Hi Hl Hsub.
  intros Hh Ha Hp Hv. induction Hv as [|v vs Hv _ IH]; intros Hs pre k m Hm Hk Hn.
  { cbn [length]. rewrite Nat.add_0_r, Nat.sub_0_r. cbn [app fmap list_fmap concat]. by rewrite list_insert_id. }
  destruct k as [|k]; [cbn in Hk; lia|]. cbn [replicate] in Hm. apply basic_small in Hs as [Hs1 Hs2].
  rewrite basic_cons.
  erewrite (run_same lo m _ (Many (S (length pre)) ((pre ++ [v]) ++ replicate k (zero_of f sub)))); 
    [|by rewrite Hh|exact Hm|apply wiretype_range|].
  2:{ intros n. unfold decode_field, decode_static_field. rewrite Ha, Hh. by rewrite repeated_item by (done || lia). }
  assert (mark_seen required_before f lo = lo) as -> by (unfold mark_seen; by rewrite Hh).
  replace (S (length pre)) with (length (pre ++ [v])) by (rewrite length_app; cbn; lia).
  rewrite (IH Hs2 (pre ++ [v]) k); [|apply list_lookup_insert_eq; by eapply lookup_lt_Some|cbn in Hk; lia|rewrite length_app; cbn; lia].
  rewrite list_insert_insert_eq. rewrite length_app, <- !app_assoc. cbn [length app].
  by replace (length pre + 1 + length vs)%nat with (length pre + S (length vs))%nat by lia.
Qed.

Lemma run_repeated lo m sl rest :
  f_htype f = HT_REPEATED → f_atype f = AT_STATIC → slot_ok f sub sl → emitted f sub sl = true →
  small (slot_bytes f sub sl) → m !! f_member f = Some (zero_slot f (ops_of sub)) →
  run lo m (slot_bytes f sub sl ++ rest) = run (mark_seen required_before f lo) (<[f_member f := sl]> m) rest.
Proof using Hi Hl Hsub.
  intros Hh Ha Hok _ Hs Hm. unfold slot_ok, slot_bytes, zero_slot in *. rewrite Hh in *.
  destruct sl as [|count items| |]; try done. destruct Hok as (vs & Hc & Hle & Hv & ->).
  rewrite take_app_length' in * by done. unfold array_bytes in *. destruct (packable (f_ltype f)) eqn:Hp.
  - rewrite <- app_assoc. apply (run_same lo m (Many 0 (replicate (array_size f) (zero_of f sub)))); [by rewrite Hh|exact Hm|done|].
    intros n. unfold decode_field, decode_static_field. rewrite Ha, Hh.
    rewrite repeated_packed; [|done|done|lia|rewrite length_app in Hs; lia]. cbn [mbind option_bind]. by rewrite Hc.
  - rewrite (run_items vs lo rest Hh Ha Hp Hv Hs [] (array_size f)) by (done || cbn; lia).
    cbn [length plus app]. rewrite Hc. unfold mark_seen. by rewrite Hh.
Qed.

(** Tracking a fixed-length array from its first item on. *)
Definition tracked (n : nat) (lo : locals) : locals := Locals (Some i) n (array_size f) (fields_seen lo).

Lemma run_tracked lo m wt (b : bytes) :
  f_htype f = HT_FIXARRAY → f_atype f = AT_STATIC → fixed_count_done lo = true → fixed_count_field lo ≠ Some i → 0 <= wt < 8 →
  run lo m (tag_bytes f wt ++ b) = run (tracked 0 lo) m (tag_bytes f wt ++ b).
Proof using Hi Hl.
  intros Hh Ha Hd Hne Hw. pose proof at_field_ok as Hf. pose proof (tag_read f wt b Hf Hw) as Htag.
  pose proof (pb_decode_tag_shorter _ _ _ _ Htag) as Hlen. unfold run.
  destruct (tag_bytes f wt ++ b) as [|c buf] eqn:Eb; [cbn in Hlen; lia|].
  cbn [length inner_loop]. rewrite Htag. cbn [mbind option_bind].
  destruct Hf as [Hf0 _]. destruct (Z.eqb_spec (f_tag f) 0); [lia|].
  rewrite at_find, (with_ops_lookup _ _ _ Hi). cbn [mbind option_bind fst snd].
  unfold track_fixed. rewrite Hh, Ha, Hd. cbn [tracked fixed_count_field negb].
  by rewrite bool_decide_eq_false_2, bool_decide_eq_true_2 by done.
Qed.

Lemma run_fixed_one n lo m sl sl' n' wt (b : bytes) rest :
  f_htype f = HT_FIXARRAY → f_atype f = AT_STATIC → m !! f_member f = Some sl → 0 <= wt < 8 →
  decode_field callback wt f (ops_of sub) sl n (b ++ rest) = Some (sl', n', rest) →
  run (tracked n lo) m (tag_bytes f wt ++ b ++ rest) = run (tracked n' lo) (<[f_member f := sl']> m) rest.
Proof using Hi Hl.
  intros Hh Ha Hm Hw Hd. rewrite (run_one (tracked n lo) (tracked n lo) m sl sl' wt b n' rest); try done.
  - unfold mark_seen. by rewrite Hh.
  - unfold track_fixed. rewrite Hh, Ha. by rewrite bool_decide_eq_true_2.
  - unfold mark_seen. by rewrite Hh.
Qed.

Lemma run_fixed_items vs lo rest :
  f_htype f = HT_FIXARRAY → f_atype f = AT_STATIC → packable (f_ltype f) = false →
  Forall (value_ok f sub) vs → small (concat (basic_bytes f sub <$> vs)) →
  ∀ pre m, m !! f_member f = Some (Many 0 (pre ++ replicate (length vs) (zero_of f sub))) →
  (length pre + length vs = array_size f)%nat →
  run (tracked (length pre) lo) m (concat (basic_bytes f sub <$> vs) ++ rest) =
  run (tracked (array_size f) lo) (<[f_member f := Many 0 (pre ++ vs)]> m) rest.
Proof using Hi Hl Hsub.
  intros Hh Ha Hp Hv. induction Hv as [|v vs Hv _ IH]; intros Hs pre m Hm Hn.
  { cbn [length] in Hn. rewrite Nat.add_0_r in Hn. rewrite Hn. cbn [app fmap list_fmap concat]. by rewrite list_insert_id. }
  cbn [length replicate] in Hm, Hn. apply basic_small in Hs as [Hs1 Hs2]. rewrite basic_cons.
  erewrite (run_fixed_one (length pre) lo m _ (Many 0 ((pre ++ [v]) ++ replicate (length vs) (zero_of f sub))) (S (length pre)));
    [|done|done|exact Hm|apply wiretype_range|].
  2:{ unfold decode_field, decode_static_field. rewrite Ha, Hh. by rewrite repeated_item by (done || lia). }
  replace (S (length pre)) with (length (pre ++ [v])) by (rewrite length_app; cbn; lia).
  rewrite (IH Hs2 (pre ++ [v])); [|apply list_lookup_insert_eq; by eapply lookup_lt_Some|rewrite length_app; cbn; lia].
  by rewrite list_insert_insert_eq, <- !app_assoc.
Qed.

Lemma run_fixarray lo m sl rest :
  f_htype f = HT_FIXARRAY → f_atype f = AT_STATIC → slot_ok f sub sl → emitted f sub sl = true →
  fixed_count_done lo = true → fixed_count_field lo ≠ Some i →
  small (slot_bytes f sub sl) → m !! f_member f = Some (zero_slot f (ops_of sub)) →
  run lo m (slot_bytes f sub sl ++ rest) = run (tracked (array_size f) lo) (<[f_member f := sl]> m) rest.
Proof using Hi Hl Hsub.
  intros Hh Ha Hok He Hd Hne Hs Hm. unfold slot_ok, slot_bytes, zero_slot, emitted in *. rewrite Ha, Hh in *.
  destruct sl as [|count vs| |]; try done. destruct Hok as (-> & Hn & Hv). unfold array_bytes in *.
  destruct (packable (f_ltype f)) eqn:Hp.
  - rewrite <- app_assoc, run_tracked by done.
    apply (run_fixed_one 0 lo m (Many 0 (replicate (array_size f) (zero_of f sub)))); [done|done|exact Hm|done|].
    unfold decode_field, decode_static_field. rewrite Ha, Hh.
    rewrite repeated_packed; [|done|done|lia|rewrite length_app in Hs; lia].
    cbn [mbind option_bind]. by rewrite Hn, Nat.sub_diag, app_nil_r.
  - destruct vs as [|v vs]; [cbn in Hn; rewrite <- Hn in He; done|].
    rewrite basic_cons. rewrite run_tracked by (done || apply wiretype_range). rewrite <- basic_cons.
    apply (run_fixed_items (v :: vs) lo rest Hh Ha Hp Hv Hs []); [by rewrite Hn|done].
Qed.

(** Every kind of field. *)
Lemma run_slot lo m sl rest :
  f_atype f = AT_STATIC → slot_ok f sub sl → emitted f sub sl = true →
  fixed_count_done lo = true → fixed_count_field lo ≠ Some i →
  small (slot_bytes f sub sl) → m !! f_member f = Some (zero_slot f (ops_of sub)) →
  run lo m (slot_bytes f sub sl ++ rest) =
  run (match f_htype f with HT_FIXARRAY => tracked (array_size f) lo | _ => mark_seen required_before f lo end)
      (<[f_member f := sl]> m) rest.
Proof using Hi Hl Hsub.
  intros Ha Hok He Hd Hne Hs Hm.
  destruct (f_htype f) eqn:Hh;
    first [ by apply run_fixarray | by apply run_repeated | by apply run_basic; rewrite ?Hh ].
Qed.
End At.

(** * The locals, when every field so far was there *)
Definition seen_words (r : nat) : Z * Z :=
  (Z.ones (Z.of_nat (Nat.min r 32)), Z.ones (Z.of_nat (Nat.min r 64 - 32))).

Lemma mark_seen_words r f lo :
  f_htype f = HT_REQUIRED → fields_seen lo = seen_words r → fields_seen (mark_seen r f lo) = seen_words (S r).
Proof using.
  intros Hh Hs. unfold mark_seen. rewrite Hh, Hs. unfold PB_MAX_REQUIRED_FIELDS.
  destruct (Nat.ltb_spec r 64) as [Hr|Hr].
  - cbn [seen_words fields_seen].
    assert (forallb (λ r, bool_decide (
      (if Z.shiftr (Z.of_nat r) 5 =? 0
       then (Z.lor (Z.ones (Z.of_nat (Nat.min r 32))) (u32 (Z.shiftl 1 (Z.land (Z.of_nat r) 31))), Z.ones (Z.of_nat (Nat.min r 64 - 32)))
       else (Z.ones (Z.of_nat (Nat.min r 32)), Z.lor (Z.ones (Z.of_nat (Nat.min r 64 - 32))) (u32 (Z.shiftl 1 (Z.land (Z.of_nat r) 31)))))
      = seen_words (S r))) (seq 0 64) = true) as H by (vm_compute; reflexivity).
    rewrite forallb_forall in H. specialize (H r). rewrite bool_decide_eq_true in H. apply H, in_seq. lia.
  - rewrite Hs. unfold seen_words. by rewrite !Nat.min_r by lia.
Qed.

Lemma all_seen r : all_required_seen r (seen_words r) = true.
Proof using.
  assert (forallb (λ r, all_required_seen r (seen_words r)) (seq 0 65) = true) as H by (vm_compute; reflexivity).
  rewrite forallb_forall in H. destruct (Nat.le_gt_cases r 64).
  - apply H, in_seq. lia.
  - rewrite <- (H 64%nat) by (apply in_seq; lia). unfold all_required_seen, seen_words, PB_MAX_REQUIRED_FIELDS.
    by rewrite !(Nat.min_r r) by lia.
Qed.

Record locals_ok (k : nat) (lo : locals) : Prop := {
  lo_done : fixed_count_done lo = true;
  lo_field : ∀ j, fixed_count_field lo = Some j → (j < k)%nat;
  lo_seen : fields_seen lo = seen_words (count_required (take k (with_ops l)))
}.

Lemma count_required_snoc k f sub :
  l !! k = Some (f, sub) →
  count_required (take (S k) (with_ops l)) =
  (count_required (take k (with_ops l)) + if is_required (f, ops_of sub) then 1 else 0)%nat.
Proof using.
  intros Hk. apply with_ops_lookup in Hk. rewrite (take_S_r _ _ _ Hk). unfold count_required.
  rewrite filter_app, length_app. cbn [fst snd]. f_equal. cbn. by destruct (is_required _).
Qed.

(** After a field. *)
Lemma locals_next k f sub lo :
  l !! k = Some (f, sub) → locals_ok k lo →
  locals_ok (S k) (match f_htype f with
                   | HT_FIXARRAY => tracked k f (array_size f) lo
                   | _ => mark_seen (required_before k) f lo
                   end).
Proof using.
  intros Hk [H1 H2 H3]. pose proof (count_required_snoc k f sub Hk) as Hc.
  assert (f_htype f ≠ HT_REQUIRED → is_required (f, ops_of sub) = false) as Hr.
  { unfold is_required. cbn [fst]. by destruct (f_htype f). }
  destruct (f_htype f) eqn:Hh; try (unfold mark_seen; rewrite Hh; split; [done|intros j Hj; specialize (H2 j Hj); lia|];
    rewrite Hc, Hr, Nat.add_0_r by done; done).
  - split.
    + unfold fixed_count_done, mark_seen. rewrite Hh. destruct (_ <? _)%nat; [|done]. by destruct (fields_seen lo).
    + intros j Hj. assert (fixed_count_field lo = Some j) as Hj'.
      { unfold mark_seen in Hj. rewrite Hh in Hj. destruct (_ <? _)%nat; [|done]. by destruct (fields_seen lo). }
      specialize (H2 j Hj'). lia.
    + unfold required_before. rewrite (mark_seen_words _ _ _ Hh H3), Hc. unfold is_required. cbn [fst]. rewrite Hh.
      f_equal. lia.
  - split; cbn [tracked fixed_count_done fixed_count_field fixed_count_size fixed_count_total_size fields_seen].
    + unfold fixed_count_done. cbn. apply Nat.eqb_refl.
    + intros j [= <-]. lia.
    + by rewrite Hc, Hr, Nat.add_0_r.
Qed.

Lemma locals_skip k f sub lo :
  l !! k = Some (f, sub) → f_htype f ≠ HT_REQUIRED → locals_ok k lo → locals_ok (S k) lo.
Proof using.
  intros Hk Hr [H1 H2 H3]. split; [done|intros j Hj; specialize (H2 j Hj); lia|].
  rewrite (count_required_snoc k f sub Hk). unfold is_required. cbn [fst].
  destruct (f_htype f); try done; by rewrite Nat.add_0_r.
Qed.

(** * The structure, when some fields have been read *)
Definition read_so_far m (pre : list (field * option spec)) (cur : list slot) : Prop :=
  length cur = length m ∧
  ∀ i, (i < length m)%nat →
    cur !! i = if existsb (writes m i) pre then m !! i else Some (zero_member (with_ops l) i).

(** A member is written by one field. *)
Lemma writes_once m i j x y :
  l !! i = Some x → l !! j = Some y → f_member x.1 = f_member y.1 →
  writes m (f_member x.1) x = true → writes m (f_member x.1) y = true → i = j.
Proof using Hl.
  intros Hx Hy Hm. unfold writes. rewrite <- Hm, Nat.eqb_refl. cbn [andb].
  destruct (m !! f_member x.1) as [sl|]; [|done]. intros Ex Ey. destruct (decide (i = j)) as [|Hne]; [done|].
  destruct Hl as (_ & HD & Hsh). destruct (Hsh i j x y Hx Hy Hm Hne) as (H1 & H2 & H3 & H4).
  unfold emitted in Ex, Ey. rewrite H1, H3 in Ex. rewrite H2, H4 in Ey. destruct sl as [| |which v|]; try done.
  apply Z.eqb_eq in Ex, Ey. apply (NoDup_lookup _ i j (f_tag x.1) HD); rewrite list_lookup_fmap.
  - by rewrite Hx.
  - rewrite Hy. cbn. by rewrite <- Ex, <- Ey.
Qed.

Lemma read_next m pre x post cur sl :
  l = pre ++ x :: post → read_so_far m pre cur → m !! f_member x.1 = Some sl → emitted x.1 x.2 sl = true →
  cur !! f_member x.1 = Some (zero_slot x.1 (ops_of x.2)) ∧
  read_so_far m (pre ++ [x]) (<[f_member x.1 := sl]> cur).
Proof using Hl.
  intros El [Hn Hcur] Hm He. assert (l !! length pre = Some x) as Hx by (rewrite El; by apply list_lookup_middle).
  pose proof (lookup_lt_Some _ _ _ Hm) as Hlt.
  assert (writes m (f_member x.1) x = true) as Hw.
  { unfold writes. by rewrite Nat.eqb_refl, Hm. }
  split.
  - rewrite Hcur by done. destruct (existsb _ pre) eqn:Hex.
    + apply existsb_exists in Hex as (y & [j Hy]%list_elem_of_In%list_elem_of_lookup_1 & Hwy).
      pose proof (lookup_lt_Some _ _ _ Hy). assert (l !! j = Some y) as Hly by (rewrite El; by apply lookup_app_l_Some).
      assert (length pre = j); [|lia]. apply (writes_once m _ _ x y); try done.
      unfold writes in Hwy. apply andb_true_iff in Hwy as [Hwy%Nat.eqb_eq _]. done.
    + f_equal. apply (zero_member_kind l (length pre)); [done|done|by apply emitted_static in He].
  - split; [by rewrite length_insert|]. intros i Hi. rewrite existsb_app. cbn [existsb]. rewrite orb_false_r.
    destruct (decide (i = f_member x.1)) as [->|Hne].
    + rewrite list_lookup_insert_eq by lia. by rewrite Hw, orb_true_r.
    + rewrite list_lookup_insert_ne by done. rewrite Hcur by done. unfold writes at 3.
      destruct (Nat.eqb_spec (f_member x.1) i); [done|]. by rewrite orb_false_r.
Qed.

Lemma read_skip m pre x cur sl :
  read_so_far m pre cur → m !! f_member x.1 = Some sl → emitted x.1 x.2 sl = false →
  read_so_far m (pre ++ [x]) cur.
Proof using.
  intros [Hn Hcur] Hm He. split; [done|]. intros i Hi. rewrite existsb_app. cbn [existsb]. rewrite orb_false_r.
  assert (writes m i x = false) as ->; [|by rewrite orb_false_r, Hcur].
  unfold writes. destruct (Nat.eqb_spec (f_member x.1) i) as [<-|]; [|done]. by rewrite Hm.
Qed.

(** The loop over the bytes of the remaining fields. *)
Lemma run_fields m tail : struct_ok l m → small (fields_bytes l m) →
  ∀ post pre lo cur, l = pre ++ post → locals_ok (length pre) lo → read_so_far m pre cur →
  ∃ lo', locals_ok (length l) lo' ∧ run lo cur (fields_bytes post m ++ tail) = run lo' m tail.
Proof using Hl Hsub.
  intros Hm Hs. induction post as [|x post IH]; intros pre lo cur El Hlo Hcur.
  - rewrite app_nil_r in El. subst pre. exists lo. split; [done|].
    assert (cur = m) as ->; [|done]. destruct Hcur as [Hn Hcur]. apply list_eq. intros i.
    destruct (decide (i < length m)%nat) as [Hi|Hi].
    + rewrite Hcur by done. destruct (existsb _ l) eqn:Hex; [done|]. destruct Hm as (_ & _ & HZ). symmetry. by apply HZ.
    + rewrite !lookup_ge_None_2; [done|lia|lia].
  - assert (l !! length pre = Some x) as Hx by (rewrite El; by apply list_lookup_middle).
    destruct (struct_field l m (length pre) x Hl Hm Hx) as (sl & Hsl & Hk & Hok).
    assert (l = (pre ++ [x]) ++ post) as El' by (by rewrite <- app_assoc).
    assert (length (pre ++ [x]) = S (length pre)) as Hlen by (rewrite length_app; cbn; lia).
    assert (small (field_bytes x.1 x.2 m)) as Hsx.
    { apply small_concat in Hs. rewrite Forall_fmap, Forall_lookup in Hs. exact (Hs _ _ Hx). }
    destruct x as [f sub]. unfold fields_bytes. cbn [fmap list_fmap concat fst snd] in *. unfold field_bytes at 1.
    unfold field_bytes in Hsx. rewrite Hsl in *. rewrite <- app_assoc. destruct (emitted f sub sl) eqn:He.
    + destruct (read_next m pre (f, sub) post cur sl El Hcur Hsl He) as [Hz Hcur']. cbn [fst snd] in Hz, Hcur'.
      rewrite (run_slot (length pre) f sub Hx lo cur sl); [|by eapply emitted_static|by apply Hok|done| | |done|done].
      * apply (IH (pre ++ [(f, sub)])); [done|rewrite Hlen; by apply locals_next with (sub := sub)|done].
      * apply Hlo.
      * intros Hj. apply (lo_field _ _ Hlo) in Hj. lia.
    + cbn [app]. apply (IH (pre ++ [(f, sub)])); [done| |by apply (read_skip m pre (f, sub) cur sl)].
      rewrite Hlen. apply locals_skip with f sub; [done| |done]. intros Hr. unfold emitted in He. rewrite Hr in He.
      destruct Hl as (HF & _). rewrite Forall_lookup in HF. destruct (HF _ _ Hx) as (_ & _ & Hreq & _).
      cbn [fst] in Hreq. by rewrite (Hreq Hr) in He.
Qed.

(** * Zeroed memory is what the defaults make of it *)
Lemma zero_members_lookup (o : list (field * option message_ops)) i x :
  o !! i = Some x → zero_members o !! f_member x.1 = Some (zero_member o (f_member x.1)).
Proof using.
  intros Hx%member_count_lt. unfold zero_members. rewrite list_lookup_fmap, lookup_seq_lt by done. done.
Qed.

Lemma set_defaults_zero : set_to_defaults callback (with_ops l) PB_WT_VARINT 0 [] (zero_members (with_ops l)) = Some (zero_members (with_ops l)).
Proof using Hl Hsub.
  assert (∀ post pre, l = pre ++ post →
    set_to_defaults callback (with_ops post) PB_WT_VARINT 0 [] (zero_members (with_ops l)) = Some (zero_members (with_ops l))) as H;
    [|by apply (H l [])].
  induction post as [|x post IH]; intros pre El; [done|].
  assert (l !! length pre = Some x) as Hx by (rewrite El; by apply list_lookup_middle).
  pose proof (with_ops_lookup _ _ _ Hx) as Hx'. destruct x as [f sub]. cbn [fst snd] in Hx'.
  pose proof (zero_members_lookup _ _ _ Hx') as Hz. cbn [fst] in Hz.
  unfold with_ops at 1. cbn [fmap list_fmap fst snd set_to_defaults]. rewrite Hz. cbn [mbind option_bind].
  assert (pb_field_set_to_default f (ops_of sub) (zero_member (with_ops l) (f_member f))
    = Some (zero_member (with_ops l) (f_member f))) as ->.
  { destruct (zero_member_kind l _ _ Hl Hx) as [Hk Hs]. cbn [fst snd] in Hk, Hs. unfold pb_field_set_to_default, kind_ok in *.
    destruct (f_atype f); [|by destruct (f_htype f)]. rewrite Hs by done. unfold zero_slot, zero_value. destruct (f_htype f); try done;
      destruct (f_ltype f); try done; (destruct sub as [sp|] eqn:Es; [|done]);
      cbn [ops_of fmap option_fmap option_map]; rewrite Forall_lookup in Hsub;
      destruct (Hsub _ _ Hx sp eq_refl) as [HZ _]; rewrite HZ; by destruct (op_needs_init _). }
  cbn [mbind option_bind Z.eqb negb andb]. rewrite list_insert_id by done. apply (IH (pre ++ [(f, sub)])). by rewrite <- app_assoc.
Qed.

Lemma finish_ok lo m rest : locals_ok (length l) lo → finish (with_ops l) lo m rest = Some (m, rest).
Proof using.
  intros [H1 _ H3]. unfold finish. rewrite H1, H3, take_ge by (unfold with_ops; by rewrite length_fmap).
  by rewrite all_seen.
Qed.

(** Into zeroed memory, up to what comes after the message. *)
Lemma message_run m tail :
  struct_ok l m → small (fields_bytes l m) →
  ∃ lo, locals_ok (length l) lo ∧
    pb_decode_inner None callback (with_ops l) flags (zero_members (with_ops l)) (fields_bytes l m ++ tail) = run lo m tail.
Proof using Hl Hsub.
  intros Hm Hs. unfold pb_decode_inner, pb_message_set_to_defaults.
  assert ((if Z.land flags PB_DECODE_NOINIT =? 0
           then set_to_defaults callback (with_ops l) PB_WT_VARINT 0 [] (zero_members (with_ops l))
           else Some (zero_members (with_ops l))) = Some (zero_members (with_ops l))) as ->.
  { rewrite set_defaults_zero. by destruct (_ =? _). }
  cbn [mbind option_bind]. apply (run_fields m tail Hm Hs l [] locals_new); [done| |].
  - split; [done|done|]. done.
  - destruct Hm as (Hn & _). split; [unfold zero_members; by rewrite length_fmap, length_seq|].
    intros i Hi. cbn [existsb]. unfold zero_members. rewrite list_lookup_fmap, lookup_seq_lt by lia. done.
Qed.

Lemma message_read m :
  struct_ok l m → small (fields_bytes l m) →
  pb_decode_inner None callback (with_ops l) flags (zero_members (with_ops l)) (fields_bytes l m) = Some (m, []).
Proof using Hl Hsub.
  intros Hm Hs. destruct (message_run m [] Hm Hs) as (lo & Hlo & E). rewrite app_nil_r in E. rewrite E.
  by apply finish_ok.
Qed.

Lemma message_read_terminated m rest :
  Z.land flags PB_DECODE_NULLTERMINATED ≠ 0 → struct_ok l m → small (fields_bytes l m) →
  pb_decode_inner None callback (with_ops l) flags (zero_members (with_ops l)) (fields_bytes l m ++ 0 :: rest) = Some (m, rest).
Proof using Hl Hsub.
  intros Hf Hm Hs. destruct (message_run m (0 :: rest) Hm Hs) as (lo & Hlo & E). rewrite E.
  unfold run. cbn [length inner_loop]. change (pb_decode_tag (0 :: rest)) with (Some (0, 0, rest)).
  cbn [mbind option_bind Z.eqb]. apply Z.eqb_neq in Hf as ->. by apply finish_ok.
Qed.
End ReadMessage.

(** The same when a zero byte ends the message. *)
Definition decodes_terminated (sp : spec) : Prop := ∀ m rest,
  sp_ok sp m → small (sp_bytes sp m) →
  op_decode (sp_ops sp) PB_DECODE_NULLTERMINATED (op_zero (sp_ops sp)) (sp_bytes sp m ++ 0 :: rest) = Some (m, rest).

Lemma message_decodes d : desc_ok d → decodes (spec_of d) ∧ decodes_terminated (spec_of d).
Proof using.
  apply (message_ind (λ sp, decodes sp ∧ decodes_terminated sp)). intros callback l Hl Hsub.
  assert (Forall (λ x, ∀ sp, x.2 = Some sp → decodes sp) l) as Hd.
  { eapply Forall_impl; [exact Hsub|]. intros x Hx sp E. by apply Hx. }
  split; [split|].
  - by apply set_defaults_zero.
  - intros flags m Hm Hs. by apply message_read.
  - intros m rest Hm Hs. by apply message_read_terminated.
Qed.

(** C16. Nested messages survive the wire.  For every descriptor of statically allocated
    fields - numbers of all wire types, bytes, strings, submessages to any depth,
    required, optional, singular and repeated fields, packed or not, arrays of fixed
    length, oneofs - and every structure of it whose unused members are zero: the encoder
    writes [message_bytes] if the buffer has room and fails otherwise, its size computed
    beforehand is exact, and the decoder, starting from zeroed memory, restores the
    structure; with a length prefix or a zero byte at the end, without touching what
    follows in the stream. *)
Theorem nested_roundtrip d m n rest :
  desc_ok d → message_ok d m → small (message_bytes d m) →
  let out := message_bytes d m in
  let zero := op_zero (ops d) in
  let written b := if (length b <=? n)%nat then Some (OStream b n false) else None in
  pb_get_encoded_size d m = Some (length out) ∧
  pb_encode d m (pb_ostream_from_buffer n) = written out ∧
  pb_decode d zero out = Some m ∧
  pb_encode_ex PB_ENCODE_DELIMITED d m (pb_ostream_from_buffer n) = written (string_bytes out) ∧
  pb_decode_ex PB_DECODE_DELIMITED d zero (string_bytes out ++ rest) = Some (m, rest) ∧
  pb_encode_ex PB_ENCODE_NULLTERMINATED d m (pb_ostream_from_buffer n) = written (out ++ [0]) ∧
  pb_decode_ex PB_DECODE_NULLTERMINATED d zero (out ++ 0 :: rest) = Some (m, rest).
Proof using.
  intros Hd Hm Hs out zero written. pose proof (message_encodes d Hd) as HE.
  destruct (message_decodes d Hd) as [[_ HD] HT].
  assert (∀ s, pb_encode d m s = pb_write s out) as Hw.
  { intros s. unfold pb_encode. rewrite <- spec_of_ops. by apply HE. }
  assert (∀ b, pb_write (pb_ostream_from_buffer n) b = written b) as Hb by apply pb_write_from_buffer.
  subst zero. rewrite <- spec_of_ops in *. unfold pb_decode, pb_decode_ex, pb_encode_ex, pb_get_encoded_size.
  rewrite !Hw, <- !spec_of_ops.
  split_and!.
  - rewrite pb_write_sizing by done. cbn. unfold zeros. by rewrite length_replicate.
  - apply Hb.
  - unfold out, message_bytes. by rewrite HD.
  - cbn [Z.land Pos.land Z.eqb negb PB_ENCODE_DELIMITED]. rewrite submessage_write by done. apply Hb.
  - cbn [Z.land Pos.land Z.eqb negb PB_DECODE_DELIMITED]. rewrite read_substream by done. cbn [mbind option_bind].
    unfold out, message_bytes. by rewrite HD.
  - cbn [Z.land Pos.land Z.eqb negb PB_ENCODE_DELIMITED PB_ENCODE_NULLTERMINATED Pos.ldiff]. rewrite pb_write_app. apply Hb.
  - cbn [Z.land Pos.land Z.eqb negb PB_DECODE_DELIMITED PB_DECODE_NULLTERMINATED]. by apply HT.
Qed.
End Correct.

(** * Witness: a nested message *)
Definition demo_memory : Memory unit := {| null_arg := tt; reread := λ f _, zero_value f None |}.

(** A name and an optional flag inside a record with a required number, two samples, a
    oneof and an array of fixed length. *)
Definition demo_inner : pb_msgdesc :=
  MsgDesc [(Field 1 LT_STRING HT_SINGULAR AT_STATIC 8 0 0, None);
           (Field 2 LT_BOOL HT_OPTIONAL AT_STATIC 1 0 1, None)] None false.
Definition demo_outer : pb_msgdesc :=
  MsgDesc [(Field 1 LT_UVARINT HT_REQUIRED AT_STATIC 4 0 0, None);
           (Field 2 LT_SVARINT HT_REPEATED AT_STATIC 4 3 1, None);
           (Field 3 LT_SUBMESSAGE HT_OPTIONAL AT_STATIC 10 0 2, Some demo_inner);
           (Field 4 LT_FIXED32 HT_ONEOF AT_STATIC 4 0 3, None);
           (Field 5 LT_BYTES HT_ONEOF AT_STATIC 6 0 3, None);
           (Field 6 LT_STRING HT_FIXARRAY AT_STATIC 3 2 4, None)] None true.
Definition demo_name : list (slot unit) :=
  [One false (VString [65; 66; 0; 0; 0; 0; 0; 0]); One true (VInt 1)].
Definition demo_nested : list (slot unit) :=
  [One false (VInt 300); Many 2 [VInt (-1); VInt 7; VInt 0]; One true (VMessage demo_name);
   Union 5 (VBytes 2 [8; 9; 0; 0]); Many 0 [VString [67; 0; 0]; VString [0; 0; 0]]].

Lemma demo_ok : desc_ok (Mem := demo_memory) demo_outer.
Proof.
  cbn [desc_ok demo_outer demo_inner fold_right snd]. split_and!; try done.
  - split_and!.
    + repeat constructor; done || (cbn; lia).
    + apply (bool_decide_unpack _). vm_compute. exact I.
    + intros i j x y. destruct i as [|[|[|[|[|[|i]]]]]]; try done; destruct j as [|[|[|[|[|[|j]]]]]]; try done;
        by intros [= <-] [= <-].
  - split_and!.
    + repeat constructor; done || (cbn; lia).
    + apply (bool_decide_unpack _). vm_compute. exact I.
    + intros i j x y. destruct i as [|[|i]]; try done; destruct j as [|[|j]]; try done; by intros [= <-] [= <-].
Qed.

Lemma demo_name_ok : message_ok (Mem := demo_memory) demo_inner demo_name.
Proof.
  split; [reflexivity|]. split.
  - constructor; [|constructor; [|constructor]]; intros sl [= <-] _.
    + split; [done|]. exists [65; 66]. split; [cbn; lia|]. split; [repeat constructor; lia|reflexivity].
    + by right.
  - intros i Hi. destruct i as [|[|i]]; [by intros ..|cbn in Hi; lia].
Qed.

Lemma demo_nested_ok : message_ok (Mem := demo_memory) demo_outer demo_nested.
Proof.
  split; [reflexivity|]. split.
  - repeat (constructor; [intros sl [= <-] He|]); [..|constructor]; try discriminate He.
    + split; [done|]. cbn. lia.
    + exists [VInt (-1); VInt 7]. split_and!; [done|cbn; lia| |reflexivity]. repeat constructor; cbn; lia.
    + eexists. split; [reflexivity|]. exact demo_name_ok.
    + split; [cbn; lia|]. by exists [8; 9].
    + split_and!; [done|done|]. constructor; [|constructor; [|constructor]]; [exists [67]|exists []];
        (split; [cbn; lia|]); (split; [repeat constructor; lia|reflexivity]).
  - intros i Hi. destruct i as [|[|[|[|[|i]]]]]; [by intros ..|cbn in Hi; lia].
Qed.

Lemma nested_roundtrip_witness :
  message_bytes (Mem := demo_memory) demo_outer demo_nested =
    [8; 172; 2; 18; 2; 1; 14; 26; 6; 10; 2; 65; 66; 16; 1; 42; 2; 8; 9; 50; 1; 67; 50; 0] ∧
  pb_decode (Mem := demo_memory) demo_outer (op_zero (ops (Mem := demo_memory) demo_outer))
    (message_bytes (Mem := demo_memory) demo_outer demo_nested) = Some demo_nested.
Proof.
  split; [vm_compute; reflexivity|].
  apply (nested_roundtrip (Mem := demo_memory) demo_outer demo_nested 0 [] demo_ok demo_nested_ok). vm_compute. reflexivity.
Defined.
