(* ===== verification/NanopbSafe.v ===== *)
(** The protobuf decoder on arbitrary input: whatever the bytes, a structure that was
    decoded without an error is one - counts within their arrays, strings terminated in
    their buffers, numbers within their members - and nothing changed size. *)
From S2P Require Import Prelude Nanopb NanopbMessages NanopbCorrect.

Section Safe.
Context {A : Type} {Mem : Memory A}.
Local Abbreviation value := (value A).
Local Abbreviation slot := (slot A).
Local Abbreviation message_ops := (message_ops (A := A)).

(** A message type's operations, which memory has the size of its structure, and which
    holds a value of it. *)
Record kind := Kind {
  k_ops : message_ops;
  k_sized : list slot → Prop;
  k_typed : list slot → Prop
}.
Implicit Types (f : field) (sub : option kind) (v : value) (sl : slot) (m : list slot)
  (l : list (field * option kind)) (buf rest : bytes).

Definition kops sub : option message_ops := k_ops <$> sub.
Definition with_kops l : list (field * option message_ops) := (λ x, (x.1, kops x.2)) <$> l.

(** * Memory of the right size, and values *)
Definition sized f sub v : Prop :=
  match f_ltype f, v with
  | (LT_BOOL | LT_VARINT | LT_UVARINT | LT_SVARINT | LT_FIXED32 | LT_FIXED64), VInt _ => True
  | LT_BYTES, VBytes _ buf => length buf = (data_size f - 2)%nat
  | LT_STRING, VString buf | LT_FIXED_LENGTH_BYTES, VFixed buf => length buf = data_size f
  | LT_SUBMESSAGE, VMessage m => match sub with Some k => k_sized k m | None => True end
  | _, _ => False
  end.

Definition typed f sub v : Prop :=
  let w := 8 * Z.of_nat (data_size f) in
  match f_ltype f, v with
  | LT_BOOL, VInt z => z = 0 ∨ z = 1
  | LT_UVARINT, VInt z => 0 <= z < 2 ^ w
  | (LT_VARINT | LT_SVARINT), VInt z => - 2 ^ (w - 1) <= z < 2 ^ (w - 1)
  | (LT_FIXED32 | LT_FIXED64), VInt _ => True
  | LT_BYTES, VBytes size buf => length buf = (data_size f - 2)%nat ∧ (size <= data_size f - 2)%nat
  | LT_STRING, VString buf => length buf = data_size f ∧ 0 ∈ buf
  | LT_FIXED_LENGTH_BYTES, VFixed buf => length buf = data_size f
  | LT_SUBMESSAGE, VMessage m => match sub with Some k => k_typed k m | None => True end
  | _, _ => False
  end.

(** The items of an array of fixed length are memory until all of them have come. *)
Definition slot_sized f sub sl : Prop :=
  match f_atype f, f_htype f, sl with
  | AT_CALLBACK, _, Func _ => True
  | AT_STATIC, (HT_REQUIRED | HT_OPTIONAL | HT_SINGULAR), One _ v => sized f sub v
  | AT_STATIC, (HT_REPEATED | HT_FIXARRAY), Many _ items => length items = array_size f ∧ Forall (sized f sub) items
  | AT_STATIC, HT_ONEOF, Union _ _ => True
  | _, _, _ => False
  end.

Definition slot_typed f sub sl : Prop :=
  match f_atype f, f_htype f, sl with
  | AT_CALLBACK, _, Func _ => True
  | AT_STATIC, (HT_REQUIRED | HT_OPTIONAL | HT_SINGULAR), One _ v => typed f sub v
  | AT_STATIC, HT_REPEATED, Many count items =>
      length items = array_size f ∧ Forall (sized f sub) items ∧
      (count <= array_size f)%nat ∧ Forall (typed f sub) (take count items)
  | AT_STATIC, HT_FIXARRAY, Many _ items => length items = array_size f ∧ Forall (sized f sub) items
  | AT_STATIC, HT_ONEOF, Union which v => which = f_tag f → typed f sub v
  | _, _, _ => False
  end.

Definition all_fields (P : field → option kind → slot → Prop) l m : Prop :=
  length m = member_count (with_kops l) ∧
  Forall (λ x, ∃ sl, m !! f_member x.1 = Some sl ∧ P x.1 x.2 sl) l.

Fixpoint kind_of (d : pb_msgdesc) : kind :=
  match d with
  | MsgDesc l def callback =>
      let l' := map (λ x, (x.1, match x.2 with Some d' => Some (kind_of d') | None => None end)) l in
      Kind (message_ops_of def callback (with_kops l')) (all_fields slot_sized l') (all_fields slot_typed l')
  end.

(** * Descriptors *)
(** As in [fields_ok], without bounds on the sizes. *)
Definition widths_ok f sub : Prop :=
  match f_ltype f with
  | LT_SUBMESSAGE => is_Some sub
  | LT_STRING => (0 < data_size f)%nat
  | LT_VARINT | LT_SVARINT | LT_UVARINT => (0 < data_size f)%nat
  | _ => True
  end.
Definition layout_ok l : Prop :=
  Forall (λ x, widths_ok x.1 x.2 ∧ f_tag x.1 ≠ 0) l ∧ NoDup ((λ x, f_tag x.1) <$> l) ∧
  (∀ i j x y, l !! i = Some x → l !! j = Some y → f_member x.1 = f_member y.1 → i ≠ j →
     f_htype x.1 = HT_ONEOF ∧ f_htype y.1 = HT_ONEOF ∧ f_atype x.1 = AT_STATIC ∧ f_atype y.1 = AT_STATIC).
Definition kinds (l : list (field * option pb_msgdesc)) : list (field * option kind) :=
  (λ x : field * option pb_msgdesc, (x.1, kind_of <$> x.2)) <$> l.
Fixpoint layouts_ok (d : pb_msgdesc) : Prop :=
  match d with
  | MsgDesc l _ _ =>
      layout_ok (kinds l) ∧
      fold_right (λ x P, match x.2 with Some d' => layouts_ok d' | None => True end ∧ P) True l
  end.

Lemma kind_of_ops d : k_ops (kind_of d) = ops d.
Proof using.
  induction d as [l def callback IH] using pb_msgdesc_nested_ind. cbn. f_equal. unfold with_kops, kops.
  rewrite <- list_fmap_compose. apply list_fmap_ext. intros i [f [d|]] Hx; cbn; [|done].
  do 2 f_equal. rewrite Forall_lookup in IH. by apply (IH i (f, Some d) Hx).
Qed.

Definition message_kind (def : option bytes) (callback : bool) l : kind :=
  Kind (message_ops_of def callback (with_kops l)) (all_fields slot_sized l) (all_fields slot_typed l).

Lemma kind_ind (Q : kind → Prop) :
  (∀ def callback l, layout_ok l → Forall (λ x, ∀ k, x.2 = Some k → Q k) l → Q (message_kind def callback l)) →
  ∀ d, layouts_ok d → Q (kind_of d).
Proof using.
  intros H d. induction d as [l def callback IH] using pb_msgdesc_nested_ind. intros (Hl & Hd).
  apply (H def callback (kinds l) Hl). clear Hl. unfold kinds. apply Forall_fmap.
  induction IH as [|[f [d|]] l Hx _ IHl]; [done| |]; destruct Hd as [Hd1 Hd2]; (constructor; [|by apply IHl]).
  - intros k [= <-]. by apply Hx.
  - by intros k [=].
Qed.

(** * What every message type is shown to have *)
Record safe (k : kind) : Prop := {
  safe_sized : ∀ m, k_typed k m → k_sized k m;
  safe_zero : k_typed k (op_zero (k_ops k));
  safe_defaults : ∀ m m', k_sized k m → op_set_defaults (k_ops k) m = Some m' → k_typed k m';
  safe_decode : ∀ flags m buf m' rest,
    (if Z.land flags PB_DECODE_NOINIT =? 0 then k_sized k m else k_typed k m) →
    op_decode (k_ops k) flags m buf = Some (m', rest) → k_typed k m'
}.

(** A union's memory is large enough for every field. *)
Class MemoryLawful : Prop :=
  reread_sized : ∀ f sub v, f_ltype f ≠ LT_SUBMESSAGE → sized f sub (reread f v).
Context {ML : MemoryLawful}.

(** * Values *)
Section Field.
Context (f : field) (sub : option kind) (Hw : widths_ok f sub) (Hsub : ∀ k, sub = Some k → safe k).

Lemma typed_sized v : typed f sub v → sized f sub v.
Proof using Hsub.
  clear Hw. unfold typed, sized. destruct (f_ltype f), v; try done; try (by intros []).
  destruct sub as [k|] eqn:E; [|done]. apply safe_sized. by apply Hsub.
Qed.

Lemma zero_typed : typed f sub (zero_value f (kops sub)).
Proof using Hw Hsub.
  unfold typed, zero_value, widths_ok in *. destruct (f_ltype f); cbv zeta.
  - by left.
  - split; [|apply Z.pow_pos_nonneg; lia]. pose proof (Z.pow_nonneg 2 (8 * Z.of_nat (data_size f) - 1)). lia.
  - split; [done|]. apply Z.pow_pos_nonneg; lia.
  - split; [|apply Z.pow_pos_nonneg; lia]. pose proof (Z.pow_nonneg 2 (8 * Z.of_nat (data_size f) - 1)). lia.
  - done.
  - done.
  - split; [apply length_replicate|lia].
  - split; [apply length_replicate|]. unfold zeros. by apply elem_of_replicate; split; [|lia].
  - destruct sub as [k|] eqn:E; [|done]. cbn. apply safe_zero. by apply Hsub.
  - apply length_replicate.
Qed.

Lemma sint_range n z : (0 < n)%nat → - 2 ^ (8 * Z.of_nat n - 1) <= sint n z < 2 ^ (8 * Z.of_nat n - 1).
Proof using.
  intros Hn. unfold sint. cbv zeta.
  assert (2 ^ (8 * Z.of_nat n) = 2 * 2 ^ (8 * Z.of_nat n - 1)) as E.
  { rewrite <- Z.pow_succ_r by lia. f_equal. lia. }
  rewrite E, (Z.mul_comm 2), Z.div_mul by lia. set (h := 2 ^ (8 * Z.of_nat n - 1)).
  assert (0 < h) by (apply Z.pow_pos_nonneg; lia). pose proof (Z.mod_pos_bound (z + h) (h * 2)). lia.
Qed.

Lemma read_length n buf (b rest : bytes) : pb_read buf n = Some (b, rest) → length b = n.
Proof using.
  unfold pb_read. destruct (Nat.ltb_spec (length buf) n); [done|]. intros [= <- _]. rewrite length_take. lia.
Qed.

Lemma decode_basic_typed wt old buf v rest :
  sized f sub old →
  (f_ltype f = LT_SUBMESSAGE → f_htype f ≠ HT_REPEATED → f_htype f ≠ HT_FIXARRAY → typed f sub old) →
  decode_basic_field wt f (kops sub) old buf = Some (v, rest) → typed f sub v.
Proof using Hw Hsub.
  intros Hs Ht H. unfold decode_basic_field in H. unfold sized, typed, widths_ok in *. cbv zeta in *.
  destruct (f_ltype f) eqn:Hlt; unfold pb_decode_bool, pb_dec_varint, pb_dec_bytes, pb_dec_string,
    pb_dec_fixed_length_bytes, pb_dec_submessage in H; rewrite ?Hlt in H; cbv zeta in H; unbind;
    try done; repeat match goal with
    | H : pb_read _ _ = Some _ |- _ => apply read_length in H
    end; bsimp.
  - destruct (z0 =? 0); [by left|by right].
  - by apply sint_range.
  - apply Z.mod_pos_bound, Z.pow_pos_nonneg; lia.
  - by apply sint_range.
  - destruct old as [|size old| | | |]; try done. rewrite length_splice by lia. split; [done|lia].
  - destruct old as [| |old| | |]; try done. rewrite length_splice by (rewrite length_splice; cbn; lia).
    rewrite length_splice by (cbn; lia). split; [done|]. apply list_elem_of_lookup. exists (Z.to_nat z).
    unfold splice at 1. cbn [plus]. rewrite take_0. cbn [app]. rewrite lookup_app_r by lia.
    rewrite lookup_drop. replace (length l0 + (Z.to_nat z - length l0))%nat with (Z.to_nat z) by lia.
    unfold splice. rewrite lookup_app_r by (rewrite length_take; lia).
    rewrite length_take. replace (Z.to_nat z - Nat.min (Z.to_nat z) (length old))%nat with O by lia. done.
  - destruct sub as [k|] eqn:E; [|done]. cbn [kops fmap option_fmap option_map] in *. simplify_eq.
    destruct old as [| | | |m0|]; try done. specialize (Hsub k eq_refl).
    eapply (safe_decode k Hsub); [|eassumption].
    destruct (f_htype f); cbn [Z.land Z.eqb PB_DECODE_NOINIT Pos.land]; try done; by apply Ht.
  - apply length_replicate.
  - lia.
Qed.

(** * Members *)
Lemma take_insert_S (n : nat) (v : value) items :
  (n < length items)%nat → take (S n) (<[n := v]> items) = take n items ++ [v].
Proof using.
  intros Hn. rewrite (take_S_r _ _ v) by (apply list_lookup_insert_eq; lia). by rewrite take_insert_ge by lia.
Qed.

Definition items_typed (count : nat) (items : list value) : Prop :=
  (count <= array_size f)%nat ∧ Forall (typed f sub) (take count items).

Lemma item_typed wt n items old buf v rest :
  f_htype f = HT_REPEATED ∨ f_htype f = HT_FIXARRAY →
  Forall (sized f sub) items → items !! n = Some old →
  decode_basic_field wt f (kops sub) old buf = Some (v, rest) → typed f sub v.
Proof using Hw Hsub.
  intros Hh HF Hn. apply decode_basic_typed; [by eapply Forall_lookup_1|]. intros _ H1 H2. by destruct Hh.
Qed.

Lemma decode_packed_typed room count items buf count' items' :
  f_htype f = HT_REPEATED ∨ f_htype f = HT_FIXARRAY →
  length items = array_size f → Forall (sized f sub) items → (count + room = array_size f)%nat →
  decode_packed room f (kops sub) count items buf = Some (count', items') →
  length items' = array_size f ∧ Forall (sized f sub) items' ∧
  (items_typed count items → items_typed count' items').
Proof using Hw Hsub.
  intros Hh. revert count items buf. induction room as [|room IH]; intros count items buf Hn HF Hc H;
    destruct buf as [|b buf]; cbn [decode_packed] in H; try done; [by injection H as <- <-..|].
  apply bind_Some in H as (old & Ho & H). apply bind_Some in H as ([v s1] & Hd & H).
  pose proof (item_typed _ _ _ _ _ _ _ Hh HF Ho Hd) as Hv.
  destruct (IH (S count) (<[count := v]> items) s1) as (H1 & H2 & H3); [by rewrite length_insert| |lia|done|].
  { apply Forall_insert; [done|by apply typed_sized]. }
  split; [done|]. split; [done|]. intros [Hle HT]. apply H3. split; [lia|].
  rewrite take_insert_S by lia. apply Forall_app. split; [done|by apply Forall_singleton].
Qed.

Lemma decode_repeated_typed wt count items buf count' items' rest :
  f_htype f = HT_REPEATED ∨ f_htype f = HT_FIXARRAY →
  length items = array_size f → Forall (sized f sub) items →
  decode_repeated wt f (kops sub) count items buf = Some (count', items', rest) →
  length items' = array_size f ∧ Forall (sized f sub) items' ∧
  (items_typed count items → items_typed count' items').
Proof using Hw Hsub.
  intros Hh Hn HF H. unfold decode_repeated in H. destruct (_ && _).
  - apply bind_Some in H as ([b r] & _ & H). apply bind_Some in H as ([c it] & Hp & H). injection H as <- <- _.
    destruct (Nat.le_gt_cases count (array_size f)).
    + eapply decode_packed_typed; [done|done|done| |exact Hp]. lia.
    + replace (array_size f - count)%nat with O in Hp by lia. destruct b as [|b0 b]; [|done]. injection Hp as <- <-.
      done.
  - destruct (Nat.leb_spec (array_size f) count); [done|]. apply bind_Some in H as (old & Ho & H).
    apply bind_Some in H as ([v s1] & Hd & H). injection H as <- <- _.
    pose proof (item_typed _ _ _ _ _ _ _ Hh HF Ho Hd) as Hv.
    split; [by rewrite length_insert|]. split; [apply Forall_insert; [done|by apply typed_sized]|].
    intros [Hle HT]. split; [lia|]. rewrite take_insert_S by lia. apply Forall_app. split; [done|by apply Forall_singleton].
Qed.

Lemma union_typed which v v0 :
  (which = f_tag f → typed f sub v) → union_value f (kops sub) which v = Some v0 →
  sized f sub v0 ∧ (f_ltype f = LT_SUBMESSAGE → typed f sub v0).
Proof using Hw Hsub ML.
  intros Hv. unfold union_value. destruct (Z.eqb_spec which (f_tag f)) as [E|E].
  { intros [= <-]. split; [by apply typed_sized, Hv|intros _; by apply Hv]. }
  assert (f_ltype f ≠ LT_SUBMESSAGE → ∀ u, sized f sub (match u with VZero => zero_value f (kops sub) | _ => reread f u end)) as Hr.
  { intros Hn u. destruct u; try by apply reread_sized. by apply typed_sized, zero_typed. }
  destruct (f_ltype f) eqn:Hlt; try (intros [= <-]; split; [by apply Hr|done]).
  destruct sub as [k|] eqn:Es; cbn [kops fmap option_fmap option_map].
  2:{ unfold widths_ok in Hw. rewrite Hlt in Hw. by destruct Hw. }
  specialize (Hsub k eq_refl). assert (∀ m, k_typed k m → sized f (Some k) (VMessage m) ∧ typed f (Some k) (VMessage m)) as Hm.
  { intros m Hm. unfold sized, typed. rewrite Hlt. split; [by apply safe_sized|done]. }
  destruct (op_needs_init (k_ops k)).
  - intros (m & Hd & ->)%fmap_Some. destruct (Hm m); [|done]. eapply safe_defaults; [done| |done].
    by apply safe_sized, safe_zero.
  - intros [= <-]. destruct (Hm (op_zero (k_ops k))); [by apply safe_zero|done].
Qed.

(** A oneof's fields share the member: what [w] must be for the others not to mind. *)
Definition selects (w : Z) sl : Prop :=
  f_htype f = HT_ONEOF → f_atype f = AT_STATIC → ∃ v, sl = Union w v.

Lemma decode_field_typed callback wt n sl sl' n' buf rest :
  slot_typed f sub sl → decode_field callback wt f (kops sub) sl n buf = Some (sl', n', rest) →
  slot_typed f sub sl' ∧ selects (f_tag f) sl'.
Proof using Hw Hsub ML.
  intros Ht H. unfold selects. unfold slot_typed in *. unfold decode_field, decode_static_field in H.
  destruct (f_atype f) eqn:Ha.
  2:{ assert (∃ c, sl' = Func c) as [c ->]; [|by destruct (f_htype f)].
      destruct sl as [| | |c]; try done. apply bind_Some in H as ([c' r] & _ & H). injection H as <- _ _. by exists c'. }
  destruct (f_htype f) eqn:Hh, sl as [has v|count items|which v|c]; try done.
  - apply bind_Some in H as ([v' r] & Hd & H). injection H as <- _ _. split; [|done].
    eapply decode_basic_typed; [by apply typed_sized|by intros|exact Hd].
  - apply bind_Some in H as ([v' r] & Hd & H). injection H as <- _ _. split; [|done].
    eapply decode_basic_typed; [by apply typed_sized|by intros|exact Hd].
  - apply bind_Some in H as ([v' r] & Hd & H). injection H as <- _ _. split; [|done].
    eapply decode_basic_typed; [by apply typed_sized|by intros|exact Hd].
  - apply bind_Some in H as ([[c it] r] & Hd & H). injection H as <- _ _. split; [|done].
    destruct Ht as (H1 & H2 & H3). eapply decode_repeated_typed in Hd as (K1 & K2 & K3); [|by left|done..].
    split; [done|]. split; [done|]. by apply K3.
  - apply bind_Some in H as ([[c it] r] & Hd & H). injection H as <- _ _. split; [|done].
    destruct Ht as (H1 & H2). eapply decode_repeated_typed in Hd as (K1 & K2 & _); [done|by right|done..].
  - apply bind_Some in H as (v0 & Hu & H). apply bind_Some in H as ([v' r] & Hd & H). injection H as <- _ _.
    apply union_typed in Hu as [Hs Hm]; [|done]. split; [|by eexists]. intros _.
    eapply decode_basic_typed; [done|intros E _ _; by apply Hm|exact Hd].
Qed.

Lemma set_to_default_typed sl sl' :
  f_tag f ≠ 0 → slot_sized f sub sl → pb_field_set_to_default f (kops sub) sl = Some sl' →
  slot_typed f sub sl' ∧ selects 0 sl'.
Proof using Hw Hsub.
  intros Hz Hs H. unfold selects, slot_sized, slot_typed, pb_field_set_to_default in *.
  destruct (f_atype f) eqn:Ha.
  2:{ destruct (f_htype f); injection H as <-; by destruct sl. }
  assert (∀ has v sl', sized f sub v →
    match f_ltype f, kops sub, v with
    | LT_SUBMESSAGE, Some o, VMessage m =>
        if op_needs_init o then m' ← op_set_defaults o m; Some (One has (VMessage m'))
        else Some (One has (zero_value f (kops sub)))
    | _, _, _ => Some (One has (zero_value f (kops sub)))
    end = Some sl' → ∃ v', sl' = One has v' ∧ typed f sub v') as Hone.
  { clear H Hs sl'. intros has v sl' Hs H. pose proof zero_typed as HZ.
    destruct (f_ltype f) eqn:Hlt; try (injection H as <-; by eexists).
    destruct sub as [k|] eqn:Es; cbn [kops fmap option_fmap option_map] in *; [|injection H as <-; by eexists].
    destruct v as [| | | |m|]; try (injection H as <-; by eexists).
    destruct (op_needs_init (k_ops k)); [|injection H as <-; by eexists].
    apply bind_Some in H as (m' & Hd & H). injection H as <-. eexists. split; [done|].
    unfold typed, sized in *. rewrite Hlt in *. eapply safe_defaults; [by apply Hsub|exact Hs|exact Hd]. }
  destruct (f_htype f) eqn:Hh, sl as [has v|count items|which v|c]; try done.
  - apply Hone in H as (v' & -> & Hv); [|done]. done.
  - apply Hone in H as (v' & -> & Hv); [|done]. done.
  - apply Hone in H as (v' & -> & Hv); [|done]. done.
  - injection H as <-. destruct Hs as [H1 H2]. split; [|done]. split_and!; [done|done|lia|by rewrite take_0].
  - injection H as <-. done.
  - injection H as <-. split; [|by eexists]. intros E. by destruct Hz.
Qed.

Lemma clear_has_typed w sl :
  f_tag f ≠ 0 → slot_typed f sub sl → selects w sl → slot_typed f sub (clear_has f sl) ∧ selects 0 (clear_has f sl).
Proof using.
  intros Hz Ht Hs. unfold selects, slot_typed, clear_has in *. destruct (f_atype f), (f_htype f), sl; try done.
  - destruct Ht as (H1 & H2 & H3 & H4). split; [|done]. split_and!; [done|done|lia|by rewrite take_0].
  - split; [|by eexists]. intros E. by destruct Hz.
Qed.
End Field.

(** * Messages *)
Section Message.
Context (def : option bytes) (callback : bool) (l : list (field * option kind)).
Context (Hl : layout_ok l) (Hsub : Forall (λ x, ∀ k, x.2 = Some k → safe k) l).

(** The first [k] fields hold values, the others are memory. *)
Definition typed_upto (k : nat) m : Prop :=
  length m = member_count (with_kops l) ∧
  ∀ i x, l !! i = Some x → ∃ sl, m !! f_member x.1 = Some sl ∧
    (if (i <? k)%nat then slot_typed x.1 x.2 sl else slot_sized x.1 x.2 sl).

Lemma typed_upto_all m : typed_upto (length l) m ↔ all_fields slot_typed l m.
Proof using.
  unfold typed_upto, all_fields. rewrite Forall_lookup. split; intros [H1 H2]; (split; [done|]); intros i x Hx.
  - destruct (H2 i x Hx) as (sl & Hsl & H). exists sl. split; [done|].
    destruct (Nat.ltb_spec i (length l)); [done|]. apply lookup_lt_Some in Hx. lia.
  - destruct (H2 i x Hx) as (sl & Hsl & H). exists sl. split; [done|].
    destruct (Nat.ltb_spec i (length l)); [done|]. apply lookup_lt_Some in Hx. lia.
Qed.
Lemma typed_upto_none m : typed_upto 0 m ↔ all_fields slot_sized l m.
Proof using. unfold typed_upto, all_fields. by rewrite Forall_lookup. Qed.

Lemma layout_at i x : l !! i = Some x →
  widths_ok x.1 x.2 ∧ f_tag x.1 ≠ 0 ∧ (∀ k, x.2 = Some k → safe k).
Proof using Hl Hsub.
  intros Hx. destruct Hl as (HF & _). rewrite Forall_lookup in HF. destruct (HF i x Hx). split_and!; [done|done|].
  rewrite Forall_lookup in Hsub. by apply (Hsub i).
Qed.

Lemma slot_typed_sized i x sl : l !! i = Some x → slot_typed x.1 x.2 sl → slot_sized x.1 x.2 sl.
Proof using Hl Hsub.
  intros Hx. destruct (layout_at i x Hx) as (_ & _ & Hs). unfold slot_typed, slot_sized.
  destruct (f_atype x.1), (f_htype x.1), sl; try done; [by apply typed_sized..|]. by intros (H1 & H2 & _).
Qed.

(** Storing a value of field [j]. *)
Lemma typed_store k k' m j x sl w :
  typed_upto k m → l !! j = Some x → slot_typed x.1 x.2 sl → selects x.1 w sl → w = f_tag x.1 ∨ w = 0 →
  (j < k')%nat → k' = k ∨ (k = j ∧ k' = S j) → typed_upto k' (<[f_member x.1 := sl]> m).
Proof using Hl.
  intros [H1 H2] Hx Ht Hsel Hw Hj Hk. split; [by rewrite length_insert|]. intros i y Hy.
  destruct (H2 i y Hy) as (sly & Hsly & Hty). pose proof (lookup_lt_Some _ _ _ Hsly) as Hlt.
  destruct (decide (i = j)) as [->|Hne].
  { assert (y = x) as -> by congruence. exists sl. split; [by apply list_lookup_insert_eq|].
    destruct (Nat.ltb_spec j k'); [done|lia]. }
  destruct (decide (f_member x.1 = f_member y.1)) as [Em|Em].
  - exists sl. rewrite <- Em in Hlt |- *. split; [by apply list_lookup_insert_eq|].
    destruct Hl as (HF & HD & Hsh). destruct (Hsh j i x y Hx Hy Em) as (E1 & E2 & E3 & E4); [done|].
    destruct (Hsel E1 E3) as [v ->]. unfold slot_typed, slot_sized. rewrite E2, E4.
    destruct (i <? k')%nat; [|done]. intros Ew. exfalso. rewrite Forall_lookup in HF.
    destruct (HF i y Hy) as [_ Hz]. destruct Hw as [Hw|Hw]; [|congruence].
    apply Hne. apply (NoDup_lookup _ i j (f_tag y.1) HD); rewrite list_lookup_fmap; [by rewrite Hy|].
    rewrite Hx. cbn. by rewrite <- Hw, Ew.
  - exists sly. split; [by rewrite list_lookup_insert_ne|].
    destruct Hk as [->|[-> ->]]; [done|]. destruct (Nat.ltb_spec i (S j)), (Nat.ltb_spec i j); [done|lia|lia|done].
Qed.

Lemma with_kops_lookup i x : l !! i = Some x → with_kops l !! i = Some (x.1, kops x.2).
Proof using. intros Hx. unfold with_kops. by rewrite list_lookup_fmap, Hx. Qed.

Lemma set_to_defaults_typed post pre wt tag defstream m m' :
  l = pre ++ post → typed_upto (length pre) m →
  set_to_defaults callback (with_kops post) wt tag defstream m = Some m' → typed_upto (length l) m'.
Proof using Hl Hsub ML.
  revert pre wt tag defstream m. induction post as [|x post IH]; intros pre wt tag defstream m El Hm H.
  { injection H as <-. by rewrite El, app_nil_r. }
  assert (l !! length pre = Some x) as Hx by (rewrite El; by apply list_lookup_middle).
  destruct (layout_at _ _ Hx) as (Hw & Hz & Hs). pose proof (proj2 Hm _ _ Hx) as (sl & Hsl & Hsz).
  rewrite Nat.ltb_irrefl in Hsz. destruct x as [f sub]. cbn [fst snd] in *.
  unfold with_kops in H. cbn [fmap list_fmap set_to_defaults fst snd] in H.
  rewrite Hsl in H. cbn [mbind option_bind] in H. apply bind_Some in H as (sl1 & Hd & H).
  destruct (set_to_default_typed f sub Hw Hs sl sl1 Hz Hsz Hd) as [Ht1 Hsel1].
  assert (∀ sl', slot_typed f sub sl' → selects f 0 sl' → typed_upto (length (pre ++ [(f, sub)])) (<[f_member f := sl']> m)) as Hst.
  { intros sl' Ht' Hsel'. rewrite length_app. cbn [length].
    apply (typed_store (length pre) _ m (length pre) (f, sub) sl' 0); try done; [by right|lia|right; lia]. }
  assert (l = (pre ++ [(f, sub)]) ++ post) as El' by (by rewrite <- app_assoc).
  destruct (_ && _).
  - apply bind_Some in H as ([[sl2 n2] s1] & Hd2 & H). apply bind_Some in H as ([[wt' tag'] s2] & _ & H).
    destruct (decode_field_typed f sub Hw Hs _ _ _ _ _ _ _ _ Ht1 Hd2) as [Ht2 Hsel2].
    destruct (clear_has_typed f sub _ sl2 Hz Ht2 Hsel2) as [Ht3 Hsel3].
    apply (IH _ _ _ _ _ El' (Hst _ Ht3 Hsel3) H).
  - apply (IH _ _ _ _ _ El' (Hst _ Ht1 Hsel1) H).
Qed.

Lemma inner_loop_typed flags k lo m buf m' rest :
  typed_upto (length l) m → inner_loop k callback flags (with_kops l) lo m buf = Some (m', rest) →
  typed_upto (length l) m'.
Proof using Hl Hsub ML.
  assert (∀ lo m rest0, finish (with_kops l) lo m rest0 = Some (m', rest) → m' = m) as Hfin.
  { unfold finish. intros lo0 m0 rest0 H. unbind. done. }
  revert lo m buf. induction k as [|k IH]; intros lo m buf Hm H; (destruct buf as [|b buf]; cbn [inner_loop] in H;
    [by apply Hfin in H as ->|]); [done|].
  apply bind_Some in H as ([[wt tag] s1] & _ & H). destruct (tag =? 0).
  { destruct (negb _); [|done]. by apply Hfin in H as ->. }
  destruct (find_by_tag (with_kops l) tag) as [i|].
  - apply bind_Some in H as ([f o] & Hi & H). apply bind_Some in H as (lo1 & _ & H). cbv zeta in H.
    apply bind_Some in H as (sl & Hsl & H). apply bind_Some in H as ([[sl' n'] s2] & Hd & H).
    unfold with_kops in Hi. rewrite list_lookup_fmap in Hi. destruct (l !! i) as [[f' sub]|] eqn:Hx; [|done].
    injection Hi as -> <-. cbn [fst snd] in *. destruct (layout_at _ _ Hx) as (Hw & Hz & Hs).
    pose proof (lookup_lt_Some _ _ _ Hx) as Hlt. destruct (proj2 Hm _ _ Hx) as (sl0 & Hsl0 & Ht).
    cbn [fst snd] in *. rewrite Hsl in Hsl0. injection Hsl0 as <-. destruct (Nat.ltb_spec i (length l)); [|lia].
    destruct (decode_field_typed f sub Hw Hs _ _ _ _ _ _ _ _ Ht Hd) as [Ht' Hsel].
    eapply IH; [|exact H]. apply (typed_store (length l) _ m i (f, sub) sl' (f_tag f)); try done; by left.
  - apply bind_Some in H as (s2 & _ & H). by eapply IH.
Qed.

(** Zeroed memory holds values. *)
Lemma zero_slot_typed i x :
  l !! i = Some x → slot_typed x.1 x.2 (zero_member (with_kops l) (f_member x.1)).
Proof using Hl Hsub.
  intros Hx. unfold zero_member. destruct (first_such _ _) as [j|] eqn:Hj.
  2:{ apply with_kops_lookup in Hx. apply (proj1 (first_such_None _ _) Hj i) in Hx. by apply Nat.eqb_neq in Hx. }
  apply first_such_Some in Hj as [(z & Hz & Hm) _]. unfold with_kops in Hz. rewrite list_lookup_fmap in Hz.
  destruct (l !! j) as [y|] eqn:Hy; [|done]. injection Hz as <-. apply Nat.eqb_eq in Hm. cbn [fst] in Hm.
  cbn [mbind option_bind]. rewrite (with_kops_lookup _ _ Hy). destruct (layout_at i x Hx) as (Hw & Hz & Hs).
  destruct (decide (i = j)) as [<-|Hne].
  - assert (y = x) as -> by congruence. unfold slot_typed, zero_slot. pose proof (zero_typed x.1 x.2 Hw Hs) as HZ.
    pose proof (typed_sized x.1 x.2 Hs _ HZ) as HZ'.
    destruct (f_atype x.1); [|by destruct (f_htype x.1)].
    destruct (f_htype x.1); rewrite ?take_0, ?length_replicate; split_and?; try done; try lia;
      try by apply Forall_replicate.
  - destruct Hl as (_ & _ & Hsh). destruct (Hsh i j x y Hx Hy) as (E1 & E2 & E3 & E4); [done|done|].
    rewrite E4. unfold slot_typed, zero_slot. rewrite E1, E2, E3. intros E. by destruct Hz.
Qed.

Lemma message_safe : safe (message_kind def callback l).
Proof using Hl Hsub ML.
  assert (∀ m m', all_fields slot_sized l m → pb_message_set_to_defaults def callback (with_kops l) m = Some m' →
    all_fields slot_typed l m') as Hdef.
  { intros m m' Hm H. apply typed_upto_all. apply typed_upto_none in Hm. unfold pb_message_set_to_defaults in H.
    destruct def as [d|].
    - apply bind_Some in H as ([[wt tag] s1] & _ & H). by eapply (set_to_defaults_typed l []).
    - by eapply (set_to_defaults_typed l []). }
  split.
  - intros m Hm. cbn [k_typed k_sized message_kind] in Hm |- *. destruct Hm as [H1 H2]. split; [done|]. rewrite Forall_lookup in H2. apply Forall_lookup. intros i x Hx.
    destruct (H2 i x Hx) as (sl & Hsl & Ht). exists sl. split; [done|]. by eapply slot_typed_sized.
  - cbn. split; [unfold zero_members; by rewrite length_fmap, length_seq|]. apply Forall_lookup. intros i x Hx.
    exists (zero_member (with_kops l) (f_member x.1)). split; [|by eapply zero_slot_typed].
    apply with_kops_lookup, zero_members_lookup in Hx. exact Hx.
  - exact Hdef.
  - intros flags m buf m' rest Hm H. cbn [k_ops k_typed k_sized message_kind op_decode message_ops_of] in Hm, H |- *.
    unfold pb_decode_inner in H.
    apply bind_Some in H as (m0 & H0 & H). apply typed_upto_all. eapply inner_loop_typed; [|exact H].
    apply typed_upto_all. destruct (_ =? 0); [by eapply Hdef|by injection H0 as <-].
Qed.
End Message.

End Safe.

(** * Witness: a short message into memory full of garbage *)
Lemma demo_memory_lawful : MemoryLawful (Mem := demo_memory).
Proof.
  intros f sub v Hn. unfold sized, reread, demo_memory, zero_value, zeros.
  destruct (f_ltype f); by rewrite ?length_replicate.
Qed.

Definition demo_garbage : list (slot unit) :=
  [One true (VInt 77); Many 9 [VInt 5; VInt 6; VInt 7];
   One true (VMessage [One true (VString (replicate 8 255)); One true (VInt 1)]);
   Union 99 (VInt 3); Many 0 [VString [1; 2; 3]; VString [4; 5; 6]]].
(** The required number, an inner name, and the second kind of the oneof. *)
Definition demo_input : bytes := [8; 1; 26; 3; 10; 1; 90; 42; 1; 7].
Definition demo_cleaned : list (slot unit) :=
  [One true (VInt 1); Many 0 [VInt 5; VInt 6; VInt 7];
   One true (VMessage [One false (VString [90; 0; 0; 0; 0; 0; 0; 0]); One false (VInt 0)]);
   Union 5 (VBytes 1 [7; 0; 0; 0]); Many 0 [VString [1; 2; 3]; VString [4; 5; 6]]].

