(* ===== verification/NanopbFlat.v ===== *)
(** The two models of the protobuf runtime agree: on a descriptor of the kind the file
    Nanopb is about, flat and without arrays, the runtime of NanopbMessages writes the
    same bytes and reads the same structures. *)
From S2P Require Import Prelude Nanopb NanopbMessages NanopbCorrect.

Section Flat.
Context {A : Type} {Mem : Memory A}.

(** * A flat descriptor as a tree *)
Definition embed_ltype (t : Nanopb.ltype) : ltype :=
  match t with
  | Nanopb.LT_UVARINT => LT_UVARINT
  | Nanopb.LT_SVARINT => LT_SVARINT
  | Nanopb.LT_BYTES => LT_BYTES
  | Nanopb.LT_FIXED_LENGTH_BYTES => LT_FIXED_LENGTH_BYTES
  end.
Definition embed_htype (t : Nanopb.htype) : htype :=
  match t with Nanopb.HT_SINGULAR => HT_SINGULAR | Nanopb.HT_OPTIONAL => HT_OPTIONAL end.
(** Nanopb counts the bytes of a BYTES array only. *)
Definition embed_field (i : nat) (f : Nanopb.field) : field :=
  Field (Nanopb.f_tag f) (embed_ltype (Nanopb.f_ltype f)) (embed_htype (Nanopb.f_htype f)) (Nanopb.f_atype f)
     (match Nanopb.f_ltype f with Nanopb.LT_BYTES => f_size f + 2 | _ => f_size f end) 0 i.
Fixpoint embed_fields (i : nat) (desc : list Nanopb.field) : list (field * option pb_msgdesc) :=
  match desc with [] => [] | f :: desc' => (embed_field i f, None) :: embed_fields (S i) desc' end.
Definition embed_desc (desc : list Nanopb.field) : pb_msgdesc := MsgDesc (embed_fields 0 desc) None true.

Definition embed_value (v : Nanopb.value) : value A :=
  match v with
  | Nanopb.VInt z => VInt z
  | Nanopb.VBytes size buf => VBytes size buf
  | Nanopb.VFixed buf => VFixed buf
  | Nanopb.VCallback => VZero
  end.
Definition embed_slot (f : Nanopb.field) (sl : Nanopb.slot) : slot A :=
  match Nanopb.f_atype f with
  | AT_STATIC => One (s_has sl) (embed_value (s_val sl))
  | AT_CALLBACK => Func (Callback FuncNull null_arg)
  end.
Definition embed_message (desc : list Nanopb.field) (msg : list Nanopb.slot) : list (slot A) :=
  zip_with embed_slot desc msg.

(** The slot's value is of the field's kind. *)
Definition slot_fits (f : Nanopb.field) (sl : Nanopb.slot) : Prop :=
  match Nanopb.f_atype f, Nanopb.f_ltype f, s_val sl with
  | AT_CALLBACK, _, _ => sl = Slot false Nanopb.VCallback
  | AT_STATIC, (Nanopb.LT_UVARINT | Nanopb.LT_SVARINT), Nanopb.VInt _ => True
  | AT_STATIC, Nanopb.LT_BYTES, Nanopb.VBytes _ _ => True
  | AT_STATIC, Nanopb.LT_FIXED_LENGTH_BYTES, Nanopb.VFixed _ => True
  | _, _, _ => False
  end.

Fixpoint flat_ops (i : nat) (desc : list Nanopb.field) : list (field * option (message_ops (A := A))) :=
  match desc with [] => [] | f :: desc' => (embed_field i f, None) :: flat_ops (S i) desc' end.

Lemma embed_ops desc : ops (embed_desc desc) = message_ops_of None true (flat_ops 0 desc).
Proof using.
  cbn [ops embed_desc]. f_equal. generalize O. induction desc as [|f desc IH]; intros i; [done|].
  cbn [embed_fields map flat_ops fst snd]. by rewrite IH.
Qed.

(** * Encoding *)
Lemma encode_basic_agrees i f v s :
  slot_fits f (Slot false v) → Nanopb.f_atype f = AT_STATIC →
  encode_basic_field s (embed_field i f) None (embed_value v) = Nanopb.encode_basic_field s f v.
Proof using.
  destruct f as [t lt ht at_ n]. unfold slot_fits, embed_field, encode_basic_field, Nanopb.encode_basic_field,
    pb_encode_tag_for_field, Nanopb.pb_encode_tag_for_field. cbn. intros H ->.
  destruct lt, v; try done; cbn [embed_ltype wiretype embed_value];
    (destruct (pb_encode_tag s _ t) as [s1|]; [|done]); cbn [mbind option_bind]; try done.
  unfold pb_enc_bytes, Nanopb.pb_enc_bytes. cbn [data_size embed_field Nanopb.f_ltype f_size]. by rewrite Nat.add_sub.
Qed.

Lemma encode_slot_agrees i f sl s :
  slot_fits f sl → encode_field false true s (embed_field i f) None (embed_slot f sl) = Nanopb.encode_field s f sl.
Proof using.
  intros H. pose proof (encode_basic_agrees i f (s_val sl) s) as Hb. revert H Hb.
  destruct f as [t lt ht at_ n], sl as [has v]. unfold slot_fits, embed_slot, encode_field, Nanopb.encode_field, embed_field. cbn.
  destruct at_; [|by destruct ht]. intros H Hb. specialize (Hb H eq_refl). destruct ht; cbn [embed_htype] in *.
  - rewrite negb_involutive. rewrite Hb. unfold pb_check_proto3_default_value. cbn.
    by destruct lt, v.
  - rewrite Hb. by destruct has.
Qed.

Lemma embed_lookup desc msg i f sl :
  desc !! i = Some f → msg !! i = Some sl → embed_message desc msg !! i = Some (embed_slot f sl).
Proof using. intros Hf Hs. unfold embed_message. by rewrite lookup_zip_with, Hf, Hs. Qed.

Lemma encode_agrees desc msg s :
  Forall2 slot_fits desc msg → pb_encode (embed_desc desc) (embed_message desc msg) s = Nanopb.pb_encode s desc msg.
Proof using.
  intros H. unfold pb_encode. rewrite embed_ops. cbn [op_encode message_ops_of].
  assert (∀ post postm pre prem, length pre = length prem → Forall2 slot_fits post postm → ∀ s,
    encode_fields (bool_decide (is_Some (A := bytes) None)) true (flat_ops (length pre) post)
      (embed_message (pre ++ post) (prem ++ postm)) s = Nanopb.pb_encode s post postm) as HG;
    [|by apply (HG desc msg [] [])].
  clear H s. intros post. induction post as [|f post IH]; intros postm pre prem Hn HF s; inversion HF as [|? sl ? postm' Hsl HF']; subst; [done|].
  cbn [flat_ops encode_fields Nanopb.pb_encode]. change (f_member (embed_field (length pre) f)) with (length pre).
  rewrite (embed_lookup _ _ _ f sl) by (by rewrite ?Hn; apply list_lookup_middle).
  cbn [mbind option_bind]. change (bool_decide (is_Some None)) with false at 1. rewrite encode_slot_agrees by done.
  destruct (Nanopb.encode_field s f sl) as [s1|]; [|done]. cbn [mbind option_bind].
  specialize (IH postm' (pre ++ [f]) (prem ++ [sl])). rewrite !length_app, <- !app_assoc in IH. cbn [length app] in IH.
  rewrite Nat.add_1_r in IH. apply IH; [lia|done].
Qed.

(** * Decoding *)
Lemma decode_varint_agrees i f buf :
  Nanopb.f_ltype f = Nanopb.LT_UVARINT ∨ Nanopb.f_ltype f = Nanopb.LT_SVARINT →
  ('(z, r) ← pb_dec_varint (embed_field i f) buf; Some (VInt (A := A) z, r))
  = (λ x, (embed_value x.1, x.2)) <$> Nanopb.pb_dec_varint f buf.
Proof using.
  unfold pb_dec_varint, Nanopb.pb_dec_varint. destruct f as [t lt ht at_ n]. cbn. intros [-> | ->]; cbn.
  - destruct (pb_decode_varint buf) as [[z r]|]; [|done]. cbn. destruct (valid_int_size n); [|done]. cbn.
    by destruct (_ =? _).
  - destruct (pb_decode_svarint buf) as [[z r]|]; [|done]. cbn. destruct (valid_int_size n); [|done]. cbn.
    by destruct (_ =? _).
Qed.

Lemma decode_basic_agrees wt i f v buf :
  slot_fits f (Slot false v) → Nanopb.f_atype f = AT_STATIC → 0 <= wt < 8 →
  decode_basic_field wt (embed_field i f) None (embed_value v) buf
  = (λ x, (embed_value x.1, x.2)) <$> Nanopb.decode_basic_field wt f v buf.
Proof using.
  intros Hv Ha Hw. assert ((wt =? PB_WT_PACKED) = false) as Hp by (apply Z.eqb_neq; unfold PB_WT_PACKED; lia).
  pose proof (decode_varint_agrees i f buf) as Hn.
  unfold decode_basic_field, Nanopb.decode_basic_field. destruct f as [t lt ht at_ n]. cbn in Hv, Ha, Hn |- *.
  unfold slot_fits in Hv. cbn in Hv. subst at_. rewrite Hp, !orb_false_r.
  destruct lt, v as [z|size old|old|]; try done; cbn [embed_ltype embed_value f_ltype] in *.
  - destruct (wt =? PB_WT_VARINT); [|done]. by apply Hn; left.
  - destruct (wt =? PB_WT_VARINT); [|done]. by apply Hn; right.
  - destruct (wt =? PB_WT_STRING); [|done]. cbn [negb]. unfold pb_dec_bytes, Nanopb.pb_dec_bytes. cbn [data_size embed_field Nanopb.f_ltype f_size].
    destruct (pb_decode_varint32 buf) as [[size' r]|]; [|done]. cbn [mbind option_bind]. destruct (_ <? size'); [done|].
    assert ((Z.of_nat (n + 2) <? size' + 2) = (n <? Z.to_nat size')%nat) as ->.
    { destruct (Z.ltb_spec (Z.of_nat (n + 2)) (size' + 2)), (Nat.ltb_spec n (Z.to_nat size')); (done || lia). }
    destruct (n <? Z.to_nat size')%nat; [done|]. by destruct (pb_read r _) as [[l r']|].
  - destruct (wt =? PB_WT_STRING); [|done]. cbn [negb]. unfold pb_dec_fixed_length_bytes, Nanopb.pb_dec_fixed_length_bytes.
    cbn [data_size embed_field Nanopb.f_ltype f_size]. destruct (pb_decode_varint32 buf) as [[size' r]|]; [|done]. cbn [mbind option_bind].
    destruct (_ <? size'); [done|]. destruct (size' =? 0); [done|]. destruct (negb _); [done|]. by destruct (pb_read r _) as [[l r']|].
Qed.

Lemma decode_basic_fits wt f v buf v' r h :
  slot_fits f (Slot false v) → Nanopb.f_atype f = AT_STATIC →
  Nanopb.decode_basic_field wt f v buf = Some (v', r) → slot_fits f (Slot h v').
Proof using.
  destruct f as [t lt ht at_ n]. unfold slot_fits, Nanopb.decode_basic_field, Nanopb.pb_dec_varint, Nanopb.pb_dec_bytes,
    Nanopb.pb_dec_fixed_length_bytes. cbn. intros _ -> H. destruct lt; cbv zeta in H; by unbind.
Qed.

Lemma decode_callback_agrees wt buf :
  decode_callback_field true wt (Callback FuncNull (null_arg (A := A))) buf
  = (λ r, (Callback FuncNull null_arg, r)) <$> Nanopb.decode_callback_field wt buf.
Proof using.
  unfold decode_callback_field, Nanopb.decode_callback_field, pb_make_string_substream. cbn [negb].
  destruct (wt =? PB_WT_STRING).
  - destruct (pb_decode_varint32 buf) as [[size r]|]; [|done]. cbn [mbind option_bind].
    assert ((Z.of_nat (length r) <? size) = (length r <? Z.to_nat size)%nat) as ->.
    { destruct (Z.ltb_spec (Z.of_nat (length r)) size), (Nat.ltb_spec (length r) (Z.to_nat size)); (done || lia). }
    destruct (_ <? _)%nat; [done|]. cbn [mbind option_bind]. set (b := take _ r).
    assert (call_until_done (length b) (Callback FuncNull (null_arg (A := A))) b = Some (Callback FuncNull null_arg)) as ->; [|done].
    destruct b as [|c b]; [done|]. cbn [length call_until_done call_decode funcs mbind option_bind].
    by rewrite Nat.ltb_irrefl, andb_false_r.
  - by destruct (read_raw_value wt 10 buf).
Qed.

Lemma decode_slot_agrees wt i f sl n buf :
  slot_fits f sl → 0 <= wt < 8 →
  decode_field true wt (embed_field i f) None (embed_slot f sl) n buf
  = (λ x, (embed_slot f x.1, n, x.2)) <$> Nanopb.decode_field wt f sl buf
  ∧ ∀ sl' r, Nanopb.decode_field wt f sl buf = Some (sl', r) → slot_fits f sl'.
Proof using.
  intros H Hw. destruct sl as [has v]. destruct (Nanopb.f_atype f) eqn:Ha.
  - assert (slot_fits f (Slot false v)) as Hv by (revert H; unfold slot_fits; by rewrite Ha).
    pose proof (decode_basic_agrees wt i f v buf Hv Ha Hw) as Hb.
    pose proof (λ v' r h, decode_basic_fits wt f v buf v' r h Hv Ha) as Hf.
    unfold decode_field, Nanopb.decode_field, embed_slot. rewrite Ha. cbn [s_has s_val].
    change (f_atype (embed_field i f)) with (Nanopb.f_atype f). rewrite Ha. cbv iota. unfold decode_static_field.
    change (f_htype (embed_field i f)) with (embed_htype (Nanopb.f_htype f)).
    destruct (Nanopb.decode_basic_field wt f v buf) as [[v' r]|]; cbn [fmap option_fmap option_map fst snd] in Hb.
    + split; [destruct (Nanopb.f_htype f); cbn; by rewrite Hb|]. intros sl' r' [= <- _]. by eapply Hf.
    + split; [destruct (Nanopb.f_htype f); cbn; by rewrite Hb|done].
  - unfold decode_field, Nanopb.decode_field, embed_slot. rewrite Ha.
    change (f_atype (embed_field i f)) with (Nanopb.f_atype f). rewrite Ha. rewrite decode_callback_agrees.
    split; [by destruct (Nanopb.decode_callback_field wt buf)|]. intros sl' r' Hd. by unbind.
Qed.

Lemma find_agrees i desc tag : find_by_tag (flat_ops i desc) tag = Nanopb.find_by_tag desc tag.
Proof using.
  revert i. unfold find_by_tag, Nanopb.find_by_tag. induction desc as [|f desc IH]; intros i; [done|]. cbn [flat_ops first_such fst].
  change (f_tag (embed_field i f)) with (Nanopb.f_tag f). by rewrite IH.
Qed.

Lemma flat_ops_lookup i desc j : flat_ops i desc !! j = (λ f, (embed_field (i + j) f, None)) <$> desc !! j.
Proof using.
  revert i j. induction desc as [|f desc IH]; intros i [|j]; cbn; [done..|by rewrite Nat.add_0_r|].
  rewrite IH. by rewrite Nat.add_succ_comm.
Qed.

Lemma flat_not_required i desc : count_required (flat_ops i desc) = 0%nat.
Proof using.
  revert i. unfold count_required. induction desc as [|f desc IH]; intros i; [done|]. cbn [flat_ops].
  rewrite filter_cons_False; [apply IH|]. unfold is_required. cbn. by destruct (Nanopb.f_htype f).
Qed.

Lemma loop_agrees desc k msg buf :
  Forall2 slot_fits desc msg →
  inner_loop k true 0 (flat_ops 0 desc) locals_new (embed_message desc msg) buf
  = (λ m, (embed_message desc m, [])) <$> Nanopb.decode_fields k desc msg buf.
Proof using.
  revert msg buf. induction k as [|k IH]; intros msg buf HF.
  { destruct buf; [|done]. cbn [inner_loop Nanopb.decode_fields]. unfold finish. by rewrite flat_not_required. }
  destruct buf as [|b buf]; cbn [inner_loop Nanopb.decode_fields].
  { unfold finish. by rewrite flat_not_required. }
  destruct (pb_decode_tag (b :: buf)) as [[[wt tag] s1]|] eqn:Ht; [|done]. cbn [mbind option_bind].
  destruct (tag =? 0); [done|]. rewrite find_agrees. destruct (Nanopb.find_by_tag desc tag) as [i|].
  2:{ destruct (pb_skip_field wt s1) as [s2|]; [|done]. cbn [mbind option_bind]. by apply IH. }
  rewrite flat_ops_lookup. destruct (desc !! i) as [f|] eqn:Hf; [|done]. cbn [fmap option_fmap option_map mbind option_bind plus].
  destruct (Forall2_lookup_l _ _ _ _ _ HF Hf) as (sl & Hsl & Hfit). rewrite Hsl. cbn [mbind option_bind].
  assert (track_fixed i (embed_field i f) locals_new = Some locals_new) as ->
    by (unfold track_fixed; cbn; by destruct (Nanopb.f_htype f)).
  cbn [mbind option_bind]. cbv zeta. change (f_member (embed_field i f)) with i. rewrite (embed_lookup _ _ _ _ _ Hf Hsl).
  cbn [mbind option_bind].
  assert (mark_seen (count_required (take i (flat_ops 0 desc))) (embed_field i f) locals_new = locals_new) as ->
    by (unfold mark_seen; cbn; by destruct (Nanopb.f_htype f)).
  assert (0 <= wt < 8) as Hw.
  { unfold pb_decode_tag in Ht. unbind. rewrite (Z.land_ones _ 3) by lia. by apply Z.mod_pos_bound. }
  destruct (decode_slot_agrees wt i f sl (fixed_count_size locals_new) s1 Hfit Hw) as [E Hfit']. rewrite E.
  destruct (Nanopb.decode_field wt f sl s1) as [[sl' s2]|]; [|done]. cbn [fmap option_fmap option_map mbind option_bind fst snd].
  specialize (Hfit' sl' s2 eq_refl).
  assert (<[i := embed_slot f sl']> (embed_message desc msg) = embed_message desc (<[i := sl']> msg)) as ->.
  { unfold embed_message. rewrite insert_zip_with. by rewrite (list_insert_id desc). }
  change (Locals (fixed_count_field locals_new) (fixed_count_size locals_new) (fixed_count_total_size locals_new)
    (fields_seen locals_new)) with locals_new.
  apply IH. rewrite <- (list_insert_id desc i f Hf). by apply Forall2_insert.
Qed.

(** Singular fields have no flag. *)
Definition slot_ready (f : Nanopb.field) (sl : Nanopb.slot) : Prop :=
  slot_fits f sl ∧ (Nanopb.f_htype f = Nanopb.HT_SINGULAR → s_has sl = false).

Lemma default_agrees i f sl :
  slot_ready f sl →
  pb_field_set_to_default (embed_field i f) None (embed_slot f sl) = Some (embed_slot f (Nanopb.pb_field_set_to_default f))
  ∧ slot_fits f (Nanopb.pb_field_set_to_default f).
Proof using.
  destruct f as [t lt ht at_ n], sl as [has v]. unfold slot_ready, slot_fits, pb_field_set_to_default,
    Nanopb.pb_field_set_to_default, embed_slot, zero_value. cbn. intros [H Hh].
  destruct at_; [|done]. destruct ht; cbn; [rewrite Hh by done|]; destruct lt, v; try done;
    cbn; by rewrite ?Nat.add_sub.
Qed.

Lemma defaults_agree desc msg :
  Forall2 slot_ready desc msg →
  NanopbMessages.pb_message_set_to_defaults None true (flat_ops 0 desc) (embed_message desc msg)
  = Some (embed_message desc (Nanopb.pb_message_set_to_defaults desc)) ∧
  Forall2 slot_fits desc (Nanopb.pb_message_set_to_defaults desc).
Proof using.
  intros H. unfold NanopbMessages.pb_message_set_to_defaults, Nanopb.pb_message_set_to_defaults.
  assert (∀ post postm pre prem, length pre = length prem → Forall2 slot_ready post postm →
    set_to_defaults true (flat_ops (length pre) post) PB_WT_VARINT 0 [] (embed_message (pre ++ post) (prem ++ postm))
    = Some (embed_message (pre ++ post) (prem ++ (Nanopb.pb_field_set_to_default <$> post)))
    ∧ Forall2 slot_fits post (Nanopb.pb_field_set_to_default <$> post)) as HG; [|by apply (HG desc msg [] [])].
  clear H. intros post. induction post as [|f post IH]; intros postm pre prem Hn HF;
    inversion HF as [|? sl ? postm' Hsl HF']; subst; [done|].
  destruct (default_agrees (length pre) f sl Hsl) as [Hd Hfit].
  cbn [flat_ops set_to_defaults fmap list_fmap]. change (f_member (embed_field (length pre) f)) with (length pre).
  rewrite (embed_lookup _ _ _ f sl) by (by rewrite ?Hn; apply list_lookup_middle). cbn [mbind option_bind]. rewrite Hd.
  cbn [mbind option_bind Z.eqb negb andb].
  assert (<[length pre := embed_slot f (Nanopb.pb_field_set_to_default f)]> (embed_message (pre ++ f :: post) (prem ++ sl :: postm'))
    = embed_message (pre ++ f :: post) (prem ++ Nanopb.pb_field_set_to_default f :: postm')) as ->.
  { unfold embed_message. rewrite insert_zip_with. f_equal.
    - apply list_insert_id. by apply list_lookup_middle.
    - rewrite Hn. replace (length prem) with (length prem + 0)%nat by lia. by rewrite insert_app_r. }
  specialize (IH postm' (pre ++ [f]) (prem ++ [Nanopb.pb_field_set_to_default f])).
  rewrite !length_app, <- !app_assoc in IH. cbn [length app] in IH. rewrite Nat.add_1_r in IH.
  destruct IH as [IH1 IH2]; [lia|done|]. split; [exact IH1|by constructor].
Qed.

(** C18. The runtime the firmware's message uses and the one for nested messages are the
    same: for every flat descriptor and structure the encoders write the same bytes or
    both fail, and on all input bytes, into any structure, the decoders accept the same
    messages and read the same values. *)
Theorem flat_runtime_agrees desc msg s buf :
  Forall2 slot_ready desc msg →
  pb_encode (embed_desc desc) (embed_message desc msg) s = Nanopb.pb_encode s desc msg ∧
  pb_decode (embed_desc desc) (embed_message desc msg) buf = embed_message desc <$> Nanopb.pb_decode desc buf.
Proof using.
  intros H. split.
  - apply encode_agrees. eapply Forall2_impl; [exact H|]. by intros f sl [].
  - unfold pb_decode, Nanopb.pb_decode. rewrite embed_ops. cbn [op_decode message_ops_of]. unfold pb_decode_inner.
    destruct (defaults_agree desc msg H) as [E HF]. change (Z.land 0 PB_DECODE_NOINIT =? 0) with true. cbv iota.
    rewrite E. cbn [mbind option_bind].
    rewrite loop_agrees by done. by destruct (Nanopb.decode_fields _ _ _ _).
Qed.
End Flat.

(** * Witness: the message of Nanopb's own witness, and a truncated one *)
Lemma flat_runtime_agrees_witness :
  pb_encode (Mem := demo_memory) (embed_desc demo_desc) (embed_message (Mem := demo_memory) demo_desc demo_slots)
    (pb_ostream_from_buffer 8) = Some (OStream [8; 172; 2; 50; 3; 7; 8; 9] 8 false) ∧
  pb_decode (Mem := demo_memory) (embed_desc demo_desc) (embed_message (Mem := demo_memory) demo_desc demo_slots)
    [8; 172; 2; 50; 3; 7] = None.
Proof.
  assert (Forall2 slot_ready demo_desc demo_slots) as H.
  { repeat constructor. by intros [=]. }
  pose proof (flat_runtime_agrees (Mem := demo_memory) demo_desc demo_slots (pb_ostream_from_buffer 8) [8; 172; 2; 50; 3; 7] H) as [E D].
  split; [rewrite E|rewrite D]; vm_compute; reflexivity.
Defined.
