(* ===== verification/Wire.v ===== *)
(** The wire frame [mesh_message], the protocol constants it is interpreted
    with, and the compact queue representation [mesh/CompactMessage].

    [mesh_message.h], [message_types.h] and [opcodes.h] belong to the
    [lattice-protocol] submodule, which is not part of the repository's files:
    the numeric constants are a parameter (class [Protocol], with the
    distinctness the dispatch code relies on); the field list and widths are
    those of [CompactMessage.h], which mirrors the frame field by field. *)
From S2P Require Import Prelude Config.

Record mesh_message := MeshMessage {
  proto_version : Z;               (* uint8_t *)
  message_type : Z;                (* uint8_t *)
  data_type : Z;                   (* int32_t *)
  origin_mac_address : mac;
  target_mac_address : mac;
  last_hop_mac_address : mac;
  data : bytes;                    (* uint8_t[64] *)
  hop_count : Z;                   (* uint8_t *)
  epoch_num : Z;                   (* uint32_t *)
  seq_num : Z;                     (* uint16_t *)
  enrollment_public_key : bytes;   (* uint8_t[32] *)
  route_len : Z;                   (* uint8_t *)
  route_path : bytes;              (* uint8_t[48] *)
  auth_tag : bytes;                (* uint8_t[16] *)
  auth_path : bytes                (* uint8_t[8] *)
}.

(** [mesh_message msg = {}]. *)
Definition mesh_message_zero : mesh_message :=
  MeshMessage 0 0 0 ZERO_MAC ZERO_MAC ZERO_MAC (zeros 64) 0 0 0 (zeros 32) 0
    (zeros 48) (zeros 16) (zeros 8).

(** * Field updates, one per assigned field *)
Definition set_target (v : mac) (m : mesh_message) : mesh_message :=
  MeshMessage (proto_version m) (message_type m) (data_type m) (origin_mac_address m) v
    (last_hop_mac_address m) (data m) (hop_count m) (epoch_num m) (seq_num m)
    (enrollment_public_key m) (route_len m) (route_path m) (auth_tag m) (auth_path m).
Definition set_last_hop (v : mac) (m : mesh_message) : mesh_message :=
  MeshMessage (proto_version m) (message_type m) (data_type m) (origin_mac_address m)
    (target_mac_address m) v (data m) (hop_count m) (epoch_num m) (seq_num m)
    (enrollment_public_key m) (route_len m) (route_path m) (auth_tag m) (auth_path m).
Definition set_data (v : bytes) (m : mesh_message) : mesh_message :=
  MeshMessage (proto_version m) (message_type m) (data_type m) (origin_mac_address m)
    (target_mac_address m) (last_hop_mac_address m) v (hop_count m) (epoch_num m) (seq_num m)
    (enrollment_public_key m) (route_len m) (route_path m) (auth_tag m) (auth_path m).
Definition set_hop_count (v : Z) (m : mesh_message) : mesh_message :=
  MeshMessage (proto_version m) (message_type m) (data_type m) (origin_mac_address m)
    (target_mac_address m) (last_hop_mac_address m) (data m) v (epoch_num m) (seq_num m)
    (enrollment_public_key m) (route_len m) (route_path m) (auth_tag m) (auth_path m).
Definition set_route (len : Z) (path : bytes) (m : mesh_message) : mesh_message :=
  MeshMessage (proto_version m) (message_type m) (data_type m) (origin_mac_address m)
    (target_mac_address m) (last_hop_mac_address m) (data m) (hop_count m) (epoch_num m) (seq_num m)
    (enrollment_public_key m) len path (auth_tag m) (auth_path m).
Definition set_auth_tag (v : bytes) (m : mesh_message) : mesh_message :=
  MeshMessage (proto_version m) (message_type m) (data_type m) (origin_mac_address m)
    (target_mac_address m) (last_hop_mac_address m) (data m) (hop_count m) (epoch_num m) (seq_num m)
    (enrollment_public_key m) (route_len m) (route_path m) v (auth_path m).
Definition set_auth_path (v : bytes) (m : mesh_message) : mesh_message :=
  MeshMessage (proto_version m) (message_type m) (data_type m) (origin_mac_address m)
    (target_mac_address m) (last_hop_mac_address m) (data m) (hop_count m) (epoch_num m) (seq_num m)
    (enrollment_public_key m) (route_len m) (route_path m) (auth_tag m) v.

(** The relay step every forwarder performs: [relay.hop_count++] on [uint8_t]
    and [memcpy(relay.last_hop_mac_address, deviceMac, 6)]. *)
Definition bump_hop (m : mesh_message) : mesh_message := set_hop_count (u8 (hop_count m + 1)) m.
Definition relay_step (deviceMac : mac) (m : mesh_message) : mesh_message :=
  set_last_hop deviceMac (bump_hop m).

(** [&msg.route_path[i * 6]]. *)
Definition route_hop (i : nat) (path : bytes) : mac := slice (i * 6) 6 path.

(** A frame as it sits in memory: every field within its C type. *)
Record wf_message (m : mesh_message) : Prop := {
  wfm_proto : 0 <= proto_version m < 2 ^ 8;
  wfm_type : 0 <= message_type m < 2 ^ 8;
  wfm_dtype : - 2 ^ 31 <= data_type m < 2 ^ 31;
  wfm_origin : is_bytes 6 (origin_mac_address m);
  wfm_target : is_bytes 6 (target_mac_address m);
  wfm_last : is_bytes 6 (last_hop_mac_address m);
  wfm_data : is_bytes 64 (data m);
  wfm_hop : 0 <= hop_count m < 2 ^ 8;
  wfm_epoch : 0 <= epoch_num m < 2 ^ 32;
  wfm_seq : 0 <= seq_num m < 2 ^ 16;
  wfm_key : is_bytes 32 (enrollment_public_key m);
  wfm_rlen : 0 <= route_len m < 2 ^ 8;
  wfm_rpath : is_bytes 48 (route_path m);
  wfm_tag : is_bytes 16 (auth_tag m);
  wfm_apath : is_bytes 8 (auth_path m)
}.

(** * Protocol constants *)
Class Protocol := {
  MESH_TYPE_ADAPTER_DATA : Z;
  MESH_TYPE_MASTER_BEACON : Z;
  MESH_TYPE_ENROLLMENT : Z;
  MESH_TYPE_SERIAL_CMD_BROADCAST : Z;
  MESH_TYPE_JOIN_ACK : Z;
  MESH_TYPE_ROUTE_REPORT : Z;
  OP_HEALTH_REQ : Z;
  OP_HEALTH_REPORT : Z;
  OP_NODE_HEALTH : Z;
  OP_ROUTE_REPORT : Z;
  OP_NODE_ID_SET : Z;
  OP_CONFIG_SET : Z;
  OP_TX_POWER_SET : Z;
  mesh_types_distinct :
    NoDup [MESH_TYPE_ADAPTER_DATA; MESH_TYPE_MASTER_BEACON; MESH_TYPE_ENROLLMENT;
           MESH_TYPE_SERIAL_CMD_BROADCAST; MESH_TYPE_JOIN_ACK; MESH_TYPE_ROUTE_REPORT];
  opcodes_distinct :
    NoDup [OP_HEALTH_REQ; OP_HEALTH_REPORT; OP_NODE_HEALTH; OP_ROUTE_REPORT;
           OP_NODE_ID_SET; OP_CONFIG_SET; OP_TX_POWER_SET]
}.

(** The values documented in docs/server_requirements.md, sections 5 and 7. *)
Definition documented_protocol : Protocol.
Proof.
  refine {| MESH_TYPE_ADAPTER_DATA := 0; MESH_TYPE_MASTER_BEACON := 1;
            MESH_TYPE_ENROLLMENT := 2; MESH_TYPE_SERIAL_CMD_BROADCAST := 3;
            MESH_TYPE_JOIN_ACK := 4; MESH_TYPE_ROUTE_REPORT := 5;
            OP_HEALTH_REQ := 0xB0; OP_HEALTH_REPORT := 0xB1; OP_NODE_HEALTH := 0xB2;
            OP_ROUTE_REPORT := 0xB3; OP_NODE_ID_SET := 0xC0; OP_CONFIG_SET := 0xC1;
            OP_TX_POWER_SET := 0xC2 |};
    apply (bool_decide_unpack _); vm_compute; exact I.
Defined.

(** [MeshMessenger.h]. *)
Definition PROTO_VERSION : Z := 5.

Definition isSealedType `{Protocol} (messageType : Z) : bool :=
  (messageType =? MESH_TYPE_ADAPTER_DATA) || (messageType =? MESH_TYPE_ROUTE_REPORT).

(** [adapter_types] (adapter/Adapter.h). *)
Definition UNKNOWN_ADAPTER : Z := 0.
Definition SERIAL_ADAPTER : Z := 1.
Definition PIR_ADAPTER : Z := 2.

(** * CompactMessage *)
Record CompactMessage := Compact {
  c_data_type : Z;
  c_epoch_num : Z;
  c_origin_mac : mac;
  c_target_mac : mac;
  c_last_hop_mac : mac;
  c_seq_num : Z;
  c_proto_version : Z;
  c_message_type : Z;
  c_hop_count : Z;
  c_route_len : Z;
  c_data : bytes;
  c_enrollment_public_key : bytes;
  c_route_path : bytes;
  c_auth_tag : bytes;
  c_auth_path : bytes
}.

(** Sum of the field widths, which the [static_assert] bounds by 220. *)
Definition compact_size : nat :=
  (4 + 4 + 6 + 6 + 6 + 2 + 1 + 1 + 1 + 1 + 64 + 32 + 48 + 16 + 8)%nat.

Definition toCompact (src : mesh_message) : CompactMessage :=
  {| c_proto_version := proto_version src;
     c_message_type := message_type src;
     c_data_type := data_type src;
     c_origin_mac := take 6 (origin_mac_address src);
     c_target_mac := take 6 (target_mac_address src);
     c_last_hop_mac := take 6 (last_hop_mac_address src);
     c_data := take 64 (data src);
     c_hop_count := hop_count src;
     c_epoch_num := epoch_num src;
     c_seq_num := seq_num src;
     c_enrollment_public_key := take 32 (enrollment_public_key src);
     c_route_len := route_len src;
     c_route_path := take 48 (route_path src);
     c_auth_tag := take 16 (auth_tag src);
     c_auth_path := take 8 (auth_path src) |}.

(** [memcpy] of the whole of [src] to the start of a zeroed field. *)
Definition toWire (src : CompactMessage) : mesh_message :=
  let dst := mesh_message_zero in
  {| proto_version := c_proto_version src;
     message_type := c_message_type src;
     data_type := c_data_type src;
     origin_mac_address := splice 0 (take 6 (c_origin_mac src)) (origin_mac_address dst);
     target_mac_address := splice 0 (take 6 (c_target_mac src)) (target_mac_address dst);
     last_hop_mac_address := splice 0 (take 6 (c_last_hop_mac src)) (last_hop_mac_address dst);
     data := splice 0 (take 64 (c_data src)) (data dst);
     hop_count := c_hop_count src;
     epoch_num := c_epoch_num src;
     seq_num := c_seq_num src;
     enrollment_public_key :=
       splice 0 (take 32 (c_enrollment_public_key src)) (enrollment_public_key dst);
     route_len := c_route_len src;
     route_path := splice 0 (take 48 (c_route_path src)) (route_path dst);
     auth_tag := splice 0 (take 16 (c_auth_tag src)) (auth_tag dst);
     auth_path := splice 0 (take 8 (c_auth_path src)) (auth_path dst) |}.

Lemma splice_zeros_full n l : length l = n → splice 0 (take n l) (zeros n) = l.
Proof.
  intros <-. unfold splice, zeros. rewrite firstn_all. cbn.
  rewrite drop_ge by (rewrite length_replicate; done). apply app_nil_r.
Qed.

(** Queue residency is lossless: [toWire (toCompact m)] is [m] for every
    frame, so nothing a handler reads is dropped by the compact form, and the
    compact form fits the 220-byte budget. *)
Theorem compact_roundtrip m :
  wf_message m → toWire (toCompact m) = m ∧ (compact_size <= 220)%nat.
Proof.
  intros W. split; [|vm_compute; lia].
  destruct W as [_ _ _ [Ho _] [Ht _] [Hl _] [Hd _] _ _ _ [Hk _] _ [Hr _] [Hg _] [Hp _]].
  destruct m; cbn in *. unfold toCompact, toWire, mesh_message_zero; cbn -[splice zeros].
  change ZERO_MAC with (zeros 6). rewrite !take_take, !Nat.min_id.
  by rewrite !splice_zeros_full.
Qed.

(** Concrete frames for witnesses. *)
Definition demo_mac (k : Z) : mac := [2; 0; 0; 0; 0; k].

Lemma demo_mac_bytes k : is_byte k → is_bytes 6 (demo_mac k).
Proof. intros. split; [done|]. repeat constructor; unfold is_byte in *; lia. Qed.

Lemma zeros_bytes n : is_bytes n (zeros n).
Proof.
  split; [apply length_replicate|]. apply Forall_replicate. unfold is_byte. lia.
Qed.

Lemma mesh_message_zero_wf : wf_message mesh_message_zero.
Proof.
  assert (is_bytes 6 ZERO_MAC) by exact (zeros_bytes 6).
  split; cbn -[zeros]; try lia; try done; apply zeros_bytes.
Qed.

Lemma compact_roundtrip_witness :
  toWire (toCompact mesh_message_zero) = mesh_message_zero ∧ (compact_size <= 220)%nat.
Proof. exact (compact_roundtrip mesh_message_zero mesh_message_zero_wf). Defined.

(** * All the range conditions of a frame, as a test *)
Definition bytes_ok (n : nat) (l : bytes) : bool :=
  (length l =? n)%nat && forallb (λ b, (0 <=? b) && (b <? 256)) l.
Definition in_range (lo hi x : Z) : bool := (lo <=? x) && (x <? hi).
Definition wf_messageb (m : mesh_message) : bool :=
  in_range 0 (2 ^ 8) (proto_version m) && in_range 0 (2 ^ 8) (message_type m) &&
  in_range (- 2 ^ 31) (2 ^ 31) (data_type m) && bytes_ok 6 (origin_mac_address m) &&
  bytes_ok 6 (target_mac_address m) && bytes_ok 6 (last_hop_mac_address m) &&
  bytes_ok 64 (data m) && in_range 0 (2 ^ 8) (hop_count m) &&
  in_range 0 (2 ^ 32) (epoch_num m) && in_range 0 (2 ^ 16) (seq_num m) &&
  bytes_ok 32 (enrollment_public_key m) && in_range 0 (2 ^ 8) (route_len m) &&
  bytes_ok 48 (route_path m) && bytes_ok 16 (auth_tag m) && bytes_ok 8 (auth_path m).

Lemma bytes_ok_spec n l : bytes_ok n l = true → is_bytes n l.
Proof.
  unfold bytes_ok. intros [Hl%Nat.eqb_eq Hf]%andb_true_iff. split; [done|].
  rewrite forallb_forall in Hf. apply Forall_forall. intros b Hb.
  apply list_elem_of_In, Hf in Hb. unfold is_byte. bsimp. lia.
Qed.

Lemma wf_messageb_spec m : wf_messageb m = true → wf_message m.
Proof.
  unfold wf_messageb, in_range. intros H.
  repeat match goal with H : (_ && _) = true |- _ => apply andb_true_iff in H as [H ?] end.
  bsimp. split; (done || by apply bytes_ok_spec).
Qed.
