(* ===== verification/Platform.v ===== *)
(** The boundary of the firmware: ESP-IDF calls (timer, TRNG, ESP-NOW, NVS,
    restart) as events, answered by an environment that is a parameter of the
    model, and the monad the effectful handlers are written in.

    Nothing is assumed here about how the platform answers: [Env] returns an
    arbitrary function of the history of calls.  What a theorem relies on
    (e.g. that NVS returns what was stored) is stated as a named law below and
    appears as a hypothesis of that theorem. *)
From S2P Require Import Prelude Config Wire.

Inductive nvs_value := NvsU8 (v : Z) | NvsU32 (v : Z) | NvsBlob (b : bytes).

#[export] Instance nvs_value_eq_dec : EqDecision nvs_value.
Proof. solve_decision. Defined.

(** Driver set-up calls of main.cpp, with the parts of their configuration that
    matter: pins, direction and pulls, sizes, rates. *)
Inductive driver_call :=
  | NvsFlashInit
  | GpioConfig (pins : list Z) (output pullup pulldown : bool)
  | InstallIsrService (flags : Z)
  | UartInstall (rx_bytes tx_bytes : Z)
  | UartConfig (baud : Z)
  | WdtInit (timeout_ms : Z)
  | TaskCreate (name : string) (priority : Z) (core : option Z)
  | WifiPsNone
  | PmConfigure (max_mhz min_mhz : Z).

#[export] Instance driver_call_eq_dec : EqDecision driver_call.
Proof. solve_decision. Defined.

(** Calls out of the firmware, with the platform's answer. *)
Inductive event :=
  | EvTimer (us : Z)                                  (* esp_timer_get_time *)
  | EvRandom (r : Z)                                  (* esp_random *)
  | EvKeygen (priv pub : bytes) (ok : bool)           (* x25519 key generation *)
  | EvPeerExist (m : mac) (r : bool)                  (* esp_now_is_peer_exist *)
  | EvAddPeer (m : mac) (ok : bool)                   (* esp_now_add_peer *)
  | EvDelPeer (m : mac) (ok : bool)                   (* esp_now_del_peer *)
  | EvSend (target : mac) (frame : mesh_message) (ok : bool)  (* esp_now_send *)
  | EvNvsOpen (ok : bool)
  | EvNvsGet (key : string) (r : option nvs_value)
  | EvNvsSet (key : string) (v : nvs_value) (ok : bool)
  | EvNvsErase (key : string) (ok : bool)
  | EvNvsEraseAll (ok : bool)
  | EvNvsCommit (ok : bool)
  | EvTxPower (v : Z) (ok : bool)                     (* esp_wifi_set_max_tx_power *)
  | EvDeliver (m : mesh_message)                      (* externalRecvCallback *)
  | EvRelay (m : mac) (pubKey : bytes)                (* _enrollmentRelayFn *)
  | EvUart (b : bytes)                                (* uart_write_bytes *)
  | EvIsrAdd (pin : Z) (ok : bool)                    (* gpio_isr_handler_add *)
  | EvIsrRemove (pin : Z)                             (* gpio_isr_handler_remove *)
  | EvIntrType (pin : Z) (ty : Z)                     (* gpio_set_intr_type *)
  | EvIntrEnable (pin : Z) (on : bool)                (* gpio_intr_enable, gpio_intr_disable *)
  | EvDirection (pin : Z) (output : bool)             (* gpio_set_direction *)
  | EvDelay (ms : Z)                                  (* vTaskDelay *)
  | EvLevel (pin : Z) (level : bool)                  (* gpio_set_level *)
  | EvSample (pin : Z) (level : bool)                 (* gpio_get_level *)
  | EvShow (code : Z)                                 (* display->show *)
  | EvPulse (times : Z)                               (* errorLed->pulse *)
  | EvDriver (call : driver_call) (ok : bool)
  | EvFlashErase (ok : bool)                          (* nvs_flash_erase: all of the partition *)
  | EvRestart                                         (* esp_restart *)
  | EvAbort                                           (* ESP_ERROR_CHECK failed: panic and reset *)
  | EvHang.                                           (* while (true) of err::fatal *)

Abbreviation trace := (list event).   (* newest event first *)

Class Env := {
  env_timer : trace → Z;
  env_random : trace → Z;
  env_keygen : trace → option (bytes * bytes);
  env_peer_exist : trace → mac → bool;
  env_add_peer : trace → mac → bool;
  env_del_peer : trace → mac → bool;
  env_send : trace → mac → bool;
  env_nvs_open : trace → bool;
  env_nvs_get : trace → string → option nvs_value;
  env_nvs_set : trace → string → bool;
  env_nvs_erase : trace → string → bool;
  env_nvs_commit : trace → bool;
  env_tx_power : trace → bool;
  env_isr_add : trace → Z → bool;          (* gpio_isr_handler_add *)
  env_gpio_level : trace → Z → bool;       (* gpio_get_level *)
  (* xRingbufferSend: storage bytes, item bytes, items queued *)
  env_ring_accepts : nat → nat → nat → bool
}.

(** * Module-level state shared by every call (file-static objects) *)

(** [eeprom::detail::State]. *)
Record eeprom_state := EepromState {
  isInitialized : bool;
  isDevMode : bool;
  devEpoch : Z
}.

(** [utils::ErrorType] and [err_core::detail::State]; the LED pointer becomes
    "registered" and "initialized" flags, the display pointer a flag. *)
Inductive ErrorType :=
  GENERIC | SENSOR_FAIL | COMMUNICATION_FAIL | MEMORY_ERROR | CONFIG_ERROR
  | HARDWARE_FAILURE | USER_ERROR | TIMEOUT_ERROR.

Record err_state := ErrState {
  errorLed : bool;
  errorLedInitialized : bool;
  display : bool;
  initialized : bool;
  pendingBlink : bool;
  pendingBlinkType : ErrorType;
  inCallbackContext : bool
}.

Record world := World {
  w_trace : trace;
  w_eeprom : eeprom_state;
  w_err : err_state
}.

(** * The effect monad: a call returns, or the device restarts or hangs *)
Inductive result (A : Type) :=
  | Ok (a : A) (w : world)
  | Halt (w : world).
Arguments Ok {A} a w.
Arguments Halt {A} w.

Definition W (A : Type) : Type := world → result A.

Definition world_of {A} (r : result A) : world := match r with Ok _ w | Halt w => w end.

Definition wret {A} (a : A) : W A := λ w, Ok a w.
Definition whalt {A} : W A := λ w, Halt w.
Definition wbind {A B} (c : W A) (k : A → W B) : W B := λ w,
  match c w with
  | Ok a w' => k a w'
  | Halt w' => Halt w'
  end.

Notation "x <- c ;; k" := (wbind c (λ x, k))
  (at level 63, c at next level, right associativity) : lattice_scope.
Notation "'let*' p := c 'in' k" := (wbind c (λ x, match x with p => k end))
  (at level 10, p pattern, c at level 100, k at level 200) : lattice_scope.
Notation "c ;;; k" := (wbind c (λ _, k))
  (at level 63, right associativity) : lattice_scope.

Definition emit (e : event) : W unit := λ w,
  Ok tt (World (e :: w_trace w) (w_eeprom w) (w_err w)).
Definition ask {A} (f : trace → A) : W A := λ w, Ok (f (w_trace w)) w.
Definition get_eeprom : W eeprom_state := λ w, Ok (w_eeprom w) w.
Definition put_eeprom (s : eeprom_state) : W unit := λ w, Ok tt (World (w_trace w) s (w_err w)).
Definition get_err : W err_state := λ w, Ok (w_err w) w.
Definition put_err (s : err_state) : W unit := λ w, Ok tt (World (w_trace w) (w_eeprom w) s).

Section Calls.
Context {E : Env}.

(** [static_cast<uint64_t>(esp_timer_get_time()) / 1000ULL]. *)
Definition esp_timer_get_time : W Z :=
  us <- ask env_timer ;; emit (EvTimer us) ;;; wret us.
Definition now_ms : W Z := us <- esp_timer_get_time ;; wret (u64 us / 1000).

Definition esp_random : W Z := r <- ask env_random ;; emit (EvRandom r) ;;; wret (u32 r).

Definition esp_now_is_peer_exist (m : mac) : W bool :=
  r <- ask (λ tr, env_peer_exist tr m) ;; emit (EvPeerExist m r) ;;; wret r.
Definition esp_now_add_peer (m : mac) : W bool :=
  ok <- ask (λ tr, env_add_peer tr m) ;; emit (EvAddPeer m ok) ;;; wret ok.
Definition esp_now_del_peer (m : mac) : W bool :=
  ok <- ask (λ tr, env_del_peer tr m) ;; emit (EvDelPeer m ok) ;;; wret ok.
Definition esp_now_send (target : mac) (frame : mesh_message) : W bool :=
  ok <- ask (λ tr, env_send tr target) ;; emit (EvSend target frame ok) ;;; wret ok.

Definition nvs_open : W bool := ok <- ask env_nvs_open ;; emit (EvNvsOpen ok) ;;; wret ok.
Definition nvs_get (key : string) : W (option nvs_value) :=
  r <- ask (λ tr, env_nvs_get tr key) ;; emit (EvNvsGet key r) ;;; wret r.
Definition nvs_set (key : string) (v : nvs_value) : W bool :=
  ok <- ask (λ tr, env_nvs_set tr key) ;; emit (EvNvsSet key v ok) ;;; wret ok.
Definition nvs_erase_key (key : string) : W bool :=
  ok <- ask (λ tr, env_nvs_erase tr key) ;; emit (EvNvsErase key ok) ;;; wret ok.
Definition nvs_erase_all : W bool :=
  ok <- ask (λ tr, env_nvs_erase tr EmptyString) ;; emit (EvNvsEraseAll ok) ;;; wret ok.
Definition nvs_commit : W bool :=
  ok <- ask env_nvs_commit ;; emit (EvNvsCommit ok) ;;; wret ok.

Definition esp_wifi_set_max_tx_power (v : Z) : W bool :=
  ok <- ask env_tx_power ;; emit (EvTxPower v ok) ;;; wret ok.

Definition gpio_isr_handler_add (pin : Z) : W bool :=
  ok <- ask (λ tr, env_isr_add tr pin) ;; emit (EvIsrAdd pin ok) ;;; wret ok.
Definition gpio_isr_handler_remove (pin : Z) : W unit := emit (EvIsrRemove pin).
Definition gpio_set_level (pin : Z) (level : bool) : W unit := emit (EvLevel pin level).
Definition gpio_get_level (pin : Z) : W bool :=
  l <- ask (λ tr, env_gpio_level tr pin) ;; emit (EvSample pin l) ;;; wret l.

Definition gpio_set_intr_type (pin ty : Z) : W unit := emit (EvIntrType pin ty).
Definition gpio_intr_enable (pin : Z) : W unit := emit (EvIntrEnable pin true).
Definition gpio_intr_disable (pin : Z) : W unit := emit (EvIntrEnable pin false).
Definition gpio_set_direction (pin : Z) (output : bool) : W unit := emit (EvDirection pin output).

Definition uart_write_bytes (b : bytes) : W unit := emit (EvUart b).

Definition vTaskDelay (ms : Z) : W unit := emit (EvDelay ms).

Definition esp_restart {A} : W A := emit EvRestart ;;; whalt.
End Calls.

(** Sequential loop over a list of iterations, threading a state. *)
Fixpoint wfold {A S} (f : A → S → W S) (l : list A) (s : S) : W S :=
  match l with
  | [] => wret s
  | x :: l' => s' <- f x s ;; wfold f l' s'
  end.
Definition wfor {A} (f : A → W unit) (l : list A) : W unit := wfold (λ x _, f x) l tt.

(** * Reasoning: weakest preconditions and emitted events *)

(** [Q] holds of a returned value and world, [H] of the world of a halt. *)
Definition wp {A} (c : W A) (w : world) (Q : A → world → Prop) (H : world → Prop) : Prop :=
  match c w with
  | Ok a w' => Q a w'
  | Halt w' => H w'
  end.

Lemma wp_ret {A} (a : A) w (Q : A → world → Prop) H : Q a w → wp (wret a) w Q H.
Proof. done. Qed.

Lemma wp_bind {A B} (c : W A) (k : A → W B) w Q H :
  wp c w (λ a w', wp (k a) w' Q H) H → wp (wbind c k) w Q H.
Proof. unfold wp, wbind. by destruct (c w). Qed.

Lemma wbind_run {A B} (c : W A) (k : A → W B) w :
  wbind c k w = match c w with Ok a w' => k a w' | Halt w' => Halt w' end.
Proof. done. Qed.

Lemma wp_mono {A} (c : W A) w (Q Q' : A → world → Prop) (H H' : world → Prop) :
  wp c w Q H → (∀ a w', Q a w' → Q' a w') → (∀ w', H w' → H' w') → wp c w Q' H'.
Proof. unfold wp. destruct (c w); auto. Qed.

(** A call whose result does not matter to the postcondition. *)
Lemma wp_any {A B} (c : W A) (k : A → W B) w Q :
  (∀ a w', wp (k a) w' Q (λ _, True)) → wp (wbind c k) w Q (λ _, True).
Proof. intros H. unfold wp, wbind. destruct (c w) as [a w'|w']; [apply H|done]. Qed.

(** A call that always returns. *)
Lemma wp_run {A} (c : W A) w Q H a w' : c w = Ok a w' → Q a w' → wp c w Q H.
Proof. unfold wp. by intros ->. Qed.

Lemma wp_Ok {A} (c : W A) w Q H a w' : wp c w Q H → c w = Ok a w' → Q a w'.
Proof. unfold wp. intros HW Hc. by rewrite Hc in HW. Qed.

(** Counted loops, with an invariant indexed by the iteration. *)
Lemma wp_wfold_seq {S} (f : nat → S → W S) (I : nat → S → world → Prop) H n k s w :
  (∀ i s' w', (k <= i < k + n)%nat → I i s' w' → wp (f i s') w' (I (Datatypes.S i)) H) →
  I k s w → wp (wfold f (seq k n) s) w (I (k + n)%nat) H.
Proof.
  revert k s w. induction n as [|n IH]; intros k s w Hf HI; cbn [seq wfold].
  - rewrite Nat.add_0_r. by apply wp_ret.
  - apply wp_bind. eapply wp_mono; [apply Hf; [lia|done]| |done].
    intros s' w' HI'. rewrite <- Nat.add_succ_comm. apply IH; [|done].
    intros i s'' w'' Hi. apply Hf. lia.
Qed.

(** [emits P c]: whatever [c] does, it only appends events that satisfy [P]. *)
Definition appended (P : event → Prop) (w w' : world) : Prop :=
  ∃ evs, w_trace w' = evs ++ w_trace w ∧ Forall P evs.

Definition emits (P : event → Prop) {A} (c : W A) : Prop :=
  ∀ w, wp c w (λ _ w', appended P w w') (λ w', appended P w w').

Lemma appended_refl P w : appended P w w.
Proof. by exists []. Qed.

Lemma appended_trans P w1 w2 w3 : appended P w1 w2 → appended P w2 w3 → appended P w1 w3.
Proof.
  intros (e1 & E1 & H1) (e2 & E2 & H2). exists (e2 ++ e1).
  rewrite E2, E1, <- app_assoc. split; [done|by apply Forall_app_2].
Qed.

Section emits.
Context (P : event → Prop).

Lemma emits_ret {A} (a : A) : emits P (wret a).
Proof. intros w. apply appended_refl. Qed.

Lemma emits_halt {A} : emits P (@whalt A).
Proof. intros w. apply appended_refl. Qed.

Lemma emits_bind {A B} (c : W A) (k : A → W B) :
  emits P c → (∀ a, emits P (k a)) → emits P (wbind c k).
Proof.
  intros Hc Hk w. apply wp_bind. eapply wp_mono; [apply Hc| |done].
  cbn. intros a w' Hw. eapply wp_mono; [apply Hk|..]; cbn; intros;
    by eapply appended_trans.
Qed.

(** The continuation may rely on what the result satisfies. *)
Lemma emits_bind_spec {A B} (c : W A) (k : A → W B) (Q : A → Prop) :
  emits P c → (∀ w, wp c w (λ a _, Q a) (λ _, True)) → (∀ a, Q a → emits P (k a)) →
  emits P (wbind c k).
Proof.
  intros Hc HQ Hk w. specialize (Hc w). specialize (HQ w). unfold wp, wbind in *.
  destruct (c w) as [a w'|w']; [|exact Hc]. specialize (Hk a HQ w'). unfold wp in Hk.
  destruct (k a w'); by eapply appended_trans.
Qed.

Lemma emits_emit e : P e → emits P (emit e).
Proof. intros He w. exists [e]. split; [done|by constructor]. Qed.

Lemma emits_ask {A} (f : trace → A) : emits P (ask f).
Proof. intros w. apply appended_refl. Qed.

Lemma emits_get_eeprom : emits P get_eeprom.
Proof. intros w. apply appended_refl. Qed.
Lemma emits_put_eeprom s : emits P (put_eeprom s).
Proof. intros w. by exists []. Qed.
Lemma emits_get_err : emits P get_err.
Proof. intros w. apply appended_refl. Qed.
Lemma emits_put_err s : emits P (put_err s).
Proof. intros w. by exists []. Qed.

Lemma emits_wfold {A S} (f : A → S → W S) l s :
  (∀ x s', x ∈ l → emits P (f x s')) → emits P (wfold f l s).
Proof.
  revert s. induction l as [|x l IH]; intros s Hf; cbn; [apply emits_ret|].
  apply emits_bind; [apply Hf; by left|]. intros s'. apply IH.
  intros y s'' Hy. apply Hf. by right.
Qed.

Lemma emits_wfor {A} (f : A → W unit) l :
  (∀ x, x ∈ l → emits P (f x)) → emits P (wfor f l).
Proof. intros Hf. apply emits_wfold. intros x _ Hx. by apply Hf. Qed.

(** What was in the trace stays in it. *)
Lemma emits_Ok {A} (c : W A) w a w' :
  emits P c → c w = Ok a w' → appended P w w'.
Proof. intros Hc E. specialize (Hc w). unfold wp in Hc. by rewrite E in Hc. Qed.

Lemma emits_Halt {A} (c : W A) w w' :
  emits P c → c w = Halt w' → appended P w w'.
Proof. intros Hc E. specialize (Hc w). unfold wp in Hc. by rewrite E in Hc. Qed.
End emits.

Lemma wp_emits (P : event → Prop) {A} (c : W A) w Q H :
  emits P c → wp c w Q H → wp c w (λ a w', Q a w' ∧ appended P w w') H.
Proof.
  intros Hc HW. unfold wp in *. destruct (c w) as [a w'|w'] eqn:Ec; [|done].
  split; [done|]. by eapply emits_Ok.
Qed.

Lemma emits_weaken (P Q : event → Prop) {A} (c : W A) :
  emits P c → (∀ e, P e → Q e) → emits Q c.
Proof.
  intros Hc HPQ w. eapply wp_mono; [apply Hc|..]; cbn; intros;
    (destruct H as (evs & ? & ?); exists evs; split; [done|by eapply Forall_impl]).
Qed.

(** What holds of every result a call returns. *)
Definition yields {A} (P : A → Prop) (c : W A) : Prop := ∀ w, wp c w (λ a _, P a) (λ _, True).

Section yields.
Context {A B : Type} (P : A → Prop).

Lemma yields_ret (a : A) : P a → yields P (wret a).
Proof. by intros H w. Qed.
Lemma yields_halt : yields P whalt.
Proof. by intros w. Qed.
Lemma yields_bind (Q : B → Prop) (c : W B) (k : B → W A) :
  yields Q c → (∀ b, Q b → yields P (k b)) → yields P (wbind c k).
Proof.
  intros Hc Hk w. apply wp_bind. eapply wp_mono; [apply Hc| |done]. intros b w' HQ. by apply Hk.
Qed.
Lemma yields_after (c : W B) (k : B → W A) : (∀ b, yields P (k b)) → yields P (wbind c k).
Proof. intros Hk w. apply wp_any. intros b w'. apply Hk. Qed.
Lemma yields_Ok (c : W A) w a w' : yields P c → c w = Ok a w' → P a.
Proof. intros Hc E. exact (wp_Ok _ _ _ _ _ _ (Hc w) E). Qed.
End yields.

Lemma yields_weaken {A} (P Q : A → Prop) (c : W A) :
  yields P c → (∀ a, P a → Q a) → yields Q c.
Proof. intros Hc H w. eapply wp_mono; [apply Hc|cbn; auto|done]. Qed.

(** Close [yields P c] by following the syntax of [c], results of calls being
    arbitrary; [P] is checked at every return. *)
Ltac solve_yields :=
  repeat (intros; cbv beta iota zeta;
    first
    [ apply yields_halt
    | apply yields_ret; solve [done | cbn; auto]
    | apply yields_after
    | match goal with
      | |- yields _ (if ?b then _ else _) => destruct b eqn:?
      | |- yields _ (match ?x with _ => _ end) => destruct x eqn:?
      end ]).

(** A call that returns on every input (it never restarts nor hangs). *)
Definition returns {A} (c : W A) : Prop := ∀ w, ∃ a w', c w = Ok a w'.

Lemma returns_bind {A B} (c : W A) (k : A → W B) :
  returns c → (∀ a, returns (k a)) → returns (wbind c k).
Proof.
  intros Hc Hk w. unfold wbind. destruct (Hc w) as (a & w' & ->). apply Hk.
Qed.

Lemma returns_emits (P : event → Prop) {A} (c : W A) w :
  returns c → emits P c → ∃ a w', c w = Ok a w' ∧ appended P w w'.
Proof.
  intros Hr He. destruct (Hr w) as (a & w' & E). exists a, w'. split; [done|]. by eapply emits_Ok.
Qed.

Create HintDb emits discriminated.
#[export] Hint Resolve emits_ret emits_halt emits_ask emits_get_eeprom emits_put_eeprom
  emits_get_err emits_put_err : emits.
#[export] Hint Resolve appended_refl : emits.

(** Close [emits P c] goals by following the syntax of [c]; the lemmas of the
    components are found in the [emits] database, and a bare event is checked
    by computing [P]. *)
Ltac solve_event :=
  solve [ done | exact I | cbn; eauto
        | match goal with
          | H : ∀ e, _ → ?P e |- ?P _ => apply H; solve_event
          | |- _ ∨ _ => left; solve_event
          | |- _ ∨ _ => right; solve_event
          end ].

Ltac solve_emits :=
  repeat (intros; cbv beta zeta;
    first
    [ done
    | solve [eauto 2 with emits]
    | apply emits_bind
    | apply emits_emit; solve_event
    | apply emits_wfor | apply emits_wfold
    | match goal with
      | |- emits _ (if ?b then _ else _) => destruct b eqn:?
      | |- emits _ (match ?x with _ => _ end) => destruct x eqn:?
      end ]).

(** Events that leave flash in one piece: single keys may change. *)
Definition no_erase (e : event) : Prop :=
  match e with EvNvsEraseAll _ | EvFlashErase _ => False | _ => True end.

(** What went out on the UART, oldest byte first. *)
Fixpoint uart_sent (tr : trace) : bytes :=
  match tr with
  | [] => []
  | EvUart b :: tr' => uart_sent tr' ++ b
  | _ :: tr' => uart_sent tr'
  end.

(** * NVS: the documented behaviour of a key-value store *)

(** The value a key holds after a history of calls, starting from [init]. *)
Fixpoint nvs_store (init : string → option nvs_value) (tr : trace) (k : string)
    : option nvs_value :=
  match tr with
  | [] => init k
  | EvNvsSet k' v true :: tr' => if String.eqb k' k then Some v else nvs_store init tr' k
  | EvNvsErase k' true :: tr' => if String.eqb k' k then None else nvs_store init tr' k
  | EvNvsEraseAll true :: tr' | EvFlashErase true :: tr' => None
  | _ :: tr' => nvs_store init tr' k
  end.

(** A platform whose [nvs_get_*] answer what was stored, and whose namespace
    can be opened; writes may still fail. *)
Class NvsLawful (E : Env) := {
  nvs_initial : string → option nvs_value;
  nvs_get_stored : ∀ tr k, env_nvs_get tr k = nvs_store nvs_initial tr k;
  nvs_open_ok : ∀ tr, env_nvs_open tr = true
}.

(** Some NVS write fails on this platform. *)
Definition nvs_write_fault (E : Env) : Prop :=
  ∃ tr k, env_nvs_open tr = false ∨ env_nvs_set tr k = false ∨ env_nvs_commit tr = false.

(** * esp_timer: microseconds since boot *)

(** A clock that never runs backwards and advances over a task delay. *)
Class ClockLawful (E : Env) := {
  timer_nonneg : ∀ tr, 0 <= env_timer tr;
  timer_monotone : ∀ evs tr, env_timer tr <= env_timer (evs ++ tr);
  timer_delay : ∀ ms tr, 0 < ms → env_timer tr < env_timer (EvDelay ms :: tr)
}.

(** Reading the clock takes a microsecond or more. *)
Class ClockTicks (E : Env) := {
  timer_tick : ∀ us tr, env_timer tr < env_timer (EvTimer us :: tr)
}.

(** Every call only adds to the trace, so such a clock advances over it. *)
Definition grows {A} (c : W A) : Prop := emits (λ _, True) c.

(** Milliseconds since boot. *)
Definition ms_now {E : Env} (w : world) : Z := env_timer (w_trace w) / 1000.

Section Clock.
Context {E : Env} {L : ClockLawful E}.

Lemma ms_now_mono w w' evs : w_trace w' = evs ++ w_trace w → ms_now w <= ms_now w'.
Proof using L. intros H. unfold ms_now. rewrite H. apply Z.div_le_mono; [lia|]. apply timer_monotone. Qed.

Lemma grows_later {A} (c : W A) w a w' : grows c → c w = Ok a w' → ms_now w <= ms_now w'.
Proof using L. intros Hc E1. destruct (emits_Ok _ _ _ _ _ Hc E1) as (evs & H & _). by eapply ms_now_mono. Qed.
End Clock.

(** * ESP-NOW: the documented behaviour of the radio's peer table *)

(** Is [m] a registered peer after a history of calls? *)
Fixpoint espnow_registered (tr : trace) (m : mac) : bool :=
  match tr with
  | [] => false
  | EvAddPeer m' true :: tr' => if mac_eq m' m then true else espnow_registered tr' m
  | EvDelPeer m' true :: tr' => if mac_eq m' m then false else espnow_registered tr' m
  | _ :: tr' => espnow_registered tr' m
  end.

Class EspNowLawful (E : Env) := {
  peer_exist_registered : ∀ tr m, env_peer_exist tr m = espnow_registered tr m;
  del_peer_ok : ∀ tr m, espnow_registered tr m = true → env_del_peer tr m = true
}.

(** A concrete platform, for witnesses: every call succeeds, time advances by a
    millisecond per call, NVS and ESP-NOW behave as documented. *)
Definition ref_env : Env := {|
  env_timer := λ tr, Z.of_nat (length tr) * 1000;
  env_random := λ _, 17;
  env_keygen := λ _, Some (replicate 32 1, replicate 32 2);
  env_peer_exist := espnow_registered;
  env_add_peer := λ _ _, true;
  env_del_peer := λ _ _, true;
  env_send := λ _ _, true;
  env_nvs_open := λ _, true;
  env_nvs_get := nvs_store (λ _, None);
  env_nvs_set := λ _ _, true;
  env_nvs_erase := λ _ _, true;
  env_nvs_commit := λ _, true;
  env_tx_power := λ _, true;
  env_isr_add := λ _ _, true;
  env_gpio_level := λ _ _, true;
  env_ring_accepts := λ storage item queued,
    (((queued + 1) * ((item + 3) / 4 * 4 + 8)) <=? storage)%nat
|}.

#[export] Instance ref_env_lawful : NvsLawful ref_env.
Proof. refine {| nvs_initial := λ _, None |}; reflexivity. Defined.

#[export] Instance ref_env_espnow : EspNowLawful ref_env.
Proof. by split. Defined.

#[export] Instance ref_env_clock : ClockLawful ref_env.
Proof. split; intros; cbn [env_timer ref_env]; rewrite ?length_app; cbn [length]; lia. Defined.

#[export] Instance ref_env_ticks : ClockTicks ref_env.
Proof. split. intros. cbn [env_timer ref_env length]. lia. Defined.

(** The reference platform with a slow clock: half a second between calls. *)
Definition slow_env : Env := {|
  env_timer := λ tr, Z.of_nat (length tr) * 500000;
  env_random := env_random (Env := ref_env);
  env_keygen := env_keygen (Env := ref_env);
  env_peer_exist := env_peer_exist (Env := ref_env);
  env_add_peer := env_add_peer (Env := ref_env);
  env_del_peer := env_del_peer (Env := ref_env);
  env_send := env_send (Env := ref_env);
  env_nvs_open := env_nvs_open (Env := ref_env);
  env_nvs_get := env_nvs_get (Env := ref_env);
  env_nvs_set := env_nvs_set (Env := ref_env);
  env_nvs_erase := env_nvs_erase (Env := ref_env);
  env_nvs_commit := env_nvs_commit (Env := ref_env);
  env_tx_power := env_tx_power (Env := ref_env);
  env_isr_add := env_isr_add (Env := ref_env);
  env_gpio_level := env_gpio_level (Env := ref_env);
  env_ring_accepts := env_ring_accepts (Env := ref_env)
|}.

#[export] Instance slow_env_clock : ClockLawful slow_env.
Proof. split; intros; cbn [env_timer slow_env]; rewrite ?length_app; cbn [length]; lia. Defined.

#[export] Instance slow_env_lawful : NvsLawful slow_env.
Proof. refine {| nvs_initial := λ _, None |}; reflexivity. Defined.

Lemma slow_env_no_fault : ¬ nvs_write_fault slow_env.
Proof. by intros (tr & k & [[=]|[[=]|[=]]]). Qed.

Lemma ref_env_no_fault : ¬ nvs_write_fault ref_env.
Proof. by intros (tr & k & [[=]|[[=]|[=]]]). Qed.

Definition ref_world : world :=
  World [] (EepromState true false 0) (ErrState false false false false false GENERIC false).
