(* ===== verification/Logger.v ===== *)
(** Log output: [logging/Logger] and [logging/LogLevelConfig.h].  The macros and the
    class write text to UART 0, the line of the serial adapter; what text does to the
    framed protocol on that line is in [SerialLine].

    A C string is the list of its bytes up to the first NUL.  What a format string
    expands to is the C library's and an argument here. *)
From S2P Require Import Prelude Config Platform.

Inductive LogLevel := LOG_DEBUG | LOG_INFO | LOG_WARN | LOG_ERROR | LOG_NONE.

#[export] Instance LogLevel_eq_dec : EqDecision LogLevel.
Proof. solve_decision. Defined.

Definition level_value (l : LogLevel) : Z :=
  match l with LOG_DEBUG => 0 | LOG_INFO => 1 | LOG_WARN => 2 | LOG_ERROR => 3 | LOG_NONE => 4 end.

(** [LATTICE_DEFAULT_LOG_LEVEL], as an enumerator. *)
Definition DEFAULT_LOG_LEVEL : LogLevel := LOG_NONE.

(** [Logger]'s static member and its initial value. *)
Record Logger := LoggerState { currentLevel : LogLevel }.
Definition logger_new : Logger := LoggerState LOG_DEBUG.
Definition setLogLevel (level : LogLevel) (l : Logger) : Logger := LoggerState level.
Definition getLogLevel (l : Logger) : LogLevel := currentLevel l.

(** [currentLevel > level], the early return of every method. *)
Definition filtered (l : Logger) (level : LogLevel) : bool :=
  level_value level <? level_value (currentLevel l).

(** What the C library reads of a string: up to the NUL. *)
Fixpoint c_str (s : bytes) : bytes :=
  match s with
  | [] => []
  | b :: s' => if b =? 0 then [] else b :: c_str s'
  end.

(** ["\r\n"], ["["], ["] "] and the prefixes. *)
Definition crlf : bytes := [13; 10].
Definition open_bracket : bytes := [91].
Definition close_bracket : bytes := [93; 32].
Definition level_prefix (l : LogLevel) : bytes :=
  match l with
  | LOG_DEBUG => [91; 68; 69; 66; 85; 71; 93; 32]   (* "[DEBUG] " *)
  | LOG_INFO => [91; 73; 78; 70; 79; 93; 32]        (* "[INFO] " *)
  | LOG_WARN => [91; 87; 65; 82; 78; 93; 32]        (* "[WARN] " *)
  | LOG_ERROR => [91; 69; 82; 82; 79; 82; 93; 32]   (* "[ERROR] " *)
  | LOG_NONE => []
  end.

Definition LOG_BUFFER : nat := 128.

(** [vsnprintf] into a buffer of [LOG_BUFFER] bytes; [expanded] is the whole output. *)
Definition vsnprintf (expanded : bytes) : bytes := take (LOG_BUFFER - 1) (c_str expanded).

Section Logging.
Context {E : Env}.

Definition uartWrite (s : bytes) : W unit := uart_write_bytes (c_str s).

Definition uartWriteLine (tag : bytes) (prefix : option bytes) (message : bytes) : W unit :=
  uartWrite open_bracket ;;;
  uartWrite tag ;;;
  uartWrite close_bracket ;;;
  match prefix with Some p => uartWrite p | None => wret tt end ;;;
  uartWrite message ;;;
  uartWrite crlf.

Definition uartWriteFormatted (prefix expanded : bytes) : W unit :=
  uartWrite prefix ;;; uartWrite (vsnprintf expanded) ;;; uartWrite crlf.

(** [Logger::debug], [info], [warn], [error]: the same body at their level. *)
Definition log_formatted (level : LogLevel) (expanded : bytes) (l : Logger) : W unit :=
  if filtered l level then wret tt else uartWriteFormatted (level_prefix level) expanded.
Definition logger_debug (expanded : bytes) : Logger → W unit := log_formatted LOG_DEBUG expanded.
Definition logger_info (expanded : bytes) : Logger → W unit := log_formatted LOG_INFO expanded.
Definition logger_warn (expanded : bytes) : Logger → W unit := log_formatted LOG_WARN expanded.
Definition logger_error (expanded : bytes) : Logger → W unit := log_formatted LOG_ERROR expanded.

Definition logln (tag message : bytes) (level : LogLevel) (l : Logger) : W unit :=
  if filtered l level then wret tt else uartWriteLine tag None message.
Definition log (tag message : bytes) (level : LogLevel) (l : Logger) : W unit :=
  if filtered l level then wret tt
  else uartWrite open_bracket ;;; uartWrite tag ;;; uartWrite close_bracket ;;; uartWrite message.

(** The macros; [compiled] is the level the firmware was built with. *)
Definition LATTICE_LOG (compiled : LogLevel) (tag message : bytes) (level : LogLevel) (l : Logger) : W unit :=
  if bool_decide (compiled = LOG_NONE) then wret tt else log tag message level l.
Definition LATTICE_LOGLN (compiled : LogLevel) (tag message : bytes) (level : LogLevel) (l : Logger)
    : W unit :=
  if bool_decide (compiled = LOG_NONE) then wret tt else logln tag message level l.
Definition LATTICE_LOGF (compiled : LogLevel) (tag : bytes) (level : LogLevel) (expanded : bytes)
    (l : Logger) : W unit :=
  if bool_decide (compiled = LOG_NONE) then wret tt else logln tag (vsnprintf expanded) level l.
End Logging.

(** * Properties *)

(** What a call leaves on the line. *)
Definition line_text (tag message : bytes) : bytes :=
  open_bracket ++ c_str tag ++ close_bracket ++ c_str message ++ crlf.

Lemma c_str_nonzero s : Forall (λ b, b ≠ 0) (c_str s).
Proof. induction s as [|b s IH]; cbn; [constructor|]. destruct (Z.eqb_spec b 0); [constructor|by constructor]. Qed.

Lemma c_str_id s : Forall (λ b, b ≠ 0) s → c_str s = s.
Proof. induction 1 as [|b s Hb _ IH]; cbn; [done|]. by rewrite (proj2 (Z.eqb_neq _ _) Hb), IH. Qed.

Lemma c_str_byte s : Forall is_byte s → Forall is_byte (c_str s).
Proof. induction 1 as [|b s Hb _ IH]; cbn; [constructor|]. destruct (b =? 0); [constructor|by constructor]. Qed.

Lemma c_str_take n s : c_str (take n (c_str s)) = take n (c_str s).
Proof. apply c_str_id. apply Forall_take, c_str_nonzero. Qed.

Section props.
Context {E : Env}.

Lemma logln_run tag message level l w :
  filtered l level = false →
  ∃ w', logln tag message level l w = Ok tt w' ∧
    uart_sent (w_trace w') = uart_sent (w_trace w) ++ line_text tag message.
Proof.
  intros Hf. unfold logln. rewrite Hf. eexists. split; [reflexivity|]. cbn [uart_sent w_trace].
  unfold line_text. by rewrite <- !app_assoc.
Qed.

(** What reaches the line.  A message at or above the current level is written as one
    line, ["[tag] message\r\n"], cut at its NUL; [LATTICE_LOGF] and the methods that
    format write at most 127 bytes of message; a message below the level writes
    nothing, and neither does anything at all in a firmware built without logging,
    whose runtime level is [LOG_NONE] as well. *)
Theorem log_output compiled tag message level l w :
  let logged := (compiled ≠ LOG_NONE ∧ level_value (currentLevel l) <= level_value level) in
  ∃ w', LATTICE_LOGF compiled tag level message l w = Ok tt w' ∧
    (logged → uart_sent (w_trace w') =
       uart_sent (w_trace w) ++ line_text tag (take 127 (c_str message))) ∧
    (¬ logged → w' = w) ∧
    (∀ lv, currentLevel l = LOG_NONE → lv ≠ LOG_NONE →
       logln tag message lv l w = Ok tt w ∧ log tag message lv l w = Ok tt w ∧
       log_formatted lv message l w = Ok tt w).
Proof.
  intros logged.
  assert (∀ lv, currentLevel l = LOG_NONE → lv ≠ LOG_NONE →
       logln tag message lv l w = Ok tt w ∧ log tag message lv l w = Ok tt w ∧
       log_formatted lv message l w = Ok tt w) as Hnone.
  { intros lv Hl Hlv. unfold logln, log, log_formatted, filtered. rewrite Hl. destruct lv; try done. }
  unfold LATTICE_LOGF. case_bool_decide as Hc.
  { exists w. split; [done|]. split; [by intros [? _]|done]. }
  destruct (filtered l level) eqn:Hf.
  - exists w. unfold logln. rewrite Hf. split; [done|]. unfold filtered in Hf. bsimp.
    split; [intros [_ ?]; lia|done].
  - destruct (logln_run tag (vsnprintf message) level l w Hf) as (w' & -> & Hs). exists w'.
    split; [done|]. unfold filtered in Hf. bsimp. split.
    + intros _. rewrite Hs. unfold line_text, vsnprintf, LOG_BUFFER. by rewrite !c_str_take.
    + split; [|done]. intros Hn. exfalso. apply Hn. split; [done|lia].
Qed.
End props.
