(* ===== verification/ErrorCore.v ===== *)
(** Error signaling: [error/ErrorCodes.h], [error/Error.h],
    [error/ErrorCore.cpp].  A signaled error is shown on the display, blinks the
    error LED, and restarts the device for the unrecoverable types. *)
From S2P Require Import Prelude Config Wire Platform.

Inductive ErrorTypeDigit :=
  E_GENERIC | E_SENSOR | E_COMM | E_MEMORY | E_HARDWARE | E_CONFIG | E_CRYPTO.
Inductive ModuleDigit := M_CORE | M_ADAPTER | M_MESH | M_EEPROM | M_HW.

#[export] Instance ErrorTypeDigit_eq_dec : EqDecision ErrorTypeDigit.
Proof. solve_decision. Defined.
#[export] Instance ErrorType_eq_dec : EqDecision ErrorType.
Proof. solve_decision. Defined.

Definition type_digit (t : ErrorTypeDigit) : Z :=
  match t with
  | E_GENERIC => 1 | E_SENSOR => 2 | E_COMM => 3 | E_MEMORY => 4
  | E_HARDWARE => 5 | E_CONFIG => 6 | E_CRYPTO => 7
  end.
Definition module_digit (m : ModuleDigit) : Z :=
  match m with M_CORE => 1 | M_ADAPTER => 2 | M_MESH => 3 | M_EEPROM => 4 | M_HW => 5 end.

Definition makeErrorCode (t : ErrorTypeDigit) (m : ModuleDigit) (sub : Z) : Z :=
  u16 (type_digit t * 100 + module_digit m * 10 + sub mod 10).

(** [err::toDigit]. *)
Definition toDigit (t : ErrorType) : ErrorTypeDigit :=
  match t with
  | GENERIC => E_GENERIC
  | SENSOR_FAIL => E_SENSOR
  | COMMUNICATION_FAIL => E_COMM
  | MEMORY_ERROR => E_MEMORY
  | CONFIG_ERROR => E_CONFIG
  | HARDWARE_FAILURE => E_HARDWARE
  | _ => E_GENERIC
  end.

(** The blink count selected by [blinkPattern]. *)
Definition blink_count (t : ErrorType) : Z :=
  match t with
  | GENERIC => 1 | SENSOR_FAIL => 2 | COMMUNICATION_FAIL => 3 | MEMORY_ERROR => 4
  | CONFIG_ERROR => 5 | HARDWARE_FAILURE => 6 | USER_ERROR => 7 | TIMEOUT_ERROR => 8
  end.

Definition blinkPattern (t : ErrorType) : W unit :=
  s <- get_err ;;
  if errorLed s && errorLedInitialized s then emit (EvPulse (blink_count t)) else wret tt.

Definition shouldRestart (t : ErrorType) : bool :=
  match t with MEMORY_ERROR | HARDWARE_FAILURE => true | _ => false end.

(** [signalError(ErrorType, msg)]. *)
Definition signalErrorType (t : ErrorType) : W unit :=
  s <- get_err ;;
  (if initialized s && errorLed s then
     if inCallbackContext s then
       put_err (ErrState (errorLed s) (errorLedInitialized s) (display s) (initialized s)
                  true t (inCallbackContext s))
     else blinkPattern t
   else wret tt) ;;;
  if shouldRestart t then esp_restart else wret tt.

(** The legacy type [signalError] maps a digit to. *)
Definition legacy_type (t : ErrorTypeDigit) : ErrorType :=
  match t with
  | E_HARDWARE => HARDWARE_FAILURE
  | E_COMM => COMMUNICATION_FAIL
  | E_MEMORY => MEMORY_ERROR
  | E_CONFIG => CONFIG_ERROR
  | E_CRYPTO => HARDWARE_FAILURE
  | E_GENERIC | E_SENSOR => GENERIC
  end.

(** [signalError(ErrorTypeDigit, ModuleDigit, sub, msg)]. *)
Definition signalError (t : ErrorTypeDigit) (m : ModuleDigit) (sub : Z) : W unit :=
  s <- get_err ;;
  (if display s then emit (EvShow (makeErrorCode t m sub)) else wret tt) ;;;
  signalErrorType (legacy_type t).

(** [err::fail] and [err::fatal]; [fatal] never returns. *)
Definition fail (t : ErrorTypeDigit) (m : ModuleDigit) (sub : Z) : W bool :=
  signalError t m sub ;;; wret false.
Definition fatal {A} (t : ErrorTypeDigit) (m : ModuleDigit) (sub : Z) : W A :=
  signalError t m sub ;;; emit EvHang ;;; whalt.

Definition check (condition : bool) (t : ErrorType) : W bool :=
  if condition then wret true else fail (toDigit t) M_CORE 0.
(** [err::checkEsp]: [ok] is [status == ESP_OK]. *)
Definition checkEsp (ok : bool) (t : ErrorType) : W bool :=
  if ok then wret true else fail (toDigit t) M_CORE 0.

(** [err_core::init]; [unexpected] is the reset-reason test. *)
Definition err_init (led ledInit disp unexpected : bool) : W unit :=
  s <- get_err ;;
  put_err (ErrState led ledInit disp led (pendingBlink s) (pendingBlinkType s)
             (inCallbackContext s)) ;;;
  if unexpected then signalError E_HARDWARE M_CORE 1 else wret tt.

Definition setCallbackContext (inCallback : bool) : W unit :=
  s <- get_err ;;
  put_err (ErrState (errorLed s) (errorLedInitialized s) (display s) (initialized s)
             (pendingBlink s) (pendingBlinkType s) inCallback).

Definition drainPendingBlink : W unit :=
  s <- get_err ;;
  if pendingBlink s then
    put_err (ErrState (errorLed s) (errorLedInitialized s) (display s) (initialized s)
               false (pendingBlinkType s) (inCallbackContext s)) ;;;
    blinkPattern (pendingBlinkType s)
  else wret tt.

(** * Properties *)

(** Events an error report can produce. *)
Definition is_error_event (e : event) : Prop :=
  match e with EvShow _ | EvPulse _ | EvRestart => True | _ => False end.

(** They leave NVS alone. *)
Lemma error_events_store init evs tr k :
  Forall is_error_event evs → nvs_store init (evs ++ tr) k = nvs_store init tr k.
Proof. induction 1 as [|e evs He _ IH]; [done|]. by destruct e. Qed.

Section emits.
Context (P : event → Prop) (HP : ∀ e, is_error_event e → P e).

Lemma blinkPattern_emits t : emits P (blinkPattern t).
Proof using HP. unfold blinkPattern. solve_emits. Qed.

Lemma signalError_emits t m sub : emits P (signalError t m sub).
Proof using HP. unfold signalError, signalErrorType, blinkPattern, esp_restart. solve_emits. Qed.

Lemma fail_emits t m sub : emits P (fail t m sub).
Proof using HP. unfold fail. apply emits_bind; [apply signalError_emits|solve_emits]. Qed.

Lemma fatal_emits {A} t m sub : P EvHang → emits P (@fatal A t m sub).
Proof using HP.
  intros. unfold fatal. apply emits_bind; [apply signalError_emits|solve_emits].
Qed.

Lemma checkEsp_emits ok t : emits P (checkEsp ok t).
Proof using HP. unfold checkEsp. destruct ok; [apply emits_ret|apply fail_emits]. Qed.
End emits.
#[export] Hint Resolve blinkPattern_emits signalError_emits fail_emits checkEsp_emits : emits.

Lemma blinkPattern_returns t w : ∃ w', blinkPattern t w = Ok tt w'.
Proof.
  unfold blinkPattern, wbind, get_err, emit, wret.
  destruct (errorLed (w_err w) && errorLedInitialized (w_err w)); eauto.
Qed.

(** [signalErrorType] returns exactly for the types that do not restart. *)
Lemma signalErrorType_run t w :
  ∃ w', signalErrorType t w = if shouldRestart t then Halt w' else Ok tt w'.
Proof.
  unfold signalErrorType, wbind, get_err, put_err, esp_restart, emit, whalt, wret.
  destruct (blinkPattern_returns t w) as [w1 B].
  destruct (initialized (w_err w) && errorLed (w_err w)), (inCallbackContext (w_err w)) eqn:C,
    (shouldRestart t); cbn -[blinkPattern]; rewrite ?C, ?B; eauto.
Qed.

Lemma signalError_run t m sub w :
  ∃ w', signalError t m sub w =
    if shouldRestart (legacy_type t) then Halt w' else Ok tt w'.
Proof.
  unfold signalError, wbind, get_err, emit, wret.
  destruct (display (w_err w)); cbn -[signalErrorType]; apply signalErrorType_run.
Qed.

Lemma fail_run t m sub w :
  ∃ w', fail t m sub w = if shouldRestart (legacy_type t) then Halt w' else Ok false w'.
Proof.
  unfold fail, wbind. destruct (signalError_run t m sub w) as [w' ->].
  destruct (shouldRestart (legacy_type t)); eauto.
Qed.

(** An unrecoverable report ends in a restart, after the code was shown. *)
Lemma fail_halt_restart t m sub w :
  shouldRestart (legacy_type t) = true →
  ∃ w' tr, fail t m sub w = Halt w' ∧ w_trace w' = EvRestart :: tr ∧
           (display (w_err w) = true → EvShow (makeErrorCode t m sub) ∈ tr).
Proof.
  intros Hr. unfold fail, signalError, signalErrorType, wbind, get_err, put_err, esp_restart, emit,
    whalt, wret. rewrite Hr. unfold blinkPattern, get_err, wbind, emit, wret.
  destruct (display (w_err w)); cbn [w_err w_trace w_eeprom];
    destruct (initialized _ && errorLed _); try destruct (inCallbackContext _);
    cbn [w_err w_trace w_eeprom]; try destruct (errorLed _ && errorLedInitialized _);
    cbn [w_err w_trace w_eeprom]; eexists _, _; (split; [reflexivity|]); (split; [reflexivity|]);
    intros; set_solver.
Qed.

(** A report leaves the persistence module's state alone. *)
Lemma fail_eeprom t m sub w :
  match fail t m sub w with Ok _ w' | Halt w' => w_eeprom w' = w_eeprom w end.
Proof.
  unfold fail, signalError, signalErrorType, blinkPattern, wbind, get_err, put_err, esp_restart, emit,
    whalt, wret.
  destruct (display (w_err w)); cbn [w_err w_trace w_eeprom];
    destruct (initialized _ && errorLed _); try destruct (inCallbackContext _);
    cbn [w_err w_trace w_eeprom]; try destruct (errorLed _ && errorLedInitialized _);
    cbn [w_err w_trace w_eeprom]; by destruct (shouldRestart _).
Qed.

(** Reports of the recoverable types return. *)
Lemma fail_returns t m sub : shouldRestart (legacy_type t) = false → returns (fail t m sub).
Proof. intros H w. destruct (fail_run t m sub w) as [w' E]. rewrite H in E. eauto. Qed.

(** An error report restarts the device exactly for the memory, hardware
    and crypto types, and otherwise returns [false]; [fatal] never returns. *)
Theorem fail_restarts_iff t m sub w :
  (∃ w', fail t m sub w = Halt w' ∧ t ∈ [E_MEMORY; E_HARDWARE; E_CRYPTO]) ∨
  (∃ w', fail t m sub w = Ok false w' ∧ t ∉ [E_MEMORY; E_HARDWARE; E_CRYPTO]).
Proof.
  destruct (fail_run t m sub w) as [w' E].
  destruct t; cbn in E; (left; exists w'; split; [done|set_solver]) ||
                        (right; exists w'; split; [done|set_solver]).
Qed.

Lemma makeErrorCode_value t m sub :
  0 <= sub -> makeErrorCode t m sub = type_digit t * 100 + module_digit m * 10 + sub mod 10.
Proof.
  intros. unfold makeErrorCode, u16. apply Z.mod_small.
  pose proof (Z.mod_pos_bound sub 10 ltac:(lia)). destruct t, m; cbn; lia.
Qed.

(** A displayed error code has three digits and identifies the error type,
    the module and the last digit of the sub-code. *)
Theorem makeErrorCode_injective t m sub t' m' sub' :
  0 <= sub → 0 <= sub' →
  makeErrorCode t m sub = makeErrorCode t' m' sub' →
  t = t' ∧ m = m' ∧ sub mod 10 = sub' mod 10 ∧ 100 <= makeErrorCode t m sub <= 999.
Proof.
  intros H H'. rewrite !makeErrorCode_value by done. intros E.
  pose proof (Z.mod_pos_bound sub 10 ltac:(lia)).
  pose proof (Z.mod_pos_bound sub' 10 ltac:(lia)).
  assert (type_digit t = type_digit t' ∧ module_digit m = module_digit m') as [Et Em].
  { assert (∀ x, 1 <= module_digit x <= 5) by by destruct x.
    pose proof (H2 m); pose proof (H2 m'). lia. }
  split_and!; [by destruct t, t'|by destruct m, m'|lia|destruct t, m; cbn in *; lia..].
Qed.

Lemma makeErrorCode_injective_witness :
  makeErrorCode E_CRYPTO M_MESH 1 = 731 ∧ makeErrorCode E_MEMORY M_MESH 25 = 435 ∧
  E_MEMORY = E_MEMORY ∧ M_MESH = M_MESH ∧ 5 mod 10 = 25 mod 10 ∧
  100 <= makeErrorCode E_MEMORY M_MESH 5 <= 999.
Proof.
  split; [reflexivity|]. split; [reflexivity|].
  apply (makeErrorCode_injective E_MEMORY M_MESH 5 E_MEMORY M_MESH 25); [lia|lia|reflexivity].
Defined.
