(* ===== verification/SerialFraming.v ===== *)
(** The serial link (adapter/serial/SerialFraming): the protobuf form of a
    frame, as [mesh.pb.h] declares it, and the length-prefixed byte framing. *)
From S2P Require Import Prelude Config Nanopb Wire Platform ErrorCore.

(** * The generated message type *)
Record mesh_MeshMessage := PbMessage {
  pb_messageType : Z;
  pb_dataType : Z;
  pb_originMacAddress : mac;
  pb_targetMacAddress : mac;
  pb_lastHopMacAddress : mac;
  pb_data : slot;                       (* has_data, data *)
  pb_hopCount : Z;
  pb_epochNum : Z;
  pb_seqNum : Z;
  pb_protoVersion : Z;
  pb_public_key : slot;
  pb_routeLen : slot;
  pb_routePath : slot;
  pb_authTag : slot
}.

Definition absent_bytes (n : nat) : slot := Slot false (VBytes 0 (zeros n)).
Definition present_bytes (l : bytes) : slot := Slot true (VBytes (length l) l).

Definition mesh_MeshMessage_init_zero : mesh_MeshMessage :=
  PbMessage 0 0 ZERO_MAC ZERO_MAC ZERO_MAC (absent_bytes 64) 0 0 0 0 (absent_bytes 32)
    (Slot false (VInt 0)) (absent_bytes 48) (absent_bytes 16).

(** [mesh_MeshMessage_FIELDLIST]. *)
Definition mesh_MeshMessage_msg : list field :=
  let uint32 tag := Field tag LT_UVARINT HT_SINGULAR AT_STATIC 4 in
  let mac6 tag := Field tag LT_FIXED_LENGTH_BYTES HT_SINGULAR AT_STATIC 6 in
  let optional_bytes tag n := Field tag LT_BYTES HT_OPTIONAL AT_STATIC n in
  [uint32 1; Field 2 LT_SVARINT HT_SINGULAR AT_STATIC 4; mac6 3; mac6 4; mac6 5;
   optional_bytes 6 64%nat; uint32 7; uint32 8; uint32 9; uint32 10;
   optional_bytes 11 32%nat; Field 12 LT_UVARINT HT_OPTIONAL AT_STATIC 4;
   optional_bytes 13 48%nat; optional_bytes 14 16%nat;
   Field 17 LT_BYTES HT_OPTIONAL AT_CALLBACK 0].

(** The structure's members, in descriptor order. *)
Definition slots_of (p : mesh_MeshMessage) : list slot :=
  let num z := Slot false (VInt z) in
  let mac6 m := Slot false (VFixed m) in
  [num (pb_messageType p); num (pb_dataType p); mac6 (pb_originMacAddress p);
   mac6 (pb_targetMacAddress p); mac6 (pb_lastHopMacAddress p); pb_data p; num (pb_hopCount p);
   num (pb_epochNum p); num (pb_seqNum p); num (pb_protoVersion p); pb_public_key p;
   pb_routeLen p; pb_routePath p; pb_authTag p; Slot false VCallback].

Definition of_slots (l : list slot) : option mesh_MeshMessage :=
  match l with
  | [Slot _ (VInt a); Slot _ (VInt b); Slot _ (VFixed o); Slot _ (VFixed t); Slot _ (VFixed h);
     d; Slot _ (VInt hc); Slot _ (VInt e); Slot _ (VInt s); Slot _ (VInt v); k; rl; rp; tg; _] =>
      Some (PbMessage a b o t h d hc e s v k rl rp tg)
  | _ => None
  end.

(** * Frames and protobuf messages *)
Section Codec.
Context {Pr : Protocol}.

Definition carries_key (ty : Z) : bool := (ty =? MESH_TYPE_ENROLLMENT) || (ty =? MESH_TYPE_JOIN_ACK).

(** The structure [encode] fills. *)
Definition pb_of_message (msg : mesh_message) : mesh_MeshMessage :=
  let z := mesh_MeshMessage_init_zero in
  PbMessage (message_type msg) (data_type msg) (take 6 (origin_mac_address msg))
    (take 6 (target_mac_address msg)) (take 6 (last_hop_mac_address msg))
    (present_bytes (take 64 (data msg))) (hop_count msg) (epoch_num msg) (seq_num msg)
    (proto_version msg)
    (if carries_key (message_type msg) && negb (is_zero (take 32 (enrollment_public_key msg)))
     then present_bytes (take 32 (enrollment_public_key msg)) else pb_public_key z)
    (pb_routeLen z) (pb_routePath z) (pb_authTag z).

(** [encode]; no byte written is the failure result [0]. *)
Definition encode (msg : mesh_message) (maxLen : nat) : bytes :=
  match pb_encode (pb_ostream_from_buffer maxLen) mesh_MeshMessage_msg
          (slots_of (pb_of_message msg)) with
  | Some s => o_bytes s
  | None => []
  end.

Definition keeps_macs (ty : Z) : bool :=
  (ty =? MESH_TYPE_JOIN_ACK) || (ty =? MESH_TYPE_SERIAL_CMD_BROADCAST).

(** The frame [decode] fills; [own] is the device's MAC ([readOwnMac]). *)
Definition message_of_pb (own : mac) (p : mesh_MeshMessage) : mesh_message :=
  let out := mesh_message_zero in
  let ty := u8 (pb_messageType p) in
  {| proto_version := u8 (pb_protoVersion p);
     message_type := ty;
     data_type := pb_dataType p;
     origin_mac_address := if keeps_macs ty then pb_originMacAddress p else own;
     target_mac_address := pb_targetMacAddress p;
     last_hop_mac_address := if keeps_macs ty then pb_lastHopMacAddress p else own;
     data := match pb_data p with
             | Slot true (VBytes size buf) => splice 0 (take (Nat.min size 64) buf) (data out)
             | _ => data out
             end;
     hop_count := u8 (pb_hopCount p);
     epoch_num := pb_epochNum p;
     seq_num := u16 (pb_seqNum p);
     enrollment_public_key :=
       match pb_public_key p with
       | Slot true (VBytes _ buf) => take 32 buf
       | _ => enrollment_public_key out
       end;
     route_len := route_len out;
     route_path := route_path out;
     auth_tag := auth_tag out;
     auth_path := auth_path out |}.

Definition decode (own : mac) (payload : bytes) : option mesh_message :=
  l ← pb_decode mesh_MeshMessage_msg payload; message_of_pb own <$> of_slots l.
End Codec.

(** * The byte framing *)
Definition MAX_PAYLOAD : nat := 256.

Inductive FrameState := AwaitingLen1 | AwaitingLen2 | AwaitingPayload.

Record SerialFraming := Framing {
  frameState : FrameState;
  frameLength : Z;                      (* uint16_t *)
  frameIndex : nat;
  payloadBuffer : bytes                 (* uint8_t[MAX_PAYLOAD] *)
}.

Definition framing_new : SerialFraming := Framing AwaitingLen1 0 0 (zeros MAX_PAYLOAD).

(** [frameBuffer()] up to [frameLen()]. *)
Definition frame_of (f : SerialFraming) : bytes := take (frameIndex f) (payloadBuffer f).

(** The two length bytes a sender puts in front of an encoding of [n] bytes. *)
Definition length_prefix (n : nat) : bytes :=
  [u8 (Z.land (Z.of_nat n) 0xFF); u8 (Z.land (Z.shiftr (Z.of_nat n) 8) 0xFF)].

Section Framing.
Context {E : Env}.

Definition injectByte (byteIn : Z) (f : SerialFraming) : W (bool * SerialFraming) :=
  let buf := payloadBuffer f in
  match frameState f with
  | AwaitingLen1 => wret (false, Framing AwaitingLen2 byteIn 0 buf)
  | AwaitingLen2 =>
      let len := Z.lor (frameLength f) (u16 (Z.shiftl byteIn 8)) in
      if (len =? 0) || (Z.of_nat MAX_PAYLOAD <? len) then
        fail E_COMM M_ADAPTER 2 ;;; wret (false, Framing AwaitingLen1 0 0 buf)
      else wret (false, Framing AwaitingPayload len 0 buf)
  | AwaitingPayload =>
      if (MAX_PAYLOAD <=? frameIndex f)%nat then
        fail E_COMM M_ADAPTER 3 ;;; wret (false, Framing AwaitingLen1 0 0 buf)
      else
        let buf' := <[frameIndex f := byteIn]> buf in
        let idx := S (frameIndex f) in
        if frameLength f <=? Z.of_nat idx then wret (true, Framing AwaitingLen1 0 idx buf')
        else wret (false, Framing AwaitingPayload (frameLength f) idx buf')
  end.

(** The receive loop of the adapter: each byte goes through the machine, and a
    completed frame to the handler [h]. *)
Definition receive {S} (h : bytes → S → W S) : bytes → SerialFraming * S → W (SerialFraming * S) :=
  wfold (λ byteIn st,
    let* (complete, f) := injectByte byteIn st.1 in
    if complete : bool then s <- h (frame_of f) st.2 ;; wret (f, s) else wret (f, st.2)).

(** The loop with the completed frames collected instead of handled. *)
Definition collect (p : bytes) (acc : list bytes) : W (list bytes) := wret (acc ++ [p]).
Definition feed (rx : bytes) (f : SerialFraming) : W (SerialFraming * list bytes) :=
  receive collect rx (f, []).
End Framing.

(** * The framing machine never overruns its buffer *)
Definition framing_wf (f : SerialFraming) : Prop :=
  length (payloadBuffer f) = MAX_PAYLOAD ∧
  match frameState f with
  | AwaitingLen1 => True
  | AwaitingLen2 => 0 <= frameLength f < 256
  | AwaitingPayload =>
      0 < frameLength f <= Z.of_nat MAX_PAYLOAD ∧ Z.of_nat (frameIndex f) < frameLength f
  end.

Lemma framing_new_wf : framing_wf framing_new.
Proof. split; [apply length_replicate|done]. Qed.

Section FramingProps.
Context {E : Env}.

Lemma comm_error_returns sub w : ∃ w', fail E_COMM M_ADAPTER sub w = Ok false w'.
Proof. by destruct (fail_run E_COMM M_ADAPTER sub w) as [w' ?]; exists w'. Qed.

(** The length the two prefix bytes announce. *)
Lemma prefix_length lo hi :
  0 <= lo < 256 → is_byte hi → Z.lor lo (u16 (Z.shiftl hi 8)) = lo + 256 * hi.
Proof.
  intros Hl Hh. unfold is_byte in Hh. unfold u16.
  rewrite (varint_accumulate 16) by (try lia; change (2 ^ 8) with 256; lia). lia.
Qed.

Definition announces_bad_length (f : SerialFraming) (byteIn : Z) : Prop :=
  frameState f = AwaitingLen2 ∧
  (frameLength f + 256 * byteIn = 0 ∨ Z.of_nat MAX_PAYLOAD < frameLength f + 256 * byteIn).

Lemma injectByte_safe b f w :
  is_byte b → framing_wf f →
  ∃ c f' w', injectByte b f w = Ok (c, f') w' ∧ framing_wf f' ∧
    (announces_bad_length f b → c = false ∧ frameState f' = AwaitingLen1) ∧
    (¬ announces_bad_length f b → w' = w) ∧
    (c = true → (0 < length (frame_of f') <= MAX_PAYLOAD)%nat).
Proof.
  intros Hb [Hlen Hst]. unfold injectByte, announces_bad_length, framing_wf.
  destruct f as [st len idx buf]. cbn [frameState frameLength frameIndex payloadBuffer] in *.
  destruct st.
  - eexists false, _, w. split; [done|]. split; [done|]. naive_solver.
  - rewrite prefix_length by done. unfold MAX_PAYLOAD in *.
    destruct (Z.eqb_spec (len + 256 * b) 0), (Z.ltb_spec (Z.of_nat 256) (len + 256 * b)); cbn [orb].
    1-3: destruct (comm_error_returns 2 w) as [w1 Ew]; unfold wbind; rewrite Ew;
      eexists false, _, w1; split; [done|]; split; [done|]; naive_solver.
    eexists false, _, w. split; [done|]. unfold is_byte in Hb. cbn.
    split; [split; [done|lia]|]. split; [lia|naive_solver].
  - destruct (Nat.leb_spec MAX_PAYLOAD idx); [lia|].
    destruct (Z.leb_spec len (Z.of_nat (S idx))).
    + eexists true, _, w. split; [done|]. cbn. rewrite length_insert.
      split; [done|]. split; [naive_solver|]. split; [done|]. intros _.
      unfold frame_of. cbn [frameIndex payloadBuffer]. rewrite length_take, length_insert. lia.
    + eexists false, _, w. split; [done|]. cbn [frameState frameLength frameIndex payloadBuffer].
      rewrite length_insert. split; [split; [done|lia]|]. split; [naive_solver|done].
Qed.

Lemma receive_safe_run rx f acc w :
  Forall is_byte rx → framing_wf f → Forall (λ p, 0 < length p <= MAX_PAYLOAD)%nat acc →
  ∃ frames f' w', receive collect rx (f, acc) w = Ok (f', frames) w' ∧ framing_wf f' ∧
    Forall (λ p, 0 < length p <= MAX_PAYLOAD)%nat frames.
Proof.
  intros HB. unfold receive. revert f acc w. induction HB as [|b rx Hb HB IH]; intros f acc w W HA.
  { by exists acc, f, w. }
  destruct (injectByte_safe b f w Hb W) as (c & f1 & w1 & E1 & W1 & _ & _ & Hc).
  cbn [wfold fst snd]. unfold wbind at 1 2. rewrite E1. cbv beta iota. destruct c.
  - unfold collect at 1, wbind at 1, wret at 1 2. apply IH; [done|].
    apply Forall_app_2; [done|]. constructor; [by apply Hc|done].
  - unfold wret at 1. by apply IH.
Qed.


(** * Whole frames *)
Lemma wfold_app {A S} (g : A → S → W S) l1 l2 s w :
  wfold g (l1 ++ l2) s w = (s' <- wfold g l1 s ;; wfold g l2 s') w.
Proof.
  revert s w. induction l1 as [|x l1 IH]; intros s w; [done|]. cbn [app wfold].
  unfold wbind in *. destruct (g x s w) as [s1 w1|w1]; [|done]. apply IH.
Qed.

Section Handler.
Context {S : Type} (h : bytes → S → W S).

Lemma receive_step b rx f f1 s w w1 :
  injectByte b f w = Ok (false, f1) w1 → receive h (b :: rx) (f, s) w = receive h rx (f1, s) w1.
Proof.
  intros Hi. unfold receive. cbn [wfold fst snd]. unfold wbind at 1 2. by rewrite Hi.
Qed.

Lemma receive_complete b f f1 s w w1 :
  injectByte b f w = Ok (true, f1) w1 →
  receive h [b] (f, s) w = (s' <- h (frame_of f1) s ;; wret (f1, s')) w1.
Proof.
  intros Hi. unfold receive. cbn [wfold fst snd]. unfold wbind, wret. rewrite Hi.
  by destruct (h _ s w1).
Qed.

(** The payload state, up to the last byte. *)
Lemma receive_payload p idx buf :
  p ≠ [] → (idx + length p <= MAX_PAYLOAD)%nat → length buf = MAX_PAYLOAD →
  ∃ f', frameState f' = AwaitingLen1 ∧ length (payloadBuffer f') = MAX_PAYLOAD ∧
    ∀ s w, receive h p (Framing AwaitingPayload (Z.of_nat (idx + length p)) idx buf, s) w
           = (s' <- h (take idx buf ++ p) s ;; wret (f', s')) w.
Proof.
  revert idx buf. induction p as [|b p IH]; intros idx buf Hne Hle Hbuf; [done|].
  cbn [length] in *.
  assert (take (Datatypes.S idx) (<[idx:=b]> buf) = take idx buf ++ [b]) as Ht.
  { rewrite (take_S_r _ _ b) by (apply list_lookup_insert_eq; lia). by rewrite take_insert_ge. }
  assert ((MAX_PAYLOAD <=? idx)%nat = false) as Hidx by (apply Nat.leb_gt; lia).
  destruct p as [|b' p].
  - exists (Framing AwaitingLen1 0 (Datatypes.S idx) (<[idx:=b]> buf)).
    split; [done|]. split; [by cbn; rewrite length_insert|]. intros s w.
    erewrite receive_complete; [|unfold injectByte; cbn [frameState frameIndex frameLength payloadBuffer];
      rewrite Hidx; cbn [length]; rewrite (proj2 (Z.leb_le _ _)) by lia; reflexivity].
    unfold frame_of. cbn [frameIndex payloadBuffer]. by rewrite Ht.
  - destruct (IH (Datatypes.S idx) (<[idx:=b]> buf)) as (f' & Hs & Hl & Hr);
      [done|cbn [length] in *; lia|by rewrite length_insert|].
    exists f'. split; [done|]. split; [done|]. intros s w. rewrite Ht, <- app_assoc in Hr.
    cbn [app] in Hr. rewrite <- Hr.
    replace (idx + Datatypes.S (length (b' :: p)))%nat with (Datatypes.S idx + length (b' :: p))%nat by lia.
    apply receive_step. unfold injectByte. cbn [frameState frameIndex frameLength payloadBuffer].
    rewrite Hidx, (proj2 (Z.leb_gt _ _)) by (cbn [length]; lia). done.
Qed.

Lemma prefix_bytes n :
  (n <= MAX_PAYLOAD)%nat →
  length_prefix n = [Z.of_nat n mod 256; Z.of_nat n / 256] ∧ is_byte (Z.of_nat n / 256) ∧
  Z.of_nat n mod 256 + 256 * (Z.of_nat n / 256) = Z.of_nat n.
Proof.
  intros Hn. unfold length_prefix, is_byte, u8, MAX_PAYLOAD in *. change 0xFF with (Z.ones 8).
  rewrite !Z.land_ones, Z.shiftr_div_pow2 by lia. change (2 ^ 8) with 256.
  pose proof (Z.div_mod (Z.of_nat n) 256 ltac:(lia)).
  assert (0 <= Z.of_nat n / 256 < 256) as Hd.
  { split; [apply Z.div_pos; lia|apply Z.div_lt_upper_bound; lia]. }
  rewrite !Z.mod_mod, (Z.mod_small (Z.of_nat n / 256)) by lia. split; [done|]. lia.
Qed.

Lemma receive_frame p f :
  framing_wf f → frameState f = AwaitingLen1 → (0 < length p <= MAX_PAYLOAD)%nat →
  ∃ f', framing_wf f' ∧ frameState f' = AwaitingLen1 ∧
    ∀ s w, receive h (length_prefix (length p) ++ p) (f, s) w
           = (s' <- h p s ;; wret (f', s')) w.
Proof.
  intros [Hlen _] Hst Hp. destruct f as [st len idx buf]. cbn in Hst, Hlen. subst st.
  destruct (receive_payload p 0 buf) as (f' & Hs & Hl & Hr);
    [by destruct p; [cbn in *; lia|]|lia|done|].
  exists f'. split; [by split; rewrite ?Hs|]. split; [done|]. intros s w.
  cbn [take app Nat.add] in Hr. rewrite <- Hr.
  destruct (prefix_bytes (length p)) as (-> & Hb & Hv); [lia|].
  pose proof (Z.mod_pos_bound (Z.of_nat (length p)) 256 eq_refl).
  cbn [app]. erewrite receive_step; [|reflexivity].
  apply receive_step. unfold injectByte. cbn [frameState frameLength payloadBuffer].
  rewrite prefix_length, Hv by done.
  destruct (Z.eqb_spec (Z.of_nat (length p)) 0); [lia|].
  destruct (Z.ltb_spec (Z.of_nat MAX_PAYLOAD) (Z.of_nat (length p))); [lia|]. done.
Qed.

(** A stream of length-prefixed frames is cut back into exactly those frames. *)
Lemma receive_frames ps f :
  framing_wf f → frameState f = AwaitingLen1 →
  Forall (λ p, 0 < length p <= MAX_PAYLOAD)%nat ps →
  ∃ f', framing_wf f' ∧ frameState f' = AwaitingLen1 ∧
    ∀ s w, receive h (concat ((λ p, length_prefix (length p) ++ p) <$> ps)) (f, s) w
           = (s' <- wfold h ps s ;; wret (f', s')) w.
Proof.
  intros W Hs HP. revert f W Hs. induction HP as [|p ps Hp HP IH]; intros f W Hs.
  { by exists f. }
  destruct (receive_frame p f W Hs Hp) as (f1 & W1 & Hs1 & E1).
  destruct (IH f1 W1 Hs1) as (f2 & W2 & Hs2 & E2).
  exists f2. split; [done|]. split; [done|]. intros s w.
  cbn [fmap list_fmap concat wfold]. unfold receive in *. rewrite wfold_app.
  unfold wbind at 1. rewrite E1. unfold wbind, wret in *.
  destruct (h p s w) as [s1 w1|w1]; [|done]. apply E2.
Qed.
End Handler.
End FramingProps.

(** * The protobuf form of a frame *)
Section CodecProps.
Context {Pr : Protocol}.

Lemma mesh_desc_ok : desc_ok mesh_MeshMessage_msg.
Proof.
  split.
  - unfold mesh_MeshMessage_msg. repeat constructor; cbn; lia.
  - unfold mesh_MeshMessage_msg. cbn. apply (bool_decide_unpack _). vm_compute. done.
Qed.

(** The structures [encode] fills are in the codec's canonical form. *)
Lemma absent_bytes_ok f :
  f_atype f = AT_STATIC → f_htype f = HT_OPTIONAL → f_ltype f = LT_BYTES →
  slot_ok f (absent_bytes (f_size f)).
Proof.
  intros Ha Hh Hl. unfold slot_ok, value_ok, emitted, pb_field_set_to_default. rewrite Ha, Hh, Hl.
  split; [|done]. cbn. split; [lia|]. exists []. by rewrite Nat.sub_0_r.
Qed.

Lemma present_bytes_ok f l :
  f_atype f = AT_STATIC → f_htype f = HT_OPTIONAL → f_ltype f = LT_BYTES →
  length l = f_size f → slot_ok f (present_bytes l).
Proof.
  intros Ha Hh Hl Hn. unfold slot_ok, value_ok, emitted. rewrite Ha, Hh, Hl.
  split; [|done]. cbn. split; [lia|]. exists l. by rewrite Hn, Nat.sub_diag, app_nil_r.
Qed.

Lemma uint32_ok tag z : 0 <= z < 2 ^ 32 →
  slot_ok (Field tag LT_UVARINT HT_SINGULAR AT_STATIC 4) (Slot false (VInt z)).
Proof.
  intros Hz. split; [exact Hz|]. split; [done|]. cbn.
  destruct (Z.eqb_spec z 0) as [->|]; [done|by intros]. 
Qed.

Lemma sint32_ok tag z : - 2 ^ 31 <= z < 2 ^ 31 →
  slot_ok (Field tag LT_SVARINT HT_SINGULAR AT_STATIC 4) (Slot false (VInt z)).
Proof.
  intros Hz. split; [exact Hz|]. split; [done|]. cbn.
  destruct (Z.eqb_spec z 0) as [->|]; [done|by intros].
Qed.

Lemma mac6_ok tag m : length m = 6%nat →
  slot_ok (Field tag LT_FIXED_LENGTH_BYTES HT_SINGULAR AT_STATIC 6) (Slot false (VFixed m)).
Proof. intros Hm. split; [exact Hm|]. by split. Qed.

Lemma pb_of_message_ok msg :
  wf_message msg → Forall2 slot_ok mesh_MeshMessage_msg (slots_of (pb_of_message msg)).
Proof.
  intros W. destruct W as [Hp Hty Hdt [Ho _] [Ht _] [Hl _] [Hd _] Hh He Hs [Hk _] _ _ _ _].
  unfold mesh_MeshMessage_msg, slots_of, pb_of_message. cbv zeta.
  cbn [pb_messageType pb_dataType pb_originMacAddress pb_targetMacAddress pb_lastHopMacAddress
       pb_data pb_hopCount pb_epochNum pb_seqNum pb_protoVersion pb_public_key pb_routeLen
       pb_routePath pb_authTag mesh_MeshMessage_init_zero].
  assert (∀ (l : bytes) n, length l = n → length (take n l) = n) as Htake
    by (intros l n <-; by rewrite length_take, Nat.min_id).
  do 1 (constructor; [apply uint32_ok; lia|]). constructor; [apply sint32_ok; lia|].
  do 3 (constructor; [apply mac6_ok; by apply Htake|]).
  constructor; [apply present_bytes_ok; [done..|by apply Htake]|].
  do 4 (constructor; [apply uint32_ok; lia|]).
  constructor.
  { destruct (_ && _); [apply present_bytes_ok; [done..|by apply Htake]|].
    by apply (absent_bytes_ok (Field 11 LT_BYTES HT_OPTIONAL AT_STATIC 32)). }
  constructor; [by repeat split|].
  constructor; [by apply (absent_bytes_ok (Field 13 LT_BYTES HT_OPTIONAL AT_STATIC 48))|].
  constructor; [by apply (absent_bytes_ok (Field 14 LT_BYTES HT_OPTIONAL AT_STATIC 16))|].
  by repeat constructor.
Qed.

(** What the other end of the link decodes: the routing and tag fields are not
    carried, the key only in enrollment frames, and the sender's own MACs only in
    server commands. *)
Definition link_view (own : mac) (msg : mesh_message) : mesh_message :=
  let kept := keeps_macs (message_type msg) in
  {| proto_version := proto_version msg;
     message_type := message_type msg;
     data_type := data_type msg;
     origin_mac_address := if kept then origin_mac_address msg else own;
     target_mac_address := target_mac_address msg;
     last_hop_mac_address := if kept then last_hop_mac_address msg else own;
     data := data msg;
     hop_count := hop_count msg;
     epoch_num := epoch_num msg;
     seq_num := seq_num msg;
     enrollment_public_key :=
       if carries_key (message_type msg) then enrollment_public_key msg else zeros 32;
     route_len := 0;
     route_path := zeros 48;
     auth_tag := zeros 16;
     auth_path := zeros 8 |}.

Lemma message_of_pb_of_message own msg :
  wf_message msg → message_of_pb own (pb_of_message msg) = link_view own msg.
Proof.
  intros W. destruct W as [Hp Hty Hdt [Ho _] [Ht _] [Hl _] [Hd _] Hh He Hs [Hk _] _ _ _ _].
  unfold message_of_pb, pb_of_message, link_view. cbv zeta.
  cbn [pb_messageType pb_dataType pb_originMacAddress pb_targetMacAddress pb_lastHopMacAddress
       pb_data pb_hopCount pb_epochNum pb_seqNum pb_protoVersion pb_public_key present_bytes
       mesh_message_zero data enrollment_public_key route_len route_path auth_tag auth_path].
  unfold u8, u16. rewrite !Z.mod_small by lia.
  rewrite !take_ge by (rewrite ?length_take; lia).
  pose proof (splice_zeros_full 64 (data msg) Hd) as Hsp. rewrite take_ge in Hsp by lia.
  rewrite Hsp. f_equal.
  destruct (carries_key (message_type msg)); cbn [andb]; [|done].
  destruct (is_zero (enrollment_public_key msg)) eqn:Hz; cbn [negb].
  - apply is_zero_true in Hz. by rewrite Hz, Hk.
  - apply take_ge. lia.
Qed.

Definition wire_form (msg : mesh_message) : bytes :=
  message_bytes mesh_MeshMessage_msg (slots_of (pb_of_message msg)).

Lemma encode_run msg n :
  wf_message msg →
  encode msg n = if (length (wire_form msg) <=? n)%nat then wire_form msg else [].
Proof.
  intros W. unfold encode. rewrite pb_encode_bytes, pb_write_from_buffer;
    [|apply mesh_desc_ok|by apply pb_of_message_ok].
  by destruct (Nat.leb_spec (length (wire_form msg)) n) as [H|H]; unfold wire_form in H;
    destruct (Nat.leb_spec (length (message_bytes mesh_MeshMessage_msg
      (slots_of (pb_of_message msg)))) n); try lia.
Qed.

Lemma pb_decode_wire_form msg :
  wf_message msg →
  pb_decode mesh_MeshMessage_msg (wire_form msg) = Some (slots_of (pb_of_message msg)).
Proof.
  intros W. unfold wire_form, pb_decode.
  pose proof (decode_fields_bytes [] [] mesh_MeshMessage_msg (slots_of (pb_of_message msg))
    (length (wire_form msg)) mesh_desc_ok eq_refl (pb_of_message_ok msg W) (le_n _)) as H.
  exact H.
Qed.

Lemma decode_wire_form own msg :
  wf_message msg → decode own (wire_form msg) = Some (link_view own msg).
Proof.
  intros W. unfold decode. rewrite pb_decode_wire_form by done. cbn [mbind option_bind].
  unfold slots_of, of_slots. cbn [fmap option_fmap option_map].
  rewrite <- (message_of_pb_of_message own msg W). do 2 f_equal.
Qed.

(** ** How long an encoding is *)
Lemma tag_length f : field_ok f → f_tag f < 16 → (length (tag_bytes f) <= 1)%nat.
Proof.
  intros [Ht _] H16. apply varint_length; [|lia]. unfold PB_WT_VARINT, PB_WT_STRING.
  change (128 ^ Z.of_nat 1) with 128. destruct (f_ltype f); lia.
Qed.

(** Zero numbers are not written. *)
Definition number_cost (z : Z) (m : nat) : nat := if z =? 0 then 0 else 1 + m.

Lemma number_cost_le z m : (number_cost z m <= 1 + m)%nat.
Proof. unfold number_cost. destruct (z =? 0); lia. Qed.

Lemma number_length f z m :
  field_ok f → f_tag f < 16 → (0 < m)%nat → f_htype f = HT_SINGULAR → f_atype f = AT_STATIC →
  0 <= (match f_ltype f with LT_UVARINT => z | _ => zigzag z end) < 128 ^ Z.of_nat m →
  (length (field_bytes f (Slot false (VInt z))) <= number_cost z m)%nat.
Proof.
  intros HF H16 Hm Hh Ha Hz. unfold field_bytes, emitted, number_cost. rewrite Hh, Ha.
  cbn [s_val pb_check_proto3_default_value]. destruct (z =? 0); cbn [negb]; [cbn; lia|].
  rewrite length_app. cbn [value_bytes s_val].
  pose proof (tag_length f HF H16).
  pose proof (varint_length 9 (match f_ltype f with LT_UVARINT => z | _ => zigzag z end) m Hz Hm). lia.
Qed.

Lemma string_length l : (length l < 128)%nat → length (string_bytes l) = S (length l).
Proof. intros Hl. unfold string_bytes. rewrite length_app, varint_small by lia. cbn. lia. Qed.

Lemma mac_field_length tag m :
  0 < tag < 16 → length m = 6%nat →
  length (field_bytes (Field tag LT_FIXED_LENGTH_BYTES HT_SINGULAR AT_STATIC 6) (Slot false (VFixed m)))
  = 8%nat.
Proof.
  intros Ht Hm. unfold field_bytes, emitted, tag_bytes, PB_WT_STRING.
  cbn [f_htype f_atype f_ltype f_tag f_size s_val pb_check_proto3_default_value Nat.eqb negb].
  rewrite length_app, varint_small by lia. cbn [value_bytes].
  rewrite string_length by lia. cbn. lia.
Qed.

Lemma bytes_field_length tag n l :
  0 < tag < 16 → (length l < 128)%nat →
  length (field_bytes (Field tag LT_BYTES HT_OPTIONAL AT_STATIC n) (present_bytes l))
  = (2 + length l)%nat.
Proof.
  intros Ht Hl. unfold field_bytes, emitted, present_bytes, tag_bytes, PB_WT_STRING.
  cbn [f_htype f_atype f_ltype f_tag f_size s_val s_has].
  rewrite length_app, varint_small by lia. cbn [value_bytes].
  rewrite take_ge by lia. rewrite string_length by lia. cbn. lia.
Qed.

(** The sizes of the scalar fields, from the message. *)
Lemma wire_form_length msg a b c d e g :
  wf_message msg → (0 < a)%nat → (0 < b)%nat → (0 < c)%nat → (0 < d)%nat → (0 < e)%nat → (0 < g)%nat →
  message_type msg < 128 ^ Z.of_nat a → zigzag (data_type msg) < 128 ^ Z.of_nat b →
  hop_count msg < 128 ^ Z.of_nat c → epoch_num msg < 128 ^ Z.of_nat d →
  seq_num msg < 128 ^ Z.of_nat e → proto_version msg < 128 ^ Z.of_nat g →
  (90 <= length (wire_form msg) <=
   124 + number_cost (message_type msg) a + number_cost (data_type msg) b
   + number_cost (hop_count msg) c + number_cost (epoch_num msg) d
   + number_cost (seq_num msg) e + number_cost (proto_version msg) g)%nat.
Proof.
  intros W Ha Hb Hc Hd He Hg Ba Bb Bc Bd Be Bg.
  destruct W as [Hp Hty Hdt [Ho _] [Ht _] [Hl _] [Hda _] Hh Hep Hs [Hk _] _ _ _ _].
  assert (∀ (l : bytes) n, length l = n → length (take n l) = n) as Htake
    by (intros l n <-; by rewrite length_take, Nat.min_id).
  unfold wire_form, message_bytes, mesh_MeshMessage_msg, slots_of, pb_of_message. cbv zeta.
  cbn [pb_messageType pb_dataType pb_originMacAddress pb_targetMacAddress pb_lastHopMacAddress
       pb_data pb_hopCount pb_epochNum pb_seqNum pb_protoVersion pb_public_key pb_routeLen
       pb_routePath pb_authTag mesh_MeshMessage_init_zero zip_with].
  rewrite !concat_cons, !length_app.
  rewrite !mac_field_length by (try done; by apply Htake).
  rewrite (bytes_field_length 6); [|lia|rewrite (Htake _ _ Hda); lia]. rewrite (Htake _ _ Hda).
  assert (0 <= zigzag (data_type msg)) by (rewrite zigzag_value by lia; destruct (Z.ltb_spec (data_type msg) 0); lia).
  assert (∀ tag z m, 0 < tag < 16 → (0 < m)%nat → 0 <= z < 128 ^ Z.of_nat m →
    (length (field_bytes (Field tag LT_UVARINT HT_SINGULAR AT_STATIC 4) (Slot false (VInt z)))
     <= number_cost z m)%nat) as Hnum.
  { intros tag z m Htag Hm Hz. apply number_length; [split; cbn; [lia|done]|cbn; lia|done..]. }
  pose proof (Hnum 1 (message_type msg) a). pose proof (Hnum 7 (hop_count msg) c).
  pose proof (Hnum 8 (epoch_num msg) d). pose proof (Hnum 9 (seq_num msg) e).
  pose proof (Hnum 10 (proto_version msg) g).
  assert (length (field_bytes (Field 2 LT_SVARINT HT_SINGULAR AT_STATIC 4)
            (Slot false (VInt (data_type msg)))) <= number_cost (data_type msg) b)%nat.
  { apply number_length; [split; cbn; [lia|done]|cbn; lia|done..|]. cbn. lia. }
  assert (length (field_bytes (Field 11 LT_BYTES HT_OPTIONAL AT_STATIC 32)
    (if carries_key (message_type msg) && negb (is_zero (take 32 (enrollment_public_key msg)))
     then present_bytes (take 32 (enrollment_public_key msg)) else absent_bytes 32)) <= 34)%nat.
  { destruct (_ && _); [|cbn; lia].
    rewrite bytes_field_length; [|lia|rewrite (Htake _ _ Hk); lia]. rewrite (Htake _ _ Hk). lia. }
  cbn [length field_bytes emitted f_htype f_atype s_has absent_bytes concat].
  lia.
Qed.
End CodecProps.

(** ** Every frame fits the link *)
Lemma zigzag_bounds v : - 2 ^ 31 <= v < 2 ^ 31 → 0 <= zigzag v < 2 ^ 32.
Proof. intros Hv. rewrite zigzag_value by lia. destruct (Z.ltb_spec v 0); lia. Qed.

Lemma wire_form_fits `{Protocol} msg :
  wf_message msg → (0 < length (wire_form msg) <= MAX_PAYLOAD)%nat.
Proof.
  intros W. pose proof W as [Hp Hty Hdt _ _ _ _ Hh He Hs _ _ _ _ _].
  pose proof (zigzag_bounds _ Hdt).
  pose proof (wire_form_length msg 2 5 2 5 3 2 W ltac:(lia) ltac:(lia) ltac:(lia) ltac:(lia)
    ltac:(lia) ltac:(lia)) as HL.
  change (128 ^ Z.of_nat 2) with 16384 in HL. change (128 ^ Z.of_nat 5) with 34359738368 in HL.
  change (128 ^ Z.of_nat 3) with 2097152 in HL.
  specialize (HL ltac:(lia) ltac:(lia) ltac:(lia) ltac:(lia) ltac:(lia) ltac:(lia)).
  pose proof (number_cost_le (message_type msg) 2). pose proof (number_cost_le (data_type msg) 5).
  pose proof (number_cost_le (hop_count msg) 2). pose proof (number_cost_le (epoch_num msg) 5).
  pose proof (number_cost_le (seq_num msg) 3). pose proof (number_cost_le (proto_version msg) 2).
  unfold MAX_PAYLOAD. lia.
Qed.

Lemma encode_256 `{Protocol} msg : wf_message msg → encode msg 256 = wire_form msg.
Proof.
  intros W. rewrite encode_run by done. pose proof (wire_form_fits msg W) as [_ Hle].
  unfold MAX_PAYLOAD in Hle. by rewrite (proj2 (Nat.leb_le _ _) Hle).
Qed.

