(* ===== verification/MeshDescriptor.v ===== *)
(** The descriptor of the frame on the serial link (mesh/serialization/mesh.pb.h and
    mesh.pb.c), as the compiler builds it: the layout of the C structure, the packed
    words [PB_BIND] makes of the field list, and the theorem that the encoder and the
    decoder driven by those words are the ones of SerialFraming. *)
From S2P Require Import Prelude Nanopb Descriptor Wire SerialFraming.

(** * The structure *)
(** The types of members that occur, with the usual sizes and natural alignment; the
    size of a pointer is a parameter (4 on the device, 8 on a 64-bit host). *)
Inductive ctype := UInt32 | Int32 | Bool | ByteArray (n : Z) | BytesArray (n : Z) | Callback.

Section Layout.
Context (pointer_size : Z).

Definition alignof (t : ctype) : Z :=
  match t with
  | UInt32 | Int32 => 4
  | Bool | ByteArray _ => 1
  | BytesArray _ => 2                       (* its [pb_size_t] *)
  | Callback => pointer_size
  end.

Definition align_up (x a : Z) : Z := (x + a - 1) / a * a.

Definition sizeof (t : ctype) : Z :=
  match t with
  | UInt32 | Int32 => 4
  | Bool => 1
  | ByteArray n => n
  | BytesArray n => align_up (2 + n) 2
  | Callback => 2 * pointer_size
  end.

Inductive member :=
  | messageType | dataType | originMacAddress | targetMacAddress | lastHopMacAddress | has_data | data
  | hopCount | epochNum | seqNum | protoVersion | has_public_key | public_key | has_routeLen | routeLen
  | has_routePath | routePath | has_authTag | authTag | authPath.
#[export] Instance member_eq_dec : EqDecision member.
Proof using. solve_decision. Defined.

(** [struct _mesh_MeshMessage]. *)
Definition mesh_MeshMessage_members : list (member * ctype) :=
  [(messageType, UInt32); (dataType, Int32); (originMacAddress, ByteArray 6); (targetMacAddress, ByteArray 6);
   (lastHopMacAddress, ByteArray 6); (has_data, Bool); (data, BytesArray 64); (hopCount, UInt32);
   (epochNum, UInt32); (seqNum, UInt32); (protoVersion, UInt32); (has_public_key, Bool);
   (public_key, BytesArray 32); (has_routeLen, Bool); (routeLen, UInt32); (has_routePath, Bool);
   (routePath, BytesArray 48); (has_authTag, Bool); (authTag, BytesArray 16); (authPath, Callback)].

(** Members in order, each at the next address of its alignment. *)
Fixpoint place (o : Z) (ms : list (member * ctype)) : list (member * Z * Z) :=
  match ms with
  | [] => []
  | (x, t) :: ms' => let a := align_up o (alignof t) in (x, a, sizeof t) :: place (a + sizeof t) ms'
  end.
Definition layout : list (member * Z * Z) := place 0 mesh_MeshMessage_members.

Definition offset_and_size (x : member) : Z * Z :=
  match filter (λ p, p.1.1 = x) layout with p :: _ => (p.1.2, p.2) | [] => (0, 0) end.
Definition offsetof (x : member) : Z := (offset_and_size x).1.
Definition pb_membersize (x : member) : Z := (offset_and_size x).2.
Definition pb_delta (x y : member) : Z := offsetof x - offsetof y.

(** * The field list *)
Inductive xtype := UINT32 | SINT32 | FIXED_LENGTH_BYTES | BYTES.
Definition PB_LTYPE_MAP (t : xtype) : Z :=
  match t with
  | UINT32 => PB_LTYPE_UVARINT
  | SINT32 => PB_LTYPE_SVARINT
  | FIXED_LENGTH_BYTES => PB_LTYPE_FIXED_LENGTH_BYTES
  | BYTES => PB_LTYPE_BYTES
  end.

(** A line of the list: SINGULAR, or OPTIONAL with its flag; STATIC or CALLBACK. *)
Record xfield := X { x_atype : atype; x_htype : htype; x_ltype : xtype; x_member : member; x_has : member; x_tag : Z }.

Definition mesh_MeshMessage_FIELDLIST : list xfield :=
  let singular t x tag := X AT_STATIC HT_SINGULAR t x x tag in
  let optional t x h tag := X AT_STATIC HT_OPTIONAL t x h tag in
  [singular UINT32 messageType 1; singular SINT32 dataType 2;
   singular FIXED_LENGTH_BYTES originMacAddress 3; singular FIXED_LENGTH_BYTES targetMacAddress 4;
   singular FIXED_LENGTH_BYTES lastHopMacAddress 5; optional BYTES data has_data 6;
   singular UINT32 hopCount 7; singular UINT32 epochNum 8; singular UINT32 seqNum 9;
   singular UINT32 protoVersion 10; optional BYTES public_key has_public_key 11;
   optional UINT32 routeLen has_routeLen 12; optional BYTES routePath has_routePath 13;
   optional BYTES authTag has_authTag 14; X AT_CALLBACK HT_OPTIONAL BYTES authPath authPath 17].

(** [PB_GEN_FIELD_INFO_2]: the arguments given to [PB_FIELDINFO_2]. *)
Definition PB_GEN_FIELD_INFO (x : xfield) : fieldinfo :=
  FieldInfo (x_tag x)
    (Z.lor (Z.lor (match x_atype x with AT_STATIC => PB_ATYPE_STATIC | AT_CALLBACK => PB_ATYPE_CALLBACK end)
                  (match x_htype x with HT_SINGULAR => PB_HTYPE_SINGULAR | HT_OPTIONAL => PB_HTYPE_OPTIONAL end))
           (PB_LTYPE_MAP (x_ltype x)))
    (offsetof (x_member x)) (pb_membersize (x_member x))
    (match x_atype x, x_htype x with
     | AT_STATIC, HT_OPTIONAL => pb_delta (x_member x) (x_has x)
     | _, _ => 0
     end) 1.

Definition mesh_field_info : list (width * fieldinfo) :=
  (λ x, (WIDTH_2, PB_GEN_FIELD_INFO x)) <$> mesh_MeshMessage_FIELDLIST.

(** [PB_BIND(mesh_MeshMessage, mesh_MeshMessage, 2)]. *)
Definition mesh_MeshMessage_desc : pb_msgdesc := PB_BIND mesh_field_info [].
End Layout.

(** The sizes a pointer can have. *)
Definition pointer_ok (p : Z) : Prop := p = 4 ∨ p = 8.

Lemma mesh_packed p : pointer_ok p → packed (mesh_field_info p) [].
Proof. intros [->| ->]; apply packedb_packed; vm_compute; reflexivity. Qed.

Lemma mesh_fields p : pointer_ok p → (λ x, field_of_info x.2) <$> mesh_field_info p = Some <$> mesh_MeshMessage_msg.
Proof. intros [->| ->]; vm_compute; reflexivity. Qed.

(** * The codec over the packed descriptor *)
Section Codec.
Context {Pr : Protocol} (pointer_at : Z → option Z) (pointer_size : Z).

(** [encode] and [decode] of SerialFraming.cpp, with the message structure at the
    address [at_]. *)
Definition encode_struct (at_ : Z) (msg : mesh_message) (maxLen : nat) : option bytes :=
  r ← pb_encode_struct pointer_at (mesh_MeshMessage_desc pointer_size) at_ (slots_of (pb_of_message msg))
        (pb_ostream_from_buffer maxLen);
  Some (match r with Some s => o_bytes s | None => [] end).

Definition decode_struct (at_ : Z) (own : mac) (payload : bytes) : option (option mesh_message) :=
  r ← pb_decode_inner pointer_at (mesh_MeshMessage_desc pointer_size) at_ (slots_of mesh_MeshMessage_init_zero) payload;
  Some (l ← r; message_of_pb own <$> of_slots l).

Context (H : pointer_ok pointer_size).

Lemma mesh_field_nonempty : mesh_field_info pointer_size ≠ [].
Proof using. done. Qed.

Lemma encode_struct_packed at_ msg n : encode_struct at_ msg n = Some (encode msg n).
Proof using H.
  unfold encode_struct, mesh_MeshMessage_desc.
  by rewrite (encode_over_packed _ _ _ _ mesh_MeshMessage_msg) by (by apply mesh_packed || apply mesh_fields || done).
Qed.

Lemma decode_struct_packed at_ own payload : decode_struct at_ own payload = Some (decode own payload).
Proof using H.
  unfold decode_struct, mesh_MeshMessage_desc.
  rewrite (decode_over_packed _ _ _ _ mesh_MeshMessage_msg); [done|by apply mesh_packed|done|by apply mesh_fields|done|].
  intros i f Hi Ha. repeat (destruct i as [|i]; [injection Hi as <-; done|]). done.
Qed.
End Codec.

(** * What the pointers of the iterator reach *)
(** The bytes the contents and the flag of a field take, by the iterator's pointers. *)
Definition field_ranges (it : pb_field_iter) : list (Z * Z) :=
  (match pData it with Some a => [(a, a + data_size it)] | None => [] end) ++
  (match pSize it with Some (AtAddress a) => [(a, a + 1)] | _ => [] end).

(** Ranges in ascending order that do not meet. *)
Fixpoint disjoint_from (lo : Z) (l : list (Z * Z)) (hi : Z) : bool :=
  match l with
  | [] => lo <=? hi
  | r :: l' => (lo <=? r.1) && (r.1 <=? r.2) && disjoint_from r.2 l' hi
  end.

Definition struct_size (p : Z) : Z :=
  align_up (foldl (λ _ x, x.1.2 + x.2) 0 (layout p)) (Z.max 4 p).

Definition mesh_ranges (pointer_at : Z → option Z) (p m : Z) : list (list (Z * Z)) :=
  (λ k, reverse (field_ranges (iter_at pointer_at (mesh_field_info p) [] m k))) <$> seq 0 (length mesh_MeshMessage_FIELDLIST).

Definition shift (m : Z) (r : Z * Z) : Z * Z := (m + r.1, m + r.2).

Lemma disjoint_shift m l lo hi : disjoint_from (m + lo) (shift m <$> l) (m + hi) = disjoint_from lo l hi.
Proof.
  revert lo. induction l as [|r l IH]; intros lo; cbn; [apply eq_true_iff_eq; rewrite !Z.leb_le; lia|].
  rewrite IH. f_equal. f_equal; apply eq_true_iff_eq; rewrite !Z.leb_le; lia.
Qed.

Lemma field_ranges_shift pointer_at l subs m k x :
  l !! k = Some x → PB_ATYPE (fi_type x.2) ≠ PB_ATYPE_POINTER →
  field_ranges (iter_at pointer_at l subs m k) = shift m <$> field_ranges (iter_at pointer_at l subs 0 k).
Proof.
  intros Hx Hp. rewrite !(iter_at_lookup _ _ _ _ _ _ Hx). unfold iter_for, field_ranges, shift. cbn [pData pSize data_size].
  apply Z.eqb_neq in Hp. rewrite Hp, fmap_app.
  destruct (fi_size_offset x.2 =? 0); cbn [negb].
  - destruct (_ && _); cbn [fmap list_fmap app fst snd]; by rewrite !Z.add_0_l, !Z.add_assoc.
  - cbn [fmap list_fmap app fst snd]. by rewrite !Z.add_0_l, <- !Z.add_sub_assoc, <- !Z.add_assoc.
Qed.

Lemma concat_fmap {A B} (f : A → B) (ls : list (list A)) :
  f <$> concat ls = concat ((λ l : list A, f <$> l) <$> ls).
Proof. induction ls as [|l ls IH]; cbn; [done|]. by rewrite fmap_app, IH. Qed.

(** The decoder writes only through these pointers. *)
Lemma mesh_ranges_apart pointer_at p m :
  pointer_ok p → disjoint_from m (concat (mesh_ranges pointer_at p m)) (m + struct_size p) = true.
Proof.
  intros Hp.
  assert (concat (mesh_ranges pointer_at p m) = shift m <$> concat (mesh_ranges pointer_at p 0)) as ->.
  { unfold mesh_ranges. rewrite concat_fmap, <- list_fmap_compose. f_equal. apply list_fmap_ext. intros i k Hk.
    apply lookup_seq in Hk as [-> Hi]. cbn. rewrite fmap_reverse. f_equal.
    destruct (lookup_lt_is_Some_2 (mesh_field_info p) i) as [x Hx]; [done|].
    apply (field_ranges_shift _ _ _ _ _ x Hx).
    repeat (destruct i as [|i]; [injection Hx as <-; vm_compute; discriminate|]). done. }
  replace m with (m + 0) at 1 by lia. rewrite disjoint_shift.
  destruct Hp as [-> | ->]; vm_compute; reflexivity.
Qed.

(** C19. The serial codec runs on the packed descriptor.  With the words that [PB_BIND]
    makes of mesh.pb.h, for pointers of 4 or of 8 bytes and the structure at any address:
    whatever bytes the server sends, decoding with the walking iterator reads no word
    outside the descriptor and yields what decoding over the list of fields yields;
    encoding likewise; and the bytes that the iterator's pointers reach - contents and
    [has_] flags - do not overlap and lie inside the structure. *)
Theorem codec_on_descriptor `{Protocol} pointer_at p at_ own :
  pointer_ok p →
  (∀ payload, decode_struct pointer_at p at_ own payload = Some (decode own payload)) ∧
  (∀ msg n, encode_struct pointer_at p at_ msg n = Some (encode msg n)) ∧
  disjoint_from at_ (concat (mesh_ranges pointer_at p at_)) (at_ + struct_size p) = true.
Proof.
  intros Hp. split_and!; [intros; by apply decode_struct_packed|intros; by apply encode_struct_packed|
    by apply mesh_ranges_apart].
Qed.

#[local] Existing Instance documented_protocol.
Lemma codec_on_descriptor_witness :
  field_info (mesh_MeshMessage_desc 4) !! 10%nat = Some 0x20011619 ∧ struct_size 4 = 236 ∧
  (∀ payload, decode_struct (λ _, None) 4 0x3FC98000 (demo_mac 1) payload
              = Some (decode (demo_mac 1) payload)) ∧
  (∀ msg n, encode_struct (λ _, None) 4 0x3FC98000 msg n = Some (encode msg n)) ∧
  disjoint_from 0x3FC98000 (concat (mesh_ranges (λ _, None) 4 0x3FC98000)) (0x3FC98000 + struct_size 4) = true.
Proof.
  split; [vm_compute; reflexivity|]. split; [vm_compute; reflexivity|].
  apply (codec_on_descriptor (λ _, None) 4 0x3FC98000 (demo_mac 1)). by left.
Defined.
