(* ===== verification/Hardware.v ===== *)
(** The GPIO devices (hardware/input, hardware/output): pin validation, the
    LED's non-blocking pulse pattern, the debounced button and the PIR sensor. *)
From S2P Require Import Prelude Config Wire Platform ErrorCore.

(** * Pins *)
Definition isValidOutputPin (pin : Z) : bool :=
  (pin <? 64) && negb (Z.land (Z.shiftr 0x30eeff034 pin) 1 =? 0).
Definition isValidInputPin (pin : Z) : bool :=
  (pin <? 64) && negb (Z.land (Z.shiftr 0x9f0eeff035 pin) 1 =? 0).

(** * Led *)
Record Led := LedState {
  led_pin : Z;
  led_initialized : bool;
  isOn : bool;
  remaining : Z;           (* uint8_t *)
  onPhase : bool;
  nextFlipMs : Z;
  onMs : Z;
  offMs : Z
}.

Definition led_new (pin : Z) : Led := LedState pin false false 0 false 0 0 0.

Definition with_on (v : bool) (l : Led) : Led :=
  LedState (led_pin l) (led_initialized l) v (remaining l) (onPhase l) (nextFlipMs l) (onMs l)
    (offMs l).
Definition with_phase (rem : Z) (phase : bool) (flip : Z) (l : Led) : Led :=
  LedState (led_pin l) (led_initialized l) (isOn l) rem phase flip (onMs l) (offMs l).
Definition with_periods (on off : Z) (l : Led) : Led :=
  LedState (led_pin l) (led_initialized l) (isOn l) (remaining l) (onPhase l) (nextFlipMs l) on off.

Definition isBusy (l : Led) : bool := 0 <? remaining l.

Section Led.
Context {E : Env}.

(** [isSystemErrorLed]: this LED was given to [setSystemErrorLed]. *)
Definition led_init (isSystemErrorLed : bool) (l : Led) : W (bool * Led) :=
  if negb (isValidOutputPin (led_pin l)) then
    (if isSystemErrorLed then wret false else fail E_CONFIG M_HW 1) ;;; wret (false, l)
  else
    let l1 := LedState (led_pin l) true (isOn l) (remaining l) (onPhase l) (nextFlipMs l) (onMs l)
                (offMs l) in
    gpio_set_level (led_pin l1) false ;;; wret (true, with_on false l1).

Definition setState (state : bool) (l : Led) : W Led :=
  if eqb (isOn l) state then wret l
  else gpio_set_level (led_pin l) state ;;; wret (with_on state l).

(** [on], [off] and [toggle]; [sub] is the error code of a call before [init]. *)
Definition led_set (isSystemErrorLed : bool) (sub : Z) (state : bool) (l : Led) : W (bool * Led) :=
  if negb (led_initialized l) then
    (if isSystemErrorLed then wret false else fail E_HARDWARE M_HW sub) ;;; wret (false, l)
  else l1 <- setState state l ;; wret (true, l1).
Definition led_on (sys : bool) (l : Led) : W (bool * Led) := led_set sys 2 true l.
Definition led_off (sys : bool) (l : Led) : W (bool * Led) := led_set sys 3 false l.
Definition led_toggle (sys : bool) (l : Led) : W (bool * Led) := led_set sys 4 (negb (isOn l)) l.

Definition pulse (isSystemErrorLed : bool) (times on off : Z) (l : Led) : W Led :=
  if negb (led_initialized l) then
    (if isSystemErrorLed then wret false else fail E_HARDWARE M_HW 5) ;;; wret l
  else if times =? 0 then wret (with_phase 0 (onPhase l) (nextFlipMs l) l)
  else
    let l1 := with_phase times true (nextFlipMs l) (with_periods on off l) in
    l2 <- setState true l1 ;;
    now <- now_ms ;;
    wret (with_phase times true (u64 (now + on)) l2).

Definition update (nowMs : Z) (l : Led) : W Led :=
  if remaining l =? 0 then wret l
  else if nowMs <? nextFlipMs l then wret l
  else if onPhase l then
    l1 <- setState false l ;;
    let rem := u8 (remaining l1 - 1) in
    wret (with_phase rem false (if 0 <? rem then u64 (nowMs + offMs l1) else nextFlipMs l1) l1)
  else
    l1 <- setState true l ;;
    wret (with_phase (remaining l1) true (u64 (nowMs + onMs l1)) l1).

(** A run of updates at the given times. *)
Definition updates (ts : list Z) (l : Led) : W Led := wfold update ts l.
End Led.

(** Level changes of a pin, in a trace. *)
Fixpoint edges (pin : Z) (level : bool) (tr : trace) : Z :=
  match tr with
  | [] => 0
  | EvLevel p l :: tr' =>
      (if (p =? pin) && eqb l level then 1 else 0) + edges pin level tr'
  | _ :: tr' => edges pin level tr'
  end.

(** [n] blinks armed at trace [tr0], some of them done. *)
Definition pattern_inv (n : Z) (tr0 : trace) (l : Led) (tr : trace) : Prop :=
  let rises := edges (led_pin l) true tr - edges (led_pin l) true tr0 in
  let falls := edges (led_pin l) false tr - edges (led_pin l) false tr0 in
  led_initialized l = true ∧ 0 <= remaining l <= n ∧ isOn l = onPhase l ∧
  falls = n - remaining l ∧ rises = falls + (if onPhase l then 1 else 0) ∧
  (remaining l = 0 → onPhase l = false).

(** Update times at least [d] apart, the first not before [t]. *)
Fixpoint paced (d t : Z) (ts : list Z) : Prop :=
  match ts with
  | [] => True
  | t' :: ts' => t <= t' ∧ paced d (t' + d) ts'
  end.

(** Phases of the pattern still to come. *)
Definition phases_left (l : Led) : Z :=
  2 * remaining l - (if onPhase l then 1 else 0).

Section LedProps.
Context {E : Env}.

Lemma setState_run s l w :
  ∃ w', setState s l w = Ok (with_on s l) w' ∧
    ∀ level, edges (led_pin l) level (w_trace w') =
      (if eqb (isOn l) s then 0 else if eqb s level then 1 else 0) + edges (led_pin l) level (w_trace w).
Proof.
  unfold setState. destruct (eqb (isOn l) s) eqn:Es.
  - exists w. apply eqb_prop in Es. subst s. split; [by destruct l|done].
  - eexists. split; [done|]. intros level. cbn. by rewrite Z.eqb_refl.
Qed.

Lemma update_inv n tr0 t l w :
  n <= 255 → pattern_inv n tr0 l (w_trace w) →
  ∃ l' w', update t l w = Ok l' w' ∧ pattern_inv n tr0 l' (w_trace w') ∧ led_pin l' = led_pin l ∧
    onMs l' = onMs l ∧ offMs l' = offMs l ∧
    (nextFlipMs l <= t → 0 < remaining l → phases_left l' <= phases_left l - 1 ∧
       (0 < remaining l' → nextFlipMs l' ∈ [u64 (t + onMs l); u64 (t + offMs l)])).
Proof.
  intros Hn (Hi & Hr & Hon & Hf & Hrise & Hdone). unfold update, phases_left.
  destruct (Z.eqb_spec (remaining l) 0); [exists l, w; split_and!; try done; lia|].
  destruct (Z.ltb_spec t (nextFlipMs l)); [exists l, w; split_and!; try done; lia|].
  destruct (onPhase l) eqn:Hp.
  - destruct (setState_run false l w) as (w' & E1 & H1). unfold wbind. rewrite E1.
    eexists _, w'. split; [done|]. rewrite Hon in H1. cbn [eqb] in H1.
    unfold pattern_inv. cbn -[edges u8 u64]. rewrite !H1. unfold u8. rewrite Z.mod_small by lia.
    split_and!; try done; try lia. intros _ _. split; [lia|]. intros.
    destruct (Z.ltb_spec 0 (remaining l - 1)); [|lia]. right. left.
  - destruct (setState_run true l w) as (w' & E1 & H1). unfold wbind. rewrite E1.
    eexists _, w'. split; [done|]. rewrite Hon in H1. cbn [eqb] in H1.
    unfold pattern_inv. cbn -[edges u8 u64]. rewrite !H1. split_and!; try done; try lia.
    intros _ _. split; [lia|]. by left.
Qed.

Lemma pulse_inv sys n on off l w :
  led_initialized l = true → isOn l = false → 0 < n <= 255 →
  ∃ l' w', pulse sys n on off l w = Ok l' w' ∧ pattern_inv n (w_trace w) l' (w_trace w') ∧
    onPhase l' = true ∧ remaining l' = n ∧ led_pin l' = led_pin l ∧ onMs l' = on ∧ offMs l' = off.
Proof.
  intros Hi Ho Hn. unfold pulse. rewrite Hi. cbn [negb]. destruct (Z.eqb_spec n 0); [lia|].
  set (l1 := with_phase n true (nextFlipMs l) (with_periods on off l)).
  destruct (setState_run true l1 w) as (w1 & E1 & H1). unfold wbind at 1. rewrite E1.
  unfold wbind, now_ms, esp_timer_get_time, ask, emit, wret. cbn -[edges u64 with_on].
  eexists _, _. split; [done|]. unfold pattern_inv. cbn -[edges u64].
  cbn [edges]. change (led_pin l1) with (led_pin l) in H1. change (isOn l1) with (isOn l) in H1.
  rewrite Ho in H1. cbn [eqb] in H1. rewrite !H1. split_and!; try done; lia.
Qed.

(** A pulse pattern blinks exactly as often as asked, whenever the updates
    come: at no time has the LED been switched on more than [n] times, and when
    the pattern is no longer busy it was switched on and off exactly [n] times
    and is off. *)
Theorem led_pulse_pattern sys n on off l w ts :
  led_initialized l = true → isOn l = false → 0 < n <= 255 →
  ∃ l' w', (l1 <- pulse sys n on off l ;; updates ts l1) w = Ok l' w' ∧
    let rises := edges (led_pin l) true (w_trace w') - edges (led_pin l) true (w_trace w) in
    let falls := edges (led_pin l) false (w_trace w') - edges (led_pin l) false (w_trace w) in
    falls <= rises <= n ∧
    (isBusy l' = false → rises = n ∧ falls = n ∧ isOn l' = false).
Proof.
  intros Hi Ho Hn. destruct (pulse_inv sys n on off l w Hi Ho Hn) as (l1 & w1 & E1 & I1 & _ & _ & P1 & _).
  unfold wbind. rewrite E1. clear E1. rewrite <- P1. clear P1.
  assert (∃ l' w', updates ts l1 w1 = Ok l' w' ∧ pattern_inv n (w_trace w) l' (w_trace w') ∧
                   led_pin l' = led_pin l1) as (l' & w' & E' & I' & P').
  { unfold updates. revert l1 w1 I1. induction ts as [|t ts IH]; intros l1 w1 I1; [by exists l1, w1|].
    destruct (update_inv n _ t l1 w1 ltac:(lia) I1) as (l2 & w2 & E2 & I2 & P2 & _).
    cbn [wfold]. unfold wbind. rewrite E2. rewrite <- P2. by apply IH. }
  rewrite E'. exists l', w'. split; [done|]. rewrite <- P'.
  destruct I' as (_ & Hr & Hon & Hf & Hrise & Hdone). unfold isBusy.
  destruct (onPhase l') eqn:Hp; split; [lia| |lia|].
  - intros Hb%Z.ltb_ge. assert (remaining l' = 0) as H0 by lia. by specialize (Hdone H0).
  - intros Hb%Z.ltb_ge. rewrite Hon. split_and!; [lia..|done].
Qed.

Lemma updates_finish n tr0 d l ts t w :
  n <= 255 → pattern_inv n tr0 l (w_trace w) → 0 <= onMs l <= d → 0 <= offMs l <= d →
  Forall (λ t, 0 <= t ∧ t + d < 2 ^ 64) ts → paced d t ts → (0 < remaining l → nextFlipMs l <= t) →
  phases_left l <= Z.of_nat (length ts) →
  ∃ l' w', updates ts l w = Ok l' w' ∧ isBusy l' = false.
Proof.
  intros Hn. revert l t w. induction ts as [|t0 ts IH]; intros l t w I Hon Hoff HT HP Hflip Hlen.
  - exists l, w. split; [done|]. destruct I as (_ & Hr & _ & _ & _ & Hdone).
    unfold isBusy, phases_left in *. cbn [length] in Hlen. apply Z.ltb_ge.
    destruct (onPhase l); lia.
  - unfold updates. cbn [wfold]. fold (updates ts).
    destruct (update_inv n tr0 t0 l w Hn I) as (l1 & w1 & E1 & I1 & _ & Eon & Eoff & Hstep).
    unfold wbind. rewrite E1. change (wfold update ts) with (updates ts).
    apply Forall_cons in HT as [[Ht0 Ht1] HT]. destruct HP as [Hle HP]. cbn [length] in Hlen.
    destruct (Z.ltb_spec 0 (remaining l)) as [Hpos|Hnp].
    + destruct (Hstep ltac:(lia) Hpos) as [Hph Hnext].
      apply (IH l1 (t0 + d) w1); rewrite ?Eon, ?Eoff; try done; [|lia].
      intros Hr1. specialize (Hnext Hr1). unfold u64 in Hnext.
      rewrite !Z.mod_small in Hnext by lia. set_unfold. lia.
    + assert (remaining l1 = 0 ∧ phases_left l1 <= 0) as [Hr1 Hp1].
      { destruct I as (_ & Hr & _). unfold update in E1.
        assert (remaining l = 0) as Hz by lia. rewrite Hz in E1. injection E1 as <- _.
        split; [done|]. unfold phases_left. destruct (onPhase l); lia. }
      apply (IH l1 (t0 + d) w1); rewrite ?Eon, ?Eoff; try done; lia.
Qed.

(** A pulse pattern always comes to its end: once armed, [2 * n - 1] updates at
    least one phase apart, the first not before the scheduled flip, leave the LED
    idle, however late each of them comes. *)
Theorem led_pulse_finishes sys n on off l w l1 w1 ts :
  led_initialized l = true → isOn l = false → 0 < n <= 255 → 0 <= on → 0 <= off →
  pulse sys n on off l w = Ok l1 w1 →
  paced (Z.max on off) (nextFlipMs l1) ts →
  Forall (λ t, 0 <= t ∧ t + Z.max on off < 2 ^ 64) ts →
  2 * n - 1 <= Z.of_nat (length ts) →
  ∃ l' w', updates ts l1 w1 = Ok l' w' ∧ isBusy l' = false.
Proof.
  intros Hi Ho Hn Hon Hoff Hp HP HT Hlen.
  destruct (pulse_inv sys n on off l w Hi Ho Hn) as (l2 & w2 & E2 & I2 & Ph & Rm & _ & Eon & Eoff).
  rewrite Hp in E2. injection E2 as <- <-.
  eapply (updates_finish n _ (Z.max on off)); try done; [lia..|].
  unfold phases_left. rewrite Ph, Rm. lia.
Qed.
End LedProps.

(** * Button *)
Record Button := ButtonState {
  btn_pin : Z;
  btn_initialized : bool;
  lastPollMs : Z;
  history : Z;             (* uint8_t: raw samples, newest in bit 0 *)
  hasPolled : bool
}.

Definition button_new (pin : Z) : Button := ButtonState pin false 0 0 false.

Definition DEBOUNCE_READS : Z := 3.
Definition DEBOUNCE_DELAY_MS : Z := 5.
Definition DEBOUNCE_HISTORY_MASK : Z := u8 (Z.shiftl 1 DEBOUNCE_READS - 1).

(** [Button::init] is [GpioInput::init]. *)
Definition button_init (b : Button) : bool * Button :=
  if negb (isValidInputPin (btn_pin b)) then (false, b)
  else (true, ButtonState (btn_pin b) true (lastPollMs b) (history b) (hasPolled b)).

Section Button.
Context {E : Env}.

Definition isPressed (b : Button) : W (bool * Button) :=
  now <- now_ms ;;
  b1 <- (if negb (hasPolled b) || (DEBOUNCE_DELAY_MS <=? now -64 lastPollMs b) then
           raw <- gpio_get_level (btn_pin b) ;;
           wret (ButtonState (btn_pin b) (btn_initialized b) now
                   (u8 (Z.lor (u32 (Z.shiftl (history b) 1)) (if raw then 1 else 0))) true)
         else wret b) ;;
  wret (Z.land (history b1) DEBOUNCE_HISTORY_MASK =? DEBOUNCE_HISTORY_MASK, b1).

(** A run of [k + 1] polls, with the answer of the last. *)
Fixpoint polls (k : nat) (b : Button) : W (bool * Button) :=
  match k with
  | O => isPressed b
  | S k' => let* (_, b') := isPressed b in polls k' b'
  end.
End Button.

(** The samples of a pin in a trace, newest first, with the time (ms) the
    preceding clock read gave. *)
Fixpoint samples (pin : Z) (tr : trace) : list (Z * bool) :=
  match tr with
  | [] => []
  | EvSample p l :: tr' =>
      let rest := samples pin tr' in
      match tr' with
      | EvTimer us :: _ => if p =? pin then (u64 us / 1000, l) :: rest else rest
      | _ => rest
      end
  | _ :: tr' => samples pin tr'
  end.

(** Successive samples at least a debounce period apart. *)
Fixpoint debounced (l : list (Z * bool)) : Prop :=
  match l with
  | (t, _) :: (((t', _) :: _) as l') => DEBOUNCE_DELAY_MS <= t -64 t' ∧ debounced l'
  | _ => True
  end.

Section ButtonProps.
Context {E : Env}.

(** The history byte holds the last eight samples, zeros before the first. *)
Fixpoint history_of (k : nat) (l : list bool) : Z :=
  match k with
  | O => 0
  | S k' => match l with
            | [] => 0
            | raw :: l' => (if raw then 1 else 0) + 2 * history_of k' l'
            end
  end.

Lemma history_of_bound k l : 0 <= history_of k l < 2 ^ Z.of_nat k.
Proof.
  revert l. induction k as [|k IH]; intros l; [cbn; lia|].
  rewrite Nat2Z.inj_succ, Z.pow_succ_r by lia. destruct l as [|raw l]; cbn [history_of]; [lia|].
  specialize (IH l). destruct raw; lia.
Qed.

Lemma history_of_mod k l : history_of (S k) l mod 2 ^ Z.of_nat k = history_of k l.
Proof.
  revert l. induction k as [|k IH]; intros l; [cbn [Z.of_nat]; by rewrite Z.mod_1_r|].
  destruct l as [|raw l].
  { cbn [history_of]. by apply Z.mod_0_l, Z.pow_nonzero. }
  change (history_of (S (S k)) (raw :: l)) with ((if raw then 1 else 0) + 2 * history_of (S k) l).
  change (history_of (S k) (raw :: l)) with ((if raw then 1 else 0) + 2 * history_of k l).
  rewrite <- (IH l). rewrite Nat2Z.inj_succ, Z.pow_succ_r by lia.
  assert (0 < 2 ^ Z.of_nat k) by (apply Z.pow_pos_nonneg; lia).
  pose proof (Z.mod_pos_bound (history_of (S k) l) (2 ^ Z.of_nat k) ltac:(lia)).
  symmetry. apply (Z.mod_unique _ _ (history_of (S k) l / 2 ^ Z.of_nat k)); [destruct raw; lia|].
  pose proof (Z.div_mod (history_of (S k) l) (2 ^ Z.of_nat k)). destruct raw; lia.
Qed.

Lemma history_push (raw : bool) l :
  u8 (Z.lor (u32 (Z.shiftl (history_of 8 l) 1)) (if raw then 1 else 0)) = history_of 8 (raw :: l).
Proof.
  pose proof (history_of_bound 8 l) as Hb. change (2 ^ Z.of_nat 8) with 256 in Hb.
  rewrite Z.shiftl_mul_pow2 by lia. change (2 ^ 1) with 2.
  unfold u32. rewrite Z.mod_small by lia.
  assert (Z.lor (history_of 8 l * 2) (if raw then 1 else 0)
          = (if raw then 1 else 0) + 2 * history_of 8 l) as ->.
  { destruct raw; [|rewrite Z.lor_0_r; lia].
    rewrite Z.mul_comm, Z.add_comm. destruct (history_of 8 l); [done..|lia]. }
  exact (history_of_mod 8 (raw :: l)).
Qed.

(** The three newest samples, out of the history. *)
Lemma history_mask l :
  (Z.land (history_of 8 l) DEBOUNCE_HISTORY_MASK =? DEBOUNCE_HISTORY_MASK)
  = bool_decide (take 3 l = [true; true; true]).
Proof.
  change DEBOUNCE_HISTORY_MASK with (Z.ones 3). rewrite Z.land_ones by lia.
  assert (history_of 8 l mod 2 ^ 3 = history_of 3 l) as ->.
  { pose proof (history_of_mod 3 l). pose proof (history_of_mod 4 l).
    pose proof (history_of_mod 5 l). pose proof (history_of_mod 6 l).
    pose proof (history_of_mod 7 l).
    change (2 ^ Z.of_nat 3) with 8 in *. change (2 ^ Z.of_nat 4) with 16 in *.
    change (2 ^ Z.of_nat 5) with 32 in *. change (2 ^ Z.of_nat 6) with 64 in *.
    change (2 ^ Z.of_nat 7) with 128 in *. change (2 ^ 3) with 8.
    assert (history_of 5 l mod 8 = history_of 3 l) by (Z.div_mod_to_equations; lia).
    assert (history_of 6 l mod 8 = history_of 3 l) by (Z.div_mod_to_equations; lia).
    assert (history_of 7 l mod 8 = history_of 3 l) by (Z.div_mod_to_equations; lia).
    Z.div_mod_to_equations; lia. }
  destruct l as [|[] [|[] [|[] l]]]; done.
Qed.

Definition button_inv (tr0 tr : trace) (b : Button) : Prop :=
  ∃ news, samples (btn_pin b) tr = news ++ samples (btn_pin b) tr0 ∧
    history b = history_of 8 (snd <$> news) ∧ debounced news ∧
    match news with
    | [] => hasPolled b = false
    | (t, _) :: _ => hasPolled b = true ∧ lastPollMs b = t
    end.

Lemma isPressed_inv tr0 b w :
  button_inv tr0 (w_trace w) b →
  ∃ p b' w', isPressed b w = Ok (p, b') w' ∧ button_inv tr0 (w_trace w') b' ∧
    btn_pin b' = btn_pin b ∧
    p = bool_decide (take 3 (snd <$> take (length (samples (btn_pin b) (w_trace w'))
          - length (samples (btn_pin b) tr0)) (samples (btn_pin b) (w_trace w')))
          = [true; true; true]).
Proof.
  intros (news & Hs & Hh & Hd & Hl).
  assert (∀ l n h, samples (btn_pin b) l = n ++ samples (btn_pin b) tr0 → h = history_of 8 (snd <$> n) →
    (Z.land h DEBOUNCE_HISTORY_MASK =? DEBOUNCE_HISTORY_MASK)
    = bool_decide (take 3 (snd <$> take (length (samples (btn_pin b) l)
          - length (samples (btn_pin b) tr0)) (samples (btn_pin b) l)) = [true; true; true])) as Hans.
  { intros l n h -> ->. rewrite length_app, Nat.add_sub, take_app_length. apply history_mask. }
  unfold isPressed, now_ms, esp_timer_get_time, gpio_get_level, wbind, ask, emit, wret.
  cbn [w_trace]. set (us := env_timer (w_trace w)).
  destruct (negb (hasPolled b) || _) eqn:Hpoll; cbn [w_trace w_eeprom w_err].
  - eexists _, _, _. split; [done|]. cbn [w_trace btn_pin].
    set (raw := env_gpio_level _ _).
    assert (samples (btn_pin b) (EvSample (btn_pin b) raw :: EvTimer us :: w_trace w)
            = ((u64 us / 1000, raw) :: news) ++ samples (btn_pin b) tr0) as Hs'.
    { cbn [samples]. rewrite Z.eqb_refl. by rewrite Hs. }
    assert (u8 (Z.lor (u32 (Z.shiftl (history b) 1)) (if raw then 1 else 0))
            = history_of 8 (snd <$> ((u64 us / 1000, raw) :: news))) as Hh'.
    { cbn [fmap list_fmap snd]. rewrite Hh. by apply history_push. }
    split; [|split; [done|by apply (Hans _ _ _ Hs' Hh')]].
    exists ((u64 us / 1000, raw) :: news). split; [exact Hs'|]. split; [exact Hh'|].
    split; [|done]. destruct news as [|[t r] news]; [done|]. destruct Hl as [Hp Ht].
    split; [|done]. rewrite Hp, Ht in Hpoll. cbn [negb orb] in Hpoll. by apply Z.leb_le.
  - eexists _, _, _. split; [done|]. cbn [w_trace].
    split; [by exists news|]. split; [done|by apply (Hans _ _ _ Hs Hh)].
Qed.

(** Debouncing: however often and however irregularly a fresh button is polled,
    it samples its pin at most once per debounce period, and a poll reports
    "pressed" exactly when the three newest samples it has taken are all high -
    a bounce that shows up low in any of them is filtered out. *)
Theorem button_debounce k pin w :
  ∃ p b' w', polls k (button_new pin) w = Ok (p, b') w' ∧
    let taken := take (length (samples pin (w_trace w')) - length (samples pin (w_trace w)))
                   (samples pin (w_trace w')) in
    samples pin (w_trace w') = taken ++ samples pin (w_trace w) ∧ debounced taken ∧
    (p = true ↔ take 3 (snd <$> taken) = [true; true; true]).
Proof.
  assert (∀ b w1, button_inv (w_trace w) (w_trace w1) b → btn_pin b = pin →
    ∃ p b' w', polls k b w1 = Ok (p, b') w' ∧
      button_inv (w_trace w) (w_trace w') b' ∧ btn_pin b' = pin ∧
      p = bool_decide (take 3 (snd <$> take (length (samples pin (w_trace w'))
          - length (samples pin (w_trace w))) (samples pin (w_trace w'))) = [true; true; true]))
    as H.
  { induction k as [|k IH]; intros b w1 I Hp; cbn [polls];
      destruct (isPressed_inv _ b w1 I) as (p & b1 & w2 & E1 & I1 & P1 & HP).
    - exists p, b1, w2. rewrite Hp in *. by split_and!.
    - unfold wbind. rewrite E1. apply IH; [done|congruence]. }
  destruct (H (button_new pin) w) as (p & b' & w' & E1 & (news & Hs & _ & Hd & _) & Hpin & Hp);
    [by exists []|done|].
  exists p, b', w'. split; [exact E1|]. cbv zeta. rewrite Hpin in Hs.
  rewrite Hs, length_app, Nat.add_sub, take_app_length in Hp |- *. subst p.
  by rewrite bool_decide_eq_true.
Qed.
End ButtonProps.

(** * Pir *)
Record Pir := PirSensor {
  pir_pin : Z;
  pir_initialized : bool;
  motionDetected : bool;
  isrCallback : bool       (* a callback is attached *)
}.

Definition pir_new (pin : Z) : Pir := PirSensor pin false false false.

(** [esp32]'s [gpio_int_type_t]. *)
Definition GPIO_INTR_POSEDGE : Z := 1.
Definition GPIO_INTR_NEGEDGE : Z := 2.
Definition GPIO_INTR_ANYEDGE : Z := 3.
Definition kEdgeRising : Z := 1.
Definition kEdgeFalling : Z := 2.

Definition pir_init (p : Pir) : bool * Pir :=
  if negb (isValidInputPin (pir_pin p)) then (false, p)
  else (true, PirSensor (pir_pin p) true false (isrCallback p)).

Definition clearMotion (p : Pir) : Pir :=
  PirSensor (pir_pin p) (pir_initialized p) false (isrCallback p).
Definition signalMotion (p : Pir) : Pir :=
  PirSensor (pir_pin p) (pir_initialized p) true (isrCallback p).
Definition with_isr (v : bool) (p : Pir) : Pir :=
  PirSensor (pir_pin p) (pir_initialized p) (motionDetected p) v.

Section Pir.
Context {E : Env}.

Definition attachInterrupt (mode : Z) (p : Pir) : W (bool * Pir) :=
  if negb (pir_initialized p) then wret (false, p)
  else
    gpio_set_intr_type (pir_pin p)
      (if mode =? kEdgeRising then GPIO_INTR_POSEDGE
       else if mode =? kEdgeFalling then GPIO_INTR_NEGEDGE else GPIO_INTR_ANYEDGE) ;;;
    ok <- gpio_isr_handler_add (pir_pin p) ;;
    if negb ok then wret (false, with_isr false p)
    else gpio_intr_enable (pir_pin p) ;;; wret (true, with_isr true p).

Definition detachInterrupt (p : Pir) : W Pir :=
  if negb (pir_initialized p) then wret p
  else
    gpio_intr_disable (pir_pin p) ;;;
    gpio_isr_handler_remove (pir_pin p) ;;;
    wret (with_isr false p).
End Pir.

(** * Witnesses *)
Definition demo_led : Led := LedState 26 true false 0 false 0 0 0.

Lemma led_pulse_pattern_witness :
  0 < 3 <= 255 ∧
  ∃ l' w', (l1 <- pulse (E := ref_env) false 3 200 100 demo_led ;;
            updates [100; 250; 360; 600; 700; 1000] l1) ref_world = Ok l' w' ∧
    let rises := edges (led_pin demo_led) true (w_trace w') -
                 edges (led_pin demo_led) true (w_trace ref_world) in
    let falls := edges (led_pin demo_led) false (w_trace w') -
                 edges (led_pin demo_led) false (w_trace ref_world) in
    falls <= rises <= 3 ∧
    (isBusy l' = false → rises = 3 ∧ falls = 3 ∧ isOn l' = false).
Proof.
  split; [lia|].
  apply (@led_pulse_pattern ref_env false 3 200 100 demo_led ref_world
           [100; 250; 360; 600; 700; 1000]); [reflexivity|reflexivity|lia].
Defined.

Definition demo_armed : Led := LedState 26 true true 2 true 201 200 100.
Definition demo_armed_world : world :=
  World [EvTimer 1000; EvLevel 26 true] (w_eeprom ref_world) (w_err ref_world).

Lemma led_pulse_finishes_witness :
  pulse (E := ref_env) false 2 200 100 demo_led ref_world = Ok demo_armed demo_armed_world ∧
  ∃ l' w', updates [201; 450; 700] demo_armed demo_armed_world = Ok l' w' ∧ isBusy l' = false.
Proof.
  split; [vm_compute; reflexivity|].
  eapply (@led_pulse_finishes ref_env false 2 200 100 demo_led ref_world);
    [reflexivity|reflexivity|lia|lia|lia|vm_compute; reflexivity|cbn; lia| |cbn; lia].
  repeat constructor; cbn; lia.
Defined.
