(* ===== verification/SevenSeg.v ===== *)
(** The TM1637 display driver (hardware/output/SevenSegDisplay): digit layout,
    the two-wire bus protocol and its acknowledge wait.  The driver's pin
    activity is checked against a receiver of that bus.

    Busy-wait delays of a few microseconds and the pull-up selection leave no
    event. *)
From S2P Require Import Prelude Config Wire Platform ErrorCore Hardware.

(** 0b0GFEDCBA, bit 7 is the decimal point. *)
Definition FONT : list Z :=
  [0x3F; 0x06; 0x5B; 0x4F; 0x66; 0x6D; 0x7D; 0x07; 0x7F; 0x6F; 0x77; 0x7C; 0x39; 0x5E; 0x79; 0x71].

Record SevenSegDisplay := SevenSeg {
  dioPin : Z;
  clkPin : Z;
  brightness : Z
}.

Definition sevenseg_new (dio clk : Z) : SevenSegDisplay := SevenSeg dio clk 7.
Definition setBrightness (level : Z) (d : SevenSegDisplay) : SevenSegDisplay :=
  SevenSeg (dioPin d) (clkPin d) (Z.land level 0x07).

Definition encodeDigit (d : Z) : Z :=
  if (0 <=? d) && (d <? 16) then default 0 (FONT !! Z.to_nat d)
  else if d =? -1 then 0x40 else 0x00.

(** The digits of [showInternal], most significant first. *)
Definition digits4 (v : Z) : list Z := [v / 1000 mod 10; v / 100 mod 10; v / 10 mod 10; v mod 10].

(** The minus sign replaces the first non-zero digit, or the last one. *)
Fixpoint place_minus (digits : list Z) : list Z :=
  match digits with
  | [] => []
  | [_] => [-1]
  | d :: digits' => if negb (d =? 0) then -1 :: digits' else d :: place_minus digits'
  end.

Definition segments (value : Z) (leadingZeros withDP : bool) : list Z :=
  let negative := value <? 0 in
  let v0 := if negative then - value else value in
  let v := if 9999 <? v0 then 9999 else v0 in
  let digits := if negative then place_minus (digits4 v) else digits4 v in
  let segs := imap (λ i d, if negb leadingZeros && (i <? 3)%nat && (d =? 0) && negb negative
                           then 0x00 else encodeDigit d) digits in
  if withDP then alter (λ s, Z.lor s 0x80) 3%nat segs else segs.

Section Bus.
Context {E : Env}.

Definition clk (d : SevenSegDisplay) (v : bool) : W unit := gpio_set_level (clkPin d) v.
Definition dio (d : SevenSegDisplay) (v : bool) : W unit := gpio_set_level (dioPin d) v.

Definition bus_start (d : SevenSegDisplay) : W unit :=
  dio d true ;;; clk d true ;;; dio d false ;;; clk d false.
Definition bus_stop (d : SevenSegDisplay) : W unit :=
  clk d false ;;; dio d false ;;; clk d true ;;; dio d true.

(** The eight data bits, least significant first. *)
Definition writeBits (d : SevenSegDisplay) (b : Z) : W unit :=
  wfor (λ i, clk d false ;;; dio d (Z.odd (Z.shiftr b (Z.of_nat i))) ;;; clk d true) (seq 0 8).

(** The wait for the acknowledge: at most 20 ms by the clock, polling DIO.
    [fuel] bounds the polls; a clock that stands still for that many reads is a
    device that hangs here. *)
Fixpoint wait_ack (fuel : nat) (d : SevenSegDisplay) (start : Z) : W bool :=
  match fuel with
  | O => emit EvHang ;;; whalt
  | S fuel' =>
      now <- now_ms ;;
      if now -64 start <? 20 then
        level <- gpio_get_level (dioPin d) ;;
        if negb level then wret true else wait_ack fuel' d start
      else wret false
  end.

(** A clock read takes a microsecond, so 20 ms are over within these polls. *)
Definition ACK_POLLS : nat := Z.to_nat 21001.

Lemma ACK_POLLS_value : Z.of_nat ACK_POLLS = 21001.
Proof. unfold ACK_POLLS. by rewrite Z2Nat.id. Qed.
#[local] Opaque ACK_POLLS.

Definition writeByte (b : Z) (d : SevenSegDisplay) : W bool :=
  writeBits d b ;;;
  clk d false ;;;
  gpio_set_direction (dioPin d) false ;;;
  clk d true ;;;
  start <- now_ms ;;
  ack <- wait_ack ACK_POLLS d start ;;
  gpio_set_direction (dioPin d) true ;;;
  clk d false ;;;
  (if negb ack then fail E_HARDWARE M_HW 2 else wret true) ;;;
  wret ack.

Definition setSegments (segs : list Z) (d : SevenSegDisplay) : W unit :=
  bus_start d ;;; writeByte 0x40 d ;;; bus_stop d ;;;
  bus_start d ;;; writeByte 0xC0 d ;;;
  wfor (λ s, writeByte s d ;;; wret tt) segs ;;;
  bus_stop d ;;;
  bus_start d ;;; writeByte (Z.lor 0x88 (brightness d)) d ;;; bus_stop d.

Definition display_clear (d : SevenSegDisplay) : W unit := setSegments [0; 0; 0; 0] d.

Definition sevenseg_init (d : SevenSegDisplay) : W bool :=
  if negb (isValidOutputPin (dioPin d)) || negb (isValidOutputPin (clkPin d)) then
    fail E_CONFIG M_HW 1
  else
    clk d true ;;; dio d true ;;;
    setSegments [0x7F; 0x7F; 0x7F; 0x7F] d ;;;
    vTaskDelay 500 ;;;
    display_clear d ;;;
    wret true.

Definition showInternal (value : Z) (leadingZeros withDP : bool) (d : SevenSegDisplay) : W unit :=
  setSegments (segments value leadingZeros withDP) d.
Definition show (value : Z) (leadingZeros : bool) (d : SevenSegDisplay) : W unit :=
  showInternal value leadingZeros false d.
Definition showWithDP (value : Z) (leadingZeros : bool) (d : SevenSegDisplay) : W unit :=
  showInternal value leadingZeros true d.
End Bus.

(** * What is shown *)
(** The reading of a segment pattern: digit and decimal point. *)
Definition reads (s : Z) : option (option Z * bool) :=
  let dp := Z.testbit s 7 in
  let g := Z.land s 0x7F in
  if g =? 0 then Some (None, dp)
  else match list_find (λ f, f = g) FONT with
       | Some (i, _) => Some (Some (Z.of_nat i), dp)
       | None => None
       end.

(** The number a display reads, blanks counting as zeros. *)
Definition reading (segs : list Z) : option Z :=
  foldl (λ acc s, a ← acc; r ← reads s; Some (10 * a + default 0 r.1)) (Some 0) segs.

(** A digit's pattern reads back as the digit, with or without the point. *)
Lemma digit_pattern x :
  0 <= x < 10 →
  is_byte (encodeDigit x) ∧ encodeDigit x ≠ 0 ∧ Z.testbit (encodeDigit x) 7 = false ∧
  reads (encodeDigit x) = Some (Some x, false) ∧
  is_byte (Z.lor (encodeDigit x) 0x80) ∧ Z.testbit (Z.lor (encodeDigit x) 0x80) 7 = true ∧
  reads (Z.lor (encodeDigit x) 0x80) = Some (Some x, true).
Proof.
  intros Hx.
  assert (x = 0 ∨ x = 1 ∨ x = 2 ∨ x = 3 ∨ x = 4 ∨ x = 5 ∨ x = 6 ∨ x = 7 ∨ x = 8 ∨ x = 9) as H by lia.
  clear Hx. unfold is_byte.
  destruct_or? H; subst x; split_and!; first [reflexivity | vm_compute; congruence].
Qed.

Definition shown_digit (lz : bool) (x : Z) : Z :=
  if negb lz && (x =? 0) then 0x00 else encodeDigit x.

Lemma shown_digit_ok lz x :
  0 <= x < 10 →
  is_byte (shown_digit lz x) ∧ (shown_digit lz x =? 0) = negb lz && (x =? 0) ∧
  Z.testbit (shown_digit lz x) 7 = false ∧
  ∃ o, reads (shown_digit lz x) = Some (o, false) ∧ default 0 o = x.
Proof.
  intros Hx. unfold shown_digit. destruct (digit_pattern x Hx) as (H1 & H2 & H3 & H4 & _).
  destruct (negb lz && (x =? 0)) eqn:Hb.
  - apply andb_true_iff in Hb as [_ ->%Z.eqb_eq]. split; [unfold is_byte; lia|].
    split; [done|]. split; [done|]. by exists None.
  - split; [done|]. split; [by apply Z.eqb_neq|]. split; [done|]. by exists (Some x).
Qed.

Lemma segments_digits v lz dp :
  0 <= v <= 9999 →
  let last := encodeDigit (v mod 10) in
  segments v lz dp =
    [shown_digit lz (v / 1000 mod 10); shown_digit lz (v / 100 mod 10);
     shown_digit lz (v / 10 mod 10); if dp then Z.lor last 0x80 else last].
Proof.
  intros Hv. unfold segments. destruct (Z.ltb_spec v 0); [lia|].
  destruct (Z.ltb_spec 9999 v); [lia|]. unfold digits4, shown_digit.
  cbn [imap Nat.ltb Nat.leb]. cbn. rewrite ?andb_true_r, ?andb_false_r.
  by destruct dp.
Qed.

(** Every number from 0 to 9999 is shown so that it reads back as itself (a blank
    counting as zero), larger ones as 9999; the decimal point is lit on the last
    digit alone, exactly on request; and without leading zeros the blank positions
    are the zero digits before the last one. *)
Theorem segments_read v lz dp :
  0 <= v →
  let n := Z.min v 9999 in
  ∃ a b c e, segments v lz dp = [a; b; c; e] ∧ Forall is_byte [a; b; c; e] ∧
    reading [a; b; c; e] = Some n ∧
    (Z.testbit a 7, Z.testbit b 7, Z.testbit c 7, Z.testbit e 7) = (false, false, false, dp) ∧
    ((a =? 0, b =? 0, c =? 0) =
     (negb lz && (n / 1000 =? 0), negb lz && (n / 100 mod 10 =? 0), negb lz && (n / 10 mod 10 =? 0))).
Proof.
  intros Hv. cbv zeta.
  assert (segments v lz dp = segments (Z.min v 9999) lz dp) as ->.
  { destruct (Z.le_ge_cases v 9999); [by rewrite Z.min_l by lia|]. rewrite Z.min_r by lia.
    unfold segments. destruct (Z.ltb_spec v 0); [lia|].
    destruct (Z.ltb_spec 9999 v); [done|]. by replace v with 9999 by lia. }
  set (n := Z.min v 9999). assert (0 <= n <= 9999) as Hn by lia. clearbody n.
  rewrite segments_digits by done. cbv zeta.
  assert (∀ x, 0 <= x mod 10 < 10) as Hm by (intros; apply Z.mod_pos_bound; lia).
  destruct (shown_digit_ok lz _ (Hm (n / 1000))) as (B1 & Z1 & T1 & o1 & R1 & D1).
  destruct (shown_digit_ok lz _ (Hm (n / 100))) as (B2 & Z2 & T2 & o2 & R2 & D2).
  destruct (shown_digit_ok lz _ (Hm (n / 10))) as (B3 & Z3 & T3 & o3 & R3 & D3).
  destruct (digit_pattern _ (Hm n)) as (B4 & _ & T4 & R4 & B5 & T5 & R5).
  eexists _, _, _, _. split; [done|]. rewrite Z1, Z2, Z3, T1, T2, T3.
  split; [do 3 (apply Forall_cons_2; [done|]); apply Forall_cons_2; [by destruct dp|done]|].
  split; [|split; [by destruct dp; rewrite ?T4, ?T5|]].
  - unfold reading. cbn [foldl]. rewrite R1. cbn. rewrite R2. cbn. rewrite R3. cbn.
    rewrite D1, D2, D3. destruct dp; rewrite ?R4, ?R5; cbn -[Z.mul Z.add Z.modulo Z.div];
      f_equal; Z.div_mod_to_equations; lia.
  - assert (n / 1000 mod 10 = n / 1000) as -> by (Z.div_mod_to_equations; lia). done.
Qed.

(** A zero inside a number is blanked like a leading one: node 105 shows as
    [1], blank, [5]. *)
Lemma interior_zero_blanked : segments 105 false false = [0x00; 0x06; 0x00; 0x6D].
Proof. reflexivity. Qed.

(** A negative number is not shown as documented: the minus sign takes the place
    of the leading digit. *)
Lemma minus_hides_digit :
  segments (-5) true false = segments (-7) true false ∧
  segments (-42) true false = segments (-92) true false.
Proof. split; reflexivity. Qed.

(** * The bus *)
Inductive symbol := SStart | SByte (b : Z) | SStop.

(** A receiver: line levels, and the bits of the byte being received (newest
    first) while a transfer is open. *)
Record bus := Bus {
  bus_clk : bool;
  bus_dio : bool;
  bus_bits : option (list bool)
}.

Fixpoint byte_of (bits : list bool) : Z :=
  match bits with
  | [] => 0
  | b :: bits' => (if b then 2 ^ Z.of_nat (length bits') else 0) + byte_of bits'
  end.

(** Bits are taken at rising clock edges, the ninth edge is the acknowledge; DIO
    moving while the clock is high opens or closes a transfer. *)
Definition clk_edge (v : bool) (s : bus * list symbol) : bus * list symbol :=
  let (b, out) := s in
  if negb (bus_clk b) && v then
    match bus_bits b with
    | Some bits =>
        if (length bits <? 8)%nat
        then (Bus v (bus_dio b) (Some (bus_dio b :: bits)), out)
        else (Bus v (bus_dio b) (Some []), SByte (byte_of bits) :: out)
    | None => (Bus v (bus_dio b) None, out)
    end
  else (Bus v (bus_dio b) (bus_bits b), out).

Definition dio_edge (v : bool) (s : bus * list symbol) : bus * list symbol :=
  let (b, out) := s in
  if bus_clk b && negb (eqb (bus_dio b) v) then
    if v then (Bus (bus_clk b) v None, SStop :: out)
    else (Bus (bus_clk b) v (Some []), SStart :: out)
  else (Bus (bus_clk b) v (bus_bits b), out).

(** What the receiver has seen in a trace, symbols newest first. *)
Fixpoint bus_of (d : SevenSegDisplay) (tr : trace) : bus * list symbol :=
  match tr with
  | [] => (Bus false false None, [])
  | EvLevel p v :: tr' =>
      if p =? clkPin d then clk_edge v (bus_of d tr')
      else if p =? dioPin d then dio_edge v (bus_of d tr')
      else bus_of d tr'
  | _ :: tr' => bus_of d tr'
  end.

Definition bus_idle : bus := Bus true true None.

Section BusProps.
Context {E : Env} (d : SevenSegDisplay) (Hpins : dioPin d ≠ clkPin d).

Lemma bus_of_clk v tr : bus_of d (EvLevel (clkPin d) v :: tr) = clk_edge v (bus_of d tr).
Proof. cbn [bus_of]. by rewrite Z.eqb_refl. Qed.

Lemma bus_of_dio v tr : bus_of d (EvLevel (dioPin d) v :: tr) = dio_edge v (bus_of d tr).
Proof using Hpins. cbn [bus_of]. by rewrite (proj2 (Z.eqb_neq _ _) Hpins), Z.eqb_refl. Qed.

Lemma byte_of_bits b :
  0 <= b < 256 →
  byte_of ((λ i, Z.odd (Z.shiftr b (Z.of_nat i))) <$> reverse (seq 0 8)) = b.
Proof.
  intros Hb.
  assert (forallb (λ b, byte_of ((λ i, Z.odd (Z.shiftr b (Z.of_nat i))) <$> reverse (seq 0 8)) =? b)
            (seqZ 0 256) = true) as H by (vm_compute; reflexivity).
  rewrite forallb_forall in H. apply Z.eqb_eq, H.
  apply list_elem_of_In, elem_of_seqZ. lia.
Qed.

(** A call that only moves the bus, from one receiver state to another. *)
Definition drives {A} (c : W A) (s : bus * list symbol → bus * list symbol → Prop) (Q : A → Prop) : Prop :=
  ∀ w, ∃ a w', c w = Ok a w' ∧ Q a ∧ s (bus_of d (w_trace w)) (bus_of d (w_trace w')).

Definition idle_to_open (s s' : bus * list symbol) : Prop :=
  ∀ out, s = (bus_idle, out) → s' = (Bus false false (Some []), SStart :: out).
Definition sends (b : Z) (s s' : bus * list symbol) : Prop :=
  ∀ v out, s = (Bus false v (Some []), out) →
           ∃ v', s' = (Bus false v' (Some []), SByte b :: out).
Definition open_to_idle (s s' : bus * list symbol) : Prop :=
  ∀ v out, s = (Bus false v (Some []), out) → s' = (bus_idle, SStop :: out).

Lemma bus_start_drives : drives (bus_start d) idle_to_open (λ _, True).
Proof using Hpins.
  intros w. eexists _, _. split; [done|]. split; [done|]. intros out Hw.
  cbn [w_trace]. by rewrite bus_of_clk, bus_of_dio, bus_of_clk, bus_of_dio, Hw.
Qed.

Lemma bus_stop_drives : drives (bus_stop d) open_to_idle (λ _, True).
Proof using Hpins.
  intros w. eexists _, _. split; [done|]. split; [done|]. intros v out Hw.
  cbn [w_trace]. rewrite bus_of_dio, bus_of_clk, bus_of_dio, bus_of_clk, Hw. by destruct v.
Qed.

(** One data bit: the receiver shifts it in at the rising edge. *)
Lemma bit_run b i w :
  ∃ w', (clk d false ;;; dio d (Z.odd (Z.shiftr b (Z.of_nat i))) ;;; clk d true) w = Ok tt w' ∧
    ∀ c v bits out, bus_of d (w_trace w) = (Bus c v (Some bits), out) → (length bits < 8)%nat →
      let bit := Z.odd (Z.shiftr b (Z.of_nat i)) in
      bus_of d (w_trace w') = (Bus true bit (Some (bit :: bits)), out).
Proof using Hpins.
  generalize (Z.odd (Z.shiftr b (Z.of_nat i))) as bit. intros bit.
  eexists. split; [reflexivity|]. intros c v bits out Hw Hlt. cbn [w_trace].
  rewrite bus_of_clk, bus_of_dio, bus_of_clk, Hw.
  destruct (Nat.ltb_spec (length bits) 8) as [_|]; [|lia].
  destruct c; cbn [clk_edge dio_edge bus_clk bus_dio bus_bits negb andb];
    by rewrite (proj2 (Nat.ltb_lt _ _) Hlt).
Qed.

Lemma bits_run b js w :
  ∃ w', wfor (λ i, clk d false ;;; dio d (Z.odd (Z.shiftr b (Z.of_nat i))) ;;; clk d true) js w
        = Ok tt w' ∧
    ∀ c v bits out, bus_of d (w_trace w) = (Bus c v (Some bits), out) →
      (length bits + length js <= 8)%nat → js ≠ [] →
      ∃ v', bus_of d (w_trace w') =
        (Bus true v' (Some (((λ i, Z.odd (Z.shiftr b (Z.of_nat i))) <$> reverse js) ++ bits)), out).
Proof using Hpins.
  revert w. induction js as [|i js IH]; intros w; [by exists w|].
  destruct (bit_run b i w) as (w1 & E1 & H1). destruct (IH w1) as (w2 & E2 & H2).
  exists w2. split; [unfold wfor; cbn [wfold]; unfold wbind in E1 |- *; by rewrite E1|].
  intros c v bits out Hw Hlen _. cbn [length] in Hlen. specialize (H1 _ _ _ _ Hw ltac:(lia)).
  cbv zeta in H1. rewrite reverse_cons, fmap_app, <- app_assoc. cbn [fmap list_fmap app].
  destruct js as [|i' js].
  - cbn in E2. injection E2 as <-. cbn [reverse]. rewrite H1. by eexists.
  - apply (H2 _ _ _ _ H1); [cbn [length] in *; lia|done].
Qed.

(** A display that answers at the first poll. *)
Definition answers : Prop := ∀ tr, env_gpio_level tr (dioPin d) = false.

Lemma wait_ack_answered fuel start w :
  answers → fuel ≠ O → u64 (env_timer (w_trace w)) / 1000 -64 start < 20 →
  ∃ w', wait_ack fuel d start w = Ok true w' ∧ bus_of d (w_trace w') = bus_of d (w_trace w).
Proof using Hpins.
  intros Ha Hf Ht. destruct fuel as [|fuel]; [done|]. cbn [wait_ack].
  unfold now_ms, esp_timer_get_time, gpio_get_level, wbind, ask, emit, wret. cbn [w_trace w_eeprom w_err].
  destruct (Z.ltb_spec (u64 (env_timer (w_trace w)) / 1000 -64 start) 20); [|lia].
  cbn [w_trace w_eeprom w_err]. rewrite Ha. cbn [negb]. by eexists.
Qed.

(** The first poll comes within 20 ms of the start of the wait. *)
Definition prompt : Prop :=
  ∀ tr, u64 (env_timer (EvTimer (env_timer tr) :: tr)) / 1000 -64 (u64 (env_timer tr) / 1000) < 20.

Lemma writeByte_drives b :
  answers → prompt → 0 <= b < 256 → drives (writeByte b d) (sends b) (λ ok, ok = true).
Proof using Hpins.
  intros Ha Hp Hb w. unfold writeByte, writeBits.
  destruct (bits_run b (seq 0 8) w) as (w1 & E1 & H1).
  unfold wbind at 1. rewrite E1.
  unfold wbind, clk, gpio_set_direction, gpio_set_level, emit. cbn [w_trace w_eeprom w_err].
  unfold now_ms at 1, esp_timer_get_time at 1, wbind at 1 2 3, ask at 1, emit at 1, wret at 1 2.
  cbn [w_trace w_eeprom w_err].
  match goal with |- context [wait_ack ACK_POLLS d ?s ?w2] =>
    destruct (wait_ack_answered ACK_POLLS s w2 Ha) as (w3 & E3 & H3) end;
    [pose proof ACK_POLLS_value; lia|apply Hp|].
  rewrite E3. cbn [negb]. unfold wret. eexists _, _. split; [done|]. split; [done|].
  intros v out Hw. cbn [w_trace].
  destruct (H1 _ _ _ _ Hw) as [v' Hb1]; [done|done|]. rewrite app_nil_r in Hb1.
  rewrite bus_of_clk. cbn [bus_of]. rewrite H3. cbn [w_trace].
  cbn [bus_of]. rewrite !Z.eqb_refl, Hb1. exists v'.
  cbn [clk_edge bus_clk bus_dio bus_bits negb andb].
  pose proof (byte_of_bits b Hb) as Hval. set (bits := _ <$> reverse _) in *.
  assert (length bits = 8%nat) as Hlen by done. clearbody bits.
  rewrite Hlen. cbn [Nat.ltb Nat.leb clk_edge bus_clk bus_dio bus_bits negb andb].
  by rewrite Hval.
Qed.

Lemma writeBytes_drive bs w :
  answers → prompt → Forall is_byte bs →
  ∃ w', wfor (λ s, writeByte s d ;;; wret tt) bs w = Ok tt w' ∧
    ∀ v out, bus_of d (w_trace w) = (Bus false v (Some []), out) →
      ∃ v', bus_of d (w_trace w') = (Bus false v' (Some []), reverse (SByte <$> bs) ++ out).
Proof using Hpins.
  intros Ha Hp HB. unfold wfor. revert w. induction HB as [|b bs Hb HB IH]; intros w.
  { exists w. split; [done|]. intros v out Hw. by exists v. }
  destruct (writeByte_drives b Ha Hp Hb w) as (ok & w1 & E1 & _ & S1).
  destruct (IH w1) as (w2 & E2 & S2). exists w2. split.
  { cbn [wfold]. unfold wbind at 1 2. rewrite E1. exact E2. }
  intros v out Hw. destruct (S1 v out Hw) as [v1 S1']. destruct (S2 _ _ S1') as [v2 S2'].
  exists v2. rewrite S2'. cbn [fmap list_fmap]. by rewrite reverse_cons, <- app_assoc.
Qed.

Lemma drives_seq {A B} (c : W A) (k : W B) s1 s2 Q1 Q2 :
  drives c s1 Q1 → drives k s2 Q2 → drives (c ;;; k) (λ s s', ∃ s0, s1 s s0 ∧ s2 s0 s') Q2.
Proof.
  intros H1 H2 w. destruct (H1 w) as (a & w1 & E1 & _ & S1). destruct (H2 w1) as (b & w2 & E2 & Q & S2).
  exists b, w2. unfold wbind. rewrite E1. split; [done|]. split; [done|]. by eexists.
Qed.

(** One transfer: start, the bytes, stop. *)
Definition transfer (bs : list Z) : list symbol := SStart :: (SByte <$> bs) ++ [SStop].

Definition transfers (bs : list Z) (s s' : bus * list symbol) : Prop :=
  ∀ out, s = (bus_idle, out) → s' = (bus_idle, reverse (transfer bs) ++ out).

Lemma transfer_drives (bs : list Z) (c : W unit) :
  (∀ w, ∃ w', c w = Ok tt w' ∧
     ∀ v out, bus_of d (w_trace w) = (Bus false v (Some []), out) →
       ∃ v', bus_of d (w_trace w') = (Bus false v' (Some []), reverse (SByte <$> bs) ++ out)) →
  ∀ w, ∃ w', (bus_start d ;;; c ;;; bus_stop d) w = Ok tt w' ∧
             transfers bs (bus_of d (w_trace w)) (bus_of d (w_trace w')).
Proof using Hpins.
  intros Hc w. destruct (bus_start_drives w) as ([] & w1 & E1 & _ & S1).
  destruct (Hc w1) as (w2 & E2 & S2). destruct (bus_stop_drives w2) as ([] & w3 & E3 & _ & S3).
  exists w3. unfold wbind. rewrite E1, E2. split; [exact E3|].
  intros out Hw. destruct (S2 _ _ (S1 _ Hw)) as [v' S2']. rewrite (S3 _ _ S2').
  unfold transfer. rewrite reverse_cons, reverse_app. cbn [reverse rev_append app].
  by rewrite <- app_assoc.
Qed.

Lemma wbind_assoc {A B C} (c : W A) (k : A → W B) (h : B → W C) w :
  wbind (wbind c k) h w = wbind c (λ a, wbind (k a) h) w.
Proof. unfold wbind. by destruct (c w). Qed.

Lemma byte_transfer b w :
  answers → prompt → is_byte b →
  ∃ w', (bus_start d ;;; writeByte b d ;;; bus_stop d) w = Ok tt w' ∧
        transfers [b] (bus_of d (w_trace w)) (bus_of d (w_trace w')).
Proof using Hpins.
  intros Ha Hp Hb.
  destruct (transfer_drives [b] (writeByte b d ;;; wret tt)) with (w := w) as (w' & E' & S').
  - intros w1. destruct (writeByte_drives b Ha Hp Hb w1) as (ok & w2 & E2 & _ & S2).
    exists w2. unfold wbind. rewrite E2. by split; [|exact S2].
  - exists w'. split; [|exact S']. rewrite <- E'. unfold wbind.
    destruct (bus_start d w) as [u w1|w1]; [|done]. by destruct (writeByte b d w1).
Qed.
End BusProps.

(** Regrouping of a sequence of calls. *)
Lemma regroup3 {A B C D} (a : W A) (b : W B) (c : W C) (r : W D) w :
  (a ;;; b ;;; c ;;; r) w = ((a ;;; b ;;; c) ;;; r) w.
Proof. unfold wbind. destruct (a w) as [? w1|]; [|done]. by destruct (b w1). Qed.

Lemma regroup4 {A B F C D} (a : W A) (b : W B) (f : W F) (c : W C) (r : W D) w :
  (a ;;; b ;;; f ;;; c ;;; r) w = ((a ;;; (b ;;; f) ;;; c) ;;; r) w.
Proof.
  unfold wbind. destruct (a w) as [? w1|]; [|done]. destruct (b w1) as [? w2|]; [|done].
  by destruct (f w2).
Qed.

Section Display.
Context {E : Env}.


(** ** The acknowledge wait ends *)
Context {L : ClockLawful E} {T : ClockTicks E}.

(** The clock has not run for 2^63 microseconds, now or within the next [n] events. *)
Definition clock_room (n : nat) (w : world) : Prop :=
  ∀ evs, (length evs <= n)%nat → env_timer (evs ++ w_trace w) < 2 ^ 63.

Lemma clock_room_after n m e w w' :
  clock_room n w → w_trace w' = e ++ w_trace w → (length e + m <= n)%nat → clock_room m w'.
Proof.
  intros HC HT Hn evs Hl. rewrite HT, app_assoc. apply HC. rewrite length_app. lia.
Qed.

Lemma timer_ms us : 0 <= us < 2 ^ 63 → u64 us / 1000 = us / 1000.
Proof. intros. unfold u64. by rewrite Z.mod_small by lia. Qed.

Lemma elapsed_ms us us0 : 0 <= us0 <= us → us < 2 ^ 63 → us / 1000 -64 us0 / 1000 = us / 1000 - us0 / 1000.
Proof.
  intros H0 H1. assert (us0 / 1000 <= us / 1000) by (apply Z.div_le_mono; lia).
  assert (us / 1000 <= us) by (apply Z.div_le_upper_bound; lia).
  assert (0 <= us0 / 1000) by (apply Z.div_pos; lia).
  unfold u64. apply Z.mod_small. lia.
Qed.

Lemma wait_ack_ends fuel d us0 w :
  0 <= us0 <= env_timer (w_trace w) → (0 < fuel)%nat →
  21001 - (env_timer (w_trace w) - us0) <= Z.of_nat fuel → clock_room (2 * fuel) w →
  ∃ ack w', wait_ack fuel d (us0 / 1000) w = Ok ack w' ∧ w_err w' = w_err w ∧
            appended (λ e, match e with EvTimer _ => True | EvSample _ l => l = negb ack ∨ l = true
                           | _ => False end) w w'.
Proof using L T.
  revert w. induction fuel as [|fuel IH]; intros w [H0 Ht] Hf Hd HC; [lia|].
  pose proof (HC [] ltac:(cbn; lia)) as Hw. cbn [app] in Hw.
  cbn [wait_ack]. unfold now_ms, esp_timer_get_time, gpio_get_level, wbind, ask, emit, wret.
  cbn [w_trace w_eeprom w_err]. set (us := env_timer (w_trace w)) in *.
  rewrite timer_ms, elapsed_ms by lia.
  destruct (Z.ltb_spec (us / 1000 - us0 / 1000) 20) as [Hlt|Hge].
  2: { eexists false, _. split; [done|]. split; [done|]. exists [EvTimer us].
       split; [done|]. by repeat constructor. }
  cbn [w_trace w_eeprom w_err]. set (lv := env_gpio_level _ _).
  destruct lv eqn:Elv; cbn [negb].
  2: { eexists true, _. split; [done|]. split; [done|]. exists [EvSample (dioPin d) false; EvTimer us].
       split; [done|]. repeat constructor. }
  set (w1 := World _ _ _).
  assert (us < env_timer (w_trace w1)) as Hadv.
  { unfold w1. cbn [w_trace]. pose proof (timer_tick us (w_trace w)) as Ht1.
    pose proof (timer_monotone [EvSample (dioPin d) true] (EvTimer us :: w_trace w)) as Ht2.
    cbn [app] in Ht2. fold us in Ht1. lia. }
  assert (us < us0 + 21000) by (Z.div_mod_to_equations; lia).
  destruct (IH w1) as (ack & w2 & E2 & Herr & Happ); [lia|lia|lia| |].
  { eapply (clock_room_after _ _ [EvSample (dioPin d) true; EvTimer us]); [exact HC|done|cbn; lia]. }
  exists ack, w2. split; [exact E2|]. split; [exact Herr|].
  eapply appended_trans; [|exact Happ].
  exists [EvSample (dioPin d) true; EvTimer us]. split; [done|].
  apply Forall_cons_2; [by right|]. by repeat constructor.
Qed.

Lemma bits_quiet d b js w :
  ∃ w', wfor (λ i, clk d false ;;; dio d (Z.odd (Z.shiftr b (Z.of_nat i))) ;;; clk d true) js w
        = Ok tt w' ∧ w_err w' = w_err w ∧ w_eeprom w' = w_eeprom w ∧
    ∃ evs, w_trace w' = evs ++ w_trace w ∧ length evs = (3 * length js)%nat.
Proof.
  revert w. induction js as [|i js IH]; intros w; [by exists w; split_and!; try done; exists []|].
  unfold wfor. cbn [wfold]. unfold wbind at 1 2 3.
  unfold clk at 1 2, dio at 1, gpio_set_level, emit. cbn [w_trace w_eeprom w_err].
  match goal with |- context [wfold _ js tt ?x] => destruct (IH x) as (w' & E' & H1 & H2 & evs & H3 & H4) end.
  unfold wfor in E'. exists w'. split; [exact E'|]. split; [done|]. split; [done|].
  cbn [w_trace] in H3.
  exists (evs ++ [EvLevel (clkPin d) true; EvLevel (dioPin d) (Z.odd (Z.shiftr b (Z.of_nat i)));
                  EvLevel (clkPin d) false]).
  split; [by rewrite H3, <- app_assoc|]. rewrite length_app, H4. cbn [length]. lia.
Qed.

(** [writeByte] up to the wait, and what follows it. *)
Definition after_wait (d : SevenSegDisplay) (ack : bool) : W bool :=
  gpio_set_direction (dioPin d) true ;;; clk d false ;;;
  (if negb ack then fail E_HARDWARE M_HW 2 else wret true) ;;;
  wret ack.

Lemma writeByte_prefix b d w :
  ∃ us w2 evs,
    writeByte b d w = wbind (wait_ack ACK_POLLS d (u64 us / 1000)) (after_wait d) w2 ∧
    w_trace w2 = EvTimer us :: evs ++ w_trace w ∧ us = env_timer (evs ++ w_trace w) ∧
    length evs = 27%nat ∧ w_err w2 = w_err w.
Proof using.
  destruct (bits_quiet d b (seq 0 8) w) as (w1 & E1 & Herr & _ & evs & H1 & Hl).
  set (pre := [EvLevel (clkPin d) true; EvDirection (dioPin d) false; EvLevel (clkPin d) false]).
  set (us := env_timer (pre ++ w_trace w1)).
  exists us, (World (EvTimer us :: pre ++ w_trace w1) (w_eeprom w1) (w_err w1)), (pre ++ evs).
  split.
  { unfold writeByte, writeBits. unfold wbind at 1. rewrite E1. reflexivity. }
  cbn [w_trace w_err]. rewrite <- app_assoc, <- H1.
  split_and!; try done. by rewrite length_app, Hl.
Qed.

Lemma after_wait_run d ack w :
  (ack = true ∧ ∃ w', after_wait d ack w = Ok true w') ∨
  (ack = false ∧ ∃ w' tr, after_wait d ack w = Halt w' ∧ w_trace w' = EvRestart :: tr ∧
     (display (w_err w) = true → EvShow 552 ∈ tr)).
Proof using.
  destruct ack; [left; split; [done|]; by eexists|right; split; [done|]].
  unfold after_wait, gpio_set_direction, clk, gpio_set_level, emit, wbind. cbn [negb w_trace w_eeprom w_err].
  match goal with |- context [fail _ _ _ ?x] => set (w4 := x) end.
  destruct (fail_halt_restart E_HARDWARE M_HW 2 w4) as (w5 & tr & -> & Htr & Hs); [done|].
  exists w5, tr. by split_and!.
Qed.

Lemma writeByte_waits b d w :
  clock_room (2 * ACK_POLLS + 30) w →
  ∃ start ack w2 w3, writeByte b d w = after_wait d ack w3 ∧ w_err w3 = w_err w ∧
    wait_ack ACK_POLLS d start w2 = Ok ack w3.
Proof using L T.
  intros HC. destruct (writeByte_prefix b d w) as (us & w2 & evs & -> & H2 & Hus & Hl & Herr).
  pose proof (HC evs ltac:(lia)) as Hr. rewrite <- Hus in Hr.
  pose proof (timer_nonneg (evs ++ w_trace w)) as H0. rewrite <- Hus in H0.
  pose proof (timer_tick us (evs ++ w_trace w)) as Ht. rewrite <- Hus, <- H2 in Ht.
  pose proof ACK_POLLS_value as HA.
  destruct (wait_ack_ends ACK_POLLS d us w2) as (ack & w3 & E3 & Herr3 & _); [lia..| |].
  { eapply (clock_room_after _ _ (EvTimer us :: evs)); [exact HC|done|cbn [length]; lia]. }
  exists (us / 1000), ack, w2, w3. unfold wbind. rewrite timer_ms, E3 by lia.
  split; [done|]. split; [congruence|done].
Qed.

(** Writing a byte never hangs: the wait for the acknowledge is over within 20 ms
    of the clock, and a byte that is not acknowledged restarts the device - so
    [writeByte] returns [true] or does not return. *)
Theorem writeByte_ends b d w :
  clock_room (2 * ACK_POLLS + 30) w →
  (∃ w', writeByte b d w = Ok true w') ∨
  (∃ w' tr, writeByte b d w = Halt w' ∧ w_trace w' = EvRestart :: tr).
Proof using L T.
  intros HC. destruct (writeByte_waits b d w HC) as (start & ack & w2 & w3 & -> & _ & _).
  destruct (after_wait_run d ack w3) as [[_ H]|(_ & w' & tr & Er & Htr & _)]; [by left|].
  right. by exists w', tr.
Qed.

Lemma never_acknowledged fuel d start w ack w' :
  (∀ tr, env_gpio_level tr (dioPin d) = true) → wait_ack fuel d start w = Ok ack w' → ack = false.
Proof using.
  intros Hno. revert w. induction fuel as [|fuel IH]; intros w; [done|].
  cbn [wait_ack]. unfold now_ms, esp_timer_get_time, gpio_get_level, wbind, ask, emit, wret.
  cbn [w_trace w_eeprom w_err]. destruct (_ <? 20); [|by intros [= <-]].
  cbn [w_trace w_eeprom w_err]. rewrite Hno. cbn [negb]. apply IH.
Qed.

(** A display that never acknowledges: the report of the missing acknowledge asks
    for another display write before the restart (the error core shows the code),
    and that write is not acknowledged either. *)
Lemma unacknowledged_shows_again b d w :
  clock_room (2 * ACK_POLLS + 30) w → (∀ tr, env_gpio_level tr (dioPin d) = true) →
  display (w_err w) = true →
  ∃ w' tr, writeByte b d w = Halt w' ∧ w_trace w' = EvRestart :: tr ∧ EvShow 552 ∈ tr.
Proof using L T.
  intros HC Hno Hd. destruct (writeByte_waits b d w HC) as (start & ack & w2 & w3 & -> & Herr & Hw).
  pose proof (never_acknowledged _ _ _ _ _ _ Hno Hw) as ->.
  destruct (after_wait_run d false w3) as [[[=] _]|(_ & w' & tr & Er & Htr & Hs)].
  exists w', tr. split_and!; try done. apply Hs. by rewrite Herr.
Qed.
End Display.

(** * Witnesses *)
(** A display that acknowledges, on a clock that stands still. *)
Definition display_env : Env := {|
  env_timer := λ _, 0;
  env_random := env_random (Env := ref_env);
  env_keygen := env_keygen (Env := ref_env);
  env_peer_exist := env_peer_exist (Env := ref_env);
  env_add_peer := env_add_peer (Env := ref_env);
  env_del_peer := env_del_peer (Env := ref_env);
  env_send := env_send (Env := ref_env);
  env_nvs_open := env_nvs_open (Env := ref_env);
  env_nvs_get := env_nvs_get (Env := ref_env);
  env_nvs_set := env_nvs_set (Env := ref_env);
  env_nvs_erase := env_nvs_erase (Env := ref_env);
  env_nvs_commit := env_nvs_commit (Env := ref_env);
  env_tx_power := env_tx_power (Env := ref_env);
  env_isr_add := env_isr_add (Env := ref_env);
  env_gpio_level := λ _ _, false;
  env_ring_accepts := env_ring_accepts (Env := ref_env)
|}.

Definition demo_display : SevenSegDisplay := sevenseg_new 23 22.
Definition display_world : world :=
  World [EvLevel 23 true; EvLevel 22 true] (w_eeprom ref_world) (w_err ref_world).

Lemma segments_read_witness :
  0 <= 42 ∧ ∃ a b c e, segments 42 false true = [a; b; c; e] ∧ Forall is_byte [a; b; c; e] ∧
    reading [a; b; c; e] = Some 42 ∧
    (Z.testbit a 7, Z.testbit b 7, Z.testbit c 7, Z.testbit e 7) = (false, false, false, true) ∧
    ((a =? 0, b =? 0, c =? 0) = (true, true, false)).
Proof. split; [lia|]. apply (segments_read 42 false true). lia. Defined.


Lemma ref_clock_room n :
  Z.of_nat n < 2 ^ 50 → clock_room (E := ref_env) n ref_world.
Proof.
  intros Hn evs Hl. cbn [env_timer ref_env ref_world w_trace]. rewrite app_nil_r. lia.
Qed.

Lemma writeByte_ends_witness :
  (∃ w', writeByte (E := ref_env) 0x40 demo_display ref_world = Ok true w') ∨
  (∃ w' tr, writeByte (E := ref_env) 0x40 demo_display ref_world = Halt w' ∧
            w_trace w' = EvRestart :: tr).
Proof.
  apply (@writeByte_ends ref_env ref_env_clock ref_env_ticks 0x40 demo_display ref_world).
  apply ref_clock_room. pose proof ACK_POLLS_value. lia.
Defined.
