(* ===== verification/Eeprom.v ===== *)
(** Persistence: [persistence/eeprom/*].  Every operation is the sequence of
    NVS calls of the code, with its dev-mode and initialization guards and the
    escalation of failed security-relevant writes. *)
From S2P Require Import Prelude Config Wire Platform ErrorCore.
From stdpp Require Import pretty.
Open Scope Z_scope.

(** [NVS_KEYS]. *)
Definition MASTER_FLAG : string := "master".
Definition DEV_FLAG : string := "dev".
Definition ADAPTER_TYPE : string := "adapter".
Definition MESH_KEY : string := "meshkey".
Definition REBOOT_REASON : string := "rbt_reason".
Definition REBOOT_COUNT : string := "rbt_count".
Definition PRIVATE_KEY : string := "privkey".
Definition PUBLIC_KEY : string := "pubkey".
Definition KEYPAIR_CRC : string := "kp_crc".
Definition ENROLLED_FLAG : string := "enrolled".
Definition BOOT_EPOCH : string := "epoch".
Definition KNOWN_MASTER_MAC : string := "master_mac".
Definition KNOWN_MASTER_MAC_SEC : string := "master_mac2".
Definition TX_POWER_PRESET : string := "txpower".
Definition NODE_ID : string := "node_id".

(** [peerKey]: [snprintf(out, outSize, "peer%u", index)]. *)
Definition peerKey (index : nat) : string := ("peer" +:+ pretty index)%string.

(** One iteration of the inner loop of [crc16], on [uint16_t]. *)
Definition crc_bit (crc : Z) : Z :=
  u16 (if Z.land crc 0x8000 =? 0 then Z.shiftl crc 1 else Z.lxor (Z.shiftl crc 1) 0x1021).
Definition crc_byte (crc b : Z) : Z :=
  Nat.iter 8 crc_bit (Z.lxor crc (u16 (Z.shiftl b 8))).
Definition crc16 (data : bytes) : Z := fold_left crc_byte data 0xFFFF.

Section Eeprom.
Context {E : Env}.

(** * [core_internal] *)

Definition ensureInitialized : W bool := s <- get_eeprom ;; wret (isInitialized s).
Definition isDevModeInternal : W bool := s <- get_eeprom ;; wret (isDevMode s).

Definition persistOrEscalate (got want : nat) (securityRelevant : bool) : W bool :=
  if (got =? want)%nat then wret true
  else if securityRelevant then
    fail E_MEMORY M_EEPROM 5 ;;; wret false
  else wret false.

Definition nvsGetU8 (key : string) (defaultValue : Z) : W Z :=
  opened <- nvs_open ;;
  if negb opened then wret defaultValue
  else
    r <- nvs_get key ;;
    match r with
    | Some (NvsU8 value) => wret value
    | _ => wret defaultValue
    end.

Definition nvsPutU8 (key : string) (value : Z) : W nat :=
  opened <- nvs_open ;;
  if negb opened then wret 0%nat
  else
    ok <- nvs_set key (NvsU8 value) ;;
    ok' <- (if ok then nvs_commit else wret false) ;;
    wret (if ok' then 1%nat else 0%nat).

Definition nvsGetU32 (key : string) (defaultValue : Z) : W Z :=
  opened <- nvs_open ;;
  if negb opened then wret defaultValue
  else
    r <- nvs_get key ;;
    match r with
    | Some (NvsU32 value) => wret value
    | _ => wret defaultValue
    end.

Definition nvsPutU32 (key : string) (value : Z) : W nat :=
  opened <- nvs_open ;;
  if negb opened then wret 0%nat
  else
    ok <- nvs_set key (NvsU32 value) ;;
    ok' <- (if ok then nvs_commit else wret false) ;;
    wret (if ok' then 4%nat else 0%nat).

Definition nvsGetBool (key : string) (defaultValue : bool) : W bool :=
  v <- nvsGetU8 key (if defaultValue then 1 else 0) ;; wret (negb (v =? 0)).
Definition nvsPutBool (key : string) (value : bool) : W nat :=
  nvsPutU8 key (if value then 1 else 0).

(** [nvs_get_blob] fails when the stored blob is longer than the buffer;
    otherwise it overwrites the head of [buf].  Result: buffer and length. *)
Definition nvsGetBytes (key : string) (buf : bytes) (maxLen : nat) : W (bytes * nat) :=
  opened <- nvs_open ;;
  if negb opened then wret (buf, 0%nat)
  else
    r <- nvs_get key ;;
    match r with
    | Some (NvsBlob b) =>
        if (length b <=? maxLen)%nat then wret (splice 0 b buf, length b)
        else wret (buf, 0%nat)
    | _ => wret (buf, 0%nat)
    end.

Definition nvsPutBytes (key : string) (buf : bytes) (len : nat) : W nat :=
  opened <- nvs_open ;;
  if negb opened then wret 0%nat
  else
    ok <- nvs_set key (NvsBlob (take len buf)) ;;
    ok' <- (if ok then nvs_commit else wret false) ;;
    wret (if ok' then len else 0%nat).

Definition nvsRemove (key : string) : W bool :=
  opened <- nvs_open ;;
  if negb opened then wret false
  else
    ok <- nvs_erase_key key ;;
    if ok then nvs_commit else wret false.

Definition nvsHasKey (key : string) : W bool :=
  opened <- nvs_open ;;
  if negb opened then wret false
  else
    r <- nvs_get key ;;
    match r with Some (NvsBlob _) => wret true | _ => wret false end.

Definition nvsClearAll : W unit :=
  opened <- nvs_open ;;
  if negb opened then wret tt
  else
    ok <- nvs_erase_all ;;
    if ok then nvs_commit ;;; wret tt else wret tt.

(** * Lifecycle *)

Definition eeprom_init : W bool :=
  s <- get_eeprom ;;
  if isInitialized s then wret true
  else
    opened <- nvs_open ;;
    if negb opened then fail E_MEMORY M_EEPROM 1 ;;; wret false
    else
      put_eeprom (EepromState true (isDevMode s) (devEpoch s)) ;;;
      reason <- nvsGetU8 REBOOT_REASON 0xFF ;;
      (if reason =? 0 then
         n <- nvsPutU8 REBOOT_REASON 0xFF ;; persistOrEscalate n 1 false ;;; wret tt
       else wret tt) ;;;
      count <- nvsGetU8 REBOOT_COUNT 0 ;;
      (if 10 <? count then
         n <- nvsPutU8 REBOOT_COUNT 0 ;; persistOrEscalate n 1 false ;;; wret tt
       else wret tt) ;;;
      wret true.

Definition setDevMode (devMode : bool) : W unit :=
  s <- get_eeprom ;; put_eeprom (EepromState (isInitialized s) devMode (devEpoch s)).

Definition clearAll : W unit :=
  ok <- ensureInitialized ;; if negb ok then wret tt else nvsClearAll.

(** The guard of every saver: [!ensureInitialized() || isDevModeInternal()]. *)
Definition save_guard : W bool :=
  ok <- ensureInitialized ;;
  if negb ok then wret true else isDevModeInternal.

Definition save_u8 (key : string) (v : Z) : W unit :=
  skip <- save_guard ;;
  if skip then wret tt
  else n <- nvsPutU8 key v ;; persistOrEscalate n 1 false ;;; wret tt.

Definition load_u8 (key : string) (uninit default : Z) : W Z :=
  ok <- ensureInitialized ;; if negb ok then wret uninit else nvsGetU8 key default.

Definition load_bool (key : string) : W bool :=
  ok <- ensureInitialized ;; if negb ok then wret false else nvsGetBool key false.

Definition save_bool (key : string) (v : bool) : W unit :=
  skip <- save_guard ;;
  if skip then wret tt
  else n <- nvsPutBool key v ;; persistOrEscalate n 1 false ;;; wret tt.

(** Security-relevant blobs: a short write escalates. *)
Definition save_blob (key : string) (v : bytes) (len : nat) : W unit :=
  skip <- save_guard ;;
  if skip then wret tt
  else n <- nvsPutBytes key v len ;; persistOrEscalate n len true ;;; wret tt.

(** * EepromRole, EepromEnrollment, EepromDiagnostics, EepromDeviceConfig *)

Definition loadMasterFlag : W bool := load_bool MASTER_FLAG.
Definition saveMasterFlag (isMaster : bool) : W unit := save_bool MASTER_FLAG isMaster.
Definition loadDevFlag : W bool := load_bool DEV_FLAG.
Definition saveDevFlag (isDev : bool) : W unit := save_bool DEV_FLAG isDev.
Definition loadEnrolledFlag : W bool := load_bool ENROLLED_FLAG.
Definition saveEnrolledFlag (enrolled : bool) : W unit := save_bool ENROLLED_FLAG enrolled.

Definition loadRebootCount : W Z := load_u8 REBOOT_COUNT 0 0.
Definition saveRebootCount (count : Z) : W unit := save_u8 REBOOT_COUNT count.
Definition saveRebootReason (reason : Z) : W unit := save_u8 REBOOT_REASON reason.
Definition loadRebootReason : W Z := load_u8 REBOOT_REASON 0xFF 0xFF.

Definition loadBootEpoch : W Z :=
  ok <- ensureInitialized ;;
  if negb ok then wret 0
  else
    dev <- isDevModeInternal ;;
    if dev then s <- get_eeprom ;; wret (devEpoch s)
    else nvsGetU32 BOOT_EPOCH 0.

Definition saveBootEpoch (epoch : Z) : W unit :=
  ok <- ensureInitialized ;;
  if negb ok then wret tt
  else
    dev <- isDevModeInternal ;;
    if dev then
      s <- get_eeprom ;; put_eeprom (EepromState (isInitialized s) (isDevMode s) epoch)
    else
      n <- nvsPutU32 BOOT_EPOCH epoch ;;
      persistOrEscalate n 4 true ;;; wret tt.

Definition loadAdapterType : W Z := load_u8 ADAPTER_TYPE 0 0.
Definition saveAdapterType (adapterType : Z) : W unit := save_u8 ADAPTER_TYPE adapterType.

Definition loadTxPowerPreset : W Z :=
  ok <- ensureInitialized ;;
  if negb ok then wret DEFAULT_TX_POWER_PRESET
  else
    val <- nvsGetU8 TX_POWER_PRESET 0xFF ;;
    if 2 <? val then wret DEFAULT_TX_POWER_PRESET else wret val.

Definition saveTxPowerPreset (preset : Z) : W unit := save_u8 TX_POWER_PRESET preset.

(** * EepromIdentity *)

Definition loadNodeId : W Z := load_u8 NODE_ID 0 0.

(** Unlike the other savers, [saveNodeId] has no dev-mode guard. *)
Definition saveNodeId (nodeId : Z) : W unit :=
  ok <- ensureInitialized ;;
  if negb ok then wret tt
  else n <- nvsPutU8 NODE_ID nodeId ;; persistOrEscalate n 1 false ;;; wret tt.

(** The two output buffers are overwritten even when the load fails. *)
Definition loadKeypair (privateKey publicKey : bytes) : W (bool * bytes * bytes) :=
  ok <- ensureInitialized ;;
  if negb ok then wret (false, privateKey, publicKey)
  else
    let* (priv, privRead) := nvsGetBytes PRIVATE_KEY privateKey 32 in
    let* (pub, pubRead) := nvsGetBytes PUBLIC_KEY publicKey 32 in
    if negb (privRead =? 32)%nat || negb (pubRead =? 32)%nat then wret (false, priv, pub)
    else
      stored <- nvsGetU32 KEYPAIR_CRC 0xFFFFFFFF ;;
      if stored =? 0xFFFFFFFF then wret (false, priv, pub)
      else
        let both := take 32 priv ++ take 32 pub in
        if negb (u16 stored =? crc16 both) then wret (false, priv, pub)
        else wret (true, priv, pub).

Definition saveKeypair (privateKey publicKey : bytes) : W unit :=
  skip <- save_guard ;;
  if skip then wret tt
  else
    nPriv <- nvsPutBytes PRIVATE_KEY privateKey 32 ;;
    persistOrEscalate nPriv 32 true ;;;
    nPub <- nvsPutBytes PUBLIC_KEY publicKey 32 ;;
    persistOrEscalate nPub 32 true ;;;
    nCrc <- nvsPutU32 KEYPAIR_CRC (crc16 (take 32 privateKey ++ take 32 publicKey)) ;;
    persistOrEscalate nCrc 4 true ;;; wret tt.

(** * EepromSecurity *)

Definition loadMeshKey (key : bytes) (keySize : nat) : W (bool * bytes) :=
  ok <- ensureInitialized ;;
  if negb ok then wret (false, key)
  else if negb (keySize =? MESH_KEY_SIZE)%nat then wret (false, key)
  else
    let* (key', read) := nvsGetBytes MESH_KEY key keySize in
    wret ((read =? keySize)%nat, key').

Definition saveMeshKey (key : bytes) (keySize : nat) : W unit :=
  skip <- save_guard ;;
  if skip then wret tt
  else if negb (keySize =? MESH_KEY_SIZE)%nat then wret tt
  else
    n <- nvsPutBytes MESH_KEY key keySize ;; persistOrEscalate n keySize true ;;; wret tt.

(** The two loaders of a master MAC differ only in their key. *)
Definition load_master_mac (key : string) (m : mac) : W (bool * mac) :=
  ok <- ensureInitialized ;;
  if negb ok then wret (false, m)
  else
    let* (m', read) := nvsGetBytes key m 6 in
    if negb (read =? 6)%nat then wret (false, m')
    else
      let allFF := forallb (λ b, b =? 0xFF) (take 6 m') in
      wret (negb allFF, m').

Definition loadKnownMasterMac (m : mac) : W (bool * mac) :=
  load_master_mac KNOWN_MASTER_MAC m.
Definition saveKnownMasterMac (m : mac) : W unit := save_blob KNOWN_MASTER_MAC m 6.
Definition loadKnownMasterMacSecondary (m : mac) : W (bool * mac) :=
  load_master_mac KNOWN_MASTER_MAC_SEC m.
Definition saveKnownMasterMacSecondary (m : mac) : W unit :=
  save_blob KNOWN_MASTER_MAC_SEC m 6.

Definition clearKnownMasterMac : W unit :=
  skip <- save_guard ;; if skip then wret tt else nvsRemove KNOWN_MASTER_MAC ;;; wret tt.
Definition clearKnownMasterMacSecondary : W unit :=
  skip <- save_guard ;; if skip then wret tt else nvsRemove KNOWN_MASTER_MAC_SEC ;;; wret tt.

(** * EepromPeers *)

Definition loadPeerRecord (index : nat) (record : bytes) : W (bool * bytes) :=
  ok <- ensureInitialized ;;
  if negb ok then wret (false, record)
  else if (MAX_PEERS <=? index)%nat then wret (false, record)
  else
    let* (record', read) := nvsGetBytes (peerKey index) record PEER_RECORD_SIZE in
    wret ((read =? PEER_RECORD_SIZE)%nat, record').

Definition savePeerRecord (index : nat) (record : bytes) : W unit :=
  skip <- save_guard ;;
  if skip then wret tt
  else if (MAX_PEERS <=? index)%nat then wret tt
  else
    n <- nvsPutBytes (peerKey index) record PEER_RECORD_SIZE ;;
    persistOrEscalate n PEER_RECORD_SIZE true ;;; wret tt.

Definition erasePeerRecord (index : nat) : W unit :=
  ok <- ensureInitialized ;;
  if negb ok then wret tt
  else if (MAX_PEERS <=? index)%nat then wret tt
  else nvsRemove (peerKey index) ;;; wret tt.

(** [savePeerList] over the records as a list. *)
Definition savePeerList (records : list bytes) : W unit :=
  skip <- save_guard ;;
  if skip then wret tt
  else if (MAX_PEERS <? length records)%nat then wret tt
  else
    wfor (λ (i : nat), match records !! i with
               | Some r => savePeerRecord i r
               | None => erasePeerRecord i
               end) (seq 0 MAX_PEERS).

(** [loadPeerList]: absent slots read as 0xFF. *)
Definition loadPeerList (maxPeers : nat) : W (bool * list bytes) :=
  ok <- ensureInitialized ;;
  if negb ok then wret (false, [])
  else if (MAX_PEERS <? maxPeers)%nat then wret (false, [])
  else
    wfold (λ i '(anyFound, records),
             let* (found, record) := loadPeerRecord i (replicate PEER_RECORD_SIZE 0xFF) in
             wret (if found then (true, records ++ [record])
                   else (anyFound, records ++ [replicate PEER_RECORD_SIZE 0xFF])))
          (seq 0 maxPeers) (false, []).

Definition hasPeers : W bool :=
  ok <- ensureInitialized ;;
  if negb ok then wret false
  else wfold (λ (i : nat) (found : bool), if found then wret true else nvsHasKey (peerKey i))
             (seq 0 MAX_PEERS) false.

Definition clearPeerList : W unit :=
  ok <- ensureInitialized ;;
  if negb ok then wret tt else wfor erasePeerRecord (seq 0 MAX_PEERS).
End Eeprom.

(** * Events of the persistence layer *)

(** Those of loading, saving and erasing single keys; only [clearAll] does more. *)
Definition is_nvs_event (e : event) : Prop :=
  match e with
  | EvNvsOpen _ | EvNvsGet _ _ | EvNvsSet _ _ _ | EvNvsErase _ _ | EvNvsCommit _ => True
  | _ => is_error_event e
  end.

Section emits.
Context {E : Env} (P : event → Prop) (HP : ∀ e, is_nvs_event e → P e).

Lemma nvs_error_event e : is_error_event e → P e.
Proof using HP. intros H. apply HP. by destruct e. Qed.
Hint Resolve nvs_error_event : emits.

Ltac eemits := intros; repeat unfold ensureInitialized, isDevModeInternal, persistOrEscalate,
  nvsGetU8, nvsPutU8, nvsGetU32, nvsPutU32, nvsGetBool, nvsPutBool, nvsGetBytes, nvsPutBytes,
  nvsRemove, nvsHasKey, nvsClearAll, save_guard, save_u8, load_u8, save_bool, load_bool, save_blob,
  nvs_open, nvs_get, nvs_set, nvs_erase_key, nvs_erase_all, nvs_commit; solve_emits.

Lemma load_u8_emits k u d : emits P (load_u8 k u d).
Proof using HP. eemits. Qed.
Lemma save_u8_emits k v : emits P (save_u8 k v).
Proof using HP. eemits. Qed.
Lemma load_bool_emits k : emits P (load_bool k).
Proof using HP. eemits. Qed.
Lemma save_bool_emits k v : emits P (save_bool k v).
Proof using HP. eemits. Qed.
Lemma save_blob_emits k v n : emits P (save_blob k v n).
Proof using HP. eemits. Qed.
Lemma clearAll_emits : (∀ ok, P (EvNvsEraseAll ok)) → emits P clearAll.
Proof using HP. intros HE. unfold clearAll. eemits. Qed.
Lemma loadBootEpoch_emits : emits P loadBootEpoch.
Proof using HP. unfold loadBootEpoch. eemits. Qed.
Lemma saveBootEpoch_emits e : emits P (saveBootEpoch e).
Proof using HP. unfold saveBootEpoch. eemits. Qed.
Lemma loadTxPowerPreset_emits : emits P loadTxPowerPreset.
Proof using HP. unfold loadTxPowerPreset. eemits. Qed.
Lemma saveNodeId_emits v : emits P (saveNodeId v).
Proof using HP. unfold saveNodeId. eemits. Qed.
Lemma loadKeypair_emits a b : emits P (loadKeypair a b).
Proof using HP. unfold loadKeypair. eemits. Qed.
Lemma saveKeypair_emits a b : emits P (saveKeypair a b).
Proof using HP. unfold saveKeypair. eemits. Qed.
Lemma loadMeshKey_emits k n : emits P (loadMeshKey k n).
Proof using HP. unfold loadMeshKey. eemits. Qed.
Lemma saveMeshKey_emits k n : emits P (saveMeshKey k n).
Proof using HP. unfold saveMeshKey. eemits. Qed.
Lemma load_master_mac_emits k m : emits P (load_master_mac k m).
Proof using HP. unfold load_master_mac. eemits. Qed.
Lemma loadPeerRecord_emits i r : emits P (loadPeerRecord i r).
Proof using HP. unfold loadPeerRecord. eemits. Qed.
Lemma savePeerRecord_emits i r : emits P (savePeerRecord i r).
Proof using HP. unfold savePeerRecord. eemits. Qed.
Lemma erasePeerRecord_emits i : emits P (erasePeerRecord i).
Proof using HP. unfold erasePeerRecord. eemits. Qed.
End emits.
#[export] Hint Resolve load_u8_emits save_u8_emits load_bool_emits save_bool_emits save_blob_emits
  clearAll_emits loadBootEpoch_emits saveBootEpoch_emits loadTxPowerPreset_emits saveNodeId_emits
  loadKeypair_emits saveKeypair_emits loadMeshKey_emits saveMeshKey_emits load_master_mac_emits
  loadPeerRecord_emits savePeerRecord_emits erasePeerRecord_emits : emits.

(** * What a completed write guarantees *)
Section Writes.
Context {E : Env}.

(** The common shape of [nvsPutU8], [nvsPutU32] and [nvsPutBytes]. *)
Definition nvs_write (k : string) (v : nvs_value) (len : nat) : W nat :=
  opened <- nvs_open ;;
  if negb opened then wret 0%nat
  else
    ok <- nvs_set k v ;;
    ok' <- (if ok then nvs_commit else wret false) ;;
    wret (if ok' then len else 0%nat).

Definition wrote (k : string) (v : nvs_value) (tr : trace) : trace :=
  EvNvsCommit true :: EvNvsSet k v true :: EvNvsOpen true :: tr.

Lemma fail_memory_halts m sub w : ∃ w', fail E_MEMORY m sub w = Halt w'.
Proof. apply (fail_run E_MEMORY m sub w). Qed.

(** A security-relevant write continues only if it was committed; otherwise the
    device restarts. *)
Lemma persist_wp {A} k v len (K : W A) w Q (H : world → Prop) :
  (0 < len)%nat →
  (∀ w', w_trace w' = wrote k v (w_trace w) → w_eeprom w' = w_eeprom w →
     w_err w' = w_err w → wp K w' Q H) →
  (nvs_write_fault E → ∀ w', H w') →
  wp (n <- nvs_write k v len ;; persistOrEscalate n len true ;;; K) w Q H.
Proof.
  intros Hlen HK HH.
  assert (∀ w1, nvs_write_fault E →
            wp (persistOrEscalate 0 len true ;;; K) w1 Q H) as Hbad.
  { intros w1 Hf. unfold persistOrEscalate. destruct (Nat.eqb_spec 0 len); [lia|].
    unfold wp, wbind. destruct (fail_memory_halts M_EEPROM 5 w1) as [w2 ->]. by apply HH. }
  assert (∀ w1, w_trace w1 = wrote k v (w_trace w) → w_eeprom w1 = w_eeprom w →
            w_err w1 = w_err w → wp (persistOrEscalate len len true ;;; K) w1 Q H) as Hgood.
  { intros w1 ???. unfold persistOrEscalate. rewrite Nat.eqb_refl. by apply HK. }
  apply wp_bind. unfold wp at 1.
  unfold nvs_write, nvs_open, nvs_set, nvs_commit, wbind, ask, emit, wret.
  cbn. destruct (env_nvs_open (w_trace w)) eqn:Eo; cbn.
  2:{ apply Hbad. exists (w_trace w), k. auto. }
  destruct (env_nvs_set _ k) eqn:Es; cbn.
  2:{ apply Hbad. eexists _, k. right; left. exact Es. }
  destruct (env_nvs_commit _) eqn:Ec; cbn.
  2:{ apply Hbad. eexists _, k. right; right. exact Ec. }
  by apply Hgood.
Qed.

Definition nvs_read_done (k : string) (r : option nvs_value) (w : world) : world :=
  World (EvNvsGet k r :: EvNvsOpen true :: w_trace w) (w_eeprom w) (w_err w).

Context {L : NvsLawful E}.
Abbreviation stored w := (nvs_store nvs_initial (w_trace w)).

Lemma nvsGetBytes_run k buf n w b :
  stored w k = Some (NvsBlob b) → (length b <= n)%nat →
  nvsGetBytes k buf n w = Ok (splice 0 b buf, length b) (nvs_read_done k (Some (NvsBlob b)) w).
Proof.
  intros Hs Hb. unfold nvsGetBytes, nvs_open, nvs_get, wbind, ask, emit, wret. cbn.
  rewrite nvs_open_ok. cbn. rewrite nvs_get_stored. cbn. rewrite Hs. cbn.
  by rewrite (proj2 (Nat.leb_le _ _) Hb).
Qed.

Lemma nvsGetU32_run k d w v :
  stored w k = Some (NvsU32 v) →
  nvsGetU32 k d w = Ok v (nvs_read_done k (Some (NvsU32 v)) w).
Proof.
  intros Hs. unfold nvsGetU32, nvs_open, nvs_get, wbind, ask, emit, wret. cbn.
  rewrite nvs_open_ok. cbn. rewrite nvs_get_stored. cbn. by rewrite Hs.
Qed.

Lemma stored_read_done k r w k' : stored (nvs_read_done k r w) k' = stored w k'.
Proof. done. Qed.

Lemma stored_wrote k v tr k' :
  nvs_store nvs_initial (wrote k v tr) k' =
  if String.eqb k k' then Some v else nvs_store nvs_initial tr k'.
Proof. done. Qed.

Lemma save_guard_run w :
  isInitialized (w_eeprom w) = true → isDevMode (w_eeprom w) = false →
  save_guard w = Ok false w.
Proof.
  intros H1 H2. unfold save_guard, ensureInitialized, isDevModeInternal, wbind, get_eeprom, wret.
  rewrite H1. cbn. by rewrite H2.
Qed.
End Writes.

Lemma splice_full (src dst : bytes) :
  (length dst <= length src)%nat → splice 0 src dst = src.
Proof. intros H. unfold splice. cbn. by rewrite drop_ge, app_nil_r by lia. Qed.

(** * CRC-16 *)

Lemma crc_bit_range c : 0 <= crc_bit c < 2 ^ 16.
Proof. apply Z.mod_pos_bound. lia. Qed.

(** The inverse of one CRC step: the low bit says which branch was taken, since
    the polynomial is odd. *)
Definition crc_unbit (r : Z) : Z :=
  if Z.testbit r 0 then Z.lor (Z.shiftr (Z.lxor r 0x1021) 1) 0x8000 else Z.shiftr r 1.

Lemma crc_bit_inv_check : all_pow2 16 (λ c, crc_unbit (crc_bit c) =? c) 0 = true.
Proof. vm_compute. reflexivity. Qed.

Lemma crc_bit_inv c : 0 <= c < 2 ^ 16 → crc_unbit (crc_bit c) = c.
Proof.
  intros Hc. apply Z.eqb_eq.
  apply (all_pow2_spec 16 (λ c, crc_unbit (crc_bit c) =? c) 0 c crc_bit_inv_check). lia.
Qed.

Lemma crc_iter_range n c : 0 <= c < 2 ^ 16 → 0 <= Nat.iter n crc_bit c < 2 ^ 16.
Proof. intros Hc. destruct n as [|n]; [done|]. rewrite Nat.iter_succ. apply crc_bit_range. Qed.

Lemma crc_iter_inj n c c' :
  0 <= c < 2 ^ 16 → 0 <= c' < 2 ^ 16 →
  Nat.iter n crc_bit c = Nat.iter n crc_bit c' → c = c'.
Proof.
  intros Hc Hc'. induction n as [|n IH]; [done|]. rewrite !Nat.iter_succ. intros H.
  apply IH. rewrite <- (crc_bit_inv (Nat.iter n crc_bit c)) by by apply crc_iter_range.
  rewrite <- (crc_bit_inv (Nat.iter n crc_bit c')) by by apply crc_iter_range.
  by rewrite H.
Qed.

Lemma lxor_range16 a b : 0 <= a < 2 ^ 16 → 0 <= b < 2 ^ 16 → 0 <= Z.lxor a b < 2 ^ 16.
Proof.
  intros Ha Hb. assert (0 <= Z.lxor a b) as H0 by (apply Z.lxor_nonneg; lia).
  split; [done|]. destruct (Z.eq_dec (Z.lxor a b) 0) as [->|Hne]; [lia|].
  apply Z.log2_lt_pow2; [lia|].
  eapply Z.le_lt_trans; [apply Z.log2_lxor; lia|].
  apply Z.max_lub_lt.
  - destruct (Z.eq_dec a 0) as [->|]; [cbn; lia|]. apply Z.log2_lt_pow2; lia.
  - destruct (Z.eq_dec b 0) as [->|]; [cbn; lia|]. apply Z.log2_lt_pow2; lia.
Qed.

Lemma u16_range x : 0 <= u16 x < 2 ^ 16.
Proof. apply Z.mod_pos_bound. lia. Qed.

Lemma shifted_byte_inj b b' :
  is_byte b → is_byte b' → u16 (Z.shiftl b 8) = u16 (Z.shiftl b' 8) → b = b'.
Proof.
  unfold is_byte, u16. intros Hb Hb'. rewrite !Z.shiftl_mul_pow2 by lia.
  rewrite !Z.mod_small by lia. lia.
Qed.

#[local] Opaque crc_bit.

Lemma crc_iter_range_S n c : n ≠ O → 0 <= Nat.iter n crc_bit c < 2 ^ 16.
Proof. destruct n as [|n]; intros Hn; [done|]. rewrite Nat.iter_succ. apply crc_bit_range. Qed.

Lemma crc_byte_unfold c b : crc_byte c b = Nat.iter 8 crc_bit (Z.lxor c (u16 (Z.shiftl b 8))).
Proof. reflexivity. Qed.

Lemma crc_byte_range c b : 0 <= crc_byte c b < 2 ^ 16.
Proof. rewrite crc_byte_unfold. by apply crc_iter_range_S. Qed.

(** Equal checksums come from equal inputs of the eight steps. *)
Lemma crc_byte_lxor c c' b b' :
  0 <= c < 2 ^ 16 → 0 <= c' < 2 ^ 16 → crc_byte c b = crc_byte c' b' →
  Z.lxor c (u16 (Z.shiftl b 8)) = Z.lxor c' (u16 (Z.shiftl b' 8)).
Proof.
  intros Hc Hc'. rewrite !crc_byte_unfold.
  pose proof (u16_range (Z.shiftl b 8)). pose proof (u16_range (Z.shiftl b' 8)).
  apply crc_iter_inj; by apply lxor_range16.
Qed.

Lemma crc_byte_inj_crc c c' b :
  0 <= c < 2 ^ 16 → 0 <= c' < 2 ^ 16 → crc_byte c b = crc_byte c' b → c = c'.
Proof.
  intros Hc Hc' H%crc_byte_lxor; [|done..].
  apply (f_equal (λ x, Z.lxor x (u16 (Z.shiftl b 8)))) in H.
  by rewrite !Z.lxor_assoc, Z.lxor_nilpotent, !Z.lxor_0_r in H.
Qed.

Lemma crc_byte_inj_byte c b b' :
  0 <= c < 2 ^ 16 → is_byte b → is_byte b' → crc_byte c b = crc_byte c b' → b = b'.
Proof.
  intros Hc Hb Hb' H%crc_byte_lxor; [|done..].
  apply (f_equal (Z.lxor c)) in H.
  rewrite <- !Z.lxor_assoc, Z.lxor_nilpotent, !Z.lxor_0_l in H.
  by apply shifted_byte_inj in H.
Qed.

Lemma fold_left_cons {A S} (f : S → A → S) a l s :
  fold_left f (a :: l) s = fold_left f l (f s a).
Proof. done. Qed.

(** Folding a step function that stays in a range and is injective there. *)
Section fold_inj.
Context {A S : Type} (R : S → Prop) (f : S → A → S).
Context (f_range : ∀ s a, R (f s a)) (f_inj : ∀ s s' a, R s → R s' → f s a = f s' a → s = s').

Lemma fold_range l s : R s → R (fold_left f l s).
Proof using f_range. revert s. induction l as [|a l IH]; intros s Hs; cbn; auto. Qed.

Lemma fold_inj l s s' : R s → R s' → fold_left f l s = fold_left f l s' → s = s'.
Proof using f_range f_inj.
  revert s s'. induction l as [|a l IH]; intros s s' Hs Hs' H; cbn in H; [done|].
  apply (f_inj s s' a); auto.
Qed.
End fold_inj.

(** [crc16] detects every corruption confined to one byte: two key blobs that
    differ in exactly one byte never have the same checksum. *)
Theorem crc16_detects_byte pre post b b' :
  is_byte b → is_byte b' → b ≠ b' →
  crc16 (pre ++ b :: post) ≠ crc16 (pre ++ b' :: post) ∧
  0 <= crc16 (pre ++ b :: post) < 2 ^ 16.
Proof.
  intros Hb Hb' Hne. unfold crc16. rewrite !fold_left_app.
  pose proof (fold_range (λ c, 0 <= c < 2 ^ 16) crc_byte crc_byte_range) as Hr.
  pose proof (Hr pre 0xFFFF ltac:(cbv beta; lia)) as Hpre.
  rewrite !fold_left_cons. split; [|apply Hr, crc_byte_range].
  intros H%(fold_inj (λ c, 0 <= c < 2 ^ 16) crc_byte crc_byte_range crc_byte_inj_crc); [|apply crc_byte_range..].
  by apply crc_byte_inj_byte in H.
Qed.

Lemma crc16_detects_byte_witness :
  crc16 ([1; 2] ++ 3 :: [4]) ≠ crc16 ([1; 2] ++ 7 :: [4]) ∧
  0 <= crc16 ([1; 2] ++ 3 :: [4]) < 2 ^ 16.
Proof. apply (crc16_detects_byte [1; 2] [4] 3 7); unfold is_byte; lia. Defined.

(** * Round trips through NVS *)
Section RoundTrips.
Context {E : Env} {L : NvsLawful E}.
Abbreviation stored w := (nvs_store nvs_initial (w_trace w)).

Definition ready (w : world) : Prop :=
  isInitialized (w_eeprom w) = true ∧ isDevMode (w_eeprom w) = false.

(** What a keypair that was saved leaves in the store. *)
Definition keypair_stored (priv pub : bytes) (w : world) : Prop :=
  stored w PRIVATE_KEY = Some (NvsBlob priv) ∧
  stored w PUBLIC_KEY = Some (NvsBlob pub) ∧
  stored w KEYPAIR_CRC = Some (NvsU32 (crc16 (priv ++ pub))).

Lemma take_32 (l : bytes) : length l = 32%nat → take 32 l = l.
Proof. intros H. by rewrite take_ge by lia. Qed.

Lemma saveKeypair_stores priv pub w :
  length priv = 32%nat → length pub = 32%nat → ready w →
  wp (saveKeypair priv pub) w (λ _ w', keypair_stored priv pub w' ∧ ready w')
    (λ _, nvs_write_fault E).
Proof.
  intros Hp Hq [R1 R2]. unfold saveKeypair. apply wp_bind. unfold wp at 1.
  rewrite (save_guard_run w) by done. rewrite !take_32 by done.
  apply (persist_wp PRIVATE_KEY (NvsBlob (take 32 priv)) 32); [lia| |auto].
  intros w1 T1 E1 _. apply (persist_wp PUBLIC_KEY (NvsBlob (take 32 pub)) 32); [lia| |auto].
  intros w2 T2 E2 _. apply (persist_wp KEYPAIR_CRC _ 4); [lia| |auto].
  intros w3 T3 E3 _. rewrite !take_32 in * by done. unfold wp, wret, keypair_stored, ready.
  rewrite E3, E2, E1, T3, T2, T1. done.
Qed.

Lemma crc16_range l : 0 <= crc16 l < 2 ^ 16.
Proof. apply (fold_range (λ c, 0 <= c < 2 ^ 16) crc_byte crc_byte_range). cbv beta. lia. Qed.

Lemma loadKeypair_run priv pub b1 b2 w :
  keypair_stored priv pub w → isInitialized (w_eeprom w) = true →
  length priv = 32%nat → length pub = 32%nat → length b1 = 32%nat → length b2 = 32%nat →
  ∃ w', loadKeypair b1 b2 w = Ok (true, priv, pub) w'.
Proof.
  intros (S1 & S2 & S3) I Hp Hq H1 H2. pose proof (crc16_range (priv ++ pub)) as Hc.
  unfold loadKeypair, ensureInitialized, get_eeprom, wret. unfold wbind at 1 2. rewrite I. cbn [negb].
  unfold wbind at 1. rewrite (nvsGetBytes_run PRIVATE_KEY b1 32 w priv) by (done || lia).
  unfold wbind at 1. rewrite (nvsGetBytes_run PUBLIC_KEY b2 32 _ pub) by (done || lia).
  rewrite !splice_full, Hp, Hq by lia. cbn [Nat.eqb negb orb].
  unfold wbind at 1. rewrite (nvsGetU32_run KEYPAIR_CRC _ _ (crc16 (priv ++ pub))) by done.
  destruct (Z.eqb_spec (crc16 (priv ++ pub)) 0xFFFFFFFF); [lia|].
  rewrite !take_32 by done. unfold u16. rewrite Z.mod_small by lia.
  rewrite Z.eqb_refl. cbn [negb]. eauto.
Qed.

(** A saved device keypair is loaded back unchanged, checksum included, and
    whatever the buffers held; saving can only fail to return (restart) on a
    platform where an NVS write fails. *)
Theorem keypair_roundtrip priv pub b1 b2 w :
  length priv = 32%nat → length pub = 32%nat → length b1 = 32%nat → length b2 = 32%nat →
  ready w →
  wp (saveKeypair priv pub ;;; loadKeypair b1 b2) w
    (λ r _, r = (true, priv, pub)) (λ _, nvs_write_fault E).
Proof.
  intros Hp Hq H1 H2 R. apply wp_bind. eapply wp_mono; [by apply saveKeypair_stores| |done].
  cbn. intros _ w' [HS [I _]].
  destruct (loadKeypair_run priv pub b1 b2 w') as [w'' E']; [done..|].
  unfold wp. by rewrite E'.
Qed.

(** Writing the boot epoch: returns only once the epoch is committed. *)
Lemma saveBootEpoch_wp e w :
  ready w →
  wp (saveBootEpoch e) w
    (λ _ w', w_trace w' = wrote BOOT_EPOCH (NvsU32 e) (w_trace w) ∧ ready w')
    (λ _, nvs_write_fault E).
Proof using.
  clear L. intros [R1 R2].
  unfold saveBootEpoch, ensureInitialized, isDevModeInternal, get_eeprom.
  unfold wp, wbind at 1 2, wret at 1. rewrite R1. cbn [negb].
  unfold wbind at 1 2, wret at 1. rewrite R2.
  apply (persist_wp BOOT_EPOCH (NvsU32 e) 4 (wret tt) w); [lia| |auto].
  intros w' T E' _. unfold wp, wret, ready. by rewrite E', T.
Qed.

(** Single-byte settings: what a load returns, and what a save leaves behind. *)
Definition u8_of (v : option nvs_value) (default : Z) : Z :=
  match v with Some (NvsU8 x) => x | _ => default end.

Lemma nvsGetU8_run key d w :
  nvsGetU8 key d w = Ok (u8_of (stored w key) d) (nvs_read_done key (stored w key) w).
Proof.
  unfold nvsGetU8, nvs_open, nvs_get, wbind, ask, emit, wret. cbn.
  rewrite nvs_open_ok. cbn. rewrite nvs_get_stored. cbn [nvs_store].
  by destruct (stored w key) as [[]|].
Qed.

Lemma load_u8_run key u d w :
  isInitialized (w_eeprom w) = true →
  load_u8 key u d w = Ok (u8_of (stored w key) d) (nvs_read_done key (stored w key) w).
Proof.
  intros Hi. unfold load_u8, ensureInitialized, get_eeprom, wret. unfold wbind at 1 2.
  rewrite Hi. cbn [negb]. apply nvsGetU8_run.
Qed.

(** A completed or failed write of one key: the state around it is unchanged, the
    other keys too, and the key holds the new value unless the platform failed. *)
Definition saved_u8 (key : string) (v : Z) (w w' : world) : Prop :=
  w_eeprom w' = w_eeprom w ∧ w_err w' = w_err w ∧
  (∀ k, k ≠ key → stored w' k = stored w k) ∧
  (stored w' key = Some (NvsU8 v) ∨ (stored w' key = stored w key ∧ nvs_write_fault E)).

Lemma nvsPutU8_run key v w : ∃ n w', nvsPutU8 key v w = Ok n w' ∧ saved_u8 key v w w'.
Proof.
  assert (∀ k, k ≠ key → String.eqb key k = false) as Hk
    by (intros k Hk; apply String.eqb_neq; congruence).
  unfold nvsPutU8, nvs_open, nvs_set, nvs_commit, wbind, ask, emit, wret, saved_u8. cbn.
  rewrite nvs_open_ok. cbn.
  destruct (env_nvs_set _ key) eqn:Es; cbn.
  - destruct (env_nvs_commit _); cbn; eexists _, _; (split; [done|]); cbn;
      rewrite String.eqb_refl; split_and!; try done; [|by left| |by left];
      intros k Hne; by rewrite (Hk k Hne).
  - eexists _, _. split; [done|]. cbn. split_and!; try done. right. split; [done|].
    eexists _, key. right; left. exact Es.
Qed.

Lemma save_u8_run key v w : ready w → ∃ w', save_u8 key v w = Ok tt w' ∧ saved_u8 key v w w'.
Proof.
  intros [R1 R2]. unfold save_u8. unfold wbind at 1. rewrite (save_guard_run w R1 R2).
  destruct (nvsPutU8_run key v w) as (n & w1 & E1 & S1). unfold wbind. rewrite E1.
  exists w1. split; [|done]. unfold persistOrEscalate. by destruct (n =? 1)%nat.
Qed.

Lemma saved_ready key v w w' : saved_u8 key v w w' → ready w → ready w'.
Proof. intros (H & _) [R1 R2]. split; by rewrite H. Qed.
End RoundTrips.

Lemma keypair_roundtrip_witness :
  let priv := replicate 32 7 in let pub := replicate 32 9 in
  (∃ w', (@saveKeypair ref_env priv pub ;;; @loadKeypair ref_env (zeros 32) (zeros 32)) ref_world
         = Ok (true, priv, pub) w') ∧
  wp (@saveKeypair ref_env priv pub ;;; @loadKeypair ref_env (zeros 32) (zeros 32)) ref_world
    (λ r _, r = (true, priv, pub)) (λ _, nvs_write_fault ref_env).
Proof.
  cbv zeta. split; [eexists; vm_compute; reflexivity|].
  apply (@keypair_roundtrip ref_env ref_env_lawful); done.
Defined.
