(* ===== verification/ReplayCache.v ===== *)
(** [mesh/ReplayCache.h]: replay detection for incoming frames ([ReplayCache])
    and the outbound (epoch, sequence) bookkeeping that keeps AEAD nonces fresh
    ([OutboundSequenceState]). *)
From stdpp Require Import sorting.
From S2P Require Import Prelude Config MacTable SlotTable Wire Platform ErrorCore Eeprom.

(** [ReplayCache::Entry]. *)
Record rentry := REntry {
  epoch : Z;          (* uint32_t *)
  r_lastSeenMs : Z;   (* uint64_t *)
  seq : Z;            (* uint16_t *)
  r_mac : mac;
  used : bool
}.

Definition rentry_zero : rentry := REntry 0 0 0 ZERO_MAC false.
Definition replay_init : list rentry := replicate LATTICE_REPLAY_MAX_ORIGINS rentry_zero.

(** Lexicographic order on (epoch, seq): [a] strictly newer than [b]. *)
Definition newer (a b : Z * Z) : bool :=
  (b.1 <? a.1) || ((a.1 =? b.1) && (b.2 <? a.2)).

(** [ReplayCache::isReplay]: the verdict and the updated cache. *)
Definition isReplay (cache : list rentry) (msg : mesh_message) (nowMs : Z) : bool * list rentry :=
  let origin := origin_mac_address msg in
  let entry := REntry (epoch_num msg) nowMs (seq_num msg) origin true in
  let allocate :=
    let slot := match first_such (λ e, negb (used e)) cache with
                | Some i => i
                | None => evict_oldest_by_ts r_lastSeenMs cache
                end in
    (false, <[slot := entry]> cache) in
  match find r_mac cache origin with
  | Some found =>
      match cache !! found with
      | Some e =>
          if used e then
            let newer := (epoch e <? epoch_num msg)
                         || ((epoch_num msg =? epoch e) && (seq e <? seq_num msg)) in
            if negb newer then (true, cache)
            else (false, <[found := entry]> cache)
          else allocate
      | None => allocate
      end
  | None => allocate
  end.

(** * OutboundSequenceState *)
Record OutboundSequenceState := TxState {
  bootEpoch : Z;           (* uint32_t *)
  txSeqNum : Z;            (* uint16_t *)
  lastRelayedEpoch : Z;
  lastRelayedSeqNum : Z;
  lastSealedEpoch : Z;     (* UINT32_MAX: nothing sealed yet *)
  lastSealedSeq : Z
}.

Definition UINT32_MAX : Z := 2 ^ 32 - 1.
Definition txState_zero : OutboundSequenceState := TxState 0 0 0 0 UINT32_MAX 0.

Definition tx_init (s : OutboundSequenceState) (e : Z) : OutboundSequenceState :=
  TxState e 0 0 0 (lastSealedEpoch s) (lastSealedSeq s).

(** [++txSeqNum] on [uint16_t]. *)
Definition nextSeq (s : OutboundSequenceState) : Z * OutboundSequenceState :=
  let q := u16 (txSeqNum s + 1) in
  (q, TxState (bootEpoch s) q (lastRelayedEpoch s) (lastRelayedSeqNum s)
        (lastSealedEpoch s) (lastSealedSeq s)).

Definition bumpEpoch (s : OutboundSequenceState) (newEpoch : Z) : OutboundSequenceState :=
  TxState newEpoch (txSeqNum s) (lastRelayedEpoch s) (lastRelayedSeqNum s)
    (lastSealedEpoch s) (lastSealedSeq s).

Definition markRelayed (s : OutboundSequenceState) (e q : Z) : OutboundSequenceState :=
  TxState (bootEpoch s) (txSeqNum s) e q (lastSealedEpoch s) (lastSealedSeq s).

Definition wasRelayedBefore (s : OutboundSequenceState) (e q : Z) : bool :=
  negb ((lastRelayedEpoch s <? e) || ((e =? lastRelayedEpoch s) && (lastRelayedSeqNum s <? q))).

Definition mark_sealed (s : OutboundSequenceState) (e q : Z) : OutboundSequenceState :=
  TxState (bootEpoch s) (txSeqNum s) (lastRelayedEpoch s) (lastRelayedSeqNum s) e q.

Section Tx.
Context {E : Env}.

Definition nextSeqGuarded (s : OutboundSequenceState) : W (Z * OutboundSequenceState) :=
  let (seq, s1) := nextSeq s in
  if seq =? 0 then
    let epoch := u32 (bootEpoch s1 + 1) in
    saveBootEpoch epoch ;;;
    wret (nextSeq (bumpEpoch s1 epoch))
  else wret (seq, s1).

Definition checkEpochRollback (s : OutboundSequenceState) (e q : Z) : W OutboundSequenceState :=
  if lastSealedEpoch s =? UINT32_MAX then wret (mark_sealed s e q)
  else if lastSealedEpoch s <? e then wret (mark_sealed s e q)
  else if (e =? lastSealedEpoch s) && (lastSealedSeq s <? q) then
    wret (mark_sealed s (lastSealedEpoch s) q)
  else fail E_CRYPTO M_MESH 1 ;;; wret s.
End Tx.

(** * The cache refines a per-origin high-water mark *)

Abbreviation replay_wf := (slots_wf r_mac used LATTICE_REPLAY_MAX_ORIGINS).
Abbreviation rlookup := (slot_lookup r_mac used).
Abbreviation rroom := (has_room r_mac used).

Definition tuple (e : rentry) : Z * Z := (epoch e, seq e).
Definition msg_tuple (m : mesh_message) : Z * Z := (epoch_num m, seq_num m).

(** The abstract state: the newest accepted tuple of each tracked origin. *)
Definition high_water (cache : list rentry) (m : mac) : option (Z * Z) :=
  tuple <$> rlookup cache m.

Definition rentry_of (msg : mesh_message) (nowMs : Z) : rentry :=
  REntry (epoch_num msg) nowMs (seq_num msg) (origin_mac_address msg) true.

Lemma replay_max_pos : (0 < LATTICE_REPLAY_MAX_ORIGINS)%nat.
Proof. unfold LATTICE_REPLAY_MAX_ORIGINS. lia. Qed.

(** [isReplay] as a test of the high-water mark and a slot write. *)
Lemma isReplay_unfold cache msg nowMs :
  replay_wf cache →
  isReplay cache msg nowMs =
  match high_water cache (origin_mac_address msg) with
  | Some hw => if newer (msg_tuple msg) hw
               then (false, write r_mac used r_lastSeenMs cache (rentry_of msg nowMs))
               else (true, cache)
  | None => (false, write r_mac used r_lastSeenMs cache (rentry_of msg nowMs))
  end.
Proof.
  intros W. unfold isReplay, high_water, slot_lookup, write, rentry_of, find_valid, alloc.
  cbn [r_mac]. destruct (find r_mac cache (origin_mac_address msg)) as [i|] eqn:F; [|done].
  destruct (cache !! i) as [e|] eqn:He; [|done].
  destruct (used e) eqn:U; [|done]. cbn. rewrite He. cbn.
  unfold newer, msg_tuple, tuple. cbn. by destruct ((epoch e <? epoch_num msg) || _).
Qed.

Lemma isReplay_wf cache msg nowMs : replay_wf cache → replay_wf (isReplay cache msg nowMs).2.
Proof.
  intros W. rewrite isReplay_unfold by done.
  repeat split_match; cbn; auto using write_wf.
Qed.

Lemma replay_init_wf : replay_wf replay_init.
Proof. by apply slots_wf_empty. Qed.

Lemma high_water_write cache msg nowMs :
  replay_wf cache →
  high_water (write r_mac used r_lastSeenMs cache (rentry_of msg nowMs)) (origin_mac_address msg)
  = Some (msg_tuple msg).
Proof.
  intros W. unfold high_water.
  pose proof (lookup_write_same r_mac used r_lastSeenMs LATTICE_REPLAY_MAX_ORIGINS cache
    (rentry_of msg nowMs) replay_max_pos eq_refl W) as Hl.
  cbn [r_mac rentry_of] in Hl. by rewrite Hl.
Qed.

(** [isReplay] drops a frame exactly when its origin is tracked and its
    (epoch, seq) is not newer than the origin's high-water mark; otherwise it
    records the frame, forgets no origin while there is room, and when the cache
    is full forgets only the origin that was silent longest. *)
Theorem isReplay_spec cache msg nowMs :
  replay_wf cache →
  let origin := origin_mac_address msg in
  let (verdict, cache') := isReplay cache msg nowMs in
  replay_wf cache' ∧
  (verdict = true ↔ ∃ hw, high_water cache origin = Some hw ∧ newer (msg_tuple msg) hw = false) ∧
  (verdict = true → cache' = cache) ∧
  (verdict = false → high_water cache' origin = Some (msg_tuple msg)) ∧
  (rroom cache origin → ∀ m, m ≠ origin → high_water cache' m = high_water cache m) ∧
  (¬ rroom cache origin → ∃ old, rlookup cache (r_mac old) = Some old ∧
     (∀ i x, cache !! i = Some x → r_lastSeenMs old <= r_lastSeenMs x) ∧
     ∀ m, m ≠ origin →
       high_water cache' m = if mac_eq m (r_mac old) then None else high_water cache m).
Proof.
  intros W origin. pose proof (isReplay_wf cache msg nowMs W) as W'.
  destruct (isReplay cache msg nowMs) as [verdict cache'] eqn:R. split; [done|].
  rewrite isReplay_unfold in R by done. fold origin in R.
  set (cw := write r_mac used r_lastSeenMs cache (rentry_of msg nowMs)) in *.
  assert (high_water cw origin = Some (msg_tuple msg)) as Hcw by by apply high_water_write.
  assert (rroom cache origin → ∀ m, m ≠ origin → high_water cw m = high_water cache m) as Hroom.
  { intros Hr m Hm. unfold high_water. f_equal. by eapply lookup_write_room. }
  assert (high_water cache origin = None ∨ rroom cache origin) as Hor.
  { unfold high_water. destruct (rlookup cache origin) eqn:L; [right|by left].
    left. intros F. unfold slot_lookup in L. by rewrite F in L. }
  destruct (high_water cache origin) as [hw|] eqn:Hhw; [destruct (newer (msg_tuple msg) hw) eqn:N|];
    injection R as <- <-.
  - destruct Hor as [|Hr]; [done|]. split_and!; [|done|done|done|done].
    split; [done|]. intros (x & [= <-] & Hx). congruence.
  - destruct Hor as [|Hr]; [done|]. split_and!; [|done|done|done|done].
    split; [|done]. intros _. eauto.
  - split_and!; [|done|done|done|].
    + split; [done|]. by intros (x & ? & _).
    + intros Hr. destruct (lookup_write_full r_mac used r_lastSeenMs LATTICE_REPLAY_MAX_ORIGINS
        cache (rentry_of msg nowMs)) as (old & Hold & Hmin & Hm); [apply replay_max_pos|done..|].
      exists old. split_and!; [done..|]. intros m Hne. unfold high_water.
      rewrite Hm by done. by destruct (mac_eq m (r_mac old)).
Qed.

Lemma isReplay_spec_witness :
  replay_wf replay_init ∧
  (isReplay replay_init mesh_message_zero 5).1 = false ∧
  replay_wf (isReplay replay_init mesh_message_zero 5).2.
Proof.
  split; [exact replay_init_wf|]. split; [reflexivity|].
  exact (proj1 (isReplay_spec replay_init mesh_message_zero 5 replay_init_wf)).
Defined.

(** Feeding a sequence of frames (with arrival times) to the cache. *)
Fixpoint replay_run (cache : list rentry) (frames : list (mesh_message * Z)) : list bool :=
  match frames with
  | [] => []
  | (m, t) :: rest => let (v, cache') := isReplay cache m t in v :: replay_run cache' rest
  end.

Definition tuple_lt (a b : Z * Z) : Prop := a.1 < b.1 ∨ (a.1 = b.1 ∧ a.2 < b.2).

Lemma newer_true a b : newer a b = true ↔ tuple_lt b a.
Proof.
  unfold newer, tuple_lt. rewrite orb_true_iff, andb_true_iff, !Z.ltb_lt, Z.eqb_eq. lia.
Qed.

Definition keys_in (O : list mac) (cache : list rentry) : Prop :=
  ∀ i e, cache !! i = Some e → used e = true → r_mac e ∈ O.

Lemma replay_init_keys O : keys_in O replay_init.
Proof. by intros k e [-> _]%lookup_replicate. Qed.

Lemma isReplay_keys_in O cache msg nowMs :
  replay_wf cache → origin_mac_address msg ∈ O → keys_in O cache →
  keys_in O (isReplay cache msg nowMs).2.
Proof.
  intros W HO HK. rewrite isReplay_unfold by done.
  assert (keys_in O (write r_mac used r_lastSeenMs cache (rentry_of msg nowMs))).
  { intros i e He U. apply lookup_insert_cases in He as [(_ & _ & ->)|[_ He]]; [done|by eapply HK]. }
  by repeat split_match.
Qed.

(** With few enough origins the marks never go back: later accepted frames of an
    origin lie above the mark it had. *)
Lemma replay_run_above O frames cache m hw j t msg :
  replay_wf cache → keys_in O cache → (length O <= LATTICE_REPLAY_MAX_ORIGINS)%nat →
  (∀ f, f ∈ frames → origin_mac_address f.1 ∈ O) →
  high_water cache m = Some hw →
  frames !! j = Some (msg, t) → origin_mac_address msg = m →
  replay_run cache frames !! j = Some false → tuple_lt hw (msg_tuple msg).
Proof.
  intros W HK HO. revert cache hw j W HK.
  induction frames as [|[f tf] frames IH]; intros cache hw j W HK Hin Hhw Hj Hm Hv; [done|].
  assert (origin_mac_address f ∈ O) as Hf by (apply (Hin (f, tf)); by left).
  cbn in Hv. pose proof (isReplay_spec cache f tf W) as S.
  destruct (isReplay cache f tf) as [v cache'] eqn:R. cbn in S.
  destruct S as (W' & Hiff & Htrue & Hfalse & Hroom & _).
  destruct j as [|j]; cbn in Hj, Hv; simplify_eq.
  - destruct (newer (msg_tuple msg) hw) eqn:N; [by apply newer_true|].
    assert (false = true); [|done]. apply Hiff. eauto.
  - assert (keys_in O cache') as HK'.
    { replace cache' with (isReplay cache f tf).2 by by rewrite R. by apply isReplay_keys_in. }
    specialize (Hroom ltac:(by eapply room_of_bound)).
    destruct (decide (origin_mac_address f = origin_mac_address msg)) as [Eo|Eo].
    + destruct v.
      * rewrite (Htrue eq_refl) in *.
        eapply IH; [done..| |done|done|done|done]. intros g Hg. apply Hin. by right.
      * assert (tuple_lt hw (msg_tuple f)) as H1.
        { destruct (newer (msg_tuple f) hw) eqn:N; [by apply newer_true|].
          assert (false = true); [|done]. apply Hiff. rewrite Eo. eauto. }
        assert (tuple_lt (msg_tuple f) (msg_tuple msg)); [|unfold tuple_lt in *; lia].
        eapply IH; [done..| | |done|done|done]; [intros g Hg; apply Hin; by right|].
        rewrite <- Eo. by apply Hfalse.
    + eapply IH; [done..| | |done|done|done]; [intros g Hg; apply Hin; by right|].
      by rewrite Hroom by done.
Qed.

(** C27. Over any run in which at most [LATTICE_REPLAY_MAX_ORIGINS] origins are
    heard, the frames accepted from one origin carry strictly increasing (epoch,
    seq) tuples: no frame is ever accepted twice. *)
Theorem replay_run_increasing frames (O : list mac) i j mi ti mj tj :
  (length O <= LATTICE_REPLAY_MAX_ORIGINS)%nat →
  (∀ f, f ∈ frames → origin_mac_address f.1 ∈ O) →
  (i < j)%nat →
  frames !! i = Some (mi, ti) → frames !! j = Some (mj, tj) →
  origin_mac_address mi = origin_mac_address mj →
  replay_run replay_init frames !! i = Some false →
  replay_run replay_init frames !! j = Some false →
  tuple_lt (msg_tuple mi) (msg_tuple mj).
Proof.
  intros HO. pose proof (replay_init_keys O) as HK.
  revert HK i j. generalize replay_init replay_init_wf. intros cache W HK i j Hin.
  revert cache W HK i j Hin.
  induction frames as [|[f tf] frames IH]; intros cache W HK i j Hin Hij Hi Hj Eo Hvi Hvj; [done|].
  assert (origin_mac_address f ∈ O) as Hf by (apply (Hin (f, tf)); by left).
  cbn in Hvi, Hvj. pose proof (isReplay_spec cache f tf W) as S.
  destruct (isReplay cache f tf) as [v cache'] eqn:R. cbn in S.
  destruct S as (W' & _ & _ & Hfalse & _).
  assert (keys_in O cache') as HK'.
  { replace cache' with (isReplay cache f tf).2 by by rewrite R. by apply isReplay_keys_in. }
  destruct j as [|j]; [lia|]. destruct i as [|i]; cbn in *; simplify_eq.
  - eapply (replay_run_above O frames cache'); [done..| | |done| |done].
    + intros g Hg. apply Hin. by right.
    + by apply Hfalse.
    + done.
  - eapply (IH cache' W' HK' i j); [|lia|done..]. intros g Hg. apply Hin. by right.
Qed.

Definition demo_frame (m : mac) (e q : Z) : mesh_message :=
  MeshMessage PROTO_VERSION 0 0 m BROADCAST_MAC m (zeros 64) 0 e q (zeros 32) 0
    (zeros 48) (zeros 16) (zeros 8).

Lemma replay_run_increasing_witness :
  let f1 := demo_frame (demo_mac 1) 3 7 in
  let f2 := demo_frame (demo_mac 1) 3 9 in
  replay_run replay_init [(f1, 10); (f1, 11); (f2, 12)] = [false; true; false] ∧
  tuple_lt (msg_tuple f1) (msg_tuple f2).
Proof.
  cbv zeta. split; [vm_compute; reflexivity|].
  apply (replay_run_increasing
    [(demo_frame (demo_mac 1) 3 7, 10); (demo_frame (demo_mac 1) 3 7, 11);
     (demo_frame (demo_mac 1) 3 9, 12)] [demo_mac 1] 0 2 _ 10 _ 12);
    try (vm_compute; reflexivity); [unfold LATTICE_REPLAY_MAX_ORIGINS; cbn; lia| |lia].
  intros f Hf. repeat (apply elem_of_cons in Hf as [->|Hf]; [by left|]).
  by apply elem_of_nil in Hf.
Defined.

(** * Outbound sequence numbers *)
Section TxProps.
Context {E : Env}.

Record tx_wf (s : OutboundSequenceState) : Prop := {
  txwf_epoch : 0 <= bootEpoch s <= UINT32_MAX;
  txwf_seq : 0 <= txSeqNum s < 2 ^ 16
}.

Definition tx_tuple (s : OutboundSequenceState) : Z * Z := (bootEpoch s, txSeqNum s).

(** One draw: a non-zero sequence number, above everything drawn before. *)
Lemma nextSeqGuarded_wp s w :
  tx_wf s → bootEpoch s < UINT32_MAX →
  wp (nextSeqGuarded s) w
    (λ r _, r.1 ≠ 0 ∧ txSeqNum r.2 = r.1 ∧ tx_wf r.2 ∧
            tuple_lt (tx_tuple s) (tx_tuple r.2) ∧ bootEpoch r.2 <= bootEpoch s + 1 ∧
            lastSealedEpoch r.2 = lastSealedEpoch s ∧ lastSealedSeq r.2 = lastSealedSeq s ∧
            (txSeqNum s < 2 ^ 16 - 1 → r.1 = txSeqNum s + 1 ∧ bootEpoch r.2 = bootEpoch s))
    (λ _, txSeqNum s = 2 ^ 16 - 1).
Proof.
  intros [He Hq] Hmax. unfold UINT32_MAX in *.
  unfold nextSeqGuarded, nextSeq, tx_tuple, tuple_lt. cbn [txSeqNum bootEpoch].
  destruct (Z.eq_dec (txSeqNum s) (2 ^ 16 - 1)) as [Ew|Ew].
  - rewrite Ew. change (u16 (2 ^ 16 - 1 + 1)) with 0. cbn [Z.eqb].
    apply wp_bind. unfold wp at 1.
    destruct (saveBootEpoch (u32 (bootEpoch s + 1)) w) as [[] w'|w'] eqn:Es; [|done].
    unfold wp, wret, bumpEpoch. cbn. change (u16 (0 + 1)) with 1.
    unfold u32. rewrite Z.mod_small by lia.
    split_and!; [done..| |lia|lia|done|done|lia].
    split; cbn; unfold UINT32_MAX; lia.
  - assert (u16 (txSeqNum s + 1) = txSeqNum s + 1) as Eu by (apply Z.mod_small; lia).
    rewrite Eu. destruct (Z.eqb_spec (txSeqNum s + 1) 0); [lia|].
    unfold wp, wret. cbn. split_and!; [lia|done| |lia|lia|done|done|lia].
    split; cbn; unfold UINT32_MAX; lia.
Qed.

(** [n] draws in a row, with the epoch each is used under. *)
Fixpoint draws (n : nat) (s : OutboundSequenceState)
    : W (list (Z * Z) * OutboundSequenceState) :=
  match n with
  | O => wret ([], s)
  | S n' =>
      let* (q, s1) := nextSeqGuarded s in
      let* (l, s2) := draws n' s1 in
      wret ((bootEpoch s1, q) :: l, s2)
  end.

Lemma tuple_lt_trans a b c : tuple_lt a b → tuple_lt b c → tuple_lt a c.
Proof. unfold tuple_lt. lia. Qed.

(** C30. The (epoch, seq) pairs a node stamps on the frames it originates are
    strictly increasing, so no AEAD nonce is ever reused, across any number of
    16-bit wraps, as long as the 32-bit boot epoch does not wrap; sequence
    number 0 is never issued; and drawing always returns unless a wrap has to
    persist a new epoch. *)
Theorem draws_fresh n s w :
  tx_wf s → bootEpoch s + Z.of_nat n <= UINT32_MAX →
  wp (draws n s) w
    (λ r _, StronglySorted tuple_lt (tx_tuple s :: r.1) ∧ length r.1 = n ∧
            Forall (λ p, p.2 ≠ 0) r.1 ∧ tx_wf r.2)
    (λ _, 2 ^ 16 <= txSeqNum s + Z.of_nat n).
Proof.
  revert s w. induction n as [|n IH]; intros s w W Hb.
  - unfold wp, draws, wret. cbn. split_and!; [|done|constructor|done]. repeat constructor.
  - cbn [draws]. apply wp_bind.
    eapply wp_mono; [apply nextSeqGuarded_wp; [done|lia]| |cbv beta; lia].
    intros [q s1] w1 (Hq0 & Hq & W1 & Hlt & He & _ & _ & Hsame). cbn in *. apply wp_bind.
    eapply wp_mono; [apply (IH s1 w1 W1); lia| |].
    + intros [l s2] w2 (HS & Hl & HF & W2). cbn in *. unfold wp, wret. cbn.
      assert (tx_tuple s1 = (bootEpoch s1, q)) as Et by (unfold tx_tuple; by rewrite Hq).
      rewrite <- Et. split_and!; [|lia| |done].
      * constructor; [done|]. apply StronglySorted_inv in HS as [_ HF'].
        constructor; [done|]. eapply Forall_impl; [exact HF'|].
        intros p Hp. by eapply tuple_lt_trans.
      * constructor; [by rewrite Et|done].
    + cbn. intros _ Hw. destruct (Z.eq_dec (txSeqNum s) (2 ^ 16 - 1)); [lia|].
      destruct W as [_ Ws]. destruct (Hsame ltac:(lia)). lia.
Qed.

(** The seal-time guard lets a seal through exactly when its (epoch, seq) is
    newer than the last sealed one (or nothing was sealed yet), and then
    remembers it; otherwise the device restarts instead of reusing a nonce. *)
Theorem checkEpochRollback_guard s e q w :
  let admits := lastSealedEpoch s = UINT32_MAX ∨
                tuple_lt (lastSealedEpoch s, lastSealedSeq s) (e, q) in
  (admits ∧ checkEpochRollback s e q w = Ok (mark_sealed s e q) w) ∨
  (¬ admits ∧ ∃ w', checkEpochRollback s e q w = Halt w').
Proof.
  cbv zeta. unfold checkEpochRollback, tuple_lt. cbn [fst snd].
  destruct (Z.eqb_spec (lastSealedEpoch s) UINT32_MAX) as [Es|Es]; [left; by auto|].
  destruct (Z.ltb_spec (lastSealedEpoch s) e) as [El|El]; [left; by auto|].
  destruct (Z.eqb_spec e (lastSealedEpoch s)) as [->|Ee],
    (Z.ltb_spec (lastSealedSeq s) q) as [Eq|Eq]; cbn [andb].
  1: left; by auto.
  all: right; split; [lia|]; unfold wbind;
    destruct (fail_run E_CRYPTO M_MESH 1 w) as [w' ->]; by exists w'.
Qed.

(** The sentinel is also a reachable epoch: a seal under epoch UINT32_MAX turns
    the guard off, and the next seal may repeat the very same nonce. *)
Lemma rollback_sentinel_reuse s w :
  lastSealedEpoch s = UINT32_MAX →
  ∃ s', checkEpochRollback s UINT32_MAX 5 w = Ok s' w ∧
        checkEpochRollback s' UINT32_MAX 5 w = Ok s' w.
Proof.
  intros Es. exists (mark_sealed s UINT32_MAX 5). unfold checkEpochRollback.
  rewrite Es. done.
Qed.

(** When a sequence wrap bumps the epoch, the new epoch is committed to NVS
    before the first sequence number is drawn under it. *)
Theorem epoch_bump_persisted s w q s' w' :
  ready w → nextSeqGuarded s w = Ok (q, s') w' → u16 (txSeqNum s + 1) = 0 →
  bootEpoch s' = u32 (bootEpoch s + 1) ∧ q = 1 ∧
  w_trace w' = wrote BOOT_EPOCH (NvsU32 (bootEpoch s')) (w_trace w).
Proof.
  intros R Hn Hw. unfold nextSeqGuarded, nextSeq in Hn. cbn [txSeqNum bootEpoch] in Hn.
  rewrite Hw in Hn. cbn [Z.eqb] in Hn. unfold wbind in Hn.
  pose proof (saveBootEpoch_wp (u32 (bootEpoch s + 1)) w R) as Hs. unfold wp in Hs.
  destruct (saveBootEpoch (u32 (bootEpoch s + 1)) w) as [[] w1|w1]; [|done].
  unfold wret in Hn. simplify_eq/=. by destruct Hs as [-> _].
Qed.
End TxProps.

Definition demo_tx : OutboundSequenceState := TxState 4 (2 ^ 16 - 2) 0 0 UINT32_MAX 0.

Lemma demo_tx_wf : tx_wf demo_tx.
Proof. split; unfold demo_tx, UINT32_MAX; cbn; lia. Qed.

Lemma draws_fresh_witness :
  (∃ w', @draws ref_env 3 demo_tx ref_world =
         Ok ([(4, 65535); (5, 1); (5, 2)], TxState 5 2 0 0 UINT32_MAX 0) w') ∧
  wp (@draws ref_env 3 demo_tx) ref_world
      (λ r _, StronglySorted tuple_lt (tx_tuple demo_tx :: r.1) ∧ length r.1 = 3%nat ∧
              Forall (λ p, p.2 ≠ 0) r.1 ∧ tx_wf r.2)
      (λ _, 2 ^ 16 <= txSeqNum demo_tx + Z.of_nat 3).
Proof.
  split; [eexists; vm_compute; reflexivity|].
  apply (@draws_fresh ref_env 3 demo_tx ref_world demo_tx_wf). unfold demo_tx, UINT32_MAX. cbn. lia.
Defined.

Lemma epoch_bump_persisted_witness :
  let s := TxState 4 (2 ^ 16 - 1) 0 0 UINT32_MAX 0 in
  ∃ w', @nextSeqGuarded ref_env s ref_world = Ok (1, TxState 5 1 0 0 UINT32_MAX 0) w' ∧
    5 = u32 (4 + 1) ∧ 1 = 1 ∧ w_trace w' = wrote BOOT_EPOCH (NvsU32 5) [].
Proof.
  cbv zeta. eexists. split; [vm_compute; reflexivity|].
  apply (@epoch_bump_persisted ref_env (TxState 4 (2 ^ 16 - 1) 0 0 UINT32_MAX 0) ref_world 1
    (TxState 5 1 0 0 UINT32_MAX 0)); [split; reflexivity|vm_compute; reflexivity..].
Defined.
