(* ===== verification/RouteTable.v ===== *)
(** [mesh/RouteTable.h]: the master's RAM table of relay paths, one entry per
    node, bounded and evicting the oldest report. *)
From S2P Require Import Prelude Config MacTable SlotTable.

(** [RouteTable::Entry]. *)
Record route_entry := RouteEntry {
  nodeMac : mac;
  pathLen : Z;          (* uint8_t *)
  rt_valid : bool;
  rt_lastSeenMs : Z;
  path : bytes          (* uint8_t[MAX_HOPS * 6] *)
}.

Definition route_entry_zero : route_entry := RouteEntry ZERO_MAC 0 false 0 (zeros 48).
Definition routes_clear : list route_entry := replicate LATTICE_ROUTE_TABLE_MAX route_entry_zero.

Definition rt_findSlot (t : list route_entry) (m : mac) : option nat :=
  match find nodeMac t m with
  | None => None
  | Some idx =>
      match t !! idx with
      | Some e => if negb (rt_valid e) then None else Some idx
      | None => None
      end
  end.

Definition rt_allocateSlot (t : list route_entry) : nat :=
  match first_such (λ e, negb (rt_valid e)) t with
  | Some i => i
  | None => evict_oldest_by_ts rt_lastSeenMs t
  end.

(** [RouteTable::record]: the tail of the slot's path buffer is left as it was. *)
Definition record (t : list route_entry) (m : mac) (p : bytes) (len nowMs : Z) : list route_entry :=
  if MAX_HOPS <? len then t
  else
    let slot := match rt_findSlot t m with Some i => i | None => rt_allocateSlot t end in
    let old := default route_entry_zero (t !! slot) in
    let path' := if negb (len =? 0)
                 then splice 0 (take (Z.to_nat len * 6) p) (path old)
                 else path old in
    <[slot := RouteEntry m len true nowMs path']> t.

(** [RouteTable::lookup]: the stored length and the output buffer. *)
Definition lookup (t : list route_entry) (m : mac) (pathOut : bytes) : option (bytes * Z) :=
  match find nodeMac t m with
  | None => None
  | Some idx =>
      match t !! idx with
      | None => None
      | Some e =>
          if negb (rt_valid e) then None
          else
            let out := if negb (pathLen e =? 0)
                       then splice 0 (take (Z.to_nat (pathLen e) * 6) (path e)) pathOut
                       else pathOut in
            Some (out, pathLen e)
      end
  end.

(** * Well-formed tables *)
Definition routes_wf (t : list route_entry) : Prop :=
  slots_wf nodeMac rt_valid LATTICE_ROUTE_TABLE_MAX t ∧
  Forall (λ e, 0 <= pathLen e <= MAX_HOPS ∧ length (path e) = 48%nat) t.

Abbreviation route_slot := (slot_lookup nodeMac rt_valid).
Abbreviation route_room := (has_room nodeMac rt_valid).

Lemma routes_clear_wf : routes_wf routes_clear.
Proof.
  split; [by apply slots_wf_empty|]. apply Forall_replicate.
  unfold MAX_HOPS. cbn. split; [lia|done].
Qed.

Lemma route_max_pos : (0 < LATTICE_ROUTE_TABLE_MAX)%nat.
Proof. unfold LATTICE_ROUTE_TABLE_MAX. lia. Qed.

Lemma rt_findSlot_valid t m : rt_findSlot t m = find_valid nodeMac rt_valid t m.
Proof.
  unfold rt_findSlot, find_valid. destruct (find nodeMac t m) as [i|]; [|done].
  destruct (t !! i) as [e|]; [|done]. by destruct (rt_valid e).
Qed.

Lemma lookup_slot t m out :
  lookup t m out =
  (λ e, (if negb (pathLen e =? 0) then splice 0 (take (Z.to_nat (pathLen e) * 6) (path e)) out
         else out, pathLen e)) <$> route_slot t m.
Proof.
  unfold lookup, slot_lookup, find_valid. destruct (find nodeMac t m) as [i|]; [|done].
  destruct (t !! i) as [e|] eqn:He; [|done]. destruct (rt_valid e); cbn; [|done]. by rewrite He.
Qed.

(** The entry [record] writes. *)
Definition recorded (t : list route_entry) (m : mac) (p : bytes) (len nowMs : Z) : route_entry :=
  let old := default route_entry_zero
               (t !! write_slot nodeMac rt_valid rt_lastSeenMs t m) in
  RouteEntry m len true nowMs
    (if negb (len =? 0) then splice 0 (take (Z.to_nat len * 6) p) (path old) else path old).

Lemma record_write t m p len nowMs :
  len <= MAX_HOPS →
  record t m p len nowMs = write nodeMac rt_valid rt_lastSeenMs t (recorded t m p len nowMs).
Proof.
  intros H. unfold record. destruct (Z.ltb_spec MAX_HOPS len); [lia|].
  unfold write, recorded, write_slot, rt_allocateSlot. cbn [nodeMac]. by rewrite rt_findSlot_valid.
Qed.

Lemma length_splice_take (p old : bytes) k :
  length old = 48%nat → (k <= 8)%nat → length p = 48%nat →
  length (splice 0 (take (k * 6) p) old) = 48%nat.
Proof. intros H Hk Hp. rewrite length_splice; [done|]. rewrite length_take. lia. Qed.

Lemma recorded_fine t m p len nowMs :
  routes_wf t → length p = 48%nat → 0 <= len <= MAX_HOPS →
  length (path (recorded t m p len nowMs)) = 48%nat.
Proof.
  intros [W HF] Hp Hl. unfold recorded. cbn [path].
  assert (length (path (default route_entry_zero
    (t !! write_slot nodeMac rt_valid rt_lastSeenMs t m))) = 48%nat) as Hold.
  { destruct (t !! _) as [e|] eqn:He; [|done]. cbn.
    rewrite Forall_lookup in HF. by apply HF in He as [_ ?]. }
  destruct (len =? 0); cbn [negb]; [done|]. unfold MAX_HOPS in Hl.
  apply length_splice_take; [done|lia|done].
Qed.

Lemma record_wf t m p len nowMs :
  routes_wf t → length p = 48%nat → 0 <= len → routes_wf (record t m p len nowMs).
Proof.
  intros [W HF] Hp Hl. destruct (Z.ltb_spec MAX_HOPS len) as [Hb|Hb].
  { unfold record. rewrite (proj2 (Z.ltb_lt _ _) Hb). done. }
  rewrite record_write by done. split; [by apply write_wf|].
  apply Forall_insert; [done|]. split; [done|]. by apply recorded_fine.
Qed.

(** What a caller reads of a path of [len] hops. *)
Definition path_prefix (p : bytes) (len : Z) : bytes := take (Z.to_nat len * 6) p.

Lemma read_back (p old out : bytes) len :
  0 <= len <= MAX_HOPS → length p = 48%nat → length old = 48%nat → length out = 48%nat →
  path_prefix
    (if negb (len =? 0)
     then splice 0 (take (Z.to_nat len * 6)
                      (if negb (len =? 0) then splice 0 (take (Z.to_nat len * 6) p) old else old)) out
     else out) len = path_prefix p len.
Proof.
  intros Hl Hp Ho Hout. unfold path_prefix, MAX_HOPS in *.
  destruct (Z.eqb_spec len 0) as [->|Hne]; cbn [negb]; [done|].
  assert (length (take (Z.to_nat len * 6) p) = (Z.to_nat len * 6)%nat) as Hlp.
  { rewrite length_take. lia. }
  assert (∀ dst, take (Z.to_nat len * 6) (splice 0 (take (Z.to_nat len * 6) p) dst)
                 = take (Z.to_nat len * 6) p) as Ht.
  { intros dst. unfold splice. change (take 0 dst) with (@nil Z). rewrite app_nil_l.
    by rewrite take_app_length'. }
  by rewrite Ht, Ht.
Qed.

Lemma lookup_record_same t m p len nowMs out :
  routes_wf t → length p = 48%nat → length out = 48%nat → 0 <= len <= MAX_HOPS →
  ∃ out', lookup (record t m p len nowMs) m out = Some (out', len) ∧
          path_prefix out' len = path_prefix p len.
Proof.
  intros [W HF] Hp Hout Hl. rewrite record_write by lia. set (e := recorded t m p len nowMs).
  assert (slot_lookup nodeMac rt_valid (write nodeMac rt_valid rt_lastSeenMs t e) m = Some e) as He.
  { apply (lookup_write_same nodeMac rt_valid rt_lastSeenMs LATTICE_ROUTE_TABLE_MAX t e);
      [apply route_max_pos|done..]. }
  rewrite lookup_slot, He. eexists. split; [done|]. cbn. apply read_back; [lia|done| |done].
  destruct (t !! _) as [x|] eqn:Hx; [|done]. rewrite Forall_lookup in HF.
  by apply HF in Hx as [_ ?].
Qed.

(** [lookup] returns the path [record] stored: the length and exactly the
    recorded hops.  Other nodes' routes are kept while there is room; a full
    table loses only the route reported longest ago; and an overlong path
    changes nothing. *)
Theorem record_lookup t m p len nowMs out :
  routes_wf t → length p = 48%nat → length out = 48%nat → 0 <= len →
  routes_wf (record t m p len nowMs) ∧
  (MAX_HOPS < len → record t m p len nowMs = t) ∧
  (len <= MAX_HOPS →
     (∃ out', lookup (record t m p len nowMs) m out = Some (out', len) ∧
              path_prefix out' len = path_prefix p len) ∧
     (route_room t m → ∀ m' o, m' ≠ m → lookup (record t m p len nowMs) m' o = lookup t m' o) ∧
     (¬ route_room t m → ∃ old, route_slot t (nodeMac old) = Some old ∧
        (∀ i x, t !! i = Some x → rt_lastSeenMs old <= rt_lastSeenMs x) ∧
        ∀ m' o, m' ≠ m → lookup (record t m p len nowMs) m' o =
          if mac_eq m' (nodeMac old) then None else lookup t m' o)).
Proof.
  intros W Hp Hout Hl. split; [by apply record_wf|]. split.
  { intros Hb. unfold record. by rewrite (proj2 (Z.ltb_lt _ _) Hb). }
  intros Hb. split; [by apply lookup_record_same|].
  rewrite record_write by done. destruct W as [W HF].
  set (e := recorded t m p len nowMs). split.
  - intros R m' o Hm. rewrite !lookup_slot. f_equal. by eapply lookup_write_room.
  - intros R. destruct (lookup_write_full nodeMac rt_valid rt_lastSeenMs LATTICE_ROUTE_TABLE_MAX t e)
      as (old & Hold & Hmin & Hm); [apply route_max_pos|done|done|exact R|].
    exists old. split_and!; [done..|]. intros m' o Hne. rewrite !lookup_slot, Hm by done.
    by destruct (mac_eq m' (nodeMac old)).
Qed.

Definition demo_path : bytes := [2; 0; 0; 0; 0; 1] ++ [2; 0; 0; 0; 0; 2] ++ zeros 36.

Lemma record_lookup_witness :
  let t := record routes_clear [2; 0; 0; 0; 0; 9] demo_path 2 50 in
  lookup t [2; 0; 0; 0; 0; 9] (zeros 48) = Some (demo_path, 2) ∧ routes_wf t.
Proof.
  cbv zeta. split; [vm_compute; reflexivity|].
  apply (record_lookup routes_clear [2; 0; 0; 0; 0; 9] demo_path 2 50 (zeros 48));
    [apply routes_clear_wf|reflexivity|reflexivity|lia].
Defined.
