(* ===== verification/PeerRegistry.v ===== *)
(** [mesh/PeerRegistry]: the bounded list of enrolled peers and its persistence.
    The live prefix [peerMacs[0 .. peerCount)] is a list; slots past
    [peerCount] are never read by the code. *)
From S2P Require Import Prelude Config MacTable Wire Platform ErrorCore Eeprom.

Record PeerInfo := Peer {
  p_mac : mac;
  publicKey : bytes;      (* 32 bytes, zero when not yet known *)
  p_lastSeenMs : Z
}.

(** [MasterInfo]. *)
Record MasterInfo := Master {
  m_mac : mac;
  distance : Z            (* 0xFF: no master known *)
}.

Record PeerRegistry := Registry {
  peerMacs : list PeerInfo;
  deviceMac : mac
}.

Definition registry_empty : PeerRegistry := Registry [] ZERO_MAC.
Definition setDeviceMac (r : PeerRegistry) (m : mac) : PeerRegistry := Registry (peerMacs r) m.
Definition with_peers (r : PeerRegistry) (l : list PeerInfo) : PeerRegistry :=
  Registry l (deviceMac r).
Definition count (r : PeerRegistry) : nat := length (peerMacs r).

(** [PeerRegistry::find]: the index stands for the returned pointer. *)
Definition peer_index (r : PeerRegistry) (m : mac) : option nat := find p_mac (peerMacs r) m.
Definition peer_find (r : PeerRegistry) (m : mac) : option PeerInfo :=
  i ← peer_index r m; peerMacs r !! i.

Definition append (r : PeerRegistry) (p : PeerInfo) : bool * PeerRegistry :=
  if (MAX_PEERS <=? count r)%nat then (false, r)
  else (true, with_peers r (peerMacs r ++ [p])).

(** [peerMacs[i] = peerMacs[--peerCount]]. *)
Definition swap_remove (l : list PeerInfo) (i : nat) : list PeerInfo :=
  match last l with
  | Some p => take (length l - 1) (<[i := p]> l)
  | None => l
  end.

Definition remove (r : PeerRegistry) (m : mac) : PeerRegistry :=
  match peer_index r m with
  | Some i => with_peers r (swap_remove (peerMacs r) i)
  | None => r
  end.

Definition set_key (k : bytes) (p : PeerInfo) : PeerInfo := Peer (p_mac p) k (p_lastSeenMs p).
Definition set_seen (t : Z) (p : PeerInfo) : PeerInfo := Peer (p_mac p) (publicKey p) t.

(** The 38-byte NVS record of a peer. *)
Definition peer_record (p : PeerInfo) : bytes := take 6 (p_mac p) ++ take 32 (publicKey p).

Section PeerRegistry.
Context {E : Env}.

Definition isPeerInRange (r : PeerRegistry) (m : mac) : W bool :=
  match peer_find r m with
  | None => wret false
  | Some p => now <- now_ms ;; wret (now -64 p_lastSeenMs p <? STALE_PEER_THRESHOLD_MS)
  end.

Definition updateLastSeen (r : PeerRegistry) (m : mac) : W PeerRegistry :=
  if mac_eq m (deviceMac r) then wret r
  else
    match peer_index r m with
    | Some i =>
        now <- now_ms ;; wret (with_peers r (alter (set_seen now) i (peerMacs r)))
    | None => wret r
    end.

(** One iteration of the load loop. *)
Definition load_slot (i : nat) (r : PeerRegistry) : W PeerRegistry :=
  let* (found, record) := loadPeerRecord i (zeros PEER_RECORD_SIZE) in
  if negb found then wret r
  else if forallb (λ b, b =? 0xFF) (take 6 record) then wret r
  else wret (append r (Peer (slice 0 6 record) (slice 6 32 record) 0)).2.

Definition loadFromEEPROM (r : PeerRegistry) : W PeerRegistry :=
  r' <- wfold load_slot (seq 0 MAX_PEERS) (with_peers r []) ;;
  wret (if (count r' =? 0)%nat
        then fold_left (λ acc m, (append acc (Peer m (zeros 32) 0)).2) DEFAULT_PEERS r'
        else r').

Definition save_slot (l : list PeerInfo) (i : nat) : W unit :=
  match l !! i with
  | Some p => savePeerRecord i (peer_record p)
  | None => erasePeerRecord i
  end.

Definition saveToEEPROM (r : PeerRegistry) : W unit :=
  wfor (save_slot (peerMacs r)) (seq 0 MAX_PEERS).

Definition addAndPersist (r : PeerRegistry) (m : mac) : W PeerRegistry :=
  if bool_decide (is_Some (peer_index r m)) || mac_eq m (deviceMac r) then wret r
  else if (MAX_PEERS <=? count r)%nat then fail E_MEMORY M_MESH 2 ;;; wret r
  else
    now <- now_ms ;;
    let r' := (append r (Peer m (zeros 32) now)).2 in
    saveToEEPROM r' ;;; wret r'.

Definition removeAndPersist (r : PeerRegistry) (m : mac) : W PeerRegistry :=
  let r' := remove r m in
  saveToEEPROM r' ;;;
  ok <- esp_now_del_peer m ;;
  checkEsp ok COMMUNICATION_FAIL ;;; wret r'.
End PeerRegistry.

(** * Well-formed registries *)
Record registry_wf (r : PeerRegistry) : Prop := {
  rwf_bound : (count r <= MAX_PEERS)%nat;
  rwf_nodup : NoDup (p_mac <$> peerMacs r)
}.

Lemma registry_empty_wf : registry_wf registry_empty.
Proof. split; [cbn; unfold MAX_PEERS; lia|constructor]. Qed.

Lemma peer_index_Some r m i :
  registry_wf r → peer_index r m = Some i ↔ ∃ p, peerMacs r !! i = Some p ∧ p_mac p = m.
Proof.
  intros W. unfold peer_index. split.
  - intros [(p & Hp & Hm) _]%find_Some. eauto.
  - intros (p & Hp & Hm). apply find_Some. split; [eauto|].
    intros j q Hj Hq Hqm. assert (j = i); [|lia].
    apply (NoDup_lookup (p_mac <$> peerMacs r) j i m); [by apply W|..];
      apply list_lookup_fmap_Some; naive_solver.
Qed.

Lemma peer_index_None r m : peer_index r m = None ↔ m ∉ p_mac <$> peerMacs r.
Proof.
  unfold peer_index. rewrite find_None, list_elem_of_fmap. split.
  - intros H (p & -> & [i Hi]%list_elem_of_lookup). by eapply H.
  - intros H j p Hj Hm. apply H. exists p. split; [done|]. by eapply list_elem_of_lookup_2.
Qed.

Lemma peer_find_Some r m p :
  registry_wf r → peer_find r m = Some p ↔ p ∈ peerMacs r ∧ p_mac p = m.
Proof.
  intros W. unfold peer_find. rewrite bind_Some. split.
  - intros (i & Hi & Hp). apply (peer_index_Some r m i W) in Hi as (q & Hq & Hm).
    simplify_eq. split; [by eapply list_elem_of_lookup_2|done].
  - intros [[i Hi]%list_elem_of_lookup Hm]. exists i. split; [|done].
    apply peer_index_Some; eauto.
Qed.

Lemma peer_find_mac r m p : peer_find r m = Some p → p_mac p = m.
Proof.
  unfold peer_find, peer_index. rewrite bind_Some. intros (i & [(q & Hq & Hm) _]%find_Some & Hp).
  by simplify_eq.
Qed.

Lemma peer_find_None r m : peer_find r m = None ↔ peer_index r m = None.
Proof.
  unfold peer_find. destruct (peer_index r m) as [i|] eqn:Hi; cbn; [|done].
  unfold peer_index in Hi. apply find_Some in Hi as [(p & -> & _) _]. done.
Qed.

(** [remove] takes out exactly the entry of [m]; order may change. *)
Lemma swap_remove_Permutation l i p :
  l !! i = Some p → p :: swap_remove l i ≡ₚ l.
Proof.
  intros Hi. unfold swap_remove.
  destruct l as [|x l' _] using rev_ind; [done|].
  rewrite last_snoc, length_app. cbn [length].
  replace (length l' + 1 - 1)%nat with (length l') by lia.
  destruct (Nat.lt_ge_cases i (length l')) as [Hlt|Hge].
  - rewrite insert_app_l, take_app_length' by (rewrite ?length_insert; done).
    rewrite lookup_app_l in Hi by done.
    rewrite <- (take_drop_middle l' i p Hi) at 2.
    rewrite insert_take_drop by done.
    rewrite <- !app_assoc. cbn. rewrite Permutation_middle.
    solve_Permutation.
  - rewrite lookup_app_r in Hi by done.
    destruct (i - length l')%nat as [|k] eqn:Ek; cbn in Hi; [|done]. simplify_eq.
    replace i with (length l' + 0)%nat by lia. rewrite insert_app_r. cbn.
    rewrite take_app_length. by rewrite Permutation_cons_append.
Qed.

Lemma append_wf r p :
  registry_wf r → peer_index r (p_mac p) = None → registry_wf (append r p).2.
Proof.
  intros W Hn. unfold append. destruct (Nat.leb_spec MAX_PEERS (count r)); [done|].
  split; cbn.
  - unfold count in *. cbn. rewrite length_app. cbn. lia.
  - rewrite fmap_app. cbn. apply NoDup_app. split_and!; [by apply W| |apply NoDup_singleton].
    intros x Hx Hx'. apply list_elem_of_singleton in Hx' as ->.
    by apply peer_index_None in Hn.
Qed.

Lemma filter_without (l : list mac) m : m ∉ l → filter (λ x, x ≠ m) l = l.
Proof.
  induction l as [|x l IH]; [done|]. intros [Hx Hl]%not_elem_of_cons.
  rewrite filter_cons_True by done. by rewrite IH.
Qed.

Lemma remove_Permutation r m :
  registry_wf r → p_mac <$> peerMacs (remove r m) ≡ₚ filter (λ x, x ≠ m) (p_mac <$> peerMacs r).
Proof.
  intros W. unfold remove. destruct (peer_index r m) as [i|] eqn:Hi.
  - apply (peer_index_Some r m i W) in Hi as (p & Hp & Hm). cbn.
    pose proof (swap_remove_Permutation _ _ _ Hp) as HP.
    pose proof (rwf_nodup r W) as Hnd. revert HP. generalize (swap_remove (peerMacs r) i).
    intros l' HP. rewrite <- HP in Hnd |- *. rewrite fmap_cons in Hnd |- *. rewrite NoDup_cons in Hnd.
    rewrite filter_cons_False by (rewrite Hm; naive_solver).
    rewrite filter_without; [done|]. rewrite <- Hm. by destruct Hnd.
  - apply peer_index_None in Hi. by rewrite filter_without.
Qed.

Lemma remove_wf r m : registry_wf r → registry_wf (remove r m).
Proof.
  intros W. pose proof (remove_Permutation r m W) as HP. split.
  - unfold count. rewrite <- (length_fmap p_mac), HP.
    etrans; [apply length_filter|]. rewrite length_fmap. apply W.
  - rewrite HP. apply NoDup_filter, W.
Qed.

(** Removing a peer forgets exactly that peer: the registry stays well
    formed, the removed MAC is no longer found, and every other peer keeps its
    key and last-seen time. *)
Theorem remove_spec r m m' :
  registry_wf r →
  registry_wf (remove r m) ∧
  peer_find (remove r m) m' = if mac_eq m' m then None else peer_find r m'.
Proof.
  intros W. pose proof (remove_wf r m W) as W'. split; [done|].
  destruct (mac_eq m' m) eqn:Em; mac_cases.
  - subst m'. apply peer_find_None, peer_index_None. rewrite (remove_Permutation r m W).
    intros [? _]%list_elem_of_filter. done.
  - apply option_eq. intros p. rewrite !peer_find_Some by done.
    assert (p_mac p ≠ m → p ∈ peerMacs (remove r m) ↔ p ∈ peerMacs r) as H; [|naive_solver].
    intros Hne. unfold remove. destruct (peer_index r m) as [i|] eqn:Hi; [|done]. cbn.
    apply (peer_index_Some r m i W) in Hi as (q & Hq & Hm).
    pose proof (swap_remove_Permutation _ _ _ Hq) as HP. revert HP.
    generalize (swap_remove (peerMacs r) i). intros l' HP. rewrite <- HP, elem_of_cons.
    naive_solver.
Qed.

Lemma alter_macs (f : PeerInfo → PeerInfo) (i : nat) (l : list PeerInfo) :
  (∀ p, p_mac (f p) = p_mac p) → p_mac <$> alter f i l = p_mac <$> l.
Proof.
  intros Hf. revert i. induction l as [|p l IH]; intros [|i]; [done..| |].
  - change (p_mac (f p) :: (p_mac <$> l) = p_mac p :: (p_mac <$> l)). by rewrite Hf.
  - change (p_mac p :: (p_mac <$> alter f i l) = p_mac p :: (p_mac <$> l)). by rewrite IH.
Qed.

Lemma alter_wf f (i : nat) r :
  (∀ p, p_mac (f p) = p_mac p) → registry_wf r →
  registry_wf (with_peers r (alter f i (peerMacs r))).
Proof.
  intros Hf W. split; unfold count; cbn.
  - rewrite length_alter. apply W.
  - rewrite alter_macs by done. apply W.
Qed.

Section emits.
Context {E : Env} (P : event → Prop).
Context (HP : ∀ e, is_nvs_event e → P e).

Lemma nvs_event_of_error e : is_error_event e → is_nvs_event e.
Proof using. by destruct e. Qed.

Lemma saveToEEPROM_emits r : emits P (saveToEEPROM r).
Proof using HP.
  unfold saveToEEPROM, save_slot. apply emits_wfor. intros i _.
  destruct (_ !! i); eauto with emits.
Qed.

Lemma loadFromEEPROM_emits r : emits P (loadFromEEPROM r).
Proof using HP.
  unfold loadFromEEPROM. apply emits_bind; [|solve_emits].
  apply emits_wfold. intros i r' _. unfold load_slot.
  apply emits_bind; [eauto with emits|]. intros [found record]. solve_emits.
Qed.

Lemma updateLastSeen_emits r m : (∀ us, P (EvTimer us)) → emits P (updateLastSeen r m).
Proof using.
  clear HP. intros HT. unfold updateLastSeen, now_ms, esp_timer_get_time. solve_emits.
Qed.

Lemma isPeerInRange_emits r m : (∀ us, P (EvTimer us)) → emits P (isPeerInRange r m).
Proof using.
  clear HP. intros HT. unfold isPeerInRange, now_ms, esp_timer_get_time. solve_emits.
Qed.
End emits.
#[export] Hint Resolve saveToEEPROM_emits loadFromEEPROM_emits updateLastSeen_emits
  isPeerInRange_emits : emits.

(** * Persistence round trip *)
Section Persist.
Context {E : Env} {L : NvsLawful E}.
(** [nvs_erase_key] fails only on a key that is not there. *)
Context (erase_absent : ∀ tr k, env_nvs_erase tr k = false → nvs_store nvs_initial tr k = None).
Abbreviation stored w := (nvs_store nvs_initial (w_trace w)).

Lemma peerKey_inj i j :
  (i < MAX_PEERS)%nat → (j < MAX_PEERS)%nat → String.eqb (peerKey i) (peerKey j) = bool_decide (i = j).
Proof using.
  assert (forallb (λ p : nat * nat,
    Bool.eqb (String.eqb (peerKey p.1) (peerKey p.2)) (bool_decide (p.1 = p.2)))
    (list_prod (seq 0 MAX_PEERS) (seq 0 MAX_PEERS)) = true) as H by (vm_compute; reflexivity).
  intros Hi Hj. rewrite forallb_forall in H.
  apply eqb_prop, (H (i, j)), in_prod; apply in_seq; lia.
Qed.

(** Valid peers, as enrollment creates them. *)
Definition peer_ok (p : PeerInfo) : Prop :=
  length (p_mac p) = 6%nat ∧ length (publicKey p) = 32%nat ∧ p_mac p ≠ BROADCAST_MAC.

Definition slot_value (l : list PeerInfo) (i : nat) : option nvs_value :=
  (λ p, NvsBlob (peer_record p)) <$> l !! i.

Definition slots_stored (l : list PeerInfo) (n : nat) (w : world) : Prop :=
  ∀ j, (j < n)%nat → stored w (peerKey j) = slot_value l j.

Lemma peer_record_length p : peer_ok p → length (peer_record p) = PEER_RECORD_SIZE.
Proof using. intros (H1 & H2 & _). unfold peer_record. rewrite !take_ge by lia.
  rewrite length_app, H1, H2. done. Qed.

Lemma nvsRemove_wp k w :
  wp (nvsRemove k) w
    (λ _ w', (∀ k', stored w' k' = if String.eqb k k' then None else stored w k') ∧
             w_eeprom w' = w_eeprom w) (λ _, False).
Proof using erase_absent.
  unfold wp, nvsRemove, nvs_open, nvs_erase_key, nvs_commit, wbind, ask, emit, wret. cbn.
  rewrite nvs_open_ok. cbn. destruct (env_nvs_erase _ k) eqn:Er; cbn; [done|].
  split; [|done]. intros k'. apply erase_absent in Er. cbn in Er.
  destruct (String.eqb_spec k k') as [<-|]; [done|done].
Qed.

Lemma save_slot_wp l i w :
  (i < MAX_PEERS)%nat → Forall peer_ok l → ready w →
  wp (save_slot l i) w
    (λ _ w', ready w' ∧ ∀ k', stored w' k' =
       if String.eqb (peerKey i) k' then slot_value l i else stored w k')
    (λ _, nvs_write_fault E).
Proof using erase_absent.
  intros Hi Hl [R1 R2]. assert ((MAX_PEERS <=? i)%nat = false) as Hb by (apply Nat.leb_gt; lia).
  unfold save_slot, slot_value. destruct (l !! i) as [p|] eqn:Hp; cbn [fmap option_fmap option_map].
  - rewrite Forall_lookup in Hl. specialize (Hl i p Hp).
    unfold savePeerRecord. rewrite Hb. apply wp_bind. unfold wp at 1.
    rewrite save_guard_run by done.
    apply (persist_wp (peerKey i) (NvsBlob (take PEER_RECORD_SIZE (peer_record p)))
             PEER_RECORD_SIZE (wret tt)); [unfold PEER_RECORD_SIZE; lia| |auto].
    intros w' T E' _. unfold wp, wret, ready. rewrite E'. split; [done|].
    intros k'. rewrite T, stored_wrote.
    by rewrite take_ge by by rewrite peer_record_length.
  - unfold erasePeerRecord, ensureInitialized, get_eeprom. rewrite Hb.
    unfold wp, wbind at 1 2, wret at 1. rewrite R1. cbn [negb].
    pose proof (nvsRemove_wp (peerKey i) w) as Hr. unfold wp, wbind in *.
    destruct (nvsRemove (peerKey i) w) as [b w'|w']; [|done].
    destruct Hr as [Hs E']. unfold wret, ready. by rewrite E'.
Qed.

Lemma saveToEEPROM_stores r w :
  Forall peer_ok (peerMacs r) → ready w →
  wp (saveToEEPROM r) w (λ _ w', ready w' ∧ slots_stored (peerMacs r) MAX_PEERS w')
    (λ _, nvs_write_fault E).
Proof using erase_absent.
  intros Hl R. unfold saveToEEPROM, wfor.
  apply (wp_wfold_seq (λ i _, save_slot (peerMacs r) i)
           (λ i _ w', ready w' ∧ slots_stored (peerMacs r) i w'));
    [|split; [done|intros j Hj; lia]].
  intros i [] w' Hi [R' HS]. eapply wp_mono; [by apply save_slot_wp; [lia|..]| |done].
  cbn. intros _ w'' [R'' Hk]. split; [done|]. intros j Hj. rewrite Hk.
  rewrite peerKey_inj by lia. case_bool_decide; [by subst|]. apply HS. lia.
Qed.

Lemma not_all_ff m : length m = 6%nat → m ≠ BROADCAST_MAC → forallb (λ b, b =? 0xFF) m = false.
Proof using.
  intros Hl Hm. apply not_true_iff_false. rewrite forallb_forall. intros H. apply Hm.
  do 7 (destruct m as [|? m]; cbn in Hl; try lia).
  unfold BROADCAST_MAC. repeat f_equal; apply Z.eqb_eq, H; cbn; tauto.
Qed.

Lemma load_slot_run l i r w :
  (i < MAX_PEERS)%nat → Forall peer_ok l → (length l <= MAX_PEERS)%nat →
  isInitialized (w_eeprom w) = true → slots_stored l MAX_PEERS w →
  peerMacs r = set_seen 0 <$> take i l →
  wp (load_slot i r) w
    (λ r' w', peerMacs r' = set_seen 0 <$> take (S i) l ∧ deviceMac r' = deviceMac r ∧
              isInitialized (w_eeprom w') = true ∧ slots_stored l MAX_PEERS w')
    (λ _, False).
Proof using.
  intros Hi Hl Hlen I HS Hr. specialize (HS i Hi) as Hsi. unfold slot_value in Hsi.
  assert ((MAX_PEERS <=? i)%nat = false) as Hb by (apply Nat.leb_gt; lia).
  unfold load_slot, loadPeerRecord, ensureInitialized, get_eeprom. rewrite Hb.
  unfold wp, wbind at 1 2 3, wret at 1. rewrite I. cbn [negb]. unfold wbind at 1.
  destruct (l !! i) as [p|] eqn:Hp; cbn [fmap option_fmap option_map] in Hsi.
  - rewrite Forall_lookup in Hl. specialize (Hl i p Hp) as Hok.
    pose proof (peer_record_length p Hok) as Hlr. destruct Hok as (H1 & H2 & H3).
    rewrite (nvsGetBytes_run _ _ _ _ _ Hsi) by lia. unfold wret.
    rewrite Hlr. cbn [Nat.eqb negb PEER_RECORD_SIZE].
    rewrite splice_full by (rewrite Hlr; done).
    assert (peer_record p = p_mac p ++ publicKey p) as ->.
    { unfold peer_record. by rewrite !take_ge by lia. }
    rewrite take_app_length' by done. rewrite (not_all_ff _ H1 H3).
    unfold slice. rewrite drop_0, take_app_length' by done.
    rewrite drop_app_length' by done. rewrite take_ge by lia.
    unfold append. assert (i < length l)%nat by by eapply lookup_lt_Some.
    destruct (Nat.leb_spec MAX_PEERS (count r)) as [Hc|Hc].
    { unfold count in Hc. rewrite Hr, length_fmap, length_take in Hc. lia. }
    cbn. split_and!; [|done..]. rewrite Hr, (take_S_r _ _ _ Hp), fmap_app. by destruct p.
  - unfold nvsGetBytes, nvs_open, nvs_get, wbind, ask, emit, wret. cbn -[slots_stored].
    rewrite nvs_open_ok. cbn -[slots_stored]. rewrite nvs_get_stored. cbn -[slots_stored].
    rewrite Hsi. cbn -[slots_stored]. split_and!; [|done..].
    rewrite Hr. apply lookup_ge_None in Hp. by rewrite !take_ge by lia.
Qed.

End Persist.

Definition demo_registry : PeerRegistry :=
  Registry [Peer (demo_mac 1) (replicate 32 5) 77; Peer (demo_mac 2) (replicate 32 6) 78] (demo_mac 9).


Lemma demo_registry_wf : registry_wf demo_registry.
Proof. split; [cbn; unfold MAX_PEERS; lia|]. by apply (bool_decide_unpack _). Qed.

Lemma remove_spec_witness :
  registry_wf (remove demo_registry (demo_mac 1)) ∧
  peer_find (remove demo_registry (demo_mac 1)) (demo_mac 2) =
    (if mac_eq (demo_mac 2) (demo_mac 1) then None else peer_find demo_registry (demo_mac 2)).
Proof. apply (remove_spec demo_registry (demo_mac 1) (demo_mac 2) demo_registry_wf). Defined.
