(* ===== verification/Transport.v ===== *)
(** [mesh/MeshTransport]: the receive ring buffer, its drain, and the send
    primitives every frame leaves through; and [mesh/PendingRelayQueue].  The
    FreeRTOS ring buffer is the list of queued items; whether it takes one more
    is the platform's answer [env_ring_accepts]. *)
From S2P Require Import Prelude Config MacTable Wire Platform ErrorCore Eeprom PeerRegistry.

(** [MeshTransport::RecvQueueEntry]. *)
Record RecvQueueEntry := RecvEntry { srcMac : mac; rq_msg : mesh_message }.

Definition RECV_QUEUE_SIZE : nat := 4.

(** [PendingRelayQueue::Entry]. *)
Record RelayEntry := Relay { rl_mac : mac; rl_pubKey : bytes }.
Definition RELAY_CAPACITY : nat := 4.

Section Transport.
Context {E : Env}.

(** * Sending *)

Definition sendMessage (target : mac) (msg : mesh_message) (deviceMac : mac) : W unit :=
  if mac_eq target deviceMac then wret tt
  else
    ok <- esp_now_send target msg ;;
    if ok then wret tt else fail E_COMM M_MESH 5 ;;; wret tt.

Definition broadcastToAllPeers (msg : mesh_message) (peers : PeerRegistry) (deviceMac : mac)
    : W unit :=
  if (count peers =? 0)%nat then wret tt
  else
    wfor (λ p, if mac_eq (p_mac p) deviceMac then wret tt
               else sendMessage (p_mac p) msg deviceMac) (peerMacs peers).

Definition sendBroadcast (msg : mesh_message) : W bool := esp_now_send BROADCAST_MAC msg.

Definition registerPeerWithEspNow (m : mac) : W unit :=
  known <- esp_now_is_peer_exist m ;;
  if known then wret tt
  else
    ok <- esp_now_add_peer m ;;
    checkEsp ok COMMUNICATION_FAIL ;;; wret tt.

(** [setupEspNow]; [init_ok] and [pmk_ok] are the results of [esp_now_init]
    and [esp_now_set_pmk]. *)
Definition setupEspNow (init_ok pmk_ok : bool) (peers : PeerRegistry) : W bool :=
  if negb init_ok then fail E_COMM M_MESH 3 ;;; wret false
  else
    checkEsp pmk_ok HARDWARE_FAILURE ;;;
    known <- esp_now_is_peer_exist BROADCAST_MAC ;;
    (if known then wret tt else esp_now_add_peer BROADCAST_MAC ;;; wret tt) ;;;
    wfor (λ p, registerPeerWithEspNow (p_mac p)) (peerMacs peers) ;;;
    wret true.

(** * Receiving *)
Section Receive.
(** The packed layout of [mesh_message] is the protocol submodule's. *)
Context (sizeof_mesh_message : nat) (parse_frame : bytes → mesh_message).

Definition onDataRecvCallback (queue : list RecvQueueEntry) (src : mac) (incoming : bytes)
    : list RecvQueueEntry :=
  if (length incoming <? sizeof_mesh_message)%nat then queue
  else
    let entry := RecvEntry src (parse_frame (take sizeof_mesh_message incoming)) in
    let item := (6 + sizeof_mesh_message)%nat in
    if env_ring_accepts (RECV_QUEUE_SIZE * item + 128) item (length queue)
    then queue ++ [entry] else queue.
End Receive.

(** [drain]: every queued frame goes to the handler, oldest first. *)
Fixpoint drain {S} (handler : mac → mesh_message → S → W S) (queue : list RecvQueueEntry) (s : S)
    : W S :=
  match queue with
  | [] => wret s
  | e :: queue' => s' <- handler (srcMac e) (rq_msg e) s ;; drain handler queue' s'
  end.

(** * PendingRelayQueue *)
Definition RELAY_ENTRY_SIZE : nat := 38.
Definition relay_push (queue : list RelayEntry) (m : mac) (pubKey : bytes) : list RelayEntry :=
  if env_ring_accepts (RELAY_CAPACITY * RELAY_ENTRY_SIZE + 128) RELAY_ENTRY_SIZE (length queue)
  then queue ++ [Relay m pubKey] else queue.

(** [drainTo]; [fn] is [None] for a null callback, and then entries are
    discarded.  Result: the emptied queue. *)
Fixpoint drainTo (fn : option (mac → bytes → W unit)) (queue : list RelayEntry)
    : W (list RelayEntry) :=
  match queue with
  | [] => wret []
  | e :: queue' =>
      match fn with
      | Some f => f (rl_mac e) (rl_pubKey e)
      | None => wret tt
      end ;;; drainTo fn queue'
  end.
End Transport.

(** * What sending does *)

(** A send of [frame] to [target], or the report of its failure. *)
Definition sends (T : mac → Prop) (F : mesh_message → Prop) (e : event) : Prop :=
  match e with
  | EvSend target frame _ => T target ∧ F frame
  | _ => is_error_event e
  end.

Section props.
Context {E : Env}.

Lemma sendMessage_returns target msg dev : returns (sendMessage target msg dev).
Proof.
  unfold sendMessage. destruct (mac_eq target dev); [by intros w; eauto|].
  apply returns_bind; [intros w; unfold esp_now_send, wbind, ask, emit, wret; eauto|].
  intros []; [by intros w; eauto|].
  apply returns_bind; [by apply fail_returns|]. intros _ w. eauto.
Qed.

Lemma registerPeerWithEspNow_returns m : returns (registerPeerWithEspNow m).
Proof.
  unfold registerPeerWithEspNow.
  apply returns_bind; [intros w; unfold esp_now_is_peer_exist, wbind, ask, emit, wret; eauto|].
  intros []; [by intros w; eauto|].
  apply returns_bind; [intros w; unfold esp_now_add_peer, wbind, ask, emit, wret; eauto|].
  intros ok. unfold checkEsp. apply returns_bind; [|intros _ w; eauto].
  destruct ok; [by intros w; eauto|by apply fail_returns].
Qed.

Context (P : event → Prop).

Lemma sendMessage_emits target msg dev :
  (∀ e, is_error_event e → P e) →
  (∀ ok, mac_eq target dev = false → P (EvSend target msg ok)) →
  emits P (sendMessage target msg dev).
Proof.
  intros HE HS. unfold sendMessage, esp_now_send. destruct (mac_eq target dev) eqn:Em; solve_emits.
Qed.

Lemma broadcastToAllPeers_emits msg peers dev :
  (∀ e, is_error_event e → P e) →
  (∀ p ok, p ∈ peerMacs peers → p_mac p ≠ dev → P (EvSend (p_mac p) msg ok)) →
  emits P (broadcastToAllPeers msg peers dev).
Proof.
  intros HE HS. unfold broadcastToAllPeers. destruct (count peers =? 0)%nat; [apply emits_ret|].
  apply emits_wfor. intros p Hp. destruct (mac_eq (p_mac p) dev) eqn:Em; [apply emits_ret|].
  mac_cases. apply sendMessage_emits; auto.
Qed.

Lemma sendBroadcast_emits msg :
  (∀ ok, P (EvSend BROADCAST_MAC msg ok)) → emits P (sendBroadcast msg).
Proof. intros HS. unfold sendBroadcast, esp_now_send. solve_emits. Qed.

Lemma registerPeerWithEspNow_emits m :
  (∀ e, is_error_event e → P e) → (∀ r, P (EvPeerExist m r)) → (∀ r, P (EvAddPeer m r)) →
  emits P (registerPeerWithEspNow m).
Proof.
  intros HE H1 H2. unfold registerPeerWithEspNow, esp_now_is_peer_exist, esp_now_add_peer.
  solve_emits.
Qed.
End props.

(** The targets of a broadcast to all peers, in order, whatever each send
    returns. *)
Fixpoint sent_frames (tr : trace) : list (mac * mesh_message) :=
  match tr with
  | [] => []
  | EvSend t f _ :: tr' => (t, f) :: sent_frames tr'
  | _ :: tr' => sent_frames tr'
  end.

Lemma sent_frames_app t1 t2 : sent_frames (t1 ++ t2) = sent_frames t1 ++ sent_frames t2.
Proof. induction t1 as [|e t1 IH]; [done|]. destruct e; cbn; by rewrite IH. Qed.

Lemma sent_frames_errors tr : Forall is_error_event tr → sent_frames tr = [].
Proof. induction 1 as [|e tr He _ IH]; [done|]. by destruct e. Qed.

Section sent.
Context {E : Env}.

Lemma sendMessage_sent target msg dev w :
  ∃ w', sendMessage target msg dev w = Ok tt w' ∧
        sent_frames (w_trace w') =
        (if mac_eq target dev then [] else [(target, msg)]) ++ sent_frames (w_trace w).
Proof.
  unfold sendMessage. destruct (mac_eq target dev) eqn:Em.
  { exists w. done. }
  unfold esp_now_send, wbind, ask, emit, wret. cbn.
  set (w1 := World _ _ _). destruct (env_send (w_trace w) target); [by exists w1|].
  destruct (fail_returns E_COMM M_MESH 5 eq_refl w1) as (b & w2 & Ef).
  pose proof (emits_Ok is_error_event _ w1 b w2 (fail_emits _ (λ e H, H) E_COMM M_MESH 5) Ef)
    as (evs & Et & HF).
  rewrite Ef. exists w2. split; [done|].
  rewrite Et, sent_frames_app, sent_frames_errors by done. done.
Qed.

Lemma wfor_sent (l : list PeerInfo) msg dev w :
  ∃ w', wfor (λ p, if mac_eq (p_mac p) dev then wret tt
                   else sendMessage (p_mac p) msg dev) l w = Ok tt w' ∧
        sent_frames (w_trace w') =
        rev ((λ m, (m, msg)) <$> filter (λ m, m ≠ dev) (p_mac <$> l)) ++ sent_frames (w_trace w).
Proof.
  unfold wfor. revert w. induction l as [|p l IH]; intros w; cbn [wfold].
  { by exists w. }
  unfold wbind at 1. rewrite fmap_cons. destruct (mac_eq (p_mac p) dev) eqn:Em.
  - unfold wret at 1. rewrite filter_cons_False by (mac_cases; naive_solver). apply IH.
  - destruct (sendMessage_sent (p_mac p) msg dev w) as (w1 & -> & Hs). rewrite Em in Hs.
    destruct (IH w1) as (w' & E' & Hs'). exists w'. split; [done|].
    rewrite filter_cons_True by (by mac_cases). rewrite Hs', Hs. cbn.
    by rewrite <- app_assoc.
Qed.

Lemma broadcast_run msg peers dev w :
  ∃ w', broadcastToAllPeers msg peers dev w = Ok tt w' ∧
        sent_frames (w_trace w') =
        rev ((λ m, (m, msg)) <$> filter (λ m, m ≠ dev) (p_mac <$> peerMacs peers))
          ++ sent_frames (w_trace w).
Proof.
  unfold broadcastToAllPeers, count. destruct (peerMacs peers) as [|p l] eqn:Hl; cbn [length Nat.eqb].
  - by exists w.
  - apply (wfor_sent (p :: l)).
Qed.

(** [broadcastToAllPeers] always returns and sends the frame exactly once to
    each registered peer other than the device itself, in registry order, even
    when individual sends fail. *)
Theorem broadcastToAllPeers_sent msg peers dev w :
  ∃ w', broadcastToAllPeers msg peers dev w = Ok tt w' ∧
        sent_frames (w_trace w') =
        rev ((λ m, (m, msg)) <$> filter (λ m, m ≠ dev) (p_mac <$> peerMacs peers))
          ++ sent_frames (w_trace w).
Proof. apply broadcast_run. Qed.
End sent.

(** * The relay queue *)
Section relay.
Context {E : Env}.

Lemma drainTo_emits (P : event → Prop) f queue :
  (∀ e, e ∈ queue → emits P (f (rl_mac e) (rl_pubKey e))) →
  emits P (drainTo (Some f) queue).
Proof.
  induction queue as [|e queue IH]; intros Hf; cbn; [apply emits_ret|].
  apply emits_bind; [apply Hf; by left|]. intros _. apply IH. intros e' He. apply Hf. by right.
Qed.

(** The relay callback of a master ([_enrollmentRelayFn]). *)
Definition relay_event (m : mac) (k : bytes) : W unit := emit (EvRelay m k).

(** One [drainTo] relays every queued enrollment request, oldest first, and
    leaves the queue empty: no request waits behind another. *)
Theorem drainTo_all queue w :
  drainTo (Some relay_event) queue w =
  Ok [] (World (rev ((λ e, EvRelay (rl_mac e) (rl_pubKey e)) <$> queue) ++ w_trace w)
           (w_eeprom w) (w_err w)).
Proof.
  revert w. induction queue as [|e queue IH]; intros w; cbn; [by destruct w|].
  unfold wbind, relay_event, emit in *. rewrite IH. cbn. by rewrite <- app_assoc.
Qed.

(** The device's relay queue never loses a request it accepted: a push appends
    at the back or drops the new request. *)
Lemma relay_push_cases queue m k :
  relay_push queue m k = queue ++ [Relay m k] ∨ relay_push queue m k = queue.
Proof. unfold relay_push. destruct (env_ring_accepts _ _ _); auto. Qed.
End relay.
