(* ===== verification/Crypto.v ===== *)
(** The cryptographic surface: [crypto/Crypto.h], [mesh/MeshCrypto.h],
    [mesh/E2ECrypto.h] and [mesh/RouteMac.h].

    The primitives are mbedtls's and are a parameter (class [Crypto]); what the
    protocol relies on is stated as [CryptoLawful]: X25519 agreement, and that
    ChaCha20-Poly1305 is a deterministic authenticated encryption, i.e. opening
    succeeds exactly on what sealing the result would produce. *)
From S2P Require Import Prelude Config Wire Platform ErrorCore.

Class Crypto := {
  (** [mbedtls_ecdh_calc_secret] on little-endian keys. *)
  mb_x25519 : bytes → bytes → option bytes;
  (** HKDF-SHA256, empty salt: input key, info, output length. *)
  mb_hkdf : bytes → bytes → nat → option bytes;
  (** HMAC-SHA256: key, data. *)
  mb_hmac : bytes → bytes → option bytes;
  (** ChaCha20-Poly1305: key, nonce, AAD, plaintext; ciphertext and tag. *)
  mb_seal : bytes → bytes → bytes → bytes → option (bytes * bytes);
  mb_open : bytes → bytes → bytes → bytes → bytes → option bytes
}.

Class CryptoLawful (C : Crypto) := {
  x25519_public : bytes → bytes;
  x25519_agree : ∀ a b, mb_x25519 a (x25519_public b) = mb_x25519 b (x25519_public a);
  open_seal : ∀ k n a p c t, mb_seal k n a p = Some (c, t) → mb_open k n a c t = Some p;
  seal_open : ∀ k n a p c t, mb_open k n a c t = Some p → mb_seal k n a p = Some (c, t);
  seal_lengths : ∀ k n a p c t, mb_seal k n a p = Some (c, t) →
    length c = length p ∧ length t = 16%nat;
  hmac_length : ∀ k d m, mb_hmac k d = Some m → length m = 32%nat
}.

(** [sizeof(label) - 1] bytes of a string literal. *)
Definition label (s : string) : bytes :=
  (λ c, Z.of_nat (Ascii.nat_of_ascii c)) <$> String.list_ascii_of_string s.

(** [detail::reverse32]. *)
Definition reverse32 (b : bytes) : bytes := rev (take 32 b).

Definition E2E_AAD_LEN : nat := 24.
Definition E2E_NONCE_LEN : nat := 12.
Definition HOP_CTX_LEN : nat := 30.
Definition AUTH_PATH_LEN : nat := 8.

Definition buildNonce (msg : mesh_message) : bytes :=
  le_bytes 4 (epoch_num msg) ++ le_bytes 2 (seq_num msg) ++ take 6 (origin_mac_address msg).

Definition buildAad (msg : mesh_message) : bytes :=
  [proto_version msg; message_type msg] ++ le_bytes 4 (u32 (data_type msg)) ++
  take 6 (origin_mac_address msg) ++ take 6 (target_mac_address msg) ++
  le_bytes 4 (epoch_num msg) ++ le_bytes 2 (seq_num msg).

(** [routemac::buildHopContext]. *)
Definition buildHopContext (msg : mesh_message) (prev_hop this_hop : mac) : bytes :=
  take 6 (origin_mac_address msg) ++ take 6 (target_mac_address msg) ++
  le_bytes 4 (epoch_num msg) ++ le_bytes 2 (seq_num msg) ++ take 6 prev_hop ++ take 6 this_hop.

Section Crypto.
Context {E : Env} {C : Crypto}.

Definition x25519_shared (priv32BE peerPub32BE : bytes) : option bytes :=
  mb_x25519 (reverse32 priv32BE) (reverse32 peerPub32BE).

Definition hkdf_sha256 (ikm info : bytes) (outLen : nat) : option bytes := mb_hkdf ikm info outLen.
Definition hmac_sha256 (key data : bytes) : option bytes := mb_hmac key data.

(** Key generation draws from the platform's generator. *)
Definition x25519_keygen : W (option (bytes * bytes)) :=
  r <- ask env_keygen ;;
  match r with
  | Some (privLE, pubLE) =>
      let priv := reverse32 privLE in
      let pub := reverse32 pubLE in
      emit (EvKeygen priv pub true) ;;; wret (Some (priv, pub))
  | None => emit (EvKeygen [] [] false) ;;; wret None
  end.

(** [mesh::crypto::generateKeypair]. *)
Definition generateKeypair : W (bytes * bytes) :=
  r <- x25519_keygen ;;
  match r with
  | Some kp => wret kp
  | None => fatal E_CONFIG M_MESH 3
  end.

Definition computeSharedSecret (ownPrivateKey32 peerPublicKey32 : bytes) : W bytes :=
  match x25519_shared ownPrivateKey32 peerPublicKey32 with
  | Some s => wret s
  | None => fatal E_CONFIG M_MESH 25
  end.

Definition deriveE2EKeys (ownPrivateKey32 peerPublicKey32 : bytes) : W (bytes * bytes) :=
  secret <- computeSharedSecret ownPrivateKey32 peerPublicKey32 ;;
  match hkdf_sha256 secret (label "lattice-e2e-up-v3") 32,
        hkdf_sha256 secret (label "lattice-e2e-down-v3") 32 with
  | Some kUp, Some kDown => wret (kUp, kDown)
  | _, _ => fatal E_CONFIG M_MESH 26
  end.

(** [sealPayload] and [openPayload] update [data] (and [auth_tag]) in place;
    [None] is the [false] result. *)
Definition sealPayload (key32 : bytes) (msg : mesh_message) : option mesh_message :=
  match mb_seal key32 (buildNonce msg) (buildAad msg) (data msg) with
  | Some (c, t) => Some (set_auth_tag t (set_data c msg))
  | None => None
  end.

Definition openPayload (key32 : bytes) (msg : mesh_message) : option mesh_message :=
  match mb_open key32 (buildNonce msg) (buildAad msg) (data msg) (auth_tag msg) with
  | Some p => Some (set_data p msg)
  | None => None
  end.

(** [routemac::chainStep]: a failed HMAC leaves a zero MAC. *)
Definition chainStep (secret hop_ctx prev_mac : bytes) : bytes :=
  match hmac_sha256 secret (take HOP_CTX_LEN hop_ctx ++ take AUTH_PATH_LEN prev_mac) with
  | Some full => take AUTH_PATH_LEN full
  | None => zeros AUTH_PATH_LEN
  end.

(** The derived pair as a function: what [deriveE2EKeys] returns when the
    primitives succeed. *)
Definition derived (own pub : bytes) : option (bytes * bytes) :=
  s ← x25519_shared own pub;
  u ← hkdf_sha256 s (label "lattice-e2e-up-v3") 32;
  d ← hkdf_sha256 s (label "lattice-e2e-down-v3") 32;
  Some (u, d).

Lemma deriveE2EKeys_run own pub w :
  match derived own pub with
  | Some k => deriveE2EKeys own pub w = Ok k w
  | None => ∃ w', deriveE2EKeys own pub w = Halt w'
  end.
Proof.
  assert (∀ A t m s w1, ∃ w2, @fatal A t m s w1 = Halt w2) as Hfatal.
  { intros A t m s w1. unfold fatal, wbind.
    destruct (signalError t m s w1) as [[] w2|w2]; [|eauto].
    unfold emit, whalt. eauto. }
  unfold derived, deriveE2EKeys, computeSharedSecret.
  destruct (x25519_shared own pub) as [s|]; cbn -[label].
  2:{ unfold wbind. destruct (Hfatal bytes E_CONFIG M_MESH 25 w) as [w' ->]. eauto. }
  destruct (hkdf_sha256 s (label "lattice-e2e-up-v3") 32) as [u|]; cbn -[label]; [|apply Hfatal].
  destruct (hkdf_sha256 s (label "lattice-e2e-down-v3") 32) as [d|]; cbn -[label]; [done|apply Hfatal].
Qed.

Lemma deriveE2EKeys_emits (P : event → Prop) own pub :
  (∀ e, is_error_event e → P e) → P EvHang → emits P (deriveE2EKeys own pub).
Proof.
  intros HE HH. unfold deriveE2EKeys, computeSharedSecret.
  apply emits_bind; [|intros s];
    repeat (split_match); try apply emits_ret; by apply fatal_emits.
Qed.
End Crypto.

(** * What the AEAD binds *)

(** The header fields under the AEAD; relays may change all the others. *)
Definition same_header (m m' : mesh_message) : Prop :=
  proto_version m = proto_version m' ∧ message_type m = message_type m' ∧
  data_type m = data_type m' ∧ origin_mac_address m = origin_mac_address m' ∧
  target_mac_address m = target_mac_address m' ∧ epoch_num m = epoch_num m' ∧
  seq_num m = seq_num m'.

#[export] Instance same_header_equiv : Equivalence same_header.
Proof. split; unfold same_header; red; naive_solver congruence. Qed.

#[export] Instance buildNonce_proper : Proper (same_header ==> eq) buildNonce.
Proof. intros m m' (?&?&?&Ho&?&He&Hs). unfold buildNonce. by rewrite Ho, He, Hs. Qed.
#[export] Instance buildAad_proper : Proper (same_header ==> eq) buildAad.
Proof. intros m m' (Hv&Ht&Hd&Ho&Hg&He&Hs). unfold buildAad. by rewrite Hv, Ht, Hd, Ho, Hg, He, Hs. Qed.
#[export] Instance buildHopContext_proper : Proper (same_header ==> eq ==> eq ==> eq) buildHopContext.
Proof.
  intros m m' (?&?&?&Ho&Hg&He&Hs) p ? <- t ? <-. unfold buildHopContext. by rewrite Ho, Hg, He, Hs.
Qed.

Lemma set_data_header p m : same_header (set_data p m) m.
Proof. by repeat split. Qed.
Lemma set_auth_tag_header t m : same_header (set_auth_tag t m) m.
Proof. by repeat split. Qed.
Lemma set_auth_path_header t m : same_header (set_auth_path t m) m.
Proof. by repeat split. Qed.
Lemma relay_step_header d m : same_header (relay_step d m) m.
Proof. by repeat split. Qed.
Lemma set_route_header n p m : same_header (set_route n p m) m.
Proof. by repeat split. Qed.
#[export] Hint Resolve set_data_header set_auth_tag_header set_auth_path_header relay_step_header
  set_route_header : lattice.

Lemma app_inj_len {A} (l1 l2 k1 k2 : list A) :
  length l1 = length k1 → l1 ++ l2 = k1 ++ k2 → l1 = k1 ∧ l2 = k2.
Proof. intros H E. by apply app_inj_1. Qed.

Lemma take_mac (m : mac) : is_bytes 6 m → take 6 m = m.
Proof. intros [H _]. by rewrite take_ge by lia. Qed.

Lemma u32_inj_int32 x y : - 2 ^ 31 <= x < 2 ^ 31 → - 2 ^ 31 <= y < 2 ^ 31 → u32 x = u32 y → x = y.
Proof.
  unfold u32. intros Hx Hy H.
  pose proof (Z.div_mod x (2 ^ 32) ltac:(lia)). pose proof (Z.div_mod y (2 ^ 32) ltac:(lia)).
  pose proof (Z.mod_pos_bound x (2 ^ 32) ltac:(lia)). lia.
Qed.

Lemma u32_range x : 0 <= u32 x < 2 ^ 32.
Proof. apply Z.mod_pos_bound. lia. Qed.

(** The associated data determines every header field a relay must not
    change, and the nonce determines the sender and its (epoch, seq): both have
    their documented fixed length, and two well-formed frames with equal AAD
    agree on version, type, data type, origin, target, epoch and sequence. *)
Theorem aad_nonce_injective m m' :
  wf_message m → wf_message m' →
  length (buildAad m) = E2E_AAD_LEN ∧ length (buildNonce m) = E2E_NONCE_LEN ∧
  (buildAad m = buildAad m' ↔ same_header m m') ∧
  (buildNonce m = buildNonce m' ↔
     epoch_num m = epoch_num m' ∧ seq_num m = seq_num m' ∧
     origin_mac_address m = origin_mac_address m').
Proof.
  intros W W'. unfold buildAad, buildNonce.
  rewrite !take_mac by first [apply W | apply W'].
  split_and!.
  - rewrite !length_app, !le_bytes_length, (proj1 (wfm_origin m W)), (proj1 (wfm_target m W)). done.
  - rewrite !length_app, !le_bytes_length, (proj1 (wfm_origin m W)). done.
  - split.
    + intros H. apply app_inj_len in H as [H1 H]; [|done]. injection H1 as Hv Ht.
      apply app_inj_len in H as [Hd H]; [|by rewrite !le_bytes_length].
      apply app_inj_len in H as [Ho H];
        [|by rewrite (proj1 (wfm_origin m W)), (proj1 (wfm_origin m' W'))].
      apply app_inj_len in H as [Hg H];
        [|by rewrite (proj1 (wfm_target m W)), (proj1 (wfm_target m' W'))].
      apply app_inj_len in H as [He Hs]; [|by rewrite !le_bytes_length].
      apply le_bytes_inj in Hd; [|apply u32_range..].
      apply u32_inj_int32 in Hd; [|by apply W|by apply W'].
      apply le_bytes_inj in He; [|by apply W|by apply W'].
      apply le_bytes_inj in Hs; [|by apply W|by apply W'].
      by repeat split.
    + intros (-> & -> & -> & -> & -> & -> & ->). done.
  - split.
    + intros H. apply app_inj_len in H as [He H]; [|by rewrite !le_bytes_length].
      apply app_inj_len in H as [Hs Ho]; [|by rewrite !le_bytes_length].
      apply le_bytes_inj in He; [|by apply W|by apply W'].
      apply le_bytes_inj in Hs; [|by apply W|by apply W']. done.
    + by intros (-> & -> & ->).
Qed.

Lemma aad_nonce_injective_witness :
  length (buildAad mesh_message_zero) = E2E_AAD_LEN ∧
  length (buildNonce mesh_message_zero) = E2E_NONCE_LEN ∧
  (buildAad mesh_message_zero = buildAad (relay_step (demo_mac 3) mesh_message_zero) ↔
     same_header mesh_message_zero (relay_step (demo_mac 3) mesh_message_zero)) ∧
  (buildNonce mesh_message_zero = buildNonce (relay_step (demo_mac 3) mesh_message_zero) ↔
     0 = 0 ∧ 0 = 0 ∧ ZERO_MAC = ZERO_MAC).
Proof.
  apply (aad_nonce_injective mesh_message_zero (relay_step (demo_mac 3) mesh_message_zero)).
  - exact mesh_message_zero_wf.
  - destruct mesh_message_zero_wf. split; try assumption;
      first [apply demo_mac_bytes; unfold is_byte; lia | cbn; lia].
Defined.

Section Laws.
Context {E : Env} {C : Crypto} {L : CryptoLawful C}.

Lemma sealed_opens key m sealed seen :
  sealPayload key m = Some sealed →
  same_header seen sealed → data seen = data sealed → auth_tag seen = auth_tag sealed →
  openPayload key seen = Some (set_data (data m) seen).
Proof.
  unfold sealPayload, openPayload. intros Hs Hh Hd Ht.
  destruct (mb_seal _ _ _ _) as [[c t]|] eqn:Es; [|done]. simplify_eq.
  rewrite Hd, Ht, (buildNonce_proper _ _ Hh), (buildAad_proper _ _ Hh).
  rewrite (buildNonce_proper _ m), (buildAad_proper _ m) by (by repeat split).
  cbn [data auth_tag set_auth_tag set_data].
  by rewrite (open_seal _ _ _ _ _ _ Es).
Qed.

(** A sealed frame opens, at whoever holds the key, to exactly the sealed
    payload, whatever the relays did to the hop, route and chain-MAC fields. *)
Theorem seal_relay_open key m sealed seen :
  sealPayload key m = Some sealed →
  same_header seen sealed → data seen = data sealed → auth_tag seen = auth_tag sealed →
  openPayload key seen = Some (set_data (data m) seen).
Proof. apply sealed_opens. Qed.

(** Converse: whatever opens was produced by sealing the opened payload under
    the same key and header. *)
Lemma open_is_sealed key m opened :
  openPayload key m = Some opened →
  ∃ sealed, sealPayload key opened = Some sealed ∧ data sealed = data m ∧
            auth_tag sealed = auth_tag m ∧ same_header opened m.
Proof.
  unfold sealPayload, openPayload.
  destruct (mb_open _ _ _ _ _) as [p|] eqn:Eo; [|done]. intros [= <-].
  apply seal_open in Eo.
  rewrite (buildNonce_proper _ _ (set_data_header p m)), (buildAad_proper _ _ (set_data_header p m)).
  cbn [data set_data].
  rewrite Eo. eexists. split_and!; [done..|]. by repeat split.
Qed.

(** Two devices whose stored public keys are the images of their private keys
    derive the same pair. *)
Definition is_keypair (priv pub : bytes) : Prop :=
  length priv = 32%nat ∧ length pub = 32%nat ∧
  reverse32 pub = x25519_public (reverse32 priv).

(** Node and master derive the same direction keys: each from its own private
    key and the other's public key, in the big-endian form both are stored in. *)
Theorem derive_agree privA pubA privB pubB w :
  is_keypair privA pubA → is_keypair privB pubB →
  derived privA pubB = derived privB pubA ∧
  (∀ k, deriveE2EKeys privA pubB w = Ok k w → deriveE2EKeys privB pubA w = Ok k w).
Proof.
  intros (_ & _ & HA) (_ & _ & HB).
  assert (derived privA pubB = derived privB pubA) as Hd.
  { unfold derived, x25519_shared. by rewrite HA, HB, x25519_agree. }
  split; [done|]. intros k Hk.
  pose proof (deriveE2EKeys_run privA pubB w) as H1.
  pose proof (deriveE2EKeys_run privB pubA w) as H2. rewrite Hd in H1.
  destruct (derived privB pubA) as [k'|].
  - rewrite H2. congruence.
  - destruct H1 as [w' H1]. congruence.
Qed.
End Laws.

(** * A concrete lawful backend, for witnesses *)
Definition sum8 (l : bytes) : Z := u8 (fold_left Z.add l 0).

Definition toy_seal (k n a p : bytes) : bytes * bytes :=
  let c := (Z.lxor (hd 0 k)) <$> p in (c, replicate 16 (sum8 (k ++ n ++ a ++ c))).

Definition toy_crypto : Crypto := {|
  mb_x25519 := λ a b, Some (zip_with (λ x y, u8 (x + y)) a b);
  mb_hkdf := λ ikm info n, Some (resize n 0 ((λ b, u8 (b + Z.of_nat (length info))) <$> ikm));
  mb_hmac := λ k d, Some (replicate 32 (sum8 (k ++ d)));
  mb_seal := λ k n a p, Some (toy_seal k n a p);
  mb_open := λ k n a c t,
    if bool_decide (t = replicate 16 (sum8 (k ++ n ++ a ++ c)))
    then Some ((Z.lxor (hd 0 k)) <$> c) else None
|}.

Lemma lxor_fmap_involutive k (l : bytes) : Z.lxor k <$> (Z.lxor k <$> l) = l.
Proof.
  rewrite <- list_fmap_compose. rewrite <- (list_fmap_id l) at 2. apply list_fmap_ext.
  intros _ x _. cbn. by rewrite <- Z.lxor_assoc, Z.lxor_nilpotent, Z.lxor_0_l.
Qed.

#[export] Instance toy_lawful : CryptoLawful toy_crypto.
Proof.
  refine {| x25519_public := λ b, b |}; cbn.
  - intros a b. f_equal. revert b. induction a as [|x a IH]; intros [|y b]; cbn; [done..|].
    by rewrite IH, Z.add_comm.
  - unfold toy_seal. intros k n a p c t [= <- <-]. rewrite bool_decide_true by done.
    by rewrite lxor_fmap_involutive.
  - unfold toy_seal. intros k n a p c t H. case_bool_decide as Ht; [|done].
    injection H as <-. by rewrite lxor_fmap_involutive, Ht.
  - unfold toy_seal. intros k n a p c t [= <- <-].
    split; [apply length_fmap|done].
  - by intros k d m [= <-].
Defined.

Lemma seal_relay_open_witness :
  let m := set_data (replicate 64 9) mesh_message_zero in
  match @sealPayload toy_crypto (replicate 32 5) m with
  | Some sealed =>
      @openPayload toy_crypto (replicate 32 5) (relay_step (demo_mac 4) sealed)
      = Some (set_data (data m) (relay_step (demo_mac 4) sealed))
  | None => False
  end.
Proof.
  cbv zeta. set (m := set_data (replicate 64 9) mesh_message_zero).
  apply (@seal_relay_open toy_crypto toy_lawful (replicate 32 5) m
    (set_auth_tag (toy_seal (replicate 32 5) (buildNonce m) (buildAad m) (data m)).2
       (set_data (toy_seal (replicate 32 5) (buildNonce m) (buildAad m) (data m)).1 m)));
    [reflexivity|by repeat split|reflexivity|reflexivity].
Defined.

Lemma derive_agree_witness :
  @derived toy_crypto (replicate 32 5) (replicate 32 6)
    = @derived toy_crypto (replicate 32 6) (replicate 32 5) ∧
  (∀ k, @deriveE2EKeys toy_crypto (replicate 32 5) (replicate 32 6) ref_world = Ok k ref_world →
        @deriveE2EKeys toy_crypto (replicate 32 6) (replicate 32 5) ref_world = Ok k ref_world).
Proof.
  apply (@derive_agree toy_crypto toy_lawful (replicate 32 5) (replicate 32 5)
           (replicate 32 6) (replicate 32 6)); split_and!; reflexivity.
Defined.
