(* ===== verification/Enrollment.v ===== *)
(** [mesh/Enrollment] and [mesh/PeerEnrollment]: device identity, the enrolled
    flag, trust-on-first-use of the master's MAC, the JOIN_ACK gates, and peer
    registration with a key.

    The pinned master identity is generated at deployment
    (config/master_pubkey_pin.h) and is a parameter (class [Pin]); the test-only
    pin bypass is compiled out of the firmware. *)
From S2P Require Import Prelude Config MacTable Wire Platform ErrorCore Eeprom PeerRegistry.
From S2P Require Import Transport Crypto.

Class Pin := {
  MASTER_PUBKEY : bytes;
  MASTER_MAC : mac
}.

Record Enrollment := Enroll {
  devicePrivateKey : bytes;
  devicePublicKey : bytes;
  hasMasterMac : bool;
  knownMasterMac : mac;
  hasMasterMacSecondary : bool;
  knownMasterMacSecondary : mac;
  enrolled : bool;
  relayQueue : list RelayEntry
}.

(** The constructor. *)
Definition enrollment_new : Enrollment :=
  Enroll (zeros 32) (zeros 32) false BROADCAST_MAC false BROADCAST_MAC false [].

Definition with_primary (e : Enrollment) (m : mac) : Enrollment :=
  Enroll (devicePrivateKey e) (devicePublicKey e) true m (hasMasterMacSecondary e)
    (knownMasterMacSecondary e) (enrolled e) (relayQueue e).
Definition with_secondary (e : Enrollment) (m : mac) : Enrollment :=
  Enroll (devicePrivateKey e) (devicePublicKey e) (hasMasterMac e) (knownMasterMac e) true m
    (enrolled e) (relayQueue e).
Definition with_enrolled (e : Enrollment) : Enrollment :=
  Enroll (devicePrivateKey e) (devicePublicKey e) (hasMasterMac e) (knownMasterMac e)
    (hasMasterMacSecondary e) (knownMasterMacSecondary e) true (relayQueue e).
Definition with_queue (e : Enrollment) (q : list RelayEntry) : Enrollment :=
  Enroll (devicePrivateKey e) (devicePublicKey e) (hasMasterMac e) (knownMasterMac e)
    (hasMasterMacSecondary e) (knownMasterMacSecondary e) (enrolled e) q.

Definition isEnrolled (e : Enrollment) : bool := enrolled e.

Section Enrollment.
Context {E : Env} {Pr : Protocol} {Pn : Pin}.

Definition enrollment_init (e : Enrollment) : W Enrollment :=
  let* (p, pub) := loadKeypair (devicePrivateKey e) (devicePublicKey e) in
  let (loaded, priv) := p : bool * bytes in
  let* (priv', pub') :=
    (if loaded then wret (priv, pub)
     else
       let* (npriv, npub) := generateKeypair in
       saveKeypair npriv npub ;;; wret (npriv, npub)) in
  let* (has1, m1) := loadKnownMasterMac (knownMasterMac e) in
  let* (has2, m2) := loadKnownMasterMacSecondary (knownMasterMacSecondary e) in
  flag <- loadEnrolledFlag ;;
  wret (Enroll priv' pub' has1 m1 has2 m2 flag (relayQueue e)).

(** The frame [sendRequest] builds. *)
Definition enrollment_request (e : Enrollment) (deviceMac : mac) (protoVersion epochNum seqNum : Z)
    : mesh_message :=
  {| proto_version := protoVersion;
     message_type := MESH_TYPE_ENROLLMENT;
     data_type := UNKNOWN_ADAPTER;
     origin_mac_address := deviceMac;
     target_mac_address := BROADCAST_MAC;
     last_hop_mac_address := deviceMac;
     data := zeros 64;
     hop_count := 0;
     epoch_num := epochNum;
     seq_num := seqNum;
     enrollment_public_key := devicePublicKey e;
     route_len := 0;
     route_path := zeros 48;
     auth_tag := zeros 16;
     auth_path := zeros 8 |}.

Definition sendRequest (e : Enrollment) (deviceMac : mac) (protoVersion epochNum seqNum : Z)
    : W unit :=
  sendBroadcast (enrollment_request e deviceMac protoVersion epochNum seqNum) ;;; wret tt.

(** [processRequest] and [setPendingRelay] both queue the request. *)
Definition setPendingRelay (e : Enrollment) (m : mac) (pubKey : bytes) : Enrollment :=
  with_queue e (relay_push (relayQueue e) m pubKey).
Definition processRequest (e : Enrollment) (msg : mesh_message) : Enrollment :=
  setPendingRelay e (origin_mac_address msg) (enrollment_public_key msg).

Definition drainPendingRelay (fn : option (mac → bytes → W unit)) (e : Enrollment)
    : W Enrollment :=
  q <- drainTo fn (relayQueue e) ;; wret (with_queue e q).

Definition learnMasterMac (e : Enrollment) (m : mac) : W Enrollment :=
  saveKnownMasterMac m ;;; wret (with_primary e m).
Definition learnSecondaryMasterMac (e : Enrollment) (m : mac) : W Enrollment :=
  saveKnownMasterMacSecondary m ;;; wret (with_secondary e m).

(** [Enrollment::enrollPeer] with the null [registerFn] every caller passes. *)
Definition enrollPeer_espnow (m : mac) : W unit :=
  known <- esp_now_is_peer_exist m ;;
  (if known then esp_now_del_peer m ;;; wret tt else wret tt) ;;;
  registerPeerWithEspNow m.

(** [mesh::registerPeerWithKey]. *)
Definition registerPeerWithKey (m : mac) (publicKey32 : bytes) (allowRekey : bool)
    (peers : PeerRegistry) : W (bool * PeerRegistry) :=
  let finish (peers' : PeerRegistry) :=
    saveToEEPROM peers' ;;; enrollPeer_espnow m ;;; wret (true, peers') in
  match peer_index peers m with
  | Some i =>
      let p := default (Peer m [] 0) (peerMacs peers !! i) in
      let keyEstablished := negb (is_zero (publicKey p)) in
      if negb allowRekey && keyEstablished then
        now <- now_ms ;;
        wret (true, with_peers peers (alter (set_seen now) i (peerMacs peers)))
      else
        now <- now_ms ;;
        finish (with_peers peers
                  (alter (λ p, set_seen now (set_key publicKey32 p)) i (peerMacs peers)))
  | None =>
      if (MAX_PEERS <=? count peers)%nat then wret (false, peers)
      else
        now <- now_ms ;;
        finish (append peers (Peer m publicKey32 now)).2
  end.

(** [mesh::addPeer]. *)
Definition addPeer (m : mac) (peers : PeerRegistry) : W PeerRegistry :=
  peers' <- addAndPersist peers m ;;
  if (count peers <? count peers')%nat then
    match peerMacs peers' !! (count peers' - 1)%nat with
    | Some p => registerPeerWithEspNow (p_mac p) ;;; wret peers'
    | None => wret peers'
    end
  else wret peers'.

Definition RegisterPeerFn : Type := mac → bytes → PeerRegistry → W (bool * PeerRegistry).

(** [registerPeerWithKeyTrampoline]. *)
Definition registerPeerWithKeyTrampoline : RegisterPeerFn :=
  λ m k peers, registerPeerWithKey m k false peers.

(** The JOIN_ACK checks that precede any state change. *)
Definition join_ack_gates (e : Enrollment) (msg : mesh_message) : bool :=
  let fingerprint := bool_decide (take 4 (data msg) = take 4 (devicePublicKey e)) in
  let pinned := DEV_MODE || bool_decide (enrollment_public_key msg = MASTER_PUBKEY) in
  let tofu := negb (hasMasterMac e && negb (mac_eq (origin_mac_address msg) (knownMasterMac e))) in
  fingerprint && pinned && tofu.

(** The secondary-master tail of [processJoinAck]. *)
Definition join_ack_secondary (registerFn : option RegisterPeerFn) (msg : mesh_message)
    (e : Enrollment) (peers : PeerRegistry) : W (Enrollment * PeerRegistry) :=
  let secondaryMasterMac := slice 4 6 (data msg) in
  let secondaryPublicKey := slice 10 32 (data msg) in
  if is_zero secondaryMasterMac then wret (e, peers)
  else
    let* (ok, peers') :=
      match registerFn with
      | Some f => f secondaryMasterMac secondaryPublicKey peers
      | None => wret (false, peers)
      end in
    if ok && negb (hasMasterMacSecondary e) then
      e' <- learnSecondaryMasterMac e secondaryMasterMac ;; wret (e', peers')
    else wret (e, peers').

Definition processJoinAck (e : Enrollment) (msg : mesh_message)
    (registerFn : option RegisterPeerFn) (peers : PeerRegistry) : W (Enrollment * PeerRegistry) :=
  if negb (join_ack_gates e msg) then wret (e, peers)
  else
    let* (ok, peers1) :=
      match registerFn with
      | Some f => f (origin_mac_address msg) (enrollment_public_key msg) peers
      | None => wret (true, peers)
      end in
    if negb ok then wret (e, peers1)
    else
      saveEnrolledFlag true ;;;
      let e1 := with_enrolled e in
      e2 <- (if negb (hasMasterMac e1) then learnMasterMac e1 (origin_mac_address msg)
             else wret e1) ;;
      join_ack_secondary registerFn msg e2 peers1.

(** [mesh::dispatchJoinAck]. *)
Definition dispatchJoinAck (msg : mesh_message) (deviceMac : mac) (isMaster : bool)
    (e : Enrollment) (registerFn : option RegisterPeerFn) (peers : PeerRegistry)
    : W (Enrollment * PeerRegistry) :=
  if negb (mac_eq (target_mac_address msg) deviceMac) then
    if mac_eq (origin_mac_address msg) deviceMac then wret (e, peers)
    else if MAX_HOPS <=? hop_count msg then wret (e, peers)
    else sendBroadcast (relay_step deviceMac msg) ;;; wret (e, peers)
  else if isMaster then wret (e, peers)
  else processJoinAck e msg registerFn peers.
End Enrollment.

(** * Registration never replaces an established key *)

Definition established (r : PeerRegistry) (m : mac) (k : bytes) : Prop :=
  ∃ p, peer_find r m = Some p ∧ publicKey p = k ∧ is_zero k = false.

(** Every established key of [r] is the same in [r']. *)
Definition keeps_keys (r r' : PeerRegistry) : Prop :=
  ∀ m k, established r m k → established r' m k.

#[export] Instance keeps_keys_preorder : PreOrder keeps_keys.
Proof. split; [by intros r m k|]. intros r1 r2 r3 H1 H2 m k H. by apply H2, H1. Qed.

Lemma peer_find_append r p m :
  registry_wf r → peer_index r (p_mac p) = None → (count r < MAX_PEERS)%nat →
  peer_find (append r p).2 m = if mac_eq m (p_mac p) then Some p else peer_find r m.
Proof.
  intros W Hn Hc. pose proof (append_wf r p W Hn) as W'.
  apply option_eq. intros q. rewrite (peer_find_Some _ _ _ W'). unfold append.
  destruct (Nat.leb_spec MAX_PEERS (count r)); [lia|]. cbn.
  rewrite elem_of_app, elem_of_cons. destruct (mac_eq m (p_mac p)) eqn:Em; mac_cases.
  - subst m. split; [|naive_solver]. intros [[Hq|[->|Hq]] Hm]; [|done|by apply elem_of_nil in Hq].
    apply peer_index_None in Hn. exfalso. apply Hn. rewrite <- Hm. by apply list_elem_of_fmap_2.
  - rewrite (peer_find_Some _ _ _ W). set_solver.
Qed.

Lemma peer_find_alter r (i : nat) f p m :
  registry_wf r → (∀ q, p_mac (f q) = p_mac q) → peerMacs r !! i = Some p →
  peer_find (with_peers r (alter f i (peerMacs r))) m =
  if mac_eq m (p_mac p) then Some (f p) else peer_find r m.
Proof.
  intros W Hf Hp. pose proof (alter_wf f i r Hf W) as W'.
  apply option_eq. intros q. rewrite (peer_find_Some _ _ _ W'). cbn.
  assert (q ∈ alter f i (peerMacs r) ↔
          q = f p ∨ (q ∈ peerMacs r ∧ p_mac q ≠ p_mac p)) as Hin.
  { split.
    - intros [j Hj]%list_elem_of_lookup. destruct (decide (j = i)) as [->|Hne].
      + rewrite list_lookup_alter_eq, Hp in Hj. left. by simplify_eq/=.
      + rewrite list_lookup_alter_ne in Hj by done. right. split; [by eapply list_elem_of_lookup_2|].
        intros Hm. apply Hne. apply (NoDup_lookup (p_mac <$> peerMacs r) j i (p_mac p));
          [by apply W|..]; apply list_lookup_fmap_Some; naive_solver.
    - intros [->|[[j Hj]%list_elem_of_lookup Hne]].
      + apply (list_elem_of_lookup_2 _ i). by rewrite list_lookup_alter_eq, Hp.
      + apply (list_elem_of_lookup_2 _ j). rewrite list_lookup_alter_ne; [done|].
        intros <-. by simplify_eq. }
  rewrite Hin. destruct (mac_eq m (p_mac p)) eqn:Em; mac_cases.
  - subst m. split; [|intros [= <-]; by rewrite Hf; auto]. intros [[->|[_ Hq]] Hm]; done.
  - rewrite (peer_find_Some _ _ _ W). split; [|naive_solver].
    intros [[->|[Hq _]] Hm]; [|done]. exfalso. by rewrite Hf in Hm.
Qed.

Section props.
Context {E : Env} {Pr : Protocol} {Pn : Pin}.

Definition registered_ok (peers : PeerRegistry) (m : mac) (key : bytes)
    (r : bool * PeerRegistry) : Prop :=
  registry_wf r.2 ∧ keeps_keys peers r.2 ∧ deviceMac r.2 = deviceMac peers ∧
  (r.1 = true → ∃ p, peer_find r.2 m = Some p ∧
     ((∃ k, established peers m k ∧ publicKey p = k) ∨
      ((∀ k, ¬ established peers m k) ∧ publicKey p = key))) ∧
  (r.1 = false → peer_index peers m = None ∧ count peers = MAX_PEERS ∧ r.2 = peers).

Lemma registerPeer_effect m key peers w :
  registry_wf peers →
  wp (registerPeerWithKey m key false peers) w (λ r _, registered_ok peers m key r)
    (λ _, True).
Proof.
  intros W. unfold registerPeerWithKey.
  destruct (peer_index peers m) as [i|] eqn:Hi.
  - apply (peer_index_Some _ _ _ W) in Hi as (p & Hp & Hm). rewrite Hp. cbn [default from_option id].
    assert (peer_find peers m = Some p) as Hfind.
    { apply peer_find_Some; [done|]. split; [by eapply list_elem_of_lookup_2|done]. }
    destruct (is_zero (publicKey p)) eqn:Hz0; cbn [negb andb]; apply wp_any; intros now w1.
    + do 2 (apply wp_any; intros [] ?). apply wp_ret. unfold registered_ok; cbn [fst snd].
      pose proof (peer_find_alter peers i (λ q, set_seen now (set_key key q)) p) as Hpf.
      split_and!; [by apply alter_wf| |done| |done].
      * intros m' k (q & Hq & Hk & Hz). exists q. rewrite Hpf by done.
        destruct (mac_eq m' (p_mac p)) eqn:Em; [|done]. mac_cases. subst. simplify_eq. congruence.
      * intros _. eexists. rewrite Hpf by done. rewrite <- Hm, mac_eq_refl. split; [done|].
        right. split; [|done]. intros k (q & Hq & Hk & Hz). subst. simplify_eq. congruence.
    + apply wp_ret. unfold registered_ok; cbn [fst snd].
      pose proof (peer_find_alter peers i (set_seen now) p) as Hpf.
      split_and!; [by apply alter_wf| |done| |done].
      * intros m' k (q & Hq & Hk & Hz). rewrite <- Hk. unfold established. rewrite Hpf by done.
        destruct (mac_eq m' (p_mac p)) eqn:Em; [|subst; by eauto]. mac_cases. subst. simplify_eq.
        by exists (set_seen now p).
      * intros _. exists (set_seen now p). rewrite Hpf, <- Hm, mac_eq_refl by done.
        split; [done|]. left. exists (publicKey p). split; [|done]. exists p. by subst.
  - destruct (Nat.leb_spec MAX_PEERS (count peers)) as [Hc|Hc].
    + apply wp_ret. unfold registered_ok; cbn [fst snd]. pose proof (rwf_bound _ W).
      split_and!; [done|done|done|done|]. intros _. split_and!; [done|lia|done].
    + apply wp_any; intros now w1. do 2 (apply wp_any; intros [] ?). apply wp_ret.
      unfold registered_ok; cbn [fst snd].
      pose proof (λ m', peer_find_append peers (Peer m key now) m' W Hi Hc) as Hpf. cbn in Hpf.
      assert (∀ k, ¬ established peers m k) as Hnone.
      { intros k (q & Hq & _). apply peer_find_None in Hi. congruence. }
      split_and!; [by apply append_wf| | | |done].
      * intros m' k (q & Hq & Hk & Hz). exists q. rewrite Hpf.
        destruct (mac_eq m' m) eqn:Em; [|done]. mac_cases. subst m'.
        apply peer_find_None in Hi. congruence.
      * unfold append. by destruct (_ <=? _)%nat.
      * intros _. exists (Peer m key now). rewrite Hpf, mac_eq_refl. auto.
Qed.

(** Over-the-air registration never re-keys a peer: with [allowRekey = false]
    every established key of the registry survives unchanged; on success the
    peer is routable, under its established key if it had one and under the
    offered key otherwise; it fails only for a new peer of a full registry. *)
Theorem registerPeerWithKey_no_rekey m key peers w r w' :
  registry_wf peers → registerPeerWithKey m key false peers w = Ok r w' →
  registered_ok peers m key r.
Proof. intros W Hr. exact (wp_Ok _ _ _ _ _ _ (registerPeer_effect m key peers w W) Hr). Qed.

(** What an accepted JOIN_ACK may do to the enrollment state. *)
Definition joined (e : Enrollment) (msg : mesh_message) (e' : Enrollment) : Prop :=
  enrolled e' = true ∧ hasMasterMac e' = true ∧
  knownMasterMac e' = (if hasMasterMac e then knownMasterMac e else origin_mac_address msg) ∧
  (hasMasterMacSecondary e = true →
     hasMasterMacSecondary e' = true ∧ knownMasterMacSecondary e' = knownMasterMacSecondary e) ∧
  devicePrivateKey e' = devicePrivateKey e ∧ devicePublicKey e' = devicePublicKey e.

(** Everything a JOIN_ACK must satisfy before it changes any state. *)
Definition join_ack_admissible (e : Enrollment) (deviceMac : mac) (isMaster : bool)
    (msg : mesh_message) : Prop :=
  target_mac_address msg = deviceMac ∧ isMaster = false ∧
  take 4 (data msg) = take 4 (devicePublicKey e) ∧
  enrollment_public_key msg = MASTER_PUBKEY ∧
  (hasMasterMac e = true → origin_mac_address msg = knownMasterMac e).

Lemma gates_admissible e msg :
  join_ack_gates e msg = true →
  take 4 (data msg) = take 4 (devicePublicKey e) ∧ enrollment_public_key msg = MASTER_PUBKEY ∧
  (hasMasterMac e = true → origin_mac_address msg = knownMasterMac e).
Proof.
  unfold join_ack_gates. intros [[H1 H2]%andb_true_iff H3]%andb_true_iff.
  apply bool_decide_eq_true in H1. cbn in H2. apply bool_decide_eq_true in H2.
  split_and!; [done..|]. intros Hm. rewrite Hm in H3. cbn in H3.
  apply negb_true_iff, negb_false_iff in H3. by mac_cases.
Qed.

Lemma learnMaster_wp e m w :
  wp (learnMasterMac e m) w (λ e' _, e' = with_primary e m) (λ _, True).
Proof. unfold learnMasterMac. apply wp_any. intros [] w'. by apply wp_ret. Qed.

Lemma learnSecondary_wp e m w :
  wp (learnSecondaryMasterMac e m) w (λ e' _, e' = with_secondary e m) (λ _, True).
Proof. unfold learnSecondaryMasterMac. apply wp_any. intros [] w'. by apply wp_ret. Qed.

Lemma join_ack_secondary_effect msg e peers w :
  registry_wf peers →
  wp (join_ack_secondary (Some registerPeerWithKeyTrampoline) msg e peers) w
    (λ r _, (r.1 = e ∨ hasMasterMacSecondary e = false ∧ ∃ m, r.1 = with_secondary e m) ∧
            registry_wf r.2 ∧ keeps_keys peers r.2) (λ _, True).
Proof.
  intros W. unfold join_ack_secondary. destruct (is_zero _); [apply wp_ret; split_and!; [by left|done|done]|].
  apply wp_bind. eapply wp_mono; [by apply registerPeer_effect| |done]. cbn.
  intros [ok peers'] w1 (W' & K & _). cbn in *.
  destruct (ok && negb (hasMasterMacSecondary e)) eqn:Hb;
    [|apply wp_ret; split_and!; [by left|done|done]].
  apply andb_true_iff in Hb as [_ Hb%negb_true_iff].
  apply wp_bind. eapply wp_mono; [apply learnSecondary_wp| |done]. intros e' w2 ->.
  apply wp_ret. split_and!; [|done|done]. right. split; [done|]. by eexists.
Qed.

Lemma processJoinAck_effect msg e peers w :
  registry_wf peers →
  wp (processJoinAck e msg (Some registerPeerWithKeyTrampoline) peers) w
    (λ r _, registry_wf r.2 ∧ keeps_keys peers r.2 ∧
       (r.1 = e ∨ (join_ack_gates e msg = true ∧ joined e msg r.1))) (λ _, True).
Proof.
  intros W. unfold processJoinAck. destruct (join_ack_gates e msg) eqn:G; cbn [negb].
  2:{ apply wp_ret. split_and!; [done|done|by left]. }
  apply wp_bind. eapply wp_mono; [by apply registerPeer_effect| |done]. cbn.
  intros [ok peers1] w1 (W1 & K1 & _). cbn in *.
  destruct ok; cbn [negb]; [|apply wp_ret; split_and!; [done|done|by left]].
  apply wp_any. intros [] w2. cbv zeta.
  set (e2 := if hasMasterMac e then with_enrolled e
             else with_primary (with_enrolled e) (origin_mac_address msg)).
  assert (∀ w', wp (join_ack_secondary (Some registerPeerWithKeyTrampoline) msg e2 peers1) w'
    (λ r _, registry_wf r.2 ∧ keeps_keys peers r.2 ∧ (r.1 = e ∨ true = true ∧ joined e msg r.1))
    (λ _, True)) as Htail.
  { intros w'. eapply wp_mono; [by apply join_ack_secondary_effect| |done]. cbn.
    intros r _ (Hr & Wr & Kr). split_and!; [done|by etrans|]. right. split; [done|].
    unfold e2 in Hr. unfold joined. destruct (hasMasterMac e) eqn:Hm, (hasMasterMacSecondary e) eqn:Hs;
      destruct Hr as [->|[Hs2 [m ->]]]; cbn in *; rewrite ?Hs, ?Hm in *; naive_solver. }
  revert Htail. unfold e2. cbn [hasMasterMac with_enrolled].
  destruct (hasMasterMac e) eqn:Hm; cbn [negb]; intros Htail.
  - apply wp_bind. apply (wp_ret (with_enrolled e)), Htail.
  - apply wp_bind. eapply wp_mono; [apply learnMaster_wp| |done]. intros ? w3 ->. apply Htail.
Qed.

(** C24. A JOIN_ACK changes the enrollment state only if it is addressed to this
    unenrolled-role device, carries this device's key fingerprint and the pinned
    master public key, and comes from the known master when one is known; then
    the node is enrolled and its master is the known one or, on first use, the
    ACK's origin; and no JOIN_ACK ever replaces an established peer key. *)
Theorem joinack_authentic msg dev isMaster e peers w r w' :
  registry_wf peers →
  dispatchJoinAck msg dev isMaster e (Some registerPeerWithKeyTrampoline) peers w = Ok r w' →
  registry_wf r.2 ∧ keeps_keys peers r.2 ∧
  (r.1 = e ∨ (join_ack_admissible e dev isMaster msg ∧ joined e msg r.1)).
Proof.
  intros W Hr. unfold dispatchJoinAck in Hr.
  assert (r = (e, peers) → registry_wf r.2 ∧ keeps_keys peers r.2 ∧
    (r.1 = e ∨ (join_ack_admissible e dev isMaster msg ∧ joined e msg r.1))) as Hsame.
  { intros ->. split_and!; [done|done|by left]. }
  destruct (mac_eq (target_mac_address msg) dev) eqn:Et; cbn [negb] in Hr.
  - destruct isMaster; [apply Hsame; by injection Hr as <- _|].
    pose proof (wp_Ok _ _ _ _ _ _ (processJoinAck_effect msg e peers w W) Hr)
      as (W' & K & [->|[G J]]); [by auto|].
    split_and!; [done|done|]. right. split; [|done].
    apply gates_admissible in G as (? & ? & ?). mac_cases. done.
  - destruct (mac_eq (origin_mac_address msg) dev); [apply Hsame; by injection Hr as <- _|].
    destruct (MAX_HOPS <=? hop_count msg); [apply Hsame; by injection Hr as <- _|].
    unfold wbind, sendBroadcast, esp_now_send, ask, emit, wret in Hr. apply Hsame.
    by injection Hr as <- _.
Qed.

(** The JOIN_ACK relay: only foreign ACKs below the hop limit are re-broadcast. *)
Lemma dispatchJoinAck_relay msg dev isMaster e f peers w :
  target_mac_address msg ≠ dev →
  ∃ w', dispatchJoinAck msg dev isMaster e f peers w = Ok (e, peers) w' ∧
    sent_frames (w_trace w') =
    (if mac_eq (origin_mac_address msg) dev then []
     else if MAX_HOPS <=? hop_count msg then []
     else [(BROADCAST_MAC, relay_step dev msg)]) ++ sent_frames (w_trace w).
Proof.
  intros Ht%mac_eq_false. unfold dispatchJoinAck. rewrite Ht. cbn [negb].
  destruct (mac_eq (origin_mac_address msg) dev); [by exists w|].
  destruct (MAX_HOPS <=? hop_count msg); [by exists w|]. by eexists.
Qed.
End props.

(** JOIN_ACK is not a sealed type and carries no signature: whoever knows the
    public values (the pinned master key, the node's key fingerprint, and the
    master's MAC once it is known) builds an ACK that passes every gate, with a
    secondary master of its choice. *)
Definition forged_ack `{Protocol, Pin} (e : Enrollment) (origin secondaryMac secondaryKey : bytes)
    : mesh_message :=
  set_data (take 4 (devicePublicKey e) ++ secondaryMac ++ secondaryKey ++ zeros 22)
    (MeshMessage PROTO_VERSION MESH_TYPE_JOIN_ACK 0 origin BROADCAST_MAC origin (zeros 64) 0 1 1
       MASTER_PUBKEY 0 (zeros 48) (zeros 16) (zeros 8)).

Lemma join_ack_forgeable `{Protocol, Pin} e origin m2 k2 :
  length (devicePublicKey e) = 32%nat → (hasMasterMac e = true → origin = knownMasterMac e) →
  join_ack_gates e (forged_ack e origin m2 k2) = true.
Proof.
  intros Hl Ho. unfold join_ack_gates, forged_ack. cbn [data set_data enrollment_public_key
    origin_mac_address].
  rewrite take_app_length' by (rewrite length_take; lia).
  rewrite !bool_decide_true by done. rewrite orb_true_r. cbn [andb].
  destruct (hasMasterMac e); [|done]. by rewrite Ho, mac_eq_refl by done.
Qed.

Definition demo_pin : Pin := {| MASTER_PUBKEY := replicate 32 8; MASTER_MAC := demo_mac 7 |}.

Definition demo_leaf : Enrollment :=
  Enroll (replicate 32 3) (replicate 32 4) false BROADCAST_MAC false BROADCAST_MAC false [].

(** A JOIN_ACK from the pinned master to [demo_mac 1]. *)
Definition demo_ack : mesh_message :=
  MeshMessage PROTO_VERSION 4 0 (demo_mac 7) (demo_mac 1) (demo_mac 7)
    (replicate 4 4 ++ zeros 60) 0 2 5 (replicate 32 8) 0 (zeros 48) (zeros 16) (zeros 8).

Lemma joinack_authentic_witness :
  ∃ r w', @dispatchJoinAck ref_env demo_pin demo_ack (demo_mac 1) false demo_leaf
      (Some (@registerPeerWithKeyTrampoline ref_env)) registry_empty ref_world = Ok r w' ∧
    enrolled r.1 = true ∧
    registry_wf r.2 ∧ keeps_keys registry_empty r.2 ∧
    (r.1 = demo_leaf ∨ (@join_ack_admissible demo_pin demo_leaf (demo_mac 1) false demo_ack ∧
                        joined demo_leaf demo_ack r.1)).
Proof.
  eexists _, _. split; [vm_compute; reflexivity|]. split; [reflexivity|].
  eapply (@joinack_authentic ref_env demo_pin demo_ack (demo_mac 1) false demo_leaf
            registry_empty ref_world); [exact registry_empty_wf|vm_compute; reflexivity].
Defined.

Lemma registerPeerWithKey_no_rekey_witness :
  ∃ r w', @registerPeerWithKey ref_env (demo_mac 1) (replicate 32 9) false demo_registry ref_world
          = Ok r w' ∧
    (publicKey <$> peer_find r.2 (demo_mac 1)) = Some (replicate 32 5) ∧
    registered_ok demo_registry (demo_mac 1) (replicate 32 9) r.
Proof.
  eexists _, _. split; [vm_compute; reflexivity|]. split; [reflexivity|].
  eapply (@registerPeerWithKey_no_rekey ref_env (demo_mac 1) (replicate 32 9) demo_registry ref_world);
    [exact demo_registry_wf|vm_compute; reflexivity].
Defined.
