(* ===== verification/KeyStore.v ===== *)
(** [mesh/E2EKeyStore.h] and [mesh/E2EKeyLookup.h]: the cache of derived E2E key
    pairs and the two lookups every seal and open goes through.

    The code returns pointers into the cache, valid until the next eviction, and
    its callers use them at once; the model returns the pair by value. *)
From S2P Require Import Prelude Config MacTable Wire Platform ErrorCore Eeprom PeerRegistry.
From S2P Require Import Transport Crypto Enrollment.

Record kentry := KEntry {
  k_mac : mac;
  k_valid : bool;
  kUp : bytes;
  kDown : bytes
}.

Record E2EKeyStore := KeyStore {
  k_entries : list kentry;     (* capacity_ is the length *)
  nextSlot : nat
}.

Definition kentry_zero : kentry := KEntry ZERO_MAC false (zeros 32) (zeros 32).
Definition keystore_of_capacity (n : nat) : E2EKeyStore := KeyStore (replicate n kentry_zero) 0.
Definition keystore_new : E2EKeyStore := keystore_of_capacity LATTICE_E2E_KEYCACHE_MAX.
Definition capacity_ (ks : E2EKeyStore) : nat := length (k_entries ks).

Definition setCapacity (ks : E2EKeyStore) (maxEntries : nat) : E2EKeyStore :=
  if (maxEntries =? capacity_ ks)%nat then ks else keystore_of_capacity maxEntries.

(** [clear]. *)
Definition keystore_clear (ks : E2EKeyStore) : E2EKeyStore := keystore_of_capacity (capacity_ ks).

Section KeyStore.
Context {E : Env} {C : Crypto}.

Definition getKeys (ks : E2EKeyStore) (m : mac) (ownPriv32 : bytes) (peerPub32 : option bytes)
    : W (option (bytes * bytes) * E2EKeyStore) :=
  if (capacity_ ks =? 0)%nat then wret (None, ks)
  else
    let derive :=
      match peerPub32 with
      | None => wret (None, ks)
      | Some pub =>
          if is_zero pub then wret (None, ks)
          else
            let* (u, d) := deriveE2EKeys ownPriv32 pub in
            wret (Some (u, d),
                  KeyStore (<[nextSlot ks := KEntry m true u d]> (k_entries ks))
                    ((nextSlot ks + 1) mod capacity_ ks))
      end in
    match find k_mac (k_entries ks) m with
    | Some idx =>
        match k_entries ks !! idx with
        | Some e => if k_valid e then wret (Some (kUp e, kDown e), ks) else derive
        | None => derive
        end
    | None => derive
    end.

(** [masterE2EKeys] (leaf side) and [peerE2EKeys] (master side). *)
Definition masterE2EKeys (currentMaster : MasterInfo) (peers : PeerRegistry) (en : Enrollment)
    (ks : E2EKeyStore) : W (option (bytes * bytes) * E2EKeyStore) :=
  if negb (hasMasterMac en) then wret (None, ks)
  else
    match peer_find peers (m_mac currentMaster) with
    | None => wret (None, ks)
    | Some master => getKeys ks (p_mac master) (devicePrivateKey en) (Some (publicKey master))
    end.

Definition peerE2EKeys (originMac : mac) (peers : PeerRegistry) (en : Enrollment)
    (ks : E2EKeyStore) : W (option (bytes * bytes) * E2EKeyStore) :=
  match peer_find peers originMac with
  | None => wret (None, ks)
  | Some peer => getKeys ks (p_mac peer) (devicePrivateKey en) (Some (publicKey peer))
  end.
End KeyStore.

(** * The cache agrees with the registry

    [fresh_cache own peers ks]: every cached pair of a registered peer is the one
    its current public key derives. *)
Section Fresh.
Context {E : Env} {C : Crypto}.

Definition fresh_cache (own : bytes) (peers : PeerRegistry) (ks : E2EKeyStore) : Prop :=
  ∀ i e, k_entries ks !! i = Some e → k_valid e = true →
    ∃ pub, established peers (k_mac e) pub ∧ derived own pub = Some (kUp e, kDown e).

(** What a lookup of [m] must return: the derivation of the peer's key, if it
    has one. *)
Definition keys_of (own : bytes) (peers : PeerRegistry) (m : mac) : option (bytes * bytes) :=
  p ← peer_find peers m;
  if is_zero (publicKey p) then None else derived own (publicKey p).

Lemma fresh_cache_empty own peers n : fresh_cache own peers (keystore_of_capacity n).
Proof. intros i e [-> _]%lookup_replicate. done. Qed.

Lemma setCapacity_fresh own peers ks n :
  fresh_cache own peers ks → fresh_cache own peers (setCapacity ks n).
Proof. unfold setCapacity. destruct (_ =? _)%nat; [done|]. intros _. apply fresh_cache_empty. Qed.

(** Registry changes that keep established keys keep the cache fresh. *)
Lemma fresh_cache_keeps own r r' ks :
  keeps_keys r r' → fresh_cache own r ks → fresh_cache own r' ks.
Proof.
  intros K F i e He Hv. destruct (F i e He Hv) as (pub & Hp & Hd). exists pub. auto.
Qed.

Lemma getKeys_effect own peers ks p w :
  fresh_cache own peers ks → peer_find peers (p_mac p) = Some p → (0 < capacity_ ks)%nat →
  wp (getKeys ks (p_mac p) own (Some (publicKey p))) w
    (λ r w', w' = w ∧ r.1 = keys_of own peers (p_mac p) ∧ fresh_cache own peers r.2 ∧
             capacity_ r.2 = capacity_ ks)
    (λ _, is_zero (publicKey p) = false ∧ derived own (publicKey p) = None).
Proof.
  intros F Hp Hcap. unfold getKeys. destruct (Nat.eqb_spec (capacity_ ks) 0); [lia|].
  set (derive := if is_zero (publicKey p) then _ else _).
  assert (wp derive w
    (λ r w', w' = w ∧ r.1 = keys_of own peers (p_mac p) ∧ fresh_cache own peers r.2 ∧
             capacity_ r.2 = capacity_ ks)
    (λ _, is_zero (publicKey p) = false ∧ derived own (publicKey p) = None)) as Hd.
  { unfold derive, keys_of. rewrite Hp. cbn. destruct (is_zero (publicKey p)) eqn:Hz.
    { by apply wp_ret. }
    pose proof (deriveE2EKeys_run own (publicKey p) w) as Hr. unfold wp, wbind.
    destruct (derived own (publicKey p)) as [[u d]|] eqn:Hdd; [|by destruct Hr as [w' ->]].
    rewrite Hr. unfold wret. cbn. split_and!; [done|done| |].
    - intros i e He Hv. apply lookup_insert_cases in He as [(_ & _ & ->)|[_ He]].
      + exists (publicKey p). split; [by exists p|done].
      + by eapply F.
    - unfold capacity_. cbn. by rewrite length_insert. }
  destruct (find k_mac (k_entries ks) (p_mac p)) as [i|] eqn:Fi; [|exact Hd].
  destruct (k_entries ks !! i) as [e|] eqn:He; [|exact Hd].
  destruct (k_valid e) eqn:Hv; [|exact Hd]. apply wp_ret. cbn. split_and!; [done| |done|done].
  apply find_Some in Fi as [(e' & He' & Hm) _]. rewrite He in He'. injection He' as <-.
  destruct (F i e He Hv) as (pub & (q & Hq & Hk & Hz) & Hdd). unfold keys_of.
  rewrite Hm in Hq. rewrite Hp in Hq |- *. simplify_eq. cbn. by rewrite Hz.
Qed.

Lemma peerE2EKeys_effect m peers en ks w :
  fresh_cache (devicePrivateKey en) peers ks → (0 < capacity_ ks)%nat →
  wp (peerE2EKeys m peers en ks) w
    (λ r w', w' = w ∧ r.1 = keys_of (devicePrivateKey en) peers m ∧
             fresh_cache (devicePrivateKey en) peers r.2 ∧ capacity_ r.2 = capacity_ ks)
    (λ _, keys_of (devicePrivateKey en) peers m = None).
Proof.
  intros F Hc. unfold peerE2EKeys. destruct (peer_find peers m) as [p|] eqn:Hp.
  - pose proof (peer_find_mac _ _ _ Hp) as <-.
    eapply wp_mono; [by apply (getKeys_effect (devicePrivateKey en) peers)|done|].
    cbn. intros _ [Hz Hd]. unfold keys_of. rewrite Hp. cbn. by rewrite Hz.
  - apply wp_ret. unfold keys_of. rewrite Hp. done.
Qed.

Lemma masterE2EKeys_effect cm peers en ks w :
  fresh_cache (devicePrivateKey en) peers ks → (0 < capacity_ ks)%nat →
  wp (masterE2EKeys cm peers en ks) w
    (λ r w', w' = w ∧
             r.1 = (if hasMasterMac en then keys_of (devicePrivateKey en) peers (m_mac cm) else None) ∧
             fresh_cache (devicePrivateKey en) peers r.2 ∧ capacity_ r.2 = capacity_ ks)
    (λ _, hasMasterMac en = true ∧ keys_of (devicePrivateKey en) peers (m_mac cm) = None).
Proof.
  intros F Hc. unfold masterE2EKeys. destruct (hasMasterMac en) eqn:Hm; cbn [negb]; [|by apply wp_ret].
  eapply wp_mono; [by apply (peerE2EKeys_effect (m_mac cm) peers en ks w)|done|done].
Qed.

(** While the cache is fresh, a key lookup returns exactly the keys derived
    from the peer's current public key, whether cached, derived now, or evicted
    in between; it touches nothing else, keeps the cache fresh and its size
    fixed, and yields nothing for an unknown peer or a placeholder key. *)
Theorem key_lookup_correct m peers en ks w r w' :
  fresh_cache (devicePrivateKey en) peers ks → (0 < capacity_ ks)%nat →
  peerE2EKeys m peers en ks w = Ok r w' →
  w' = w ∧ r.1 = keys_of (devicePrivateKey en) peers m ∧
  fresh_cache (devicePrivateKey en) peers r.2 ∧ capacity_ r.2 = capacity_ ks.
Proof. intros F Hc Hr. exact (wp_Ok _ _ _ _ _ _ (peerE2EKeys_effect m peers en ks w F Hc) Hr). Qed.
End Fresh.

(** Removing a peer does not drop its cached keys: registering the same MAC again
    with another key leaves the old pair in use. *)
Definition stale_entry : E2EKeyStore :=
  KeyStore [KEntry (demo_mac 1) true (replicate 32 1) (replicate 32 2)] 0.

Lemma stale_keys_after_rekey `{Crypto} own pub w :
  getKeys stale_entry (demo_mac 1) own (Some pub) w
  = Ok (Some (replicate 32 1, replicate 32 2), stale_entry) w.
Proof. reflexivity. Qed.

Lemma key_lookup_correct_witness :
  ∃ r, @peerE2EKeys toy_crypto (demo_mac 2) demo_registry demo_leaf keystore_new ref_world
       = Ok r ref_world ∧ r.1 ≠ None ∧
    (ref_world = ref_world ∧
     r.1 = @keys_of toy_crypto (devicePrivateKey demo_leaf) demo_registry (demo_mac 2) ∧
     @fresh_cache toy_crypto (devicePrivateKey demo_leaf) demo_registry r.2 ∧
     capacity_ r.2 = capacity_ keystore_new).
Proof.
  eexists. split; [vm_compute; reflexivity|]. split; [discriminate|].
  eapply (@key_lookup_correct toy_crypto (demo_mac 2) demo_registry demo_leaf keystore_new
            ref_world); [apply fresh_cache_empty|vm_compute; lia|vm_compute; reflexivity].
Defined.
