(* ===== verification/Routers.v ===== *)
(** [mesh/UplinkRouter] and [mesh/DownlinkRouter]: where a frame goes next, and
    which forwarding peers the radio's bounded peer table keeps for it. *)
From S2P Require Import Prelude Config MacTable NeighborTable Wire Platform ErrorCore Eeprom.
From S2P Require Import PeerRegistry Transport.

(** * UplinkRouter *)
Section Uplink.
Context {E : Env}.

(** The state is [forwardingPeer]; the scratch [PeerInfo] the code returns is
    only read for its MAC, which is the result here. *)
Definition findNextHopToMaster (forwardingPeer : mac) (cm : MasterInfo) (peers : PeerRegistry)
    (neighbors : neighbor_table) (deviceMac : mac) (nowMs : Z) : W (option mac * mac) :=
  if distance cm =? 0xFF then wret (None, forwardingPeer)
  else
    let direct := peer_find peers (m_mac cm) in
    use_direct <- match direct with
                  | Some p =>
                      if distance cm =? 1 then
                        in_range <- isPeerInRange peers (p_mac p) ;;
                        wret (in_range && negb (mac_eq (p_mac p) deviceMac))
                      else wret false
                  | None => wret false
                  end ;;
    if use_direct then wret (p_mac <$> direct, forwardingPeer)
    else
      match selectNextHop neighbors (distance cm) nowMs with
      | None => wret (None, forwardingPeer)
      | Some hopMac =>
          if mac_eq hopMac deviceMac then wret (None, forwardingPeer)
          else
            let isNewRelay := negb (mac_eq forwardingPeer hopMac) in
            let forwardingPeerSet := negb (mac_eq forwardingPeer ZERO_MAC) in
            (if forwardingPeerSet && isNewRelay
                && negb (bool_decide (is_Some (peer_find peers forwardingPeer)))
                && negb (mac_eq forwardingPeer (m_mac cm)) then
               known <- esp_now_is_peer_exist forwardingPeer ;;
               if known then esp_now_del_peer forwardingPeer ;;; wret tt else wret tt
             else wret tt) ;;;
            registerPeerWithEspNow hopMac ;;;
            wret (Some hopMac, hopMac)
      end.
End Uplink.

(** * DownlinkRouter *)
Inductive RouteDecision :=
  | NotRouted
  | RelayTowardMaster
  | ForwardOnRoute (nextHop : mac)
  | Flood
  | DropHopLimitExceeded.

(** The scan of the source route from index [i] on, [n] entries left. *)
Fixpoint route_scan (msg : mesh_message) (deviceMac : mac) (i n : nat) : option RouteDecision :=
  match n with
  | O => None
  | S n' =>
      if mac_eq (route_hop i (route_path msg)) deviceMac then
        if MAX_HOPS <=? hop_count msg then Some DropHopLimitExceeded
        else
          Some (ForwardOnRoute
                  (if Z.of_nat i + 1 <? route_len msg then route_hop (i + 1) (route_path msg)
                   else target_mac_address msg))
      else route_scan msg deviceMac (S i) n'
  end.

Definition classify (msg : mesh_message) (deviceMac : mac)
    (isMaster addressedToSelf isBroadcastTarget addressedToMaster : bool) : RouteDecision :=
  if isMaster || addressedToSelf || isBroadcastTarget then NotRouted
  else if addressedToMaster then
    if MAX_HOPS <=? hop_count msg then DropHopLimitExceeded else RelayTowardMaster
  else if (0 <? route_len msg) && (route_len msg <=? MAX_HOPS) then
    match route_scan msg deviceMac 0 (Z.to_nat (route_len msg)) with
    | Some d => d
    | None => Flood
    end
  else Flood.

(** The downlink forwarding peers, most recently used first; the list is the
    prefix of [downlinkPeerLru] of length [downlinkPeerLruCount]. *)
Abbreviation lru := (list mac).

Definition lru_index (l : lru) (m : mac) : option nat := first_such (λ x, mac_eq x m) l.

Section Downlink.
Context {E : Env}.

Definition relayDownlink (msg : mesh_message) (peers : PeerRegistry) (deviceMac : mac) : W unit :=
  if MAX_HOPS <=? hop_count msg then wret tt
  else
    let relay := relay_step deviceMac msg in
    wfor (λ p, if mac_eq (p_mac p) deviceMac then wret tt
               else sendMessage (p_mac p) relay deviceMac) (peerMacs peers).

Definition registerDownlinkPeer (l : lru) (m : mac) (peers : PeerRegistry) (cm : MasterInfo)
    : W lru :=
  let isCurrentMaster := negb (distance cm =? 0xFF) && mac_eq m (m_mac cm) in
  if bool_decide (is_Some (peer_find peers m)) || isCurrentMaster then
    let l' := match lru_index l m with Some i => delete i l | None => l end in
    registerPeerWithEspNow m ;;; wret l'
  else
    match lru_index l m with
    | Some i => registerPeerWithEspNow m ;;; wret (m :: delete i l)
    | None =>
        l' <- (if (LATTICE_DOWNLINK_PEER_MAX <=? length l)%nat then
                 match last l with
                 | Some oldest =>
                     known <- esp_now_is_peer_exist oldest ;;
                     (if known then esp_now_del_peer oldest ;;; wret tt else wret tt) ;;;
                     wret (take (length l - 1) l)
                 | None => wret l
                 end
               else wret l) ;;
        registerPeerWithEspNow m ;;; wret (m :: l')
    end.
End Downlink.

(** * Classification *)

Lemma route_scan_Some msg dev i n d :
  route_scan msg dev i n = Some d ↔
  ∃ k, (i <= k < i + n)%nat ∧ route_hop k (route_path msg) = dev ∧
    (∀ j, (i <= j < k)%nat → route_hop j (route_path msg) ≠ dev) ∧
    d = if MAX_HOPS <=? hop_count msg then DropHopLimitExceeded
        else ForwardOnRoute (if Z.of_nat k + 1 <? route_len msg
                             then route_hop (k + 1) (route_path msg) else target_mac_address msg).
Proof.
  revert i. induction n as [|n IH]; intros i; cbn.
  - split; [done|]. intros (k & Hk & _). lia.
  - destruct (mac_eq (route_hop i (route_path msg)) dev) eqn:Em; mac_cases.
    + split.
      * intros H. exists i. split_and!; [lia|lia|done|intros; lia|].
        by destruct (MAX_HOPS <=? hop_count msg); injection H as <-.
      * intros (k & Hk & Hd & Hmin & ->). assert (k = i) as ->.
        { destruct (decide (k = i)); [done|]. exfalso. apply (Hmin i); [lia|done]. }
        by destruct (MAX_HOPS <=? hop_count msg).
    + rewrite IH. split; intros (k & Hk & Hd & Hmin & ->); exists k; split_and!; try done; try lia.
      * intros j Hj. destruct (decide (j = i)) as [->|]; [done|]. apply Hmin. lia.
      * destruct (decide (k = i)) as [->|]; [done|lia].
      * intros j Hj. apply Hmin. lia.
Qed.

Lemma route_scan_None msg dev i n :
  route_scan msg dev i n = None ↔
  ∀ k, (i <= k < i + n)%nat → route_hop k (route_path msg) ≠ dev.
Proof.
  revert i. induction n as [|n IH]; intros i; cbn.
  - split; [|done]. intros _ k Hk. lia.
  - destruct (mac_eq (route_hop i (route_path msg)) dev) eqn:Em; mac_cases.
    + split; [by destruct (MAX_HOPS <=? hop_count msg)|]. intros H. exfalso. apply (H i); [lia|done].
    + rewrite IH. split; intros H k Hk.
      * destruct (decide (k = i)) as [->|]; [done|]. apply H. lia.
      * apply H. lia.
Qed.

(** The hops of a source route, in order. *)
Definition route_hops (msg : mesh_message) : list mac :=
  (λ i, route_hop i (route_path msg)) <$> seq 0 (Z.to_nat (route_len msg)).

(** The route followed by the destination: hop [i] hands the frame to entry
    [i + 1]. *)
Definition itinerary (msg : mesh_message) : list mac := route_hops msg ++ [target_mac_address msg].

Lemma route_hops_lookup msg i :
  route_hops msg !! i =
  if (i <? Z.to_nat (route_len msg))%nat then Some (route_hop i (route_path msg)) else None.
Proof.
  unfold route_hops. rewrite list_lookup_fmap.
  destruct (Nat.ltb_spec i (Z.to_nat (route_len msg))).
  - by rewrite lookup_seq_lt by lia.
  - by rewrite lookup_seq_ge by lia.
Qed.

(** C38. A source-routed frame reaches its destination: launched at the first hop
    with hop count 0, along a route of distinct hops within [MAX_HOPS], the
    [i]-th hop classifies it as a forward to exactly the next entry of the
    itinerary, and the last hop forwards it to the target; no hop floods, drops
    or loops it. *)
Theorem source_route_delivers msg (i : nat) hop next :
  0 < route_len msg <= MAX_HOPS → NoDup (route_hops msg) →
  itinerary msg !! i = Some hop → itinerary msg !! S i = Some next →
  hop_count msg = Z.of_nat i →
  classify msg hop false false false false = ForwardOnRoute next.
Proof.
  intros Hlen Hnd Hi Hn Hc. unfold classify. cbn [orb].
  rewrite (proj2 (Z.ltb_lt 0 _)), (proj2 (Z.leb_le (route_len msg) _)) by lia. cbn [andb].
  assert (length (route_hops msg) = Z.to_nat (route_len msg)) as Hl.
  { unfold route_hops. by rewrite length_fmap, length_seq. }
  assert (i < Z.to_nat (route_len msg))%nat as Hlt.
  { apply lookup_lt_Some in Hn. unfold itinerary in Hn. rewrite length_app in Hn. cbn in Hn. lia. }
  unfold itinerary in Hi, Hn. rewrite lookup_app_l in Hi by lia.
  assert (hop = route_hop i (route_path msg)) as ->.
  { rewrite route_hops_lookup in Hi. rewrite (proj2 (Nat.ltb_lt _ _) Hlt) in Hi. by simplify_eq. }
  assert (route_scan msg (route_hop i (route_path msg)) 0 (Z.to_nat (route_len msg))
          = Some (ForwardOnRoute next)) as ->; [|done].
  apply route_scan_Some. exists i. split_and!; [lia|lia|done| |].
  - intros j Hj He. assert (j = i); [|lia].
    apply (NoDup_lookup (route_hops msg) j i (route_hop i (route_path msg))); [done|..];
      rewrite route_hops_lookup; [|by rewrite (proj2 (Nat.ltb_lt _ _) Hlt)].
    rewrite (proj2 (Nat.ltb_lt _ _)) by lia. by rewrite He.
  - unfold MAX_HOPS in *. destruct (Z.leb_spec 8 (hop_count msg)); [lia|]. f_equal.
    destruct (Z.ltb_spec (Z.of_nat i + 1) (route_len msg)) as [Hm|Hm].
    + rewrite lookup_app_l, route_hops_lookup in Hn by lia.
      rewrite (proj2 (Nat.ltb_lt _ _)) in Hn by lia.
      injection Hn as <-. by rewrite Nat.add_1_r.
    + rewrite lookup_app_r in Hn by lia.
      replace (S i - length (route_hops msg))%nat with O in Hn by lia. by injection Hn as <-.
Qed.

(** [classify] never forwards a frame for the device itself or for everybody,
    sends frames for the master up, drops them at the hop limit instead of
    passing them to the security gate, and floods only frames whose source route
    is absent, overlong or does not contain the device. *)
Theorem classify_cases msg dev isMaster self bcast toMaster :
  0 <= route_len msg →
  match classify msg dev isMaster self bcast toMaster with
  | NotRouted => isMaster = true ∨ self = true ∨ bcast = true
  | RelayTowardMaster =>
      isMaster = false ∧ self = false ∧ bcast = false ∧ toMaster = true ∧ hop_count msg < MAX_HOPS
  | ForwardOnRoute next =>
      isMaster = false ∧ self = false ∧ bcast = false ∧ toMaster = false ∧
      hop_count msg < MAX_HOPS ∧ route_len msg <= MAX_HOPS ∧
      ∃ i, itinerary msg !! i = Some dev ∧ itinerary msg !! S i = Some next
  | Flood =>
      isMaster = false ∧ self = false ∧ bcast = false ∧ toMaster = false ∧
      (route_len msg = 0 ∨ MAX_HOPS < route_len msg ∨ dev ∉ route_hops msg)
  | DropHopLimitExceeded =>
      isMaster = false ∧ self = false ∧ bcast = false ∧ MAX_HOPS <= hop_count msg ∧
      (toMaster = true ∨ dev ∈ route_hops msg)
  end.
Proof.
  intros Hr. unfold classify. destruct isMaster, self, bcast; cbn [orb]; auto.
  destruct toMaster.
  { destruct (Z.leb_spec MAX_HOPS (hop_count msg)); split_and!; auto. }
  destruct (Z.ltb_spec 0 (route_len msg)), (Z.leb_spec (route_len msg) MAX_HOPS); cbn [andb];
    [|split_and!; auto; lia..].
  destruct (route_scan msg dev 0 (Z.to_nat (route_len msg))) as [d|] eqn:S.
  - apply route_scan_Some in S as (k & Hk & Hd & _ & ->).
    assert (route_hops msg !! k = Some dev) as Hkl.
    { rewrite route_hops_lookup, (proj2 (Nat.ltb_lt _ _)), Hd by lia. done. }
    assert (length (route_hops msg) = Z.to_nat (route_len msg)) as Hl.
    { unfold route_hops. by rewrite length_fmap, length_seq. }
    destruct (Z.leb_spec MAX_HOPS (hop_count msg)) as [Hh|Hh].
    + split_and!; auto. right. by eapply list_elem_of_lookup_2.
    + split_and!; auto. exists k. unfold itinerary. split; [by apply lookup_app_l_Some|].
      destruct (Z.ltb_spec (Z.of_nat k + 1) (route_len msg)).
      * apply lookup_app_l_Some. rewrite route_hops_lookup, (proj2 (Nat.ltb_lt _ _)) by lia.
        by rewrite Nat.add_1_r.
      * rewrite lookup_app_r by lia. by replace (Datatypes.S k - length (route_hops msg))%nat with O by lia.
  - split_and!; auto. right; right. rewrite route_scan_None in S.
    intros [k Hk]%list_elem_of_lookup. rewrite route_hops_lookup in Hk.
    destruct (Nat.ltb_spec k (Z.to_nat (route_len msg))); [|done]. injection Hk as Hk.
    by apply (S k ltac:(lia)).
Qed.

(** * The forwarding-peer LRU *)

Definition forget (m : mac) (l : lru) : lru := filter (λ x, x ≠ m) l.

Lemma forget_notin m l : m ∉ l → forget m l = l.
Proof. apply filter_without. Qed.

Lemma lru_index_Some l m i : lru_index l m = Some i → l !! i = Some m.
Proof.
  intros [(x & Hx & Em) _]%first_such_Some. mac_cases. by subst.
Qed.

Lemma lru_index_None l m : lru_index l m = None → m ∉ l.
Proof.
  unfold lru_index. rewrite first_such_None. intros H [i Hi]%list_elem_of_lookup.
  specialize (H i m Hi). by rewrite mac_eq_refl in H.
Qed.

Lemma delete_forget l m i : NoDup l → l !! i = Some m → delete i l = forget m l.
Proof.
  revert i. induction l as [|x l IH]; intros [|i] Hnd Hi; cbn in Hi; [done|done| |];
    apply NoDup_cons in Hnd as [Hx Hnd].
  - simplify_eq. unfold forget. rewrite filter_cons_False by naive_solver.
    symmetry. by apply filter_without.
  - unfold forget. rewrite filter_cons_True.
    + cbn. f_equal. by apply IH.
    + intros ->. apply Hx. by eapply list_elem_of_lookup_2.
Qed.

Lemma forget_length m l : m ∈ l → (length (forget m l) < length l)%nat.
Proof. intros H. unfold forget. eapply length_filter_lt; [done|]. naive_solver. Qed.

Lemma forget_NoDup m l : NoDup l → NoDup (forget m l).
Proof. apply NoDup_filter. Qed.

(** Peers the LRU must not manage. *)
Definition lru_exempt (peers : PeerRegistry) (cm : MasterInfo) (m : mac) : bool :=
  bool_decide (is_Some (peer_find peers m)) || (negb (distance cm =? 0xFF) && mac_eq m (m_mac cm)).

(** The reference LRU: drop the MAC, put it in front, keep the four most
    recent. *)
Definition lru_touch (l : lru) (m : mac) : lru :=
  m :: take (LATTICE_DOWNLINK_PEER_MAX - 1) (forget m l).

Record lru_wf (l : lru) : Prop := {
  lru_nodup : NoDup l;
  lru_bound : (length l <= LATTICE_DOWNLINK_PEER_MAX)%nat
}.

Lemma lru_touch_wf l m : lru_wf l → lru_wf (lru_touch l m).
Proof.
  intros [Hnd Hb]. split.
  - apply NoDup_cons. split.
    + intros (i & Hi & _)%elem_of_take. apply list_elem_of_lookup_2 in Hi.
      by apply list_elem_of_filter in Hi as [? _].
    + eapply sublist_NoDup; [by apply forget_NoDup|apply sublist_take].
  - unfold lru_touch. cbn. rewrite length_take. unfold LATTICE_DOWNLINK_PEER_MAX. lia.
Qed.

Lemma forget_wf l m : lru_wf l → lru_wf (forget m l).
Proof.
  intros [Hnd Hb]. split; [by apply forget_NoDup|].
  etrans; [apply length_filter|done].
Qed.

Section lru.
Context {E : Env}.

Lemma registerPeer_effects m w :
  ∃ w' evs, registerPeerWithEspNow m w = Ok tt w' ∧ w_trace w' = evs ++ w_trace w ∧
    Forall (λ e, is_error_event e ∨ (∃ r, e = EvPeerExist m r) ∨ (∃ r, e = EvAddPeer m r)) evs.
Proof.
  destruct (registerPeerWithEspNow_returns m w) as ([] & w' & E').
  assert (appended (λ e, is_error_event e ∨ (∃ r, e = EvPeerExist m r) ∨ (∃ r, e = EvAddPeer m r))
            w w') as (evs & Ht & HF).
  { eapply emits_Ok; [|exact E']. apply registerPeerWithEspNow_emits; eauto. }
  by exists w', evs.
Qed.

(** [registerDownlinkPeer] refines the reference LRU. *)
Lemma registerDownlinkPeer_lru l m peers cm w :
  lru_wf l →
  ∃ w', registerDownlinkPeer l m peers cm w =
        Ok (if lru_exempt peers cm m then forget m l else lru_touch l m) w'.
Proof.
  intros [Hnd Hb]. unfold registerDownlinkPeer. fold (lru_exempt peers cm m).
  destruct (lru_exempt peers cm m).
  { unfold wbind. destruct (registerPeer_effects m w) as (w' & _ & -> & _). exists w'.
    destruct (lru_index l m) as [i|] eqn:Hi.
    - apply lru_index_Some in Hi. by rewrite (delete_forget l m).
    - apply lru_index_None in Hi. by rewrite forget_notin. }
  destruct (lru_index l m) as [i|] eqn:Hi.
  { unfold wbind. destruct (registerPeer_effects m w) as (w' & _ & -> & _). exists w'.
    apply lru_index_Some in Hi. rewrite (delete_forget l m) by done.
    unfold lru_touch. rewrite take_ge; [done|].
    pose proof (forget_length m l ltac:(by eapply list_elem_of_lookup_2)). lia. }
  apply lru_index_None in Hi. unfold lru_touch. rewrite forget_notin by done.
  unfold LATTICE_DOWNLINK_PEER_MAX in *.
  destruct (Nat.leb_spec 4 (length l)) as [Hc|Hc].
  - destruct (last l) as [oldest|] eqn:Hl.
    2:{ apply last_None in Hl. subst. cbn in Hc. lia. }
    unfold esp_now_is_peer_exist, esp_now_del_peer, wbind, ask, emit, wret. cbn -[take registerPeerWithEspNow].
    destruct (env_peer_exist (w_trace w) oldest); cbn -[take registerPeerWithEspNow];
      match goal with |- context [registerPeerWithEspNow m ?w1] =>
        destruct (registerPeer_effects m w1) as (w' & _ & -> & _); exists w' end;
      by replace (length l - 1)%nat with 3%nat by lia.
  - unfold wbind, wret. destruct (registerPeer_effects m w) as (w' & _ & -> & _). exists w'.
    rewrite take_ge by lia. done.
Qed.

(** The downlink forwarding peers behave as a four-entry LRU cache: each
    registration returns the reference cache, with the MAC in front and the
    oldest of a full cache dropped, an enrolled peer or the current master is
    never tracked after it was registered, and the cache keeps distinct MACs
    and its bound whatever next hops are requested. *)
Theorem registerDownlinkPeer_refines l m peers cm w :
  lru_wf l →
  ∃ l' w', registerDownlinkPeer l m peers cm w = Ok l' w' ∧ lru_wf l' ∧
    l' = (if lru_exempt peers cm m then forget m l else lru_touch l m) ∧
    (lru_exempt peers cm m = true → m ∉ l').
Proof.
  intros W. destruct (registerDownlinkPeer_lru l m peers cm w W) as [w' ->].
  eexists _, w'. split_and!; [done| |done|].
  - destruct (lru_exempt peers cm m); [by apply forget_wf|by apply lru_touch_wf].
  - intros ->. by intros [? _]%list_elem_of_filter.
Qed.
End lru.

(** * The radio's peer table stays bounded *)
Section bounded.
Context {E : Env} {L : EspNowLawful E}.
Abbreviation registered w := (espnow_registered (w_trace w)).

Definition registered_within (w : world) (S : list mac) : Prop :=
  ∀ x, registered w x = true → x ∈ S.

Lemma espnow_registered_app evs tr m x :
  Forall (λ e, is_error_event e ∨ (∃ r, e = EvPeerExist m r) ∨ (∃ r, e = EvAddPeer m r)) evs →
  espnow_registered (evs ++ tr) x = true → x = m ∨ espnow_registered tr x = true.
Proof using.
  induction 1 as [|e evs He _ IH]; cbn; [by right|].
  destruct He as [He|[[r ->]|[r ->]]]; [by destruct e|done|].
  destruct r; [|done]. destruct (mac_eq m x) eqn:Em; [|done]. mac_cases. by left.
Qed.

Lemma registerPeer_within m w S :
  registered_within w S →
  ∃ w', registerPeerWithEspNow m w = Ok tt w' ∧ registered_within w' (m :: S).
Proof using.
  clear L. intros H. destruct (registerPeer_effects m w) as (w' & evs & E' & Ht & HF).
  exists w'. split; [done|]. intros x Hx. rewrite Ht in Hx.
  destruct (espnow_registered_app evs _ m x HF Hx) as [->|Hx']; [by left|right; by apply H].
Qed.

(** Evicting [oldest]: after the test-and-delete it is not registered. *)
Lemma evict_within {A} (oldest : mac) (a : A) w S :
  registered_within w (oldest :: S) →
  ∃ w', (known <- esp_now_is_peer_exist oldest ;;
         (if known then esp_now_del_peer oldest ;;; wret tt else wret tt) ;;; wret a) w = Ok a w' ∧
        registered_within w' S.
Proof using L.
  intros H. unfold esp_now_is_peer_exist, esp_now_del_peer, wbind, ask, emit, wret. cbn.
  rewrite peer_exist_registered. destruct (registered w oldest) eqn:Hr.
  - rewrite del_peer_ok by done. eexists. split; [done|]. intros x Hx. cbn in Hx.
    destruct (mac_eq oldest x) eqn:Em; [done|]. mac_cases.
    apply H, elem_of_cons in Hx as [->|]; done.
  - eexists. split; [done|]. intros x Hx. cbn in Hx.
    pose proof (H x Hx) as [->|?]%elem_of_cons; [congruence|done].
Qed.

Lemma registered_within_sub w S S' : registered_within w S → (∀ x, x ∈ S → x ∈ S') →
  registered_within w S'.
Proof using. clear L. intros H HS x Hx. by apply HS, H. Qed.

(** However many distinct next hops an attacker's frames name, the radio's
    peer table holds only the fixed set (enrolled peers, master, broadcast) and
    the at most four tracked forwarding peers. *)
Theorem downlink_peer_table_bounded fixed l m peers cm w :
  lru_wf l → (∀ x, lru_exempt peers cm x = true → x ∈ fixed) →
  registered_within w (fixed ++ l) →
  ∃ l' w', registerDownlinkPeer l m peers cm w = Ok l' w' ∧
    registered_within w' (fixed ++ l') ∧ (length l' <= LATTICE_DOWNLINK_PEER_MAX)%nat.
Proof using L.
  intros W Hex HR. pose proof W as [Hnd Hb].
  destruct (registerDownlinkPeer_lru l m peers cm w W) as [w' Ew].
  eexists _, w'. split; [exact Ew|]. split; [|destruct (lru_exempt peers cm m);
    [apply (forget_wf l m W)|apply (lru_touch_wf l m W)]].
  unfold registerDownlinkPeer in Ew. fold (lru_exempt peers cm m) in Ew.
  destruct (lru_exempt peers cm m) eqn:Hm.
  { unfold wbind in Ew. destruct (registerPeer_within m w _ HR) as (w1 & E1 & H1).
    rewrite E1 in Ew. assert (w' = w1) as -> by (unfold wret in Ew; by simplify_eq).
    eapply registered_within_sub; [exact H1|]. intros x [->|[Hx|Hx]%elem_of_app]%elem_of_cons.
    - apply elem_of_app. left. by apply Hex.
    - apply elem_of_app. by left.
    - destruct (decide (x = m)) as [->|]; apply elem_of_app; [left; by apply Hex|right].
      by apply list_elem_of_filter. }
  destruct (lru_index l m) as [i|] eqn:Hi.
  { unfold wbind in Ew. destruct (registerPeer_within m w _ HR) as (w1 & E1 & H1).
    rewrite E1 in Ew. assert (w' = w1) as -> by (unfold wret in Ew; by simplify_eq).
    apply lru_index_Some in Hi. eapply registered_within_sub; [exact H1|].
    unfold lru_touch. rewrite take_ge.
    2:{ pose proof (forget_length m l ltac:(by eapply list_elem_of_lookup_2)).
        unfold LATTICE_DOWNLINK_PEER_MAX in *. lia. }
    intros x Hx. unfold forget. rewrite elem_of_app, elem_of_cons, list_elem_of_filter.
    rewrite elem_of_cons, elem_of_app in Hx. destruct (decide (x = m)); naive_solver. }
  apply lru_index_None in Hi. unfold lru_touch, LATTICE_DOWNLINK_PEER_MAX in *.
  rewrite forget_notin by done.
  destruct (Nat.leb_spec 4 (length l)) as [Hc|Hc].
  - destruct (last l) as [oldest|] eqn:Hl.
    2:{ apply last_None in Hl. subst. cbn in Hc. lia. }
    apply last_Some in Hl as [l0 ->]. rewrite length_app in Ew, Hc, Hb. cbn [length] in Ew, Hc, Hb.
    replace (length l0 + 1 - 1)%nat with (length l0) in Ew by lia.
    rewrite take_app_length' in Ew by done. cbn [Nat.sub]. rewrite take_app_length' by lia.
    destruct (evict_within oldest l0 w (fixed ++ l0)) as (w1 & E1 & H1).
    { eapply registered_within_sub; [exact HR|]. set_solver. }
    destruct (registerPeer_within m w1 _ H1) as (w2 & E2 & H2).
    unfold wbind at 1 in Ew. rewrite E1 in Ew.
    unfold wbind in Ew. rewrite E2 in Ew.
    assert (w' = w2) as -> by (unfold wret in Ew; by simplify_eq).
    eapply registered_within_sub; [exact H2|]. set_solver.
  - unfold wbind, wret in Ew. destruct (registerPeer_within m w _ HR) as (w1 & E1 & H1).
    rewrite E1 in Ew. assert (w' = w1) as -> by by simplify_eq.
    rewrite take_ge by lia. eapply registered_within_sub; [exact H1|]. set_solver.
Qed.
End bounded.

(** A forwarding peer that enrolls later keeps its LRU slot, and four further
    next hops push it out of the radio's peer table although it is enrolled. *)
Lemma enrolled_peer_evicted :
  let tracked := [demo_mac 14; demo_mac 13; demo_mac 12; demo_mac 1] in
  (∃ w0, @registerDownlinkPeer ref_env [] (demo_mac 1) registry_empty (Master ZERO_MAC 0xFF) ref_world
         = Ok [demo_mac 1] w0) ∧
  is_Some (peer_find demo_registry (demo_mac 1)) ∧
  ∃ w', @registerDownlinkPeer ref_env tracked (demo_mac 15) demo_registry (Master ZERO_MAC 0xFF)
          (World [EvAddPeer (demo_mac 1) true] (w_eeprom ref_world) (w_err ref_world))
        = Ok [demo_mac 15; demo_mac 14; demo_mac 13; demo_mac 12] w' ∧
        espnow_registered (w_trace w') (demo_mac 1) = false.
Proof.
  cbv zeta. split; [eexists; vm_compute; reflexivity|]. split; [eexists; vm_compute; reflexivity|].
  eexists. split; vm_compute; reflexivity.
Qed.

(** * Uplink *)
Section uplink.
Context {E : Env}.

Definition hop_ok (cm : MasterInfo) (peers : PeerRegistry) (neighbors : neighbor_table)
    (deviceMac : mac) (nowMs : Z) (h : mac) : Prop :=
  h ≠ deviceMac ∧
  ((h = m_mac cm ∧ distance cm = 1 ∧ is_Some (peer_find peers h)) ∨
   (∃ e, e ∈ neighbors ∧ n_mac e = h ∧ n_valid e = true ∧ n_stale nowMs e = false ∧
         masterDistance e < distance cm)).

Lemma isPeerInRange_run r m w : ∃ b w', isPeerInRange r m w = Ok b w' ∧
  (w' = w ∨ ∃ us, w_trace w' = EvTimer us :: w_trace w).
Proof.
  unfold isPeerInRange, now_ms, esp_timer_get_time, wbind, ask, emit, wret.
  destruct (peer_find r m); (eexists _, _; split; [reflexivity|]; cbn; eauto).
Qed.

(** The multi-hop branch, once a neighbor is selected. *)
Definition use_neighbor (fp : mac) (cm : MasterInfo) (peers : PeerRegistry) (hopMac : mac)
    : W (option mac * mac) :=
  (if negb (mac_eq fp ZERO_MAC) && negb (mac_eq fp hopMac)
      && negb (bool_decide (is_Some (peer_find peers fp))) && negb (mac_eq fp (m_mac cm)) then
     known <- esp_now_is_peer_exist fp ;;
     if known then esp_now_del_peer fp ;;; wret tt else wret tt
   else wret tt) ;;;
  registerPeerWithEspNow hopMac ;;; wret (Some hopMac, hopMac).

(** The three outcomes of the search: nothing, the master itself, or a
    neighbor. *)
Lemma findNextHop_cases fp cm peers neighbors dev now w :
  (∃ w', findNextHopToMaster fp cm peers neighbors dev now w = Ok (None, fp) w' ∧
     (w' = w ∨ ∃ us, w_trace w' = EvTimer us :: w_trace w) ∧
     (distance cm = 0xFF ∨ selectNextHop neighbors (distance cm) now = None ∨
      selectNextHop neighbors (distance cm) now = Some dev)) ∨
  (∃ w', findNextHopToMaster fp cm peers neighbors dev now w = Ok (Some (m_mac cm), fp) w' ∧
     (w' = w ∨ ∃ us, w_trace w' = EvTimer us :: w_trace w) ∧
     hop_ok cm peers neighbors dev now (m_mac cm)) ∨
  (∃ h w1, findNextHopToMaster fp cm peers neighbors dev now w = use_neighbor fp cm peers h w1 ∧
     (w1 = w ∨ ∃ us, w_trace w1 = EvTimer us :: w_trace w) ∧
     hop_ok cm peers neighbors dev now h).
Proof.
  unfold findNextHopToMaster. destruct (Z.eqb_spec (distance cm) 0xFF) as [|Hd].
  { left. exists w. auto. }
  match goal with |- context [x <- ?c ;; _] => set (test := c) end.
  assert (∃ b w1, test w = Ok b w1 ∧ (w1 = w ∨ ∃ us, w_trace w1 = EvTimer us :: w_trace w) ∧
    (b = true → ∃ p, peer_find peers (m_mac cm) = Some p ∧ distance cm = 1 ∧ p_mac p ≠ dev))
    as (b & w1 & Ht & Hw & Hb).
  { unfold test. destruct (peer_find peers (m_mac cm)) as [p|] eqn:Hp; [|by exists false, w; split_and!; [done|left|]].
    destruct (Z.eqb_spec (distance cm) 1); [|by exists false, w; split_and!; [done|left|]].
    unfold wbind. destruct (isPeerInRange_run peers (p_mac p) w) as (r & w1 & -> & Hw).
    eexists _, w1. split; [reflexivity|]. split; [done|].
    intros [_ Hn]%andb_true_iff. exists p. split_and!; [done..|].
    apply negb_true_iff in Hn. by mac_cases. }
  assert (∀ B (k : bool → W B), wbind test k w = k b w1) as Hk.
  { intros B k. unfold wbind. by rewrite Ht. }
  rewrite !Hk. destruct b.
  - destruct (Hb eq_refl) as (p & Hp & H1 & Hne). pose proof (peer_find_mac _ _ _ Hp) as Hpm.
    right; left. exists w1. rewrite Hp. cbn. rewrite Hpm. split_and!; [done..|].
    split; [congruence|]. left. split_and!; [done..|]. by exists p.
  - destruct (selectNextHop neighbors (distance cm) now) as [h|] eqn:Hs.
    2:{ left. exists w1. auto. }
    destruct (mac_eq h dev) eqn:Eh; mac_cases.
    { left. exists w1. subst. auto. }
    right; right. exists h, w1. split_and!; [done..|].
    split; [done|]. right. by apply selectNextHop_closer.
Qed.

(** The uplink search always returns.  A hop it returns is never the device
    itself and is either the enrolled master, heard directly, or a live neighbor
    strictly closer to the master, so forwarding uplink always makes progress;
    it returns none only without a master, without a closer live neighbor, or
    when the best neighbor is the device itself. *)
Theorem findNextHop_progress fp cm peers neighbors dev now w :
  ∃ r w', findNextHopToMaster fp cm peers neighbors dev now w = Ok r w' ∧
    match r.1 with
    | Some h => hop_ok cm peers neighbors dev now h
    | None => distance cm = 0xFF ∨ selectNextHop neighbors (distance cm) now = None ∨
              selectNextHop neighbors (distance cm) now = Some dev
    end.
Proof.
  destruct (findNextHop_cases fp cm peers neighbors dev now w)
    as [(w' & -> & _ & H)|[(w' & -> & _ & H)|(h & w1 & -> & _ & H)]]; [by eauto..|].
  unfold use_neighbor. match goal with |- context [wbind ?c _] => set (ev := c) end.
  assert (∃ w2, ev w1 = Ok tt w2) as [w2 He].
  { unfold ev, esp_now_is_peer_exist, esp_now_del_peer, wbind, ask, emit, wret.
    repeat split_if; cbn; eauto. }
  unfold wbind at 1. rewrite He. unfold wbind, wret.
  destruct (registerPeerWithEspNow_returns h w2) as ([] & w' & ->). by eauto.
Qed.

(** However often the best relay changes, uplink forwarding keeps at most
    one auto-registered relay in the radio's peer table next to the fixed
    set. *)
Theorem uplink_peer_table_bounded `{!EspNowLawful E} fixed fp cm peers neighbors dev now w :
  ZERO_MAC ∈ fixed → m_mac cm ∈ fixed → (∀ x, is_Some (peer_find peers x) → x ∈ fixed) →
  registered_within w (fixed ++ [fp]) →
  ∃ r w', findNextHopToMaster fp cm peers neighbors dev now w = Ok r w' ∧
          registered_within w' (fixed ++ [r.2]).
Proof.
  intros Hz Hm Hp HR.
  assert (∀ w1, (w1 = w ∨ ∃ us, w_trace w1 = EvTimer us :: w_trace w) →
                registered_within w1 (fixed ++ [fp])) as Hw1.
  { intros w1 [->|[us Ht]]; [done|]. intros x Hx. rewrite Ht in Hx. by apply HR. }
  destruct (findNextHop_cases fp cm peers neighbors dev now w)
    as [(w' & -> & Hw & _)|[(w' & -> & Hw & _)|(h & w1 & -> & Hw & _)]]; [by eauto..|].
  specialize (Hw1 w1 Hw). unfold use_neighbor.
  match goal with |- context [wbind ?c _] => set (ev := c) end.
  assert (∃ w2, ev w1 = Ok tt w2 ∧ registered_within w2 (fixed ++ [h])) as (w2 & He & H2).
  { unfold ev. destruct (negb (mac_eq fp ZERO_MAC) && _ && _ && _) eqn:Hc.
    - destruct (evict_within fp tt w1 fixed) as (w2 & E2 & H2).
      { eapply registered_within_sub; [exact Hw1|]. set_solver. }
      exists w2. split; [|eapply registered_within_sub; [exact H2|set_solver]].
      rewrite <- E2. unfold wbind. destruct (esp_now_is_peer_exist fp w1) as [[] w3|w3]; [|done..].
      by destruct (esp_now_del_peer fp w3) as [? ?|?].
    - exists w1. split; [done|]. eapply registered_within_sub; [exact Hw1|].
      intros x [Hx| ->%list_elem_of_singleton]%elem_of_app; [set_solver|].
      apply elem_of_app. rewrite !andb_false_iff, !negb_false_iff in Hc.
      destruct Hc as [[[Hc|Hc]|Hc]|Hc]; mac_cases; [by left; subst|right; set_solver| |by left; subst].
      left. apply Hp. by apply bool_decide_eq_true in Hc. }
  unfold wbind at 1. rewrite He. unfold wbind, wret.
  destruct (registerPeer_within h w2 _ H2) as (w' & -> & H'). eexists _, w'. split; [done|].
  eapply registered_within_sub; [exact H'|]. set_solver.
Qed.
End uplink.

(** * Witnesses *)

Definition demo_routed (hops : Z) : mesh_message :=
  set_route 2 (demo_mac 5 ++ demo_mac 6 ++ zeros 36)
    (set_hop_count hops (set_target (demo_mac 9) mesh_message_zero)).

Lemma source_route_delivers_witness :
  classify (demo_routed 0) (demo_mac 5) false false false false = ForwardOnRoute (demo_mac 6) ∧
  classify (demo_routed 1) (demo_mac 6) false false false false = ForwardOnRoute (demo_mac 9).
Proof.
  split.
  - apply (source_route_delivers (demo_routed 0) 0); [unfold MAX_HOPS; cbn; lia| |reflexivity..].
    apply (bool_decide_unpack _). vm_compute. exact I.
  - apply (source_route_delivers (demo_routed 1) 1); [unfold MAX_HOPS; cbn; lia| |reflexivity..].
    apply (bool_decide_unpack _). vm_compute. exact I.
Defined.

Lemma classify_cases_witness :
  classify (demo_routed 8) (demo_mac 6) false false false false = DropHopLimitExceeded ∧
  (false = false ∧ false = false ∧ false = false ∧ MAX_HOPS <= hop_count (demo_routed 8) ∧
   (false = true ∨ demo_mac 6 ∈ route_hops (demo_routed 8))).
Proof.
  split; [reflexivity|].
  exact (classify_cases (demo_routed 8) (demo_mac 6) false false false false ltac:(cbn; lia)).
Defined.

Lemma demo_lru_wf : lru_wf [demo_mac 14; demo_mac 13; demo_mac 12; demo_mac 11].
Proof.
  split; [apply (bool_decide_unpack _); vm_compute; exact I|].
  unfold LATTICE_DOWNLINK_PEER_MAX. cbn. lia.
Qed.

Lemma registerDownlinkPeer_refines_witness :
  ∃ l' w', @registerDownlinkPeer ref_env [demo_mac 14; demo_mac 13; demo_mac 12; demo_mac 11]
             (demo_mac 12) demo_registry (Master ZERO_MAC 0xFF) ref_world = Ok l' w' ∧ lru_wf l' ∧
    l' = [demo_mac 12; demo_mac 14; demo_mac 13; demo_mac 11] ∧ (false = true → demo_mac 12 ∉ l').
Proof.
  apply (@registerDownlinkPeer_refines ref_env [demo_mac 14; demo_mac 13; demo_mac 12; demo_mac 11]
    (demo_mac 12) demo_registry (Master ZERO_MAC 0xFF) ref_world demo_lru_wf).
Defined.

Lemma downlink_peer_table_bounded_witness :
  let w := World [EvAddPeer (demo_mac 11) true; EvAddPeer (demo_mac 1) true]
             (w_eeprom ref_world) (w_err ref_world) in
  ∃ l' w', @registerDownlinkPeer ref_env [demo_mac 14; demo_mac 13; demo_mac 12; demo_mac 11]
             (demo_mac 15) registry_empty (Master ZERO_MAC 0xFF) w = Ok l' w' ∧
    registered_within w' ([demo_mac 1] ++ l') ∧ (length l' <= LATTICE_DOWNLINK_PEER_MAX)%nat.
Proof.
  cbv zeta. apply (@downlink_peer_table_bounded ref_env ref_env_espnow); [exact demo_lru_wf| |].
  - intros x H. unfold lru_exempt in H. cbn in H. discriminate.
  - intros x Hx. cbn in Hx. destruct (mac_eq (demo_mac 11) x) eqn:E1; mac_cases.
    + subst. apply (bool_decide_unpack _). vm_compute. exact I.
    + destruct (mac_eq (demo_mac 1) x) eqn:E2; [|done]. mac_cases. subst.
      apply (bool_decide_unpack _). vm_compute. exact I.
Defined.

Lemma uplink_peer_table_bounded_witness :
  ∃ r w', @findNextHopToMaster ref_env (demo_mac 3) (Master (demo_mac 7) 3) registry_empty
      demo_neighbors (demo_mac 9) 1600
      (World [EvAddPeer (demo_mac 3) true] (w_eeprom ref_world) (w_err ref_world)) = Ok r w' ∧
    registered_within w' ([ZERO_MAC; demo_mac 7] ++ [r.2]).
Proof.
  apply (@uplink_peer_table_bounded ref_env ref_env_espnow); [set_solver|set_solver| |].
  - intros x [p Hp]. cbn in Hp. discriminate.
  - intros x Hx. cbn in Hx. destruct (mac_eq (demo_mac 3) x) eqn:E1; [|done]. mac_cases. set_solver.
Defined.
