(* ===== verification/Beacon.v ===== *)
(** [mesh/MasterBeacon]: beacon timing, master timeout, and the processing of
    received beacons: pin, hop limit, trust-on-first-use, distance derivation and
    relay suppression. *)
From S2P Require Import Prelude Config MacTable NeighborTable SlotTable Wire Platform ErrorCore.
From S2P Require Import Eeprom PeerRegistry Transport Crypto Enrollment ReplayCache.

Record MasterBeacon := Beacon {
  lastBeaconMillis : Z;
  lastMasterBeaconReceivedMs : Z
}.

Definition beacon_zero : MasterBeacon := Beacon 0 0.

(** The deferred relay of [Mesh]: [relayPendingMsg], [relayPendingAt],
    [relayPending]. *)
Record RelayPending := Pending {
  relayPendingMsg : mesh_message;
  relayPendingAt : Z;
  relayPending : bool
}.

(** The state [process] reads and writes, its reference parameters included. *)
Record beacon_ctx := BeaconCtx {
  b_beacon : MasterBeacon;
  b_enrollment : Enrollment;
  b_neighbors : neighbor_table;
  b_master : MasterInfo;
  b_tx : OutboundSequenceState;
  b_pending : RelayPending;
  b_lastSeen : mac
}.

Definition ctx_enrollment (c : beacon_ctx) (e : Enrollment) : beacon_ctx :=
  BeaconCtx (b_beacon c) e (b_neighbors c) (b_master c) (b_tx c) (b_pending c) (b_lastSeen c).

Section Beacon.
Context {E : Env} {Pn : Pin}.

Definition intervalElapsed (b : MasterBeacon) : W (bool * MasterBeacon) :=
  now <- now_ms ;;
  if now -64 lastBeaconMillis b <? MASTER_BEACON_INTERVAL_MS then wret (false, b)
  else wret (true, Beacon now (lastMasterBeaconReceivedMs b)).

Definition beacon_send (msg : mesh_message) : W unit := sendBroadcast msg ;;; wret tt.

Definition checkTimeout (b : MasterBeacon) (isMaster : bool) (cm : MasterInfo) (lastSeen : mac)
    : W (MasterBeacon * MasterInfo * mac) :=
  if isMaster then wret (b, cm, lastSeen)
  else if distance cm =? 0xFF then wret (b, cm, lastSeen)
  else
    now <- now_ms ;;
    if STALE_MASTER_THRESHOLD_MS <? now -64 lastMasterBeaconReceivedMs b then
      wret (Beacon (lastBeaconMillis b) 0, Master ZERO_MAC 0xFF, ZERO_MAC)
    else wret (b, cm, lastSeen).

(** The trust-on-first-use step: [None] rejects the beacon. *)
Definition beacon_tofu (dualMasterMode : bool) (origin : mac) (b : MasterBeacon) (en : Enrollment)
    : W (option Enrollment) :=
  let fromPrimary := hasMasterMac en && mac_eq origin (knownMasterMac en) in
  let fromSecondary := dualMasterMode && hasMasterMacSecondary en
                       && mac_eq origin (knownMasterMacSecondary en) in
  if negb (hasMasterMac en) then
    en' <- learnMasterMac en origin ;; wret (Some en')
  else if negb fromPrimary && negb fromSecondary then
    if dualMasterMode && negb (hasMasterMacSecondary en) then
      en' <- learnSecondaryMasterMac en origin ;; wret (Some en')
    else
      now <- now_ms ;;
      if now -64 lastMasterBeaconReceivedMs b <? STALE_MASTER_THRESHOLD_MS then wret None
      else en' <- learnMasterMac en origin ;; wret (Some en')
  else wret (Some en).

(** The relay step of a non-master node, with its just-derived distance. *)
Definition beacon_relay (msg : mesh_message) (deviceMac : mac) (derived : Z)
    (tx : OutboundSequenceState) (pending : RelayPending)
    : W (OutboundSequenceState * RelayPending) :=
  if wasRelayedBefore tx (epoch_num msg) (seq_num msg) then wret (tx, pending)
  else
    r <- esp_random ;;
    let jitterMs := u8 (r mod RELAY_JITTER_MAX_MS) in
    now <- now_ms ;;
    wret (markRelayed tx (epoch_num msg) (seq_num msg),
          Pending (set_last_hop deviceMac (set_hop_count derived msg))
            (u64 (now + 10 + jitterMs)) true).

Definition beacon_process (msg : mesh_message) (deviceMac : mac) (isMaster dualMasterMode : bool)
    (c : beacon_ctx) : W beacon_ctx :=
  let origin := origin_mac_address msg in
  if mac_eq origin deviceMac then wret c
  else if negb DEV_MODE && negb (mac_eq origin MASTER_MAC) then wret c
  else if MAX_HOPS <=? hop_count msg then wret c
  else
    tofu <- beacon_tofu dualMasterMode origin (b_beacon c) (b_enrollment c) ;;
    match tofu with
    | None => wret c
    | Some en =>
        (if negb (mac_eq (b_lastSeen c) origin) && negb (hd 0 (b_lastSeen c) =? 0) then
           if dualMasterMode then wret tt else fail E_CONFIG M_MESH 7 ;;; wret tt
         else wret tt) ;;;
        received <- now_ms ;;
        now <- now_ms ;;
        let (neighbors, min_d) :=
          observeAndMinDistance (b_neighbors c) (last_hop_mac_address msg) (hop_count msg) now in
        let derived := if min_d =? 0xFF then 0xFF else u8 (min_d + 1) in
        let* (tx, pending) :=
          (if negb isMaster then beacon_relay msg deviceMac derived (b_tx c) (b_pending c)
           else wret (b_tx c, b_pending c)) in
        wret (BeaconCtx (Beacon (lastBeaconMillis (b_beacon c)) received) en neighbors
                (Master origin derived) tx pending origin)
    end.
End Beacon.

(** * Properties *)

Section props.
Context {E : Env} {Pn : Pin}.

Lemma now_ms_run w : ∃ us, now_ms w = Ok (u64 us / 1000)
                             (World (EvTimer us :: w_trace w) (w_eeprom w) (w_err w)).
Proof. by eexists. Qed.

Lemma now_ms_wp w (Q : Z → world → Prop) H :
  (∀ t w', 0 <= t → Q t w') → wp now_ms w Q H.
Proof.
  intros HQ. destruct (now_ms_run w) as [us Hr]. unfold wp. rewrite Hr. apply HQ.
  apply Z.div_pos; [apply u64_range|lia].
Qed.

(** How a beacon may change the trust state. *)
Definition tofu_ok (origin : mac) (en en' : Enrollment) : Prop :=
  en' = en ∨ en' = with_primary en origin ∨
  (hasMasterMacSecondary en = false ∧ en' = with_secondary en origin).

Lemma beacon_tofu_effect dual origin b en w :
  wp (beacon_tofu dual origin b en) w
    (λ r _, match r with
            | Some en' => tofu_ok origin en en' ∧ hasMasterMac en' = true
            | None => hasMasterMac en = true ∧ origin ≠ knownMasterMac en
            end) (λ _, True).
Proof.
  unfold beacon_tofu, tofu_ok. destruct (hasMasterMac en) eqn:Hm; cbn [negb andb].
  2:{ apply wp_bind. eapply wp_mono; [apply learnMaster_wp| |done]. intros ? ? ->.
      apply wp_ret. auto. }
  destruct (mac_eq origin (knownMasterMac en)) eqn:E1; cbn [negb andb]; [apply wp_ret; auto|].
  mac_cases. destruct (dual && hasMasterMacSecondary en && _) eqn:E2; cbn [negb]; [apply wp_ret; auto|].
  destruct (dual && negb (hasMasterMacSecondary en)) eqn:E3.
  - apply andb_true_iff in E3 as [_ E3%negb_true_iff].
    apply wp_bind. eapply wp_mono; [apply learnSecondary_wp| |done]. intros ? ? ->.
    apply wp_ret. cbn. auto.
  - apply wp_any. intros now w1. destruct (_ <? _); [by apply wp_ret|].
    apply wp_bind. eapply wp_mono; [apply learnMaster_wp| |done]. intros ? ? ->.
    apply wp_ret. auto.
Qed.

(** What an accepted relay leaves pending. *)
Definition relay_ok (msg : mesh_message) (dev : mac) (derived : Z) (tx : OutboundSequenceState)
    (p : RelayPending) (r : OutboundSequenceState * RelayPending) : Prop :=
  (r = (tx, p) ∧ wasRelayedBefore tx (epoch_num msg) (seq_num msg) = true) ∨
  (wasRelayedBefore tx (epoch_num msg) (seq_num msg) = false ∧
   r.1 = markRelayed tx (epoch_num msg) (seq_num msg) ∧ relayPending r.2 = true ∧
   relayPendingMsg r.2 = set_last_hop dev (set_hop_count derived msg)).

Lemma beacon_relay_effect msg dev derived tx p w :
  wp (beacon_relay msg dev derived tx p) w (λ r _, relay_ok msg dev derived tx p r) (λ _, True).
Proof.
  unfold beacon_relay, relay_ok. destruct (wasRelayedBefore _ _ _) eqn:Hw; [apply wp_ret; auto|].
  apply wp_any. intros r w1. apply wp_any. intros now w2. apply wp_ret. cbn. auto.
Qed.

(** Everything an accepted beacon does to the state. *)
Definition beacon_accepted (msg : mesh_message) (dev : mac) (isMaster : bool)
    (c c' : beacon_ctx) : Prop :=
  origin_mac_address msg = MASTER_MAC ∧ origin_mac_address msg ≠ dev ∧
  hop_count msg < MAX_HOPS ∧
  tofu_ok MASTER_MAC (b_enrollment c) (b_enrollment c') ∧
  b_lastSeen c' = MASTER_MAC ∧ m_mac (b_master c') = MASTER_MAC ∧
  (∃ now e, b_neighbors c' = observe (b_neighbors c) (last_hop_mac_address msg) (hop_count msg) now ∧
     e ∈ b_neighbors c' ∧ n_fresh now e = true ∧
     minFreshDistance (b_neighbors c') now = masterDistance e ∧
     distance (b_master c') = 1 + masterDistance e) ∧
  1 <= distance (b_master c') <= hop_count msg + 1 ∧
  neighbors_wf (b_neighbors c') ∧ distances_below MAX_HOPS (b_neighbors c') ∧
  (if isMaster then b_tx c' = b_tx c ∧ b_pending c' = b_pending c
   else relay_ok msg dev (distance (b_master c')) (b_tx c) (b_pending c) (b_tx c', b_pending c')).

Lemma beacon_process_effect msg dev isMaster dual c w :
  0 <= hop_count msg → neighbors_wf (b_neighbors c) → distances_below MAX_HOPS (b_neighbors c) →
  wp (beacon_process msg dev isMaster dual c) w
    (λ c' _, c' = c ∨ beacon_accepted msg dev isMaster c c') (λ _, True).
Proof.
  intros H0 W D. unfold beacon_process.
  destruct (mac_eq (origin_mac_address msg) dev) eqn:E1; [apply wp_ret; auto|]. mac_cases.
  cbn [negb andb DEV_MODE].
  destruct (mac_eq (origin_mac_address msg) MASTER_MAC) eqn:E2; cbn [negb]; [|apply wp_ret; auto].
  mac_cases. destruct (Z.leb_spec MAX_HOPS (hop_count msg)) as [|Hh]; [apply wp_ret; auto|].
  apply wp_bind. eapply wp_mono; [apply beacon_tofu_effect| |done]. cbv beta.
  intros [en|] w1 Ht; [|apply wp_ret; auto]. destruct Ht as [Ht _].
  apply wp_any. intros _ w2. apply wp_any. intros received w3.
  apply wp_bind, now_ms_wp. intros now w4 _.
  rewrite observe_min_fused by done.
  pose proof (observe_wf_aux _ (last_hop_mac_address msg) (hop_count msg) now W) as W'.
  pose proof (distances_below_observe MAX_HOPS _ (last_hop_mac_address msg) (hop_count msg) now
                ltac:(lia) D) as D'.
  assert (MAX_HOPS = 8) as E8 by done.
  destruct (minFresh_after_observe (b_neighbors c) (last_hop_mac_address msg) (hop_count msg) now W)
    as [Hle (e & He & Hf & Hmin)]; [lia|lia|].
  set (t' := observe _ _ _ _) in *. pose proof (D' e He) as Hd.
  assert (n_valid e = true) as Hv by (unfold n_fresh in Hf; by apply andb_true_iff in Hf as [? _]).
  specialize (Hd Hv). rewrite Hmin in *.
  destruct (Z.eqb_spec (masterDistance e) 0xFF); [lia|].
  assert (u8 (masterDistance e + 1) = 1 + masterDistance e) as ->
    by (unfold u8; rewrite Z.mod_small; lia).
  apply wp_bind. destruct isMaster; cbn [negb].
  - apply wp_ret, wp_ret. right. unfold beacon_accepted. cbn. rewrite E2.
    split_and!; [done|congruence|done|by rewrite <- E2|done|done| |lia|lia|done|done|done|done].
    exists now, e. split_and!; [done..|lia].
  - eapply wp_mono; [apply beacon_relay_effect| |done]. cbv beta. intros [tx p] w5 Hr.
    apply wp_ret. right. unfold beacon_accepted. cbn. rewrite E2.
    split_and!; [done|congruence|done|by rewrite <- E2|done|done| |lia|lia|done|done|done].
    exists now, e. split_and!; [done..|lia].
Qed.

(** C36. A received beacon either changes nothing at all, or it comes from the
    pinned master MAC below the hop limit; then the node's distance becomes one
    more than the smallest live neighbor distance, at most the beacon's hop count
    plus one, the neighbor table keeps its invariants, trust moves only to the
    pinned MAC, and a non-master re-broadcasts it only if it is newer than the
    last beacon it relayed, stamped with the derived distance. *)
Theorem beacon_process_spec msg dev isMaster dual c w c' w' :
  0 <= hop_count msg → neighbors_wf (b_neighbors c) → distances_below MAX_HOPS (b_neighbors c) →
  beacon_process msg dev isMaster dual c w = Ok c' w' →
  c' = c ∨ beacon_accepted msg dev isMaster c c'.
Proof.
  intros H0 W D Hr.
  exact (wp_Ok _ _ _ _ _ _ (beacon_process_effect msg dev isMaster dual c w H0 W D) Hr).
Qed.

(** The build-time pin is checked before the dual-master rules, so a secondary
    master with another MAC is never adopted from its beacons. *)
Lemma secondary_beacon_ignored msg dev isMaster c w :
  origin_mac_address msg = knownMasterMacSecondary (b_enrollment c) →
  knownMasterMacSecondary (b_enrollment c) ≠ MASTER_MAC →
  beacon_process msg dev isMaster true c w = Ok c w.
Proof.
  intros Ho Hne. unfold beacon_process. rewrite Ho.
  destruct (mac_eq _ dev); [done|]. cbn [negb andb DEV_MODE].
  by rewrite (proj2 (mac_eq_false _ _) Hne).
Qed.

(** The route to the master is dropped exactly when a non-master node has
    one and no accepted beacon arrived within the staleness threshold. *)
Theorem checkTimeout_spec b isMaster cm lastSeen w :
  ∃ now w', checkTimeout b isMaster cm lastSeen w =
    Ok (if negb isMaster && negb (distance cm =? 0xFF)
           && (STALE_MASTER_THRESHOLD_MS <? now -64 lastMasterBeaconReceivedMs b)
        then (Beacon (lastBeaconMillis b) 0, Master ZERO_MAC 0xFF, ZERO_MAC)
        else (b, cm, lastSeen)) w' ∧
    (isMaster = false → distance cm ≠ 0xFF →
     ∃ us, now = u64 us / 1000 ∧ w_trace w' = EvTimer us :: w_trace w).
Proof.
  unfold checkTimeout. destruct isMaster; cbn [negb andb]; [by exists 0, w|].
  destruct (Z.eqb_spec (distance cm) 0xFF); cbn [negb andb]; [by exists 0, w|].
  destruct (now_ms_run w) as [us Hr]. exists (u64 us / 1000). unfold wbind. rewrite Hr.
  destruct (_ <? _); (eexists; split; [reflexivity|]; by exists us).
Qed.
End props.

Definition demo_beacon : mesh_message :=
  MeshMessage PROTO_VERSION 1 0 (demo_mac 7) BROADCAST_MAC (demo_mac 5) (zeros 64) 2 3 4
    (zeros 32) 0 (zeros 48) (zeros 16) (zeros 8).

Definition demo_ctx : beacon_ctx :=
  BeaconCtx beacon_zero demo_leaf neighbors_clear (Master ZERO_MAC 0xFF) txState_zero
    (Pending mesh_message_zero 0 false) ZERO_MAC.

Lemma beacon_process_spec_witness :
  ∃ c' w', @beacon_process ref_env demo_pin demo_beacon (demo_mac 1) false false demo_ctx ref_world
           = Ok c' w' ∧
    distance (b_master c') = 3 ∧ relayPending (b_pending c') = true ∧
    (c' = demo_ctx ∨ @beacon_accepted demo_pin demo_beacon (demo_mac 1) false demo_ctx c').
Proof.
  eexists _, _. split; [vm_compute; reflexivity|]. split; [reflexivity|]. split; [reflexivity|].
  eapply (@beacon_process_spec ref_env demo_pin demo_beacon (demo_mac 1) false false demo_ctx ref_world);
    [cbn; lia|exact neighbors_clear_wf|apply distances_below_clear|vm_compute; reflexivity].
Defined.
