(* ===== verification/Authorizer.v ===== *)
(** [mesh/FrameAuthorizer]: may an inbound ADAPTER_DATA frame be delivered, and
    with which payload. *)
From S2P Require Import Prelude Config MacTable Wire Platform ErrorCore Eeprom PeerRegistry.
From S2P Require Import Transport Crypto Enrollment KeyStore.

(** The opcodes only an authenticated frame may carry. *)
Definition isConfigOpcode `{Protocol} (m : mesh_message) : bool :=
  (data_type m =? SERIAL_ADAPTER) &&
  ((hd 0 (data m) =? OP_CONFIG_SET) || (hd 0 (data m) =? OP_NODE_ID_SET)).

Section Authorizer.
Context {Pr : Protocol} {C : Crypto}.

(** [authorize]; [None] is [Rejected], [Some opened] is [Authorized]. *)
Definition authorize (msg : mesh_message) (isMaster addressedToSelf : bool) (cm : MasterInfo)
    (peers : PeerRegistry) (en : Enrollment) (ks : E2EKeyStore)
    : W (option mesh_message * E2EKeyStore) :=
  if isMaster && negb addressedToSelf && isSealedType (message_type msg) then wret (None, ks)
  else
    let needsOpen := isMaster && addressedToSelf && isSealedType (message_type msg) in
    let nodeOpened :=
      negb isMaster && addressedToSelf && (message_type msg =? MESH_TYPE_ADAPTER_DATA) in
    let* (opened, ks') :=
      (if needsOpen then
         let* (keys, ks1) := peerE2EKeys (origin_mac_address msg) peers en ks in
         wret (match keys with Some (up, _) => openPayload up msg | None => None end, ks1)
       else if nodeOpened then
         let* (keys, ks1) := masterE2EKeys cm peers en ks in
         wret (match keys with Some (_, down) => openPayload down msg | None => None end, ks1)
       else wret (Some msg, ks)) in
    match opened with
    | None => wret (None, ks')
    | Some f =>
        if isConfigOpcode f && negb needsOpen && negb nodeOpened then wret (None, ks')
        else if isConfigOpcode f && hasMasterMac en
                && negb (mac_eq (origin_mac_address f) (knownMasterMac en))
                && negb (hasMasterMacSecondary en
                         && mac_eq (origin_mac_address f) (knownMasterMacSecondary en))
        then wret (None, ks')
        else wret (Some f, ks')
    end.

(** [f] is the plaintext of [msg] under [key]: sealing it back gives the
    ciphertext and tag that arrived. *)
Definition sealed_by (key : bytes) (f msg : mesh_message) : Prop :=
  openPayload key msg = Some f ∧
  ∃ s, sealPayload key f = Some s ∧ data s = data msg ∧ auth_tag s = auth_tag msg ∧
       same_header f msg.

(** The origin is an acceptable source of configuration. *)
Definition from_master (en : Enrollment) (m : mac) : Prop :=
  hasMasterMac en = true →
  m = knownMasterMac en ∨ (hasMasterMacSecondary en = true ∧ m = knownMasterMacSecondary en).

(** What an authorized frame [f] is worth. *)
Definition authentic (msg : mesh_message) (isMaster addressedToSelf : bool) (cm : MasterInfo)
    (peers : PeerRegistry) (en : Enrollment) (f : mesh_message) : Prop :=
  let own := devicePrivateKey en in
  (isMaster = true → isSealedType (message_type msg) = true →
     addressedToSelf = true ∧
     ∃ up down, keys_of own peers (origin_mac_address msg) = Some (up, down) ∧
                sealed_by up f msg) ∧
  (isMaster = false → addressedToSelf = true → message_type msg = MESH_TYPE_ADAPTER_DATA →
     hasMasterMac en = true ∧
     ∃ up down, keys_of own peers (m_mac cm) = Some (up, down) ∧ sealed_by down f msg) ∧
  (isConfigOpcode f = true →
     addressedToSelf = true ∧ from_master en (origin_mac_address msg) ∧
     ∃ m up down key, keys_of own peers m = Some (up, down) ∧
       (if isMaster then m = origin_mac_address msg ∧ key = up else m = m_mac cm ∧ key = down) ∧
       sealed_by key f msg).

Lemma openPayload_sealed_by `{!CryptoLawful C} key f msg :
  openPayload key msg = Some f → sealed_by key f msg.
Proof. intros H. split; [done|]. by apply open_is_sealed. Qed.

(** What the gates of [authorize] leave of a frame whose payload was opened as
    required. *)
Lemma gates_authentic msg (isMaster self : bool) cm peers en f :
  let needsOpen := isMaster && self && isSealedType (message_type msg) in
  let nodeOpened := negb isMaster && self && (message_type msg =? MESH_TYPE_ADAPTER_DATA) in
  isMaster && negb self && isSealedType (message_type msg) = false →
  (needsOpen = true → ∃ up down, keys_of (devicePrivateKey en) peers (origin_mac_address msg)
     = Some (up, down) ∧ sealed_by up f msg) →
  (nodeOpened = true → hasMasterMac en = true ∧ ∃ up down,
     keys_of (devicePrivateKey en) peers (m_mac cm) = Some (up, down) ∧ sealed_by down f msg) →
  same_header f msg →
  isConfigOpcode f && negb needsOpen && negb nodeOpened = false →
  isConfigOpcode f && hasMasterMac en
    && negb (mac_eq (origin_mac_address f) (knownMasterMac en))
    && negb (hasMasterMacSecondary en
             && mac_eq (origin_mac_address f) (knownMasterMacSecondary en)) = false →
  authentic msg isMaster self cm peers en f.
Proof.
  intros needsOpen nodeOpened Hg HN HO Hs H1 H2. unfold authentic.
  pose proof Hs as (_ & _ & _ & Ho & _). split_and!.
  - intros -> Hst. destruct self; [|by rewrite Hst in Hg]. split; [done|]. apply HN.
    unfold needsOpen. by rewrite Hst.
  - intros -> -> Ht. apply HO. unfold nodeOpened. by rewrite Ht, Z.eqb_refl.
  - intros Hcfg. rewrite Hcfg in H1, H2. cbn [andb] in H1, H2.
    assert (from_master en (origin_mac_address msg)) as Hfm.
    { intros Hm. rewrite Hm in H2. cbn [andb] in H2. rewrite <- Ho.
      destruct (mac_eq (origin_mac_address f) (knownMasterMac en)) eqn:E1; mac_cases; [by left|].
      cbn [negb andb] in H2. apply negb_false_iff, andb_true_iff in H2 as [H2a H2b].
      mac_cases. by right. }
    destruct needsOpen eqn:EN.
    + destruct (HN eq_refl) as (up & down & Hk & Hsb). unfold needsOpen in EN.
      destruct isMaster, self; try done. split_and!; [done|done|].
      by exists (origin_mac_address msg), up, down, up.
    + cbn [negb andb] in H1. apply negb_false_iff in H1.
      destruct (HO H1) as (_ & up & down & Hk & Hsb). unfold nodeOpened in H1.
      destruct isMaster, self; try done. split_and!; [done|done|].
      by exists (m_mac cm), up, down, down.
Qed.

Lemma authorize_effect `{!CryptoLawful C} msg isMaster self cm peers en ks w :
  fresh_cache (devicePrivateKey en) peers ks → (0 < capacity_ ks)%nat →
  wp (authorize msg isMaster self cm peers en ks) w
    (λ r w', w' = w ∧ fresh_cache (devicePrivateKey en) peers r.2 ∧ capacity_ r.2 = capacity_ ks ∧
             ∀ f, r.1 = Some f → authentic msg isMaster self cm peers en f)
    (λ _, True).
Proof.
  intros F Hc. unfold authorize.
  destruct (isMaster && negb self && isSealedType (message_type msg)) eqn:Hg.
  { apply wp_ret. by split_and!. }
  set (needsOpen := isMaster && self && isSealedType (message_type msg)).
  set (nodeOpened := negb isMaster && self && (message_type msg =? MESH_TYPE_ADAPTER_DATA)).
  apply wp_bind.
  match goal with |- wp ?c _ _ _ => assert (wp c w (λ r w', w' = w ∧
    fresh_cache (devicePrivateKey en) peers r.2 ∧ capacity_ r.2 = capacity_ ks ∧
    ∀ f, r.1 = Some f →
      (needsOpen = true → ∃ up down, keys_of (devicePrivateKey en) peers (origin_mac_address msg)
         = Some (up, down) ∧ sealed_by up f msg) ∧
      (nodeOpened = true → hasMasterMac en = true ∧ ∃ up down,
         keys_of (devicePrivateKey en) peers (m_mac cm) = Some (up, down) ∧ sealed_by down f msg) ∧
      same_header f msg) (λ _, True)) as Hopen end.
  { destruct needsOpen eqn:HN.
    - assert (nodeOpened = false) as ->.
      { unfold needsOpen, nodeOpened in *. by destruct isMaster, self. }
      apply wp_bind. eapply wp_mono; [by apply peerE2EKeys_effect| |done]. cbv beta.
      intros [keys ks1] w1 (-> & Hk & F1 & C1). cbn in Hk, F1, C1. apply wp_ret. cbn [fst snd].
      split_and!; [done..|]. intros f Hf. destruct keys as [[up down]|]; [|done].
      apply openPayload_sealed_by in Hf. pose proof Hf as (_ & s & _ & _ & _ & Hs).
      split_and!; [|done|apply Hs..]. intros _. by exists up, down.
    - destruct nodeOpened eqn:HO.
      + apply wp_bind. eapply wp_mono; [by apply masterE2EKeys_effect| |done]. cbv beta.
        intros [keys ks1] w1 (-> & Hk & F1 & C1). cbn in Hk, F1, C1. apply wp_ret. cbn [fst snd].
        split_and!; [done..|]. intros f Hf. destruct keys as [[up down]|]; [|done].
        apply openPayload_sealed_by in Hf. pose proof Hf as (_ & s & _ & _ & _ & Hs).
        split_and!; [done| |apply Hs..]. intros _.
        destruct (hasMasterMac en); [|done]. split; [done|]. by exists up, down.
      + apply wp_ret. cbn. split_and!; [done..|]. intros f [= <-]. by split_and!. }
  eapply wp_mono; [exact Hopen| |done]. cbv beta. clear Hopen.
  intros [opened ks'] w1 (-> & F1 & C1 & Hf). cbn in F1, C1, Hf.
  destruct opened as [f|]; [|by apply wp_ret].
  destruct (Hf f eq_refl) as (HN & HO & Hs). clear Hf.
  destruct (isConfigOpcode f && negb needsOpen && negb nodeOpened) eqn:H1; [by apply wp_ret|].
  destruct (isConfigOpcode f && hasMasterMac en && _ && _) eqn:H2; [by apply wp_ret|].
  apply wp_ret. cbn. split_and!; [done..|]. intros ? [= <-]. by apply gates_authentic.
Qed.


(** A node accepts what its master sealed for it. *)
Lemma downlink_authorized `{!CryptoLawful C} cmd sealed seen cm peersM enM peersN enN ksN w
    up down pM pN :
  is_keypair (devicePrivateKey enM) (devicePublicKey enM) →
  is_keypair (devicePrivateKey enN) (devicePublicKey enN) →
  peer_find peersM (target_mac_address cmd) = Some pN → publicKey pN = devicePublicKey enN →
  peer_find peersN (m_mac cm) = Some pM → publicKey pM = devicePublicKey enM →
  is_zero (publicKey pM) = false →
  keys_of (devicePrivateKey enM) peersM (target_mac_address cmd) = Some (up, down) →
  message_type cmd = MESH_TYPE_ADAPTER_DATA →
  hasMasterMac enN = true → knownMasterMac enN = origin_mac_address cmd →
  fresh_cache (devicePrivateKey enN) peersN ksN → (0 < capacity_ ksN)%nat →
  sealPayload down cmd = Some sealed →
  same_header seen sealed → data seen = data sealed → auth_tag seen = auth_tag sealed →
  ∃ ks', authorize seen false true cm peersN enN ksN w = Ok (Some (set_data (data cmd) seen), ks') w.
Proof.
  intros KM KN HpN HkN HpM HkM Hz Hkeys Ht Hhm Hkm F Hc Hs Hh Hd Htag.
  assert (derived (devicePrivateKey enN) (publicKey pM) = Some (up, down)) as Hder.
  { unfold keys_of in Hkeys. rewrite HpN in Hkeys. cbn in Hkeys.
    destruct (is_zero (publicKey pN)); [done|]. rewrite HkN in Hkeys. rewrite HkM.
    destruct KM as (_ & _ & KM), KN as (_ & _ & KN). rewrite <- Hkeys.
    unfold derived, x25519_shared. by rewrite KM, KN, x25519_agree. }
  assert (keys_of (devicePrivateKey enN) peersN (m_mac cm) = Some (up, down)) as HkeysN.
  { unfold keys_of. rewrite HpM. cbn. by rewrite Hz. }
  assert (same_header sealed cmd) as Hsc.
  { unfold sealPayload in Hs. destruct (mb_seal _ _ _ _) as [[c t]|]; [|done].
    simplify_eq. by repeat split. }
  assert (same_header seen cmd) as Hcc by (by etrans).
  assert (openPayload down seen = Some (set_data (data cmd) seen)) as Hopen.
  { unfold sealPayload in Hs. unfold openPayload.
    rewrite Hd, Htag, (buildNonce_proper _ _ Hcc), (buildAad_proper _ _ Hcc).
    destruct (mb_seal _ _ _ _) as [[c t]|] eqn:Es; [|done]. simplify_eq.
    cbn [data auth_tag set_auth_tag set_data].
    by rewrite (open_seal _ _ _ _ _ _ Es). }
  pose proof Hcc as (_ & Hct & _ & Hco & _).
  unfold authorize. cbn [andb negb]. rewrite Hct, Ht, Z.eqb_refl. unfold wbind at 1 2.
  pose proof (masterE2EKeys_effect cm peersN enN ksN w F Hc) as Hmk. unfold wp in Hmk.
  rewrite Hhm in Hmk.
  destruct (masterE2EKeys cm peersN enN ksN w) as [[keys ks1] w1|w1].
  2:{ destruct Hmk as [_ Hmk]. congruence. }
  destruct Hmk as (-> & Hk & _). cbn in Hk. rewrite HkeysN in Hk. subst keys.
  unfold wret at 1. rewrite Hopen. cbn [andb negb]. rewrite andb_false_r.
  assert (origin_mac_address (set_data (data cmd) seen) = knownMasterMac enN) as ->.
  { cbn. congruence. }
  rewrite mac_eq_refl. cbn [negb]. rewrite !andb_false_r. cbn [andb]. by exists ks1.
Qed.

(** C10. End to end, a node accepts its master's command: if master and node hold
    each other's public keys, then whatever the master seals under the node's
    downlink key is authorized at the node with the plaintext the master sealed,
    whichever relays carried it. *)
Theorem downlink_end_to_end `{!CryptoLawful C} cmd sealed seen cm peersM enM peersN enN ksN w
    up down pM pN :
  is_keypair (devicePrivateKey enM) (devicePublicKey enM) →
  is_keypair (devicePrivateKey enN) (devicePublicKey enN) →
  peer_find peersM (target_mac_address cmd) = Some pN → publicKey pN = devicePublicKey enN →
  peer_find peersN (m_mac cm) = Some pM → publicKey pM = devicePublicKey enM →
  is_zero (publicKey pM) = false →
  keys_of (devicePrivateKey enM) peersM (target_mac_address cmd) = Some (up, down) →
  message_type cmd = MESH_TYPE_ADAPTER_DATA →
  hasMasterMac enN = true → knownMasterMac enN = origin_mac_address cmd →
  fresh_cache (devicePrivateKey enN) peersN ksN → (0 < capacity_ ksN)%nat →
  sealPayload down cmd = Some sealed →
  same_header seen sealed → data seen = data sealed → auth_tag seen = auth_tag sealed →
  ∃ ks', authorize seen false true cm peersN enN ksN w = Ok (Some (set_data (data cmd) seen), ks') w.
Proof. apply downlink_authorized. Qed.
End Authorizer.

(** * A master and a node that know each other, for witnesses *)
Definition demo_master_en : Enrollment :=
  Enroll (replicate 32 8) (replicate 32 8) false BROADCAST_MAC false BROADCAST_MAC true [].
Definition demo_node_en : Enrollment :=
  Enroll (replicate 32 3) (replicate 32 3) true (demo_mac 7) false BROADCAST_MAC true [].
Definition demo_master_peers : PeerRegistry :=
  Registry [Peer (demo_mac 1) (replicate 32 3) 0] (demo_mac 7).
Definition demo_node_peers : PeerRegistry :=
  Registry [Peer (demo_mac 7) (replicate 32 8) 0] (demo_mac 1).

(** A CONFIG_SET for [demo_mac 1]. *)
Definition demo_cmd : mesh_message :=
  MeshMessage PROTO_VERSION 0 1 (demo_mac 7) (demo_mac 1) (demo_mac 7)
    (0xC1 :: zeros 63) 0 2 5 (zeros 32) 0 (zeros 48) (zeros 16) (zeros 8).

Definition demo_keys : bytes * bytes :=
  default ([], []) (@derived toy_crypto (replicate 32 8) (replicate 32 3)).
Definition demo_sealed : mesh_message :=
  default mesh_message_zero (@sealPayload toy_crypto demo_keys.2 demo_cmd).

#[local] Existing Instance documented_protocol.

Lemma downlink_end_to_end_witness :
  ∃ ks', authorize (C := toy_crypto) (relay_step (demo_mac 5) demo_sealed) false true
           (Master (demo_mac 7) 2) demo_node_peers demo_node_en keystore_new ref_world
         = Ok (Some (set_data (data demo_cmd) (relay_step (demo_mac 5) demo_sealed)), ks') ref_world.
Proof.
  apply (@downlink_end_to_end documented_protocol toy_crypto toy_lawful demo_cmd demo_sealed _ _
           demo_master_peers demo_master_en _ _ _ _ demo_keys.1 demo_keys.2
           (Peer (demo_mac 7) (replicate 32 8) 0) (Peer (demo_mac 1) (replicate 32 3) 0));
    try (vm_compute; reflexivity); try (by repeat split).
  - apply fresh_cache_empty.
  - vm_compute. lia.
Defined.

