(* ===== verification/Node.v ===== *)
(** The state of one node: the members of class [Mesh] (mesh/Mesh.h), its
    collaborators' state included, with an update function per member. *)
From S2P Require Import Prelude Config NeighborTable Wire Platform PeerRegistry Transport Crypto.
From S2P Require Import Enrollment KeyStore ReplayCache RouteTable Routers Beacon.

Record Node := {
  meshKey : bytes;   (* uint8_t[16] *)
  deviceMacAddress : mac;
  lastSeenMasterMac : mac;
  peers : PeerRegistry;
  recvQueue : list RecvQueueEntry;   (* transport *)
  externalRecvCallback : bool;   (* set by linkDataRecvCallback *)
  currentMaster : MasterInfo;
  isMaster : bool;
  beacon : MasterBeacon;
  downlinkPeerLru : list mac;   (* router *)
  forwardingPeer : mac;   (* uplinkRouter *)
  replay : list rentry;
  txState : OutboundSequenceState;
  pendingRelay : RelayPending;   (* relayPendingMsg, relayPendingAt, relayPending *)
  dualMasterMode : bool;
  lastRouteReportMs : Z;
  lastEnrollmentBroadcastMs : Z;
  enrollment : Enrollment;
  enrollmentRelayFn : bool;   (* set by setEnrollmentRelayFn *)
  e2eKeys : E2EKeyStore;
  neighbors : neighbor_table;
  routes : option (list route_entry)   (* null on a leaf *)
}.

Definition upd_meshKey (v : bytes) (n : Node) : Node :=
  {| meshKey := v; deviceMacAddress := deviceMacAddress n;
     lastSeenMasterMac := lastSeenMasterMac n; peers := peers n; recvQueue := recvQueue n;
     externalRecvCallback := externalRecvCallback n; currentMaster := currentMaster n;
     isMaster := isMaster n; beacon := beacon n; downlinkPeerLru := downlinkPeerLru n;
     forwardingPeer := forwardingPeer n; replay := replay n; txState := txState n;
     pendingRelay := pendingRelay n; dualMasterMode := dualMasterMode n;
     lastRouteReportMs := lastRouteReportMs n;
     lastEnrollmentBroadcastMs := lastEnrollmentBroadcastMs n; enrollment := enrollment n;
     enrollmentRelayFn := enrollmentRelayFn n; e2eKeys := e2eKeys n; neighbors := neighbors n;
     routes := routes n |}.
Definition upd_deviceMacAddress (v : mac) (n : Node) : Node :=
  {| meshKey := meshKey n; deviceMacAddress := v; lastSeenMasterMac := lastSeenMasterMac n;
     peers := peers n; recvQueue := recvQueue n; externalRecvCallback := externalRecvCallback n;
     currentMaster := currentMaster n; isMaster := isMaster n; beacon := beacon n;
     downlinkPeerLru := downlinkPeerLru n; forwardingPeer := forwardingPeer n;
     replay := replay n; txState := txState n; pendingRelay := pendingRelay n;
     dualMasterMode := dualMasterMode n; lastRouteReportMs := lastRouteReportMs n;
     lastEnrollmentBroadcastMs := lastEnrollmentBroadcastMs n; enrollment := enrollment n;
     enrollmentRelayFn := enrollmentRelayFn n; e2eKeys := e2eKeys n; neighbors := neighbors n;
     routes := routes n |}.
Definition upd_peers (v : PeerRegistry) (n : Node) : Node :=
  {| meshKey := meshKey n; deviceMacAddress := deviceMacAddress n;
     lastSeenMasterMac := lastSeenMasterMac n; peers := v; recvQueue := recvQueue n;
     externalRecvCallback := externalRecvCallback n; currentMaster := currentMaster n;
     isMaster := isMaster n; beacon := beacon n; downlinkPeerLru := downlinkPeerLru n;
     forwardingPeer := forwardingPeer n; replay := replay n; txState := txState n;
     pendingRelay := pendingRelay n; dualMasterMode := dualMasterMode n;
     lastRouteReportMs := lastRouteReportMs n;
     lastEnrollmentBroadcastMs := lastEnrollmentBroadcastMs n; enrollment := enrollment n;
     enrollmentRelayFn := enrollmentRelayFn n; e2eKeys := e2eKeys n; neighbors := neighbors n;
     routes := routes n |}.
Definition upd_recvQueue (v : list RecvQueueEntry) (n : Node) : Node :=
  {| meshKey := meshKey n; deviceMacAddress := deviceMacAddress n;
     lastSeenMasterMac := lastSeenMasterMac n; peers := peers n; recvQueue := v;
     externalRecvCallback := externalRecvCallback n; currentMaster := currentMaster n;
     isMaster := isMaster n; beacon := beacon n; downlinkPeerLru := downlinkPeerLru n;
     forwardingPeer := forwardingPeer n; replay := replay n; txState := txState n;
     pendingRelay := pendingRelay n; dualMasterMode := dualMasterMode n;
     lastRouteReportMs := lastRouteReportMs n;
     lastEnrollmentBroadcastMs := lastEnrollmentBroadcastMs n; enrollment := enrollment n;
     enrollmentRelayFn := enrollmentRelayFn n; e2eKeys := e2eKeys n; neighbors := neighbors n;
     routes := routes n |}.
Definition upd_externalRecvCallback (v : bool) (n : Node) : Node :=
  {| meshKey := meshKey n; deviceMacAddress := deviceMacAddress n;
     lastSeenMasterMac := lastSeenMasterMac n; peers := peers n; recvQueue := recvQueue n;
     externalRecvCallback := v; currentMaster := currentMaster n; isMaster := isMaster n;
     beacon := beacon n; downlinkPeerLru := downlinkPeerLru n;
     forwardingPeer := forwardingPeer n; replay := replay n; txState := txState n;
     pendingRelay := pendingRelay n; dualMasterMode := dualMasterMode n;
     lastRouteReportMs := lastRouteReportMs n;
     lastEnrollmentBroadcastMs := lastEnrollmentBroadcastMs n; enrollment := enrollment n;
     enrollmentRelayFn := enrollmentRelayFn n; e2eKeys := e2eKeys n; neighbors := neighbors n;
     routes := routes n |}.
Definition upd_isMaster (v : bool) (n : Node) : Node :=
  {| meshKey := meshKey n; deviceMacAddress := deviceMacAddress n;
     lastSeenMasterMac := lastSeenMasterMac n; peers := peers n; recvQueue := recvQueue n;
     externalRecvCallback := externalRecvCallback n; currentMaster := currentMaster n;
     isMaster := v; beacon := beacon n; downlinkPeerLru := downlinkPeerLru n;
     forwardingPeer := forwardingPeer n; replay := replay n; txState := txState n;
     pendingRelay := pendingRelay n; dualMasterMode := dualMasterMode n;
     lastRouteReportMs := lastRouteReportMs n;
     lastEnrollmentBroadcastMs := lastEnrollmentBroadcastMs n; enrollment := enrollment n;
     enrollmentRelayFn := enrollmentRelayFn n; e2eKeys := e2eKeys n; neighbors := neighbors n;
     routes := routes n |}.
Definition upd_downlinkPeerLru (v : list mac) (n : Node) : Node :=
  {| meshKey := meshKey n; deviceMacAddress := deviceMacAddress n;
     lastSeenMasterMac := lastSeenMasterMac n; peers := peers n; recvQueue := recvQueue n;
     externalRecvCallback := externalRecvCallback n; currentMaster := currentMaster n;
     isMaster := isMaster n; beacon := beacon n; downlinkPeerLru := v;
     forwardingPeer := forwardingPeer n; replay := replay n; txState := txState n;
     pendingRelay := pendingRelay n; dualMasterMode := dualMasterMode n;
     lastRouteReportMs := lastRouteReportMs n;
     lastEnrollmentBroadcastMs := lastEnrollmentBroadcastMs n; enrollment := enrollment n;
     enrollmentRelayFn := enrollmentRelayFn n; e2eKeys := e2eKeys n; neighbors := neighbors n;
     routes := routes n |}.
Definition upd_forwardingPeer (v : mac) (n : Node) : Node :=
  {| meshKey := meshKey n; deviceMacAddress := deviceMacAddress n;
     lastSeenMasterMac := lastSeenMasterMac n; peers := peers n; recvQueue := recvQueue n;
     externalRecvCallback := externalRecvCallback n; currentMaster := currentMaster n;
     isMaster := isMaster n; beacon := beacon n; downlinkPeerLru := downlinkPeerLru n;
     forwardingPeer := v; replay := replay n; txState := txState n;
     pendingRelay := pendingRelay n; dualMasterMode := dualMasterMode n;
     lastRouteReportMs := lastRouteReportMs n;
     lastEnrollmentBroadcastMs := lastEnrollmentBroadcastMs n; enrollment := enrollment n;
     enrollmentRelayFn := enrollmentRelayFn n; e2eKeys := e2eKeys n; neighbors := neighbors n;
     routes := routes n |}.
Definition upd_replay (v : list rentry) (n : Node) : Node :=
  {| meshKey := meshKey n; deviceMacAddress := deviceMacAddress n;
     lastSeenMasterMac := lastSeenMasterMac n; peers := peers n; recvQueue := recvQueue n;
     externalRecvCallback := externalRecvCallback n; currentMaster := currentMaster n;
     isMaster := isMaster n; beacon := beacon n; downlinkPeerLru := downlinkPeerLru n;
     forwardingPeer := forwardingPeer n; replay := v; txState := txState n;
     pendingRelay := pendingRelay n; dualMasterMode := dualMasterMode n;
     lastRouteReportMs := lastRouteReportMs n;
     lastEnrollmentBroadcastMs := lastEnrollmentBroadcastMs n; enrollment := enrollment n;
     enrollmentRelayFn := enrollmentRelayFn n; e2eKeys := e2eKeys n; neighbors := neighbors n;
     routes := routes n |}.
Definition upd_txState (v : OutboundSequenceState) (n : Node) : Node :=
  {| meshKey := meshKey n; deviceMacAddress := deviceMacAddress n;
     lastSeenMasterMac := lastSeenMasterMac n; peers := peers n; recvQueue := recvQueue n;
     externalRecvCallback := externalRecvCallback n; currentMaster := currentMaster n;
     isMaster := isMaster n; beacon := beacon n; downlinkPeerLru := downlinkPeerLru n;
     forwardingPeer := forwardingPeer n; replay := replay n; txState := v;
     pendingRelay := pendingRelay n; dualMasterMode := dualMasterMode n;
     lastRouteReportMs := lastRouteReportMs n;
     lastEnrollmentBroadcastMs := lastEnrollmentBroadcastMs n; enrollment := enrollment n;
     enrollmentRelayFn := enrollmentRelayFn n; e2eKeys := e2eKeys n; neighbors := neighbors n;
     routes := routes n |}.
Definition upd_pendingRelay (v : RelayPending) (n : Node) : Node :=
  {| meshKey := meshKey n; deviceMacAddress := deviceMacAddress n;
     lastSeenMasterMac := lastSeenMasterMac n; peers := peers n; recvQueue := recvQueue n;
     externalRecvCallback := externalRecvCallback n; currentMaster := currentMaster n;
     isMaster := isMaster n; beacon := beacon n; downlinkPeerLru := downlinkPeerLru n;
     forwardingPeer := forwardingPeer n; replay := replay n; txState := txState n;
     pendingRelay := v; dualMasterMode := dualMasterMode n;
     lastRouteReportMs := lastRouteReportMs n;
     lastEnrollmentBroadcastMs := lastEnrollmentBroadcastMs n; enrollment := enrollment n;
     enrollmentRelayFn := enrollmentRelayFn n; e2eKeys := e2eKeys n; neighbors := neighbors n;
     routes := routes n |}.
Definition upd_beacon (v : MasterBeacon) (n : Node) : Node :=
  {| meshKey := meshKey n; deviceMacAddress := deviceMacAddress n;
     lastSeenMasterMac := lastSeenMasterMac n; peers := peers n; recvQueue := recvQueue n;
     externalRecvCallback := externalRecvCallback n; currentMaster := currentMaster n;
     isMaster := isMaster n; beacon := v; downlinkPeerLru := downlinkPeerLru n;
     forwardingPeer := forwardingPeer n; replay := replay n; txState := txState n;
     pendingRelay := pendingRelay n; dualMasterMode := dualMasterMode n;
     lastRouteReportMs := lastRouteReportMs n;
     lastEnrollmentBroadcastMs := lastEnrollmentBroadcastMs n; enrollment := enrollment n;
     enrollmentRelayFn := enrollmentRelayFn n; e2eKeys := e2eKeys n; neighbors := neighbors n;
     routes := routes n |}.
Definition upd_dualMasterMode (v : bool) (n : Node) : Node :=
  {| meshKey := meshKey n; deviceMacAddress := deviceMacAddress n;
     lastSeenMasterMac := lastSeenMasterMac n; peers := peers n; recvQueue := recvQueue n;
     externalRecvCallback := externalRecvCallback n; currentMaster := currentMaster n;
     isMaster := isMaster n; beacon := beacon n; downlinkPeerLru := downlinkPeerLru n;
     forwardingPeer := forwardingPeer n; replay := replay n; txState := txState n;
     pendingRelay := pendingRelay n; dualMasterMode := v;
     lastRouteReportMs := lastRouteReportMs n;
     lastEnrollmentBroadcastMs := lastEnrollmentBroadcastMs n; enrollment := enrollment n;
     enrollmentRelayFn := enrollmentRelayFn n; e2eKeys := e2eKeys n; neighbors := neighbors n;
     routes := routes n |}.
Definition upd_lastRouteReportMs (v : Z) (n : Node) : Node :=
  {| meshKey := meshKey n; deviceMacAddress := deviceMacAddress n;
     lastSeenMasterMac := lastSeenMasterMac n; peers := peers n; recvQueue := recvQueue n;
     externalRecvCallback := externalRecvCallback n; currentMaster := currentMaster n;
     isMaster := isMaster n; beacon := beacon n; downlinkPeerLru := downlinkPeerLru n;
     forwardingPeer := forwardingPeer n; replay := replay n; txState := txState n;
     pendingRelay := pendingRelay n; dualMasterMode := dualMasterMode n; lastRouteReportMs := v;
     lastEnrollmentBroadcastMs := lastEnrollmentBroadcastMs n; enrollment := enrollment n;
     enrollmentRelayFn := enrollmentRelayFn n; e2eKeys := e2eKeys n; neighbors := neighbors n;
     routes := routes n |}.
Definition upd_lastEnrollmentBroadcastMs (v : Z) (n : Node) : Node :=
  {| meshKey := meshKey n; deviceMacAddress := deviceMacAddress n;
     lastSeenMasterMac := lastSeenMasterMac n; peers := peers n; recvQueue := recvQueue n;
     externalRecvCallback := externalRecvCallback n; currentMaster := currentMaster n;
     isMaster := isMaster n; beacon := beacon n; downlinkPeerLru := downlinkPeerLru n;
     forwardingPeer := forwardingPeer n; replay := replay n; txState := txState n;
     pendingRelay := pendingRelay n; dualMasterMode := dualMasterMode n;
     lastRouteReportMs := lastRouteReportMs n; lastEnrollmentBroadcastMs := v;
     enrollment := enrollment n; enrollmentRelayFn := enrollmentRelayFn n; e2eKeys := e2eKeys n;
     neighbors := neighbors n; routes := routes n |}.
Definition upd_enrollment (v : Enrollment) (n : Node) : Node :=
  {| meshKey := meshKey n; deviceMacAddress := deviceMacAddress n;
     lastSeenMasterMac := lastSeenMasterMac n; peers := peers n; recvQueue := recvQueue n;
     externalRecvCallback := externalRecvCallback n; currentMaster := currentMaster n;
     isMaster := isMaster n; beacon := beacon n; downlinkPeerLru := downlinkPeerLru n;
     forwardingPeer := forwardingPeer n; replay := replay n; txState := txState n;
     pendingRelay := pendingRelay n; dualMasterMode := dualMasterMode n;
     lastRouteReportMs := lastRouteReportMs n;
     lastEnrollmentBroadcastMs := lastEnrollmentBroadcastMs n; enrollment := v;
     enrollmentRelayFn := enrollmentRelayFn n; e2eKeys := e2eKeys n; neighbors := neighbors n;
     routes := routes n |}.
Definition upd_enrollmentRelayFn (v : bool) (n : Node) : Node :=
  {| meshKey := meshKey n; deviceMacAddress := deviceMacAddress n;
     lastSeenMasterMac := lastSeenMasterMac n; peers := peers n; recvQueue := recvQueue n;
     externalRecvCallback := externalRecvCallback n; currentMaster := currentMaster n;
     isMaster := isMaster n; beacon := beacon n; downlinkPeerLru := downlinkPeerLru n;
     forwardingPeer := forwardingPeer n; replay := replay n; txState := txState n;
     pendingRelay := pendingRelay n; dualMasterMode := dualMasterMode n;
     lastRouteReportMs := lastRouteReportMs n;
     lastEnrollmentBroadcastMs := lastEnrollmentBroadcastMs n; enrollment := enrollment n;
     enrollmentRelayFn := v; e2eKeys := e2eKeys n; neighbors := neighbors n;
     routes := routes n |}.
Definition upd_e2eKeys (v : E2EKeyStore) (n : Node) : Node :=
  {| meshKey := meshKey n; deviceMacAddress := deviceMacAddress n;
     lastSeenMasterMac := lastSeenMasterMac n; peers := peers n; recvQueue := recvQueue n;
     externalRecvCallback := externalRecvCallback n; currentMaster := currentMaster n;
     isMaster := isMaster n; beacon := beacon n; downlinkPeerLru := downlinkPeerLru n;
     forwardingPeer := forwardingPeer n; replay := replay n; txState := txState n;
     pendingRelay := pendingRelay n; dualMasterMode := dualMasterMode n;
     lastRouteReportMs := lastRouteReportMs n;
     lastEnrollmentBroadcastMs := lastEnrollmentBroadcastMs n; enrollment := enrollment n;
     enrollmentRelayFn := enrollmentRelayFn n; e2eKeys := v; neighbors := neighbors n;
     routes := routes n |}.
Definition upd_routes (v : option (list route_entry)) (n : Node) : Node :=
  {| meshKey := meshKey n; deviceMacAddress := deviceMacAddress n;
     lastSeenMasterMac := lastSeenMasterMac n; peers := peers n; recvQueue := recvQueue n;
     externalRecvCallback := externalRecvCallback n; currentMaster := currentMaster n;
     isMaster := isMaster n; beacon := beacon n; downlinkPeerLru := downlinkPeerLru n;
     forwardingPeer := forwardingPeer n; replay := replay n; txState := txState n;
     pendingRelay := pendingRelay n; dualMasterMode := dualMasterMode n;
     lastRouteReportMs := lastRouteReportMs n;
     lastEnrollmentBroadcastMs := lastEnrollmentBroadcastMs n; enrollment := enrollment n;
     enrollmentRelayFn := enrollmentRelayFn n; e2eKeys := e2eKeys n; neighbors := neighbors n;
     routes := v |}.

(** The members [MasterBeacon::process] takes by reference, and their update. *)
Definition beacon_ctx_of (n : Node) : beacon_ctx :=
  BeaconCtx (beacon n) (enrollment n) (neighbors n) (currentMaster n) (txState n) (pendingRelay n)
    (lastSeenMasterMac n).
Definition upd_beacon_ctx (c : beacon_ctx) (n : Node) : Node :=
  {| meshKey := meshKey n; deviceMacAddress := deviceMacAddress n;
     lastSeenMasterMac := b_lastSeen c; peers := peers n; recvQueue := recvQueue n;
     externalRecvCallback := externalRecvCallback n; currentMaster := b_master c;
     isMaster := isMaster n; beacon := b_beacon c; downlinkPeerLru := downlinkPeerLru n;
     forwardingPeer := forwardingPeer n; replay := replay n; txState := b_tx c;
     pendingRelay := b_pending c; dualMasterMode := dualMasterMode n;
     lastRouteReportMs := lastRouteReportMs n;
     lastEnrollmentBroadcastMs := lastEnrollmentBroadcastMs n; enrollment := b_enrollment c;
     enrollmentRelayFn := enrollmentRelayFn n; e2eKeys := e2eKeys n; neighbors := b_neighbors c;
     routes := routes n |}.
(** The members [checkTimeout] updates. *)
Definition upd_master_state (b : MasterBeacon) (cm : MasterInfo) (seen : mac) (n : Node) : Node :=
  {| meshKey := meshKey n; deviceMacAddress := deviceMacAddress n; lastSeenMasterMac := seen;
     peers := peers n; recvQueue := recvQueue n; externalRecvCallback := externalRecvCallback n;
     currentMaster := cm; isMaster := isMaster n; beacon := b;
     downlinkPeerLru := downlinkPeerLru n; forwardingPeer := forwardingPeer n;
     replay := replay n; txState := txState n; pendingRelay := pendingRelay n;
     dualMasterMode := dualMasterMode n; lastRouteReportMs := lastRouteReportMs n;
     lastEnrollmentBroadcastMs := lastEnrollmentBroadcastMs n; enrollment := enrollment n;
     enrollmentRelayFn := enrollmentRelayFn n; e2eKeys := e2eKeys n; neighbors := neighbors n;
     routes := routes n |}.

(** [Mesh::Mesh] (with the members' default initializers). *)
Definition node_new : Node :=
  {| meshKey := zeros 16; deviceMacAddress := ZERO_MAC; lastSeenMasterMac := ZERO_MAC;
     peers := registry_empty; recvQueue := []; externalRecvCallback := false;
     currentMaster := Master ZERO_MAC 0xFF; isMaster := false; beacon := beacon_zero;
     downlinkPeerLru := []; forwardingPeer := ZERO_MAC; replay := replay_init;
     txState := txState_zero; pendingRelay := Pending mesh_message_zero 0 false;
     dualMasterMode := DUAL_MASTER_MODE; lastRouteReportMs := 0; lastEnrollmentBroadcastMs := 0;
     enrollment := enrollment_new; enrollmentRelayFn := false; e2eKeys := keystore_new;
     neighbors := neighbors_clear; routes := None |}.

(** * The node invariant *)
Section Invariant.
Context {C : Crypto}.

Record node_wf (n : Node) : Prop := {
  nwf_peers : registry_wf (peers n);
  nwf_keys : fresh_cache (devicePrivateKey (enrollment n)) (peers n) (e2eKeys n);
  nwf_cap : (0 < capacity_ (e2eKeys n))%nat;
  nwf_lru : lru_wf (downlinkPeerLru n);
  nwf_replay : replay_wf (replay n);
  nwf_tx : tx_wf (txState n);
  nwf_neighbors : neighbors_wf (neighbors n);
  nwf_distances : distances_below MAX_HOPS (neighbors n);
  nwf_routes : ∀ t, routes n = Some t → routes_wf t;
  nwf_role : isMaster n = bool_decide (is_Some (routes n))
}.

Lemma node_new_wf : node_wf node_new.
Proof.
  split; cbn.
  - apply registry_empty_wf.
  - apply fresh_cache_empty.
  - vm_compute. lia.
  - split; [apply NoDup_nil_2|cbn; lia].
  - apply replay_init_wf.
  - split; cbn; unfold UINT32_MAX; lia.
  - apply neighbors_clear_wf.
  - apply distances_below_clear.
  - done.
  - done.
Qed.
End Invariant.

(** ** What sending may change

    A send draws sequence numbers, fills the key cache and manages the two
    forwarding-peer slots; it never touches anything else. *)
Definition send_update (tx : OutboundSequenceState) (ks : E2EKeyStore) (fp : mac) (l : list mac)
    (n : Node) : Node :=
  upd_downlinkPeerLru l (upd_forwardingPeer fp (upd_e2eKeys ks (upd_txState tx n))).

Definition only_sending (n n' : Node) : Prop := ∃ tx ks fp l, n' = send_update tx ks fp l n.

#[export] Instance only_sending_preorder : PreOrder only_sending.
Proof.
  split.
  - intros n. exists (txState n), (e2eKeys n), (forwardingPeer n), (downlinkPeerLru n). by destruct n.
  - intros n n1 n2 (? & ? & ? & ? & ->) (tx & ks & fp & l & ->). exists tx, ks, fp, l. done.
Qed.

Lemma only_sending_tx n tx : only_sending n (upd_txState tx n).
Proof. exists tx, (e2eKeys n), (forwardingPeer n), (downlinkPeerLru n). by destruct n. Qed.
Lemma only_sending_ks n ks : only_sending n (upd_e2eKeys ks n).
Proof. exists (txState n), ks, (forwardingPeer n), (downlinkPeerLru n). by destruct n. Qed.
Lemma only_sending_fp n fp : only_sending n (upd_forwardingPeer fp n).
Proof. exists (txState n), (e2eKeys n), fp, (downlinkPeerLru n). by destruct n. Qed.
Lemma only_sending_lru n l : only_sending n (upd_downlinkPeerLru l n).
Proof. exists (txState n), (e2eKeys n), (forwardingPeer n), l. by destruct n. Qed.
#[export] Hint Resolve only_sending_tx only_sending_ks only_sending_fp only_sending_lru : lattice.
#[export] Hint Extern 0 (only_sending ?n ?n) => reflexivity : lattice.

(** The members a send leaves alone. *)
Lemma only_sending_fields n n' : only_sending n n' →
  peers n' = peers n ∧ enrollment n' = enrollment n ∧ currentMaster n' = currentMaster n ∧
  isMaster n' = isMaster n ∧ deviceMacAddress n' = deviceMacAddress n ∧
  neighbors n' = neighbors n ∧ routes n' = routes n ∧ replay n' = replay n ∧
  externalRecvCallback n' = externalRecvCallback n.
Proof. by intros (tx & ks & fp & l & ->). Qed.

Section Preserve.
Context {C : Crypto}.

Lemma node_wf_tx n tx : node_wf n → tx_wf tx → node_wf (upd_txState tx n).
Proof. intros [] ?. by split. Qed.
Lemma node_wf_fp n fp : node_wf n → node_wf (upd_forwardingPeer fp n).
Proof. intros []. by split. Qed.
Lemma node_wf_lru n l : node_wf n → lru_wf l → node_wf (upd_downlinkPeerLru l n).
Proof. intros [] ?. by split. Qed.
Lemma node_wf_ks n ks :
  node_wf n → fresh_cache (devicePrivateKey (enrollment n)) (peers n) ks →
  capacity_ ks = capacity_ (e2eKeys n) → node_wf (upd_e2eKeys ks n).
Proof. intros [] ? Hc. split; try done. cbn. by rewrite Hc. Qed.
Lemma node_wf_peers n ps :
  node_wf n → registry_wf ps → keeps_keys (peers n) ps → node_wf (upd_peers ps n).
Proof. intros [] ? ?. split; try done. by eapply fresh_cache_keeps. Qed.
End Preserve.
#[export] Hint Resolve node_wf_tx node_wf_fp node_wf_lru node_wf_ks node_wf_peers : lattice.
