(* ===== verification/Messenger.v ===== *)
(** [mesh/MeshMessenger]: how a node sends something.  Frame construction, the
    seal-and-route path of uplink frames, the master's broadcast and
    source-routed downlink, the JOIN_ACK a master answers an enrollment with,
    and the uplink relay of enrollment requests. *)
From S2P Require Import Prelude Config MacTable SlotTable NeighborTable Wire Platform ErrorCore.
From S2P Require Import Eeprom ReplayCache RouteTable PeerRegistry Transport Crypto Enrollment.
From S2P Require Import KeyStore Routers Beacon Authorizer Node.

(** The reversal loop of [sendDownlinkToNode]: entry [i] of the source route is
    entry [len - 1 - i] of the recorded path. *)
Definition reverse_path (p : bytes) (len : nat) (dst : bytes) : bytes :=
  fold_left (λ acc i, splice (i * 6) (slice ((len - 1 - i) * 6) 6 p) acc) (List.seq 0 len) dst.

Definition downlinkRouteLenExceedsMaxHops (len : Z) : bool := MAX_HOPS <? len.

Section Messenger.
Context {E : Env} {C : Crypto} {Pr : Protocol}.

(** [data] is [None] for a null pointer. *)
Definition buildMessage (type : Z) (payload : option bytes) (msgType : Z) (deviceMac : mac)
    (cm : MasterInfo) (tx : OutboundSequenceState) : W (mesh_message * OutboundSequenceState) :=
  let* (seq, tx') := nextSeqGuarded tx in
  wret ({| proto_version := PROTO_VERSION;
           message_type := msgType;
           data_type := type;
           origin_mac_address := deviceMac;
           target_mac_address :=
             if msgType =? MESH_TYPE_MASTER_BEACON then BROADCAST_MAC else m_mac cm;
           last_hop_mac_address := deviceMac;
           data := match payload with Some d => take 64 d | None => zeros 64 end;
           hop_count := 0;
           epoch_num := bootEpoch tx';
           seq_num := seq;
           enrollment_public_key := zeros 32;
           route_len := 0;
           route_path := zeros 48;
           auth_tag := zeros 16;
           auth_path := zeros 8 |}, tx').

(** The seal block of [transmitCore]; [None] drops the frame. *)
Definition seal_uplink (msg : mesh_message) (n : Node) : W (option mesh_message * Node) :=
  tx <- checkEpochRollback (txState n) (epoch_num msg) (seq_num msg) ;;
  let n1 := upd_txState tx n in
  let* (keys, ks) :=
    masterE2EKeys (currentMaster n1) (peers n1) (enrollment n1) (e2eKeys n1) in
  let n2 := upd_e2eKeys ks n1 in
  match keys with
  | None => wret (None, n2)
  | Some (up, _) =>
      match sealPayload up msg with
      | None => wret (None, n2)
      | Some sealed =>
          if message_type sealed =? MESH_TYPE_ROUTE_REPORT then
            let ctx := buildHopContext sealed ZERO_MAC (deviceMacAddress n2) in
            wret (Some (set_auth_path (chainStep up ctx (zeros 8)) sealed), n2)
          else wret (Some sealed, n2)
      end
  end.

(** The routing block of [transmitCore]. *)
Definition route_uplink (msg : mesh_message) (n : Node) : W Node :=
  now <- now_ms ;;
  let* (nextHop, fp) :=
    findNextHopToMaster (forwardingPeer n) (currentMaster n) (peers n) (neighbors n)
      (deviceMacAddress n) now in
  let n1 := upd_forwardingPeer fp n in
  match nextHop with
  | Some hop =>
      if negb (mac_eq hop (deviceMacAddress n1)) then
        sendMessage hop msg (deviceMacAddress n1) ;;; wret n1
      else wret n1
  | None => wret n1
  end.

Definition transmitCore (type : Z) (payload : option bytes) (msgType : Z)
    (msgOverride : option mesh_message) (isMaster : bool) (n : Node) : W Node :=
  let* (msg0, n0) :=
    match msgOverride with
    | Some m => wret (m, n)
    | None =>
        let* (m, tx) :=
          buildMessage type payload msgType (deviceMacAddress n) (currentMaster n) (txState n) in
        wret (m, upd_txState tx n)
    end in
  let selfOriginated := mac_eq (origin_mac_address msg0) (deviceMacAddress n0) in
  let msg := if (msgType =? MESH_TYPE_ADAPTER_DATA) && selfOriginated
             then set_target (m_mac (currentMaster n0)) msg0 else msg0 in
  let* (ready, n1) :=
    (if negb isMaster && selfOriginated && isSealedType (message_type msg)
     then seal_uplink msg n0 else wret (Some msg, n0)) in
  match ready with
  | None => wret n1
  | Some out => route_uplink out n1
  end.

Definition deliver (msg : mesh_message) (n : Node) : W unit :=
  if externalRecvCallback n then emit (EvDeliver msg) else wret tt.

Definition broadcastAdapterData (type : Z) (payload : option bytes) (deliverLocally : bool)
    (n : Node) : W Node :=
  let* (msg0, tx) := buildMessage type payload MESH_TYPE_ADAPTER_DATA (deviceMacAddress n)
                       (currentMaster n) (txState n) in
  let msg := set_target BROADCAST_MAC msg0 in
  let n1 := upd_txState tx n in
  broadcastToAllPeers msg (peers n1) (deviceMacAddress n1) ;;;
  (if deliverLocally then deliver msg n1 else wret tt) ;;;
  wret n1.

Definition transmitDispatch (type : Z) (payload : option bytes) (selfOriginated : bool)
    (n : Node) : W Node :=
  if isMaster n then broadcastAdapterData type payload selfOriginated n
  else transmitCore type payload MESH_TYPE_ADAPTER_DATA None (isMaster n) n.

(** Sending the sealed downlink: along the recorded route, or flooded. *)
Definition route_downlink (destMac : mac) (msg : mesh_message) (n : Node) : W Node :=
  let flood :=
    broadcastToAllPeers (set_route 0 (route_path msg) msg) (peers n) (deviceMacAddress n) ;;;
    wret n in
  match routes n with
  | None => flood
  | Some t =>
      match lookup t destMac (zeros 48) with
      | None => flood
      | Some (p, len) =>
          if negb (0 <? len) then flood
          else if downlinkRouteLenExceedsMaxHops len then wret n
          else
            let routed := set_route len (reverse_path p (Z.to_nat len) (route_path msg)) msg in
            let first := route_hop 0 (route_path routed) in
            l <- registerDownlinkPeer (downlinkPeerLru n) first (peers n) (currentMaster n) ;;
            sendMessage first routed (deviceMacAddress n) ;;;
            wret (upd_downlinkPeerLru l n)
      end
  end.

Definition sendDownlinkToNode (destMac : mac) (type : Z) (payload : option bytes) (n : Node)
    : W Node :=
  if negb (isMaster n) then wret n
  else
    let* (msg0, tx0) := buildMessage type payload MESH_TYPE_ADAPTER_DATA (deviceMacAddress n)
                          (currentMaster n) (txState n) in
    let msg := set_target destMac msg0 in
    tx <- checkEpochRollback tx0 (epoch_num msg) (seq_num msg) ;;
    let n1 := upd_txState tx n in
    let* (keys, ks) := peerE2EKeys destMac (peers n1) (enrollment n1) (e2eKeys n1) in
    let n2 := upd_e2eKeys ks n1 in
    match keys with
    | None => wret n2
    | Some (_, down) =>
        match sealPayload down msg with
        | None => wret n2
        | Some sealed => route_downlink destMac sealed n2
        end
    end.

(** The JOIN_ACK [enrollPeer] builds. *)
Definition join_ack (m nodePublicKey : bytes) (secondaryMac secondaryPubKey32 : option bytes)
    (seq : Z) (tx : OutboundSequenceState) (deviceMac : mac) (en : Enrollment) : mesh_message :=
  let data0 := splice 0 (take 4 nodePublicKey) (zeros 64) in
  {| proto_version := PROTO_VERSION;
     message_type := MESH_TYPE_JOIN_ACK;
     data_type := UNKNOWN_ADAPTER;
     origin_mac_address := deviceMac;
     target_mac_address := m;
     last_hop_mac_address := deviceMac;
     data := match secondaryMac, secondaryPubKey32 with
             | Some m2, Some k2 => splice 10 (take 32 k2) (splice 4 (take 6 m2) data0)
             | _, _ => data0
             end;
     hop_count := 0;
     epoch_num := bootEpoch tx;
     seq_num := seq;
     enrollment_public_key := devicePublicKey en;
     route_len := 0;
     route_path := zeros 48;
     auth_tag := zeros 16;
     auth_path := zeros 8 |}.

(** The argument [publicKey32] of the code is unused there and left out. *)
Definition enrollPeer (m : mac) (secondaryMac secondaryPubKey32 : option bytes) (n : Node)
    : W Node :=
  match peer_find (peers n) m with
  | None => wret n
  | Some cachedPeer =>
      let nodePublicKey := publicKey cachedPeer in
      let* (ok, ps) := registerPeerWithKey m nodePublicKey true (peers n) in
      let n1 := upd_peers ps n in
      if negb ok then wret n1
      else
        let* (seq, tx) := nextSeqGuarded (txState n1) in
        let n2 := upd_txState tx n1 in
        sendBroadcast (join_ack m nodePublicKey secondaryMac secondaryPubKey32 seq tx
                         (deviceMacAddress n2) (enrollment n2)) ;;;
        wret n2
  end.

Definition relayEnrollmentUplink (msg : mesh_message) (n : Node) : W Node :=
  if mac_eq (origin_mac_address msg) (deviceMacAddress n) then wret n
  else if MAX_HOPS <=? hop_count msg then wret n
  else
    now <- now_ms ;;
    let* (nextHop, fp) :=
      findNextHopToMaster (forwardingPeer n) (currentMaster n) (peers n) (neighbors n)
        (deviceMacAddress n) now in
    let n1 := upd_forwardingPeer fp n in
    match nextHop with
    | None => wret n1
    | Some _ =>
        let relay := relay_step (deviceMacAddress n1) msg in
        transmitCore (data_type relay) (Some (data relay)) MESH_TYPE_ENROLLMENT (Some relay)
          false n1
    end.
End Messenger.

(** * Properties *)

(** Events that put nothing on the air, deliver nothing and leave flash in one piece. *)
Definition quiet_event (e : event) : Prop :=
  match e with
  | EvSend _ _ _ | EvDeliver _ | EvRelay _ _ | EvNvsEraseAll _ | EvFlashErase _ => False
  | _ => True
  end.

Lemma sent_frames_quiet evs tr : Forall quiet_event evs → sent_frames (evs ++ tr) = sent_frames tr.
Proof. induction 1 as [|e evs He _ IH]; [done|]. destruct e; done. Qed.

Lemma appended_quiet w w' : appended quiet_event w w' → sent_frames (w_trace w') = sent_frames (w_trace w).
Proof. intros (evs & -> & H). by apply sent_frames_quiet. Qed.

(** Events that put nothing on the air and leave flash in one piece. *)
Definition no_send (e : event) : Prop :=
  match e with EvSend _ _ _ | EvNvsEraseAll _ | EvFlashErase _ => False | _ => True end.

Lemma no_send_nvs e : is_nvs_event e → no_send e.
Proof. by destruct e. Qed.
Lemma no_send_error e : is_error_event e → no_send e.
Proof. by destruct e. Qed.

(** The frames handed to the application, newest first. *)
Fixpoint delivered (tr : trace) : list mesh_message :=
  match tr with
  | [] => []
  | EvDeliver m :: tr' => m :: delivered tr'
  | _ :: tr' => delivered tr'
  end.

Lemma appended_delivered w w' :
  appended quiet_event w w' → delivered (w_trace w') = delivered (w_trace w).
Proof.
  intros (evs & -> & H). induction H as [|e evs He _ IH]; [done|]. by destruct e.
Qed.

Section quiet.
Context {E : Env}.

Lemma quiet_error e : is_error_event e → quiet_event e.
Proof. by destruct e. Qed.
Lemma quiet_nvs e : is_nvs_event e → quiet_event e.
Proof. by destruct e. Qed.

Lemma registerPeerWithEspNow_quiet m : emits quiet_event (registerPeerWithEspNow m).
Proof. apply registerPeerWithEspNow_emits; [apply quiet_error|done..]. Qed.

Lemma findNextHop_quiet fp cm ps nb dev now :
  emits quiet_event (findNextHopToMaster fp cm ps nb dev now).
Proof.
  unfold findNextHopToMaster, esp_now_is_peer_exist, esp_now_del_peer.
  pose proof registerPeerWithEspNow_quiet.
  assert (∀ r m, emits quiet_event (isPeerInRange r m)) by (intros; by apply isPeerInRange_emits).
  solve_emits.
Qed.

Lemma registerDownlinkPeer_quiet l m ps cm : emits quiet_event (registerDownlinkPeer l m ps cm).
Proof.
  unfold registerDownlinkPeer, esp_now_is_peer_exist, esp_now_del_peer.
  pose proof registerPeerWithEspNow_quiet. solve_emits.
Qed.

Lemma nextSeqGuarded_quiet tx : emits quiet_event (nextSeqGuarded tx).
Proof.
  unfold nextSeqGuarded. destruct (nextSeq tx) as [q tx'].
  assert (∀ e, emits quiet_event (saveBootEpoch e)) by (intros; apply saveBootEpoch_emits, quiet_nvs).
  solve_emits.
Qed.

Lemma registerPeerWithKey_quiet m k b ps : emits quiet_event (registerPeerWithKey m k b ps).
Proof.
  unfold registerPeerWithKey, enrollPeer_espnow, now_ms, esp_timer_get_time,
    esp_now_is_peer_exist, esp_now_del_peer.
  pose proof registerPeerWithEspNow_quiet.
  assert (∀ r, emits quiet_event (saveToEEPROM r)) by (intros; apply saveToEEPROM_emits, quiet_nvs).
  solve_emits.
Qed.
End quiet.

(** The data field a payload becomes. *)
Definition payload_data (payload : option bytes) : bytes :=
  match payload with Some d => take 64 d | None => zeros 64 end.

Section components.
Context {E : Env}.

Lemma nextSeq_effect tx w :
  tx_wf tx →
  wp (nextSeqGuarded tx) w
    (λ r _, tx_wf r.2 ∧ r.1 = txSeqNum r.2 ∧ lastSealedEpoch r.2 = lastSealedEpoch tx ∧
            lastSealedSeq r.2 = lastSealedSeq tx) (λ _, True).
Proof.
  intros [He Hq]. unfold nextSeqGuarded, nextSeq. cbn [txSeqNum bootEpoch].
  assert (∀ x, 0 <= u16 x < 2 ^ 16) as Hu by (intros; apply Z.mod_pos_bound; lia).
  pose proof (u32_range (bootEpoch tx + 1)) as He'.
  destruct (_ =? 0); [apply wp_any; intros [] w'|]; apply wp_ret; cbn;
    split_and!; try done; split; cbn; unfold UINT32_MAX in *; try apply Hu; lia.
Qed.

Lemma rollback_effect tx e q w :
  tx_wf tx →
  wp (checkEpochRollback tx e q) w
    (λ tx' w', w' = w ∧ tx_wf tx' ∧ tx' = mark_sealed tx e q ∧
               (lastSealedEpoch tx = UINT32_MAX ∨
                tuple_lt (lastSealedEpoch tx, lastSealedSeq tx) (e, q))) (λ _, True).
Proof.
  intros W. unfold checkEpochRollback, tuple_lt. cbn [fst snd].
  assert (tx_wf (mark_sealed tx e q)) by (destruct W; by split).
  destruct (Z.eqb_spec (lastSealedEpoch tx) UINT32_MAX); [by apply wp_ret; auto 6|].
  destruct (Z.ltb_spec (lastSealedEpoch tx) e); [by apply wp_ret; auto 7|].
  destruct ((e =? lastSealedEpoch tx) && (lastSealedSeq tx <? q)) eqn:Hb.
  - bsimp. subst. by apply wp_ret; auto 7.
  - apply wp_bind. unfold wp at 1. by destruct (fail_run E_CRYPTO M_MESH 1 w) as (w' & ->).
Qed.

Lemma findNextHop_run fp cm ps nb dev now w :
  ∃ hop fp' w', findNextHopToMaster fp cm ps nb dev now w = Ok (hop, fp') w' ∧
    appended quiet_event w w' ∧ (∀ h, hop = Some h → hop_ok cm ps nb dev now h).
Proof.
  pose proof (findNextHop_quiet fp cm ps nb dev now w) as HQ. unfold wp in HQ.
  destruct (findNextHop_cases fp cm ps nb dev now w)
    as [(w' & Ef & _)|[(w' & Ef & _ & Hok)|(h & w1 & Ef & _ & Hok)]].
  - rewrite Ef in *. by eexists None, _, _.
  - rewrite Ef in *. eexists (Some _), _, _. split_and!; [done..|]. by intros ? [= <-].
  - assert (∃ w', use_neighbor fp cm ps h w1 = Ok (Some h, h) w') as (w' & Eu).
    { unfold use_neighbor. match goal with |- context [wbind ?c _] => assert (returns c) as R end.
      { destruct (_ && _); [|by intros w'; eauto].
        intros w'. unfold esp_now_is_peer_exist, esp_now_del_peer, wbind, ask, emit, wret. cbn.
        destruct (env_peer_exist _ fp); cbn; eauto. }
      destruct (R w1) as ([] & w2 & E2).
      destruct (registerPeerWithEspNow_returns h w2) as ([] & w' & E3).
      exists w'. unfold wbind at 1. rewrite E2. unfold wbind. by rewrite E3. }
    rewrite Ef, Eu in HQ. exists (Some h), h, w'. rewrite Ef, Eu. split_and!; [done..|].
    by intros ? [= <-].
Qed.
End components.

(** * Uplink frames leave sealed *)
Section uplink_frames.
Context {E : Env} {C : Crypto} {Pr : Protocol}.

(** [s] is [plain] sealed by node [n] for its current master, under a nonce
    above the last sealed one; a route report also carries the origin's hop of
    the chain MAC. *)
Definition uplink_sealed (n : Node) (plain s : mesh_message) : Prop :=
  ∃ up down sealed,
    hasMasterMac (enrollment n) = true ∧
    keys_of (devicePrivateKey (enrollment n)) (peers n) (m_mac (currentMaster n))
      = Some (up, down) ∧
    sealPayload up plain = Some sealed ∧
    (lastSealedEpoch (txState n) = UINT32_MAX ∨
     tuple_lt (lastSealedEpoch (txState n), lastSealedSeq (txState n)) (msg_tuple s)) ∧
    s = if message_type plain =? MESH_TYPE_ROUTE_REPORT
        then set_auth_path
               (chainStep up (buildHopContext sealed ZERO_MAC (deviceMacAddress n)) (zeros 8)) sealed
        else sealed.

Lemma sealPayload_fields k m s : sealPayload k m = Some s →
  message_type s = message_type m ∧ msg_tuple s = msg_tuple m ∧
  origin_mac_address s = origin_mac_address m ∧ target_mac_address s = target_mac_address m ∧
  route_path s = route_path m ∧ route_len s = route_len m ∧ hop_count s = hop_count m.
Proof. unfold sealPayload. destruct (mb_seal _ _ _ _) as [[c t]|]; [|done]. by intros [= <-]. Qed.

Lemma seal_uplink_effect msg n w :
  node_wf n →
  wp (seal_uplink msg n) w
    (λ r w', w' = w ∧ only_sending n r.2 ∧ node_wf r.2 ∧
             ∀ s, r.1 = Some s → uplink_sealed n msg s) (λ _, True).
Proof.
  intros W. unfold seal_uplink. apply wp_bind.
  eapply wp_mono; [by apply rollback_effect, nwf_tx| |done].
  cbn. intros tx w1 (-> & Htx & -> & Hroll). apply wp_bind.
  eapply wp_mono; [apply masterE2EKeys_effect; cbn; by apply W| |done].
  cbn. intros [keys ks] w2 (-> & Hk & F & Hcap). cbn in Hk, F, Hcap. subst keys.
  set (n2 := upd_e2eKeys ks _).
  assert (only_sending n n2) as Ho by (etrans; [apply only_sending_tx|apply only_sending_ks]).
  assert (node_wf n2) as W2 by eauto with lattice.
  destruct (hasMasterMac (enrollment n)) eqn:Hm; [|by apply wp_ret].
  destruct (keys_of _ _ _) as [[up down]|] eqn:Hk; [|by apply wp_ret].
  destruct (sealPayload up msg) as [sealed|] eqn:Es; [|by apply wp_ret].
  pose proof (sealPayload_fields _ _ _ Es) as (Ht & Htup & _). rewrite Ht.
  assert (∀ s, s = (if message_type msg =? MESH_TYPE_ROUTE_REPORT
                    then set_auth_path (chainStep up (buildHopContext sealed ZERO_MAC
                           (deviceMacAddress n)) (zeros 8)) sealed else sealed) →
               uplink_sealed n msg s) as HS.
  { intros s ->. exists up, down, sealed. split_and!; try done.
    assert (∀ b : bool, msg_tuple (if b then set_auth_path (chainStep up (buildHopContext sealed
        ZERO_MAC (deviceMacAddress n)) (zeros 8)) sealed else sealed) = msg_tuple msg) as ->
      by (by intros []). done. }
  destruct (_ =? _); apply wp_ret; split_and!; try done; intros s [= <-]; by apply HS.
Qed.

(** [route_uplink] always returns and sends at most the given frame, to a hop
    that is strictly closer to the master. *)
Lemma route_uplink_run msg n w :
  ∃ fp w' hop now, route_uplink msg n w = Ok (upd_forwardingPeer fp n) w' ∧
    sent_frames (w_trace w') =
      match hop with Some h => [(h, msg)] | None => [] end ++ sent_frames (w_trace w) ∧
    (∀ h, hop = Some h →
       hop_ok (currentMaster n) (peers n) (neighbors n) (deviceMacAddress n) now h).
Proof.
  unfold route_uplink, wbind at 1. destruct (now_ms_run w) as (us & ->).
  set (now := u64 us / 1000). set (w1 := World _ _ _).
  destruct (findNextHop_run (forwardingPeer n) (currentMaster n) (peers n) (neighbors n)
              (deviceMacAddress n) now w1) as (hop & fp & w2 & Ef & HQ & Hok).
  unfold wbind at 1. rewrite Ef. cbn [deviceMacAddress upd_forwardingPeer].
  pose proof (appended_quiet _ _ HQ) as Hs. cbn in Hs.
  destruct hop as [h|]; [|by exists fp, w2, None, now].
  specialize (Hok h eq_refl). pose proof (proj1 Hok) as Hne. apply mac_eq_false in Hne.
  rewrite Hne. cbn [negb]. destruct (sendMessage_sent h msg (deviceMacAddress n) w2) as (w3 & Em & Hm).
  unfold wbind. rewrite Em. exists fp, w3, (Some h), now. rewrite Hne in Hm.
  split_and!; [done| |by intros ? [= <-]]. by rewrite Hm, Hs.
Qed.

(** What a frame put on the air by [transmitCore] may be. *)
Definition uplink_frame_ok (n : Node) (msgOverride : option mesh_message) (f : mesh_message)
    : Prop :=
  (origin_mac_address f = deviceMacAddress n → isSealedType (message_type f) = true →
     ∃ tx plain, uplink_sealed (upd_txState tx n) plain f ∧
                 lastSealedEpoch tx = lastSealedEpoch (txState n) ∧
                 lastSealedSeq tx = lastSealedSeq (txState n)) ∧
  (∀ m, msgOverride = Some m → origin_mac_address m ≠ deviceMacAddress n → f = m).

Definition core_ok (msgOverride : option mesh_message) (n : Node) (w : world)
    (n' : Node) (w' : world) : Prop :=
  only_sending n n' ∧ node_wf n' ∧
  (sent_frames (w_trace w') = sent_frames (w_trace w) ∨
   ∃ h f now, sent_frames (w_trace w') = (h, f) :: sent_frames (w_trace w) ∧
     hop_ok (currentMaster n) (peers n) (neighbors n) (deviceMacAddress n) now h ∧
     uplink_frame_ok n msgOverride f).

Lemma route_uplink_core msgOverride f n n1 w0 w :
  only_sending n n1 → node_wf n1 → uplink_frame_ok n msgOverride f →
  sent_frames (w_trace w) = sent_frames (w_trace w0) →
  wp (route_uplink f n1) w (λ n' w', core_ok msgOverride n w0 n' w') (λ _, True).
Proof.
  intros Ho W Hf Hs. pose proof (only_sending_fields _ _ Ho) as
    (Hp & _ & Hcm & _ & Hd & Hn & _).
  destruct (route_uplink_run f n1 w) as (fp & w' & hop & now & Er & Hsent & Hok).
  eapply wp_run; [exact Er|]. split_and!; [by etrans; [exact Ho|apply only_sending_fp]|by apply node_wf_fp|].
  rewrite Hsent, Hs. destruct hop as [h|]; [|by left]. right. exists h, f, now.
  split_and!; [done| |done]. specialize (Hok h eq_refl). by rewrite Hp, Hcm, Hd, Hn in Hok.
Qed.
End uplink_frames.

Section uplink_theorem.
Context {E : Env} {C : Crypto} {Pr : Protocol}.

Lemma buildMessage_effect type payload msgType dev cm tx w :
  tx_wf tx →
  wp (buildMessage type payload msgType dev cm tx) w
    (λ r _, tx_wf r.2 ∧ message_type r.1 = msgType ∧ origin_mac_address r.1 = dev ∧
            data_type r.1 = type ∧ hop_count r.1 = 0 ∧ route_path r.1 = zeros 48 ∧
            data r.1 = payload_data payload ∧
            msg_tuple r.1 = tx_tuple r.2 ∧
            (lastSealedEpoch r.2 = lastSealedEpoch tx ∧ lastSealedSeq r.2 = lastSealedSeq tx) ∧
            proto_version r.1 = PROTO_VERSION)
    (λ _, True).
Proof.
  intros W. unfold buildMessage. apply wp_bind. eapply wp_mono; [by apply nextSeq_effect| |done].
  intros [seq tx'] w' HR. cbn in HR. destruct HR as (W' & -> & H1 & H2). by apply wp_ret.
Qed.

Lemma buildMessage_quiet type payload msgType dev cm tx :
  emits quiet_event (buildMessage type payload msgType dev cm tx).
Proof. unfold buildMessage. pose proof nextSeqGuarded_quiet. solve_emits. Qed.

(** The part of [transmitCore] after the frame is built or taken over. *)
Lemma transmit_ready msgOverride msgType msg0 n n0 w0 w :
  node_wf n0 → (∃ tx, n0 = upd_txState tx n ∧ lastSealedEpoch tx = lastSealedEpoch (txState n) ∧
                      lastSealedSeq tx = lastSealedSeq (txState n)) →
  (∀ m, msgOverride = Some m → msg0 = m) →
  sent_frames (w_trace w) = sent_frames (w_trace w0) →
  wp (let selfOriginated := mac_eq (origin_mac_address msg0) (deviceMacAddress n0) in
      let msg := if (msgType =? MESH_TYPE_ADAPTER_DATA) && selfOriginated
                 then set_target (m_mac (currentMaster n0)) msg0 else msg0 in
      let* (ready, n1) :=
        (if negb false && selfOriginated && isSealedType (message_type msg)
         then seal_uplink msg n0 else wret (Some msg, n0)) in
      match ready with None => wret n1 | Some out => route_uplink out n1 end) w
    (λ n' w', core_ok msgOverride n w0 n' w') (λ _, True).
Proof.
  intros W (tx & Hn & Htx) Hov Hs. cbv zeta. cbn [negb andb].
  assert (only_sending n n0) as Ho by (rewrite Hn; apply only_sending_tx).
  assert (deviceMacAddress n0 = deviceMacAddress n) as Hd by (by rewrite Hn). rewrite Hd.
  set (msg := if (msgType =? MESH_TYPE_ADAPTER_DATA) && mac_eq _ _ then set_target _ _ else _).
  assert (origin_mac_address msg = origin_mac_address msg0) as Horig
    by (subst msg; by destruct (_ && _)).
  destruct (mac_eq (origin_mac_address msg0) (deviceMacAddress n)) eqn:Hself; mac_cases.
  - cbn [andb]. destruct (isSealedType (message_type msg)) eqn:Hst; apply wp_bind.
    + eapply wp_mono; [by apply seal_uplink_effect| |done].
      cbn. intros [ready n1] w1 (-> & Ho1 & W1 & Hsealed).
      destruct ready as [out|].
      * apply route_uplink_core; [by etrans|done| |done]. split.
        -- intros _ _. exists tx, msg. rewrite <- Hn. split; [by apply Hsealed|exact Htx].
        -- intros m Hm Hne. rewrite (Hov m Hm) in Hself. congruence.
      * apply wp_ret. split; [exact (transitivity Ho Ho1)|]. split; [exact W1|by left].
    + apply wp_ret. cbn. apply route_uplink_core; [done..| |done]. split.
      * intros _ Ht. congruence.
      * intros m Hm Hne. rewrite (Hov m Hm) in Hself. congruence.
  - apply wp_bind, wp_ret. cbn. apply route_uplink_core; [done..| |done]. split.
    + intros Hf. congruence.
    + intros m Hm _. subst msg. rewrite andb_false_r. by apply Hov.
Qed.

Lemma transmitCore_effect type payload msgType msgOverride n w :
  node_wf n →
  wp (transmitCore type payload msgType msgOverride false n) w
    (λ n' w', core_ok msgOverride n w n' w') (λ _, True).
Proof.
  intros W. unfold transmitCore. apply wp_bind. destruct msgOverride as [m|].
  - apply wp_ret. eapply transmit_ready; [done| |by intros ? [= ->]|done].
    exists (txState n). by destruct n.
  - apply wp_bind. eapply wp_mono.
    + apply wp_emits; [apply buildMessage_quiet|apply buildMessage_effect, (nwf_tx n W)].
    + cbn. intros [m tx] w1 ((Wtx & _ & _ & _ & _ & _ & _ & H1 & H2 & _) & Hq%appended_quiet).
      apply wp_ret. eapply transmit_ready; [by apply node_wf_tx| |done|done]. by exists tx.
    + done.
Qed.

(** C11. Whatever a leaf transmits uplink: at most one frame leaves, to the
    enrolled master heard directly or a live neighbor strictly closer to it; if
    the leaf originated it and its type is a sealed one, it was sealed under the
    leaf's key with its current master and a nonce above the last sealed one, so
    no such payload ever leaves in plaintext; a frame relayed for another node
    leaves unmodified; and nothing of the node changes but its sequence numbers,
    key cache and forwarding slot. *)
Theorem transmitCore_seals type payload msgType msgOverride n w n' w' :
  node_wf n → transmitCore type payload msgType msgOverride false n w = Ok n' w' →
  only_sending n n' ∧ node_wf n' ∧
  (sent_frames (w_trace w') = sent_frames (w_trace w) ∨
   ∃ h f now, sent_frames (w_trace w') = (h, f) :: sent_frames (w_trace w) ∧
     hop_ok (currentMaster n) (peers n) (neighbors n) (deviceMacAddress n) now h ∧
     uplink_frame_ok n msgOverride f).
Proof.
  intros W. apply (wp_Ok _ _ (λ n' w', core_ok msgOverride n w n' w') (λ _, True)).
  by apply transmitCore_effect.
Qed.

Lemma relayEnrollmentUplink_effect msg n w :
  node_wf n →
  wp (relayEnrollmentUplink msg n) w
    (λ n' w', core_ok (Some (relay_step (deviceMacAddress n) msg)) n w n' w') (λ _, True).
Proof.
  intros W. unfold relayEnrollmentUplink.
  assert (∀ w', sent_frames (w_trace w') = sent_frames (w_trace w) → ∀ fp,
    core_ok (Some (relay_step (deviceMacAddress n) msg)) n w (upd_forwardingPeer fp n) w') as Hskip.
  { intros w' Hs fp. split_and!; [apply only_sending_fp|by apply node_wf_fp|by left]. }
  assert (upd_forwardingPeer (forwardingPeer n) n = n) as En by (by destruct n).
  destruct (mac_eq _ _). { apply wp_ret. rewrite <- En at 3. by apply Hskip. }
  destruct (_ <=? _). { apply wp_ret. rewrite <- En at 3. by apply Hskip. }
  destruct (now_ms_run w) as (us & Et). set (w1 := World _ _ _) in Et.
  destruct (findNextHop_run (forwardingPeer n) (currentMaster n) (peers n) (neighbors n)
              (deviceMacAddress n) (u64 us / 1000) w1) as (hop & fp & w2 & Ef & HQ & _).
  apply wp_bind. eapply wp_run; [exact Et|]. apply wp_bind. eapply wp_run; [exact Ef|].
  pose proof (appended_quiet _ _ HQ) as Hs. cbn in Hs. cbn [deviceMacAddress upd_forwardingPeer].
  destruct hop as [h|]; [|apply wp_ret; by apply Hskip].
  eapply wp_mono; [by apply transmitCore_effect, node_wf_fp| |done].
  intros n' w' (Ho & W' & Hcase). split_and!.
  - etrans; [apply only_sending_fp|done].
  - done.
  - by rewrite Hs in Hcase.
Qed.
End uplink_theorem.

(** * Downlink along the recorded route *)

(** The hops of a path buffer, in order. *)
Definition path_hops (p : bytes) (len : nat) : list mac :=
  (λ i, route_hop i p) <$> List.seq 0 len.

Lemma path_hops_route msg : route_hops msg = path_hops (route_path msg) (Z.to_nat (route_len msg)).
Proof. done. Qed.

Lemma route_hop_splice_same i (m : mac) p :
  length m = 6%nat → (i * 6 + 6 <= length p)%nat → route_hop i (splice (i * 6) m p) = m.
Proof. intros Hm Hp. unfold route_hop. rewrite <- Hm at 2. apply slice_splice_same. lia. Qed.

Lemma slice_splice_after (i j n : nat) (src l : bytes) :
  (i + length src <= length l)%nat → (i + length src <= j)%nat →
  slice j n (splice i src l) = slice j n l.
Proof.
  intros H Hj. unfold slice, splice.
  rewrite !drop_app, !drop_drop, length_take.
  replace (j - i `min` length l)%nat with (length src + (j - (i + length src)))%nat by lia.
  rewrite drop_ge by (rewrite length_take; lia). rewrite drop_ge by lia. cbn. f_equal. f_equal. lia.
Qed.

Lemma route_hop_splice_other i j (m : mac) p :
  length m = 6%nat → (i * 6 + 6 <= length p)%nat → i ≠ j →
  route_hop j (splice (i * 6) m p) = route_hop j p.
Proof.
  intros Hm Hp Hij. unfold route_hop.
  destruct (Nat.lt_ge_cases i j); [apply slice_splice_after|apply slice_splice_before]; lia.
Qed.

(** The loop invariant of the reversal. *)
Lemma reverse_path_loop p len dst k :
  length p = 48%nat → length dst = 48%nat → (len <= 8)%nat → (k <= len)%nat →
  let out := fold_left (λ acc i, splice (i * 6) (slice ((len - 1 - i) * 6) 6 p) acc)
               (List.seq 0 k) dst in
  length out = 48%nat ∧ ∀ i, (i < k)%nat → route_hop i out = route_hop (len - 1 - i) p.
Proof.
  intros Hp Hd Hl. induction k as [|k IH]; intros Hk; [cbn; split; [done|lia]|].
  rewrite seq_S, fold_left_app. cbn [fold_left Nat.add].
  destruct IH as [Hout Hh]; [lia|]. revert Hout Hh. cbn zeta.
  generalize (fold_left (λ acc i, splice (i * 6) (slice ((len - 1 - i) * 6) 6 p) acc)
                (List.seq 0 k) dst).
  intros out Hout Hh.
  assert (length (slice ((len - 1 - k) * 6) 6 p) = 6%nat) as Hs by (apply slice_length; lia).
  split; [rewrite length_splice; lia|]. intros i Hi. destruct (decide (i = k)) as [->|Hne].
  - rewrite route_hop_splice_same by lia. done.
  - rewrite route_hop_splice_other by lia. apply Hh. lia.
Qed.

Lemma path_hops_lookup p len i :
  path_hops p len !! i = if (i <? len)%nat then Some (route_hop i p) else None.
Proof.
  unfold path_hops. rewrite list_lookup_fmap. destruct (Nat.ltb_spec i len).
  - by rewrite lookup_seq_lt.
  - by rewrite lookup_seq_ge.
Qed.

Lemma length_path_hops p len : length (path_hops p len) = len.
Proof. unfold path_hops. by rewrite length_fmap, length_seq. Qed.

Lemma reverse_path_hops p len dst :
  length p = 48%nat → length dst = 48%nat → (len <= 8)%nat →
  path_hops (reverse_path p len dst) len = reverse (path_hops p len).
Proof.
  intros Hp Hd Hl. destruct (reverse_path_loop p len dst len Hp Hd Hl ltac:(lia)) as [_ H].
  apply list_eq. intros i. rewrite path_hops_lookup. destruct (Nat.ltb_spec i len) as [Hi|Hi].
  - rewrite reverse_lookup by (rewrite length_path_hops; lia).
    rewrite length_path_hops, path_hops_lookup.
    destruct (Nat.ltb_spec (len - S i) len); [|lia].
    unfold reverse_path. rewrite H by done. do 2 f_equal. lia.
  - symmetry. apply lookup_ge_None. rewrite length_reverse, length_path_hops. done.
Qed.

Section downlink_theorem.
Context {E : Env} {C : Crypto} {Pr : Protocol}.

(** The relay path the master has on record for a node, if any. *)
Definition known_route (n : Node) (dest : mac) : option (list mac) :=
  t ← routes n;
  '(p, len) ← lookup t dest (zeros 48);
  if 0 <? len then Some (path_hops p (Z.to_nat len)) else None.

(** The same sealed frame, up to the plaintext route header. *)
Definition same_sealed (f s : mesh_message) : Prop :=
  same_header f s ∧ data f = data s ∧ auth_tag f = auth_tag s ∧ hop_count f = hop_count s.

(** What a sealed downlink [s] for [dest] puts on the air, newest first. *)
Definition downlink_sent (n : Node) (dest : mac) (s : mesh_message)
    (sent : list (mac * mesh_message)) : Prop :=
  match known_route n dest with
  | Some hops =>
      ∃ first f, head (reverse hops) = Some first ∧ same_sealed f s ∧
        route_hops f = reverse hops ∧ route_len f = Z.of_nat (length hops) ∧
        (length hops <= 8)%nat ∧
        sent = if mac_eq first (deviceMacAddress n) then [] else [(first, f)]
  | None =>
      sent = rev ((λ m, (m, set_route 0 (route_path s) s)) <$>
                  filter (λ m, m ≠ deviceMacAddress n) (p_mac <$> peerMacs (peers n)))
  end.

Lemma lookup_bounds t m out p len :
  routes_wf t → length out = 48%nat → lookup t m out = Some (p, len) →
  0 <= len <= 8 ∧ length p = 48%nat.
Proof.
  intros [W F] Ho. rewrite lookup_slot. intros (e & He & [= -> ->])%fmap_Some.
  assert (e ∈ t) as Hin.
  { unfold slot_lookup in He. apply bind_Some in He as (i & _ & He).
    by eapply list_elem_of_lookup_2. }
  rewrite Forall_forall in F. destruct (F e Hin) as [Hlen Hp]. unfold MAX_HOPS in Hlen.
  split; [lia|]. destruct (_ =? 0); cbn [negb]; [done|].
  rewrite length_splice; [done|]. rewrite length_take. lia.
Qed.

Lemma route_downlink_run dest s n w :
  node_wf n → length (route_path s) = 48%nat →
  ∃ l w' sent, route_downlink dest s n w = Ok (upd_downlinkPeerLru l n) w' ∧ lru_wf l ∧
    sent_frames (w_trace w') = sent ++ sent_frames (w_trace w) ∧ downlink_sent n dest s sent.
Proof.
  intros W Hrp. unfold route_downlink, downlink_sent, known_route.
  destruct (broadcast_run (set_route 0 (route_path s) s) (peers n)
              (deviceMacAddress n) w) as (wf & Ef & Hf).
  assert (∃ l w' sent, (broadcastToAllPeers (set_route 0 (route_path s) s) (peers n)
                          (deviceMacAddress n);;; wret n) w = Ok (upd_downlinkPeerLru l n) w' ∧
    lru_wf l ∧ sent_frames (w_trace w') = sent ++ sent_frames (w_trace w) ∧
    sent = rev ((λ m, (m, set_route 0 (route_path s) s)) <$>
                filter (λ m, m ≠ deviceMacAddress n) (p_mac <$> peerMacs (peers n)))) as Hflood.
  { exists (downlinkPeerLru n), wf. eexists. split_and!; [|apply W|exact Hf|done].
    unfold wbind. rewrite Ef. by destruct n. }
  destruct (routes n) as [t|] eqn:Hr; [|exact Hflood]. cbn [mbind option_bind].
  destruct (lookup t dest (zeros 48)) as [[p len]|] eqn:Hl; [|exact Hflood].
  cbn [mbind option_bind]. destruct (Z.ltb_spec 0 len) as [Hpos|Hpos]; cbn [negb]; [|exact Hflood].
  clear Hflood. apply (lookup_bounds _ _ _ _ _ (nwf_routes n W t Hr)) in Hl as [Hlen Hp]; [|done].
  unfold downlinkRouteLenExceedsMaxHops, MAX_HOPS. destruct (Z.ltb_spec 8 len); [lia|].
  set (f := set_route _ _ s).
  assert (route_hops f = reverse (path_hops p (Z.to_nat len))) as Hhops.
  { rewrite path_hops_route. cbn. apply reverse_path_hops; [done..|lia]. }
  assert (head (reverse (path_hops p (Z.to_nat len))) = Some (route_hop 0 (route_path f))) as Hhd.
  { rewrite <- Hhops, path_hops_route, head_lookup, path_hops_lookup.
    destruct (Nat.ltb_spec 0 (Z.to_nat (route_len f))); [done|]. cbn in *. lia. }
  destruct (registerDownlinkPeer_lru (downlinkPeerLru n) (route_hop 0 (route_path f)) (peers n)
              (currentMaster n) w (nwf_lru n W)) as (w1 & Er).
  pose proof (emits_Ok _ _ _ _ _ (registerDownlinkPeer_quiet _ _ _ _) Er) as HQ%appended_quiet.
  set (l' := if lru_exempt _ _ _ then _ else _) in Er.
  assert (lru_wf l').
  { subst l'. destruct (lru_exempt _ _ _); [apply forget_wf|apply lru_touch_wf]; apply W. }
  destruct (sendMessage_sent (route_hop 0 (route_path f)) f (deviceMacAddress n) w1) as (w2 & Es & Hs).
  exists l', w2. eexists. split_and!; [|done|by rewrite Hs, HQ|].
  - unfold wbind. rewrite Er, Es. done.
  - exists (route_hop 0 (route_path f)), f. split_and!; try done.
    + rewrite length_path_hops. subst f. cbn [route_len set_route]. lia.
    + rewrite length_path_hops. lia.
Qed.

(** The keys a master seals for [dest] with, and the frame it seals. *)
Definition downlink_plain (n : Node) (dest : mac) (type : Z) (payload : option bytes)
    (plain : mesh_message) : Prop :=
  data plain = payload_data payload ∧ origin_mac_address plain = deviceMacAddress n ∧ target_mac_address plain = dest ∧
  message_type plain = MESH_TYPE_ADAPTER_DATA ∧ data_type plain = type ∧
  hop_count plain = 0 ∧ proto_version plain = PROTO_VERSION.

Definition downlink_ok (n : Node) (dest : mac) (type : Z) (payload : option bytes) (w : world)
    (n' : Node) (w' : world) : Prop :=
  only_sending n n' ∧ node_wf n' ∧
  match keys_of (devicePrivateKey (enrollment n)) (peers n) dest with
  | None => sent_frames (w_trace w') = sent_frames (w_trace w)
  | Some (_, down) => ∃ plain, downlink_plain n dest type payload plain ∧
      match sealPayload down plain with
      | None => sent_frames (w_trace w') = sent_frames (w_trace w)
      | Some s => ∃ sent, sent_frames (w_trace w') = sent ++ sent_frames (w_trace w) ∧
                          downlink_sent n dest s sent
      end
  end.

Lemma buildMessage_zero_route type payload msgType dev cm tx w :
  tx_wf tx →
  wp (buildMessage type payload msgType dev cm tx) w
    (λ r w', (tx_wf r.2 ∧ message_type r.1 = msgType ∧ origin_mac_address r.1 = dev ∧
             data_type r.1 = type ∧ hop_count r.1 = 0 ∧ route_path r.1 = zeros 48 ∧
             data r.1 = payload_data payload ∧ proto_version r.1 = PROTO_VERSION) ∧
             sent_frames (w_trace w') = sent_frames (w_trace w)) (λ _, True).
Proof.
  intros W. eapply wp_mono.
  - apply wp_emits; [apply buildMessage_quiet|by apply buildMessage_effect].
  - cbn. intros r w' ((? & ? & ? & ? & ? & ? & ? & _ & _ & ?) & Hq%appended_quiet). auto 10.
  - done.
Qed.

Lemma sendDownlink_effect dest type payload n w :
  node_wf n → isMaster n = true →
  wp (sendDownlinkToNode dest type payload n) w (λ n' w', downlink_ok n dest type payload w n' w')
    (λ _, True).
Proof.
  intros W Hm.
  unfold sendDownlinkToNode. rewrite Hm. cbn [negb]. apply wp_bind.
  eapply wp_mono; [by apply buildMessage_zero_route, nwf_tx| |done].
  intros [msg0 tx0] w1 HB. cbn in HB. destruct HB as ((Wtx & Ht & Ho & Hd & Hh & Hr & Hp & Hv) & Hs).
  apply wp_bind. eapply wp_mono; [by apply rollback_effect| |done].
  intros tx w2 (-> & Wtx' & _ & _). apply wp_bind.
  eapply wp_mono; [apply peerE2EKeys_effect; cbn; by apply W| |done].
  intros [keys ks] w2 HK. cbn in HK. destruct HK as (-> & -> & F & Hcap).
  set (n2 := upd_e2eKeys ks _). set (msg := set_target dest msg0).
  assert (only_sending n n2) as Hos by (etrans; [apply only_sending_tx|apply only_sending_ks]).
  assert (node_wf n2) as W2 by eauto with lattice.
  unfold downlink_ok. destruct (keys_of _ _ _) as [[up down]|]; [|by apply wp_ret].
  assert (downlink_plain n dest type payload msg) as Hplain by (by repeat split).
  destruct (sealPayload down msg) as [s|] eqn:Es.
  - destruct (route_downlink_run dest s n2 w1) as (l & w3 & sent & Er & Hl & Hsent & Hd'); [done| |].
    { pose proof (sealPayload_fields _ _ _ Es) as (_ & _ & _ & _ & -> & _). cbn. by rewrite Hr. }
    eapply wp_run; [exact Er|]. split_and!.
    + etrans; [exact Hos|apply only_sending_lru].
    + by apply node_wf_lru.
    + exists msg. split; [done|]. rewrite Es. exists sent. by rewrite Hsent, Hs.
  - apply wp_ret. split_and!; [done..|]. exists msg. split; [done|]. by rewrite Es.
Qed.
(** C26. A master's downlink to a node leaves sealed under that node's downlink key
    or not at all.  With a recorded route the frame goes once, to the last relay
    of the recorded path, carrying exactly the reversed path as its source route;
    without one it is flooded to every enrolled peer; and nothing of the master
    changes but its sequence numbers, key cache and forwarding peers. *)
Theorem sendDownlink_follows_route dest type payload n w n' w' :
  node_wf n → isMaster n = true →
  sendDownlinkToNode dest type payload n w = Ok n' w' →
  downlink_ok n dest type payload w n' w'.
Proof.
  intros W Hm. apply (wp_Ok _ _ (λ n' w', downlink_ok n dest type payload w n' w') (λ _, True)).
  by apply sendDownlink_effect.
Qed.
End downlink_theorem.

(** * The enrollment handshake *)
Section handshake.
Context {E : Env} {C : Crypto} {Pr : Protocol} {Pn : Pin}.

(** Re-registering a peer under the key it already has. *)
Lemma registerPeer_same_key m p ps w :
  registry_wf ps → peer_find ps m = Some p →
  wp (registerPeerWithKey m (publicKey p) true ps) w
    (λ r _, r.1 = true ∧ registry_wf r.2 ∧ keeps_keys ps r.2 ∧
            ∃ t, peer_find r.2 m = Some (set_seen t p)) (λ _, True).
Proof.
  intros W Hp. unfold registerPeerWithKey.
  assert (∃ i, peer_index ps m = Some i ∧ peerMacs ps !! i = Some p) as (i & Hi & Hl).
  { unfold peer_find in Hp. by apply bind_Some in Hp. }
  rewrite Hi. cbn [negb andb]. apply wp_any; intros now w1.
  do 2 (apply wp_any; intros [] ?). apply wp_ret. cbn [fst snd].
  pose proof (peer_find_alter ps i (λ q, set_seen now (set_key (publicKey p) q)) p) as Hpf.
  pose proof (peer_find_mac _ _ _ Hp) as Hm.
  split_and!; [done|by apply alter_wf| |].
  - intros m' k (q & Hq & Hk & Hz). unfold established. rewrite Hpf by done.
    destruct (mac_eq m' (p_mac p)) eqn:Em; [|by exists q]. mac_cases. subst m'.
    rewrite Hm, Hp in Hq. simplify_eq. by eexists.
  - exists now. rewrite Hpf by done. rewrite <- Hm, mac_eq_refl. done.
Qed.

(** The ACK as a node may see it: relays only touch the hop fields. *)
Definition ack_seen (seen ack : mesh_message) : Prop :=
  origin_mac_address seen = origin_mac_address ack ∧
  target_mac_address seen = target_mac_address ack ∧ data seen = data ack ∧
  enrollment_public_key seen = enrollment_public_key ack.

Lemma processJoinAck_accepts msg e ps w :
  registry_wf ps → (count ps < MAX_PEERS)%nat → join_ack_gates e msg = true →
  wp (processJoinAck e msg (Some registerPeerWithKeyTrampoline) ps) w
    (λ r _, enrolled r.1 = true ∧ hasMasterMac r.1 = true ∧
            knownMasterMac r.1 =
              if hasMasterMac e then knownMasterMac e else origin_mac_address msg)
    (λ _, True).
Proof.
  intros W Hc Hg. unfold processJoinAck. rewrite Hg. cbn [negb]. apply wp_bind.
  eapply wp_mono; [by apply registerPeer_effect| |done].
  intros [ok ps1] w1 (W1 & _ & _ & _ & Hno). cbn in W1, Hno. destruct ok; cbn [negb].
  2:{ destruct (Hno eq_refl) as (_ & Hfull & _). lia. }
  apply wp_any. intros [] w2. apply wp_bind.
  set (e1 := with_enrolled e).
  assert (wp (if negb (hasMasterMac e1) then learnMasterMac e1 (origin_mac_address msg)
              else wret e1) w2
            (λ e2 _, enrolled e2 = true ∧ hasMasterMac e2 = true ∧
               knownMasterMac e2 =
                 if hasMasterMac e then knownMasterMac e else origin_mac_address msg)
            (λ _, True)) as HL.
  { cbn [hasMasterMac e1 with_enrolled]. destruct (hasMasterMac e) eqn:Hm; cbn [negb].
    - by apply wp_ret.
    - eapply wp_mono; [apply learnMaster_wp| |done]. by intros e2 w3 ->. }
  eapply wp_mono; [exact HL| |done]. intros e2 w3 (H1 & H2 & H3).
  eapply wp_mono; [by apply join_ack_secondary_effect| |done].
  intros r w4 ([->|[_ [m2 ->]]] & _); done.
Qed.

Lemma take_splice_front k (src l : bytes) :
  (k <= length src)%nat → take k (splice 0 src l) = take k src.
Proof. intros Hk. unfold splice. rewrite take_0, app_nil_l. by apply take_app_le. Qed.

Lemma take_splice_later (k i : nat) (src l : bytes) :
  (k <= i)%nat → (i <= length l)%nat → take k (splice i src l) = take k l.
Proof.
  intros Hk Hi. unfold splice. rewrite take_app_le by (rewrite length_take; lia).
  rewrite take_take. f_equal. lia.
Qed.

Lemma join_ack_fingerprint m k s1 s2 seq tx dev en :
  length k = 32%nat → take 4 (data (join_ack m k s1 s2 seq tx dev en)) = take 4 k.
Proof.
  intros Hk. unfold join_ack. cbn [data].
  assert (take 4 (splice 0 (take 4 k) (zeros 64)) = take 4 k) as H0.
  { rewrite take_splice_front by (rewrite length_take; lia). by rewrite take_take. }
  destruct s1 as [m1|], s2 as [k2|]; try exact H0.
  assert (length (splice 0 (take 4 k) (zeros 64)) = 64%nat) as HL.
  { rewrite length_splice; [done|]. rewrite length_take. unfold zeros.
    rewrite length_replicate. lia. }
  rewrite take_splice_later, take_splice_later; [exact H0|..]; try lia.
  rewrite length_splice; rewrite HL; [|rewrite length_take]; lia.
Qed.

Lemma sendBroadcast_run msg w :
  ∃ ok w', sendBroadcast msg w = Ok ok w' ∧
    sent_frames (w_trace w') = (BROADCAST_MAC, msg) :: sent_frames (w_trace w).
Proof. unfold sendBroadcast, esp_now_send, wbind, ask, emit, wret. cbn. eauto. Qed.

Lemma enrollPeer_effect m s1 s2 n p w :
  node_wf n → peer_find (peers n) m = Some p →
  wp (enrollPeer m s1 s2 n) w
    (λ n' w', node_wf n' ∧ keeps_keys (peers n) (peers n') ∧
       ∃ seq tx, sent_frames (w_trace w') =
         (BROADCAST_MAC, join_ack m (publicKey p) s1 s2 seq tx (deviceMacAddress n) (enrollment n))
           :: sent_frames (w_trace w)) (λ _, True).
Proof.
  intros W Hp. unfold enrollPeer. rewrite Hp. apply wp_bind.
  eapply wp_mono.
  { apply wp_emits; [apply registerPeerWithKey_quiet|].
    apply registerPeer_same_key; [apply W|done]. }
  2: done.
  intros [ok ps] w1 ((Hok & Wp & K & _) & Hq1%appended_quiet). cbn in Hok, Wp, K. subst ok.
  cbn [negb]. assert (node_wf (upd_peers ps n)) as W1 by eauto with lattice.
  apply wp_bind. eapply wp_mono.
  { apply wp_emits; [apply nextSeqGuarded_quiet|]. by apply nextSeq_effect, nwf_tx. }
  2: done.
  intros [seq tx] w2 ((Wtx & _) & Hq2%appended_quiet). cbn in Wtx.
  set (ack := join_ack _ _ _ _ _ _ _ _).
  destruct (sendBroadcast_run ack w2) as (ok & w3 & Es & Hs).
  apply wp_bind. eapply wp_run; [exact Es|]. apply wp_ret. split_and!; [|done|].
  - by apply node_wf_tx.
  - exists seq, tx. by rewrite Hs, Hq2, Hq1.
Qed.

End handshake.

#[local] Existing Instance documented_protocol.

(** * A leaf and a master, for witnesses *)
Definition demo_leaf_node : Node :=
  upd_txState (TxState 2 5 0 0 UINT32_MAX 0)
    (upd_enrollment demo_node_en
       (upd_master_state beacon_zero (Master (demo_mac 7) 1) (demo_mac 7)
          (upd_peers demo_node_peers (upd_deviceMacAddress (demo_mac 1) node_new)))).

Definition demo_master_node : Node :=
  upd_isMaster true
    (upd_routes (Some (record routes_clear (demo_mac 1) demo_path 2 50))
       (upd_enrollment demo_master_en
          (upd_txState (TxState 2 5 0 0 UINT32_MAX 0)
             (upd_peers demo_master_peers (upd_deviceMacAddress (demo_mac 7) node_new))))).

Lemma demo_tx_state_wf : tx_wf (TxState 2 5 0 0 UINT32_MAX 0).
Proof. split; cbn; unfold UINT32_MAX; lia. Qed.

Lemma single_registry_wf p dev : registry_wf (Registry [p] dev).
Proof. split; [cbn; unfold MAX_PEERS; lia|apply NoDup_singleton]. Qed.

Lemma demo_leaf_node_wf : node_wf (C := toy_crypto) demo_leaf_node.
Proof.
  destruct (node_new_wf (C := toy_crypto)) as [].
  split; try done; first [apply single_registry_wf|exact demo_tx_state_wf|apply fresh_cache_empty].
Qed.

Lemma demo_master_node_wf : node_wf (C := toy_crypto) demo_master_node.
Proof.
  destruct (node_new_wf (C := toy_crypto)) as [].
  split; try done;
    first [apply single_registry_wf|exact demo_tx_state_wf|apply fresh_cache_empty|idtac].
  intros t [= <-]. by apply record_wf; [apply routes_clear_wf|..].
Qed.

Lemma transmitCore_seals_witness :
  ∃ n' w' h f, transmitCore (E := ref_env) (C := toy_crypto) PIR_ADAPTER (Some (replicate 64 9))
      MESH_TYPE_ADAPTER_DATA None false demo_leaf_node ref_world = Ok n' w' ∧
    sent_frames (w_trace w') = [(h, f)] ∧ h = demo_mac 7 ∧ data f ≠ replicate 64 9 ∧
    only_sending demo_leaf_node n' ∧ node_wf (C := toy_crypto) n' ∧
    (sent_frames (w_trace w') = sent_frames (w_trace ref_world) ∨
     ∃ h f now, sent_frames (w_trace w') = (h, f) :: sent_frames (w_trace ref_world) ∧
       hop_ok (currentMaster demo_leaf_node) (peers demo_leaf_node) (neighbors demo_leaf_node)
         (deviceMacAddress demo_leaf_node) now h ∧
       uplink_frame_ok (C := toy_crypto) demo_leaf_node None f).
Proof.
  eexists _, _, _, _. split; [vm_compute; reflexivity|]. split; [vm_compute; reflexivity|].
  split; [reflexivity|]. split; [vm_compute; discriminate|].
  eapply (@transmitCore_seals ref_env toy_crypto documented_protocol PIR_ADAPTER
            (Some (replicate 64 9)) MESH_TYPE_ADAPTER_DATA None demo_leaf_node ref_world);
    [exact demo_leaf_node_wf|vm_compute; reflexivity].
Defined.

Lemma sendDownlink_follows_route_witness :
  ∃ n' w' f, sendDownlinkToNode (E := ref_env) (C := toy_crypto) (demo_mac 1) SERIAL_ADAPTER
      (Some (0xC1 :: zeros 63)) demo_master_node ref_world = Ok n' w' ∧
    sent_frames (w_trace w') = [(demo_mac 2, f)] ∧
    downlink_ok (C := toy_crypto) demo_master_node (demo_mac 1) SERIAL_ADAPTER
      (Some (0xC1 :: zeros 63)) ref_world n' w'.
Proof.
  eexists _, _, _. split; [vm_compute; reflexivity|]. split; [vm_compute; reflexivity|].
  eapply (@sendDownlink_follows_route ref_env toy_crypto documented_protocol (demo_mac 1)
            SERIAL_ADAPTER (Some (0xC1 :: zeros 63)) demo_master_node ref_world);
    [exact demo_master_node_wf|reflexivity|vm_compute; reflexivity].
Defined.

