(* ===== verification/RouteReport.v ===== *)
(** [mesh/RouteReportHandler]: a node reports its relay path to the master.
    Every relay appends itself to the plaintext path and folds its hop into the
    chain MAC; the master recomputes the chain with each hop's own key and
    records the path only when it matches. *)
From S2P Require Import Prelude Config MacTable SlotTable NeighborTable Wire Platform ErrorCore.
From S2P Require Import Eeprom ReplayCache RouteTable PeerRegistry Transport Crypto Enrollment.
From S2P Require Import KeyStore Routers Beacon Authorizer Node Messenger.

Section RouteReport.
Context {E : Env} {C : Crypto} {Pr : Protocol}.

Definition sendRouteReport (n : Node) : W (bool * Node) :=
  if isMaster n then wret (false, n)
  else
    now <- now_ms ;;
    let* (nextHop, fp) :=
      findNextHopToMaster (forwardingPeer n) (currentMaster n) (peers n) (neighbors n)
        (deviceMacAddress n) now in
    let n1 := upd_forwardingPeer fp n in
    match nextHop with
    | None => wret (false, n1)
    | Some _ =>
        n2 <- transmitCore UNKNOWN_ADAPTER (Some (OP_ROUTE_REPORT :: zeros 63))
                MESH_TYPE_ROUTE_REPORT None (isMaster n1) n1 ;;
        wret (true, n2)
    end.

(** The verification loop over [route_path] from entry [i] on, [k] entries
    left; [None] is the early return on an unknown hop. *)
Fixpoint verify_hops (msg : mesh_message) (i k : nat) (computed prev_hop : bytes) (n : Node)
    : W (option bytes * Node) :=
  match k with
  | O => wret (Some computed, n)
  | S k' =>
      let hop_mac := route_hop i (route_path msg) in
      let* (keys, ks) := peerE2EKeys hop_mac (peers n) (enrollment n) (e2eKeys n) in
      let n1 := upd_e2eKeys ks n in
      match keys with
      | None => wret (None, n1)
      | Some (hopKUp, _) =>
          let computed' := chainStep hopKUp (buildHopContext msg prev_hop hop_mac) computed in
          verify_hops msg (S i) k' computed' hop_mac n1
      end
  end.

Definition record_route (msg : mesh_message) (n : Node) : W Node :=
  match routes n with
  | None => wret n
  | Some t =>
      now <- now_ms ;;
      wret (upd_routes (Some (record t (origin_mac_address msg) (route_path msg) (route_len msg)
                                now)) n)
  end.

(** The master branch of [processRouteReport]. *)
Definition master_route_report (msg : mesh_message) (n : Node) : W Node :=
  let* (keys, ks) :=
    peerE2EKeys (origin_mac_address msg) (peers n) (enrollment n) (e2eKeys n) in
  let n1 := upd_e2eKeys ks n in
  match keys with
  | None => wret n1
  | Some (up, _) =>
      match openPayload up msg with
      | None => wret n1
      | Some opened =>
          if negb (hd 0 (data opened) =? OP_ROUTE_REPORT) then wret n1
          else if MAX_HOPS <? route_len msg then wret n1
          else
            let seed := chainStep up (buildHopContext msg ZERO_MAC (origin_mac_address msg))
                          (zeros AUTH_PATH_LEN) in
            let* (computed, n2) :=
              verify_hops msg 0 (Z.to_nat (route_len msg)) seed (origin_mac_address msg) n1 in
            match computed with
            | None => wret n2
            | Some mac =>
                if negb (bool_decide (take AUTH_PATH_LEN mac = take AUTH_PATH_LEN (auth_path msg)))
                then wret n2
                else n3 <- record_route msg n2 ;; deliver opened n3 ;;; wret n3
            end
      end
  end.

(** The hop that precedes a relay: the last appended one, or the origin. *)
Definition prev_hop_of (msg : mesh_message) : mac :=
  if route_len msg =? 0 then take 6 (origin_mac_address msg)
  else route_hop (Z.to_nat (route_len msg) - 1) (route_path msg).

(** The relayed copy, before its MAC is folded in. *)
Definition append_hop (dev : mac) (msg : mesh_message) : mesh_message :=
  let relay := relay_step dev msg in
  set_route (u8 (route_len relay + 1))
    (splice (Z.to_nat (route_len relay) * 6) (take 6 dev) (route_path relay)) relay.

Definition relay_route_report (msg : mesh_message) (n : Node) : W Node :=
  if MAX_HOPS <=? hop_count msg then wret n
  else if MAX_HOPS <=? route_len msg then wret n
  else
    let prev_hop := prev_hop_of msg in
    let relay := append_hop (deviceMacAddress n) msg in
    let* (keys, ks) :=
      masterE2EKeys (currentMaster n) (peers n) (enrollment n) (e2eKeys n) in
    let n1 := upd_e2eKeys ks n in
    match keys with
    | None => wret n1
    | Some (up, _) =>
        let ctx := buildHopContext relay prev_hop (deviceMacAddress n1) in
        let relay' := set_auth_path (chainStep up ctx (auth_path relay)) relay in
        transmitCore (data_type relay') (Some (data relay')) MESH_TYPE_ROUTE_REPORT (Some relay')
          (isMaster n1) n1
    end.

Definition processRouteReport (msg : mesh_message) (n : Node) : W Node :=
  if isMaster n then master_route_report msg n else relay_route_report msg n.
End RouteReport.

(** * The chain MAC *)
Section chain.
Context {C : Crypto}.

(** The reference: fold every hop, under its own key, into the MAC. *)
Fixpoint chain_from (keys : mac → option bytes) (msg : mesh_message) (acc prev : bytes)
    (hops : list mac) : option bytes :=
  match hops with
  | [] => Some acc
  | h :: hops' =>
      k ← keys h; chain_from keys msg (chainStep k (buildHopContext msg prev h) acc) h hops'
  end.
Definition chain_mac (keys : mac → option bytes) (msg : mesh_message) : option bytes :=
  chain_from keys msg (zeros AUTH_PATH_LEN) ZERO_MAC (origin_mac_address msg :: route_hops msg).

(** The frame's [auth_path] is the chain over its own hops. *)
Definition chain_valid (keys : mac → option bytes) (msg : mesh_message) : Prop :=
  ∃ m, chain_mac keys msg = Some m ∧ take AUTH_PATH_LEN m = take AUTH_PATH_LEN (auth_path msg).

(** What a relay [dev] holding key [up] does to a route report. *)
Definition extend (up : bytes) (dev : mac) (msg : mesh_message) : mesh_message :=
  let relay := append_hop dev msg in
  set_auth_path (chainStep up (buildHopContext relay (prev_hop_of msg) dev) (auth_path msg)) relay.

Lemma chainStep_take k ctx a b :
  take AUTH_PATH_LEN a = take AUTH_PATH_LEN b → chainStep k ctx a = chainStep k ctx b.
Proof. unfold chainStep. by intros ->. Qed.

Lemma chain_from_app keys msg acc prev l1 l2 :
  chain_from keys msg acc prev (l1 ++ l2) =
  acc' ← chain_from keys msg acc prev l1;
  chain_from keys msg acc' (default prev (last l1)) l2.
Proof.
  revert acc prev. induction l1 as [|h l1 IH]; intros acc prev; [done|]. cbn [app chain_from].
  destruct (keys h) as [k|]; [|done]. cbn [mbind option_bind]. rewrite IH.
  destruct (chain_from _ _ _ _ l1); [|done]. cbn [mbind option_bind]. f_equal.
  rewrite last_cons. by destruct (last l1).
Qed.

Lemma chain_from_ext keys keys' msg acc prev hops :
  (∀ h, keys h = keys' h) → chain_from keys msg acc prev hops = chain_from keys' msg acc prev hops.
Proof.
  intros H. revert acc prev. induction hops as [|h hops IH]; intros acc prev; [done|].
  cbn [chain_from]. rewrite H. destruct (keys' h); [|done]. apply IH.
Qed.

Lemma chain_from_header keys msg msg' acc prev hops :
  same_header msg msg' → chain_from keys msg acc prev hops = chain_from keys msg' acc prev hops.
Proof.
  intros H. revert acc prev. induction hops as [|h hops IH]; intros acc prev; [done|].
  cbn. destruct (keys h); [|done]. cbn. by rewrite IH, (buildHopContext_proper _ _ H _ _ eq_refl _ _ eq_refl).
Qed.

(** A route report as it travels. *)
Record report_wf (msg : mesh_message) : Prop := {
  rwf_path : length (route_path msg) = 48%nat;
  rwf_len : 0 <= route_len msg;
  rwf_origin : length (origin_mac_address msg) = 6%nat
}.

Lemma append_hop_hops dev msg :
  report_wf msg → route_len msg < MAX_HOPS → length dev = 6%nat →
  report_wf (append_hop dev msg) ∧ route_len (append_hop dev msg) = route_len msg + 1 ∧
  route_hops (append_hop dev msg) = route_hops msg ++ [dev].
Proof.
  unfold MAX_HOPS. intros [Hp Hl Ho] Hlt Hd. unfold append_hop.
  assert (take 6 dev = dev) as Htd by (apply take_ge; lia). rewrite Htd.
  assert (u8 (route_len (relay_step dev msg) + 1) = route_len msg + 1) as Hu.
  { cbn. apply Z.mod_small. lia. }
  rewrite Hu. split_and!.
  - split; cbn [route_path route_len origin_mac_address set_route]; unfold MAX_HOPS; [|lia|done].
    cbn. by rewrite length_splice by lia.
  - done.
  - rewrite !path_hops_route. cbn [route_path route_len set_route relay_step set_last_hop bump_hop
      set_hop_count]. replace (Z.to_nat (route_len msg + 1)) with (S (Z.to_nat (route_len msg))) by lia.
    unfold path_hops. rewrite seq_S, fmap_app. cbn [Nat.add fmap list_fmap]. f_equal.
    + apply list_fmap_ext. intros i j [Hj Hlt']%lookup_seq. cbn in Hj. subst j.
      apply route_hop_splice_other; lia.
    + f_equal. apply route_hop_splice_same; lia.
Qed.

Lemma append_hop_header dev msg : same_header (append_hop dev msg) msg.
Proof. by repeat split. Qed.

Lemma last_hop_prev msg :
  report_wf msg → default ZERO_MAC (last (origin_mac_address msg :: route_hops msg)) = prev_hop_of msg.
Proof.
  intros [Hp Hl Ho]. unfold prev_hop_of. rewrite last_cons, path_hops_route.
  destruct (Z.eqb_spec (route_len msg) 0) as [->|Hne].
  - cbn. by rewrite take_ge by lia.
  - rewrite last_lookup, length_path_hops, path_hops_lookup.
    destruct (Nat.ltb_spec (pred (Z.to_nat (route_len msg))) (Z.to_nat (route_len msg))); [|lia].
    cbn [default from_option id]. f_equal. lia.
Qed.

Lemma extend_valid keys up dev msg :
  report_wf msg → route_len msg < MAX_HOPS → length dev = 6%nat → keys dev = Some up →
  chain_valid keys msg → chain_valid keys (extend up dev msg).
Proof.
  intros W Hlt Hd Hk (m & Hm & Ha).
  destruct (append_hop_hops dev msg W Hlt Hd) as (_ & _ & Hh).
  pose proof (append_hop_header dev msg) as HH.
  exists (auth_path (extend up dev msg)). split; [|done].
  unfold chain_mac in *. change (route_hops (extend up dev msg)) with (route_hops (append_hop dev msg)).
  rewrite Hh. change (origin_mac_address (extend up dev msg)) with (origin_mac_address msg).
  rewrite app_comm_cons, chain_from_app.
  rewrite (chain_from_header keys _ msg) by (by repeat split).
  rewrite Hm. cbn [mbind option_bind]. rewrite last_hop_prev by done. cbn [chain_from].
  rewrite Hk. cbn [mbind option_bind]. f_equal. unfold extend. cbn [auth_path set_auth_path].
  rewrite (chainStep_take _ _ m (auth_path msg)) by done. done.
Qed.
End chain.

(** * The master's side *)
Section master_side.
Context {E : Env} {C : Crypto} {Pr : Protocol}.

(** The uplink keys a master shares with its peers. *)
Definition up_key (n : Node) (m : mac) : option bytes :=
  fst <$> keys_of (devicePrivateKey (enrollment n)) (peers n) m.

Lemma peer_keys_step m n w :
  node_wf n →
  wp (peerE2EKeys m (peers n) (enrollment n) (e2eKeys n)) w
    (λ r w', w' = w ∧ r.1 = keys_of (devicePrivateKey (enrollment n)) (peers n) m ∧
             node_wf (upd_e2eKeys r.2 n)) (λ _, up_key n m = None).
Proof.
  intros W. eapply wp_mono; [apply peerE2EKeys_effect; apply W| |].
  - cbn. intros r w' (-> & Hk & F & Hc). split_and!; [done..|]. by apply node_wf_ks.
  - cbn. unfold up_key. by intros _ ->.
Qed.

Lemma verify_hops_effect msg i k acc prev n w :
  node_wf n →
  let hops := (λ j, route_hop j (route_path msg)) <$> List.seq i k in
  wp (verify_hops msg i k acc prev n) w
    (λ r w', w' = w ∧ (∃ ks, r.2 = upd_e2eKeys ks n) ∧ node_wf r.2 ∧
             r.1 = chain_from (up_key n) msg acc prev hops)
    (λ _, chain_from (up_key n) msg acc prev hops = None).
Proof.
  revert i acc prev n. induction k as [|k IH]; intros i acc prev n W hops; subst hops.
  - apply wp_ret. split_and!; try done. exists (e2eKeys n). by destruct n.
  - cbn [verify_hops]. set (h := route_hop i _). apply wp_bind.
    eapply wp_mono; [by apply peer_keys_step| |].
    + intros [keys ks] w1 HK. cbn [fst snd] in HK. destruct HK as (-> & -> & W1).
      change (List.seq i (S k)) with (i :: List.seq (S i) k). rewrite fmap_cons. cbn [chain_from].
      fold h. destruct (keys_of _ _ h) as [[up down]|] eqn:Hk.
      * assert (up_key n h = Some up) as -> by (unfold up_key; by rewrite Hk).
        cbn [mbind option_bind].
        eapply wp_mono; [by apply IH| |done].
        cbn [fst snd]. intros [r n'] w2 (-> & (ks' & Hn') & W' & Hr). cbn [fst snd] in *.
        split_and!; try done. exists ks'. by rewrite Hn'.
      * assert (up_key n h = None) as -> by (unfold up_key; by rewrite Hk).
        apply wp_ret. cbn [fst snd]. split_and!; try done. by exists ks.
    + cbn beta. intros _ Hno. change (List.seq i (S k)) with (i :: List.seq (S i) k).
      rewrite fmap_cons. cbn [chain_from]. fold h. by rewrite Hno.
Qed.

(** Everything an accepted route report has to satisfy. *)
Definition report_authentic (n : Node) (msg opened : mesh_message) : Prop :=
  (∃ up down, keys_of (devicePrivateKey (enrollment n)) (peers n) (origin_mac_address msg)
                = Some (up, down) ∧ openPayload up msg = Some opened) ∧
  hd 0 (data opened) = OP_ROUTE_REPORT ∧ route_len msg <= MAX_HOPS ∧ chain_valid (up_key n) msg.

Definition report_outcome (msg : mesh_message) (n : Node) (w : world) (n' : Node) (w' : world)
    : Prop :=
  node_wf n' ∧ sent_frames (w_trace w') = sent_frames (w_trace w) ∧
  ((only_sending n n' ∧ delivered (w_trace w') = delivered (w_trace w) ∧
    ∀ opened, ¬ report_authentic n msg opened) ∨
   (∃ opened now ks, report_authentic n msg opened ∧
      n' = upd_routes ((λ t, record t (origin_mac_address msg) (route_path msg) (route_len msg) now)
                         <$> routes n) (upd_e2eKeys ks n) ∧
      delivered (w_trace w') =
        (if externalRecvCallback n then [opened] else []) ++ delivered (w_trace w))).

Lemma record_route_effect msg n w :
  node_wf n → report_wf msg →
  wp (record_route msg n) w
    (λ n' w', node_wf n' ∧ sent_frames (w_trace w') = sent_frames (w_trace w) ∧
       delivered (w_trace w') = delivered (w_trace w) ∧
       ∃ now, n' = upd_routes ((λ t, record t (origin_mac_address msg) (route_path msg)
                                       (route_len msg) now) <$> routes n) n) (λ _, False).
Proof.
  intros W RW. unfold record_route. destruct (routes n) as [t|] eqn:Hr.
  - apply wp_bind. destruct (now_ms_run w) as (us & Et). eapply wp_run; [exact Et|].
    apply wp_ret. set (t' := record _ _ _ _ _).
    assert (routes_wf t') as Wt'.
    { apply record_wf; [by apply (nwf_routes n W)|apply RW|apply RW]. }
    split_and!; [|done..|by eexists]. destruct W. split; try done.
    + by intros ? [= <-].
    + cbn. rewrite nwf_role. by rewrite Hr.
  - apply wp_ret. split_and!; try done. exists 0. cbn. rewrite <- Hr. by destruct n.
Qed.

Lemma deliver_run msg n w :
  ∃ w', deliver msg n w = Ok tt w' ∧ sent_frames (w_trace w') = sent_frames (w_trace w) ∧
    delivered (w_trace w') =
      (if externalRecvCallback n then [msg] else []) ++ delivered (w_trace w).
Proof. unfold deliver. destruct (externalRecvCallback n); [|by exists w]. eexists. done. Qed.

Lemma master_route_report_effect msg n w :
  node_wf n → report_wf msg →
  wp (master_route_report msg n) w (λ n' w', report_outcome msg n w n' w')
    (λ _, ∀ opened, ¬ report_authentic n msg opened).
Proof.
  intros W RW. unfold master_route_report. apply wp_bind.
  eapply wp_mono; [by apply peer_keys_step| |].
  2:{ intros w1 Hno opened ((up & down & Hk & _) & _). unfold up_key in Hno. by rewrite Hk in Hno. }
  intros [keys ks] w1 HK. cbn [fst snd] in HK. destruct HK as (-> & -> & W1).
  set (n1 := upd_e2eKeys ks n).
  assert (∀ n2, only_sending n n2 → node_wf n2 → (∀ opened, ¬ report_authentic n msg opened) →
            wp (wret n2) w (λ n' w', report_outcome msg n w n' w')
              (λ _, ∀ opened, ¬ report_authentic n msg opened)) as Hdrop.
  { intros n2 Ho2 W2 Hno. apply wp_ret. split_and!; auto. }
  pose proof (only_sending_ks n ks : only_sending n n1) as Ho1.
  destruct (keys_of _ _ _) as [[up down]|] eqn:Hkeys;
    [|apply Hdrop; auto; intros o ((u & d & Hk & _) & _); congruence].
  destruct (openPayload up msg) as [opened|] eqn:Hop;
    [|apply Hdrop; auto; intros o ((u & d & Hk & Ho') & _); congruence].
  destruct (Z.eqb_spec (hd 0 (data opened)) OP_ROUTE_REPORT) as [Hopc|Hopc]; cbn [negb];
    [|apply Hdrop; auto; intros o ((u & d & Hk & Ho') & Hd & _); congruence].
  destruct (Z.ltb_spec MAX_HOPS (route_len msg));
    [apply Hdrop; auto; intros o (_ & _ & Hl & _); lia|].
  set (seed := chainStep _ _ _).
  assert (chain_mac (up_key n) msg =
          chain_from (up_key n) msg seed (origin_mac_address msg) (route_hops msg)) as Hchain.
  { assert (up_key n (origin_mac_address msg) = Some up) as Hu by (unfold up_key; by rewrite Hkeys).
    unfold chain_mac. cbn [chain_from]. by rewrite Hu. }
  apply wp_bind. eapply wp_mono; [by apply (verify_hops_effect msg 0)| |].
  2:{ intros w1 Hno o (_ & _ & _ & m & Hm & _). rewrite Hchain in Hm.
      change (chain_from (up_key n) msg seed (origin_mac_address msg) (route_hops msg) = None) in Hno.
      congruence. }
  intros [computed n2] w1 HV. cbn [fst snd] in HV. destruct HV as (-> & (ks2 & ->) & W2 & Hc).
  change (up_key n1) with (up_key n) in Hc. change (computed = chain_from (up_key n) msg seed
    (origin_mac_address msg) (route_hops msg)) in Hc. rewrite <- Hchain in Hc.
  assert (only_sending n (upd_e2eKeys ks2 n1)) as Ho2 by (etrans; [exact Ho1|apply only_sending_ks]).
  destruct computed as [m|];
    [|apply Hdrop; auto; intros o (_ & _ & _ & m & Hm & _); congruence].
  case_bool_decide as Hmac; cbn [negb];
    [|apply Hdrop; auto; intros o (_ & _ & _ & m' & Hm & Ha); congruence].
  assert (report_authentic n msg opened) as HA.
  { split_and!; [by exists up, down|done|done|]. by exists m. }
  apply wp_bind. eapply wp_mono; [by apply record_route_effect| |done].
  intros n3 w3 (W3 & Hs & Hd & now & ->).
  destruct (deliver_run opened (upd_routes ((λ t, record t (origin_mac_address msg) (route_path msg)
              (route_len msg) now) <$> routes n) (upd_e2eKeys ks2 n1)) w3) as (w4 & Ed & Hs4 & Hd4).
  apply wp_bind. eapply wp_run; [exact Ed|]. apply wp_ret. split_and!; [done|by rewrite Hs4|].
  right. exists opened, now, ks2. split_and!; [done..|]. by rewrite Hd4, Hd.
Qed.

(** C12. The master records a relay path only from an authentic route report: the
    payload was sealed by its origin, the path is within bounds, and the chain
    MAC equals the one recomputed over the origin and every listed hop, each
    under the key of that registered hop; then exactly that path is recorded and
    the opened payload delivered.  Every other report changes neither routes nor
    anything delivered, and a route report makes the master send nothing. *)
Theorem route_report_authentic msg n w n' w' :
  node_wf n → report_wf msg → isMaster n = true →
  processRouteReport msg n w = Ok n' w' → report_outcome msg n w n' w'.
Proof.
  intros W RW Hm. unfold processRouteReport. rewrite Hm.
  apply (wp_Ok _ _ (λ n' w', report_outcome msg n w n' w')
           (λ _, ∀ opened, ¬ report_authentic n msg opened)).
  by apply master_route_report_effect.
Qed.
End master_side.

(** * The relays' side and the whole path *)
Section end_to_end.
Context {E : Env} {C : Crypto} {Pr : Protocol}.

Definition relay_outcome (msg : mesh_message) (n : Node) (w : world) (n' : Node) (w' : world)
    : Prop :=
  only_sending n n' ∧ node_wf n' ∧
  (sent_frames (w_trace w') = sent_frames (w_trace w) ∨
   ∃ h up down now,
     hasMasterMac (enrollment n) = true ∧
     keys_of (devicePrivateKey (enrollment n)) (peers n) (m_mac (currentMaster n)) = Some (up, down) ∧
     hop_count msg < MAX_HOPS ∧ route_len msg < MAX_HOPS ∧
     sent_frames (w_trace w') =
       (h, extend up (deviceMacAddress n) msg) :: sent_frames (w_trace w) ∧
     hop_ok (currentMaster n) (peers n) (neighbors n) (deviceMacAddress n) now h).

Lemma relay_route_report_effect msg n w :
  node_wf n → isMaster n = false → origin_mac_address msg ≠ deviceMacAddress n →
  wp (relay_route_report msg n) w (λ n' w', relay_outcome msg n w n' w') (λ _, True).
Proof.
  intros W Hm Ho. unfold relay_route_report.
  destruct (Z.leb_spec MAX_HOPS (hop_count msg)); [apply wp_ret; split_and!; [done..|by left]|].
  destruct (Z.leb_spec MAX_HOPS (route_len msg)); [apply wp_ret; split_and!; [done..|by left]|].
  apply wp_bind. eapply wp_mono; [apply masterE2EKeys_effect; by apply W| |done].
  intros [keys ks] w1 HK. cbn [fst snd] in HK. destruct HK as (-> & Hk & F & Hc).
  set (n1 := upd_e2eKeys ks n). assert (node_wf n1) as W1 by (by apply node_wf_ks).
  pose proof (only_sending_ks n ks : only_sending n n1) as Ho1.
  destruct keys as [[up down]|]; [|apply wp_ret; split_and!; [done..|by left]].
  destruct (hasMasterMac (enrollment n)) eqn:Hhm; [|done].
  change (isMaster n1) with (isMaster n). rewrite Hm.
  eapply wp_mono; [by apply transmitCore_effect| |done].
  intros n' w' (Ho2 & W2 & Hcase). split; [by etrans|]. split; [done|].
  destruct Hcase as [Hs|(h & f & now & Hs & Hhop & _ & Hf)]; [by left|right].
  exists h, up, down, now. split_and!; try done. rewrite Hs. do 2 f_equal.
  by apply (Hf _ eq_refl).
Qed.

(** C37. A relay forwards a foreign route report only when it shares a key with
    its master, below the hop and path limits, to a hop closer to the master,
    and then with exactly its own MAC appended and folded into the chain; so a
    report whose chain was valid for the master's keys stays valid. *)
Theorem relay_extends_report keys msg n w n' w' :
  node_wf n → isMaster n = false → origin_mac_address msg ≠ deviceMacAddress n →
  report_wf msg → length (deviceMacAddress n) = 6%nat →
  (∀ up down, keys_of (devicePrivateKey (enrollment n)) (peers n) (m_mac (currentMaster n))
              = Some (up, down) → keys (deviceMacAddress n) = Some up) →
  chain_valid keys msg →
  processRouteReport msg n w = Ok n' w' →
  relay_outcome msg n w n' w' ∧
  (∀ h f, sent_frames (w_trace w') = (h, f) :: sent_frames (w_trace w) →
     chain_valid keys f ∧ route_hops f = route_hops msg ++ [deviceMacAddress n] ∧
     same_header f msg ∧ data f = data msg ∧ auth_tag f = auth_tag msg).
Proof.
  intros W Hm Ho RW Hd Hkeys Hv. unfold processRouteReport. rewrite Hm. intros Hrun.
  pose proof (wp_Ok _ _ _ _ _ _ (relay_route_report_effect msg n w W Hm Ho) Hrun) as HR.
  split; [exact HR|]. intros h f Hs. destruct HR as (_ & _ & [Hno|HR]).
  { rewrite Hs in Hno. by apply (f_equal length) in Hno; cbn in Hno; lia. }
  destruct HR as (h' & up & down & now & _ & Hk & _ & Hl & Hs' & _).
  rewrite Hs in Hs'. simplify_eq.
  destruct (append_hop_hops (deviceMacAddress n) msg RW Hl Hd) as (_ & _ & Hh).
  split_and!; [|exact Hh|by repeat split|done|done].
  eapply extend_valid; [done..|by eapply Hkeys|done].
Qed.
End end_to_end.

(** * From origin to master *)
Lemma path_hops_prefix p p' len :
  0 <= len → path_prefix p len = path_prefix p' len →
  path_hops p (Z.to_nat len) = path_hops p' (Z.to_nat len).
Proof.
  intros Hl H. apply list_fmap_ext. intros i j [Hj Hlt]%lookup_seq. cbn in Hj. subst j.
  unfold route_hop, slice.
  assert (∀ q, take 6 (drop (i * 6) q) = take 6 (drop (i * 6) (path_prefix q len))) as Hq.
  { intros q. unfold path_prefix. rewrite !take_drop_commute, take_take. f_equal. f_equal. lia. }
  rewrite (Hq p), (Hq p'). by rewrite H.
Qed.

Section travel.
Context {E : Env} {C : Crypto} {Pr : Protocol}.

(** A report carried by a sequence of relays (MAC and key with the master). *)
Definition travel (relays : list (mac * bytes)) (f : mesh_message) : mesh_message :=
  fold_left (λ m r, extend r.2 r.1 m) relays f.

Lemma travel_spec keys relays f :
  report_wf f → route_len f + Z.of_nat (length relays) <= MAX_HOPS → chain_valid keys f →
  (∀ r, r ∈ relays → length r.1 = 6%nat ∧ keys r.1 = Some r.2) →
  let f' := travel relays f in
  report_wf f' ∧ chain_valid keys f' ∧ route_len f' = route_len f + Z.of_nat (length relays) ∧
  route_hops f' = route_hops f ++ relays.*1 ∧ same_header f' f ∧ data f' = data f ∧
  auth_tag f' = auth_tag f.
Proof.
  revert f. induction relays as [|[m up] relays IH]; intros f W Hl V HR; cbn zeta.
  { cbn. rewrite app_nil_r. split_and!; try done. lia. }
  cbn [length] in Hl. destruct (HR (m, up)) as [Hm Hk]; [by left|]. cbn [fst snd] in Hm, Hk.
  assert (route_len f < MAX_HOPS) as Hlt by lia.
  destruct (append_hop_hops m f W Hlt Hm) as ([Wp Wl Wo] & Hlen & Hh).
  destruct (IH (extend up m f)) as (H1 & H2 & H3 & H4 & H5 & H6 & H7).
  - by split.
  - change (route_len (extend up m f)) with (route_len (append_hop m f)). rewrite Hlen. lia.
  - by apply extend_valid.
  - intros r Hr. apply HR. by right.
  - cbn [travel fold_left fst snd]. split_and!; try done.
    + unfold travel in H3. rewrite H3.
      change (route_len (extend up m f)) with (route_len (append_hop m f)). cbn [length]. lia.
    + unfold travel in H4. rewrite H4.
      change (route_hops (extend up m f)) with (route_hops (append_hop m f)). rewrite Hh.
      rewrite fmap_cons. by rewrite <- app_assoc.
Qed.

(** C4. Route discovery works end to end: a route report an enrolled node seals
    and seeds, carried by any relays that share keys with the master, at most
    [MAX_HOPS] of them, is accepted by the master, which records for that node
    exactly the relays that carried it, in order, and delivers the payload. *)
Theorem route_report_end_to_end `{!CryptoLawful C} plain sealed relays n t w up down :
  node_wf n → isMaster n = true → routes n = Some t →
  report_wf plain → route_len plain = 0 → hd 0 (data plain) = OP_ROUTE_REPORT →
  keys_of (devicePrivateKey (enrollment n)) (peers n) (origin_mac_address plain) = Some (up, down) →
  sealPayload up plain = Some sealed →
  (length relays <= 8)%nat →
  (∀ r, r ∈ relays → length r.1 = 6%nat ∧ up_key n r.1 = Some r.2) →
  let seeded := set_auth_path
    (chainStep up (buildHopContext sealed ZERO_MAC (origin_mac_address plain)) (zeros 8)) sealed in
  ∃ n' w' t' p,
    processRouteReport (travel relays seeded) n w = Ok n' w' ∧ node_wf n' ∧
    routes n' = Some t' ∧
    lookup t' (origin_mac_address plain) (zeros 48) = Some (p, Z.of_nat (length relays)) ∧
    path_hops p (length relays) = relays.*1 ∧
    delivered (w_trace w') =
      (if externalRecvCallback n
       then [set_data (data plain) (travel relays seeded)] else []) ++ delivered (w_trace w).
Proof.
  intros W Hm Hr RW Hz Hop Hk Hs Hlen HR seeded.
  pose proof (sealPayload_fields _ _ _ Hs) as (_ & _ & So & _ & Sp & Sl & _).
  assert (report_wf seeded) as RWs by (destruct RW; split; cbn; congruence).
  assert (chain_valid (up_key n) seeded) as V.
  { exists (auth_path seeded). split; [|done]. unfold chain_mac. rewrite path_hops_route.
    change (route_len seeded) with (route_len sealed). rewrite Sl, Hz.
    change (origin_mac_address seeded) with (origin_mac_address sealed). rewrite So.
    assert (up_key n (origin_mac_address plain) = Some up) as Hu by (unfold up_key; by rewrite Hk).
    cbn [chain_from path_hops Z.to_nat List.seq fmap list_fmap]. rewrite Hu.
    cbn [mbind option_bind]. done. }
  destruct (travel_spec (up_key n) relays seeded RWs) as (RWf & Vf & Hlf & Hhf & HH & Hd & Hat);
    [|done|done|].
  { change (route_len seeded) with (route_len sealed). unfold MAX_HOPS. lia. }
  set (f := travel relays seeded) in *.
  change (route_len seeded) with (route_len sealed) in Hlf. rewrite Sl, Hz in Hlf.
  change (route_hops seeded) with (route_hops sealed) in Hhf.
  assert (route_hops sealed = []) as Hnil.
  { rewrite path_hops_route, Sl, Hz. done. }
  rewrite Hnil in Hhf. cbn [app] in Hhf.
  assert (origin_mac_address f = origin_mac_address plain) as Hof.
  { destruct HH as (_ & _ & _ & HH & _). rewrite HH. exact So. }
  assert (openPayload up f = Some (set_data (data plain) f)) as Hopen.
  { by apply (sealed_opens up plain sealed f Hs). }
  assert (report_authentic n f (set_data (data plain) f)) as HA.
  { split_and!; [exists up, down; by rewrite Hof|done|unfold MAX_HOPS; lia|done]. }
  pose proof (master_route_report_effect f n w W RWf) as HE.
  unfold processRouteReport. rewrite Hm. unfold wp in HE.
  destruct (master_route_report f n w) as [n' w'|w']; [|by apply HE in HA].
  destruct HE as (W' & _ & [(_ & _ & Hno)|HE]); [by apply Hno in HA|].
  destruct HE as (opened & now & ks & ((u & d & Hk' & Ho') & _) & -> & Hdel).
  rewrite Hof, Hk in Hk'. simplify_eq.
  rewrite Hr, Hof, Hlf, Z.add_0_l in *. cbn [fmap option_fmap option_map] in *.
  destruct (lookup_record_same t (origin_mac_address plain) (route_path f)
              (Z.of_nat (length relays)) now (zeros 48)) as (p & Hp & Hpre);
    [by apply (nwf_routes n W)|apply RWf|done|unfold MAX_HOPS; lia|].
  eexists _, _, _, p. split_and!; [done|done|done|exact Hp| |done].
  apply path_hops_prefix in Hpre; [|lia]. rewrite Nat2Z.id in Hpre. rewrite Hpre, <- Hhf.
  rewrite path_hops_route, Hlf. by rewrite Nat2Z.id.
Qed.
End travel.

(** * Witnesses: two relays between a leaf and its master *)
#[local] Existing Instance documented_protocol.

Definition demo_three_peers : PeerRegistry :=
  Registry [Peer (demo_mac 1) (replicate 32 3) 0; Peer (demo_mac 2) (replicate 32 4) 0;
            Peer (demo_mac 3) (replicate 32 5) 0] (demo_mac 7).
Definition demo_report_master : Node :=
  upd_externalRecvCallback true (upd_routes (Some routes_clear) (upd_peers demo_three_peers demo_master_node)).

Lemma node_wf_reconfigured `{Crypto} n ps t :
  node_wf n → registry_wf ps → fresh_cache (devicePrivateKey (enrollment n)) ps (e2eKeys n) →
  routes_wf t → isMaster n = true →
  node_wf (upd_externalRecvCallback true (upd_routes (Some t) (upd_peers ps n))).
Proof. intros [] ? ? ? ?. split; try done. by intros ? [= <-]. Qed.

Lemma demo_report_master_wf : node_wf (C := toy_crypto) demo_report_master.
Proof.
  apply node_wf_reconfigured; [exact demo_master_node_wf| | |apply routes_clear_wf|reflexivity].
  - split; [cbn; unfold MAX_PEERS; lia|]. by apply (bool_decide_unpack _).
  - apply fresh_cache_empty.
Qed.

Definition demo_report_plain : mesh_message :=
  MeshMessage PROTO_VERSION MESH_TYPE_ROUTE_REPORT 0 (demo_mac 1) (demo_mac 7) (demo_mac 1)
    (OP_ROUTE_REPORT :: zeros 63) 0 2 6 (zeros 32) 0 (zeros 48) (zeros 16) (zeros 8).
Definition demo_key (k : Z) : bytes :=
  default [] (up_key (C := toy_crypto) demo_report_master (demo_mac k)).
Definition demo_relays : list (mac * bytes) := [(demo_mac 2, demo_key 2); (demo_mac 3, demo_key 3)].
Definition demo_report_sealed : mesh_message :=
  default mesh_message_zero (sealPayload (C := toy_crypto) (demo_key 1) demo_report_plain).
Definition demo_report : mesh_message :=
  set_auth_path (chainStep (C := toy_crypto) (demo_key 1)
    (buildHopContext demo_report_sealed ZERO_MAC (demo_mac 1)) (zeros 8)) demo_report_sealed.

Lemma demo_report_wf relays : relays = [] ∨ relays = demo_relays →
  report_wf (travel (C := toy_crypto) relays demo_report).
Proof. intros [->| ->]; split; vm_compute; try done; by split. Qed.

Lemma route_report_end_to_end_witness :
  ∃ n' w' t' p,
    processRouteReport (E := ref_env) (C := toy_crypto)
      (travel (C := toy_crypto) demo_relays demo_report) demo_report_master ref_world = Ok n' w' ∧
    node_wf (C := toy_crypto) n' ∧ routes n' = Some t' ∧
    lookup t' (demo_mac 1) (zeros 48) = Some (p, 2) ∧ path_hops p 2 = [demo_mac 2; demo_mac 3] ∧
    delivered (w_trace w') =
      [set_data (data demo_report_plain) (travel (C := toy_crypto) demo_relays demo_report)].
Proof.
  apply (@route_report_end_to_end ref_env toy_crypto documented_protocol toy_lawful
           demo_report_plain demo_report_sealed demo_relays demo_report_master routes_clear ref_world
           (demo_key 1) (default ([], []) (keys_of (C := toy_crypto) (replicate 32 8)
                                             demo_three_peers (demo_mac 1))).2);
    [exact demo_report_master_wf|reflexivity|reflexivity|split; vm_compute; try done; by split
    |reflexivity|reflexivity|vm_compute; reflexivity|vm_compute; reflexivity|cbn; lia|].
  intros r Hr. unfold demo_relays in Hr. rewrite !elem_of_cons, elem_of_nil in Hr.
  destruct Hr as [->|[->|[]]]; (split; [reflexivity|vm_compute; reflexivity]).
Defined.

Lemma route_report_authentic_witness :
  ∃ n' w', processRouteReport (E := ref_env) (C := toy_crypto)
      (travel (C := toy_crypto) demo_relays demo_report) demo_report_master ref_world = Ok n' w' ∧
    routes n' ≠ routes demo_report_master ∧
    report_outcome (C := toy_crypto) (travel (C := toy_crypto) demo_relays demo_report)
      demo_report_master ref_world n' w'.
Proof.
  eexists _, _. split; [vm_compute; reflexivity|]. split; [vm_compute; discriminate|].
  eapply (@route_report_authentic ref_env toy_crypto documented_protocol
            (travel (C := toy_crypto) demo_relays demo_report) demo_report_master ref_world);
    [exact demo_report_master_wf|apply demo_report_wf; by right|reflexivity|vm_compute; reflexivity].
Defined.

(** Relay [demo_mac 2], next to the master. *)
Definition demo_relay_node : Node :=
  upd_enrollment (Enroll (replicate 32 4) (replicate 32 4) true (demo_mac 7) false BROADCAST_MAC true [])
    (upd_deviceMacAddress (demo_mac 2) demo_leaf_node).

Lemma demo_relay_node_wf : node_wf (C := toy_crypto) demo_relay_node.
Proof. destruct demo_leaf_node_wf as []. split; try done. apply fresh_cache_empty. Qed.

Lemma relay_extends_report_witness :
  ∃ n' w' h f, processRouteReport (E := ref_env) (C := toy_crypto) demo_report demo_relay_node ref_world
      = Ok n' w' ∧ sent_frames (w_trace w') = [(h, f)] ∧
    chain_valid (C := toy_crypto) (up_key (C := toy_crypto) demo_report_master) f.
Proof.
  eexists _, _, _, _. split; [vm_compute; reflexivity|]. split; [vm_compute; reflexivity|].
  eapply (@relay_extends_report ref_env toy_crypto documented_protocol
            (up_key (C := toy_crypto) demo_report_master) demo_report demo_relay_node ref_world);
    [exact demo_relay_node_wf|reflexivity|discriminate|apply (demo_report_wf []); by left|reflexivity
    | | |vm_compute; reflexivity|vm_compute; reflexivity].
  - intros up down H. vm_compute in H. injection H as <- <-. vm_compute. reflexivity.
  - eexists. split; vm_compute; reflexivity.
Defined.
