(* ===== verification/Mesh.v ===== *)
(** [mesh/Mesh]: the node itself.  Boot, the dispatch of a received frame, the
    periodic work of [loop], and the role switches; the state is [Node]. *)
From stdpp Require Import relations.
From S2P Require Import Prelude Config MacTable SlotTable NeighborTable Wire Platform ErrorCore.
From S2P Require Import Eeprom ReplayCache RouteTable PeerRegistry Transport Crypto Enrollment.
From S2P Require Import KeyStore Routers Beacon Authorizer Node Messenger RouteReport.

(** * Role and configuration setters (Mesh.h) *)
(** The two pointer tests of [reevaluateRouteTable]. *)
Definition allocate_routes (n : Node) : Node :=
  match routes n with
  | None => if isMaster n then upd_routes (Some routes_clear) n else n
  | Some _ => if isMaster n then n else upd_routes None n
  end.

Definition reevaluateRouteTable (n : Node) : Node :=
  let n1 := allocate_routes n in
  upd_e2eKeys (setCapacity (e2eKeys n1)
                 (if isMaster n1 then LATTICE_E2E_KEYCACHE_MAX else LATTICE_E2E_KEYCACHE_MAX_LEAF)) n1.

Definition setIsMaster (value : bool) (n : Node) : Node := reevaluateRouteTable (upd_isMaster value n).
Definition setDualMasterMode (value : bool) (n : Node) : Node := upd_dualMasterMode value n.
Definition linkDataRecvCallback (n : Node) : Node := upd_externalRecvCallback true n.
Definition setEnrollmentRelayFn (n : Node) : Node := upd_enrollmentRelayFn true n.
Definition getHopCount (n : Node) : Z := if isMaster n then 0 else distance (currentMaster n).

Section Mesh.
Context {E : Env} {C : Crypto} {Pr : Protocol} {Pn : Pin}.

(** * Boot *)
Definition loadMeshKeyFromEEPROM (n : Node) : W Node :=
  let* (_, key) := loadMeshKey (meshKey n) MESH_KEY_SIZE in
  let key1 := if DEV_MODE then splice 0 (take MESH_KEY_SIZE DEFAULT_MESH_KEY) key else key in
  let unset := forallb (λ b, (b =? 0xFF) || (b =? 0x00)) (take MESH_KEY_SIZE key1) in
  if unset then
    let key2 := splice 0 (take MESH_KEY_SIZE DEFAULT_MESH_KEY) key1 in
    saveMeshKey key2 MESH_KEY_SIZE ;;; wret (upd_meshKey key2 n)
  else wret (upd_meshKey key1 n).

Definition loadPersistentState (n : Node) : W Node :=
  ps <- loadFromEEPROM (peers n) ;;
  n1 <- loadMeshKeyFromEEPROM (upd_peers ps n) ;;
  en <- enrollment_init (enrollment n1) ;;
  wret (upd_enrollment en n1).

(** [sta_mac] is the answer of [esp_wifi_get_mac]. *)
Definition readMacAddress (sta_mac : option mac) (n : Node) : W Node :=
  match sta_mac with
  | Some m => wret (upd_deviceMacAddress m n)
  | None => fail E_HARDWARE M_MESH 1 ;;; wret n
  end.

(** [MeshTransport::setup]: a failed driver call aborts, a failed channel
    selection is reported. *)
Definition transport_setup (channel_ok : bool) : W bool :=
  checkEsp channel_ok HARDWARE_FAILURE ;;; wret true.

Definition setupRadio (channel_ok : bool) (sta_mac : option mac) (n : Node) : W (bool * Node) :=
  up <- transport_setup channel_ok ;;
  if negb up then wret (false, n)
  else
    n1 <- readMacAddress sta_mac n ;;
    wret (true, upd_peers (setDeviceMac (peers n1) (deviceMacAddress n1)) n1).

Definition mesh_init (channel_ok init_ok pmk_ok : bool) (sta_mac : option mac) (n : Node)
    : W (bool * Node) :=
  n1 <- loadPersistentState n ;;
  let n2 := reevaluateRouteTable n1 in
  old <- loadBootEpoch ;;
  let epoch := u32 (old + 1) in
  saveBootEpoch epoch ;;;
  let n3 := upd_txState (tx_init (txState n2) epoch) (upd_replay replay_init n2) in
  let* (radio, n4) := setupRadio channel_ok sta_mac n3 in
  if negb radio then wret (false, n4)
  else
    preset <- loadTxPowerPreset ;;
    esp_wifi_set_max_tx_power (default 0 (TX_POWER_VALUES !! Z.to_nat preset)) ;;;
    now_up <- setupEspNow init_ok pmk_ok (peers n4) ;;
    wret (now_up, n4).

(** * Receiving *)
(** [processAdapterData] up to the local delivery; the flag says that the frame was
    delivered and is a broadcast. *)
Definition deliverAdapterData (msg : mesh_message) (n : Node) : W (Node * bool) :=
  let dev := deviceMacAddress n in
  let addressedToSelf := mac_eq (target_mac_address msg) dev in
  let isBroadcastTarget := mac_eq (target_mac_address msg) BROADCAST_MAC in
  let addressedToMaster :=
    hasMasterMac (enrollment n) && mac_eq (target_mac_address msg) (m_mac (currentMaster n)) in
  match classify msg dev (isMaster n) addressedToSelf isBroadcastTarget addressedToMaster with
  | DropHopLimitExceeded => wret (n, false)
  | RelayTowardMaster =>
      let relay := relay_step dev msg in
      n1 <- transmitCore (data_type relay) (Some (data relay)) MESH_TYPE_ADAPTER_DATA (Some relay)
              (isMaster n) n ;;
      wret (n1, false)
  | ForwardOnRoute nextHop =>
      let fwd := bump_hop msg in
      l <- registerDownlinkPeer (downlinkPeerLru n) nextHop (peers n) (currentMaster n) ;;
      let n1 := upd_downlinkPeerLru l n in
      sendMessage nextHop fwd dev ;;; wret (n1, false)
  | Flood => relayDownlink msg (peers n) dev ;;; wret (n, false)
  | NotRouted =>
      let* (auth, ks) :=
        authorize msg (isMaster n) addressedToSelf (currentMaster n) (peers n) (enrollment n)
          (e2eKeys n) in
      let n1 := upd_e2eKeys ks n in
      match auth with
      | None => wret (n1, false)
      | Some opened => deliver opened n1 ;;; wret (n1, isBroadcastTarget)
      end
  end.

(** The end of [processAdapterData]: a leaf relays a broadcast it delivered. *)
Definition relayBroadcast (again : bool) (msg : mesh_message) (n : Node) : W unit :=
  if again && negb (isMaster n) then relayDownlink msg (peers n) (deviceMacAddress n) else wret tt.

Definition processAdapterData (msg : mesh_message) (n : Node) : W Node :=
  let* (n1, again) := deliverAdapterData msg n in
  relayBroadcast again msg n1 ;;; wret n1.

Definition processJoinAck_mesh (msg : mesh_message) (n : Node) : W Node :=
  let* (en, ps) := dispatchJoinAck msg (deviceMacAddress n) (isMaster n) (enrollment n)
                     (Some registerPeerWithKeyTrampoline) (peers n) in
  wret (upd_enrollment en (upd_peers ps n)).

(** The ENROLLMENT case of the dispatch. *)
Definition receive_enrollment (msg : mesh_message) (n : Node) : W Node :=
  if isMaster n then
    let* (_, ps) := registerPeerWithKey (origin_mac_address msg) (enrollment_public_key msg) false
                      (peers n) in
    let n1 := upd_peers ps n in
    wret (upd_enrollment (processRequest (enrollment n1) msg) n1)
  else relayEnrollmentUplink msg n.

(** The message-type switch. *)
Definition dispatch (msg : mesh_message) (n : Node) : W Node :=
  let ty := message_type msg in
  if ty =? MESH_TYPE_ENROLLMENT then receive_enrollment msg n
  else if ty =? MESH_TYPE_JOIN_ACK then processJoinAck_mesh msg n
  else if ty =? MESH_TYPE_MASTER_BEACON then
    c <- beacon_process msg (deviceMacAddress n) (isMaster n) (dualMasterMode n) (beacon_ctx_of n) ;;
    wret (upd_beacon_ctx c n)
  else if ty =? MESH_TYPE_ADAPTER_DATA then processAdapterData msg n
  else if ty =? MESH_TYPE_ROUTE_REPORT then processRouteReport msg n
  else wret n.

(** The replay gate; [None] drops the frame. *)
Definition replay_gate (msg : mesh_message) (n : Node) : W (option Node) :=
  if (proto_version msg =? PROTO_VERSION) && (0 <? epoch_num msg) then
    now <- now_ms ;;
    let (dup, cache) := isReplay (replay n) msg now in
    if dup then wret None else wret (Some (upd_replay cache n))
  else wret (Some n).

(** [handleReceivedMessage] before its switch: version, replay, last-seen time. *)
Definition receive_gate (srcMac : mac) (msg : mesh_message) (n : Node) : W (option Node) :=
  if negb (proto_version msg =? PROTO_VERSION) then wret None
  else
    gate <- replay_gate msg n ;;
    match gate with
    | None => wret None
    | Some n1 => ps <- updateLastSeen (peers n1) srcMac ;; wret (Some (upd_peers ps n1))
    end.

Definition handleReceivedMessage (srcMac : mac) (msg : mesh_message) (n : Node) : W Node :=
  gate <- receive_gate srcMac msg n ;;
  match gate with
  | None => wret n
  | Some n1 => dispatch msg n1
  end.

Definition mesh_drain (n : Node) : W Node :=
  drain handleReceivedMessage (recvQueue n) (upd_recvQueue [] n).

(** * Sending *)
Definition transmit (type : Z) (payload : option bytes) (n : Node) : W Node :=
  transmitDispatch type payload false n.
Definition transmitSelfOriginated (type : Z) (payload : option bytes) (n : Node) : W Node :=
  transmitDispatch type payload true n.

Definition broadcastMasterBeacon (n : Node) : W Node :=
  let* (elapsed, b) := intervalElapsed (beacon n) in
  let n1 := upd_beacon b n in
  if negb elapsed then wret n1
  else
    let* (msg, tx) := buildMessage UNKNOWN_ADAPTER None MESH_TYPE_MASTER_BEACON
                        (deviceMacAddress n1) (currentMaster n1) (txState n1) in
    let msg' := set_hop_count 0 (set_data (<[0%nat := 1]> (data msg)) msg) in
    beacon_send msg' ;;; wret (upd_txState tx n1).

Definition sendEnrollmentRequest (n : Node) : W Node :=
  let* (seq, tx) := nextSeqGuarded (txState n) in
  let n1 := upd_txState tx n in
  sendRequest (enrollment n1) (deviceMacAddress n1) PROTO_VERSION (bootEpoch (txState n1)) seq ;;;
  wret n1.

Definition tickEnrollmentBroadcast (nowMs : Z) (n : Node) : W (bool * Node) :=
  if isEnrolled (enrollment n) || isMaster n then wret (false, n)
  else if 10000 <? nowMs -64 lastEnrollmentBroadcastMs n then
    n1 <- sendEnrollmentRequest (upd_lastEnrollmentBroadcastMs nowMs n) ;; wret (true, n1)
  else wret (true, n).

Definition checkMasterTimeout (n : Node) : W Node :=
  let* (bc, seen) := checkTimeout (beacon n) (isMaster n) (currentMaster n) (lastSeenMasterMac n) in
  let (b, cm) := bc : MasterBeacon * MasterInfo in
  wret (upd_master_state b cm seen n).

Definition mesh_addPeer (m : mac) (n : Node) : W Node :=
  ps <- addPeer m (peers n) ;; wret (upd_peers ps n).
Definition mesh_removePeer (m : mac) (n : Node) : W Node :=
  ps <- removeAndPersist (peers n) m ;; wret (upd_peers ps n).

(** * The periodic work *)
Definition loop_route_report (n : Node) : W Node :=
  now <- now_ms ;;
  if negb (isMaster n) && (ROUTE_REPORT_INTERVAL_MS <=? now -64 lastRouteReportMs n) then
    let* (sent, n1) := sendRouteReport n in
    wret (if sent then upd_lastRouteReportMs now n1 else n1)
  else wret n.

Definition loop_relay_beacon (n : Node) : W Node :=
  let p := pendingRelay n in
  if relayPending p then
    now <- now_ms ;;
    if relayPendingAt p <=? now then
      sendBroadcast (relayPendingMsg p) ;;;
      wret (upd_pendingRelay (Pending (relayPendingMsg p) (relayPendingAt p) false) n)
    else wret n
  else wret n.

(** [relayFn] is the function [setEnrollmentRelayFn] was given. *)
Definition mesh_loop (relayFn : mac → bytes → W unit) (n : Node) : W Node :=
  en <- drainPendingRelay (if enrollmentRelayFn n then Some relayFn else None)
          (enrollment n) ;;
  n1 <- loop_route_report (upd_enrollment en n) ;;
  n2 <- loop_relay_beacon n1 ;;
  if isMaster n2 then broadcastMasterBeacon n2 else wret n2.
End Mesh.

(** * Components never deliver on their own *)
Definition no_delivery (e : event) : Prop := match e with EvDeliver _ => False | _ => True end.

Lemma appended_no_delivery w w' :
  appended no_delivery w w' → delivered (w_trace w') = delivered (w_trace w).
Proof. intros (evs & -> & H). induction H as [|e evs He _ IH]; [done|]. by destruct e. Qed.

Section silent.
Context {E : Env} {C : Crypto} {Pr : Protocol} {Pn : Pin}.

Lemma silent_error e : is_error_event e → no_delivery e.
Proof. by destruct e. Qed.
Lemma silent_quiet e : quiet_event e → no_delivery e.
Proof. by destruct e. Qed.
Lemma emits_silent {A} (c : W A) : emits quiet_event c → emits no_delivery c.
Proof. intros H. eapply emits_weaken; [exact H|apply silent_quiet]. Qed.

Lemma getKeys_quiet ks m own pub : emits quiet_event (getKeys ks m own pub).
Proof.
  assert (∀ a b, emits quiet_event (deriveE2EKeys a b))
    by (intros; by apply deriveE2EKeys_emits; [apply quiet_error|]).
  unfold getKeys. destruct (capacity_ ks =? 0)%nat; [apply emits_ret|].
  destruct (find _ _ _); [destruct (_ !! _); [destruct (k_valid _)|]|]; solve_emits.
Qed.
Lemma masterE2EKeys_quiet cm ps en ks : emits quiet_event (masterE2EKeys cm ps en ks).
Proof. unfold masterE2EKeys. pose proof getKeys_quiet. solve_emits. Qed.
Lemma peerE2EKeys_quiet m ps en ks : emits quiet_event (peerE2EKeys m ps en ks).
Proof. unfold peerE2EKeys. pose proof getKeys_quiet. solve_emits. Qed.

Lemma masterE2EKeys_silent cm ps en ks : emits no_delivery (masterE2EKeys cm ps en ks).
Proof. apply emits_silent, masterE2EKeys_quiet. Qed.
Lemma peerE2EKeys_silent m ps en ks : emits no_delivery (peerE2EKeys m ps en ks).
Proof. apply emits_silent, peerE2EKeys_quiet. Qed.

Lemma sendMessage_silent t m d : emits no_delivery (sendMessage t m d).
Proof. by apply sendMessage_emits; [apply silent_error|]. Qed.

Lemma transmitCore_silent ty p mt ov b n : emits no_delivery (transmitCore ty p mt ov b n).
Proof.
  pose proof (λ a b c d e f, emits_silent _ (findNextHop_quiet a b c d e f)).
  pose proof (λ a b c d e f, emits_silent _ (buildMessage_quiet a b c d e f)).
  pose proof masterE2EKeys_silent. pose proof sendMessage_silent.
  assert (∀ s e q, emits no_delivery (checkEpochRollback s e q)).
  { intros. unfold checkEpochRollback. pose proof (fail_emits no_delivery silent_error). solve_emits. }
  assert (∀ m n0, emits no_delivery (seal_uplink m n0)).
  { intros. unfold seal_uplink. solve_emits. }
  assert (∀ m n0, emits no_delivery (route_uplink m n0)).
  { intros. unfold route_uplink, now_ms, esp_timer_get_time. solve_emits. }
  unfold transmitCore. solve_emits.
Qed.

Lemma relayDownlink_silent m ps d : emits no_delivery (relayDownlink m ps d).
Proof. unfold relayDownlink. pose proof sendMessage_silent. solve_emits. Qed.
End silent.

(** * Last-seen bookkeeping leaves the keys alone *)
Definition same_keys (r r' : PeerRegistry) : Prop :=
  ∀ m, publicKey <$> peer_find r' m = publicKey <$> peer_find r m.

Lemma same_keys_keeps r r' : same_keys r r' → keeps_keys r r'.
Proof.
  intros H m k (p & Hp & Hk & Hz). specialize (H m). rewrite Hp in H. cbn in H.
  destruct (peer_find r' m) as [p'|] eqn:Hp'; [|done]. cbn in H. simplify_eq. by exists p'.
Qed.

Lemma updateLastSeen_effect `{Env} r m w :
  registry_wf r →
  wp (updateLastSeen r m) w
    (λ r' w', registry_wf r' ∧ same_keys r r' ∧ delivered (w_trace w') = delivered (w_trace w) ∧
              sent_frames (w_trace w') = sent_frames (w_trace w)) (λ _, False).
Proof.
  intros W. unfold updateLastSeen. destruct (mac_eq m (deviceMac r)); [by apply wp_ret|].
  destruct (peer_index r m) as [i|] eqn:Hi; [|by apply wp_ret].
  apply wp_bind. destruct (now_ms_run w) as (us & Et). eapply wp_run; [exact Et|]. apply wp_ret.
  split_and!; [by apply alter_wf| |done|done].
  apply (peer_index_Some _ _ _ W) in Hi as (p & Hp & Hm). intros m'.
  rewrite (peer_find_alter r i _ p m' W) by done.
  destruct (mac_eq m' (p_mac p)) eqn:Em; [|done]. mac_cases. subst m'. rewrite Hm.
  assert (peer_find r m = Some p) as ->; [|done].
  apply peer_find_Some; [done|]. split; [by eapply list_elem_of_lookup_2|done].
Qed.

Section Keys.
Context {C : Crypto} {Pr : Protocol}.

Lemma keys_of_same own r r' m : same_keys r r' → keys_of own r' m = keys_of own r m.
Proof.
  intros H. specialize (H m). unfold keys_of.
  destruct (peer_find r' m), (peer_find r m); cbn in *; try done. injection H as H. by rewrite H.
Qed.

Lemma authentic_same_keys msg b self cm r r' en f :
  same_keys r r' → authentic msg b self cm r' en f → authentic msg b self cm r en f.
Proof.
  intros H (H1 & H2 & H3). unfold authentic.
  setoid_rewrite (keys_of_same _ _ _ _ H) in H1.
  setoid_rewrite (keys_of_same _ _ _ _ H) in H2.
  setoid_rewrite (keys_of_same _ _ _ _ H) in H3. auto.
Qed.
End Keys.

(** * Receiving preserves the invariant and delivers only authentic frames *)
Section receive.
Context {E : Env} {C : Crypto} {Pr : Protocol} {Pn : Pin}.

Lemma wp_silent {A} (c : W A) w :
  emits no_delivery c → wp c w (λ _ w', delivered (w_trace w') = delivered (w_trace w)) (λ _, True).
Proof.
  intros Hc. eapply wp_mono; [apply wp_emits; [exact Hc|]| |done].
  - instantiate (1 := λ _, True). instantiate (1 := λ _ _, True). unfold wp. by destruct (c w).
  - cbn. intros _ w' [_ H]. by apply appended_no_delivery.
Qed.

Lemma wp_and_silent {A} (c : W A) w Q :
  emits no_delivery c → wp c w Q (λ _, True) →
  wp c w (λ a w', Q a w' ∧ delivered (w_trace w') = delivered (w_trace w)) (λ _, True).
Proof.
  intros Hc HQ. eapply wp_mono; [by apply wp_emits| |done].
  cbn. intros a w' [H1 H2]. split; [done|]. by apply appended_no_delivery.
Qed.

(** Who may be behind a delivered frame. *)
Definition delivery_authentic (n : Node) (msg f : mesh_message) : Prop :=
  (message_type msg = MESH_TYPE_ADAPTER_DATA ∧
   authentic msg (isMaster n) (mac_eq (target_mac_address msg) (deviceMacAddress n))
     (currentMaster n) (peers n) (enrollment n) f ∧
   (isMaster n = true ∨ target_mac_address msg = deviceMacAddress n ∨
    target_mac_address msg = BROADCAST_MAC)) ∨
  (message_type msg = MESH_TYPE_ROUTE_REPORT ∧ isMaster n = true ∧ report_authentic n msg f).

Definition receive_ok (n : Node) (msg : mesh_message) (w : world) (n' : Node) (w' : world) : Prop :=
  node_wf n' ∧
  (delivered (w_trace w') = delivered (w_trace w) ∨
   ∃ f, delivered (w_trace w') = f :: delivered (w_trace w) ∧ delivery_authentic n msg f).

Lemma receive_ok_quiet n msg w n' w' :
  node_wf n' → delivered (w_trace w') = delivered (w_trace w) → receive_ok n msg w n' w'.
Proof. intros. split; [done|by left]. Qed.

(** At a node a frame is not routed onward only when it is addressed to it or to all. *)
Lemma not_routed_addressed msg dev master toMaster :
  classify msg dev master (mac_eq (target_mac_address msg) dev)
    (mac_eq (target_mac_address msg) BROADCAST_MAC) toMaster = NotRouted →
  master = true ∨ target_mac_address msg = dev ∨ target_mac_address msg = BROADCAST_MAC.
Proof.
  intros H. unfold classify in H. destruct master; [by left|]. right. cbn [orb] in *.
  destruct (mac_eq (target_mac_address msg) dev) eqn:Hs; [by left; mac_cases|].
  destruct (mac_eq (target_mac_address msg) BROADCAST_MAC) eqn:Hb; [by right; mac_cases|].
  cbn [orb] in *. exfalso. revert H.
  destruct toMaster; [by destruct (_ <=? _)|]. destruct (_ && _); [|done].
  destruct (route_scan _ _ _ _) as [d|] eqn:Hs'; [|done]. intros ->.
  apply route_scan_Some in Hs' as (? & _ & _ & _ & Hs'). by destruct (_ <=? _).
Qed.

Lemma deliverAdapterData_effect `{!CryptoLawful C} msg n w :
  node_wf n → message_type msg = MESH_TYPE_ADAPTER_DATA → 0 <= route_len msg →
  wp (deliverAdapterData msg n) w (λ r w', receive_ok n msg w r.1 w') (λ _, True).
Proof.
  intros W Ht Hl. unfold deliverAdapterData.
  destruct (classify _ _ _ _ _ _) as [| |hop| |] eqn:Hc.
  - apply wp_bind. eapply wp_mono; [by apply authorize_effect; apply W| |done].
    intros [auth ks] w1 HA. cbn [fst snd] in HA. destruct HA as (-> & F & Hcap & Hauth).
    set (n1 := upd_e2eKeys ks n). assert (node_wf n1) as W1 by (by apply node_wf_ks).
    destruct auth as [opened|]; [|apply wp_ret; by apply receive_ok_quiet].
    destruct (deliver_run opened n1 w) as (w2 & Ed & _ & Hd).
    apply wp_bind. eapply wp_run; [exact Ed|]. apply wp_ret. split; [done|]. rewrite Hd.
    change (externalRecvCallback n1) with (externalRecvCallback n).
    destruct (externalRecvCallback n); [|by left]. right. exists opened. split; [done|]. left.
    split_and!; [done|by apply Hauth|]. by apply (not_routed_addressed _ _ _ _ Hc).
  - assert (isMaster n = false) as ->.
    { unfold classify in Hc. by destruct (isMaster n). }
    apply wp_bind.
    eapply wp_mono; [apply wp_and_silent; [apply transmitCore_silent|by apply transmitCore_effect]|
      |done].
    cbn beta. intros n' w' ((_ & W' & _) & Hd). apply wp_ret. by apply receive_ok_quiet.
  - destruct (registerDownlinkPeer_lru (downlinkPeerLru n) hop (peers n) (currentMaster n) w
                (nwf_lru n W)) as (w1 & Er).
    pose proof (emits_Ok _ _ _ _ _ (registerDownlinkPeer_quiet _ _ _ _) Er) as HQ%appended_delivered.
    apply wp_bind. eapply wp_run; [exact Er|]. apply wp_bind.
    eapply wp_mono; [apply wp_silent, sendMessage_silent| |done].
    cbn beta. intros [] w2 H2. apply wp_ret. apply receive_ok_quiet; [|by rewrite H2].
    apply node_wf_lru; [done|].
    destruct (lru_exempt _ _ _); [apply forget_wf|apply lru_touch_wf]; apply W.
  - apply wp_bind. eapply wp_mono; [apply wp_silent, relayDownlink_silent| |done].
    cbn beta. intros [] w1 H1. apply wp_ret. by apply receive_ok_quiet.
  - apply wp_ret. by apply receive_ok_quiet.
Qed.

Lemma relayBroadcast_silent again msg n : emits no_delivery (relayBroadcast again msg n).
Proof. unfold relayBroadcast. destruct (_ && _); [apply relayDownlink_silent|apply emits_ret]. Qed.

Lemma processAdapterData_effect `{!CryptoLawful C} msg n w :
  node_wf n → message_type msg = MESH_TYPE_ADAPTER_DATA → 0 <= route_len msg →
  wp (processAdapterData msg n) w (λ n' w', receive_ok n msg w n' w') (λ _, True).
Proof.
  intros W Ht Hl. unfold processAdapterData. apply wp_bind.
  eapply wp_mono; [by apply deliverAdapterData_effect| |done].
  intros [n1 again] w1 [W1 Hd]. cbn [fst] in W1, Hd. apply wp_bind.
  eapply wp_mono; [apply wp_silent, relayBroadcast_silent| |done].
  cbn beta. intros [] w2 H2. apply wp_ret. split; [done|]. by rewrite H2.
Qed.

(** ** JOIN_ACK *)
Lemma dispatchJoinAck_silent msg dev b en ps :
  emits no_delivery (dispatchJoinAck msg dev b en (Some registerPeerWithKeyTrampoline) ps).
Proof.
  assert (∀ e, is_nvs_event e → no_delivery e) as HN by (by intros []).
  pose proof (λ a b c d, emits_silent _ (registerPeerWithKey_quiet a b c d)).
  assert (∀ m, emits no_delivery (sendBroadcast m)) by (intros; by apply sendBroadcast_emits).
  assert (∀ m k ps0, emits no_delivery (registerPeerWithKeyTrampoline m k ps0))
    by (intros; unfold registerPeerWithKeyTrampoline; auto).
  unfold dispatchJoinAck, processJoinAck, join_ack_secondary, learnMasterMac,
    learnSecondaryMasterMac, saveEnrolledFlag, saveKnownMasterMac, saveKnownMasterMacSecondary.
  solve_emits.
Qed.

Lemma joined_private e msg e' : joined e msg e' → devicePrivateKey e' = devicePrivateKey e.
Proof. by intros (_ & _ & _ & _ & H & _). Qed.

Lemma dispatchJoinAck_effect msg dev b en ps w :
  registry_wf ps →
  wp (dispatchJoinAck msg dev b en (Some registerPeerWithKeyTrampoline) ps) w
    (λ r _, registry_wf r.2 ∧ keeps_keys ps r.2 ∧ devicePrivateKey r.1 = devicePrivateKey en)
    (λ _, True).
Proof.
  intros W. unfold dispatchJoinAck. destruct (negb (mac_eq (target_mac_address msg) dev)).
  - destruct (mac_eq _ _); [by apply wp_ret|]. destruct (_ <=? _); [by apply wp_ret|].
    apply wp_any. intros ok w'. by apply wp_ret.
  - destruct b; [by apply wp_ret|].
    eapply wp_mono; [by apply processJoinAck_effect| |done].
    cbn. intros r w' (H1 & H2 & [->|[_ HJ]]); split_and!; try done. by eapply joined_private.
Qed.

Lemma node_wf_enrollment n en :
  node_wf n → devicePrivateKey en = devicePrivateKey (enrollment n) → node_wf (upd_enrollment en n).
Proof. intros [] Hk. split; try done. cbn. by rewrite Hk. Qed.

Lemma processJoinAck_mesh_effect msg n w :
  node_wf n →
  wp (processJoinAck_mesh msg n) w (λ n' w', receive_ok n msg w n' w') (λ _, True).
Proof.
  intros W. unfold processJoinAck_mesh. apply wp_bind.
  eapply wp_mono; [apply wp_and_silent; [apply dispatchJoinAck_silent|]| |done].
  { apply dispatchJoinAck_effect, W. }
  intros [en ps] w' HR. cbn [fst snd] in HR. destruct HR as ((H1 & H2 & H3) & Hd).
  apply wp_ret. apply receive_ok_quiet; [|done]. apply node_wf_enrollment; [|done].
  by apply node_wf_peers.
Qed.

(** ** Enrollment requests *)
Lemma receive_enrollment_effect msg n w :
  node_wf n →
  wp (receive_enrollment msg n) w (λ n' w', receive_ok n msg w n' w') (λ _, True).
Proof.
  intros W. unfold receive_enrollment. destruct (isMaster n).
  - apply wp_bind. eapply wp_mono; [apply wp_and_silent;
      [apply emits_silent, registerPeerWithKey_quiet|apply registerPeer_effect, W]| |done].
    intros [ok ps] w' HR. cbn [fst snd] in HR. destruct HR as ((H1 & H2 & _) & Hd).
    apply wp_ret. apply receive_ok_quiet; [|done]. apply node_wf_enrollment; [|done].
    by apply node_wf_peers.
  - eapply wp_mono; [apply wp_and_silent; [|by apply relayEnrollmentUplink_effect]| |done].
    + pose proof transmitCore_silent.
      pose proof (λ a b c d e f, emits_silent _ (findNextHop_quiet a b c d e f)).
      unfold relayEnrollmentUplink, now_ms, esp_timer_get_time. solve_emits.
    + cbn. intros n' w' ((_ & W' & _) & Hd). by apply receive_ok_quiet.
Qed.

(** ** Beacons *)
Lemma beacon_process_silent msg dev b dual c : emits no_delivery (beacon_process msg dev b dual c).
Proof.
  assert (∀ e, is_nvs_event e → no_delivery e) as HN by (by intros []).
  pose proof (fail_emits no_delivery silent_error).
  unfold beacon_process, beacon_tofu, beacon_relay, learnMasterMac, learnSecondaryMasterMac,
    saveKnownMasterMac, saveKnownMasterMacSecondary, now_ms, esp_timer_get_time, esp_random.
  solve_emits.
Qed.

Lemma tofu_private origin en en' : tofu_ok origin en en' → devicePrivateKey en' = devicePrivateKey en.
Proof. by intros [->|[->|[_ ->]]]. Qed.

Lemma beacon_effect msg n w :
  node_wf n → 0 <= hop_count msg →
  wp (c <- beacon_process msg (deviceMacAddress n) (isMaster n) (dualMasterMode n) (beacon_ctx_of n) ;;
      wret (upd_beacon_ctx c n)) w (λ n' w', receive_ok n msg w n' w') (λ _, True).
Proof.
  intros W Hh. apply wp_bind.
  eapply wp_mono; [apply wp_and_silent; [apply beacon_process_silent|]| |done].
  { apply beacon_process_effect; [done|apply W..]. }
  cbn beta. intros c w' [Hc Hd]. apply wp_ret. apply receive_ok_quiet; [|done].
  destruct Hc as [->|Hc]; [by destruct n|].
  destruct Hc as (_ & _ & _ & Ht & _ & _ & _ & _ & Hn1 & Hn2 & Hrel).
  apply tofu_private in Ht. cbn [b_enrollment beacon_ctx_of] in Ht.
  destruct W. split; try done; cbn.
  - by rewrite Ht.
  - destruct (isMaster n); [by destruct Hrel as [-> _]|].
    destruct Hrel as [[[= -> _] _]|(_ & Hr & _)]; [done|]. cbn in Hr. rewrite Hr.
    destruct nwf_tx. by split.
Qed.
End receive.

(** * The whole receive path *)
Section handle.
Context {E : Env} {C : Crypto} {Pr : Protocol} {Pn : Pin}.

(** A frame as the radio hands it over: every field within its C type. *)
Lemma report_wf_of msg : wf_message msg → report_wf msg.
Proof.
  intros H. split; [apply (wfm_rpath _ H)|apply (wfm_rlen _ H)|apply (wfm_origin _ H)].
Qed.

Lemma route_report_receive msg n w :
  node_wf n → wf_message msg → message_type msg = MESH_TYPE_ROUTE_REPORT →
  wp (processRouteReport msg n) w (λ n' w', receive_ok n msg w n' w') (λ _, True).
Proof.
  intros W Hm Ht. unfold processRouteReport. destruct (isMaster n) eqn:Hr.
  - eapply wp_mono; [by apply master_route_report_effect, report_wf_of| |done].
    cbn beta. intros n' w' (W' & _ & [(_ & Hd & _)|(opened & now & ks & HA & _ & Hd)]);
      [by apply receive_ok_quiet|].
    split; [done|]. rewrite Hd. destruct (externalRecvCallback n); [|by left].
    right. exists opened. split; [done|]. by right.
  - unfold relay_route_report.
    destruct (_ <=? _); [apply wp_ret; by apply receive_ok_quiet|].
    destruct (_ <=? _); [apply wp_ret; by apply receive_ok_quiet|].
    apply wp_bind. eapply wp_mono; [apply masterE2EKeys_effect; by apply W| |done].
    intros [keys ks] w1 HK. cbn [fst snd] in HK. destruct HK as (-> & _ & F & Hc).
    set (n1 := upd_e2eKeys ks n). assert (node_wf n1) as W1 by (by apply node_wf_ks).
    destruct keys as [[up down]|]; [|apply wp_ret; by apply receive_ok_quiet].
    change (isMaster n1) with (isMaster n). rewrite Hr.
    eapply wp_mono; [apply wp_and_silent; [apply transmitCore_silent|by apply transmitCore_effect]|
      |done].
    cbn beta. intros n' w' ((_ & W' & _) & Hd). by apply receive_ok_quiet.
Qed.

Lemma dispatch_effect `{!CryptoLawful C} msg n w :
  node_wf n → wf_message msg →
  wp (dispatch msg n) w (λ n' w', receive_ok n msg w n' w') (λ _, True).
Proof.
  intros W Hm. unfold dispatch.
  destruct (_ =? _); [by apply receive_enrollment_effect|].
  destruct (_ =? _); [by apply processJoinAck_mesh_effect|].
  destruct (_ =? _); [apply beacon_effect; [done|apply Hm]|].
  destruct (Z.eqb_spec (message_type msg) MESH_TYPE_ADAPTER_DATA);
    [apply processAdapterData_effect; [done..|apply Hm]|].
  destruct (Z.eqb_spec (message_type msg) MESH_TYPE_ROUTE_REPORT);
    [by apply route_report_receive|].
  apply wp_ret. by apply receive_ok_quiet.
Qed.

Lemma node_wf_replay n cache : node_wf n → replay_wf cache → node_wf (upd_replay cache n).
Proof. intros [] ?. by split. Qed.

Lemma replay_gate_effect msg n w :
  node_wf n →
  wp (replay_gate msg n) w
    (λ r w', delivered (w_trace w') = delivered (w_trace w) ∧
             sent_frames (w_trace w') = sent_frames (w_trace w) ∧
             match r with
             | Some n1 => node_wf n1 ∧ ∃ cache, n1 = upd_replay cache n
             | None => True
             end) (λ _, False).
Proof.
  intros W. unfold replay_gate. destruct (_ && _).
  - apply wp_bind. destruct (now_ms_run w) as (us & Et). eapply wp_run; [exact Et|].
    destruct (isReplay _ _ _) as [dup cache] eqn:Hr.
    pose proof (isReplay_wf (replay n) msg (u64 us / 1000) (nwf_replay n W)) as Wc.
    rewrite Hr in Wc. destruct dup; apply wp_ret; split_and!; try done.
    all: first [by apply node_wf_replay|by eexists].
  - apply wp_ret. split_and!; try done. exists (replay n). by destruct n.
Qed.

Lemma delivery_authentic_keys n n' msg f :
  isMaster n' = isMaster n → deviceMacAddress n' = deviceMacAddress n →
  currentMaster n' = currentMaster n → enrollment n' = enrollment n →
  same_keys (peers n) (peers n') →
  delivery_authentic n' msg f → delivery_authentic n msg f.
Proof.
  intros H1 H2 H3 H4 HK [(Ht & HA & Hd)|(Ht & Hm & HA)].
  - left. rewrite H1, H2, H3, H4 in HA. rewrite H1, H2 in Hd.
    split_and!; [done|by eapply authentic_same_keys|done].
  - right. rewrite H1 in Hm. split_and!; try done.
    destruct HA as ((up & down & Hk & Ho) & Hop & Hl & Hv).
    rewrite H4, (keys_of_same _ _ _ _ HK) in Hk. split_and!; [by exists up, down|done|done|].
    destruct Hv as (m & Hm' & Ha). exists m. split; [|done]. rewrite <- Hm'. unfold chain_mac.
    apply chain_from_ext. intros h. unfold up_key. by rewrite H4, (keys_of_same _ _ _ _ HK).
Qed.

Lemma receive_gate_effect src msg n w :
  node_wf n →
  wp (receive_gate src msg n) w
    (λ r w', delivered (w_trace w') = delivered (w_trace w) ∧
             match r with
             | Some n1 => node_wf n1 ∧
                 ∃ cache ps, n1 = upd_peers ps (upd_replay cache n) ∧ same_keys (peers n) ps
             | None => True
             end) (λ _, True).
Proof.
  intros W. unfold receive_gate. destruct (negb _); [by apply wp_ret|].
  apply wp_bind. eapply wp_mono; [by apply replay_gate_effect| |done].
  cbn beta. intros [n1|] w1 (Hd1 & _ & Hn1); [|by apply wp_ret].
  destruct Hn1 as (W1 & cache & ->). apply wp_bind.
  eapply wp_mono; [apply updateLastSeen_effect, W1| |done].
  cbn beta. intros ps w2 (Wp & HK & Hd2 & _). apply wp_ret. rewrite Hd2. split; [done|]. split.
  - apply node_wf_peers; [done..|by apply same_keys_keeps].
  - by exists cache, ps.
Qed.

Lemma handle_effect `{!CryptoLawful C} src msg n w :
  node_wf n → wf_message msg →
  wp (handleReceivedMessage src msg n) w (λ n' w', receive_ok n msg w n' w') (λ _, True).
Proof.
  intros W Hm. unfold handleReceivedMessage. apply wp_bind.
  eapply wp_mono; [by apply receive_gate_effect| |done].
  cbn beta. intros [n1|] w1 [Hd1 Hn1]; [|apply wp_ret; by apply receive_ok_quiet].
  destruct Hn1 as (W1 & cache & ps & -> & HK).
  eapply wp_mono; [by apply dispatch_effect| |done].
  cbn beta. intros n' w' (W' & Hcase). split; [done|]. rewrite Hd1 in Hcase.
  destruct Hcase as [Hd|(f & Hd & HA)]; [by left|right]. exists f. split; [done|].
  by eapply delivery_authentic_keys in HA.
Qed.

(** C1. Receiving any frame whatsoever, from anyone, keeps the node's invariant
    (registry, key cache agreeing with it, replay cache, neighbor and route
    tables, sequence state) and delivers at most one frame to the application,
    and only an authentic one: at a master, a frame or route report that opens
    under its origin's key; at a leaf, a frame for it that opens under its
    current master's key, or a broadcast without configuration opcode. *)
Theorem receive_safe `{!CryptoLawful C} src msg n w n' w' :
  node_wf n → wf_message msg → handleReceivedMessage src msg n w = Ok n' w' →
  node_wf n' ∧
  (delivered (w_trace w') = delivered (w_trace w) ∨
   ∃ f, delivered (w_trace w') = f :: delivered (w_trace w) ∧ delivery_authentic n msg f).
Proof.
  intros W Hm.
  apply (wp_Ok _ _ (λ n' w', receive_ok n msg w n' w') (λ _, True)). by apply handle_effect.
Qed.

(** A frame of another protocol version, and a frame not newer than the last
    accepted one of its origin, changes nothing: no state, no transmission, no
    delivery. *)
Theorem stale_frame_dropped src msg n w :
  node_wf n →
  (proto_version msg ≠ PROTO_VERSION ∨
   (0 < epoch_num msg ∧ ∃ hw, high_water (replay n) (origin_mac_address msg) = Some hw ∧
                              newer (msg_tuple msg) hw = false)) →
  ∃ w', handleReceivedMessage src msg n w = Ok n w' ∧
    (w' = w ∨ ∃ us, w_trace w' = EvTimer us :: w_trace w).
Proof.
  intros W Hm. unfold handleReceivedMessage, receive_gate.
  destruct (Z.eqb_spec (proto_version msg) PROTO_VERSION) as [Hp|Hp]; cbn [negb];
    [|exists w; split; [done|by left]].
  destruct Hm as [Hm|(He & hw & Hh & Hn)]; [done|].
  unfold replay_gate. rewrite Hp, Z.eqb_refl. apply Z.ltb_lt in He. rewrite He. cbn [andb].
  unfold wbind at 1 2 3. destruct (now_ms_run w) as (us & ->).
  rewrite isReplay_unfold by apply W. rewrite Hh, Hn. unfold wret.
  eexists. split; [done|]. right. by exists us.
Qed.

(** ** An echo of a node's own uplink frame restarts it

    The uplink relay paths do not check for the node's own origin, so its own
    frame, heard back once, is taken for a self-originated one: the rollback
    guard sees the already used nonce and resets the device. *)
Lemma own_echo_restarts msg n w :
  isMaster n = false → origin_mac_address msg = deviceMacAddress n →
  message_type msg = MESH_TYPE_ADAPTER_DATA →
  hasMasterMac (enrollment n) = true → target_mac_address msg = m_mac (currentMaster n) →
  m_mac (currentMaster n) ≠ deviceMacAddress n → m_mac (currentMaster n) ≠ BROADCAST_MAC →
  hop_count msg < MAX_HOPS →
  lastSealedEpoch (txState n) ≠ UINT32_MAX →
  msg_tuple msg = (lastSealedEpoch (txState n), lastSealedSeq (txState n)) →
  ∃ w', processAdapterData msg n w = Halt w'.
Proof.
  intros Hm Ho Ht Hh Hta Hnd Hnb Hhop Hs Htup.
  unfold processAdapterData, deliverAdapterData. rewrite Hta, Hh, mac_eq_refl.
  rewrite (proj2 (mac_eq_false _ _) Hnd), (proj2 (mac_eq_false _ _) Hnb), Hm.
  unfold classify. cbn [orb andb]. destruct (Z.leb_spec MAX_HOPS (hop_count msg)); [lia|].
  match goal with |- context[transmitCore ?a ?b ?c ?d ?e ?f] =>
    enough (∃ w', transmitCore a b c d e f w = Halt w') as (w' & Er)
      by (exists w'; unfold wbind; by rewrite Er) end.
  unfold transmitCore, wbind at 1, wret at 1.
  change (origin_mac_address (relay_step _ msg)) with (origin_mac_address msg).
  rewrite Ho, mac_eq_refl, Z.eqb_refl. cbn [andb negb].
  change (message_type (set_target _ (relay_step _ msg))) with (message_type msg).
  unfold isSealedType. rewrite Ht, Z.eqb_refl. cbn [orb].
  unfold wbind at 1, seal_uplink, wbind at 1.
  change (epoch_num (set_target _ (relay_step _ msg))) with (msg_tuple msg).1.
  change (seq_num (set_target _ (relay_step _ msg))) with (msg_tuple msg).2.
  rewrite Htup. cbn [fst snd].
  assert (∃ w', checkEpochRollback (txState n) (lastSealedEpoch (txState n))
                  (lastSealedSeq (txState n)) w = Halt w') as (w' & Er).
  { unfold checkEpochRollback. rewrite (proj2 (Z.eqb_neq _ _) Hs), Z.ltb_irrefl, Z.eqb_refl,
      Z.ltb_irrefl. cbn [andb]. unfold wbind.
    destruct (fail_run E_CRYPTO M_MESH 1 w) as (w' & ->). by exists w'. }
  rewrite Er. by exists w'.
Qed.
End handle.

(** * Every operation preserves the invariant *)
Section operations.
Context {E : Env} {C : Crypto} {Pr : Protocol} {Pn : Pin}.

(** The invariant after a call, whatever the call does otherwise. *)
Definition preserves {A} (node : A → Node) (c : W A) : Prop :=
  ∀ w, wp c w (λ a _, node_wf (node a)) (λ _, True).

Lemma preserves_bind {A B} (c : W A) (k : A → W B) node Q w :
  wp c w (λ a _, Q a) (λ _, True) → (∀ a, Q a → preserves node (k a)) →
  wp (wbind c k) w (λ b _, node_wf (node b)) (λ _, True).
Proof.
  intros Hc Hk. apply wp_bind. eapply wp_mono; [exact Hc| |done].
  cbn beta. intros a w' HQ. by apply Hk.
Qed.

Lemma core_preserves ty p mt ov n : node_wf n → preserves id (transmitCore ty p mt ov false n).
Proof.
  intros W w. eapply wp_mono; [by apply transmitCore_effect| |done].
  by intros n' w' (_ & W' & _).
Qed.

Lemma broadcastAdapterData_preserves ty p b n :
  node_wf n → preserves id (broadcastAdapterData ty p b n).
Proof.
  intros W w. unfold broadcastAdapterData. apply wp_bind.
  eapply wp_mono; [by apply buildMessage_effect, nwf_tx| |done].
  cbn beta. intros [msg tx] w1 (Wtx & _). cbn [snd] in Wtx.
  do 2 (apply wp_any; intros [] ?). apply wp_ret. by apply node_wf_tx.
Qed.

Lemma transmitDispatch_preserves ty p b n : node_wf n → preserves id (transmitDispatch ty p b n).
Proof.
  intros W w. unfold transmitDispatch. destruct (isMaster n) eqn:Hm.
  - by apply broadcastAdapterData_preserves.
  - by apply core_preserves.
Qed.

Lemma sendDownlink_preserves dest ty p n :
  node_wf n → preserves id (sendDownlinkToNode dest ty p n).
Proof.
  intros W w. destruct (isMaster n) eqn:Hm.
  - eapply wp_mono; [by apply sendDownlink_effect| |done]. by intros n' w' (_ & W' & _).
  - unfold sendDownlinkToNode. rewrite Hm. by apply wp_ret.
Qed.

Lemma enrollPeer_preserves m s1 s2 n : node_wf n → preserves id (enrollPeer m s1 s2 n).
Proof.
  intros W w. destruct (peer_find (peers n) m) as [p|] eqn:Hp.
  - eapply wp_mono; [by eapply enrollPeer_effect| |done]. by intros n' w' (W' & _).
  - unfold enrollPeer. rewrite Hp. by apply wp_ret.
Qed.

Lemma node_wf_lastEnroll n t : node_wf n → node_wf (upd_lastEnrollmentBroadcastMs t n).
Proof. intros []. by split. Qed.
Lemma node_wf_lastReport n t : node_wf n → node_wf (upd_lastRouteReportMs t n).
Proof. intros []. by split. Qed.
Lemma node_wf_pending n p : node_wf n → node_wf (upd_pendingRelay p n).
Proof. intros []. by split. Qed.
Lemma node_wf_beacon n b : node_wf n → node_wf (upd_beacon b n).
Proof. intros []. by split. Qed.
Lemma node_wf_master_state n b cm s : node_wf n → node_wf (upd_master_state b cm s n).
Proof. intros []. by split. Qed.

Lemma tick_preserves t n : node_wf n → preserves snd (tickEnrollmentBroadcast t n).
Proof.
  intros W w. unfold tickEnrollmentBroadcast. destruct (_ || _); [by apply wp_ret|].
  destruct (_ <? _); [|by apply wp_ret]. unfold sendEnrollmentRequest. apply wp_bind, wp_bind.
  eapply wp_mono; [by apply nextSeq_effect, nwf_tx, node_wf_lastEnroll| |done].
  cbn beta. intros [seq tx] w1 (Wtx & _). cbn [snd] in Wtx.
  apply wp_any. intros [] w2. do 2 apply wp_ret.
  apply node_wf_tx; [by apply node_wf_lastEnroll|done].
Qed.

Lemma timeout_preserves n : node_wf n → preserves id (checkMasterTimeout n).
Proof.
  intros W w. unfold checkMasterTimeout. apply wp_any. intros [[b cm] seen] w1. apply wp_ret.
  by apply node_wf_master_state.
Qed.

Lemma sendRouteReport_preserves n : node_wf n → preserves snd (sendRouteReport n).
Proof.
  intros W w. unfold sendRouteReport. destruct (isMaster n) eqn:Hm; [by apply wp_ret|].
  apply wp_any. intros now w1. apply wp_any. intros [hop fp] w2.
  destruct hop as [h|]; [|apply wp_ret; by apply node_wf_fp].
  change (isMaster (upd_forwardingPeer fp n)) with (isMaster n). rewrite Hm. apply wp_bind.
  eapply wp_mono; [by apply core_preserves, node_wf_fp| |done]. intros n' w' W'. by apply wp_ret.
Qed.

Lemma loop_route_report_preserves n : node_wf n → preserves id (loop_route_report n).
Proof.
  intros W w. unfold loop_route_report. apply wp_any. intros now w1.
  destruct (_ && _); [|by apply wp_ret]. apply wp_bind.
  eapply wp_mono; [by apply sendRouteReport_preserves| |done].
  intros [[] n1] w2 W1; apply wp_ret; [by apply node_wf_lastReport|done].
Qed.

Lemma loop_relay_beacon_preserves n : node_wf n → preserves id (loop_relay_beacon n).
Proof.
  intros W w. unfold loop_relay_beacon. destruct (relayPending _); [|by apply wp_ret].
  apply wp_any. intros now w1. destruct (_ <=? _); [|by apply wp_ret].
  apply wp_any. intros ok w2. apply wp_ret. by apply node_wf_pending.
Qed.

Lemma broadcastMasterBeacon_preserves n : node_wf n → preserves id (broadcastMasterBeacon n).
Proof.
  intros W w. unfold broadcastMasterBeacon. apply wp_any. intros [[] b] w1; cbn [negb];
    [|apply wp_ret; by apply node_wf_beacon].
  apply wp_bind. eapply wp_mono; [by apply buildMessage_effect, nwf_tx, node_wf_beacon| |done].
  cbn beta. intros [msg tx] w2 (Wtx & _). cbn [snd] in Wtx. apply wp_any. intros [] w3.
  apply wp_ret. apply node_wf_tx; [by apply node_wf_beacon|done].
Qed.

Lemma drainPendingRelay_private fn en w :
  wp (drainPendingRelay fn en) w (λ en' _, devicePrivateKey en' = devicePrivateKey en) (λ _, True).
Proof. unfold drainPendingRelay. apply wp_any. intros q w1. by apply wp_ret. Qed.

Lemma mesh_loop_preserves relayFn n : node_wf n → preserves id (mesh_loop relayFn n).
Proof.
  intros W w. unfold mesh_loop. apply wp_bind.
  eapply wp_mono; [apply drainPendingRelay_private| |done]. intros en w1 Hk.
  apply wp_bind. eapply wp_mono; [by apply loop_route_report_preserves, node_wf_enrollment| |done].
  intros n1 w2 W1. apply wp_bind. eapply wp_mono; [by apply loop_relay_beacon_preserves| |done].
  intros n2 w3 W2. destruct (isMaster n2); [by apply broadcastMasterBeacon_preserves|by apply wp_ret].
Qed.

(** Switching the role resizes the key cache and creates or frees the routes. *)
Lemma allocate_routes_spec n :
  (∀ t, routes n = Some t → routes_wf t) →
  let n1 := allocate_routes n in
  isMaster n1 = bool_decide (is_Some (routes n1)) ∧ (∀ t, routes n1 = Some t → routes_wf t) ∧
  ∃ r, n1 = upd_routes r n.
Proof.
  intros HR. unfold allocate_routes. destruct (routes n) as [t|] eqn:Hr, (isMaster n) eqn:Hm; cbn.
  - rewrite Hr, Hm. split_and!; [done|by rewrite <- Hr in *; auto|].
    exists (routes n). by destruct n.
  - rewrite Hm. split_and!; [done..|by eexists].
  - rewrite Hm. split_and!; [done|intros t' [= <-]; apply routes_clear_wf|by eexists].
  - rewrite Hr, Hm. split_and!; [done..|]. exists (routes n). by destruct n.
Qed.

Lemma setCapacity_wf own ps ks k :
  fresh_cache own ps ks → (0 < k)%nat →
  fresh_cache own ps (setCapacity ks k) ∧ (0 < capacity_ (setCapacity ks k))%nat.
Proof.
  intros F Hk. split; [by apply setCapacity_fresh|]. unfold setCapacity.
  destruct (Nat.eqb_spec k (capacity_ ks)); [lia|].
  unfold capacity_, keystore_of_capacity. cbn. by rewrite length_replicate.
Qed.

Lemma setIsMaster_wf v n : node_wf n → node_wf (setIsMaster v n).
Proof.
  intros W. unfold setIsMaster, reevaluateRouteTable.
  destruct (allocate_routes_spec (upd_isMaster v n) (nwf_routes n W)) as (Hr & Ht & r & Hn).
  rewrite Hn in *. set (k := if isMaster _ then _ else _).
  destruct (setCapacity_wf (devicePrivateKey (enrollment n)) (peers n) (e2eKeys n) k) as [H1 H2];
    [apply W|subst k; destruct (isMaster _); vm_compute; lia|].
  destruct W. by split.
Qed.

Lemma addAndPersist_effect r m w :
  registry_wf r →
  wp (addAndPersist r m) w (λ r' _, registry_wf r' ∧ keeps_keys r r') (λ _, True).
Proof.
  intros W. unfold addAndPersist. destruct (_ || _) eqn:Hb; [by apply wp_ret|].
  destruct (Nat.leb_spec MAX_PEERS (count r)) as [Hc|Hc].
  { apply wp_any. intros b w1. by apply wp_ret. }
  apply orb_false_iff in Hb as [Hb _]. apply bool_decide_eq_false in Hb.
  assert (peer_index r m = None) as Hi by (by apply eq_None_not_Some).
  apply wp_any. intros now w1. apply wp_any. intros [] w2. apply wp_ret.
  split; [by apply append_wf|]. intros m' k (q & Hq & Hk & Hz). exists q.
  rewrite peer_find_append by done. cbn.
  destruct (mac_eq m' m) eqn:Em; [|done]. mac_cases. subst. apply peer_find_None in Hi. congruence.
Qed.

Lemma mesh_addPeer_preserves m n : node_wf n → preserves id (mesh_addPeer m n).
Proof.
  intros W w. unfold mesh_addPeer, addPeer. apply wp_bind, wp_bind.
  eapply wp_mono; [by apply addAndPersist_effect, nwf_peers| |done].
  cbn beta. intros ps w1 [Wp K].
  assert (∀ w2, wp (wret ps) w2 (λ a w', wp (wret (upd_peers a n)) w' (λ n' _, node_wf (id n'))
            (λ _, True)) (λ _, True)) as Hret.
  { intros w2. do 2 apply wp_ret. by apply node_wf_peers. }
  destruct (_ <? _)%nat; [|apply Hret]. destruct (_ !! _); [|apply Hret].
  apply wp_any. intros [] w2. apply Hret.
Qed.
End operations.

(** * Runs of the node

    One step is one call from the firmware's tasks: a received frame, the
    periodic work, a transmission for the adapter or the server, an enrollment
    decision, a role switch. *)
Section runs.
Context {E : Env} {C : Crypto} {Pr : Protocol} {Pn : Pin}.

(** What a node does on its own account. *)
Inductive mesh_work : Node * world → Node * world → Prop :=
  | work_loop relayFn n w n' w' : mesh_loop relayFn n w = Ok n' w' → mesh_work (n, w) (n', w')
  | work_transmit ty p self n w n' w' :
      transmitDispatch ty p self n w = Ok n' w' → mesh_work (n, w) (n', w')
  | work_downlink dest ty p n w n' w' :
      sendDownlinkToNode dest ty p n w = Ok n' w' → mesh_work (n, w) (n', w')
  | work_enroll m s1 s2 n w n' w' :
      enrollPeer m s1 s2 n w = Ok n' w' → mesh_work (n, w) (n', w')
  | work_tick t n w b n' w' :
      tickEnrollmentBroadcast t n w = Ok (b, n') w' → mesh_work (n, w) (n', w')
  | work_timeout n w n' w' : checkMasterTimeout n w = Ok n' w' → mesh_work (n, w) (n', w')
  | work_add m n w n' w' : mesh_addPeer m n w = Ok n' w' → mesh_work (n, w) (n', w')
  | work_role v n w : mesh_work (n, w) (setIsMaster v n, w).

Inductive mesh_step : Node * world → Node * world → Prop :=
  | step_receive src msg n w n' w' :
      wf_message msg → handleReceivedMessage src msg n w = Ok n' w' → mesh_step (n, w) (n', w')
  | step_work s s' : mesh_work s s' → mesh_step s s'.

Lemma mesh_work_wf s s' : mesh_work s s' → node_wf s.1 → node_wf s'.1.
Proof.
  intros Hs. destruct Hs; cbn [fst]; intros W;
    try match goal with H : _ = Ok _ _ |- _ => rename H into Hrun end.
  - exact (wp_Ok _ _ _ _ _ _ (mesh_loop_preserves relayFn n W w) Hrun).
  - exact (wp_Ok _ _ _ _ _ _ (transmitDispatch_preserves ty p self n W w) Hrun).
  - exact (wp_Ok _ _ _ _ _ _ (sendDownlink_preserves dest ty p n W w) Hrun).
  - exact (wp_Ok _ _ _ _ _ _ (enrollPeer_preserves m s1 s2 n W w) Hrun).
  - exact (wp_Ok _ _ _ _ _ _ (tick_preserves t n W w) Hrun).
  - exact (wp_Ok _ _ _ _ _ _ (timeout_preserves n W w) Hrun).
  - exact (wp_Ok _ _ _ _ _ _ (mesh_addPeer_preserves m n W w) Hrun).
  - by apply setIsMaster_wf.
Qed.

Lemma mesh_step_wf `{!CryptoLawful C} s s' : mesh_step s s' → node_wf s.1 → node_wf s'.1.
Proof.
  intros [src msg n w n' w' Hm Hrun|? ? Hw]; cbn [fst]; [|by apply mesh_work_wf].
  intros W. by apply (wp_Ok _ _ _ _ _ _ (handle_effect src msg n w W Hm) Hrun).
Qed.

(** C7. The node invariant holds in every state reachable from a well-formed one
    by any interleaving of received frames, periodic work, transmissions,
    enrollments, timeouts and role switches; in particular a fresh node's. *)
Theorem reachable_wf `{!CryptoLawful C} n w n' w' :
  node_wf n → rtc mesh_step (n, w) (n', w') → node_wf n'.
Proof.
  intros W Hr. remember (n, w) as s eqn:Es. remember (n', w') as s' eqn:Es'.
  assert (node_wf s.1) as Ws by (by subst). clear W Es.
  assert (node_wf s'.1) as Ws'; [|by subst].
  clear Es' n' w'. induction Hr as [s|s1 s2 s3 Hs _ IH]; [done|]. apply IH.
  by eapply mesh_step_wf.
Qed.
End runs.

(** * Witnesses *)
#[local] Existing Instance documented_protocol.

Definition demo_listening_leaf : Node := upd_externalRecvCallback true demo_leaf_node.

Lemma node_wf_callback `{Crypto} n b : node_wf n → node_wf (upd_externalRecvCallback b n).
Proof. intros []. by split. Qed.

Lemma receive_safe_witness :
  ∃ n' w' f, handleReceivedMessage (E := ref_env) (C := toy_crypto) (Pn := demo_pin) (demo_mac 5)
      (relay_step (demo_mac 5) demo_sealed) demo_listening_leaf ref_world = Ok n' w' ∧
    delivered (w_trace w') = [f] ∧ data f = data demo_cmd ∧ node_wf (C := toy_crypto) n'.
Proof.
  eexists _, _, _. split; [vm_compute; reflexivity|]. split; [vm_compute; reflexivity|].
  split; [vm_compute; reflexivity|].
  eapply (@receive_safe ref_env toy_crypto documented_protocol demo_pin toy_lawful (demo_mac 5)
            (relay_step (demo_mac 5) demo_sealed) demo_listening_leaf ref_world);
    [apply node_wf_callback, demo_leaf_node_wf|apply wf_messageb_spec; vm_compute; reflexivity
    |vm_compute; reflexivity].
Defined.

Lemma stale_frame_dropped_witness :
  ∃ w', handleReceivedMessage (E := ref_env) (C := toy_crypto) (Pn := demo_pin) (demo_mac 5)
      (set_hop_count 1 mesh_message_zero) demo_leaf_node ref_world = Ok demo_leaf_node w' ∧
    (w' = ref_world ∨ ∃ us, w_trace w' = EvTimer us :: w_trace ref_world).
Proof.
  apply (@stale_frame_dropped ref_env toy_crypto documented_protocol demo_pin (demo_mac 5)
           (set_hop_count 1 mesh_message_zero) demo_leaf_node ref_world demo_leaf_node_wf).
  left. discriminate.
Defined.

Lemma reachable_wf_witness :
  ∃ n1 w1, rtc (mesh_step (E := ref_env) (C := toy_crypto) (Pn := demo_pin))
      (demo_leaf_node, ref_world) (setIsMaster true n1, w1) ∧
    sent_frames (w_trace w1) ≠ [] ∧ node_wf (C := toy_crypto) (setIsMaster true n1).
Proof.
  eexists _, _. split; [|split].
  - eapply rtc_l; [eapply step_work, (work_transmit PIR_ADAPTER None true); vm_compute; reflexivity|].
    apply rtc_once, step_work, work_role.
  - vm_compute. discriminate.
  - eapply (@reachable_wf ref_env toy_crypto documented_protocol demo_pin toy_lawful
              demo_leaf_node ref_world); [exact demo_leaf_node_wf|].
    eapply rtc_l; [eapply step_work, (work_transmit PIR_ADAPTER None true); vm_compute; reflexivity|].
    apply rtc_once, step_work, work_role.
Defined.
