(* ===== verification/Flood.v ===== *)
(** What a node puts on the air in answer to one received frame: copies of that
    frame, one hop further, and at most [MAX_PEERS] of them.  ([Network] builds on
    this to bound what a whole mesh does with one frame.) *)
From S2P Require Import Prelude Config MacTable SlotTable NeighborTable Wire Platform ErrorCore.
From S2P Require Import Eeprom ReplayCache RouteTable PeerRegistry Transport Crypto Enrollment.
From S2P Require Import KeyStore Routers Beacon Authorizer Node Messenger RouteReport Mesh.

(** What identifies a frame on its way through the mesh. *)
Definition frame_id (f : mesh_message) : Z * mac * Z * Z :=
  (message_type f, origin_mac_address f, epoch_num f, seq_num f).

(** [g] is [f] as a relay sends it on. *)
Definition relay_copy (f g : mesh_message) : Prop :=
  frame_id g = frame_id f ∧ hop_count g = hop_count f + 1 ∧ hop_count f < MAX_HOPS.

(** Every frame sent satisfies [F]; flash is not wiped. *)
Definition only_sends (F : mesh_message → Prop) (e : event) : Prop :=
  match e with EvSend _ g _ => F g | EvNvsEraseAll _ | EvFlashErase _ => False | _ => True end.

Lemma quiet_only F e : quiet_event e → only_sends F e.
Proof. by destruct e. Qed.
Lemma no_send_only F e : no_send e → only_sends F e.
Proof. by destruct e. Qed.
Lemma error_only F e : is_error_event e → only_sends F e.
Proof. by destruct e. Qed.
Lemma emits_quiet_only F {A} (c : W A) : emits quiet_event c → emits (only_sends F) c.
Proof. intros H. eapply emits_weaken; [exact H|apply quiet_only]. Qed.
Lemma emits_no_send F {A} (c : W A) : emits no_send c → emits (only_sends F) c.
Proof. intros H. eapply emits_weaken; [exact H|apply no_send_only]. Qed.
Lemma quiet_no_send {A} (c : W A) : emits quiet_event c → emits no_send c.
Proof. intros H. eapply emits_weaken; [exact H|]. by intros []. Qed.

(** * Counting transmissions *)
Definition nsent (w : world) : nat := length (sent_frames (w_trace w)).

Definition sends_at_most (k : nat) {A} (c : W A) : Prop :=
  ∀ w, wp c w (λ _ w', (nsent w' <= nsent w + k)%nat) (λ w', (nsent w' <= nsent w + k)%nat).

Section counting.
Lemma at_most_weaken k k' {A} (c : W A) : (k <= k')%nat → sends_at_most k c → sends_at_most k' c.
Proof. intros Hk Hc w. eapply wp_mono; [apply Hc|..]; cbn; intros; lia. Qed.

Lemma at_most_ret k {A} (a : A) : sends_at_most k (wret a).
Proof. intros w. apply wp_ret. lia. Qed.

Lemma at_most_bind k1 k2 {A B} (c : W A) (f : A → W B) :
  sends_at_most k1 c → (∀ a, sends_at_most k2 (f a)) → sends_at_most (k1 + k2) (wbind c f).
Proof.
  intros Hc Hf w. apply wp_bind. eapply wp_mono; [apply Hc|..]; cbn beta.
  - intros a w1 H1. eapply wp_mono; [apply Hf|..]; cbn beta; intros; lia.
  - intros; lia.
Qed.

Lemma nsent_no_send w w' : appended no_send w w' → nsent w' = nsent w.
Proof.
  intros (evs & E1 & HF). unfold nsent. rewrite E1. clear E1.
  induction HF as [|e evs He _ IH]; [done|]. by destruct e.
Qed.

Lemma at_most_none {A} (c : W A) : emits no_send c → sends_at_most 0 c.
Proof.
  intros Hc w. eapply wp_mono; [apply Hc|..]; cbn beta; intros;
    rewrite (nsent_no_send w) by done; lia.
Qed.

(** A first call that sends nothing, a continuation that may. *)
Lemma at_most_after k {A B} (c : W A) (f : A → W B) :
  emits no_send c → (∀ a, sends_at_most k (f a)) → sends_at_most k (wbind c f).
Proof. intros Hc Hf. apply (at_most_bind 0 k); [by apply at_most_none|done]. Qed.

(** A call followed by one that sends nothing. *)
Lemma at_most_then k {A B} (c : W A) (f : A → W B) :
  sends_at_most k c → (∀ a, emits no_send (f a)) → sends_at_most k (wbind c f).
Proof.
  intros Hc Hf. apply (at_most_weaken (k + 0)); [lia|]. apply at_most_bind; [done|].
  intros a. by apply at_most_none.
Qed.

Lemma at_most_wfor {A} (f : A → W unit) l :
  (∀ x, x ∈ l → sends_at_most 1 (f x)) → sends_at_most (length l) (wfor f l).
Proof.
  intros Hf. unfold wfor. induction l as [|x l IH]; cbn [wfold length]; [apply at_most_ret|].
  apply (at_most_bind 1 (length l)); [apply Hf; by left|]. intros []. apply IH.
  intros y Hy. apply Hf. by right.
Qed.
End counting.

(** * What the handlers send *)
Section handlers.
Context {E : Env} {C : Crypto} {Pr : Protocol} {Pn : Pin}.

Lemma seal_uplink_quiet msg n : emits quiet_event (seal_uplink msg n).
Proof.
  pose proof masterE2EKeys_quiet. pose proof (fail_emits quiet_event quiet_error).
  unfold seal_uplink, checkEpochRollback. solve_emits.
Qed.

Lemma sealPayload_id k m s :
  sealPayload k m = Some s → frame_id s = frame_id m ∧ hop_count s = hop_count m.
Proof. unfold sealPayload. destruct (mb_seal _ _ _ _) as [[c t]|]; [|done]. by intros [= <-]. Qed.

(** [g] is [f] to a relay: the same frame at the same distance. *)
Definition same_frame (f g : mesh_message) : Prop := frame_id g = frame_id f ∧ hop_count g = hop_count f.

Lemma seal_uplink_same msg n w :
  wp (seal_uplink msg n) w (λ r _, ∀ g, r.1 = Some g → same_frame msg g) (λ _, True).
Proof.
  unfold seal_uplink. apply wp_any. intros tx w1. apply wp_any. intros [[[up down]|] ks] w2;
    [|by apply wp_ret].
  destruct (sealPayload up msg) as [s|] eqn:Es; [|by apply wp_ret].
  apply sealPayload_id in Es. destruct (_ =? _); apply wp_ret; by intros g [= <-].
Qed.

Lemma route_uplink_sends msg n : emits (only_sends (λ g, g = msg)) (route_uplink msg n).
Proof.
  pose proof (λ a b c d e f, emits_quiet_only (λ g, g = msg) _ (findNextHop_quiet a b c d e f)).
  assert (∀ t d, emits (only_sends (λ g, g = msg)) (sendMessage t msg d))
    by (intros; by apply sendMessage_emits; [apply error_only|]).
  unfold route_uplink, now_ms, esp_timer_get_time. solve_emits.
Qed.

(** A frame relayed toward the master stays the frame it is. *)
Lemma transmitCore_relays ty p mt f b n :
  emits (only_sends (same_frame f)) (transmitCore ty p mt (Some f) b n).
Proof.
  unfold transmitCore. apply emits_bind_spec with (Q := λ r, r = (f, n)); [apply emits_ret|done|].
  intros ? ->. cbv beta iota zeta.
  match goal with |- context [if ?b then set_target ?m f else f] =>
    set (msg := if b then set_target m f else f) end.
  assert (same_frame f msg) as Hm by (subst msg; by destruct (_ && _)).
  clearbody msg.
  apply emits_bind_spec with (Q := λ r, ∀ g, r.1 = Some g → same_frame f g).
  - destruct (negb _ && _ && _); [apply emits_quiet_only, seal_uplink_quiet|apply emits_ret].
  - intros w. destruct (negb _ && _ && _); [|apply wp_ret; by intros g [= <-]].
    eapply wp_mono; [apply seal_uplink_same| |done]. intros [[s|] n1] _ Hs g Hg; [|done].
    unfold same_frame. destruct (Hs g Hg) as [-> ->]. exact Hm.
  - intros [[out|] n1] Hout; [|apply emits_ret]. eapply emits_weaken; [apply route_uplink_sends|].
    intros []; try done. cbn. intros ->. destruct (Hout out eq_refl). by split.
Qed.

Lemma relay_step_copy dev f :
  0 <= hop_count f → hop_count f < MAX_HOPS → relay_copy f (relay_step dev f).
Proof.
  intros H0 H8. split_and!; [done| |done]. cbn. unfold u8. apply Z.mod_small.
  assert (MAX_HOPS < 2 ^ 8) by done. lia.
Qed.

Lemma same_relay f g h : relay_copy f g → same_frame g h → relay_copy f h.
Proof. intros (H1 & H2 & H3) [G1 G2]. split_and!; congruence. Qed.

Lemma relay_uplink ty p mt f g b n :
  relay_copy f g → emits (only_sends (relay_copy f)) (transmitCore ty p mt (Some g) b n).
Proof.
  intros Hg. eapply emits_weaken; [apply transmitCore_relays|]. intros []; try done. cbn.
  by apply same_relay.
Qed.

Lemma relayDownlink_relays f ps dev :
  0 <= hop_count f → emits (only_sends (relay_copy f)) (relayDownlink f ps dev).
Proof.
  intros H0. unfold relayDownlink. destruct (Z.leb_spec MAX_HOPS (hop_count f)); [apply emits_ret|].
  pose proof (relay_step_copy dev f H0 ltac:(done)) as HC.
  assert (∀ t, emits (only_sends (relay_copy f)) (sendMessage t (relay_step dev f) dev))
    by (intros; by apply sendMessage_emits; [apply error_only|]).
  solve_emits.
Qed.

Lemma authorize_quiet msg b self cm ps en ks : emits quiet_event (authorize msg b self cm ps en ks).
Proof.
  pose proof masterE2EKeys_quiet. pose proof peerE2EKeys_quiet. unfold authorize. solve_emits.
Qed.

Lemma deliver_no_send msg n : emits no_send (deliver msg n).
Proof. unfold deliver. solve_emits. Qed.

Lemma registerDownlink_no_send l m ps cm : emits no_send (registerDownlinkPeer l m ps cm).
Proof. apply quiet_no_send, registerDownlinkPeer_quiet. Qed.

(** A frame that is routed onward is below the hop limit. *)
Lemma forward_below msg dev master self all toMaster hop :
  classify msg dev master self all toMaster = ForwardOnRoute hop → hop_count msg < MAX_HOPS.
Proof.
  unfold classify. destruct (_ || _); [done|]. destruct toMaster; [by destruct (_ <=? _)|].
  destruct (_ && _); [|done]. destruct (route_scan _ _ _ _) as [d|] eqn:Hs; [|done]. intros ->.
  apply route_scan_Some in Hs as (k & _ & _ & _ & Hd). by destruct (Z.leb_spec MAX_HOPS (hop_count msg)).
Qed.

Lemma uplink_below msg dev master self all toMaster :
  classify msg dev master self all toMaster = RelayTowardMaster → hop_count msg < MAX_HOPS.
Proof.
  unfold classify. destruct (_ || _); [done|]. destruct toMaster.
  - by destruct (Z.leb_spec MAX_HOPS (hop_count msg)).
  - destruct (_ && _); [|done]. destruct (route_scan _ _ _ _) as [d|] eqn:Hs; [|done]. intros ->.
    apply route_scan_Some in Hs as (k & _ & _ & _ & Hd). by destruct (_ <=? _).
Qed.

Lemma deliverAdapterData_relays msg n :
  0 <= hop_count msg → emits (only_sends (relay_copy msg)) (deliverAdapterData msg n).
Proof.
  intros H0. unfold deliverAdapterData. destruct (classify _ _ _ _ _ _) as [| |hop| |] eqn:Hc.
  - pose proof (λ b s cm ps en ks, emits_quiet_only (relay_copy msg) _ (authorize_quiet msg b s cm ps en ks)).
    pose proof (λ m n, emits_no_send (relay_copy msg) _ (deliver_no_send m n)). solve_emits.
  - apply uplink_below in Hc. pose proof (relay_step_copy (deviceMacAddress n) msg H0 Hc).
    pose proof (λ ty p mt b n, relay_uplink ty p mt msg _ b n H). solve_emits.
  - apply forward_below in Hc. pose proof (relay_step_copy ZERO_MAC msg H0 Hc) as Hr.
    pose proof (λ l m ps cm, emits_no_send (relay_copy msg) _ (registerDownlink_no_send l m ps cm)).
    assert (∀ t d, emits (only_sends (relay_copy msg)) (sendMessage t (bump_hop msg) d))
      by (intros; by apply sendMessage_emits; [apply error_only|]).
    solve_emits.
  - pose proof (λ ps d, relayDownlink_relays msg ps d H0). solve_emits.
  - apply emits_ret.
Qed.

Lemma processAdapterData_relays msg n :
  0 <= hop_count msg → emits (only_sends (relay_copy msg)) (processAdapterData msg n).
Proof.
  intros H0. pose proof (λ n, deliverAdapterData_relays msg n H0).
  pose proof (λ ps d, relayDownlink_relays msg ps d H0).
  unfold processAdapterData, relayBroadcast. solve_emits.
Qed.

Lemma joinAck_no_send e msg ps :
  emits no_send (processJoinAck e msg (Some registerPeerWithKeyTrampoline) ps).
Proof.
  pose proof (λ a b c d, quiet_no_send _ (registerPeerWithKey_quiet a b c d)).
  pose proof no_send_nvs as HN.
  unfold processJoinAck, join_ack_secondary, registerPeerWithKeyTrampoline, learnMasterMac,
    learnSecondaryMasterMac, saveEnrolledFlag, saveKnownMasterMac, saveKnownMasterMacSecondary.
  solve_emits.
Qed.

Lemma joinAck_relays msg n :
  0 <= hop_count msg → emits (only_sends (relay_copy msg)) (processJoinAck_mesh msg n).
Proof.
  intros H0. pose proof (λ e m ps, emits_no_send (relay_copy msg) _ (joinAck_no_send e m ps)).
  unfold processJoinAck_mesh, dispatchJoinAck.
  destruct (negb (mac_eq _ _)); [|solve_emits].
  destruct (mac_eq _ _); [solve_emits|]. destruct (Z.leb_spec MAX_HOPS (hop_count msg)) as [|H8]; [solve_emits|].
  pose proof (relay_step_copy (deviceMacAddress n) msg H0 H8).
  assert (emits (only_sends (relay_copy msg)) (sendBroadcast (relay_step (deviceMacAddress n) msg)))
    by (by apply sendBroadcast_emits). solve_emits.
Qed.

Lemma enrollment_relays msg n :
  0 <= hop_count msg → emits (only_sends (relay_copy msg)) (receive_enrollment msg n).
Proof.
  intros H0. unfold receive_enrollment. destruct (isMaster n).
  - pose proof (λ a b c d, emits_quiet_only (relay_copy msg) _ (registerPeerWithKey_quiet a b c d)).
    solve_emits.
  - unfold relayEnrollmentUplink. destruct (mac_eq _ _); [apply emits_ret|].
    destruct (Z.leb_spec MAX_HOPS (hop_count msg)) as [|H8]; [apply emits_ret|].
    pose proof (λ a b c d e f, emits_quiet_only (relay_copy msg) _ (findNextHop_quiet a b c d e f)).
    pose proof (λ dev ty p mt b n, relay_uplink ty p mt msg _ b n (relay_step_copy dev msg H0 H8)).
    unfold now_ms, esp_timer_get_time. solve_emits.
Qed.

Lemma beacon_no_send msg dev b dual c : emits no_send (beacon_process msg dev b dual c).
Proof.
  pose proof no_send_nvs as HN. pose proof (fail_emits no_send no_send_error).
  unfold beacon_process, beacon_tofu, beacon_relay, learnMasterMac, learnSecondaryMasterMac,
    saveKnownMasterMac, saveKnownMasterMacSecondary, now_ms, esp_timer_get_time, esp_random.
  solve_emits.
Qed.

Lemma verify_hops_no_send msg i k mac prev n : emits no_send (verify_hops msg i k mac prev n).
Proof.
  revert i mac prev n. induction k as [|k IH]; intros; cbn [verify_hops]; [apply emits_ret|].
  pose proof (λ m ps en ks, quiet_no_send _ (peerE2EKeys_quiet m ps en ks)). solve_emits.
Qed.

Lemma master_report_no_send msg n : emits no_send (master_route_report msg n).
Proof.
  pose proof (λ m ps en ks, quiet_no_send _ (peerE2EKeys_quiet m ps en ks)).
  pose proof verify_hops_no_send. pose proof deliver_no_send.
  unfold master_route_report, record_route, now_ms, esp_timer_get_time. solve_emits.
Qed.

Lemma append_hop_copy dev msg :
  0 <= hop_count msg → hop_count msg < MAX_HOPS → relay_copy msg (append_hop dev msg).
Proof. exact (relay_step_copy dev msg). Qed.

Lemma report_relays msg n :
  0 <= hop_count msg → emits (only_sends (relay_copy msg)) (processRouteReport msg n).
Proof.
  intros H0. unfold processRouteReport. destruct (isMaster n).
  { apply emits_no_send, master_report_no_send. }
  unfold relay_route_report. destruct (Z.leb_spec MAX_HOPS (hop_count msg)) as [|H8]; [apply emits_ret|].
  destruct (_ <=? _); [apply emits_ret|].
  pose proof (λ cm ps en ks, emits_quiet_only (relay_copy msg) _ (masterE2EKeys_quiet cm ps en ks)).
  assert (∀ p, relay_copy msg (set_auth_path p (append_hop (deviceMacAddress n) msg))) as HR.
  { intros p. exact (append_hop_copy (deviceMacAddress n) msg H0 H8). }
  pose proof (λ p ty d mt b n, relay_uplink ty d mt msg _ b n (HR p)). solve_emits.
Qed.

Lemma receive_gate_no_send src msg n : emits no_send (receive_gate src msg n).
Proof.
  unfold receive_gate, replay_gate, updateLastSeen, now_ms, esp_timer_get_time. solve_emits.
Qed.

Lemma dispatch_relays msg n :
  0 <= hop_count msg → emits (only_sends (relay_copy msg)) (dispatch msg n).
Proof.
  intros H0. pose proof (enrollment_relays msg n H0). pose proof (joinAck_relays msg n H0).
  pose proof (processAdapterData_relays msg n H0). pose proof (report_relays msg n H0).
  pose proof (λ dev b dual c, emits_no_send (relay_copy msg) _ (beacon_no_send msg dev b dual c)).
  unfold dispatch. solve_emits.
Qed.

(** Everything a node sends while it handles a received frame - until it is done, or
    restarts - is that frame as a relay passes it on: same type, origin, epoch and
    sequence number, one hop further, and only below the hop limit.  A handler never
    originates a frame. *)
Theorem handle_relays src msg n :
  0 <= hop_count msg → emits (only_sends (relay_copy msg)) (handleReceivedMessage src msg n).
Proof.
  intros H0. pose proof (λ n, dispatch_relays msg n H0).
  pose proof (λ n, emits_no_send (relay_copy msg) _ (receive_gate_no_send src msg n)).
  unfold handleReceivedMessage. solve_emits.
Qed.

(** * How much the handlers send *)
(** One frame toward the master or onto the route, or one per peer. *)
Definition fanout (n : Node) : nat := Nat.max 1 (length (peerMacs (peers n))).

Lemma fanout_bound n : node_wf n → (fanout n <= MAX_PEERS)%nat.
Proof. intros W. unfold fanout. pose proof (rwf_bound _ (nwf_peers n W)). unfold count, MAX_PEERS in *. lia. Qed.

Lemma sendMessage_one t m d : sends_at_most 1 (sendMessage t m d).
Proof.
  intros w. destruct (sendMessage_sent t m d w) as (w' & E1 & Hs). eapply wp_run; [exact E1|].
  unfold nsent. rewrite Hs, length_app. destruct (mac_eq _ _); cbn; lia.
Qed.

Lemma sendBroadcast_one m : sends_at_most 1 (sendBroadcast m).
Proof.
  intros w. destruct (sendBroadcast_run m w) as (ok & w' & E1 & Hs). eapply wp_run; [exact E1|].
  unfold nsent. rewrite Hs. cbn. lia.
Qed.

Lemma route_uplink_one msg n : sends_at_most 1 (route_uplink msg n).
Proof.
  unfold route_uplink. apply at_most_after; [unfold now_ms, esp_timer_get_time; solve_emits|]. intros now.
  apply at_most_after; [apply quiet_no_send, findNextHop_quiet|]. intros [[hop|] fp]; [|apply at_most_ret].
  destruct (negb _); [|apply at_most_ret].
  apply at_most_then; [apply sendMessage_one|intros; apply emits_ret].
Qed.

Lemma transmitCore_one ty p mt f b n : sends_at_most 1 (transmitCore ty p mt f b n).
Proof.
  pose proof (λ a b c d e f, quiet_no_send _ (buildMessage_quiet a b c d e f)).
  unfold transmitCore. apply at_most_after; [solve_emits|]. intros [msg n0].
  apply at_most_after.
  { destruct (negb b && _ && _); [apply quiet_no_send, seal_uplink_quiet|apply emits_ret]. }
  intros [[out|] n1]; [apply route_uplink_one|apply at_most_ret].
Qed.

Lemma relayDownlink_fanout msg ps d : sends_at_most (length (peerMacs ps)) (relayDownlink msg ps d).
Proof.
  unfold relayDownlink. destruct (_ <=? _); [apply at_most_ret|]. apply at_most_wfor. intros p _.
  destruct (mac_eq _ _); [apply at_most_ret|apply sendMessage_one].
Qed.

(** A frame delivered here was not sent on yet; only then does the relaying of
    broadcasts follow. *)
Lemma deliver_fanout msg n w :
  wp (deliverAdapterData msg n) w
    (λ r w', (nsent w' <= nsent w + if r.2 then 0 else fanout n)%nat ∧
             (r.2 = true → peers r.1 = peers n))
    (λ w', (nsent w' <= nsent w + fanout n)%nat).
Proof.
  assert (∀ k (c : W Node), (k <= fanout n)%nat → sends_at_most k c →
    wp (n1 <- c ;; wret (n1, false)) w
      (λ r w', (nsent w' <= nsent w + if r.2 then 0 else fanout n)%nat ∧
               (r.2 = true → peers r.1 = peers n))
      (λ w', (nsent w' <= nsent w + fanout n)%nat)) as Hlast.
  { intros k c Hk Hc. apply wp_bind. eapply wp_mono; [apply Hc|..]; cbn beta; intros; [apply wp_ret|];
      cbn; [split; [lia|done]|lia]. }
  unfold deliverAdapterData. destruct (classify _ _ _ _ _ _) as [| |hop| |].
  - apply wp_bind. eapply wp_mono; [apply at_most_none, quiet_no_send, authorize_quiet|..];
      cbn beta; [|intros; lia]. intros [[opened|] ks] w1 H1; [|apply wp_ret; cbn; split; [lia|done]].
    apply wp_bind. eapply wp_mono; [apply at_most_none, deliver_no_send|..]; cbn beta; [|intros; lia].
    intros _ w2 H2. apply wp_ret. cbn. split; [|done]. destruct (mac_eq _ _); lia.
  - apply (Hlast 1%nat); [unfold fanout; lia|apply transmitCore_one].
  - apply wp_bind. eapply wp_mono; [apply at_most_none, registerDownlink_no_send|..]; cbn beta; [|intros; lia].
    intros l w1 H1. apply wp_bind. eapply wp_mono; [apply sendMessage_one|..]; cbn beta; unfold fanout; intros.
    + apply wp_ret. cbn. split; [lia|done].
    + lia.
  - apply wp_bind. eapply wp_mono; [apply relayDownlink_fanout|..]; cbn beta; unfold fanout; intros.
    + apply wp_ret. cbn. split; [lia|done].
    + lia.
  - apply wp_ret. cbn. split; [lia|done].
Qed.

Lemma processAdapterData_fanout msg n : sends_at_most (fanout n) (processAdapterData msg n).
Proof.
  intros w. unfold processAdapterData. apply wp_bind.
  eapply wp_mono; [apply deliver_fanout| |done]. cbn beta. intros [n1 again] w1 [H1 HP].
  cbn [fst snd] in *. apply wp_bind. unfold relayBroadcast. destruct again; cbn [andb] in *.
  - rewrite (HP eq_refl). destruct (negb _); [|apply wp_ret, wp_ret; lia].
    eapply wp_mono; [apply relayDownlink_fanout|..]; cbn beta; unfold fanout; intros; [apply wp_ret|]; lia.
  - apply wp_ret, wp_ret. lia.
Qed.

Lemma joinAck_one msg n : sends_at_most 1 (processJoinAck_mesh msg n).
Proof.
  unfold processJoinAck_mesh, dispatchJoinAck. apply at_most_then; [|intros [en ps]; apply emits_ret].
  destruct (negb (mac_eq _ _)).
  - destruct (mac_eq _ _); [apply at_most_ret|]. destruct (_ <=? _); [apply at_most_ret|].
    apply at_most_then; [apply sendBroadcast_one|intros; apply emits_ret].
  - destruct (isMaster n); [apply at_most_ret|].
    apply (at_most_weaken 0); [lia|]. apply at_most_none, joinAck_no_send.
Qed.

Lemma enrollment_one msg n : sends_at_most 1 (receive_enrollment msg n).
Proof.
  unfold receive_enrollment. destruct (isMaster n).
  - apply (at_most_weaken 0); [lia|]. apply at_most_none.
    pose proof (λ a b c d, quiet_no_send _ (registerPeerWithKey_quiet a b c d)). solve_emits.
  - unfold relayEnrollmentUplink. destruct (mac_eq _ _); [apply at_most_ret|].
    destruct (_ <=? _); [apply at_most_ret|].
    apply at_most_after; [unfold now_ms, esp_timer_get_time; solve_emits|]. intros now.
    apply at_most_after; [apply quiet_no_send, findNextHop_quiet|].
    intros [[hop|] fp]; [apply transmitCore_one|apply at_most_ret].
Qed.

Lemma report_one msg n : sends_at_most 1 (processRouteReport msg n).
Proof.
  unfold processRouteReport. destruct (isMaster n).
  { apply (at_most_weaken 0); [lia|]. apply at_most_none, master_report_no_send. }
  unfold relay_route_report. do 2 (destruct (_ <=? _); [apply at_most_ret|]).
  apply at_most_after; [apply quiet_no_send, masterE2EKeys_quiet|].
  intros [[[up down]|] ks]; [apply transmitCore_one|apply at_most_ret].
Qed.

Lemma dispatch_fanout msg n : sends_at_most (fanout n) (dispatch msg n).
Proof.
  assert (1 <= fanout n)%nat as H1 by (unfold fanout; lia). unfold dispatch.
  destruct (_ =? _); [eapply at_most_weaken; [exact H1|apply enrollment_one]|].
  destruct (_ =? _); [eapply at_most_weaken; [exact H1|apply joinAck_one]|].
  destruct (_ =? _).
  { apply (at_most_weaken 0); [lia|].
    apply at_most_then; [apply at_most_none, beacon_no_send|intros; apply emits_ret]. }
  destruct (_ =? _); [apply processAdapterData_fanout|].
  destruct (_ =? _); [eapply at_most_weaken; [exact H1|apply report_one]|apply at_most_ret].
Qed.

(** And there are at most [MAX_PEERS] of them. *)
Theorem handle_fanout src msg n : node_wf n → sends_at_most MAX_PEERS (handleReceivedMessage src msg n).
Proof.
  intros W. unfold handleReceivedMessage. intros w. apply wp_bind.
  pose proof (receive_gate_effect src msg n w W) as HG.
  pose proof (at_most_none _ (receive_gate_no_send src msg n) w) as HN.
  unfold wp in *. destruct (receive_gate src msg n w) as [[n1|] w1|w1]; [|cbn; lia|lia].
  destruct HG as [_ Hn1]. destruct Hn1 as [W1 _].
  pose proof (dispatch_fanout msg n1 w1) as HD. pose proof (fanout_bound n1 W1). unfold wp in HD.
  destruct (dispatch msg n1 w1); lia.
Qed.
End handlers.

(** * What the work of a node leaves alone *)
Definition same_cache (n n' : Node) : Prop :=
  replay n' = replay n ∧ deviceMacAddress n' = deviceMacAddress n.

#[export] Instance same_cache_preorder : PreOrder same_cache.
Proof. split; [done|]. intros a b c [H1 H2] [H3 H4]. split; congruence. Qed.

Section cache.
Context {E : Env} {C : Crypto} {Pr : Protocol} {Pn : Pin}.

Lemma seal_uplink_cache msg n : yields (λ r, same_cache n r.2) (seal_uplink msg n).
Proof. unfold seal_uplink. solve_yields. Qed.

Lemma transmitCore_cache ty p mt ov b n : yields (same_cache n) (transmitCore ty p mt ov b n).
Proof.
  unfold transmitCore. apply yields_bind with (Q := λ r, same_cache n r.2); [solve_yields|].
  intros [msg n0] H0. cbn [snd] in H0. apply yields_bind with (Q := λ r, same_cache n r.2).
  - destruct (negb b && _ && _); [|by apply yields_ret].
    eapply yields_weaken; [apply seal_uplink_cache|]. intros r Hr. by etrans.
  - intros [[out|] n1] H1; [|by apply yields_ret]. unfold route_uplink. solve_yields.
Qed.

Lemma beacon_cache c n : same_cache n (upd_beacon_ctx c n).
Proof. by destruct n. Qed.

Lemma deliverAdapterData_cache msg n : yields (λ r, same_cache n r.1) (deliverAdapterData msg n).
Proof.
  unfold deliverAdapterData. destruct (classify _ _ _ _ _ _); [solve_yields| |solve_yields..].
  eapply yields_bind; [apply transmitCore_cache|]. intros n1 H1. by apply yields_ret.
Qed.

Lemma verify_hops_cache msg i k mac prev n :
  yields (λ r, same_cache n r.2) (verify_hops msg i k mac prev n).
Proof.
  revert i mac prev n. induction k as [|k IH]; intros; cbn [verify_hops]; [by apply yields_ret|].
  apply yields_after. intros [[[up down]|] ks]; [|by apply yields_ret].
  eapply yields_weaken; [apply IH|]. done.
Qed.

Lemma report_cache msg n : yields (same_cache n) (processRouteReport msg n).
Proof.
  unfold processRouteReport, master_route_report, relay_route_report. destruct (isMaster n).
  - apply yields_after. intros [[[up down]|] ks]; [|by apply yields_ret].
    destruct (openPayload _ _); [|by apply yields_ret]. do 2 (destruct (_ : bool); [by apply yields_ret|]).
    eapply yields_bind; [apply verify_hops_cache|]. intros [[mac|] n2] H2; [|by apply yields_ret].
    cbn [snd] in H2. destruct (negb _); [by apply yields_ret|].
    apply yields_bind with (Q := same_cache n).
    + unfold record_route. destruct (routes n2); solve_yields.
    + solve_yields.
  - do 2 (destruct (_ <=? _); [by apply yields_ret|]). apply yields_after.
    intros [[[up down]|] ks]; [|by apply yields_ret].
    eapply yields_weaken; [apply transmitCore_cache|done].
Qed.

Lemma dispatch_cache msg n : yields (same_cache n) (dispatch msg n).
Proof.
  unfold dispatch.
  destruct (_ =? _).
  { unfold receive_enrollment, relayEnrollmentUplink. destruct (isMaster n); [solve_yields|].
    destruct (mac_eq _ _); [by apply yields_ret|]. destruct (_ <=? _); [by apply yields_ret|].
    do 2 (apply yields_after; intros ?). destruct b0 as [[hop|] fp]; [|by apply yields_ret].
    eapply yields_weaken; [apply transmitCore_cache|done]. }
  destruct (_ =? _); [unfold processJoinAck_mesh; solve_yields|].
  destruct (_ =? _); [apply yields_after; intros; apply yields_ret, beacon_cache|].
  destruct (_ =? _).
  { unfold processAdapterData. eapply yields_bind; [apply deliverAdapterData_cache|].
    intros [n1 again] H1. cbn [fst] in H1. solve_yields. }
  destruct (_ =? _); [apply report_cache|by apply yields_ret].
Qed.

Lemma loop_cache relayFn n : yields (same_cache n) (mesh_loop relayFn n).
Proof.
  unfold mesh_loop. apply yields_after. intros en.
  apply yields_bind with (Q := same_cache n).
  { unfold loop_route_report, sendRouteReport. apply yields_after. intros now.
    destruct (_ && _); [|by apply yields_ret]. apply yields_bind with (Q := λ r, same_cache n r.2).
    - destruct (isMaster _); [by apply yields_ret|]. apply yields_after. intros t. apply yields_after.
      intros [[hop|] fp]; [|by apply yields_ret]. eapply yields_bind; [apply transmitCore_cache|].
      intros n2 H2. by apply yields_ret.
    - intros [[] n1] H1; by apply yields_ret. }
  intros n1 H1. apply yields_bind with (Q := same_cache n).
  { unfold loop_relay_beacon. destruct (relayPending _); solve_yields. }
  intros n2 H2. unfold broadcastMasterBeacon. solve_yields.
Qed.

(** A node's own work neither forgets nor records received frames. *)
Lemma work_cache s s' : mesh_work s s' → same_cache s.1 s'.1.
Proof.
  intros Hs. destruct Hs; cbn [fst].
  - exact (yields_Ok _ _ _ _ _ (loop_cache relayFn n) H).
  - refine (yields_Ok _ _ _ _ _ _ H). unfold transmitDispatch, broadcastAdapterData.
    destruct (isMaster n); [solve_yields|apply transmitCore_cache].
  - refine (yields_Ok _ _ _ _ _ _ H). unfold sendDownlinkToNode, route_downlink. solve_yields.
  - refine (yields_Ok _ _ _ _ _ _ H). unfold enrollPeer. solve_yields.
  - refine (yields_Ok (λ r, same_cache n r.2) _ _ _ _ _ H).
    unfold tickEnrollmentBroadcast, sendEnrollmentRequest. destruct (_ || _); [by apply yields_ret|].
    destruct (_ <? _); [|by apply yields_ret]. apply yields_bind with (Q := same_cache n); solve_yields.
  - refine (yields_Ok _ _ _ _ _ _ H). unfold checkMasterTimeout. apply yields_after.
    intros [[b cm] seen]. by apply yields_ret.
  - refine (yields_Ok _ _ _ _ _ _ H). unfold mesh_addPeer. solve_yields.
  - unfold setIsMaster, reevaluateRouteTable, allocate_routes. cbn.
    destruct (routes n), v; done.
Qed.
End cache.
