(* ===== verification/Network.v ===== *)
(** A mesh of nodes.  Each node runs [Mesh] on a platform of its own; what one puts on
    the air reaches any of the others it is addressed to, in any order, or is lost.
    Nodes restart, lose power and come back, and anyone may inject frames.

    The histories in [net] (which nodes booted, which deliveries the nodes' own work
    and outsiders caused, which frames were relayed) are there to state properties. *)
From stdpp Require Import gmap relations.
From S2P Require Import Prelude Config MacTable SlotTable Wire Platform ErrorCore PeerRegistry Transport.
From S2P Require Import Crypto Enrollment ReplayCache Node Messenger Mesh Flood.

(** A frame on its way to a node. *)
Record delivery := Delivery { d_to : nat; d_from : mac; d_frame : mesh_message }.

Record net := Net {
  nodes : gmap nat (Node * world);        (* those that are up *)
  air : list delivery;
  booted : list nat;                      (* every boot, a node's second one under a new number *)
  originated : list delivery;             (* what did not come from relaying *)
  relayed : list (nat * mesh_message)     (* every frame a node sent while handling another *)
}.

Definition net_off : net := Net ∅ [] [] [] [].

(** What a call put on the air. *)
Definition new_sends (w w' : world) : list (mac * mesh_message) :=
  take (nsent w' - nsent w) (sent_frames (w_trace w')).

(** Whom a transmission of node [i] is for. *)
Definition reaches (ns : gmap nat (Node * world)) (i : nat) (src : mac) (s : mac * mesh_message)
    : list delivery :=
  omap (λ p : nat * (Node * world),
          if bool_decide (p.1 ≠ i) && (mac_eq s.1 BROADCAST_MAC || mac_eq s.1 (deviceMacAddress p.2.1))
          then Some (Delivery p.1 src s.2) else None) (map_to_list ns).
Definition reach (ns : gmap nat (Node * world)) (i : nat) (src : mac)
    (sends : list (mac * mesh_message)) : list delivery :=
  concat (reaches ns i src <$> sends).

(** The nodes after one of them handled a frame: it goes on, or restarts. *)
Definition handled (i : nat) (r : result Node) (ns : gmap nat (Node * world))
    : gmap nat (Node * world) :=
  match r with Ok n w => <[i := (n, w)]> ns | Halt _ => delete i ns end.

Section Network.
Context {C : Crypto} {Pr : Protocol} {Pn : Pin} (platform : nat → Env).

(** A frame in the air is lost, or handled by the node it reaches; of what that node
    sends any part arrives. *)
Inductive handle_step (s : net) : net → Prop :=
  | relay_lost pre d post :
      air s = pre ++ d :: post →
      handle_step s (Net (nodes s) (pre ++ post) (booted s) (originated s) (relayed s))
  | relay_handled pre i src f post n w arrivals :
      air s = pre ++ Delivery i src f :: post → nodes s !! i = Some (n, w) → wf_message f →
      let r := handleReceivedMessage (E := platform i) src f n w in
      let sends := new_sends w (world_of r) in
      arrivals ⊆+ reach (nodes s) i (deviceMacAddress n) sends →
      handle_step s (Net (handled i r (nodes s)) (pre ++ post ++ arrivals) (booted s) (originated s)
                      (relayed s ++ ((i,.) <$> sends.*2))).

(** A node boots (after a restart: with an empty replay cache), works on its own
    account, or stops; a frame comes from outside. *)
Inductive local_step (s : net) : net → Prop :=
  | local_boot i n w :
      i ∉ booted s → node_wf n → replay n = replay_init →
      local_step s (Net (<[i := (n, w)]> (nodes s)) (air s) (i :: booted s) (originated s) (relayed s))
  | local_work i n w n' w' arrivals :
      nodes s !! i = Some (n, w) → mesh_work (E := platform i) (n, w) (n', w') →
      arrivals ⊆+ reach (nodes s) i (deviceMacAddress n) (new_sends w w') →
      local_step s (Net (<[i := (n', w')]> (nodes s)) (air s ++ arrivals) (booted s)
                      (originated s ++ arrivals) (relayed s))
  | local_stop i :
      local_step s (Net (delete i (nodes s)) (air s) (booted s) (originated s) (relayed s))
  | local_injected d :
      local_step s (Net (nodes s) (air s ++ [d]) (booted s) (originated s ++ [d]) (relayed s)).

Definition net_step (s s' : net) : Prop := handle_step s s' ∨ local_step s s'.
Definition net_reachable (s : net) : Prop := rtc net_step net_off s.
End Network.

(** * How long a frame can keep the mesh busy *)

(** Frames handled because of one delivery, when every handling leads to at most [B]
    others and [hops] relays are left. *)
Fixpoint flood_cost (B hops : nat) : nat :=
  match hops with O => 1 | S h => 1 + B * flood_cost B h end.
Definition delivery_cost (B : nat) (d : delivery) : nat :=
  flood_cost B (Z.to_nat (MAX_HOPS - hop_count (d_frame d))).
Definition air_cost (B : nat) (s : net) : nat := sum_list_with (delivery_cost B) (air s).

Lemma flood_cost_pos B h : (0 < flood_cost B h)%nat.
Proof. destruct h; cbn; lia. Qed.

Lemma flood_cost_mono B B' h : (B <= B')%nat → (flood_cost B h <= flood_cost B' h)%nat.
Proof. intros HB. induction h as [|h IH]; cbn; [done|]. nia. Qed.

Lemma sum_list_bound {A} (f : A → nat) l k :
  Forall (λ x, (f x <= k)%nat) l → (sum_list_with f l <= length l * k)%nat.
Proof. induction 1; cbn; lia. Qed.

(** ** Transmissions and where they arrive *)
Lemma new_sends_app w w' evs :
  w_trace w' = evs ++ w_trace w → new_sends w w' = sent_frames evs.
Proof.
  intros H. unfold new_sends, nsent. rewrite H, sent_frames_app, length_app.
  replace (_ - _)%nat with (length (sent_frames evs)) by lia. apply take_app_length.
Qed.

Lemma new_sends_only (F : mesh_message → Prop) w w' :
  appended (only_sends F) w w' → Forall (λ s, F s.2) (new_sends w w').
Proof.
  intros (evs & E1 & HF). rewrite (new_sends_app _ _ _ E1). clear E1.
  induction HF as [|e evs He _ IH]; [constructor|]. destruct e; try done. by constructor.
Qed.

Lemma new_sends_length w w' k : (nsent w' <= nsent w + k)%nat → (length (new_sends w w') <= k)%nat.
Proof. intros H. unfold new_sends. rewrite length_take. lia. Qed.

Lemma reach_length ns i src sends : (length (reach ns i src sends) <= length sends * size ns)%nat.
Proof.
  unfold reach. induction sends as [|s sends IH]; cbn [fmap list_fmap concat length]; [lia|].
  rewrite length_app. enough (length (reaches ns i src s) <= size ns)%nat by lia.
  unfold reaches. rewrite <- length_map_to_list. generalize (map_to_list ns). intros l.
  induction l as [|p l IHl]; cbn; [done|]. destruct (_ && _); cbn; lia.
Qed.

Lemma reach_frames ns i src sends d :
  d ∈ reach ns i src sends → ∃ s, s ∈ sends ∧ d_frame d = s.2.
Proof.
  unfold reach. rewrite list_elem_of_In, in_concat. intros (l & Hl%list_elem_of_In & Hd%list_elem_of_In). apply list_elem_of_fmap in Hl as (s & -> & Hs).
  exists s. split; [done|]. apply list_elem_of_omap in Hd as (p & _ & Hp).
  destruct (_ && _); [|done]. by injection Hp as <-.
Qed.

(** * A flood dies out *)
Section floods.
Context {C : Crypto} {Pr : Protocol} {Pn : Pin} `{!CryptoLawful C} (platform : nat → Env).

(** What handling a frame puts on the air, whether the node goes on or restarts. *)
Lemma handle_sends `{Env} src f n w :
  node_wf n → wf_message f →
  let sends := new_sends w (world_of (handleReceivedMessage src f n w)) in
  (length sends <= MAX_PEERS)%nat ∧ Forall (λ s, relay_copy f s.2) sends.
Proof.
  intros W Hf. cbv zeta. pose proof (handle_fanout src f n W w) as H1.
  pose proof (handle_relays src f n (proj1 (wfm_hop f Hf)) w) as H2. unfold wp in *.
  destruct (handleReceivedMessage src f n w); cbn [world_of] in *;
    (split; [by apply new_sends_length|by apply new_sends_only]).
Qed.

Definition nodes_wf (s : net) : Prop := map_Forall (λ _ p, node_wf p.1) (nodes s).

Lemma handled_wf `{Env} i src f n w ns :
  map_Forall (λ _ p, node_wf p.1) ns → node_wf n → wf_message f →
  map_Forall (λ _ p, node_wf p.1) (handled i (handleReceivedMessage src f n w) ns).
Proof.
  intros HN W Hf. pose proof (handle_effect src f n w W Hf) as HE. unfold wp in HE.
  destruct (handleReceivedMessage src f n w) as [n' w'|w']; cbn [handled].
  - apply map_Forall_insert_2; [apply HE|done].
  - by apply map_Forall_delete.
Qed.

Lemma net_step_wf s s' : net_step platform s s' → nodes_wf s → nodes_wf s'.
Proof.
  intros [Hs|Hs] W; destruct Hs; unfold nodes_wf in *; cbn [nodes]; try done.
  - apply handled_wf; [done|exact (W _ _ H0)|done].
  - by apply map_Forall_insert_2.
  - apply map_Forall_insert_2; [|done]. exact (mesh_work_wf _ _ H0 (W _ _ H)).
  - by apply map_Forall_delete.
Qed.

Lemma reachable_nodes_wf s : net_reachable platform s → nodes_wf s.
Proof.
  unfold net_reachable. intros Hr. remember net_off as s0 eqn:E0.
  assert (nodes_wf s0) as W by (subst; apply map_Forall_empty). clear E0.
  induction Hr as [s|s1 s2 s3 Hs _ IH]; [done|]. apply IH. by eapply net_step_wf.
Qed.

Lemma handled_size i r ns n w : ns !! i = Some (n, w) → (size (handled i r ns) <= size ns)%nat.
Proof.
  intros Hi. destruct r; cbn [handled].
  - rewrite map_size_insert. rewrite Hi. done.
  - rewrite map_size_delete. rewrite Hi. lia.
Qed.

(** The frames a handling leads to cost less than the one handled. *)
Lemma relays_cost B f l :
  (length l <= B)%nat → Forall (λ d, relay_copy f (d_frame d)) l →
  (S (sum_list_with (delivery_cost B) l) <= flood_cost B (Z.to_nat (MAX_HOPS - hop_count f)))%nat.
Proof.
  intros Hl HF. destruct l as [|d l].
  { pose proof (flood_cost_pos B (Z.to_nat (MAX_HOPS - hop_count f))). cbn. lia. }
  assert (hop_count f < MAX_HOPS) as H8 by (inversion HF as [|? ? Hd]; subst; apply Hd).
  replace (Z.to_nat (MAX_HOPS - hop_count f)) with (S (Z.to_nat (MAX_HOPS - (hop_count f + 1)))) by lia.
  cbn [flood_cost]. set (c := flood_cost B (Z.to_nat (MAX_HOPS - (hop_count f + 1)))).
  assert (sum_list_with (delivery_cost B) (d :: l) <= length (d :: l) * c)%nat.
  { apply sum_list_bound. eapply Forall_impl; [exact HF|]. intros g (_ & Hh & _).
    unfold delivery_cost. by rewrite Hh. }
  nia.
Qed.

Lemma handle_step_cost N s s' :
  nodes_wf s → (size (nodes s) <= N)%nat → handle_step platform s s' →
  (air_cost (MAX_PEERS * N) s' < air_cost (MAX_PEERS * N) s)%nat ∧ (size (nodes s') <= N)%nat.
Proof.
  intros W HN Hs. destruct Hs as [pre d post Ha|pre i src f post n w arr Ha Hi Hf r sends Harr];
    unfold air_cost; cbn [air nodes]; rewrite Ha, !sum_list_with_app; cbn [sum_list_with].
  - split; [|done]. pose proof (flood_cost_pos (MAX_PEERS * N)
      (Z.to_nat (MAX_HOPS - hop_count (d_frame d)))) as Hpos.
    change (flood_cost _ _) with (delivery_cost (MAX_PEERS * N) d) in Hpos. lia.
  - assert (node_wf n) as Wn by exact (W _ _ Hi).
    destruct (handle_sends (H := platform i) src f n w Wn Hf) as [HL HF]. fold r sends in HL, HF.
    split; [|pose proof (handled_size i r (nodes s) n w Hi); lia].
    assert (length arr <= MAX_PEERS * N)%nat as Hlen.
    { apply submseteq_length in Harr. etrans; [exact Harr|]. etrans; [apply reach_length|]. nia. }
    assert (Forall (λ d, relay_copy f (d_frame d)) arr) as HR.
    { apply Forall_forall. intros d Hd. eapply elem_of_submseteq in Harr; [|done].
      apply reach_frames in Harr as (x & Hx & ->). by eapply Forall_forall in HF. }
    pose proof (relays_cost _ f arr Hlen HR) as Hcost.
    change (flood_cost _ _) with (delivery_cost (MAX_PEERS * N) (Delivery i src f)) in Hcost. lia.
Qed.

End floods.

(** * Every node relays a frame once *)
(** What a node accepted so far is not forgotten: its marks only go up. *)
Definition marks_up (c c' : list rentry) : Prop :=
  ∀ o hw, high_water c o = Some hw → ∃ hw', high_water c' o = Some hw' ∧ newer hw hw' = false.

(** [t] of origin [o] is behind what the node accepted. *)
Definition behind (c : list rentry) (o : mac) (t : Z * Z) : Prop :=
  ∃ hw, high_water c o = Some hw ∧ newer t hw = false.

Lemma newer_false a b : newer a b = false ↔ ¬ tuple_lt b a.
Proof. rewrite <- newer_true. by destruct (newer a b). Qed.

Lemma newer_trans a b c : newer a b = false → newer b c = false → newer a c = false.
Proof. rewrite !newer_false. unfold tuple_lt. lia. Qed.

Lemma marks_up_refl c : marks_up c c.
Proof. intros o hw H. exists hw. split; [done|]. apply newer_false. unfold tuple_lt. lia. Qed.

Lemma behind_up c c' o t : marks_up c c' → behind c o t → behind c' o t.
Proof. intros HM (hw & H & Hn). destruct (HM o hw H) as (hw' & H' & Hn'). exists hw'. eauto using newer_trans. Qed.

Lemma isReplay_marks O cache f now cache' :
  replay_wf cache → keys_in O cache → (length O <= LATTICE_REPLAY_MAX_ORIGINS)%nat →
  origin_mac_address f ∈ O → isReplay cache f now = (false, cache') →
  keys_in O cache' ∧ marks_up cache cache' ∧ behind cache' (origin_mac_address f) (msg_tuple f).
Proof.
  intros W HK HO Hf R. pose proof (isReplay_spec cache f now W) as S.
  pose proof (isReplay_keys_in O cache f now W Hf HK) as HK'. rewrite R in S, HK'. cbn in S, HK'.
  destruct S as (_ & Hiff & _ & Hfalse & Hroom & _). specialize (Hfalse eq_refl).
  split; [done|]. split.
  - intros o hw Ho. destruct (decide (o = origin_mac_address f)) as [->|Hne].
    + exists (msg_tuple f). split; [done|]. destruct (newer hw (msg_tuple f)) eqn:N; [|done].
      exfalso. enough (false = true) by done. apply Hiff. exists hw. split; [done|].
      apply newer_true in N. apply newer_false. unfold tuple_lt in *. lia.
    + exists hw. rewrite Hroom; [split; [done|]|by eapply room_of_bound|done].
      apply newer_false. unfold tuple_lt. lia.
  - exists (msg_tuple f). split; [done|]. apply newer_false. unfold tuple_lt. lia.
Qed.

Section once.
Context {C : Crypto} {Pr : Protocol} {Pn : Pin}.

(** What the gate does to the replay cache. *)
Lemma receive_gate_cache `{Env} src f n :
  yields (λ r, ∀ n1, r = Some n1 →
            (epoch_num f <= 0 ∧ replay n1 = replay n) ∨
            (0 < epoch_num f ∧ ∃ now, isReplay (replay n) f now = (false, replay n1)))
    (receive_gate src f n).
Proof.
  unfold receive_gate. destruct (Z.eqb_spec (proto_version f) PROTO_VERSION) as [Hv|Hv]; cbn [negb];
    [|by apply yields_ret].
  apply yields_bind with (Q := λ r, ∀ n1, r = Some n1 →
            (epoch_num f <= 0 ∧ replay n1 = replay n) ∨
            (0 < epoch_num f ∧ ∃ now, isReplay (replay n) f now = (false, replay n1))).
  - unfold replay_gate. rewrite Hv, Z.eqb_refl. cbn [andb]. destruct (Z.ltb_spec 0 (epoch_num f)).
    + apply yields_after. intros now. destruct (isReplay (replay n) f now) as [[] cache] eqn:R;
        apply yields_ret; [done|]. intros n1 [= <-]. right. split; [done|]. exists now. exact R.
    + apply yields_ret. intros n1 [= <-]. by left.
  - intros [n1|] HQ; [|by apply yields_ret]. apply yields_after. intros ps. apply yields_ret.
    intros n2 [= <-]. exact (HQ n1 eq_refl).
Qed.

(** A frame is handled in full only when it is recorded with it; the marks go up. *)
Lemma handle_marks `{Env} O src f n w :
  node_wf n → keys_in O (replay n) → (length O <= LATTICE_REPLAY_MAX_ORIGINS)%nat →
  origin_mac_address f ∈ O →
  wp (handleReceivedMessage src f n) w
    (λ n' w', keys_in O (replay n') ∧ marks_up (replay n) (replay n') ∧
      (0 < epoch_num f → nsent w' = nsent w ∨ behind (replay n') (origin_mac_address f) (msg_tuple f)))
    (λ _, True).
Proof.
  intros W HK HO Hf. unfold handleReceivedMessage. apply wp_bind.
  pose proof (receive_gate_cache src f n w) as HG.
  pose proof (receive_gate_no_send src f n w) as HN. unfold wp at 1. unfold wp in HG, HN.
  destruct (receive_gate src f n w) as [[n1|] w1|w1]; [| |done].
  - eapply wp_mono; [apply dispatch_cache| |done]. intros n' w' [Hr _]. rewrite Hr.
    destruct (HG n1 eq_refl) as [[He ->]|[He [now R]]].
    + split; [done|]. split; [apply marks_up_refl|lia].
    + destruct (isReplay_marks O _ _ _ _ (nwf_replay n W) HK HO Hf R) as (H1 & H2 & H3).
      split; [done|]. split; [done|]. by right.
  - apply wp_ret. split; [done|]. split; [apply marks_up_refl|]. intros _. left. by apply nsent_no_send.
Qed.
End once.

(** ** Counting copies *)
Definition is_copy (o : mac) (t : Z * Z) (x : nat * mesh_message) : bool :=
  mac_eq (origin_mac_address x.2) o && bool_decide (msg_tuple x.2 = t).

(** Copies of the frame [(o, t)] that went out, in all and from node [i]. *)
Definition copies (o : mac) (t : Z * Z) (l : list (nat * mesh_message)) : nat :=
  length (List.filter (is_copy o t) l).
Definition copies_by (i : nat) (o : mac) (t : Z * Z) (l : list (nat * mesh_message)) : nat :=
  length (List.filter (λ x, (x.1 =? i)%nat && is_copy o t x) l).

Lemma copies_by_app i o t l1 l2 : copies_by i o t (l1 ++ l2) = (copies_by i o t l1 + copies_by i o t l2)%nat.
Proof. unfold copies_by. by rewrite List.filter_app, length_app. Qed.

(** What one handling adds. *)
Lemma copies_by_new j i o t f (sends : list (mac * mesh_message)) :
  Forall (λ s, relay_copy f s.2) sends →
  copies_by j o t ((i,.) <$> sends.*2) =
    if (i =? j)%nat && is_copy o t (i, f) then length sends else 0%nat.
Proof.
  intros HF. unfold copies_by. induction HF as [|s sends [Hs _] _ IH]; [by destruct (_ && _)|].
  rewrite !fmap_cons. cbn [List.filter fst]. injection Hs as _ Ho He Hq.
  assert (is_copy o t (i, s.2) = is_copy o t (i, f)) as ->.
  { unfold is_copy, msg_tuple. cbn [snd]. by rewrite Ho, He, Hq. }
  destruct (_ && _); cbn [length]; by rewrite IH.
Qed.

Lemma copies_none i o t l : Forall (λ x : nat * mesh_message, x.1 ≠ i) l → copies_by i o t l = 0%nat.
Proof.
  unfold copies_by. induction 1 as [|x l Hx _ IH]; [done|]. cbn.
  by rewrite (proj2 (Nat.eqb_neq _ _) Hx).
Qed.

(** All copies, sender by sender. *)
Lemma copies_total o t k (ids : list nat) l :
  (∀ i, copies_by i o t l <= k)%nat → Forall (λ x : nat * mesh_message, x.1 ∈ ids) l →
  (copies o t l <= length ids * k)%nat.
Proof.
  revert l. induction ids as [|i ids IH]; intros l Hk HF; cbn [length].
  { destruct l as [|x l]; [done|]. inversion HF as [|? ? Hx]. by apply not_elem_of_nil in Hx. }
  set (l' := List.filter (λ x : nat * mesh_message, negb (x.1 =? i)%nat) l).
  assert (∀ P, length (List.filter P l) =
    (length (List.filter (λ x, (x.1 =? i)%nat && P x) l) + length (List.filter P l'))%nat) as Hsplit.
  { intros P. subst l'. clear. induction l as [|x l IH]; [done|]. cbn.
    destruct (x.1 =? i)%nat; cbn; destruct (P x); cbn; rewrite IH; lia. }
  unfold copies. rewrite Hsplit. specialize (Hk i) as Hi. unfold copies_by in Hi.
  enough (copies o t l' <= length ids * k)%nat by (unfold copies in *; lia). apply IH.
  - intros j. specialize (Hk j). unfold copies_by in *. rewrite Hsplit in Hk. lia.
  - subst l'. clear -HF. induction HF as [|x l Hx _ IH]; [constructor|]. cbn.
    destruct (Nat.eqb_spec x.1 i) as [|Hn]; cbn; [done|]. constructor; [|done].
    by apply elem_of_cons in Hx as [|].
Qed.

(** ** The invariant *)
Section storm.
Context {C : Crypto} {Pr : Protocol} {Pn : Pin} `{!CryptoLawful C} (platform : nat → Env).
Context (O : list mac).

Definition from_O (d : delivery) : Prop := origin_mac_address (d_frame d) ∈ O.

(** What node [i], in state [p] if it is up, did and will not do again. *)
Definition node_once (s : net) (i : nat) (p : option (Node * world)) : Prop :=
  ∀ o t, 0 < t.1 → (copies_by i o t (relayed s) <= MAX_PEERS)%nat ∧
    ∀ q, p = Some q → copies_by i o t (relayed s) = 0%nat ∨ behind (replay q.1) o t.

Record storm_inv (s : net) : Prop := {
  si_wf : nodes_wf s;
  si_up : ∀ i p, nodes s !! i = Some p → i ∈ booted s ∧ keys_in O (replay p.1);
  si_air : Forall from_O (air s);
  si_ids : Forall (λ x, x.1 ∈ booted s) (relayed s);
  si_once : ∀ i, node_once s i (nodes s !! i)
}.

Lemma storm_inv_off : storm_inv net_off.
Proof.
  split; cbn; [apply map_Forall_empty|by intros i p|constructor|constructor|].
  intros i o t _. split; [cbn; lia|]. intros q _. by left.
Qed.

Lemma node_once_stopped s i p : node_once s i p → node_once s i None.
Proof. intros H o t Ht. split; [by apply H|done]. Qed.

Lemma local_step_inv s s' :
  local_step platform s s' → Forall from_O (originated s') → storm_inv s → storm_inv s'.
Proof.
  intros Hs HO I. pose proof (net_step_wf platform s s' (or_intror Hs) (si_wf s I)) as W'.
  destruct I as [W Hup Hair Hids Honce].
  destruct Hs as [i n w Hi Wn Hr|i n w n' w' arr Hi Hw _|i|d]; split;
    cbn [nodes air booted originated relayed] in *; try done.
  - intros j p [[<- <-]|[Hne Hj]]%lookup_insert_Some.
    + split; [set_solver|]. cbn [fst]. rewrite Hr. apply replay_init_keys.
    + destruct (Hup j p Hj). split; [set_solver|done].
  - eapply Forall_impl; [exact Hids|]. set_solver.
  - intros j. destruct (decide (i = j)) as [<-|Hne]; [|by rewrite lookup_insert_ne; [apply Honce|]].
    rewrite lookup_insert_eq. intros o t Ht. cbn [relayed]. rewrite copies_none; [split; [lia|by left]|].
    eapply Forall_impl; [exact Hids|]. set_solver.
  - intros j p [[<- <-]|[Hne Hj]]%lookup_insert_Some; [|by apply Hup].
    destruct (Hup i _ Hi) as [H1 H2]. split; [done|]. pose proof (proj1 (work_cache _ _ Hw)) as Hc. cbn [fst] in *. by rewrite Hc.
  - apply Forall_app. split; [done|]. by apply Forall_app in HO as [].
  - intros j. destruct (decide (i = j)) as [<-|Hne]; [|by rewrite lookup_insert_ne; [apply Honce|]].
    rewrite lookup_insert_eq. specialize (Honce i). rewrite Hi in Honce. intros o t Ht.
    destruct (Honce o t Ht) as [H1 H2]. split; [done|]. intros q [= <-].
    rewrite (proj1 (work_cache _ _ Hw) : replay (n', w').1 = _). exact (H2 _ eq_refl).
  - intros j p [_ Hj]%lookup_delete_Some. by apply Hup.
  - intros j. destruct (decide (i = j)) as [<-|Hne].
    + rewrite lookup_delete_eq. exact (node_once_stopped s i _ (Honce i)).
    + rewrite lookup_delete_ne by done. apply Honce.
  - apply Forall_app. split; [done|]. by apply Forall_app in HO as [].
Qed.

(** Handling a frame keeps the account of the node that does. *)
Lemma handled_once s i src f n w :
  (length O <= LATTICE_REPLAY_MAX_ORIGINS)%nat → nodes s !! i = Some (n, w) →
  node_wf n → keys_in O (replay n) → wf_message f → origin_mac_address f ∈ O →
  node_once s i (Some (n, w)) →
  let r := handleReceivedMessage (E := platform i) src f n w in
  let sends := new_sends w (world_of r) in
  node_once (Net (handled i r (nodes s)) [] [] [] (relayed s ++ ((i,.) <$> sends.*2))) i
    (handled i r (nodes s) !! i) ∧
  (∀ n' w', r = Ok n' w' → keys_in O (replay n')).
Proof.
  intros HO Hi W HK Hf Ho Honce r sends.
  destruct (handle_sends (H := platform i) src f n w W Hf) as [HL HF]. fold r sends in HL, HF.
  pose proof (handle_marks (H := platform i) O src f n w W HK HO Ho) as HM. unfold wp in HM. fold r in HM.
  split; [|intros n' w' Hr; rewrite Hr in HM; apply HM].
  intros o t Ht. destruct (Honce o t Ht) as [H1 H2]. specialize (H2 _ eq_refl). cbn [fst] in H2.
  cbn [relayed]. rewrite copies_by_app, (copies_by_new _ _ _ _ f) by done. rewrite Nat.eqb_refl. cbn [andb].
  destruct (is_copy o t (i, f)) eqn:Hcopy.
  - apply andb_true_iff in Hcopy as [E1%mac_eq_true E2%bool_decide_eq_true]. cbn [snd] in *. subst o t.
    destruct H2 as [H2|(hw & Hhw & Hn)].
    + rewrite H2. split; [done|]. intros q Hq. destruct r as [n' w'|w'] eqn:Er; cbn [handled] in Hq.
      * rewrite lookup_insert_eq in Hq. injection Hq as <-. cbn [fst].
        destruct HM as (_ & _ & HM). destruct (HM Ht) as [Hs|Hb]; [left|by right].
        subst sends. unfold new_sends. cbn [world_of]. by rewrite Hs, Nat.sub_diag.
      * by rewrite lookup_delete_eq in Hq.
    + destruct (stale_frame_dropped (E := platform i) src f n w W) as (w1 & E1 & Hw1); [right; eauto|].
      assert (sends = []) as ->.
      { subst sends r. rewrite E1. cbn [world_of]. destruct Hw1 as [->|[us Hw1]].
        - unfold new_sends. by rewrite Nat.sub_diag.
        - by rewrite (new_sends_app _ _ [EvTimer us]). }
      cbn [length]. rewrite Nat.add_0_r. split; [done|]. intros q Hq. right.
      subst r. rewrite E1 in Hq. cbn [handled] in Hq. rewrite lookup_insert_eq in Hq. injection Hq as <-.
      exists hw. done.
  - rewrite Nat.add_0_r. split; [done|]. intros q Hq. destruct r as [n' w'|w'] eqn:Er; cbn [handled] in Hq.
    + rewrite lookup_insert_eq in Hq. injection Hq as <-. cbn [fst]. destruct HM as (_ & HM & _).
      destruct H2 as [H2|H2]; [by left|right]. by eapply behind_up.
    + by rewrite lookup_delete_eq in Hq.
Qed.

Lemma handle_step_inv s s' :
  (length O <= LATTICE_REPLAY_MAX_ORIGINS)%nat → handle_step platform s s' → storm_inv s → storm_inv s'.
Proof.
  intros HO Hs I. pose proof (net_step_wf platform s s' (or_introl Hs) (si_wf s I)) as W'.
  destruct I as [W Hup Hair Hids Honce].
  destruct Hs as [pre d post Ha|pre i src f post n w arr Ha Hi Hf r sends Harr].
  { split; cbn; try done. rewrite Ha, Forall_app, Forall_cons in Hair. rewrite Forall_app. naive_solver. }
  rewrite Ha, Forall_app, Forall_cons in Hair. destruct Hair as (Hpre & Hof & Hpost).
  destruct (Hup i _ Hi) as [Hib HK]. assert (node_wf n) as Wn by exact (W _ _ Hi).
  pose proof (Honce i) as Hoi. rewrite Hi in Hoi.
  destruct (handled_once s i src f n w HO Hi Wn HK Hf Hof Hoi) as [Hone HK']. fold r in Hone, HK'. fold sends in Hone.
  split; cbn [nodes air booted relayed]; [done| | | |].
  - intros j p. destruct r as [n' w'|w'] eqn:Er; cbn [handled].
    + intros [[<- <-]|[_ Hj]]%lookup_insert_Some; [|by apply Hup]. split; [done|]. by eapply HK'.
    + intros [_ Hj]%lookup_delete_Some. by apply Hup.
  - rewrite !Forall_app. split_and!; [done..|]. apply Forall_forall. intros d Hd.
    eapply elem_of_submseteq in Harr; [|done]. apply reach_frames in Harr as (x & Hx & Hd').
    destruct (handle_sends (H := platform i) src f n w Wn Hf) as [_ HF]. fold r sends in HF.
    eapply Forall_forall in HF; [|done]. unfold from_O. rewrite Hd'. destruct HF as [[= _ -> _ _] _]. exact Hof.
  - apply Forall_app. split; [done|]. apply Forall_forall. intros x Hx.
    apply list_elem_of_fmap in Hx as (g & -> & _). done.
  - intros j. destruct (decide (i = j)) as [<-|Hne]; [exact Hone|].
    assert (handled i r (nodes s) !! j = nodes s !! j) as ->.
    { destruct r; cbn [handled]; [by rewrite lookup_insert_ne|by rewrite lookup_delete_ne]. }
    intros o t Ht. cbn [relayed].
    destruct (handle_sends (H := platform i) src f n w Wn Hf) as [_ HF]. fold r sends in HF.
    rewrite copies_by_app, (copies_by_new _ _ _ _ f) by done. rewrite (proj2 (Nat.eqb_neq _ _) Hne).
    cbn [andb]. rewrite Nat.add_0_r. by apply Honce.
Qed.
End storm.

Lemma originated_grows `{Crypto, Protocol, Pin} platform s s' :
  net_step platform s s' → ∃ l, originated s' = originated s ++ l.
Proof. intros [Hs|Hs]; destruct Hs; cbn; try (by exists []; rewrite app_nil_r); eauto. Qed.


(** * A run: two leaves pass a JOIN_ACK on *)
Section scheduler.
Context {C : Crypto} {Pr : Protocol} {Pn : Pin} (platform : nat → Env).

(** The oldest frame in the air is handled, and all that is sent arrives. *)
Definition handle_next (s : net) : net :=
  match air s with
  | [] => s
  | Delivery i src f :: post =>
      match nodes s !! i with
      | None => Net (nodes s) post (booted s) (originated s) (relayed s)
      | Some (n, w) =>
          let r := handleReceivedMessage (E := platform i) src f n w in
          let sends := new_sends w (world_of r) in
          Net (handled i r (nodes s)) (post ++ reach (nodes s) i (deviceMacAddress n) sends)
            (booted s) (originated s) (relayed s ++ ((i,.) <$> sends.*2))
      end
  end.

Lemma handle_next_step s :
  air s ≠ [] → (∀ d, head (air s) = Some d → wf_message (d_frame d)) →
  handle_step platform s (handle_next s).
Proof.
  intros Ha Hf. unfold handle_next. destruct (air s) as [|[i src f] post] eqn:Ea; [done|].
  destruct (nodes s !! i) as [[n w]|] eqn:Hi.
  - exact (relay_handled platform s [] i src f post n w _ Ea Hi (Hf _ eq_refl) (reflexivity _)).
  - exact (relay_lost platform s [] _ post Ea).
Qed.
End scheduler.

#[local] Existing Instance documented_protocol.

Definition demo_second_leaf : Node := upd_deviceMacAddress (demo_mac 4) demo_leaf_node.
Definition demo_ack : mesh_message :=
  MeshMessage PROTO_VERSION MESH_TYPE_JOIN_ACK 0 (demo_mac 7) (demo_mac 9) (demo_mac 7) (zeros 64)
    0 3 8 (replicate 32 9) 0 (zeros 48) (zeros 16) (zeros 8).

Definition demo_net : net :=
  Net (<[2%nat := (demo_second_leaf, ref_world)]> (<[1%nat := (demo_leaf_node, ref_world)]> ∅))
    [Delivery 1 (demo_mac 7) demo_ack] [2%nat; 1%nat] [Delivery 1 (demo_mac 7) demo_ack] [].
Definition demo_next : net → net :=
  handle_next (C := toy_crypto) (Pn := demo_pin) (λ _, ref_env).

Lemma demo_second_leaf_wf : node_wf (C := toy_crypto) demo_second_leaf.
Proof. destruct demo_leaf_node_wf. by split. Qed.

Lemma demo_net_reachable : net_reachable (C := toy_crypto) (Pn := demo_pin) (λ _, ref_env) demo_net.
Proof.
  eapply rtc_l; [right; apply (local_boot _ _ 1 demo_leaf_node ref_world);
    [cbn; set_solver|exact demo_leaf_node_wf|reflexivity]|].
  eapply rtc_l; [right; apply (local_boot _ _ 2 demo_second_leaf ref_world);
    [cbn; set_solver|exact demo_second_leaf_wf|reflexivity]|].
  apply rtc_once. right. exact (local_injected _ _ (Delivery 1 (demo_mac 7) demo_ack)).
Qed.

(** Three deliveries: to one leaf, relayed to the other, and relayed back. *)
Lemma demo_flood :
  nsteps (handle_step (C := toy_crypto) (Pn := demo_pin) (λ _, ref_env)) 3 demo_net
    (demo_next (demo_next (demo_next demo_net))).
Proof.
  assert (∀ s, negb (bool_decide (length (air s) = 0%nat)) &&
      forallb (λ d, wf_messageb (d_frame d)) (air s) = true →
    handle_step (C := toy_crypto) (Pn := demo_pin) (λ _, ref_env) s (demo_next s)) as Hstep.
  { intros s [Hl Ha]%andb_true_iff. apply handle_next_step.
    - intros Hs. by rewrite Hs in Hl.
    - intros d Hd. rewrite forallb_forall in Ha. apply wf_messageb_spec, Ha.
      destruct (air s); [done|]. injection Hd as ->. by left. }
  eapply nsteps_l; [apply Hstep; vm_compute; reflexivity|].
  eapply nsteps_l; [apply Hstep; vm_compute; reflexivity|].
  eapply nsteps_l; [apply Hstep; vm_compute; reflexivity|]. apply nsteps_O.
Qed.


