(* ===== verification/BootWindow.v ===== *)
(** The boot starts the radio and the mesh task before it sets the role and links the
    receive callback (main.cpp): what becomes of the frames that come in between. *)
From S2P Require Import Prelude Config MacTable SlotTable NeighborTable Wire Platform ErrorCore.
From S2P Require Import Eeprom ReplayCache RouteTable PeerRegistry Transport Crypto Enrollment.
From S2P Require Import KeyStore Routers Beacon Authorizer Node Messenger RouteReport Mesh Flood Network.

Section Window.
Context {E : Env} {C : Crypto} {Pr : Protocol} {Pn : Pin}.

(** A node in the window: booted as a leaf, no one to deliver to. *)
Definition in_window (n : Node) : Prop := isMaster n = false ∧ externalRecvCallback n = false.

Lemma deliverAdapterData_window f n : in_window n → emits no_delivery (deliverAdapterData f n).
Proof.
  intros [Hm Hc]. pose proof transmitCore_silent. pose proof sendMessage_silent. pose proof relayDownlink_silent.
  pose proof (λ m b s cm ps en ks, emits_silent _ (authorize_quiet m b s cm ps en ks)).
  pose proof (λ l m ps cm, emits_silent _ (registerDownlinkPeer_quiet l m ps cm)).
  unfold deliverAdapterData, deliver. cbn [externalRecvCallback upd_e2eKeys]. rewrite Hc. solve_emits.
Qed.

Lemma dispatch_window f n : in_window n → emits no_delivery (dispatch f n).
Proof.
  intros Hn. pose proof (proj1 Hn) as Hm. unfold dispatch.
  pose proof transmitCore_silent. pose proof dispatchJoinAck_silent. pose proof beacon_process_silent.
  pose proof masterE2EKeys_silent. pose proof relayBroadcast_silent.
  pose proof (λ a b c d e f, emits_silent _ (findNextHop_quiet a b c d e f)).
  pose proof (deliverAdapterData_window f n Hn).
  unfold receive_enrollment, relayEnrollmentUplink, processJoinAck_mesh, processAdapterData, processRouteReport,
    relay_route_report, now_ms, esp_timer_get_time. rewrite Hm. solve_emits.
Qed.

Lemma receive_gate_window src f n : yields (λ r, ∀ n1, r = Some n1 → in_window n → in_window n1) (receive_gate src f n).
Proof.
  unfold receive_gate. destruct (negb _); [by apply yields_ret|].
  apply yields_bind with (Q := λ r, ∀ n1, r = Some n1 → in_window n → in_window n1).
  - unfold replay_gate. destruct (_ && _); [|apply yields_ret; by intros n1 [= <-]].
    apply yields_after. intros now. destruct (isReplay _ f now) as [[] cache]; apply yields_ret; [done|].
    by intros n1 [= <-].
  - intros [n1|] HQ; [|by apply yields_ret]. apply yields_after. intros ps. apply yields_ret.
    intros n2 [= <-] Hn. exact (HQ n1 eq_refl Hn).
Qed.

Lemma receive_gate_silent src f n : emits no_delivery (receive_gate src f n).
Proof. unfold receive_gate, replay_gate, updateLastSeen, now_ms, esp_timer_get_time. solve_emits. Qed.

Lemma handle_window src f n : in_window n → emits no_delivery (handleReceivedMessage src f n).
Proof.
  intros Hn. unfold handleReceivedMessage. eapply emits_bind_spec; [apply receive_gate_silent|apply receive_gate_window|].
  cbn beta. intros [n1|] HQ; [by apply dispatch_window, HQ|apply emits_ret].
Qed.

(** A numbered frame that was handled is behind the marks of the node's replay cache. *)
Lemma handle_behind src f n w :
  node_wf n → proto_version f = PROTO_VERSION → 0 < epoch_num f →
  wp (handleReceivedMessage src f n) w
    (λ n' _, behind (replay n') (origin_mac_address f) (msg_tuple f)) (λ _, True).
Proof.
  intros W Hv He%Z.ltb_lt. unfold handleReceivedMessage, receive_gate. rewrite Hv, Z.eqb_refl. cbn [negb].
  apply wp_bind, wp_bind. unfold replay_gate. rewrite Hv, Z.eqb_refl, He. cbn [andb].
  apply wp_any. intros now w1. pose proof (isReplay_spec (replay n) f now (nwf_replay n W)) as S.
  destruct (isReplay (replay n) f now) as [dup cache]. destruct S as (_ & Hiff & _ & Hfalse & _).
  destruct dup.
  - apply wp_ret, wp_ret, wp_ret. by apply Hiff.
  - apply wp_ret. apply wp_any. intros ps w2. apply wp_ret.
    eapply wp_mono; [apply dispatch_cache| |done]. intros n' w' [-> _].
    exists (msg_tuple f). split; [by apply Hfalse|]. apply newer_false. unfold tuple_lt. lia.
Qed.

End Window.

(** * Witness *)
#[local] Existing Instance documented_protocol.

