(* ===== verification/HwMac.v ===== *)
(** The cached station MAC (network/hw_mac.h), which the adapters and the serial codec
    read.  The rest of the development takes the node's [deviceMacAddress] in its
    place; the theorem here says why. *)
From S2P Require Import Prelude Platform ErrorCore Node Mesh.

(** [detail::g_deviceMac] and [detail::g_deviceMacCached]. *)
Record hw_mac := HwMac { g_deviceMac : mac; g_deviceMacCached : bool }.
Definition hw_mac_new : hw_mac := HwMac ZERO_MAC false.

Definition cacheDeviceMac (m : mac) (h : hw_mac) : hw_mac := HwMac (take 6 m) true.

(** [sta_mac] is what [esp_wifi_get_mac] would write. *)
Definition readOwnMac (sta_mac : mac) (h : hw_mac) : mac * hw_mac :=
  if g_deviceMacCached h then (g_deviceMac h, h) else (sta_mac, cacheDeviceMac sta_mac h).

(** One call after the other, each with an answer of the driver at hand. *)
Fixpoint readOwnMacs (answers : list mac) (h : hw_mac) : list mac :=
  match answers with
  | [] => []
  | a :: answers' => let (m, h') := readOwnMac a h in m :: readOwnMacs answers' h'
  end.

Section Boot.
Context {E : Env}.

(** [Mesh::readMacAddress], with the cache it primes. *)
Definition readMacAddress_caching (sta_mac : option mac) (n : Node) (h : hw_mac) : W (Node * hw_mac) :=
  n' <- readMacAddress sta_mac n ;;
  wret (n', match sta_mac with Some _ => cacheDeviceMac (deviceMacAddress n') h | None => h end).

Lemma readOwnMacs_cached answers m : readOwnMacs answers (HwMac m true) = replicate (length answers) m.
Proof. induction answers as [|a l IH]; cbn; [done|]. by rewrite IH. Qed.

(** Once the boot has read the MAC, whatever the driver would answer later, every read
    is the node's [deviceMacAddress]. *)
Theorem own_mac_is_device_mac m n h w answers n' h' w' :
  length m = 6%nat → readMacAddress_caching (Some m) n h w = Ok (n', h') w' →
  readOwnMacs answers h' = replicate (length answers) (deviceMacAddress n').
Proof.
  intros Hm [= <- <- _]. unfold cacheDeviceMac. cbn [deviceMacAddress upd_deviceMacAddress].
  rewrite take_ge by lia. apply readOwnMacs_cached.
Qed.

(** Without that, the first answer is kept. *)
Theorem own_mac_is_first_answer a answers :
  length a = 6%nat → readOwnMacs (a :: answers) hw_mac_new = replicate (S (length answers)) a.
Proof. intros Ha. cbn. unfold cacheDeviceMac. rewrite take_ge by lia. by rewrite readOwnMacs_cached. Qed.
End Boot.
