(* ===== verification/Boot.v ===== *)
(** Booting a node: the boot epoch that keeps sequence numbers fresh across
    restarts, and the invariant of the freshly booted node. *)
From stdpp Require Import relations.
From S2P Require Import Prelude Config MacTable SlotTable NeighborTable Wire Platform ErrorCore.
From S2P Require Import Eeprom ReplayCache RouteTable PeerRegistry Transport Crypto Enrollment.
From S2P Require Import KeyStore Routers Beacon Authorizer Node Messenger RouteReport Mesh.

(** * Calls that leave one stored key and the EEPROM state alone *)
Definition keeps_key (key : string) (e : event) : Prop :=
  match e with
  | EvNvsSet k _ _ | EvNvsErase k _ => k ≠ key
  | EvNvsEraseAll _ | EvFlashErase _ => False
  | _ => True
  end.

Lemma keeps_key_stored key init evs tr :
  Forall (keeps_key key) evs → nvs_store init (evs ++ tr) key = nvs_store init tr key.
Proof.
  induction 1 as [|e evs He _ IH]; [done|]. destruct e; cbn in *; try done.
  - destruct ok; [|done]. by rewrite (proj2 (String.eqb_neq _ _) He).
  - destruct ok; [|done]. by rewrite (proj2 (String.eqb_neq _ _) He).
Qed.

Section stable.
Context {E : Env} (key : string).

Definition stable {A} (c : W A) : Prop :=
  ∀ w, wp c w (λ _ w', w_eeprom w' = w_eeprom w ∧ appended (keeps_key key) w w') (λ _, True).

Lemma stable_ret {A} (a : A) : stable (wret a).
Proof. intros w. split; [done|apply appended_refl]. Qed.
Lemma stable_halt {A} : stable (@whalt A).
Proof. by intros w. Qed.
Lemma stable_ask {A} (f : trace → A) : stable (ask f).
Proof. intros w. split; [done|apply appended_refl]. Qed.
Lemma stable_get_eeprom : stable get_eeprom.
Proof. intros w. split; [done|apply appended_refl]. Qed.
Lemma stable_get_err : stable get_err.
Proof. intros w. split; [done|apply appended_refl]. Qed.
Lemma stable_put_err s : stable (put_err s).
Proof. intros w. split; [done|by exists []]. Qed.
Lemma stable_emit e : keeps_key key e → stable (emit e).
Proof. intros He w. split; [done|]. exists [e]. split; [done|by constructor]. Qed.
Lemma stable_bind {A B} (c : W A) (k : A → W B) :
  stable c → (∀ a, stable (k a)) → stable (wbind c k).
Proof.
  intros Hc Hk w. apply wp_bind. eapply wp_mono; [apply Hc| |done].
  cbn beta. intros a w1 [E1 A1]. eapply wp_mono; [apply Hk| |done].
  cbn beta. intros b w2 [E2 A2]. split; [congruence|by eapply appended_trans].
Qed.
Lemma stable_wfold {A S} (f : A → S → W S) l s : (∀ x s', stable (f x s')) → stable (wfold f l s).
Proof.
  intros Hf. revert s. induction l as [|x l IH]; intros s; cbn [wfold]; [apply stable_ret|].
  apply stable_bind; [apply Hf|]. intros. apply IH.
Qed.
End stable.

Ltac solve_stable :=
  repeat (intros; cbv beta zeta;
    first
    [ done
    | apply stable_ret | apply stable_halt | apply stable_ask | apply stable_get_eeprom
    | apply stable_get_err | apply stable_put_err
    | apply stable_emit; cbn; done
    | solve [auto 2]
    | apply stable_bind | apply stable_wfold
    | match goal with
      | |- stable _ (if ?b then _ else _) => destruct b
      | |- stable _ (match ?x with _ => _ end) => destruct x
      end ]).

Section boot.
Context {E : Env} {C : Crypto} {Pr : Protocol} {Pn : Pin} (key : string).

Lemma blinkPattern_stable t : stable key (blinkPattern t).
Proof. unfold blinkPattern. solve_stable. Qed.

Lemma fail_stable t m sub : stable key (fail t m sub).
Proof.
  pose proof blinkPattern_stable.
  unfold fail, signalError, signalErrorType, esp_restart. solve_stable.
Qed.

Lemma persist_stable got want sec : stable key (persistOrEscalate got want sec).
Proof. pose proof fail_stable. unfold persistOrEscalate. solve_stable. Qed.

Lemma nvsGetBytes_stable k b n : stable key (nvsGetBytes k b n).
Proof. unfold nvsGetBytes, nvs_open, nvs_get. solve_stable. Qed.

Lemma nvsGetU8_stable k d : stable key (nvsGetU8 k d).
Proof. unfold nvsGetU8, nvs_open, nvs_get. solve_stable. Qed.

Lemma nvsGetU32_stable k d : stable key (nvsGetU32 k d).
Proof. unfold nvsGetU32, nvs_open, nvs_get. solve_stable. Qed.

Lemma nvsPutBytes_stable k b n : k ≠ key → stable key (nvsPutBytes k b n).
Proof. intros Hk. unfold nvsPutBytes, nvs_open, nvs_set, nvs_commit. solve_stable. Qed.

Lemma nvsPutU32_stable k v : k ≠ key → stable key (nvsPutU32 k v).
Proof. intros Hk. unfold nvsPutU32, nvs_open, nvs_set, nvs_commit. solve_stable. Qed.

(** The keys a boot writes besides the epoch. *)
Definition boot_keys : list string := [MESH_KEY; PRIVATE_KEY; PUBLIC_KEY; KEYPAIR_CRC].

Lemma loadPersistentState_stable n : key ∉ boot_keys → stable key (loadPersistentState n).
Proof.
  intros Hkey. unfold boot_keys in Hkey.
  pose proof nvsGetBytes_stable. pose proof nvsGetU8_stable. pose proof nvsGetU32_stable.
  pose proof persist_stable. pose proof fail_stable.
  assert (∀ b m, stable key (nvsPutBytes MESH_KEY b m)) by (intros; apply nvsPutBytes_stable; set_solver).
  assert (∀ b m, stable key (nvsPutBytes PRIVATE_KEY b m)) by (intros; apply nvsPutBytes_stable; set_solver).
  assert (∀ b m, stable key (nvsPutBytes PUBLIC_KEY b m)) by (intros; apply nvsPutBytes_stable; set_solver).
  assert (∀ v, stable key (nvsPutU32 KEYPAIR_CRC v)) by (intros; apply nvsPutU32_stable; set_solver).
  assert (stable key save_guard).
  { unfold save_guard, ensureInitialized, isDevModeInternal. solve_stable. }
  assert (stable key ensureInitialized) by (unfold ensureInitialized; solve_stable).
  assert (∀ k m, stable key (load_master_mac k m)) by (unfold load_master_mac; solve_stable).
  assert (∀ t m s, stable key (signalError t m s)).
  { pose proof blinkPattern_stable. unfold signalError, signalErrorType, esp_restart. solve_stable. }
  unfold loadPersistentState, loadFromEEPROM, load_slot, loadPeerRecord, loadMeshKeyFromEEPROM,
    loadMeshKey, saveMeshKey, enrollment_init, loadKeypair, saveKeypair, generateKeypair,
    x25519_keygen, fatal, loadKnownMasterMac, loadKnownMasterMacSecondary, loadEnrolledFlag,
    load_bool, nvsGetBool.
  solve_stable.
Qed.
End boot.

(** * The boot epoch *)
Section epoch.
Context {E : Env} {C : Crypto} {Pr : Protocol} {Pn : Pin} {L : NvsLawful E}.

(** The epoch the last boot (or wrap) left in NVS; 0 on a blank device. *)
Definition stored_epoch (w : world) : Z :=
  match nvs_store nvs_initial (w_trace w) BOOT_EPOCH with
  | Some (NvsU32 v) => v
  | _ => 0
  end.

Lemma stable_keeps_store key {A} (c : W A) w :
  stable key c → ready w →
  wp c w (λ _ w', ready w' ∧ nvs_store nvs_initial (w_trace w') key =
                             nvs_store nvs_initial (w_trace w) key) (λ _, True).
Proof.
  intros Hc [R1 R2]. eapply wp_mono; [apply Hc| |done].
  cbn beta. intros a w' [He (evs & Ht & Hf)]. split; [by split; rewrite He|].
  by rewrite Ht, keeps_key_stored.
Qed.

Lemma loadBootEpoch_run w :
  ready w → ∃ w', loadBootEpoch w = Ok (stored_epoch w) w' ∧ ready w' ∧
    nvs_store nvs_initial (w_trace w') BOOT_EPOCH = nvs_store nvs_initial (w_trace w) BOOT_EPOCH.
Proof.
  intros [R1 R2]. unfold loadBootEpoch, ensureInitialized, isDevModeInternal, get_eeprom.
  unfold wbind at 1 2, wret at 1. rewrite R1. cbn [negb].
  unfold wbind at 1 2, wret at 1. rewrite R2.
  unfold nvsGetU32, nvs_open, nvs_get, wbind, ask, emit, wret, stored_epoch.
  cbn -[nvs_store]. rewrite nvs_open_ok. cbn -[nvs_store]. rewrite nvs_get_stored.
  change (nvs_store nvs_initial (EvNvsOpen true :: w_trace w) BOOT_EPOCH)
    with (nvs_store nvs_initial (w_trace w) BOOT_EPOCH).
  destruct (nvs_store nvs_initial (w_trace w) BOOT_EPOCH) as [[]|] eqn:Hst;
    (eexists; split; [reflexivity|]; split; [by split|exact Hst]).
Qed.

Lemma setup_stable key b1 b2 b3 m n :
  stable key (setupRadio b1 m n) ∧ stable key loadTxPowerPreset ∧
  (∀ v, stable key (esp_wifi_set_max_tx_power v)) ∧ stable key (setupEspNow b2 b3 (peers n)).
Proof.
  pose proof (fail_stable key). pose proof (nvsGetU8_stable key).
  assert (∀ ok t, stable key (checkEsp ok t)) by (unfold checkEsp; solve_stable).
  assert (∀ m, stable key (registerPeerWithEspNow m))
    by (unfold registerPeerWithEspNow, esp_now_is_peer_exist, esp_now_add_peer; solve_stable).
  unfold setupRadio, transport_setup, readMacAddress, loadTxPowerPreset, ensureInitialized,
    esp_wifi_set_max_tx_power, setupEspNow, esp_now_is_peer_exist, esp_now_add_peer, wfor.
  split_and!; solve_stable.
Qed.

Definition booted (w : world) (n' : Node) (w' : world) : Prop :=
  bootEpoch (txState n') = u32 (stored_epoch w + 1) ∧ txSeqNum (txState n') = 0 ∧
  replay n' = replay_init ∧ ready w' ∧ stored_epoch w' = bootEpoch (txState n').

Lemma wp_conj {A} (c : W A) w (Q1 Q2 : A → world → Prop) H :
  wp c w Q1 H → wp c w Q2 H → wp c w (λ a w', Q1 a w' ∧ Q2 a w') H.
Proof. unfold wp. by destruct (c w). Qed.

(** The tail of [mesh_init], once the epoch is stored. *)
Lemma boot_tail b1 b2 b3 m n3 w0 w :
  ready w → stored_epoch w = bootEpoch (txState n3) →
  bootEpoch (txState n3) = u32 (stored_epoch w0 + 1) → txSeqNum (txState n3) = 0 →
  replay n3 = replay_init →
  wp (let* (radio, n4) := setupRadio b1 m n3 in
      if negb radio then wret (false, n4)
      else
        preset <- loadTxPowerPreset ;;
        esp_wifi_set_max_tx_power (default 0 (TX_POWER_VALUES !! Z.to_nat preset)) ;;;
        now_up <- setupEspNow b2 b3 (peers n4) ;;
        wret (now_up, n4)) w (λ r w', booted w0 r.2 w') (λ _, True).
Proof.
  intros R Hs He Hq Hr. unfold stored_epoch in Hs.
  assert (wp (setupRadio b1 m n3) w
            (λ r w', (ready w' ∧ nvs_store nvs_initial (w_trace w') BOOT_EPOCH =
                                 nvs_store nvs_initial (w_trace w) BOOT_EPOCH) ∧
                     txState r.2 = txState n3 ∧ replay r.2 = replay n3) (λ _, True)) as HR.
  { apply wp_conj; [apply stable_keeps_store; [apply (setup_stable BOOT_EPOCH b1 b2 b3 m n3)|done]|].
    unfold setupRadio, transport_setup, readMacAddress. apply wp_any. intros [] w1; [|by apply wp_ret].
    apply wp_bind. destruct m as [m0|]; [by do 2 apply wp_ret|].
    apply wp_any. intros b w2. by do 2 apply wp_ret. }
  apply wp_bind. eapply wp_mono; [exact HR| |done].
  intros [radio n4] w1. cbn [fst snd]. intros ([R1 S1] & Htx & Hrp).
  assert (∀ (b : bool) w2, ready w2 → nvs_store nvs_initial (w_trace w2) BOOT_EPOCH =
            nvs_store nvs_initial (w_trace w1) BOOT_EPOCH →
            wp (wret (b, n4)) w2 (λ r w', booted w0 r.2 w') (λ _, True)) as Hret.
  { intros b w2 R2 S2. apply wp_ret. unfold booted, stored_epoch. cbn [snd].
    rewrite Htx, Hrp, S2, S1. by split_and!. }
  destruct radio; cbn [negb]; [|by apply Hret].
  destruct (setup_stable BOOT_EPOCH b1 b2 b3 m n4) as (_ & S2 & S3 & S4).
  apply wp_bind. eapply wp_mono; [by apply (stable_keeps_store BOOT_EPOCH _ w1 S2)| |done].
  cbn beta. intros preset w2 [R2 E2].
  apply wp_bind. eapply wp_mono; [by apply (stable_keeps_store BOOT_EPOCH _ w2 (S3 _))| |done].
  cbn beta. intros ok w3 [R3 E3].
  apply wp_bind. eapply wp_mono; [by apply (stable_keeps_store BOOT_EPOCH _ w3 S4)| |done].
  cbn beta. intros up w4 [R4 E4]. apply Hret; [done|congruence].
Qed.

(** C29. Every boot runs under a fresh epoch: after [Mesh::init] the node's boot
    epoch is one more than the epoch stored in NVS before (by the previous boot
    or a sequence wrap), the new epoch is what NVS now holds, the sequence starts
    at zero and the replay cache is empty.  So no (epoch, sequence) pair of an
    earlier boot is reused until the 32-bit epoch wraps. *)
Theorem boot_epoch_advances b1 b2 b3 m n w b n' w' :
  ready w → mesh_init b1 b2 b3 m n w = Ok (b, n') w' →
  bootEpoch (txState n') = u32 (stored_epoch w + 1) ∧ txSeqNum (txState n') = 0 ∧
  replay n' = replay_init ∧ ready w' ∧ stored_epoch w' = bootEpoch (txState n').
Proof.
  intros R. apply (wp_Ok _ _ (λ r w', booted w r.2 w') (λ _, True)).
  unfold mesh_init. apply wp_bind.
  eapply wp_mono; [by apply stable_keeps_store; [apply (loadPersistentState_stable BOOT_EPOCH), (bool_decide_unpack _), I|]| |done].
  cbn beta. intros n1 w1 [R1 S1].
  destruct (loadBootEpoch_run w1 R1) as (w2 & El & R2 & S2).
  apply wp_bind. eapply wp_run; [exact El|].
  assert (stored_epoch w1 = stored_epoch w) as -> by (unfold stored_epoch; by rewrite S1).
  set (epoch := u32 _). apply wp_bind.
  eapply wp_mono; [by apply saveBootEpoch_wp| |done].
  cbn beta. intros [] w3 [T3 R3].
  apply boot_tail; [done| |done..].
  unfold stored_epoch. rewrite T3, stored_wrote, String.eqb_refl. done.
Qed.
End epoch.

(** * The node a boot leaves *)
Section fresh.
Context {E : Env} {C : Crypto} {Pr : Protocol} {Pn : Pin}.

(** RAM as [Mesh::init] leaves it: only the registry, the keys and the identity
    come from flash. *)
Record fresh_ram (n : Node) : Prop := {
  fr_lru : downlinkPeerLru n = [];
  fr_replay : replay n = replay_init;
  fr_tx : tx_wf (txState n);
  fr_neighbors : neighbors n = neighbors_clear;
  fr_role : isMaster n = false ∧ routes n = None;
  fr_keys : ∃ k, (0 < k)%nat ∧ e2eKeys n = keystore_of_capacity k;
  fr_peers : (count (peers n) <= MAX_PEERS)%nat
}.

Lemma node_new_fresh : fresh_ram node_new.
Proof.
  split; try done; [|cbn; lia]. exists LATTICE_E2E_KEYCACHE_MAX. split; [vm_compute; lia|done].
Qed.

(** Flash that names no peer twice gives a well-formed node. *)
Lemma fresh_ram_wf n : fresh_ram n → NoDup (p_mac <$> peerMacs (peers n)) → node_wf n.
Proof.
  intros [F1 F2 F3 F4 [F5 F6] (k & Hk & F7) F8] HN.
  destruct node_new_wf as [_ _ W3 W4 W5 _ W7 W8 _ _].
  split; rewrite ?F1, ?F2, ?F4, ?F5, ?F6, ?F7; try done.
  - apply fresh_cache_empty.
  - unfold capacity_, keystore_of_capacity. cbn. by rewrite length_replicate.
Qed.

Lemma reevaluate_fresh n : fresh_ram n → fresh_ram (reevaluateRouteTable n).
Proof.
  intros [F1 F2 F3 F4 [F5 F6] (k & Hk & F7) F8]. unfold reevaluateRouteTable, allocate_routes.
  rewrite F6, F5, F5, F7. split; try done. cbn [e2eKeys upd_e2eKeys]. unfold setCapacity.
  destruct (_ =? _)%nat; [by exists k|]. eexists. split; [|done]. vm_compute. lia.
Qed.

Lemma append_bound r p : (count r <= MAX_PEERS → count (append r p).2 <= MAX_PEERS)%nat.
Proof.
  unfold append. destruct (Nat.leb_spec MAX_PEERS (count r)); [done|].
  unfold count in *. cbn. rewrite length_app. cbn. lia.
Qed.

Lemma loadFromEEPROM_bound r w :
  wp (loadFromEEPROM r) w (λ r' _, (count r' <= MAX_PEERS)%nat) (λ _, True).
Proof.
  unfold loadFromEEPROM. apply wp_bind.
  apply (wp_mono _ _ (λ r' _, (count r' <= MAX_PEERS)%nat) _ (λ _, True)); [| |done].
  - generalize (List.seq 0 MAX_PEERS). intros l.
    assert (count (with_peers r []) <= MAX_PEERS)%nat as Hc by (cbn; lia). revert Hc.
    generalize (with_peers r []). revert w. induction l as [|i l IH]; intros w r0 Hc; [exact Hc|].
    cbn [wfold]. apply wp_bind.
    apply (wp_mono _ _ (λ r' _, (count r' <= MAX_PEERS)%nat) _ (λ _, True)); [|auto|done].
    unfold load_slot. apply wp_any. intros [[] rec] w1; cbn [negb]; [|by apply wp_ret].
    destruct (forallb _ _); apply wp_ret; [done|by apply append_bound].
  - intros r' w1 Hc. apply wp_ret. destruct (_ =? _)%nat; [|done]. revert r' Hc.
    generalize DEFAULT_PEERS. intros l. induction l as [|m l IH]; intros r' Hc; [done|].
    cbn [fold_left]. by apply IH, append_bound.
Qed.

Lemma loadPersistentState_fresh n w :
  fresh_ram n → wp (loadPersistentState n) w (λ n' _, fresh_ram n') (λ _, True).
Proof.
  intros F. unfold loadPersistentState. apply wp_bind.
  eapply wp_mono; [apply loadFromEEPROM_bound| |done]. intros ps w1 Hc. apply wp_bind.
  apply (wp_mono _ _ (λ n' _, fresh_ram n') _ (λ _, True)); [| |done].
  - unfold loadMeshKeyFromEEPROM. apply wp_any. intros [x key] w2.
    assert (∀ k, fresh_ram (upd_meshKey k (upd_peers ps n))) as Hk by (intros k; destruct F; by split).
    destruct (forallb _ _); [apply wp_any; intros [] w3|]; by apply wp_ret.
  - intros n1 w2 F1. apply wp_any. intros en w3. apply wp_ret. destruct F1. by split.
Qed.

Lemma setupRadio_fresh b m n w :
  fresh_ram n → wp (setupRadio b m n) w (λ r _, fresh_ram r.2) (λ _, True).
Proof.
  intros F. unfold setupRadio. apply wp_any. intros [] w1; cbn [negb]; [|by apply wp_ret].
  apply wp_bind. apply (wp_mono _ _ (λ n' _, fresh_ram n') _ (λ _, True)); [| |done].
  - unfold readMacAddress. destruct m as [m|]; [apply wp_ret; destruct F; by split|].
    apply wp_any. intros ? w2. by apply wp_ret.
  - intros n1 w2 F1. apply wp_ret. cbn [snd]. destruct F1. by split.
Qed.

Lemma mesh_init_fresh b1 b2 b3 m n w :
  fresh_ram n → wp (mesh_init b1 b2 b3 m n) w (λ r _, fresh_ram r.2) (λ _, True).
Proof.
  intros F. unfold mesh_init. apply wp_bind.
  eapply wp_mono; [by apply loadPersistentState_fresh| |done]. intros n1 w1 F1.
  apply wp_any. intros old w2. apply wp_any. intros [] w3. apply wp_bind.
  eapply wp_mono; [apply setupRadio_fresh| |done].
  { apply reevaluate_fresh in F1. revert F1. generalize (reevaluateRouteTable n1). intros n2 F2.
    assert (tx_wf (tx_init (txState n2) (u32 (old + 1)))) as Wt.
    { split; cbn [bootEpoch txSeqNum tx_init]; [|lia]. unfold u32, UINT32_MAX.
      pose proof (Z.mod_pos_bound (old + 1) (2 ^ 32)). lia. }
    destruct F2. by split. }
  intros [[] n2] w4 F2; cbn [negb]; [|by apply wp_ret].
  do 3 (apply wp_any; intros ? ?). by apply wp_ret.
Qed.
End fresh.

(** Two boots of a blank device on the reference platform. *)
#[local] Existing Instance documented_protocol.

Lemma boot_epoch_advances_witness :
  ∃ n1 w1 n2 w2,
    mesh_init (E := ref_env) true true true (Some (demo_mac 1)) node_new ref_world = Ok (true, n1) w1 ∧
    mesh_init (E := ref_env) true true true (Some (demo_mac 1)) node_new w1 = Ok (true, n2) w2 ∧
    bootEpoch (txState n1) = 1 ∧
    bootEpoch (txState n2) = u32 (stored_epoch (E := ref_env) w1 + 1) ∧ bootEpoch (txState n2) = 2.
Proof.
  eexists _, _, _, _. split; [vm_compute; reflexivity|]. split; [vm_compute; reflexivity|].
  split; [reflexivity|]. split; [|reflexivity].
  eapply (@boot_epoch_advances ref_env ref_env_lawful true true true (Some (demo_mac 1)) node_new);
    [by split|vm_compute; reflexivity].
Defined.
