(* ===== verification/Adapter.v ===== *)
(** The adapter base class and the factory (adapter/Adapter, adapter/AdapterFactory):
    the control opcodes every node handles, the health report and its timer, and
    the adapter type kept in NVS.

    The receive callback registered with the mesh is a parameter [callback] here,
    as it is a function pointer in the code; main.cpp's is in [Main]. *)
From S2P Require Import Prelude Config Wire Platform ErrorCore Eeprom PeerRegistry Crypto.
From S2P Require Import Enrollment Node Messenger Mesh Hardware.

(** The fields of [Adapter]; [mesh_transmit_fn] is either null or [Mesh::transmit]. *)
Record Adapter := AdapterBase {
  a_pin : Z;
  adapterType : Z;
  mesh_transmit_fn : bool;
  lastHealthMillis : Z
}.

Definition adapter_new (pin type : Z) : Adapter := AdapterBase pin type false 0.
Definition setTransmitFn (a : Adapter) : Adapter :=
  AdapterBase (a_pin a) (adapterType a) true (lastHealthMillis a).
Definition resetHealthTick (now : Z) (a : Adapter) : Adapter :=
  AdapterBase (a_pin a) (adapterType a) (mesh_transmit_fn a) now.

Definition healthTickDue (now : Z) (a : Adapter) : bool * Adapter :=
  if HEALTH_REPORT_INTERVAL_MS <=? now -64 lastHealthMillis a then (true, resetHealthTick now a)
  else (false, a).

(** The objects an adapter's handlers reach besides the adapter: the mesh node,
    the green LED of the receive callback, and [AdapterFactory::isDevMode_]. *)
Record Board := OnBoard {
  board_node : Node;
  board_green : Led;
  isDevMode_ : bool
}.
Definition with_node (n : Node) (b : Board) : Board := OnBoard n (board_green b) (isDevMode_ b).

(** ** AdapterFactory: the stored type *)
Definition PIR_ADAPTER_DEFAULT_PIN : Z := 27.
Definition SERIAL_ADAPTER_DEFAULT_PIN : Z := 255.

Definition adapterTypeFromEEPROM (raw : Z) : Z := if raw =? 0xFF then PIR_ADAPTER else raw.
Definition adapterTypeToEEPROM (type : Z) : Z := u8 type.

Definition getDefaultPinForAdapter (type : Z) : Z :=
  if type =? PIR_ADAPTER then PIR_ADAPTER_DEFAULT_PIN
  else if type =? SERIAL_ADAPTER then SERIAL_ADAPTER_DEFAULT_PIN
  else PIR_ADAPTER_DEFAULT_PIN.

Section Factory.
Context {E : Env}.

Definition loadAdapterTypeFromEEPROM (dev : bool) : W Z :=
  if dev then wret PIR_ADAPTER
  else raw <- loadAdapterType ;; wret (adapterTypeFromEEPROM raw).

Definition saveAdapterTypeToEEPROM (dev : bool) (type : Z) : W unit :=
  if dev then wret tt else saveAdapterType (adapterTypeToEEPROM type).

(** [createAdapter]; [None] is the null pointer. *)
Definition createAdapter (type pin : Z) : W (option Adapter) :=
  if type =? PIR_ADAPTER then wret (Some (adapter_new pin PIR_ADAPTER))
  else if type =? SERIAL_ADAPTER then wret (Some (adapter_new pin SERIAL_ADAPTER))
  else fail E_CONFIG M_ADAPTER 2 ;;; wret None.

Definition createFromEEPROM (dev : bool) : W (option Adapter) :=
  type <- loadAdapterTypeFromEEPROM dev ;;
  createAdapter type (getDefaultPinForAdapter type).

Definition initializeDefaultsIfUnset (dev : bool) : W unit :=
  if dev then wret tt
  else
    currentType <- loadAdapterType ;;
    if currentType =? adapterTypeToEEPROM UNKNOWN_ADAPTER
    then saveAdapterType (adapterTypeToEEPROM DEFAULT_ADAPTER)
    else wret tt.
End Factory.

(** * Handlers *)
(** The frames handed to the receive callback between two worlds, oldest first. *)
Definition new_deliveries (w w' : world) : list mesh_message :=
  reverse (delivered (take (length (w_trace w') - length (w_trace w)) (w_trace w'))).

(** A mesh operation that ends by handing frames to the receive callback. *)
Definition with_callback (callback : mesh_message → Board → W Board) (c : Node → W Node) (b : Board)
    : W Board := λ w,
  match c (board_node b) w with
  | Ok n' w' => wfold callback (new_deliveries w w') (with_node n' b) w'
  | Halt w' => Halt w'
  end.

Section Adapter.
Context {E : Env} {C : Crypto} {Pr : Protocol} {Pn : Pin}.
Context (callback : mesh_message → Board → W Board).

Definition on_node (c : Node → W Node) (b : Board) : W Board :=
  n <- c (board_node b) ;; wret (with_node n b).

Definition sendDataThroughMesh (a : Adapter) (type : Z) (payload : bytes) (b : Board) : W Board :=
  if mesh_transmit_fn a then on_node (transmit type (Some payload)) b
  else fail E_CONFIG M_ADAPTER 1 ;;; wret b.

(** [isTargetedAtSelf]; [readOwnMac] is the cached station MAC, which is the
    node's [deviceMacAddress]. *)
Definition isTargetedAtSelf (candidateMac : mac) (b : Board) : bool :=
  forallb (λ x, x =? 0xFF) (take 6 candidateMac)
  || mac_eq (take 6 candidateMac) (deviceMacAddress (board_node b)).

(** The frame [buildHealthFrame] fills: opcode, type, MAC, uptime in seconds,
    zeros.  A buffer shorter than 12 bytes is left as it is. *)
Definition buildHealthFrame (opcode : Z) (buf : bytes) (a : Adapter) (b : Board) : W bytes :=
  if (length buf <? 12)%nat then wret buf
  else
    us <- esp_timer_get_time ;;
    let uptimeSec := u32 (u64 us / 1000000) in
    wret (splice 0 ([opcode; adapterTypeToEEPROM (adapterType a)]
                    ++ take 6 (deviceMacAddress (board_node b))
                    ++ [u8 (Z.land uptimeSec 0xFF); u8 (Z.land (Z.shiftr uptimeSec 8) 0xFF);
                        u8 (Z.land (Z.shiftr uptimeSec 16) 0xFF);
                        u8 (Z.land (Z.shiftr uptimeSec 24) 0xFF)])
            (zeros (length buf))).

Definition sendSelfHealthReport (a : Adapter) (b : Board) : W Board :=
  payload <- buildHealthFrame OP_HEALTH_REPORT (zeros 64) a b ;;
  with_callback callback (transmitSelfOriginated SERIAL_ADAPTER (Some payload)) b.

Definition ControlOpFn : Type := Adapter → mesh_message → bool → Board → W Board.

Definition opConfigSet : ControlOpFn := λ a message _ b,
  if negb (isTargetedAtSelf (slice 1 6 (data message)) b) then wret b
  else
    let newType := adapterTypeFromEEPROM (nth 7 (data message) 0) in
    saveAdapterTypeToEEPROM (isDevMode_ b) newType ;;;
    esp_restart.

Definition opNodeIdSet : ControlOpFn := λ a message _ b,
  if negb (isTargetedAtSelf (slice 1 6 (data message)) b) then wret b
  else saveNodeId (nth 7 (data message) 0) ;;; wret b.

Definition opHealthReq : ControlOpFn := λ a message _ b,
  if negb (adapterType a =? SERIAL_ADAPTER) then wret b else sendSelfHealthReport a b.

Definition opTxPowerSet : ControlOpFn := λ a message rebroadcastOnMaster b,
  if negb (adapterType a =? SERIAL_ADAPTER) then wret b
  else
    let presetByte := nth 1 (data message) 0 in
    if 2 <? presetByte then wret b
    else
      saveTxPowerPreset presetByte ;;;
      esp_wifi_set_max_tx_power (default 0 (TX_POWER_VALUES !! Z.to_nat presetByte)) ;;;
      if negb rebroadcastOnMaster then wret b
      else if isMaster (board_node b) then
        let fwdData := splice 0 [OP_TX_POWER_SET; presetByte] (zeros 64) in
        on_node (broadcastAdapterData SERIAL_ADAPTER (Some fwdData) false) b
      else wret b.

Definition kControlOps : list (Z * ControlOpFn) :=
  [(OP_CONFIG_SET, opConfigSet); (OP_NODE_ID_SET, opNodeIdSet);
   (OP_HEALTH_REQ, opHealthReq); (OP_TX_POWER_SET, opTxPowerSet)].

(** The table lookup of [dispatchControlOp]. *)
Fixpoint find_op (op : Z) (table : list (Z * ControlOpFn)) : option ControlOpFn :=
  match table with
  | [] => None
  | (opcode, handler) :: table' => if opcode =? op then Some handler else find_op op table'
  end.

Definition dispatchControlOp (a : Adapter) (message : mesh_message) (rebroadcastOnMaster : bool)
    (b : Board) : W (bool * Board) :=
  match find_op (nth 0 (data message) 0) kControlOps with
  | Some handler => b' <- handler a message rebroadcastOnMaster b ;; wret (true, b')
  | None => wret (false, b)
  end.

(** [onMeshData]; [onMeshDataImpl] is the subclass's override. *)
Definition onMeshData (onMeshDataImpl : mesh_message → Board → W Board) (a : Adapter)
    (message : mesh_message) (b : Board) : W Board :=
  let dispatch_impl (b : Board) :=
    if negb (adapterType a =? SERIAL_ADAPTER) && negb (data_type message =? adapterType a)
    then wret b else onMeshDataImpl message b in
  if data_type message =? SERIAL_ADAPTER then
    let* (_, b1) := dispatchControlOp a message false b in
    if negb (adapterType a =? SERIAL_ADAPTER) then wret b1 else dispatch_impl b1
  else dispatch_impl b.
End Adapter.

(** * Properties *)
Section Factory.
Context {E : Env} {L : NvsLawful E}.
Abbreviation stored w := (nvs_store nvs_initial (w_trace w)).

Lemma createFromEEPROM_run (dev : bool) w :
  isInitialized (w_eeprom w) = true →
  let type := if dev then PIR_ADAPTER else adapterTypeFromEEPROM (u8_of (stored w ADAPTER_TYPE) 0) in
  ∃ w', createFromEEPROM dev w =
        Ok (if (type =? PIR_ADAPTER) || (type =? SERIAL_ADAPTER)
            then Some (adapter_new (getDefaultPinForAdapter type) type) else None) w' ∧
        w_eeprom w' = w_eeprom w ∧ ∀ k, stored w' k = stored w k.
Proof.
  intros Hi. cbv zeta. unfold createFromEEPROM.
  assert (∃ w1, loadAdapterTypeFromEEPROM dev w
    = Ok (if dev then PIR_ADAPTER else adapterTypeFromEEPROM (u8_of (stored w ADAPTER_TYPE) 0)) w1 ∧
    w_eeprom w1 = w_eeprom w ∧ ∀ k, stored w1 k = stored w k) as (w1 & E1 & He1 & Hs1).
  { unfold loadAdapterTypeFromEEPROM. destruct dev; [by exists w|].
    unfold wbind, loadAdapterType. rewrite load_u8_run by done. by eexists. }
  unfold wbind. rewrite E1. unfold createAdapter.
  set (type := if dev then _ else _). clearbody type.
  destruct (Z.eqb_spec type PIR_ADAPTER) as [->|]; [by exists w1|].
  destruct (Z.eqb_spec type SERIAL_ADAPTER) as [->|]; [by exists w1|]. cbn [orb].
  unfold wbind. destruct (fail_run E_CONFIG M_ADAPTER 2 w1) as [w2 E2]. cbn in E2.
  pose proof (fail_eeprom E_CONFIG M_ADAPTER 2 w1) as He. rewrite E2 in He |- *.
  exists w2. split; [done|]. split; [congruence|]. intros k. rewrite <- Hs1.
  pose proof (fail_emits is_error_event ltac:(done) E_CONFIG M_ADAPTER 2) as Hem.
  destruct (emits_Ok _ _ _ _ _ Hem E2) as (evs & -> & HF). by apply error_events_store.
Qed.

(** Opcodes that name a stored adapter type the factory can build. *)
Definition configurable (raw : Z) : Prop := raw ∈ [SERIAL_ADAPTER; PIR_ADAPTER; 0xFF].

Lemma config_set_stored `{Crypto} a msg rebroadcast b w :
  ready w → isDevMode_ b = false →
  isTargetedAtSelf (slice 1 6 (data msg)) b = true → configurable (nth 7 (data msg) 0) →
  let type := adapterTypeFromEEPROM (nth 7 (data msg) 0) in
  ∃ w' tr, opConfigSet a msg rebroadcast b w = Halt w' ∧ w_trace w' = EvRestart :: tr ∧
    (nvs_write_fault E ∨
     ∀ w2, isInitialized (w_eeprom w2) = true → stored w2 ADAPTER_TYPE = stored w' ADAPTER_TYPE →
       ∃ w3, createFromEEPROM false w2
             = Ok (Some (adapter_new (getDefaultPinForAdapter type) type)) w3).
Proof.
  intros R Hdev Ht Hraw type. unfold opConfigSet. rewrite Ht. cbn [negb]. rewrite Hdev.
  unfold saveAdapterTypeToEEPROM, saveAdapterType. fold type.
  destruct (save_u8_run ADAPTER_TYPE (adapterTypeToEEPROM type) w R) as (w1 & E1 & _ & _ & _ & HS).
  unfold wbind at 1. rewrite E1. unfold esp_restart, wbind, emit, whalt.
  eexists _, _. split; [done|]. split; [done|]. destruct HS as [HS|[_ HS]]; [right|by left].
  intros w2 I2 H2. destruct (createFromEEPROM_run false w2 I2) as (w3 & E3 & _).
  exists w3. rewrite E3. cbn [w_trace nvs_store] in H2. rewrite H2, HS. cbn [u8_of].
  unfold type, configurable in *. clear -Hraw. set_unfold. destruct_or! Hraw; by rewrite Hraw.
Qed.

(** A configuration command takes effect: a node it is addressed to (by MAC or by
    the broadcast placeholder) stores the adapter type and restarts at once, and
    whatever happens in between, the next boot that finds the stored byte creates
    the adapter of the commanded type on that type's pin.  Only a failing NVS
    write can prevent it. *)
Theorem config_set_applies `{Crypto} a msg rebroadcast b w :
  ready w → isDevMode_ b = false →
  isTargetedAtSelf (slice 1 6 (data msg)) b = true → configurable (nth 7 (data msg) 0) →
  let type := adapterTypeFromEEPROM (nth 7 (data msg) 0) in
  ∃ w' tr, opConfigSet a msg rebroadcast b w = Halt w' ∧ w_trace w' = EvRestart :: tr ∧
    (nvs_write_fault E ∨
     ∀ w2, isInitialized (w_eeprom w2) = true → stored w2 ADAPTER_TYPE = stored w' ADAPTER_TYPE →
       ∃ w3, createFromEEPROM false w2
             = Ok (Some (adapter_new (getDefaultPinForAdapter type) type)) w3).
Proof. apply config_set_stored. Qed.
End Factory.

(** ** The health report *)
Section Health.
Context {E : Env} {C : Crypto}.

(** The health frame carries what docs/server_requirements.md section 5 lays out:
    opcode, adapter type, the node's MAC, and the uptime in seconds as a 32-bit
    little-endian number; the rest is zero. *)
Theorem health_frame_fields opcode a b w :
  length (deviceMacAddress (board_node b)) = 6%nat →
  ∃ buf w', buildHealthFrame opcode (zeros 64) a b w = Ok buf w' ∧
    length buf = 64%nat ∧ nth 0 buf 0 = opcode ∧ nth 1 buf 0 = u8 (adapterType a) ∧
    slice 2 6 buf = deviceMacAddress (board_node b) ∧
    le_value (slice 8 4 buf) = u32 (u64 (env_timer (w_trace w)) / 1000000) ∧
    drop 12 buf = zeros 52.
Proof.
  intros Hm. unfold buildHealthFrame.
  assert ((length (zeros 64) <? 12)%nat = false) as -> by done.
  unfold esp_timer_get_time, wbind, ask, emit, wret. eexists _, _. split; [done|].
  set (up := u32 _). assert (0 <= up < 2 ^ 32) as Hup by (apply Z.mod_pos_bound; lia).
  destruct (deviceMacAddress (board_node b)) as [|m0 [|m1 [|m2 [|m3 [|m4 [|m5 [|]]]]]]]; try done.
  split_and!; try done. unfold slice. cbn [take drop app splice zeros replicate le_value].
  unfold adapterTypeToEEPROM, u8. change 0xFF with (Z.ones 8).
  rewrite !Z.land_ones, !Z.shiftr_div_pow2 by lia.
  change (2 ^ 8) with 256. rewrite !Z.mod_mod by lia.
  change (2 ^ 16) with (256 * 256). change (2 ^ 24) with (256 * 256 * 256).
  rewrite <- !Z.div_div by lia. clearbody up.
  pose proof (Z.div_mod up 256 ltac:(lia)). pose proof (Z.div_mod (up / 256) 256 ltac:(lia)).
  pose proof (Z.div_mod (up / 256 / 256) 256 ltac:(lia)).
  rewrite (Z.mod_small (up / 256 / 256 / 256)).
  { unfold splice. cbn -[Z.mul Z.add Z.modulo Z.div]. lia. }
  rewrite !Z.div_div by lia. split; [by apply Z.div_pos; lia|]. apply Z.div_lt_upper_bound; lia.
Qed.
End Health.

(** ** Control operations from the mesh *)
Section Control.
Context {E : Env} {C : Crypto} {Pr : Protocol} {Pn : Pin}.

(** A control opcode received from the mesh never puts a frame on the air - in
    particular a transmit-power change is not broadcast again, so it cannot loop -
    except for the health report a serial-attached master answers a health request
    with. *)
Theorem mesh_control_silent callback a msg b :
  adapterType a ≠ SERIAL_ADAPTER ∨ nth 0 (data msg) 0 ≠ OP_HEALTH_REQ →
  emits no_send (dispatchControlOp callback a msg false b).
Proof.
  intros Hor. pose proof (fail_emits no_send no_send_error) as Hfail.
  pose proof (save_u8_emits no_send no_send_nvs) as Hsave.
  pose proof (saveNodeId_emits no_send no_send_nvs) as Hid.
  unfold dispatchControlOp, kControlOps. cbn [find_op].
  destruct (Z.eqb_spec OP_CONFIG_SET (nth 0 (data msg) 0)).
  { unfold opConfigSet, saveAdapterTypeToEEPROM, saveAdapterType, esp_restart. solve_emits. }
  destruct (Z.eqb_spec OP_NODE_ID_SET (nth 0 (data msg) 0)).
  { unfold opNodeIdSet. solve_emits. }
  destruct (Z.eqb_spec OP_HEALTH_REQ (nth 0 (data msg) 0)).
  { unfold opHealthReq. destruct Hor as [Hne|Hne]; [|congruence].
    rewrite (proj2 (Z.eqb_neq _ _) Hne). cbn [negb]. solve_emits. }
  destruct (Z.eqb_spec OP_TX_POWER_SET (nth 0 (data msg) 0)); [|solve_emits].
  unfold opTxPowerSet, saveTxPowerPreset, esp_wifi_set_max_tx_power. cbn [negb]. solve_emits.
Qed.
End Control.

(** * Witnesses *)
#[local] Existing Instance documented_protocol.

Definition demo_board (n : Node) : Board := OnBoard n (led_new GREEN_LED_PIN) false.
Definition demo_control (op arg7 : Z) : mesh_message :=
  MeshMessage PROTO_VERSION 0 SERIAL_ADAPTER (demo_mac 7) (demo_mac 1) (demo_mac 7)
    (op :: BROADCAST_MAC ++ [arg7] ++ zeros 56) 0 2 5 (zeros 32) 0 (zeros 48) (zeros 16) (zeros 8).

Lemma config_set_applies_witness :
  ∃ w' tr, opConfigSet (E := ref_env) (adapter_new 27 PIR_ADAPTER) (demo_control 0xC1 1) false
             (demo_board demo_leaf_node) ref_world = Halt w' ∧ w_trace w' = EvRestart :: tr ∧
    (nvs_write_fault ref_env ∨
     ∀ w2, isInitialized (w_eeprom w2) = true →
       nvs_store (nvs_initial (E := ref_env)) (w_trace w2) ADAPTER_TYPE =
         nvs_store (nvs_initial (E := ref_env)) (w_trace w') ADAPTER_TYPE →
       ∃ w3, createFromEEPROM (E := ref_env) false w2 = Ok (Some (adapter_new 255 SERIAL_ADAPTER)) w3).
Proof.
  apply (@config_set_applies ref_env ref_env_lawful toy_crypto (adapter_new 27 PIR_ADAPTER)
    (demo_control 0xC1 1) false (demo_board demo_leaf_node) ref_world).
  - by split.
  - reflexivity.
  - reflexivity.
  - unfold configurable. cbn. set_unfold. auto.
Defined.

Lemma health_frame_fields_witness :
  ∃ buf w', buildHealthFrame (E := ref_env) 0xB2 (zeros 64) (adapter_new 27 PIR_ADAPTER)
              (demo_board demo_leaf_node) ref_world = Ok buf w' ∧
    length buf = 64%nat ∧ nth 0 buf 0 = 0xB2 ∧ nth 1 buf 0 = u8 PIR_ADAPTER ∧
    slice 2 6 buf = demo_mac 1 ∧
    le_value (slice 8 4 buf) = u32 (u64 (env_timer (Env := ref_env) (w_trace ref_world)) / 1000000) ∧
    drop 12 buf = zeros 52.
Proof.
  apply (@health_frame_fields ref_env 0xB2 (adapter_new 27 PIR_ADAPTER)
    (demo_board demo_leaf_node) ref_world). reflexivity.
Defined.

Lemma mesh_control_silent_witness :
  nth 0 (data (demo_control 0xC2 0)) 0 ≠ OP_HEALTH_REQ ∧
  emits no_send (dispatchControlOp (E := ref_env) (C := toy_crypto) (λ _ b, wret b)
    (adapter_new 255 SERIAL_ADAPTER) (demo_control 0xC2 0) false (demo_board demo_master_node)).
Proof.
  split; [done|]. apply (@mesh_control_silent ref_env toy_crypto documented_protocol). by right.
Defined.
