(* ===== verification/SerialAdapter.v ===== *)
(** The serial adapter (adapter/serial/SerialAdapter): the master's link to the
    server.  Frames from the mesh go out length-prefixed on the UART; bytes that
    come in are cut into frames, and a frame is a server command.

    The simulation opcodes ([SIMULATE_MODE]) are compiled out of the firmware and
    not modelled. *)
From S2P Require Import Prelude Config Nanopb Wire Platform ErrorCore SerialFraming Eeprom.
From S2P Require Import PeerRegistry Crypto Enrollment Node Messenger Mesh Hardware Adapter.

Record SerialAdapter := Serial {
  s_base : Adapter;
  framing : SerialFraming;
  lastReportedHopCount : Z
}.

Definition serial_new (pin : Z) : SerialAdapter :=
  Serial (adapter_new pin SERIAL_ADAPTER) framing_new 0.
Definition with_base (a : Adapter) (s : SerialAdapter) : SerialAdapter :=
  Serial a (framing s) (lastReportedHopCount s).
Definition with_framing (f : SerialFraming) (s : SerialAdapter) : SerialAdapter :=
  Serial (s_base s) f (lastReportedHopCount s).

Section Serial.
Context {E : Env} {C : Crypto} {Pr : Protocol} {Pn : Pin}.

(** The two [uart_write_bytes] calls for an encoding of [n] bytes. *)
Definition write_frame (encoded : bytes) : W unit :=
  uart_write_bytes (length_prefix (length encoded)) ;;; uart_write_bytes encoded.

Definition onMeshDataImpl_serial (message : mesh_message) (b : Board) : W Board :=
  let encoded := encode message 256 in
  if (length encoded =? 0)%nat then fail E_COMM M_ADAPTER 4 ;;; wret b
  else write_frame encoded ;;; wret b.

(** The message [relayEnrollmentToServer] builds. *)
Definition enrollment_relay (m : mac) (pubKey : bytes) : mesh_message :=
  let z := mesh_message_zero in
  {| proto_version := PROTO_VERSION;
     message_type := MESH_TYPE_ENROLLMENT;
     data_type := data_type z;
     origin_mac_address := take 6 m;
     target_mac_address := target_mac_address z;
     last_hop_mac_address := last_hop_mac_address z;
     data := data z;
     hop_count := hop_count z;
     epoch_num := epoch_num z;
     seq_num := seq_num z;
     enrollment_public_key := take 32 pubKey;
     route_len := route_len z;
     route_path := route_path z;
     auth_tag := auth_tag z;
     auth_path := auth_path z |}.

Definition relayEnrollmentToServer (m : mac) (pubKey : bytes) : W unit :=
  let encoded := encode (enrollment_relay m pubKey) 128 in
  if (length encoded =? 0)%nat then wret tt else write_frame encoded.

Section Handlers.
Context (callback : mesh_message → Board → W Board).

(** The JOIN_ACK case: the server approved (a key is present) or rejected. *)
Definition serial_join_ack (msg : mesh_message) (b : Board) : W Board :=
  if is_zero (take 32 (enrollment_public_key msg)) then wret b
  else
    let secondaryMasterMac := slice 4 6 (data msg) in
    let secondaryPublicKey := slice 10 32 (data msg) in
    if negb (is_zero secondaryMasterMac)
    then on_node (enrollPeer (target_mac_address msg) (Some secondaryMasterMac)
                    (Some secondaryPublicKey)) b
    else on_node (enrollPeer (target_mac_address msg) None None) b.

(** The forwarding of adapter data and commands, by message type. *)
Definition serial_forward (a : Adapter) (msg : mesh_message) (b : Board) : W Board :=
  if message_type msg =? MESH_TYPE_ADAPTER_DATA then
    if mesh_transmit_fn a then on_node (transmit (data_type msg) (Some (data msg))) b
    else fail E_CONFIG M_ADAPTER 6 ;;; wret b
  else if message_type msg =? MESH_TYPE_SERIAL_CMD_BROADCAST then
    if mac_eq (target_mac_address msg) BROADCAST_MAC
    then on_node (broadcastAdapterData (data_type msg) (Some (data msg)) false) b
    else on_node (sendDownlinkToNode (slice 1 6 (data msg)) (data_type msg) (Some (data msg))) b
  else wret b.

Definition handleCompleteFrame (frame : bytes) (a : Adapter) (b : Board) : W Board :=
  match decode (deviceMacAddress (board_node b)) frame with
  | None => fail E_COMM M_ADAPTER 5 ;;; wret b
  | Some msg =>
      if message_type msg =? MESH_TYPE_JOIN_ACK then serial_join_ack msg b
      else
        b1 <- serial_forward a msg b ;;
        if data_type msg =? SERIAL_ADAPTER then
          let* (_, b2) := dispatchControlOp callback a msg true b1 in wret b2
        else wret b1
  end.

(** The receive loop over the bytes [uart_read_bytes] returned. *)
Definition serial_receive (rx : bytes) (sa : SerialAdapter) (b : Board) : W (SerialAdapter * Board) :=
  let* (f, b') := receive (λ frame, handleCompleteFrame frame (s_base sa)) rx (framing sa, b) in
  wret (with_framing f sa, b').

(** [rx]: what the UART hands over until a read returns nothing. *)
Definition serial_loop (rx : bytes) (sa : SerialAdapter) (b : Board) : W (SerialAdapter * Board) :=
  let currentHopCount := getHopCount (board_node b) in
  let stateChanged := negb (currentHopCount =? lastReportedHopCount sa) in
  now <- now_ms ;;
  let (intervalDue, a1) := healthTickDue now (s_base sa) in
  let* (sa1, b1) :=
    (if stateChanged || intervalDue then
       let a2 := if intervalDue then a1 else resetHealthTick now a1 in
       b' <- sendSelfHealthReport callback a2 b ;;
       wret (Serial a2 (framing sa) currentHopCount, b')
     else wret (with_base a1 sa, b)) in
  serial_receive rx sa1 b1.
End Handlers.
End Serial.

(** * The link to the server *)
(** The bytes of a frame on the line. *)
Definition on_line (p : bytes) : bytes := length_prefix (length p) ++ p.

Section Link.
Context {E : Env} {C : Crypto} {Pr : Protocol} {Pn : Pin}.

Lemma serial_out msg b w :
  wf_message msg →
  ∃ w', onMeshDataImpl_serial msg b w = Ok b w' ∧
        uart_sent (w_trace w') = uart_sent (w_trace w) ++ on_line (wire_form msg) ∧
        w_eeprom w' = w_eeprom w.
Proof.
  intros W. unfold onMeshDataImpl_serial. rewrite encode_256 by done.
  pose proof (wire_form_fits msg W) as [Hpos _].
  destruct (Nat.eqb_spec (length (wire_form msg)) 0); [lia|].
  eexists. split; [done|]. split; [|done]. cbn [w_trace uart_sent].
  by rewrite <- app_assoc.
Qed.

Lemma serial_out_all msgs b w :
  Forall wf_message msgs →
  ∃ w', wfold onMeshDataImpl_serial msgs b w = Ok b w' ∧
        uart_sent (w_trace w') =
          uart_sent (w_trace w) ++ concat (on_line <$> (wire_form <$> msgs)).
Proof.
  intros HW. revert w. induction HW as [|msg msgs W HW IH]; intros w.
  { exists w. split; [done|]. by rewrite app_nil_r. }
  destruct (serial_out msg b w W) as (w1 & E1 & H1 & _). destruct (IH w1) as (w2 & E2 & H2).
  exists w2. cbn [wfold]. unfold wbind. rewrite E1. split; [done|].
  by rewrite H2, H1, <- app_assoc.
Qed.


(** ** The enrollment relay *)
Lemma enrollment_relay_wf m k :
  0 <= MESH_TYPE_ENROLLMENT < 256 → is_bytes 6 m → is_bytes 32 k → wf_message (enrollment_relay m k).
Proof.
  intros Ht [Hm Bm] [Hk Bk]. destruct mesh_message_zero_wf.
  unfold enrollment_relay. split; cbn [proto_version message_type data_type origin_mac_address
    target_mac_address last_hop_mac_address data hop_count epoch_num seq_num enrollment_public_key
    route_len route_path auth_tag auth_path]; try done.
  - rewrite take_ge by lia. by split.
  - rewrite take_ge by lia. by split.
Qed.

(** An enrollment request always reaches the server: for every device MAC and
    public key the relayed message fits the 128-byte buffer, so it is written, and
    it carries that MAC as origin and that key. *)
Theorem enrollment_relay_fits m k w :
  0 <= MESH_TYPE_ENROLLMENT < 128 → is_bytes 6 m → is_bytes 32 k →
  ∃ w' payload, relayEnrollmentToServer m k w = Ok tt w' ∧
    uart_sent (w_trace w') = uart_sent (w_trace w) ++ on_line payload ∧
    (0 < length payload <= 128)%nat ∧
    (slots ← pb_decode mesh_MeshMessage_msg payload; p ← of_slots slots;
     Some (pb_messageType p, pb_originMacAddress p, pb_public_key p)) =
    Some (MESH_TYPE_ENROLLMENT, m, if is_zero k then absent_bytes 32 else present_bytes k).
Proof.
  intros Ht Hm Hk. set (msg := enrollment_relay m k).
  assert (wf_message msg) as W by (apply enrollment_relay_wf; [lia|done|done]).
  pose proof (wire_form_length msg 1 1 1 1 1 1 W ltac:(lia) ltac:(lia) ltac:(lia) ltac:(lia)
    ltac:(lia) ltac:(lia)) as HL.
  assert (length (wire_form msg) <= 128)%nat as H128.
  { change (128 ^ Z.of_nat 1) with 128 in HL. cbn [msg enrollment_relay message_type data_type
      hop_count epoch_num seq_num proto_version mesh_message_zero] in HL.
    change (zigzag 0) with 0 in HL.
    specialize (HL ltac:(lia) ltac:(lia) ltac:(lia) ltac:(lia) ltac:(lia) ltac:(done)).
    pose proof (number_cost_le MESH_TYPE_ENROLLMENT 1). cbn in HL |- *. lia. }
  pose proof (wire_form_fits msg W) as [Hpos _].
  unfold relayEnrollmentToServer. fold msg. rewrite encode_run by done.
  rewrite (proj2 (Nat.leb_le _ _) H128).
  destruct (Nat.eqb_spec (length (wire_form msg)) 0); [lia|].
  eexists _, (wire_form msg). split; [done|]. split; [by cbn [w_trace uart_sent]; rewrite <- app_assoc|].
  split; [lia|]. rewrite pb_decode_wire_form by done. cbn [mbind option_bind].
  unfold slots_of, of_slots, pb_of_message. cbv zeta.
  cbn [mbind option_bind pb_messageType pb_originMacAddress pb_public_key].
  destruct Hm as [Hm _], Hk as [Hk _]. cbn [msg enrollment_relay message_type origin_mac_address
    enrollment_public_key]. unfold carries_key. rewrite Z.eqb_refl. cbn [orb andb].
  rewrite !(take_ge m), !(take_ge k) by (rewrite ?length_take; lia).
  by destruct (is_zero k).
Qed.
End Link.

(** * Witnesses *)
#[local] Existing Instance documented_protocol.

Lemma demo_control_wf op arg7 : is_byte op → is_byte arg7 → wf_message (demo_control op arg7).
Proof.
  intros Hop Ha. assert (wf_message (demo_control 0 0)) as W.
  { apply wf_messageb_spec. vm_compute. reflexivity. }
  destruct W as [? ? ? ? ? ? [_ Hd] ? ? ? ? ? ? ? ?]. split; try done.
  split; [done|]. cbn [data demo_control app] in Hd |- *.
  apply Forall_cons in Hd as [_ Hd]. apply Forall_cons_2; [done|].
  cbn [BROADCAST_MAC app] in Hd |- *.
  do 6 (apply Forall_cons in Hd as [? Hd]; apply Forall_cons_2; [done|]).
  apply Forall_cons in Hd as [_ Hd]. by apply Forall_cons_2.
Qed.


Lemma enrollment_relay_fits_witness :
  ∃ w' payload, relayEnrollmentToServer (demo_mac 1) (replicate 32 3) ref_world = Ok tt w' ∧
    uart_sent (w_trace w') = uart_sent (w_trace ref_world) ++ on_line payload ∧
    (0 < length payload <= 128)%nat ∧
    (slots ← pb_decode mesh_MeshMessage_msg payload; p ← of_slots slots;
     Some (pb_messageType p, pb_originMacAddress p, pb_public_key p)) =
    Some (MESH_TYPE_ENROLLMENT, demo_mac 1, present_bytes (replicate 32 3)).
Proof.
  apply (@enrollment_relay_fits documented_protocol (demo_mac 1) (replicate 32 3) ref_world).
  - cbn. lia.
  - split; [done|]. apply Forall_forall. intros x Hx. unfold is_byte. cbn in Hx. set_unfold. lia.
  - split; [done|]. apply Forall_replicate. unfold is_byte. lia.
Defined.
