(* ===== verification/PirAdapter.v ===== *)
(** The PIR adapter (adapter/pir/PirAdapter): a motion interrupt, one report per
    motion, and a cooldown during which the interrupt stays detached. *)
From S2P Require Import Prelude Config Wire Platform ErrorCore Eeprom Transport Crypto Enrollment Node.
From S2P Require Import Messenger Mesh Hardware Adapter.

Inductive PirState := IDLE | PENDING_SEND | COOLDOWN.

#[export] Instance PirState_eq_dec : EqDecision PirState.
Proof. solve_decision. Defined.

(** [instance], the pointer the trampolines go through, is the adapter itself from
    [init] on. *)
Record PirAdapter := PirAdapterState {
  p_base : Adapter;
  p_pir : Pir;
  lastTrigger : Z;
  p_state : PirState;
  interruptEnabled : bool;
  p_initialized : bool
}.

Definition _cooldownSeconds : Z := 3.

Definition pir_adapter_new (pin : Z) : PirAdapter :=
  PirAdapterState (adapter_new pin PIR_ADAPTER) (pir_new pin) 0 IDLE false false.

Definition with_pir (x : Pir) (p : PirAdapter) : PirAdapter :=
  PirAdapterState (p_base p) x (lastTrigger p) (p_state p) (interruptEnabled p) (p_initialized p).
Definition with_state (s : PirState) (p : PirAdapter) : PirAdapter :=
  PirAdapterState (p_base p) (p_pir p) (lastTrigger p) s (interruptEnabled p) (p_initialized p).
Definition with_enabled (v : bool) (p : PirAdapter) : PirAdapter :=
  PirAdapterState (p_base p) (p_pir p) (lastTrigger p) (p_state p) v (p_initialized p).
Definition with_pir_base (a : Adapter) (p : PirAdapter) : PirAdapter :=
  PirAdapterState a (p_pir p) (lastTrigger p) (p_state p) (interruptEnabled p) (p_initialized p).

Section Pir.
Context {E : Env} {C : Crypto} {Pr : Protocol}.

Definition pir_adapter_init (p : PirAdapter) : W (bool * PirAdapter) :=
  if p_initialized p then wret (true, p)
  else
    let (ok, x) := pir_init (p_pir p) in
    if negb ok then fail E_CONFIG M_ADAPTER 1 ;;; wret (false, with_pir x p)
    else
      let* (attached, x1) := attachInterrupt kEdgeRising x in
      if negb attached then fail E_CONFIG M_ADAPTER 2 ;;; wret (false, with_pir x1 p)
      else wret (true, PirAdapterState (p_base p) x1 (lastTrigger p) (p_state p) true true).

(** [detectMotion], the interrupt's callback. *)
Definition detectMotion (p : PirAdapter) : W PirAdapter :=
  if negb (interruptEnabled p) then wret p
  else
    x <- detachInterrupt (signalMotion (p_pir p)) ;;
    wret (with_enabled false (with_pir x p)).

Definition sendNodeHealth (p : PirAdapter) (b : Board) : W Board :=
  payload <- buildHealthFrame OP_NODE_HEALTH (zeros 64) (p_base p) b ;;
  sendDataThroughMesh (p_base p) SERIAL_ADAPTER payload b.

(** The motion part of [loop]: is a report to be sent, and the state after it. *)
Definition pir_check (now : Z) (p : PirAdapter) : PirAdapter :=
  if motionDetected (p_pir p)
  then PirAdapterState (p_base p) (clearMotion (p_pir p)) now PENDING_SEND
         (interruptEnabled p) (p_initialized p)
  else p.
Definition pir_trigger (now : Z) (p : PirAdapter) : bool * PirAdapter :=
  let p1 := pir_check now p in
  if decide (p_state p1 = PENDING_SEND) then (true, with_state COOLDOWN p1) else (false, p1).

Definition cooled_down (now : Z) (p : PirAdapter) : bool :=
  bool_decide (p_state p = COOLDOWN) && (u32 (_cooldownSeconds * 1000) <? now -64 lastTrigger p).

Definition pir_health (now : Z) (p : PirAdapter) (b : Board) : W (PirAdapter * Board) :=
  let (due, a) := healthTickDue now (p_base p) in
  let p' := with_pir_base a p in
  if due then b' <- sendNodeHealth p' b ;; wret (p', b') else wret (p', b).

Definition pir_loop (p : PirAdapter) (b : Board) : W (PirAdapter * Board) :=
  if negb (p_initialized p) then wret (p, b)
  else
    now <- now_ms ;;
    let (send, p1) := pir_trigger now p in
    b1 <- (if send then sendDataThroughMesh (p_base p1) (adapterType (p_base p1)) (1 :: zeros 63) b
           else wret b) ;;
    if cooled_down now p1 then
      let p2 := with_state IDLE p1 in
      let* (attached, x) := attachInterrupt kEdgeRising (p_pir p2) in
      let p3 := with_pir x p2 in
      if negb attached then fail E_HARDWARE M_ADAPTER 2 ;;; wret (p3, b1)
      else pir_health now (with_enabled true p3) b1
    else pir_health now p1 b1.
End Pir.

(** * The cooldown *)
(** The interrupt can come anywhere in a pass of [loop].  Where a pass stands: *)
Inductive pir_pc :=
  | Resting                          (* between two passes *)
  | Clocked (now : Z)                (* [now] is read *)
  | Checked (now : Z)                (* the motion flag was looked at *)
  | Reported (now : Z)               (* the report, if one was due, is sent *)
  | Attached (now : Z) (ok : bool)   (* [attachInterrupt] has returned *)
  | Rearmed (now : Z).               (* before the health report *)

#[export] Instance pir_pc_eq_dec : EqDecision pir_pc.
Proof. solve_decision. Defined.

Inductive pir_input := Interrupt | Advance.

Section Run.
Context {E : Env} {C : Crypto} {Pr : Protocol}.

(** An adapter in the middle of a pass, with the times (ms) of its motion reports,
    newest first. *)
Definition pir_running : Type := pir_pc * PirAdapter * Board * list Z.

Definition pir_advance (s : pir_running) : W pir_running :=
  let '(pc, p, b, log) := s in
  match pc with
  | Resting => if negb (p_initialized p) then wret s else now <- now_ms ;; wret (Clocked now, p, b, log)
  | Clocked now => wret (Checked now, pir_check now p, b, log)
  | Checked now =>
      if decide (p_state p = PENDING_SEND) then
        let p1 := with_state COOLDOWN p in
        b1 <- sendDataThroughMesh (p_base p1) (adapterType (p_base p1)) (1 :: zeros 63) b ;;
        wret (Reported now, p1, b1, lastTrigger p :: log)
      else wret (Reported now, p, b, log)
  | Reported now =>
      if cooled_down now p then
        let p2 := with_state IDLE p in
        let* (ok, x) := attachInterrupt kEdgeRising (p_pir p2) in
        wret (Attached now ok, with_pir x p2, b, log)
      else wret (Rearmed now, p, b, log)
  | Attached now ok =>
      if negb ok then fail E_HARDWARE M_ADAPTER 2 ;;; wret (Resting, p, b, log)
      else wret (Rearmed now, with_enabled true p, b, log)
  | Rearmed now => let* (p', b') := pir_health now p b in wret (Resting, p', b', log)
  end.

Definition pir_step (i : pir_input) (s : pir_running) : W pir_running :=
  match i with
  | Interrupt =>
      let '(pc, p, b, log) := s in p' <- detectMotion p ;; wret (pc, p', b, log)
  | Advance => pir_advance s
  end.
Definition pir_run : list pir_input → pir_running → W pir_running := wfold pir_step.

(** A pass that nothing interrupts, to its end. *)
Fixpoint pir_pass (fuel : nat) (s : pir_running) : W pir_running :=
  match fuel with
  | O => wret s
  | S fuel' =>
      s' <- pir_advance s ;; if decide (s'.1.1.1 = Resting) then wret s' else pir_pass fuel' s'
  end.

Lemma pir_health_state now p b w p' b' w' :
  pir_health now p b w = Ok (p', b') w' → ∃ a, p' = with_pir_base a p.
Proof.
  unfold pir_health. destruct (healthTickDue now (p_base p)) as [[] a].
  - unfold wbind. destruct (sendNodeHealth _ _ _); [|done]. intros [= <- _ _]. by exists a.
  - intros [= <- _ _]. by exists a.
Qed.

(** Will the next pass report motion? *)
Definition motion_pending (p : PirAdapter) : bool :=
  p_initialized p && (motionDetected (p_pir p) || bool_decide (p_state p = PENDING_SEND)).

Lemma pass_step k s w s' w' :
  pir_advance s w = Ok s' w' → s'.1.1.1 ≠ Resting → pir_pass (S k) s w = pir_pass k s' w'.
Proof. intros E1 Hpc. cbn [pir_pass]. rewrite wbind_run, E1. by rewrite decide_False. Qed.

Lemma pass_halt k s w w' : pir_advance s w = Halt w' → pir_pass (S k) s w = Halt w'.
Proof. intros E1. cbn [pir_pass]. by rewrite wbind_run, E1. Qed.

(** The end of a pass, and its middle once the report is sent. *)
Lemma pass_tail k now p b log w :
  pir_pass (S k) (Rearmed now, p, b, log) w =
  (let* (p', b') := pir_health now p b in wret (Resting, p', b', log)) w.
Proof.
  cbn [pir_pass pir_advance]. rewrite !wbind_run. by destruct (pir_health now p b w) as [[p2 b2] w2|].
Qed.

Definition loop_tail (now : Z) (p1 : PirAdapter) (b1 : Board) : W (PirAdapter * Board) :=
  if cooled_down now p1 then
    let p2 := with_state IDLE p1 in
    let* (attached, x) := attachInterrupt kEdgeRising (p_pir p2) in
    let p3 := with_pir x p2 in
    if negb attached then fail E_HARDWARE M_ADAPTER 2 ;;; wret (p3, b1)
    else pir_health now (with_enabled true p3) b1
  else pir_health now p1 b1.

Lemma pass_reported k now p b log w :
  pir_pass (S (S (S k))) (Reported now, p, b, log) w =
  (let* (p', b') := loop_tail now p b in wret (Resting, p', b', log)) w.
Proof.
  unfold loop_tail. destruct (cooled_down now p) eqn:Hc.
  - destruct (attachInterrupt kEdgeRising (p_pir (with_state IDLE p)) w) as [[ok x] w1|w1] eqn:Ea.
    + erewrite (pass_step _ _ _ (Attached now ok, _, _, _) w1);
        [|cbn [pir_advance]; rewrite Hc, wbind_run, Ea; reflexivity|done].
      rewrite wbind_run, (wbind_run (attachInterrupt _ _)), Ea. destruct ok; cbn [negb].
      * erewrite pass_step; [|cbn [pir_advance negb]; reflexivity|done]. rewrite pass_tail. by rewrite wbind_run.
      * destruct (fail_run E_HARDWARE M_ADAPTER 2 w1) as [w2 Ef]. rewrite wbind_run, Ef.
        apply pass_halt. cbn [pir_advance negb]. by rewrite wbind_run, Ef.
    + rewrite wbind_run, (wbind_run (attachInterrupt _ _)), Ea.
      apply pass_halt. cbn [pir_advance]. by rewrite Hc, wbind_run, Ea.
  - erewrite pass_step; [|cbn [pir_advance]; rewrite Hc; reflexivity|done]. apply pass_tail.
Qed.

(** A pass that nothing interrupts is [pir_loop]. *)
Theorem pir_pass_is_loop p b log w :
  pir_pass 6 (Resting, p, b, log) w =
  (let* (p', b') := pir_loop p b in
   wret (Resting, p', b', if motion_pending p then lastTrigger p' :: log else log)) w.
Proof.
  unfold pir_loop, motion_pending. destruct (p_initialized p) eqn:Hi; cbn [negb andb].
  2: { cbn [pir_pass pir_advance]. rewrite Hi. unfold wbind, wret. cbn [fst negb]. case_decide; done. }
  rewrite wbind_run, (wbind_run now_ms). destruct (now_ms w) as [now w1|] eqn:En.
  2: { apply pass_halt. cbn [pir_advance]. rewrite Hi. cbn [negb]. by rewrite wbind_run, En. }
  erewrite pass_step; [|cbn [pir_advance]; rewrite Hi; cbn [negb]; rewrite wbind_run, En; reflexivity|done].
  erewrite pass_step; [|reflexivity|done]. unfold pir_trigger. set (p1 := pir_check now p).
  assert (motionDetected (p_pir p) || bool_decide (p_state p = PENDING_SEND) = bool_decide (p_state p1 = PENDING_SEND)) as ->.
  { subst p1. unfold pir_check. destruct (motionDetected (p_pir p)); [|done]. symmetry. by apply bool_decide_eq_true. }
  assert (∀ now p b w p' b' w', loop_tail now p b w = Ok (p', b') w' → lastTrigger p' = lastTrigger p) as HT.
  { clear. intros now p b w p' b' w'. unfold loop_tail. destruct (cooled_down now p).
    - rewrite wbind_run. destruct (attachInterrupt _ _ w) as [[[] x] w1|]; cbn [negb]; [| |done].
      + by intros [a ->]%pir_health_state.
      + destruct (fail_run E_HARDWARE M_ADAPTER 2 w1) as [w2 Ef]. by rewrite wbind_run, Ef.
    - by intros [a ->]%pir_health_state. }
  destruct (decide (p_state p1 = PENDING_SEND)) as [Hp|Hp].
  - rewrite bool_decide_true by done.
    match goal with |- context [wbind ?c (λ b1, if cooled_down now (with_state COOLDOWN p1) then _ else _)] =>
      set (send := c) end. rewrite (wbind_run send). destruct (send w1) as [b1 w2|] eqn:Es.
    2: { apply pass_halt. cbn [pir_advance]. rewrite decide_True by done. rewrite wbind_run. by subst send; rewrite Es. }
    erewrite pass_step; [|cbn [pir_advance]; rewrite decide_True by done; rewrite wbind_run; subst send; rewrite Es; reflexivity|done].
    rewrite pass_reported, wbind_run. fold (loop_tail now (with_state COOLDOWN p1) b1).
    destruct (loop_tail _ _ _ w2) as [[p2 b2] w3|] eqn:El; [|done]. by rewrite (HT _ _ _ _ _ _ _ El).
  - rewrite bool_decide_false by done.
    erewrite pass_step; [|cbn [pir_advance]; rewrite decide_False by done; reflexivity|done].
    rewrite pass_reported, !wbind_run. unfold wret at 2. fold (loop_tail now p1 b). done.
Qed.
End Run.

(** Reports more than [d] ms apart, newest first. *)
Fixpoint apart (d : Z) (log : list Z) : Prop :=
  match log with
  | t :: ((t' :: _) as log') => t' + d < t ∧ apart d log'
  | _ => True
  end.

Section Cooldown.
Context {E : Env} {C : Crypto} {Pr : Protocol} {L : ClockLawful E}.

(** The invariant between two reports; [T] is a time not after the present. *)
Record pir_inv (p : PirAdapter) (log : list Z) (T : Z) : Prop := {
  pi_sent : p_state p ≠ PENDING_SEND;
  pi_armed : interruptEnabled p = true ∨ motionDetected (p_pir p) = true → p_state p = IDLE;
  pi_once : interruptEnabled p = true → motionDetected (p_pir p) = false;
  pi_quiet : p_state p = IDLE → match log with [] => True | t :: _ => t + 3000 < T end;
  pi_last : match log with
            | [] => p_state p = IDLE
            | t :: _ => lastTrigger p = t ∧ 0 <= t <= T
            end;
  pi_apart : apart 3000 log
}.

Lemma pir_inv_later p log T T' : T <= T' → pir_inv p log T → pir_inv p log T'.
Proof.
  intros H [I1 I2 I3 I4 I5 I6]. split; try done.
  - intros Hs. specialize (I4 Hs). destruct log; [done|lia].
  - destruct log; [done|]. destruct I5. split; [done|lia].
Qed.

(** The health timer does not touch the sensor's state. *)
Lemma pir_inv_base a p log T : pir_inv p log T → pir_inv (with_pir_base a p) log T.
Proof. intros [I1 I2 I3 I4 I5 I6]. by split. Qed.

(** A report about to be sent. *)
Record pir_due (p : PirAdapter) (log : list Z) (T : Z) : Prop := {
  pd_state : p_state p = PENDING_SEND;
  pd_off : interruptEnabled p = false;
  pd_clear : motionDetected (p_pir p) = false;
  pd_now : lastTrigger p = T ∧ 0 <= T;
  pd_quiet : match log with [] => True | t :: _ => t + 3000 < T end;
  pd_apart : apart 3000 log
}.

Definition pc_inv (pc : pir_pc) (p : PirAdapter) (log : list Z) (t : Z) : Prop :=
  match pc with
  | Resting => pir_inv p log t
  | Clocked now | Reported now | Rearmed now => 0 <= now <= t ∧ now < 2 ^ 63 ∧ pir_inv p log now
  | Checked now => 0 <= now <= t ∧ now < 2 ^ 63 ∧ (pir_inv p log now ∨ pir_due p log now)
  | Attached now _ =>
      0 <= now <= t ∧ now < 2 ^ 63 ∧ interruptEnabled p = false ∧ motionDetected (p_pir p) = false ∧
      p_state p = IDLE ∧ pir_inv p log now
  end.

Lemma pc_inv_later pc p log t t' : t <= t' → pc_inv pc p log t → pc_inv pc p log t'.
Proof. intros H. destruct pc; cbn; [by apply pir_inv_later|intuition lia..]. Qed.

Lemma transmit_grows ty pl n : grows (transmit ty pl n).
Proof.
  assert (∀ c d e f g m, grows (transmitCore c d e f g m))
    by (intros; by eapply emits_weaken; [apply transmitCore_silent|]).
  assert (∀ c d e f g h, grows (buildMessage c d e f g h))
    by (intros; by eapply emits_weaken; [apply buildMessage_quiet|]).
  assert (∀ m ps d, grows (broadcastToAllPeers m ps d)) by (intros; by apply broadcastToAllPeers_emits).
  unfold grows, transmit, transmitDispatch, broadcastAdapterData, deliver in *. solve_emits.
Qed.

Lemma sendDataThroughMesh_grows a ty pl b : grows (sendDataThroughMesh a ty pl b).
Proof.
  pose proof transmit_grows. pose proof (fail_emits (λ _, True)).
  unfold grows, sendDataThroughMesh, on_node in *. solve_emits.
Qed.

Lemma pir_health_grows now p b : grows (pir_health now p b).
Proof.
  pose proof sendDataThroughMesh_grows.
  unfold grows, pir_health, sendNodeHealth, buildHealthFrame, esp_timer_get_time in *. solve_emits.
Qed.

(** The interrupt keeps the invariant wherever it comes. *)
Lemma detectMotion_grows p : grows (detectMotion p).
Proof. unfold grows, detectMotion, detachInterrupt, gpio_intr_disable, gpio_isr_handler_remove. solve_emits. Qed.

Lemma detectMotion_off p w : interruptEnabled p = false → detectMotion p w = Ok p w.
Proof. intros He. unfold detectMotion. by rewrite He. Qed.

Lemma detectMotion_inv p log T w p' w' :
  pir_inv p log T → detectMotion p w = Ok p' w' → pir_inv p' log T.
Proof.
  intros I E1. destruct I as [I1 I2 I3 I4 I5 I6].
  unfold detectMotion in E1. destruct (interruptEnabled p) eqn:He; [|injection E1 as <- <-; split; by rewrite ?He].
  cbn [negb] in E1. unfold wbind in E1. destruct (detachInterrupt _ w) as [x w1|] eqn:Ed; [|done].
  injection E1 as <- <-. assert (p_state p = IDLE) by auto. by split.
Qed.

Lemma interrupt_inv pc p log t w p' w' :
  pc_inv pc p log t → detectMotion p w = Ok p' w' → pc_inv pc p' log t.
Proof.
  intros I E1. destruct pc; cbn in *.
  - by eapply detectMotion_inv.
  - destruct I as (? & ? & I). split_and!; [lia..|]. by eapply detectMotion_inv.
  - destruct I as (? & ? & [I|I]); split_and!; try lia; [left; by eapply detectMotion_inv|right].
    rewrite detectMotion_off in E1 by apply I. by injection E1 as <- <-.
  - destruct I as (? & ? & I). split_and!; [lia..|]. by eapply detectMotion_inv.
  - rewrite detectMotion_off in E1 by apply I. by injection E1 as <- <-.
  - destruct I as (? & ? & I). split_and!; [lia..|]. by eapply detectMotion_inv.
Qed.

(** Attaching the interrupt does not touch the motion flag. *)
Lemma attach_keeps_motion mode p ok x w w' :
  attachInterrupt mode p w = Ok (ok, x) w' → motionDetected x = motionDetected p ∧ ms_now w <= ms_now w'.
Proof using L.
  intros Ea. split.
  - revert Ea. unfold attachInterrupt, gpio_set_intr_type, gpio_isr_handler_add, gpio_intr_enable,
      wbind, emit, ask, wret.
    destruct (pir_initialized p); cbn; [|by intros [= _ <- _]].
    by destruct (env_isr_add _ _); intros [= _ <- _].
  - eapply (grows_later (attachInterrupt mode p)); [|exact Ea].
    unfold grows, attachInterrupt, gpio_set_intr_type, gpio_isr_handler_add, gpio_intr_enable.
    solve_emits.
Qed.

Lemma clock_now w :
  env_timer (w_trace w) < 2 ^ 63 →
  now_ms w = Ok (ms_now w) (World (EvTimer (env_timer (w_trace w)) :: w_trace w) (w_eeprom w) (w_err w)) ∧
  0 <= ms_now w < 2 ^ 63.
Proof using L.
  intros HT. pose proof (timer_nonneg (w_trace w)) as H0. unfold ms_now. split.
  - unfold now_ms, esp_timer_get_time, wbind, ask, emit, wret. unfold u64. by rewrite Z.mod_small by lia.
  - split; [apply Z.div_pos; lia|]. apply Z.div_lt_upper_bound; lia.
Qed.

(** The cooldown is over: the last report is more than 3000 ms old. *)
Lemma cooled_quiet p log now :
  pir_inv p log now → now < 2 ^ 63 → cooled_down now p = true →
  p_state p = COOLDOWN ∧ match log with [] => True | t :: _ => t + 3000 < now end.
Proof.
  intros [J1 J2 J3 J4 J5 J6] HT Hc. unfold cooled_down in Hc.
  apply andb_prop in Hc as [Hc1%bool_decide_eq_true Hc2%Z.ltb_lt]. split; [done|].
  destruct log as [|t log]; [done|]. destruct J5 as [Hl Ht]. rewrite Hl in Hc2. unfold u64 in Hc2.
  rewrite Z.mod_small in Hc2 by lia. change (u32 (_cooldownSeconds * 1000)) with 3000 in Hc2. lia.
Qed.

(** Looking at the motion flag: a report becomes due only from [IDLE]. *)
Lemma check_inv now p log :
  0 <= now → pir_inv p log now → pir_inv (pir_check now p) log now ∨ pir_due (pir_check now p) log now.
Proof.
  intros H0 I. unfold pir_check. destruct (motionDetected (p_pir p)) eqn:Hd; [right|by left].
  destruct I as [I1 I2 I3 I4 I5 I6]. specialize (I4 (I2 (or_intror Hd))). split; try done.
  cbn. destruct (interruptEnabled p); [|done]. by rewrite I3 in Hd.
Qed.

(** Sending it starts the cooldown. *)
Lemma report_inv now p log :
  pir_due p log now → pir_inv (with_state COOLDOWN p) (lastTrigger p :: log) now.
Proof.
  intros [D1 D2 D3 [D4 D5] D6 D7]. split; try done.
  - cbn. intros [?|?]; congruence.
  - cbn. split; [done|]. rewrite D4. lia.
  - cbn. destruct log as [|t log]; [done|]. rewrite D4. split; [lia|done].
Qed.

Lemma rearm_inv now p x log :
  pir_inv p log now → now < 2 ^ 63 → cooled_down now p = true → motionDetected x = motionDetected (p_pir p) →
  let p' := with_pir x (with_state IDLE p) in
  interruptEnabled p' = false ∧ motionDetected (p_pir p') = false ∧ p_state p' = IDLE ∧ pir_inv p' log now.
Proof.
  intros I HT Hc Hx. destruct (cooled_quiet p log now I HT Hc) as [Hs Hq]. destruct I as [J1 J2 J3 J4 J5 J6].
  assert (interruptEnabled p = false ∧ motionDetected (p_pir p) = false) as [He Hm].
  { split; apply not_true_is_false; intros Ht; [rewrite (J2 (or_introl Ht)) in Hs|
      rewrite (J2 (or_intror Ht)) in Hs]; done. }
  cbn. rewrite He, Hx, Hm. split_and!; try done. split; try done; cbn; [congruence|by destruct log].
Qed.

Lemma advance_inv pc p b log w s' w' :
  pc_inv pc p log (ms_now w) → env_timer (w_trace w) < 2 ^ 63 → pir_advance (pc, p, b, log) w = Ok s' w' →
  ∃ pc' p' b' log', s' = (pc', p', b', log') ∧ pc_inv pc' p' log' (ms_now w').
Proof using L.
  intros I HT E1. destruct (clock_now w HT) as [En Hn]. destruct pc as [|now|now|now|now ok|now]; cbn in I, E1.
  - destruct (p_initialized p); cbn [negb] in E1; [|injection E1 as <- <-; by do 4 eexists].
    unfold wbind in E1. rewrite En in E1. injection E1 as <- <-. do 4 eexists. split; [done|]. cbn.
    pose proof (ms_now_mono w (World (EvTimer (env_timer (w_trace w)) :: w_trace w) (w_eeprom w) (w_err w))
                  [EvTimer (env_timer (w_trace w))] eq_refl).
    split_and!; [lia..|done].
  - injection E1 as <- <-. do 4 eexists. split; [done|]. destruct I as (? & ? & I). cbn.
    split_and!; [lia..|]. by apply check_inv; [lia|].
  - destruct I as (? & ? & I). destruct (decide _) as [Hp|Hp].
    + destruct I as [I|I]; [by destruct (pi_sent _ _ _ I)|]. unfold wbind in E1.
      destruct (sendDataThroughMesh _ _ _ _ w) as [b1 w1|] eqn:Es; [|done]. injection E1 as <- <-.
      pose proof (grows_later _ _ _ _ (sendDataThroughMesh_grows _ _ _ _) Es).
      do 4 eexists. split; [done|]. cbn. split_and!; [lia..|]. by apply report_inv.
    + destruct I as [I|I]; [|by destruct (Hp (pd_state _ _ _ I))]. injection E1 as <- <-.
      by do 4 eexists.
  - destruct I as (? & ? & I). destruct (cooled_down now p) eqn:Hc; [|injection E1 as <- <-; by do 4 eexists].
    unfold wbind in E1. destruct (attachInterrupt kEdgeRising _ w) as [[ok x] w1|] eqn:Ea; [|done].
    injection E1 as <- <-. destruct (attach_keeps_motion _ _ _ _ _ _ Ea) as [Hx Hm].
    do 4 eexists. split; [done|]. cbn. split; [lia|]. split; [lia|]. by apply rearm_inv.
  - destruct I as (? & ? & He & Hm & Hs & I). destruct ok; cbn [negb] in E1.
    + injection E1 as <- <-. do 4 eexists. split; [done|]. cbn. split_and!; [lia..|].
      destruct I as [J1 J2 J3 J4 J5 J6]. by split.
    + unfold wbind in E1. destruct (fail_run E_HARDWARE M_ADAPTER 2 w) as [w4 Ef]. by rewrite Ef in E1.
  - destruct I as (? & ? & I). unfold wbind in E1. destruct (pir_health now p b w) as [[p1 b1] w1|] eqn:Eh; [|done].
    injection E1 as <- <-. pose proof (grows_later _ _ _ _ (pir_health_grows now p b) Eh).
    destruct (pir_health_state _ _ _ _ _ _ _ Eh) as [a ->]. do 4 eexists. split; [done|]. cbn.
    apply pir_inv_base, (pir_inv_later _ _ now); [lia|done].
Qed.

Lemma pir_step_grows i s : grows (pir_step i s).
Proof.
  pose proof pir_health_grows. pose proof sendDataThroughMesh_grows. pose proof (fail_emits (λ _, True)).
  pose proof detectMotion_grows. destruct s as [[[pc p] b] log].
  unfold grows, pir_step, pir_advance, now_ms, esp_timer_get_time, attachInterrupt, gpio_set_intr_type,
    gpio_isr_handler_add, gpio_intr_enable in *. solve_emits.
Qed.

Definition running_inv (s : pir_running) (w : world) : Prop :=
  let '(pc, p, _, log) := s in pc_inv pc p log (ms_now w).

Lemma pir_run_inv ins s w s' w' :
  running_inv s w → pir_run ins s w = Ok s' w' → env_timer (w_trace w') < 2 ^ 63 → running_inv s' w'.
Proof using L.
  unfold pir_run. revert s w. induction ins as [|i ins IH]; intros s w I E1 HT; cbn [wfold] in E1.
  { injection E1 as -> <-. exact I. }
  unfold wbind in E1. destruct (pir_step i s w) as [s1 w1|] eqn:Es; [|done].
  assert (env_timer (w_trace w) < 2 ^ 63) as HT0.
  { assert (grows (wfold pir_step ins s1)) as Hg by (apply emits_wfold; intros; apply pir_step_grows).
    destruct (emits_Ok _ _ _ _ _ Hg E1) as (evs & Hev & _).
    destruct (emits_Ok _ _ _ _ _ (pir_step_grows i s) Es) as (evs' & Hev' & _).
    pose proof (timer_monotone (evs ++ evs') (w_trace w)). rewrite Hev, Hev', app_assoc in HT. lia. }
  apply (IH s1 w1); [|done..]. destruct s as [[[pc p] b] log]. cbn [running_inv] in I. destruct i.
  - cbn [pir_step] in Es. unfold wbind in Es. destruct (detectMotion p w) as [p1 w2|] eqn:Ed; [|done].
    injection Es as <- <-. cbn. apply (pc_inv_later _ _ _ (ms_now w)).
    + by apply (grows_later _ _ _ _ (detectMotion_grows p) Ed).
    + by eapply interrupt_inv.
  - destruct (advance_inv pc p b log w s1 w1 I HT0 Es) as (pc1 & p1 & b1 & log1 & -> & I1). exact I1.
Qed.

Lemma pc_inv_apart pc p log t : pc_inv pc p log t → apart 3000 log.
Proof. intros I. destruct pc; cbn in I; [apply I|apply I|destruct I as (_ & _ & [I|I]); apply I|apply I..]. Qed.

(** C32. Whatever the sensor does, a PIR node reports motion at most once in three
    seconds: in every run of a freshly initialised adapter (its base given the mesh's
    transmit function, or not), with the interrupt coming between any two steps of the
    loop's passes, successive reports are more than 3000 ms apart. *)
Theorem pir_cooldown pin a p0 b0 w0 w1 ins pc p b log w :
  pir_adapter_init (pir_adapter_new pin) w0 = Ok (true, p0) w1 →
  pir_run ins (Resting, with_pir_base a p0, b0, []) w1 = Ok (pc, p, b, log) w →
  env_timer (w_trace w) < 2 ^ 63 →
  apart 3000 log.
Proof using L.
  intros Hi Hr HT. apply (pc_inv_apart pc p log (ms_now w)).
  apply (pir_run_inv ins (Resting, with_pir_base a p0, b0, []) w1 (pc, p, b, log) w); try done.
  apply pir_inv_base.
  unfold pir_adapter_init, pir_adapter_new in Hi. cbn [p_initialized p_pir] in Hi.
  destruct (pir_init (pir_new pin)) as [[] x] eqn:Ex; cbn [negb] in Hi.
  2: { unfold wbind in Hi. destruct (fail _ _ _ _); done. }
  assert (motionDetected x = false) as Hx.
  { unfold pir_init in Ex. destruct (isValidInputPin _); cbn in Ex; [by injection Ex as <-|done]. }
  unfold wbind in Hi. destruct (attachInterrupt kEdgeRising x w0) as [[ok x1] w2|] eqn:Ea; [|done].
  destruct ok; cbn [negb] in Hi; [|destruct (fail _ _ _ w2); done]. injection Hi as <- <-.
  destruct (attach_keeps_motion _ _ _ _ _ _ Ea) as [Hx1 _]. rewrite Hx in Hx1.
  split; cbn; try done; congruence.
Qed.
End Cooldown.

(** * Witness *)
#[local] Existing Instance documented_protocol.

(** Motion, a passing car during the cooldown, and motion again after it. *)
Definition demo_pir_inputs : list pir_input :=
  let pass := replicate 6 Advance in
  pass ++ [Advance; Interrupt; Advance; Advance; Interrupt] ++ pass ++ pass ++ pass ++ pass ++ pass
    ++ [Advance; Advance; Interrupt] ++ pass ++ pass ++ pass.

Definition demo_pir : PirAdapter :=
  PirAdapterState (adapter_new 27 PIR_ADAPTER) (PirSensor 27 true false true) 0 IDLE true true.
Definition demo_pir_world : world :=
  World [EvIntrEnable 27 true; EvIsrAdd 27 true; EvIntrType 27 GPIO_INTR_POSEDGE]
    (w_eeprom ref_world) (w_err ref_world).
Lemma pir_cooldown_witness :
  ∃ pc p b w,
    pir_run (E := slow_env) (C := toy_crypto) demo_pir_inputs
      (Resting, with_pir_base (setTransmitFn (p_base demo_pir)) demo_pir, demo_board demo_leaf_node, [])
      demo_pir_world = Ok (pc, p, b, [10500; 3500]) w ∧ apart 3000 [10500; 3500].
Proof.
  eassert (∃ pc p b w, pir_run (E := slow_env) (C := toy_crypto) demo_pir_inputs
      (Resting, with_pir_base (setTransmitFn (p_base demo_pir)) demo_pir, demo_board demo_leaf_node, [])
      demo_pir_world = Ok (pc, p, b, [10500; 3500]) w ∧
    env_timer (Env := slow_env) (w_trace w) = 13500000) as (pc & p & b & w & Hr & Ht)
    by (vm_compute; do 4 eexists; split; reflexivity).
  exists pc, p, b, w. split; [exact Hr|].
  refine (@pir_cooldown slow_env toy_crypto documented_protocol slow_env_clock 27
    (setTransmitFn (p_base demo_pir)) demo_pir (demo_board demo_leaf_node) ref_world demo_pir_world
    demo_pir_inputs pc p b _ w _ Hr _).
  - vm_compute. reflexivity.
  - rewrite Ht. reflexivity.
Defined.
