(* ===== verification/App.v ===== *)
(** The application layer (app/BootManager, app/ButtonHandler, app/DisplayManager):
    the reboot counter, the two press-and-hold buttons and the identity display.
    The functions' static locals are records threaded through the calls. *)
From S2P Require Import Prelude Config Wire Platform ErrorCore Hardware SevenSeg Eeprom Node Mesh.

(** * BootManager *)
(** [esp_reset_reason_t]. *)
Definition ESP_RST_POWERON : Z := 1.
Definition ESP_RST_EXT : Z := 2.
Definition ESP_RST_SW : Z := 3.
Definition ESP_RST_PANIC : Z := 4.
Definition ESP_RST_INT_WDT : Z := 5.
Definition ESP_RST_TASK_WDT : Z := 6.
Definition ESP_RST_WDT : Z := 7.

Definition is_wdt (reason : Z) : bool :=
  (reason =? ESP_RST_WDT) || (reason =? ESP_RST_TASK_WDT) || (reason =? ESP_RST_INT_WDT).

(** * ButtonHandler *)
Definition HOLD_MS : Z := 5000.

(** The statics [wasPressed] and [holdStart] of one button. *)
Record Hold := HoldState { wasPressed : bool; holdStart : Z }.
Definition hold_new : Hold := HoldState false 0.

(** The statics of [tickReset]. *)
Record ResetHold := ResetState { r_hold : Hold; confirmPending : bool; confirmDeadline : Z }.
Definition reset_new : ResetHold := ResetState hold_new false 0.

(** * DisplayManager *)
Inductive Dp := OFF | SOLID | BLINK.

Definition BLINK_HALF_PERIOD_MS : Z := 500.

Definition dpFor (isMaster isPrimaryMaster : bool) : Dp :=
  if negb isMaster then OFF else if isPrimaryMaster then SOLID else BLINK.

Definition dpLit (dp : Dp) (nowMs : Z) : bool :=
  match dp with
  | SOLID => true
  | BLINK => Z.land (nowMs / BLINK_HALF_PERIOD_MS) 1 =? 0
  | OFF => false
  end.

(** The statics of [DisplayManager::tick]. *)
Record DisplayState := Display {
  lastToggleMs : Z;
  dashVisible : bool;
  lastValue : Z;
  lastDpLit : bool;
  wasEnrolled : bool
}.
Definition display_new : DisplayState := Display 0 false (-1) false false.

Section App.
Context {E : Env}.

(** [BootManager::check]; the halt loop is [EvHang]. *)
Definition boot_check (reason : Z) : W unit :=
  saveRebootReason (u8 reason) ;;;
  if is_wdt reason then
    count <- loadRebootCount ;;
    let count := u8 (count + 1) in
    saveRebootCount count ;;;
    if 5 <=? count then emit EvHang ;;; whalt else wret tt
  else saveRebootCount 0.

Definition detectHold (holdMs : Z) (btn : Button) (h : Hold) : W (bool * Button * Hold) :=
  now <- now_ms ;;
  let* (pressed, btn1) := isPressed btn in
  if pressed then
    if negb (wasPressed h) then wret (false, btn1, HoldState true now)
    else if holdMs <=? now -64 holdStart h then wret (true, btn1, HoldState false (holdStart h))
    else wret (false, btn1, h)
  else wret (false, btn1, HoldState false (holdStart h)).

(** [pumpLedsUntilIdle]; without fuel the call has not returned. *)
Fixpoint pumpLedsUntilIdle (fuel : nat) (a : Led) (b : option Led) : W (Led * option Led) :=
  match fuel with
  | O => whalt
  | S fuel' =>
      now <- now_ms ;;
      a1 <- update now a ;;
      b1 <- (match b with
             | Some l => l1 <- update now l ;; wret (Some l1)
             | None => wret None
             end) ;;
      if negb (isBusy a1) && negb (match b1 with Some l => isBusy l | None => false end)
      then wret (a1, b1)
      else vTaskDelay 5 ;;; pumpLedsUntilIdle fuel' a1 b1
  end.

Definition tickConfig (fuel : nat) (isDevMode : bool) (btn : Button) (h : Hold) (mesh : Node)
    (greenLed : Led) (devMasterFlag : bool) : W (Button * Hold * Node * Led * bool) :=
  let* (fired_btn, h1) := detectHold HOLD_MS btn h in
  let (fired, btn1) := fired_btn : bool * Button in
  if negb fired then wret (btn1, h1, mesh, greenLed, devMasterFlag)
  else if isDevMode then
    let newMaster := negb (isMaster mesh) in
    g <- pulse false (if newMaster then 3 else 2) 150 150 greenLed ;;
    wret (btn1, h1, setIsMaster newMaster mesh, g, newMaster)
  else
    wasMaster <- loadMasterFlag ;;
    let newMaster := negb wasMaster in
    saveMasterFlag newMaster ;;;
    g <- pulse false (if newMaster then 3 else 2) 200 200 greenLed ;;
    pumpLedsUntilIdle fuel g None ;;;
    vTaskDelay 2000 ;;;
    esp_restart.

Definition tickReset (fuel : nat) (btn : Button) (s : ResetHold) (greenLed redLed : Led)
    : W (Button * ResetHold * Led * Led) :=
  let* (fired_btn, h1) := detectHold HOLD_MS btn (r_hold s) in
  let (fired, btn1) := fired_btn : bool * Button in
  let s1 := ResetState h1 (confirmPending s) (confirmDeadline s) in
  if fired then
    if negb (confirmPending s1) then
      now <- now_ms ;;
      r <- pulse true 3 100 100 redLed ;;
      wret (btn1, ResetState h1 true (u64 (now + 3000)), greenLed, r)
    else
      now <- now_ms ;;
      if now <? confirmDeadline s1 then
        clearAll ;;;
        r <- pulse true 5 100 100 redLed ;;
        g <- pulse false 5 100 100 greenLed ;;
        pumpLedsUntilIdle fuel r (Some g) ;;;
        vTaskDelay 3000 ;;;
        esp_restart
      else wret (btn1, s1, greenLed, redLed)
  else
    let* (pressed, btn2) := isPressed btn1 in
    if negb pressed && confirmPending s1 then
      now <- now_ms ;;
      wret (btn2, if confirmDeadline s1 <? now then ResetState h1 false (confirmDeadline s1) else s1,
            greenLed, redLed)
    else wret (btn2, s1, greenLed, redLed).

(** [DisplayManager::tick]. *)
Definition display_tick (d : SevenSegDisplay) (enrolled isMaster isPrimaryMaster : bool)
    (nodeId : Z) (s : DisplayState) : W DisplayState :=
  nowMs <- now_ms ;;
  if negb enrolled then
    if BLINK_HALF_PERIOD_MS <=? nowMs -64 lastToggleMs s then
      let dash := negb (dashVisible s) in
      (if dash then setSegments [0x40; 0x40; 0x40; 0x40] d else display_clear d) ;;;
      wret (Display nowMs dash (lastValue s) (lastDpLit s) false)
    else wret (Display (lastToggleMs s) (dashVisible s) (lastValue s) (lastDpLit s) false)
  else
    let lit := dpLit (dpFor isMaster isPrimaryMaster) nowMs in
    let changed := negb (wasEnrolled s) || negb (nodeId =? lastValue s) || negb (eqb lit (lastDpLit s)) in
    if negb changed then wret s
    else
      (if lit then showWithDP nodeId false d else show nodeId false d) ;;;
      wret (Display (lastToggleMs s) (dashVisible s) nodeId lit true).
End App.

(** * Every call only adds to the trace *)
(** The events of the buttons and LEDs, errors included. *)
Definition is_panel_event (e : event) : Prop :=
  match e with
  | EvTimer _ | EvLevel _ _ | EvSample _ _ | EvDelay _ | EvShow _ | EvPulse _ | EvRestart => True
  | _ => False
  end.

Lemma panel_events_store init evs tr k :
  Forall is_panel_event evs → nvs_store init (evs ++ tr) k = nvs_store init tr k.
Proof. induction 1 as [|e evs He _ IH]; [done|]. by destruct e. Qed.

Section Grows.
Context {E : Env}.
Context (P : event → Prop) (HP : ∀ e, is_panel_event e → P e).

Lemma error_P e : is_error_event e → P e.
Proof using HP. pose proof (HP e). by destruct e. Qed.

Lemma update_emits t l : emits P (update t l).
Proof using HP.
  assert (∀ p v, P (EvLevel p v)) by (intros p v; by apply (HP (EvLevel p v))).
  unfold update, setState, gpio_set_level. solve_emits.
Qed.

Lemma now_ms_emits : emits P now_ms.
Proof using HP.
  assert (∀ us, P (EvTimer us)) by (intros us; by apply (HP (EvTimer us))).
  unfold now_ms, esp_timer_get_time. solve_emits.
Qed.

Lemma pulse_emits sys n on off l : emits P (pulse sys n on off l).
Proof using HP.
  assert (∀ p v, P (EvLevel p v)) by (intros p v; by apply (HP (EvLevel p v))).
  pose proof now_ms_emits. pose proof (fail_emits P error_P).
  unfold pulse, setState, gpio_set_level. solve_emits.
Qed.

Lemma isPressed_emits b : emits P (isPressed b).
Proof using HP.
  assert (∀ p v, P (EvSample p v)) by (intros p v; by apply (HP (EvSample p v))).
  pose proof now_ms_emits. unfold isPressed, gpio_get_level. solve_emits.
Qed.

Lemma detectHold_emits d b h : emits P (detectHold d b h).
Proof using HP. pose proof now_ms_emits. pose proof isPressed_emits. unfold detectHold. solve_emits. Qed.

Lemma pump_emits fuel a b : emits P (pumpLedsUntilIdle fuel a b).
Proof using HP.
  assert (∀ d, P (EvDelay d)) by (intros d; by apply (HP (EvDelay d))).
  pose proof now_ms_emits. pose proof update_emits.
  revert a b. induction fuel as [|fuel IH]; intros a b; cbn [pumpLedsUntilIdle]; [apply emits_halt|].
  unfold vTaskDelay. solve_emits.
Qed.
End Grows.

(** * The wipe that cannot be confirmed *)
(** World [w'] comes after [w]. *)
Definition later (w w' : world) : Prop := ∃ evs, w_trace w' = evs ++ w_trace w.

Lemma later_refl w : later w w.
Proof. by exists []. Qed.

Lemma panel_no_erase e : is_panel_event e → no_erase e.
Proof. by destruct e. Qed.

Section Reset.
Context {E : Env}.

(** What [tickReset] can have done since boot, whatever else the firmware does
    between two of its calls. *)
Inductive reset_reach (fuel : nat) : Button → ResetHold → world → Prop :=
  | reset_boot btn w : reset_reach fuel btn reset_new w
  | reset_ticked btn s w w1 g r btn' s' g' r' w2 :
      reset_reach fuel btn s w → later w w1 →
      tickReset fuel btn s g r w1 = Ok (btn', s', g', r') w2 →
      reset_reach fuel btn' s' w2.

Context {L : ClockLawful E}.

Definition in_range_clock (w : world) : Prop := env_timer (w_trace w) < 2 ^ 63.

Lemma later_trans w1 w2 w3 : later w1 w2 → later w2 w3 → later w1 w3.
Proof. intros [e1 H1] [e2 H2]. exists (e2 ++ e1). by rewrite H2, H1, app_assoc. Qed.

Lemma later_clock w w' : later w w' → in_range_clock w' → in_range_clock w.
Proof using L. intros [evs H]. unfold in_range_clock. rewrite H. pose proof (timer_monotone evs (w_trace w)). lia. Qed.

Lemma later_ms w w' : later w w' → ms_now w <= ms_now w'.
Proof using L. intros [evs H]. by eapply ms_now_mono. Qed.

Lemma clock_ms w : in_range_clock w → u64 (env_timer (w_trace w)) / 1000 = ms_now w ∧ 0 <= ms_now w < 2 ^ 62.
Proof using L.
  unfold in_range_clock, ms_now. intros H. pose proof (timer_nonneg (w_trace w)).
  rewrite u64_small by lia. split; [done|]. split; [by apply Z.div_pos|].
  apply Z.div_lt_upper_bound; lia.
Qed.

(** Between arming and confirming, the confirming hold began after the arming
    one ended. *)
Definition reset_inv (s : ResetHold) (w : world) : Prop :=
  (wasPressed (r_hold s) = true → 0 <= holdStart (r_hold s) <= ms_now w) ∧
  (confirmPending s = true → confirmDeadline s <= ms_now w + 3000 ∧
     (wasPressed (r_hold s) = true → confirmDeadline s <= holdStart (r_hold s) + 3000)).

Lemma reset_inv_later s w w' : later w w' → reset_inv s w → reset_inv s w'.
Proof using L. intros H%later_ms [I1 I2]. split; [intros; specialize (I1 H0); lia|]. intros Hc. destruct (I2 Hc). split; [lia|done]. Qed.

Lemma detectHold_run btn h w :
  ∃ fired btn1 h1 w1, detectHold HOLD_MS btn h w = Ok (fired, btn1, h1) w1 ∧ appended no_erase w w1 ∧
    (fired = true → wasPressed h = true ∧ wasPressed h1 = false ∧
                    HOLD_MS <= u64 (env_timer (w_trace w)) / 1000 -64 holdStart h) ∧
    (wasPressed h1 = true → h1 = h ∨ holdStart h1 = u64 (env_timer (w_trace w)) / 1000).
Proof.
  pose proof (detectHold_emits no_erase panel_no_erase HOLD_MS btn h w) as Hem.
  unfold wp in Hem. destruct (detectHold HOLD_MS btn h w) as [[[fired btn1] h1] w1|w1] eqn:Ed.
  - exists fired, btn1, h1, w1. split; [done|]. split; [done|].
    unfold detectHold in Ed. unfold wbind at 1 in Ed.
    change (now_ms w) with
      (Ok (u64 (env_timer (w_trace w)) / 1000) (World (EvTimer (env_timer (w_trace w)) :: w_trace w)
         (w_eeprom w) (w_err w))) in Ed.
    cbv beta iota in Ed. unfold wbind in Ed.
    destruct (isPressed btn _) as [[[] b1] w2|]; [| |done].
    + destruct (wasPressed h) eqn:Hw; cbn [negb] in Ed.
      * destruct (HOLD_MS <=? _) eqn:Hh; injection Ed as <- <- <- <-; [|split; [done|by left]].
        apply Z.leb_le in Hh. by split_and!.
      * injection Ed as <- <- <- <-. split; [done|by right].
    + injection Ed as <- <- <- <-. by split.
  - exfalso. unfold detectHold, now_ms, esp_timer_get_time, isPressed, gpio_get_level, wbind, ask, emit, wret in Ed.
    cbv beta iota zeta in Ed. repeat (case_match; simplify_eq).
Qed.

Lemma isPressed_returns b : returns (isPressed b).
Proof.
  intros w. unfold isPressed, now_ms, esp_timer_get_time, gpio_get_level, wbind, ask, emit, wret.
  destruct (_ || _); eauto.
Qed.

Lemma red_pulse_returns n on off l : returns (pulse true n on off l).
Proof.
  intros w. unfold pulse, setState, gpio_set_level, now_ms, esp_timer_get_time, wbind, ask, emit, wret.
  destruct (negb _); [eauto|]. destruct (n =? 0); [eauto|]. destruct (eqb _ _); eauto.
Qed.

Lemma appended_later P w w' : appended P w w' → later w w'.
Proof. intros (evs & H & _). by exists evs. Qed.

Lemma reset_inv_hold s h1 w w1 :
  reset_inv s w → later w w1 → in_range_clock w1 →
  (wasPressed h1 = true → h1 = r_hold s ∨ holdStart h1 = u64 (env_timer (w_trace w)) / 1000) →
  reset_inv (ResetState h1 (confirmPending s) (confirmDeadline s)) w1.
Proof using L.
  intros [I1 I2] Hl Hr Hh. pose proof (later_ms _ _ Hl).
  destruct (clock_ms w (later_clock _ _ Hl Hr)) as [Ht Hb]. rewrite Ht in Hh. split; cbn.
  - intros Hp. destruct (Hh Hp) as [->|]; [specialize (I1 Hp)|]; lia.
  - intros Hc. destruct (I2 Hc) as [J1 J2]. split; [lia|]. intros Hp.
    destruct (Hh Hp) as [->|]; [by apply J2|lia].
Qed.

Definition wipe (fuel : nat) (btn : Button) (g r : Led) : W (Button * ResetHold * Led * Led) :=
  clearAll ;;;
  r1 <- pulse true 5 100 100 r ;;
  g1 <- pulse false 5 100 100 g ;;
  pumpLedsUntilIdle fuel r1 (Some g1) ;;;
  vTaskDelay 3000 ;;;
  esp_restart.

Lemma wipe_grows fuel btn g r : grows (wipe fuel btn g r).
Proof.
  assert (∀ e, is_panel_event e → True) as HT by done.
  pose proof (pulse_emits (λ _, True) HT). pose proof (pump_emits (λ _, True) HT).
  pose proof (clearAll_emits (λ _, True) ltac:(done)).
  unfold grows, wipe, vTaskDelay, esp_restart. solve_emits.
Qed.

(** A second hold comes after the confirmation deadline. *)
Lemma confirm_too_late s w w1 :
  reset_inv s w → later w w1 → in_range_clock w1 → wasPressed (r_hold s) = true →
  confirmPending s = true → HOLD_MS <= u64 (env_timer (w_trace w)) / 1000 -64 holdStart (r_hold s) →
  confirmDeadline s <= u64 (env_timer (w_trace w1)) / 1000.
Proof using L.
  intros [I1 I2] L1 R1 Hp Hc Hheld.
  destruct (clock_ms w1 R1) as [-> _]. destruct (clock_ms w (later_clock _ _ L1 R1)) as [Ht0 B0].
  rewrite Ht0 in Hheld. pose proof (later_ms _ _ L1). specialize (I1 Hp).
  destruct (I2 Hc) as [_ J]. specialize (J Hp).
  unfold HOLD_MS in Hheld. rewrite u64_small in Hheld by lia. lia.
Qed.

Lemma tickReset_safe fuel btn s g r w :
  reset_inv s w →
  wp (tickReset fuel btn s g r) w
    (λ out w2, in_range_clock w2 → appended no_erase w w2 ∧ reset_inv out.1.1.2 w2)
    (λ w2, ¬ in_range_clock w2).
Proof using L.
  intros I. unfold tickReset. apply wp_bind.
  destruct (detectHold_run btn (r_hold s) w) as (fired & btn1 & h1 & w1 & E1 & A1 & Hf & Hh).
  eapply wp_run; [exact E1|]. cbv beta iota zeta. pose proof (appended_later _ _ _ A1) as L1.
  assert (∀ w2, appended no_erase w1 w2 → in_range_clock w2 → appended no_erase w w2 ∧
    reset_inv (ResetState h1 (confirmPending s) (confirmDeadline s)) w2) as Hkeep.
  { intros w2 A2 R2. split; [by eapply appended_trans|].
    apply (reset_inv_hold s h1 w); try done. eapply later_trans; [exact L1|by eapply appended_later]. }
  destruct fired.
  - destruct (Hf eq_refl) as (Hp & Hp1 & Hheld). cbn [confirmPending confirmDeadline].
    set (us1 := env_timer (w_trace w1)). set (w2 := World (EvTimer us1 :: w_trace w1) (w_eeprom w1) (w_err w1)).
    assert (appended no_erase w1 w2) as A2 by (exists [EvTimer us1]; split; [done|by repeat constructor]).
    destruct (confirmPending s) eqn:Hc; cbn [negb]; apply wp_bind;
      (eapply (wp_run now_ms w1 _ _ (u64 us1 / 1000) w2); [done|]).
    + destruct (Z.ltb_spec (u64 us1 / 1000) (confirmDeadline s)) as [Hlt|_].
      2: { apply wp_ret. intros R. by apply Hkeep. }
      change (wp (wipe fuel btn1 g r) w2
        (λ out w3, in_range_clock w3 → appended no_erase w w3 ∧ reset_inv out.1.1.2 w3)
        (λ w3, ¬ in_range_clock w3)).
      assert (∀ w3, appended (λ _, True) w2 w3 → ¬ in_range_clock w3) as Hno.
      { intros w3 A3%appended_later R3.
        assert (in_range_clock w1) as R1
          by (eapply later_clock, R3; eapply later_trans; [by eapply appended_later|done]).
        pose proof (confirm_too_late s w w1 I L1 R1 Hp Hc Hheld) as Hl. fold us1 in Hl. lia. }
      eapply wp_mono; [apply wipe_grows|..]; cbn beta; [|exact Hno]. intros out w3 A3 R3. by apply Hno in R3.
    + destruct (returns_emits no_erase _ w2 (red_pulse_returns 3 100 100 r)
                  (pulse_emits no_erase panel_no_erase true 3 100 100 r)) as (r1 & w3 & E3 & A3).
      apply wp_bind. eapply wp_run; [exact E3|]. apply wp_ret. intros R3.
      pose proof (appended_trans _ _ _ _ A2 A3) as A13. destruct (Hkeep w3 A13 R3) as [A I3].
      split; [exact A|]. cbn [fst snd]. destruct I3 as [I3 _]. split; [exact I3|]. cbn. intros _.
      pose proof (later_ms _ _ (appended_later _ _ _ A13)).
      destruct (clock_ms w1 (later_clock _ _ (appended_later _ _ _ A13) R3)) as [Ht B].
      fold us1 in Ht. rewrite Ht. rewrite u64_small by lia. split; [lia|congruence].
  - destruct (returns_emits no_erase _ w1 (isPressed_returns btn1)
                (isPressed_emits no_erase panel_no_erase btn1)) as ([p b2] & w2 & E2 & A2).
    apply wp_bind. eapply wp_run; [exact E2|]. cbv beta iota.
    destruct (negb p && confirmPending _); [|by apply wp_ret, Hkeep].
    apply wp_bind. eapply wp_run; [done|]. apply wp_ret. cbn [w_trace w_eeprom w_err].
    set (w3 := World _ _ _). intros R3.
    assert (appended no_erase w2 w3) as A3 by (eexists [_]; split; [done|by repeat constructor]).
    destruct (Hkeep w3 (appended_trans _ _ _ _ A2 A3) R3) as [A I3]. split; [exact A|]. cbn [fst snd].
    destruct (_ <? _); [|exact I3]. destruct I3 as [I3 _]. by split.
Qed.

Lemma tickReset_grows fuel btn s g r : grows (tickReset fuel btn s g r).
Proof.
  assert (∀ e, is_panel_event e → True) as HT by done.
  pose proof (pulse_emits (λ _, True) HT). pose proof (detectHold_emits (λ _, True) HT).
  pose proof (isPressed_emits (λ _, True) HT). pose proof (now_ms_emits (λ _, True) HT).
  pose proof wipe_grows as Hw. unfold grows, wipe in *. unfold tickReset. solve_emits.
Qed.

Lemma reset_reach_inv fuel btn s w :
  reset_reach fuel btn s w → in_range_clock w → reset_inv s w.
Proof using L.
  induction 1 as [btn w|btn s w w1 g r btn' s' g' r' w2 Hr IH Hl Ht]; intros R; [by split|].
  assert (later w1 w2) as L2.
  { destruct (emits_Ok _ _ _ _ _ (tickReset_grows fuel btn s g r) Ht) as (evs & H & _). by exists evs. }
  assert (reset_inv s w1) as I by (eapply reset_inv_later, IH, later_clock, R; [done|by eapply later_trans]).
  pose proof (wp_Ok _ _ _ _ _ _ (tickReset_safe fuel btn s g r w1 I) Ht R) as [_ I2]. exact I2.
Qed.

(** The reset button cannot wipe the device: the second hold that would
    confirm lasts 5 s, the confirmation window 3 s.  Whatever the pins read and
    whatever else the firmware does between the ticks, a tick of the reset button
    returns and has not erased NVS, as long as the 64-bit microsecond clock has
    not wrapped. *)
Theorem reset_never_wipes fuel btn s g r w w1 :
  reset_reach fuel btn s w → later w w1 →
  env_timer (w_trace (world_of (tickReset fuel btn s g r w1))) < 2 ^ 63 →
  ∃ out w2, tickReset fuel btn s g r w1 = Ok out w2 ∧ appended no_erase w1 w2.
Proof using L.
  intros Hr Hl HR.
  assert (grows (tickReset fuel btn s g r)) as Hg by apply tickReset_grows.
  assert (in_range_clock w1) as R1.
  { specialize (Hg w1). unfold wp in Hg.
    destruct (tickReset fuel btn s g r w1) as [out w2|w2]; by eapply later_clock; [eapply appended_later|]. }
  pose proof (tickReset_safe fuel btn s g r w1 (reset_inv_later _ _ _ Hl
    (reset_reach_inv _ _ _ _ Hr (later_clock _ _ Hl R1)))) as H. unfold wp in H.
  destruct (tickReset fuel btn s g r w1) as [out w2|w2]; [|by destruct H].
  exists out, w2. split; [done|]. by apply H.
Qed.
End Reset.

(** The reset button held down for good, on a platform whose pins all read high. *)
Section Pressed.
Context {E : Env}.

Fixpoint reset_ticks (n : nat) (btn : Button) (s : ResetHold) (w : world) : Button * ResetHold * world :=
  match n with
  | O => (btn, s, w)
  | S n' =>
      match tickReset 0 btn s (led_new GREEN_LED_PIN) (led_new RED_LED_PIN) w with
      | Ok (btn', s', _, _) w' => reset_ticks n' btn' s' w'
      | Halt w' => (btn, s, w')
      end
  end.

(** None of them restarted. *)
Fixpoint reset_ticks_ok (n : nat) (btn : Button) (s : ResetHold) (w : world) : bool :=
  match n with
  | O => true
  | S n' =>
      match tickReset 0 btn s (led_new GREEN_LED_PIN) (led_new RED_LED_PIN) w with
      | Ok (btn', s', _, _) w' => reset_ticks_ok n' btn' s' w'
      | Halt _ => false
      end
  end.

Lemma reset_ticks_reach n btn s w :
  reset_reach 0 btn s w → reset_ticks_ok n btn s w = true →
  reset_reach 0 (reset_ticks n btn s w).1.1 (reset_ticks n btn s w).1.2 (reset_ticks n btn s w).2.
Proof.
  revert btn s w. induction n as [|n IH]; intros btn s w Hr Hk; [exact Hr|].
  cbn [reset_ticks reset_ticks_ok] in *.
  destruct (tickReset _ _ _ _ _ w) as [[[[btn' s'] g'] r'] w'|] eqn:Et; [|done].
  apply IH; [|done]. eapply reset_ticked; [exact Hr|by exists []|exact Et].
Qed.
End Pressed.

(** * Pumping the LEDs ends *)
Section Pump.
Context {E : Env} {L : ClockLawful E}.

(** A pattern whose phases last at most [d] ms. *)
Definition led_ok (d : Z) (l : Led) : Prop :=
  0 <= remaining l <= 255 ∧ 0 <= onMs l <= d ∧ 0 <= offMs l <= d ∧ 0 <= nextFlipMs l.

(** Microseconds of clock the rest of the pattern can still take at time [us]. *)
Definition led_cost (d us : Z) (l : Led) : Z :=
  if remaining l =? 0 then 0
  else Z.max 0 (nextFlipMs l * 1000 - us) + (phases_left l - 1) * (d * 1000 + 1) + 1.

Lemma led_cost_nonneg d us l : 0 <= d → led_ok d l → 0 <= led_cost d us l.
Proof.
  intros Hd (Hr & _). unfold led_cost, phases_left. destruct (Z.eqb_spec (remaining l) 0); [lia|].
  destruct (onPhase l); nia.
Qed.

Lemma led_cost_step d us us' l w :
  0 <= d <= 100000 → led_ok d l → 0 <= us < 2 ^ 63 → us < us' →
  ∃ l' w', update (us / 1000) l w = Ok l' w' ∧ later w w' ∧ led_ok d l' ∧
    (isBusy l' = true → isBusy l = true) ∧
    led_cost d us' l' <= (if isBusy l then led_cost d us l - 1 else 0).
Proof.
  intros Hd Hok Hus Hlt. pose proof Hok as (Hr & Hon & Hoff & Hf). unfold update, isBusy.
  assert (0 <= us / 1000 < 2 ^ 60) as Hnow
    by (split; [apply Z.div_pos; lia|apply Z.div_lt_upper_bound; lia]).
  pose proof (Z.div_mod us 1000 ltac:(lia)). pose proof (Z.mod_pos_bound us 1000 ltac:(lia)).
  destruct (Z.eqb_spec (remaining l) 0) as [Hz|Hz].
  { exists l, w. split; [done|]. split; [by exists []|]. split; [done|]. split; [done|].
    unfold led_cost. rewrite Hz. done. }
  assert ((0 <? remaining l) = true) as -> by (apply Z.ltb_lt; lia).
  destruct (Z.ltb_spec (us / 1000) (nextFlipMs l)).
  { exists l, w. split; [done|]. split; [by exists []|]. split; [done|]. split; [done|].
    unfold led_cost. destruct (Z.eqb_spec (remaining l) 0); lia. }
  assert (∀ s, ∃ w', setState s l w = Ok (with_on s l) w' ∧ later w w') as Hset.
  { intros s. unfold setState. destruct (eqb (isOn l) s) eqn:Es.
    - exists w. apply eqb_prop in Es. subst s. split; [by destruct l|by exists []].
    - eexists. split; [done|by eexists [_]]. }
  destruct (onPhase l) eqn:Hp; unfold wbind.
  - destruct (Hset false) as (w' & -> & Hl). eexists _, w'. split; [done|]. split; [done|].
    cbn [remaining with_on offMs nextFlipMs]. unfold u8. rewrite Z.mod_small by lia.
    unfold led_ok, led_cost, phases_left. rewrite Hp.
    cbn [remaining with_phase with_on onMs offMs nextFlipMs onPhase].
    destruct (Z.ltb_spec 0 (remaining l - 1)).
    + rewrite u64_small by lia. split_and!; try lia; try done.
      destruct (Z.eqb_spec (remaining l - 1) 0), (Z.eqb_spec (remaining l) 0); nia.
    + split_and!; try lia; try done.
      destruct (Z.eqb_spec (remaining l - 1) 0), (Z.eqb_spec (remaining l) 0); nia.
  - destruct (Hset true) as (w' & -> & Hl). eexists _, w'. split; [done|]. split; [done|].
    unfold led_ok, led_cost, phases_left. rewrite Hp.
    cbn [remaining with_phase with_on onMs offMs nextFlipMs onPhase].
    rewrite u64_small by lia. split_and!; try lia; try done.
    destruct (Z.eqb_spec (remaining l) 0); nia.
Qed.

Lemma led_cost_mono d us us' l : us <= us' → led_cost d us' l <= led_cost d us l.
Proof. intros. unfold led_cost. destruct (_ =? 0); lia. Qed.

Definition cost2 (d us : Z) (a : Led) (b : option Led) : Z :=
  led_cost d us a + match b with Some l => led_cost d us l | None => 0 end.
Lemma cost2_mono d us us' a b : us <= us' → cost2 d us' a b <= cost2 d us a b.
Proof.
  intros H. unfold cost2. apply Z.add_le_mono; [by apply led_cost_mono|].
  destruct b; [by apply led_cost_mono|done].
Qed.

Definition busy2 (a : Led) (b : option Led) : bool :=
  isBusy a || match b with Some l => isBusy l | None => false end.

Lemma led_cost_busy d us l : 0 <= d → led_ok d l → isBusy l = true → 1 <= led_cost d us l.
Proof.
  intros Hd (Hr & _). unfold isBusy, led_cost, phases_left. intros ?%Z.ltb_lt.
  destruct (Z.eqb_spec (remaining l) 0); [lia|]. destruct (onPhase l); nia.
Qed.

Definition led2_ok (d : Z) (a : Led) (b : option Led) : Prop :=
  led_ok d a ∧ match b with Some l => led_ok d l | None => True end.

(** One round of updates. *)
Lemma pump_round d us us' a b w :
  0 <= d <= 100000 → led2_ok d a b → 0 <= us < 2 ^ 63 → us < us' →
  ∃ a' b' w1 w2,
    update (us / 1000) a w = Ok a' w1 ∧
    (match b with
     | Some l => l1 <- update (us / 1000) l ;; wret (Some l1)
     | None => wret None
     end) w1 = Ok b' w2 ∧ later w w2 ∧ led2_ok d a' b' ∧
    (busy2 a' b' = true → cost2 d us' a' b' <= cost2 d us a b - 1).
Proof.
  intros Hd [Ha Hb] Hus Hlt. unfold cost2, busy2.
  destruct (led_cost_step d us us' a w Hd Ha Hus Hlt) as (a' & w1 & E1 & L1 & O1 & B1 & C1).
  pose proof (led_cost_nonneg d us' a' ltac:(lia) O1). pose proof (led_cost_nonneg d us a ltac:(lia) Ha).
  destruct b as [l|].
  - destruct (led_cost_step d us us' l w1 Hd Hb Hus Hlt) as (l' & w2 & E2 & L2 & O2 & B2 & C2).
    pose proof (led_cost_nonneg d us l ltac:(lia) Hb).
    exists a', (Some l'), w1, w2. split; [done|]. split; [unfold wbind; by rewrite E2|].
    split; [by eapply later_trans|]. split; [by split|].
    intros [Hx|Hx]%orb_prop; [rewrite (B1 Hx) in C1|rewrite (B2 Hx) in C2];
      destruct (isBusy a), (isBusy l); lia.
  - exists a', None, w1, w1. split; [done|]. split; [done|]. split; [done|]. split; [by split|].
    rewrite orb_false_r. intros Hx. rewrite (B1 Hx) in C1. lia.
Qed.

(** The pump returns with both LEDs idle: every round costs clock time, and a
    pattern only lasts so long. *)
Lemma pump_ends d fuel a b w :
  0 <= d <= 100000 → led2_ok d a b → cost2 d (env_timer (w_trace w)) a b < Z.of_nat fuel →
  in_range_clock (world_of (pumpLedsUntilIdle fuel a b w)) →
  ∃ a' b' w', pumpLedsUntilIdle fuel a b w = Ok (a', b') w' ∧ busy2 a' b' = false.
Proof using L.
  intros Hd. revert a b w. induction fuel as [|fuel IH]; intros a b w Hok Hc HR.
  { destruct Hok as [Ha Hb]. pose proof (led_cost_nonneg d (env_timer (w_trace w)) a ltac:(lia) Ha).
    unfold cost2 in Hc. destruct b as [l|]; [pose proof (led_cost_nonneg d (env_timer (w_trace w)) l ltac:(lia) Hb)|];
      lia. }
  assert (in_range_clock w) as R0.
  { pose proof (pump_emits (λ _, True) ltac:(done) (S fuel) a b w) as Hg. unfold wp in Hg.
    destruct (pumpLedsUntilIdle (S fuel) a b w); by eapply later_clock; [eapply appended_later|]. }
  pose proof (timer_nonneg (w_trace w)) as Hnn. cbn [pumpLedsUntilIdle] in HR |- *.
  set (us := env_timer (w_trace w)) in *.
  set (w0 := World (EvTimer us :: w_trace w) (w_eeprom w) (w_err w)).
  unfold wbind at 1 in HR. unfold wbind at 1. change (now_ms w) with (Ok (u64 us / 1000) w0) in HR |- *.
  cbv beta iota in HR |- *. unfold in_range_clock in R0. fold us in R0. rewrite u64_small in HR |- * by lia.
  destruct (pump_round d us (us + 1) a b w0 Hd Hok ltac:(lia) ltac:(lia))
    as (a' & b' & w1 & w2 & E1 & E2 & L2 & O2 & C2).
  unfold wbind at 1 in HR. unfold wbind at 1. rewrite E1 in HR |- *.
  unfold wbind at 1 in HR. unfold wbind at 1. rewrite E2 in HR |- *.
  rewrite <- negb_orb in HR |- *. fold (busy2 a' b') in HR |- *.
  destruct (busy2 a' b') eqn:Hb; cbn [negb] in HR |- *; [|by exists a', b', w2].
  specialize (C2 eq_refl). unfold wbind in HR |- *. cbn [vTaskDelay emit] in HR |- *.
  apply IH; [done| |exact HR]. cbn [w_trace].
  assert (us < env_timer (EvDelay 5 :: w_trace w2)) as Hus.
  { destruct L2 as [evs H2]. rewrite H2. eapply Z.le_lt_trans; [|by apply timer_delay].
    change (w_trace w0) with ([EvTimer us] ++ w_trace w). rewrite app_assoc. apply timer_monotone. }
  pose proof (cost2_mono d (us + 1) (env_timer (EvDelay 5 :: w_trace w2)) a' b'
    (proj2 (Z.le_succ_l us _) Hus)) as Hm.
  eapply Z.le_lt_trans; [exact Hm|]. clear Hm Hus. clearbody us.
  lia.
Qed.
End Pump.

(** * The role button *)
Section Role.
Context {E : Env} {L : ClockLawful E} {N : NvsLawful E}.
Abbreviation stored w := (nvs_store nvs_initial (w_trace w)).

(** The role a boot reads from NVS. *)
Definition master_flag (w : world) : bool := negb (u8_of (stored w MASTER_FLAG) 0 =? 0).

Lemma load_bool_run key w :
  isInitialized (w_eeprom w) = true →
  ∃ w', load_bool key w = Ok (negb (u8_of (stored w key) 0 =? 0)) w' ∧ w_eeprom w' = w_eeprom w ∧
    w_err w' = w_err w ∧ ∀ k, stored w' k = stored w k.
Proof.
  intros Hi. unfold load_bool, ensureInitialized, get_eeprom, wret. unfold wbind at 1 2.
  rewrite Hi. cbn [negb]. unfold nvsGetBool, wbind. rewrite nvsGetU8_run. by eexists.
Qed.

Lemma loadMasterFlag_run w :
  isInitialized (w_eeprom w) = true →
  ∃ w', loadMasterFlag w = Ok (master_flag w) w' ∧ w_eeprom w' = w_eeprom w ∧ w_err w' = w_err w ∧
    ∀ k, stored w' k = stored w k.
Proof. apply (load_bool_run MASTER_FLAG). Qed.

Lemma saveMasterFlag_run (v : bool) w :
  ready w → ∃ w', saveMasterFlag v w = Ok tt w' ∧ saved_u8 MASTER_FLAG (if v then 1 else 0) w w'.
Proof. apply (save_u8_run MASTER_FLAG (if v then 1 else 0)). Qed.

Lemma green_pulse_run n on off l w :
  led_initialized l = true → 0 < n <= 255 → 0 <= on <= 10000 → 0 <= off <= 10000 →
  in_range_clock (world_of (pulse false n on off l w)) →
  ∃ l' w', pulse false n on off l w = Ok l' w' ∧ appended is_panel_event w w' ∧
    led_ok (Z.max on off) l' ∧
    led_cost (Z.max on off) (env_timer (w_trace w')) l' <= 2 * n * (Z.max on off * 1000 + 1).
Proof using L.
  intros Hi Hn Hon Hoff HR.
  pose proof (pulse_emits is_panel_event ltac:(done) false n on off l w) as Hem.
  unfold wp, pulse in *. rewrite Hi in Hem, HR |- *. cbn [negb] in Hem, HR |- *.
  destruct (Z.eqb_spec n 0); [lia|].
  set (l1 := with_phase n true (nextFlipMs l) (with_periods on off l)) in *.
  assert (∃ w1, setState true l1 w = Ok (with_on true l1) w1) as [w1 E1].
  { unfold setState. destruct (eqb (isOn l1) true) eqn:Es; [|by eexists].
    apply eqb_prop in Es. exists w. unfold with_on. rewrite <- Es. by destruct l. }
  unfold wbind at 1 in HR. unfold wbind at 1. unfold wbind at 1 in Hem. rewrite E1 in Hem, HR |- *.
  set (us := env_timer (w_trace w1)) in *.
  change ((now <- now_ms ;; wret (with_phase n true (u64 (now + on)) (with_on true l1))) w1)
    with (Ok (with_phase n true (u64 (u64 us / 1000 + on)) (with_on true l1))
            (World (EvTimer us :: w_trace w1) (w_eeprom w1) (w_err w1))) in Hem, HR |- *.
  eexists _, _. split; [done|]. split; [exact Hem|].
  assert (in_range_clock w1) as R1 by (eapply later_clock, HR; by exists [EvTimer us]).
  destruct (clock_ms w1 R1) as [Ht B]. fold us in Ht. rewrite Ht.
  pose proof (timer_nonneg (w_trace w1)) as Hnn. fold us in Hnn.
  pose proof (timer_monotone [EvTimer us] (w_trace w1)) as Hmono. fold us in Hmono. cbn [app] in Hmono.
  unfold led_ok, led_cost, phases_left. cbn [remaining with_phase onMs offMs nextFlipMs onPhase w_trace].
  rewrite u64_small by lia. change (onMs (with_on true l1)) with on.
  change (offMs (with_on true l1)) with off.
  split; [lia|]. destruct (Z.eqb_spec n 0); [lia|].
  change (ms_now w1) with (us / 1000) in *.
  pose proof (Z.div_mod us 1000 ltac:(lia)). pose proof (Z.mod_pos_bound us 1000 ltac:(lia)).
  revert Hmono. generalize (env_timer (EvTimer us :: w_trace w1)). intros T Hmono.
  clearbody us. nia.
Qed.

Lemma detectHold_panel btn h w fired h1 w1 :
  detectHold HOLD_MS btn h w = Ok (fired, h1) w1 →
  w_eeprom w1 = w_eeprom w ∧ appended is_panel_event w w1.
Proof.
  intros Hd. split.
  - unfold detectHold, isPressed, now_ms, esp_timer_get_time, gpio_get_level, wbind, ask, emit, wret in Hd.
    repeat case_match; by simplify_eq/=.
  - eapply emits_Ok; [|exact Hd]. by apply detectHold_emits.
Qed.

Lemma world_of_bind {A B} (c : W A) (k : A → W B) w :
  (∀ a, grows (k a)) → later (world_of (c w)) (world_of (wbind c k w)).
Proof.
  intros Hk. unfold wbind. destruct (c w) as [a w1|w1]; [|by exists []]. cbn [world_of].
  specialize (Hk a w1). unfold wp in Hk. destruct (k a w1); by eapply appended_later.
Qed.

(** The end of a role change: the LED pattern, two seconds, a restart. *)
Definition farewell {A} (fuel : nat) (n : Z) (g : Led) : W A :=
  g1 <- pulse false n 200 200 g ;;
  pumpLedsUntilIdle fuel g1 None ;;;
  vTaskDelay 2000 ;;;
  esp_restart.

Lemma farewell_run {A} fuel n g w :
  led_initialized g = true → 0 < n <= 3 → 1200006 < Z.of_nat fuel →
  in_range_clock (world_of (@farewell A fuel n g w)) →
  ∃ w' tr, @farewell A fuel n g w = Halt w' ∧ w_trace w' = EvRestart :: tr ∧
           appended is_panel_event w w'.
Proof using L.
  intros Hg Hn Hfuel HR.
  assert (emits is_panel_event (@farewell A fuel n g)) as Hem.
  { pose proof (pulse_emits is_panel_event ltac:(done)). pose proof (pump_emits is_panel_event ltac:(done)).
    unfold farewell, vTaskDelay, esp_restart. solve_emits. }
  specialize (Hem w). unfold wp in Hem.
  assert (∀ g1, grows (pumpLedsUntilIdle fuel g1 None ;;; vTaskDelay 2000 ;;; @esp_restart A)) as Hgr.
  { pose proof (pump_emits (λ _, True) ltac:(done)). unfold grows, vTaskDelay, esp_restart. solve_emits. }
  destruct (green_pulse_run n 200 200 g w Hg ltac:(lia) ltac:(lia) ltac:(lia)) as (g1 & w1 & E1 & _ & O1 & C1).
  { eapply later_clock, HR. by apply world_of_bind. }
  unfold farewell in *. unfold wbind at 1 in HR. unfold wbind at 1. unfold wbind at 1 in Hem.
  rewrite E1 in HR, Hem |- *.
  destruct (pump_ends 200 fuel g1 None w1 ltac:(lia)) as (a' & b' & w2 & E2 & _).
  - by split.
  - unfold cost2. change (Z.max 200 200) with 200 in C1. lia.
  - eapply later_clock, HR. apply world_of_bind. unfold grows, vTaskDelay, esp_restart. solve_emits.
  - unfold wbind at 1. unfold wbind at 1 in Hem. rewrite E2 in Hem |- *. eexists _, _.
    split; [reflexivity|]. split; [reflexivity|exact Hem].
Qed.

(** Holding the config button for five seconds in production swaps the
    node's role: once the hold is detected the negated role is in NVS (or an NVS
    write failed), the LED pattern plays to its end, and the device restarts -
    in at most [fuel] rounds of the pump, whatever the clock does. *)
Lemma config_hold_toggles_role fuel btn h n g dev w btn1 h1 w1 :
  ready w → led_initialized g = true →
  detectHold HOLD_MS btn h w = Ok (true, btn1, h1) w1 →
  1200006 < Z.of_nat fuel →
  env_timer (w_trace (world_of (tickConfig fuel false btn h n g dev w))) < 2 ^ 63 →
  ∃ w' tr, tickConfig fuel false btn h n g dev w = Halt w' ∧ w_trace w' = EvRestart :: tr ∧
    (master_flag w' = negb (master_flag w) ∨ nvs_write_fault E).
Proof using L N.
  intros R Hg Hd Hfuel HR.
  destruct (detectHold_panel _ _ _ _ _ _ Hd) as (He & evs & Ht & Hp).
  assert (ready w1 ∧ ∀ k, stored w1 k = stored w k) as [R1 S1].
  { split; [destruct R as [Ra Rb]; by split; rewrite He|]. intros k. rewrite Ht. by apply panel_events_store. }
  unfold tickConfig in *. unfold wbind at 1 in HR. unfold wbind at 1. rewrite Hd in HR |- *.
  cbv beta iota zeta in HR |- *. change (negb true) with false in HR |- *. cbv iota in HR |- *.
  destruct (loadMasterFlag_run w1 (proj1 R1)) as (w2 & E2 & He2 & _ & S2).
  unfold wbind at 1 in HR. unfold wbind at 1. rewrite E2 in HR |- *.
  assert (ready w2) as R2 by (destruct R1 as [Ra Rb]; by split; rewrite He2).
  assert (master_flag w1 = master_flag w) as Hm by (unfold master_flag; by rewrite S1).
  rewrite Hm in HR |- *. clear Hm.
  destruct (saveMasterFlag_run (negb (master_flag w)) w2 R2) as (w3 & E3 & S3).
  set (v := negb (master_flag w)) in *. unfold wbind at 1 in HR. unfold wbind at 1. rewrite E3 in HR |- *.
  destruct (farewell_run fuel (if v then 3 else 2) g w3 Hg ltac:(by destruct v) Hfuel HR)
    as (w4 & tr & E4 & T4 & P4).
  exists w4, tr. split; [exact E4|]. split; [done|].
  destruct S3 as (_ & _ & _ & [S3|[S3 F]]); [left|by right].
  destruct P4 as (evs4 & H4 & P4). unfold master_flag at 1. rewrite H4, panel_events_store by done.
  rewrite S3. by destruct v.
Qed.
End Role.

(** * Witnesses *)
(** Six ticks of a held reset button: the reset is armed, and the second hold is
    one tick short of confirming. *)
Definition demo_reset : Button * ResetHold * world :=
  reset_ticks (E := slow_env) 6 (button_new RESET_BUTTON_PIN) reset_new ref_world.

Definition still_held (r : result (Button * ResetHold * Led * Led)) : bool :=
  match r with Ok out _ => wasPressed (r_hold out.1.1.2) | Halt _ => true end.

Lemma reset_never_wipes_witness :
  confirmPending demo_reset.1.2 = true ∧ wasPressed (r_hold demo_reset.1.2) = true ∧
  ∃ out w2,
    tickReset (E := slow_env) 0 demo_reset.1.1 demo_reset.1.2 (led_new GREEN_LED_PIN)
      (led_new RED_LED_PIN) demo_reset.2 = Ok out w2 ∧
    wasPressed (r_hold out.1.1.2) = false ∧ appended no_erase demo_reset.2 w2.
Proof.
  assert (reset_reach (E := slow_env) 0 demo_reset.1.1 demo_reset.1.2 demo_reset.2) as Hr.
  { apply reset_ticks_reach; [apply reset_boot|vm_compute; reflexivity]. }
  split; [vm_compute; reflexivity|]. split; [vm_compute; reflexivity|].
  destruct (@reset_never_wipes slow_env slow_env_clock 0 demo_reset.1.1 demo_reset.1.2
    (led_new GREEN_LED_PIN) (led_new RED_LED_PIN) demo_reset.2 demo_reset.2 Hr)
    as (out & w2 & E1 & A); [apply later_refl|vm_compute; reflexivity|].
  exists out, w2. split; [exact E1|]. split; [|exact A].
  assert (still_held (tickReset (E := slow_env) 0 demo_reset.1.1 demo_reset.1.2 (led_new GREEN_LED_PIN)
            (led_new RED_LED_PIN) demo_reset.2) = false) as Hf by (vm_compute; reflexivity).
  rewrite E1 in Hf. exact Hf.
Defined.

(** A config button held since the first second. *)
Definition demo_hold : Hold := HoldState true 1000.
Definition demo_pressed : Button := ButtonState CONFIG_BUTTON_PIN true 0 3 true.
Definition demo_late_world : world :=
  World (replicate 20 (EvTimer 0)) (w_eeprom ref_world) (w_err ref_world).
