(* ===== verification/Main.v ===== *)
(** The firmware's entry point (main.cpp): the boot sequence, the receive callback
    and one pass of the housekeeping task.

    [MainState] holds main.cpp's globals and the static locals of the functions it
    calls.  The red LED is also driven by the error core, whose own patterns are
    the [EvPulse] events and are not animated here.  [initDrivers] and
    [spawnTasks] are in [Startup]. *)
From S2P Require Import Prelude Config Nanopb Wire Platform ErrorCore SerialFraming Hardware SevenSeg Eeprom PeerRegistry.
From S2P Require Import Transport Crypto Enrollment Node Messenger Mesh Boot Adapter SerialAdapter PirAdapter App.

(** [std::unique_ptr<Adapter>]: the object behind the base class. *)
Inductive AdapterObject := APir (p : PirAdapter) | ASerial (s : SerialAdapter).

Definition base_of (o : AdapterObject) : Adapter :=
  match o with APir p => p_base p | ASerial s => s_base s end.
Definition with_base_of (a : Adapter) (o : AdapterObject) : AdapterObject :=
  match o with APir p => APir (with_pir_base a p) | ASerial s => ASerial (with_base a s) end.

(** What [createAdapter] constructed. *)
Definition adapter_object (a : Adapter) : AdapterObject :=
  if adapterType a =? PIR_ADAPTER then APir (pir_adapter_new (a_pin a))
  else ASerial (serial_new (a_pin a)).

Record MainState := Main {
  greenLed : Led;
  redLed : Led;
  configButton : Button;
  resetButton : Button;
  sevenSeg : SevenSegDisplay;
  mesh : Node;
  adapter : option AdapterObject;
  isDevMode : bool;
  devMasterFlag : bool;
  configHold : Hold;
  resetHold : ResetHold;
  displayState : DisplayState;
  startupBlinkDone : bool
}.

Definition main_new : MainState :=
  Main (led_new GREEN_LED_PIN) (led_new RED_LED_PIN) (button_new CONFIG_BUTTON_PIN)
    (button_new RESET_BUTTON_PIN) (sevenseg_new SEVSEG_DATA_PIN SEVSEG_CLK_PIN) node_new None false
    DEFAULT_DEV_MASTER hold_new reset_new display_new false.

Definition with_leds (g r : Led) (m : MainState) : MainState :=
  Main g r (configButton m) (resetButton m) (sevenSeg m) (mesh m) (adapter m) (isDevMode m)
    (devMasterFlag m) (configHold m) (resetHold m) (displayState m) (startupBlinkDone m).
Definition with_buttons (c r : Button) (m : MainState) : MainState :=
  Main (greenLed m) (redLed m) c r (sevenSeg m) (mesh m) (adapter m) (isDevMode m)
    (devMasterFlag m) (configHold m) (resetHold m) (displayState m) (startupBlinkDone m).
Definition with_mesh (n : Node) (m : MainState) : MainState :=
  Main (greenLed m) (redLed m) (configButton m) (resetButton m) (sevenSeg m) n (adapter m)
    (isDevMode m) (devMasterFlag m) (configHold m) (resetHold m) (displayState m) (startupBlinkDone m).
Definition with_adapter (a : option AdapterObject) (m : MainState) : MainState :=
  Main (greenLed m) (redLed m) (configButton m) (resetButton m) (sevenSeg m) (mesh m) a
    (isDevMode m) (devMasterFlag m) (configHold m) (resetHold m) (displayState m) (startupBlinkDone m).
Definition with_dev (d : bool) (m : MainState) : MainState :=
  Main (greenLed m) (redLed m) (configButton m) (resetButton m) (sevenSeg m) (mesh m) (adapter m)
    d (devMasterFlag m) (configHold m) (resetHold m) (displayState m) (startupBlinkDone m).
Definition with_dev_master (d : bool) (m : MainState) : MainState :=
  Main (greenLed m) (redLed m) (configButton m) (resetButton m) (sevenSeg m) (mesh m) (adapter m)
    (isDevMode m) d (configHold m) (resetHold m) (displayState m) (startupBlinkDone m).
Definition with_holds (c : Hold) (r : ResetHold) (m : MainState) : MainState :=
  Main (greenLed m) (redLed m) (configButton m) (resetButton m) (sevenSeg m) (mesh m) (adapter m)
    (isDevMode m) (devMasterFlag m) c r (displayState m) (startupBlinkDone m).
Definition with_display (d : DisplayState) (m : MainState) : MainState :=
  Main (greenLed m) (redLed m) (configButton m) (resetButton m) (sevenSeg m) (mesh m) (adapter m)
    (isDevMode m) (devMasterFlag m) (configHold m) (resetHold m) d (startupBlinkDone m).
Definition with_blink_done (m : MainState) : MainState :=
  Main (greenLed m) (redLed m) (configButton m) (resetButton m) (sevenSeg m) (mesh m) (adapter m)
    (isDevMode m) (devMasterFlag m) (configHold m) (resetHold m) (displayState m) true.

(** [err_core::init]'s test of the reset reason. *)
Definition unexpected_reset (reason : Z) : bool :=
  negb (reason =? ESP_RST_POWERON) && negb (reason =? ESP_RST_SW) && negb (reason =? ESP_RST_EXT).

(** ** The default peer list

    [savePeerList] takes records of [PEER_RECORD_SIZE] bytes; main.cpp hands it the
    12 bytes of [DEFAULT_PEERS].  [after] is what memory holds behind the array. *)
Definition peer_records (n : nat) (memory : bytes) : list bytes :=
  (λ i, slice (i * PEER_RECORD_SIZE) PEER_RECORD_SIZE memory) <$> seq 0 n.
Definition default_peer_records (after : bytes) : list bytes :=
  peer_records (length DEFAULT_PEERS) (concat DEFAULT_PEERS ++ after).

(** The provisioning line, ["LATTICE_PUBKEY:"], the key in upper-case hex, newline. *)
Definition hex_digit (x : Z) : Z := if x <? 10 then 48 + x else 55 + x.
Definition pubkey_line (key : bytes) : bytes :=
  [76; 65; 84; 84; 73; 67; 69; 95; 80; 85; 66; 75; 69; 89; 58]
  ++ concat ((λ b, [hex_digit (b / 16); hex_digit (b mod 16)]) <$> take 32 key) ++ [10].

Section Main.
Context {E : Env} {C : Crypto} {Pr : Protocol} {Pn : Pin}.

(** * The receive callback *)
Definition onMeshDataImpl (o : AdapterObject) (message : mesh_message) (b : Board) : W Board :=
  match o with
  | APir _ => wret b
  | ASerial _ => onMeshDataImpl_serial message b
  end.

(** The body of [dataRecvCallback]; [callback] is what the mesh calls when the
    adapter's answer is delivered back to the node itself. *)
Definition callback_body (o : option AdapterObject) (callback : mesh_message → Board → W Board)
    (message : mesh_message) (b : Board) : W Board :=
  b1 <- (match o with
         | Some obj => onMeshData callback (onMeshDataImpl obj) (base_of obj) message b
         | None => wret b
         end) ;;
  g <- pulse false 2 100 100 (board_green b1) ;;
  wret (OnBoard (board_node b1) g (isDevMode_ b1)).

(** The recursion of [dataRecvCallback], two calls deep. *)
Definition dataRecvCallback (o : option AdapterObject) : mesh_message → Board → W Board :=
  callback_body o (callback_body o (λ _ _, whalt)).

(** * Boot *)
(** [initHardwareOutputs]; [reason] is [esp_reset_reason()].  A red LED that does not
    initialise ends in the endless loop of [haltOnRedLedFailure]. *)
Definition initHardwareOutputs (reason : Z) (m : MainState) : W MainState :=
  eeprom_init ;;;
  boot_check reason ;;;
  let* (red_ok, r) := led_init true (redLed m) in
  if negb red_ok then led_init false (greenLed m) ;;; emit EvHang ;;; whalt
  else
    (if ENABLE_SEVSEG_DISPLAY then
       sevenseg_init (sevenSeg m) ;;; err_init true (led_initialized r) true (unexpected_reset reason)
     else err_init true (led_initialized r) false (unexpected_reset reason)) ;;;
    g <- (if negb (led_initialized (greenLed m)) then
            let* (ok, g) := led_init false (greenLed m) in
            if negb ok then fatal E_HARDWARE M_CORE 1 else wret g
          else wret (greenLed m)) ;;
    let (config_ok, c) := button_init (configButton m) in
    (if negb config_ok then fail E_HARDWARE M_CORE 5 ;;; wret tt else wret tt) ;;;
    let (reset_ok, rb) := button_init (resetButton m) in
    (if negb reset_ok then fail E_HARDWARE M_CORE 6 ;;; wret tt else wret tt) ;;;
    ok <- eeprom_init ;;
    if negb ok then fatal E_MEMORY M_CORE 2
    else wret (with_buttons c rb (with_leds g r m)).

Definition adapter_init (o : AdapterObject) : W (bool * AdapterObject) :=
  match o with
  | APir p => let* (ok, p') := pir_adapter_init p in wret (ok, APir p')
  | ASerial s => wret (true, ASerial s)
  end.

(** What the drivers answer at boot: the channel selection, [esp_now_init], the
    primary key, the station MAC, turning modem sleep off. *)
Record Radio := RadioAnswers {
  channel_ok : bool;
  espnow_ok : bool;
  pmk_ok : bool;
  sta_mac : option mac;
  ps_ok : bool
}.

Definition initSubsystems (after : bytes) (radio : Radio) (m : MainState) : W (bool * MainState) :=
  dev <- (if DEV_MODE then wret true else loadDevFlag) ;;
  setDevMode dev ;;;
  peers_known <- (if dev then wret true else hasPeers) ;;
  (if negb dev && negb peers_known then savePeerList (default_peer_records after) else wret tt) ;;;
  (if dev then wret tt else initializeDefaultsIfUnset dev) ;;;
  created <- (if dev then createAdapter DEFAULT_ADAPTER (getDefaultPinForAdapter DEFAULT_ADAPTER)
              else createFromEEPROM dev) ;;
  match created with
  | None => fatal E_HARDWARE M_CORE 3
  | Some base =>
      let* (ready, o) := adapter_init (adapter_object base) in
      if negb ready then fatal E_HARDWARE M_CORE 4
      else
        let* (up, n) := mesh_init (channel_ok radio) (espnow_ok radio) (pmk_ok radio) (sta_mac radio)
                          (mesh m) in
        if negb up then fatal E_COMM M_MESH 1
        else
          emit (EvDriver (TaskCreate "mesh" 3 (Some 0)) true) ;;;
          let n1 := setEnrollmentRelayFn n in
          emit (EvDriver WifiPsNone (ps_ok radio)) ;;;
          (if negb (isEnrolled (enrollment n1))
           then uart_write_bytes (pubkey_line (devicePublicKey (enrollment n1))) else wret tt) ;;;
          isMaster <- (if dev then wret (devMasterFlag m) else loadMasterFlag) ;;
          let n2 := linkDataRecvCallback (setIsMaster isMaster n1) in
          let o1 := with_base_of (setTransmitFn (base_of o)) o in
          wret (isMaster, with_mesh n2 (with_adapter (Some o1) (with_dev dev m)))
  end.

(** * Housekeeping *)
(** [err_core::tick]. *)
Definition err_tick (red : Led) : W Led :=
  s <- get_err ;;
  if errorLed s then now <- now_ms ;; update now red else wret red.

Definition adapter_loop (rx : bytes) (m : MainState) : W MainState :=
  let b := OnBoard (mesh m) (greenLed m) (isDevMode m) in
  match adapter m with
  | None => wret m
  | Some (APir p) =>
      let* (p', b') := pir_loop p b in
      wret (with_leds (board_green b') (redLed m)
              (with_mesh (board_node b') (with_adapter (Some (APir p')) m)))
  | Some (ASerial s) =>
      let* (s', b') := serial_loop (dataRecvCallback (adapter m)) rx s b in
      wret (with_leds (board_green b') (redLed m)
              (with_mesh (board_node b') (with_adapter (Some (ASerial s')) m)))
  end.

Definition button_tick (fuel : nat) (m : MainState) : W MainState :=
  let* r := tickConfig fuel (isDevMode m) (configButton m) (configHold m) (mesh m) (greenLed m)
              (devMasterFlag m) in
  let '(c, ch, n, g, dm) := r : Button * Hold * Node * Led * bool in
  let* r2 := tickReset fuel (resetButton m) (resetHold m) g (redLed m) in
  let '(rb, rh, g2, r3) := r2 : Button * ResetHold * Led * Led in
  wret (with_buttons c rb (with_leds g2 r3 (with_mesh n (with_dev_master dm (with_holds ch rh m))))).

Definition show_identity (m : MainState) : W MainState :=
  if ENABLE_SEVSEG_DISPLAY then
    let role := isMaster (mesh m) in
    let enrolled := isEnrolled (enrollment (mesh m)) || role in
    nodeId <- loadNodeId ;;
    let isPrimaryMaster := role && mac_eq (deviceMacAddress (mesh m)) MASTER_MAC in
    d <- display_tick (sevenSeg m) enrolled role isPrimaryMaster nodeId (displayState m) ;;
    wret (with_display d m)
  else wret m.

(** One pass of [housekeeping_task_fn]'s loop up to the buttons; [rx] is what the
    UART holds. *)
Definition housekeeping_work (rx : bytes) (m : MainState) : W MainState :=
  drainPendingBlink ;;;
  nowMs <- now_ms ;;
  g <- update nowMs (greenLed m) ;;
  r <- update nowMs (redLed m) ;;
  r1 <- err_tick r ;;
  m1 <- (if startupBlinkDone m then wret (with_leds g r1 m)
         else
           g1 <- pulse false 2 200 200 g ;;
           r2 <- pulse true 2 200 200 r1 ;;
           wret (with_blink_done (with_leds g1 r2 m))) ;;
  n1 <- mesh_loop relayEnrollmentToServer (mesh m1) ;;
  n2 <- checkMasterTimeout n1 ;;
  m2 <- show_identity (with_mesh n2 m1) ;;
  let* (skipDataForwarding, n3) := tickEnrollmentBroadcast nowMs (mesh m2) in
  let m3 := with_mesh n3 m2 in
  if negb skipDataForwarding then adapter_loop rx m3 else wret m3.

(** The whole pass. *)
Definition housekeeping (fuel : nat) (rx : bytes) (m : MainState) : W MainState :=
  m4 <- housekeeping_work rx m ;;
  m5 <- button_tick fuel m4 ;;
  vTaskDelay 10 ;;;
  wret m5.
End Main.

(** * The receive callback ends *)
Section Callback.
Context {E : Env} {C : Crypto} {Pr : Protocol} {Pn : Pin}.

(** A frame that carries a health report. *)
Definition is_report (message : mesh_message) : Prop := nth 0 (data message) 0 = OP_HEALTH_REPORT.
Definition delivers_report (e : event) : Prop :=
  match e with EvDeliver m => is_report m | _ => True end.

Lemma find_op_report callback : find_op OP_HEALTH_REPORT (kControlOps callback) = None.
Proof.
  pose proof opcodes_distinct as Hd. unfold kControlOps. cbn [find_op].
  assert (∀ x : Z, x ∈ [OP_CONFIG_SET; OP_NODE_ID_SET; OP_HEALTH_REQ; OP_TX_POWER_SET] →
            (x =? OP_HEALTH_REPORT) = false) as Hne.
  { intros x Hx. apply Z.eqb_neq. intros ->. rewrite !NoDup_cons in Hd. set_solver. }
  rewrite !Hne by set_solver. done.
Qed.

Lemma body_report o c1 c2 message b w :
  is_report message → callback_body o c1 message b w = callback_body o c2 message b w.
Proof.
  intros Hr. unfold callback_body. destruct o as [obj|]; [|done].
  assert (∀ w, onMeshData c1 (onMeshDataImpl obj) (base_of obj) message b w =
               onMeshData c2 (onMeshDataImpl obj) (base_of obj) message b w) as He.
  { intros w'. unfold onMeshData, dispatchControlOp. rewrite Hr, !find_op_report. done. }
  unfold wbind at 1 3. by rewrite He.
Qed.

Lemma buildMessage_data type payload mt dev cm tx w :
  wp (buildMessage type payload mt dev cm tx) w (λ r _, data r.1 = payload_data payload) (λ _, True).
Proof. unfold buildMessage. apply wp_any. intros [q tx'] w1. by apply wp_ret. Qed.

Lemma buildHealthFrame_head op a b w :
  wp (buildHealthFrame op (zeros 64) a b) w (λ r _, nth 0 (take 64 r) 0 = op) (λ _, False).
Proof. unfold buildHealthFrame, wp, wbind, esp_timer_get_time, ask, emit, wret. by cbn. Qed.

(** What a self-originated transmission delivers carries its payload. *)
Lemma transmitSelf_delivers payload n :
  nth 0 (take 64 payload) 0 = OP_HEALTH_REPORT →
  emits delivers_report (transmitSelfOriginated SERIAL_ADAPTER (Some payload) n).
Proof.
  intros Hp. unfold transmitSelfOriginated, transmitDispatch. destruct (isMaster n).
  2: { eapply emits_weaken; [apply transmitCore_silent|]. by intros []. }
  unfold broadcastAdapterData.
  apply (emits_bind_spec _ _ _ (λ r, data r.1 = take 64 payload)).
  - eapply emits_weaken; [apply buildMessage_quiet|]. by intros [].
  - intros w. apply (buildMessage_data _ (Some payload)).
  - intros [msg tx] Hd. cbn [fst] in Hd.
    assert (∀ m ps d, emits delivers_report (broadcastToAllPeers m ps d))
      by (intros; apply broadcastToAllPeers_emits; [by intros []|done]).
    assert (delivers_report (EvDeliver (set_target BROADCAST_MAC msg)))
      by (cbn; unfold is_report; cbn [data set_target]; by rewrite Hd).
    unfold deliver. solve_emits.
Qed.

Lemma new_deliveries_reports w w' :
  appended delivers_report w w' → Forall is_report (new_deliveries w w').
Proof.
  intros (evs & H & HF). unfold new_deliveries. rewrite H, length_app, Nat.add_sub, take_app_length.
  apply Forall_reverse. clear H. induction HF as [|e evs He _ IH]; [constructor|].
  destruct e; cbn; try done. by constructor.
Qed.

Lemma wfold_ext {A S} (f g : A → S → W S) l s w :
  Forall (λ x, ∀ s' w', f x s' w' = g x s' w') l → wfold f l s w = wfold g l s w.
Proof.
  intros HF. revert s w. induction HF as [|x l Hx _ IH]; intros s w; [done|]. cbn [wfold]. unfold wbind.
  rewrite Hx. destruct (g x s w); [apply IH|done].
Qed.

Lemma sendSelf_ext c1 c2 a b w :
  (∀ m b' w', is_report m → c1 m b' w' = c2 m b' w') →
  sendSelfHealthReport c1 a b w = sendSelfHealthReport c2 a b w.
Proof.
  intros Hc. unfold sendSelfHealthReport, wbind.
  pose proof (buildHealthFrame_head OP_HEALTH_REPORT a b w) as Hh. unfold wp in Hh.
  destruct (buildHealthFrame _ _ a b w) as [payload w1|]; [|done]. unfold with_callback.
  pose proof (transmitSelf_delivers payload (board_node b) Hh w1) as He. unfold wp in He.
  destruct (transmitSelfOriginated _ _ _ w1) as [n' w2|]; [|done].
  apply wfold_ext. eapply Forall_impl; [by apply new_deliveries_reports|]. auto.
Qed.

Lemma body_ext o c1 c2 message b w :
  (∀ m b' w', is_report m → c1 m b' w' = c2 m b' w') →
  callback_body o c1 message b w = callback_body o c2 message b w.
Proof.
  intros Hc. unfold callback_body. destruct o as [obj|]; [|done].
  enough (onMeshData c1 (onMeshDataImpl obj) (base_of obj) message b w =
          onMeshData c2 (onMeshDataImpl obj) (base_of obj) message b w) as He
    by (unfold wbind at 1 3; by rewrite He).
  unfold onMeshData. destruct (_ =? _); [|done]. unfold wbind.
  enough (dispatchControlOp c1 (base_of obj) message false b w =
          dispatchControlOp c2 (base_of obj) message false b w) as -> by done.
  unfold dispatchControlOp, kControlOps. cbn [find_op].
  destruct (_ =? _); [done|]. destruct (_ =? _); [done|]. destruct (_ =? _); [|done].
  unfold wbind, opHealthReq. destruct (negb _); [done|]. by rewrite (sendSelf_ext c1 c2).
Qed.

(** The receive callback recurses at most once: handling a health request
    delivers the node's own report back to the callback, and a report triggers
    nothing further.  So the two-deep unfolding is [dataRecvCallback] itself - it
    satisfies the code's recursion equation, whatever stands at the bottom. *)
Theorem data_callback_terminates o callback message b w :
  callback_body o (callback_body o callback) message b w = dataRecvCallback o message b w ∧
  dataRecvCallback o message b w = callback_body o (dataRecvCallback o) message b w.
Proof.
  unfold dataRecvCallback. split; apply body_ext; intros m b' w' Hr; by apply body_report.
Qed.
End Callback.

(** * The node invariant over a whole pass *)
Section Invariant.
Context {E : Env} {C : Crypto} {Pr : Protocol} {Pn : Pin}.

Definition board_keeps (c : W Board) : Prop :=
  ∀ w, wp c w (λ b _, node_wf (board_node b)) (λ _, True).
Definition callback_keeps (callback : mesh_message → Board → W Board) : Prop :=
  ∀ m b, node_wf (board_node b) → board_keeps (callback m b).

Lemma keeps_ret b : node_wf (board_node b) → board_keeps (wret b).
Proof. intros W w. exact W. Qed.

Lemma keeps_any {A} (c : W A) k : (∀ a, board_keeps (k a)) → board_keeps (wbind c k).
Proof. intros Hk w. apply wp_any. intros a w'. apply Hk. Qed.

Lemma keeps_bind c k :
  board_keeps c → (∀ b, node_wf (board_node b) → board_keeps (k b)) → board_keeps (wbind c k).
Proof.
  intros Hc Hk w. apply wp_bind. eapply wp_mono; [apply Hc| |done]. intros b w' W. by apply Hk.
Qed.

Lemma on_node_keeps c b : preserves id (c (board_node b)) → board_keeps (on_node c b).
Proof.
  intros Hc w. unfold on_node. apply wp_bind. eapply wp_mono; [apply Hc| |done].
  intros n w' W. by apply wp_ret.
Qed.

Lemma with_callback_keeps callback c b :
  callback_keeps callback → preserves id (c (board_node b)) → board_keeps (with_callback callback c b).
Proof.
  intros Hcb Hc w. specialize (Hc w). unfold with_callback, wp in *.
  destruct (c (board_node b) w) as [n' w1|]; [|done].
  generalize (new_deliveries w w1). intros l.
  assert (node_wf (board_node (with_node n' b))) as W by exact Hc. revert W.
  generalize (with_node n' b) w1. clear -Hcb. induction l as [|m l IH]; intros b w1 W; [done|].
  cbn [wfold]. unfold wbind. specialize (Hcb m b W w1). unfold wp in Hcb.
  destruct (callback m b w1); [|done]. by apply IH.
Qed.

Lemma sendSelf_keeps callback a b :
  callback_keeps callback → node_wf (board_node b) → board_keeps (sendSelfHealthReport callback a b).
Proof.
  intros Hcb W. unfold sendSelfHealthReport. apply keeps_any. intros payload.
  apply with_callback_keeps; [done|]. by apply transmitDispatch_preserves.
Qed.

Lemma control_keeps callback a msg re b w :
  callback_keeps callback → node_wf (board_node b) →
  wp (dispatchControlOp callback a msg re b) w (λ r _, node_wf (board_node r.2)) (λ _, True).
Proof.
  intros Hcb Hb. unfold dispatchControlOp, kControlOps. cbn [find_op].
  assert (∀ c : W Board, board_keeps c →
    wp (b' <- c ;; wret (true, b')) w (λ r _, node_wf (board_node r.2)) (λ _, True)) as Hk.
  { intros c Hc. apply wp_bind. eapply wp_mono; [apply Hc| |done]. intros b' w' W'. by apply wp_ret. }
  assert (board_keeps (wret b)) as Hr by by apply keeps_ret.
  destruct (_ =? _).
  { apply Hk. unfold opConfigSet. destruct (negb _); [done|]. apply keeps_any. intros [].
    unfold esp_restart. by apply keeps_any. }
  destruct (_ =? _).
  { apply Hk. unfold opNodeIdSet. destruct (negb _); [done|]. by apply keeps_any. }
  destruct (_ =? _).
  { apply Hk. unfold opHealthReq. destruct (negb _); [done|]. by apply sendSelf_keeps. }
  destruct (_ =? _); [|by apply wp_ret].
  apply Hk. unfold opTxPowerSet. destruct (negb _); [done|]. destruct (2 <? _); [done|].
  do 2 (apply keeps_any; intros ?). destruct (negb re); [done|]. destruct (isMaster _); [|done].
  by apply on_node_keeps, broadcastAdapterData_preserves.
Qed.

Lemma body_keeps o callback : callback_keeps callback → callback_keeps (callback_body o callback).
Proof.
  intros Hcb m b W. unfold callback_body. apply keeps_bind.
  2: { intros b1 W1. apply keeps_any. intros g. by apply keeps_ret. }
  destruct o as [obj|]; [|by apply keeps_ret]. unfold onMeshData.
  assert (∀ b', node_wf (board_node b') → board_keeps (onMeshDataImpl obj m b')) as Hi.
  { intros b' W'. destruct obj; cbn; [by apply keeps_ret|]. unfold onMeshDataImpl_serial.
    destruct (_ =? _)%nat; apply keeps_any; intros; by apply keeps_ret. }
  assert (∀ b', node_wf (board_node b') → board_keeps
    (if negb (adapterType (base_of obj) =? SERIAL_ADAPTER) && negb (data_type m =? adapterType (base_of obj))
     then wret b' else onMeshDataImpl obj m b')) as Hd.
  { intros b' W'. destruct (_ && _); [by apply keeps_ret|by apply Hi]. }
  destruct (data_type m =? SERIAL_ADAPTER); [|by apply Hd].
  intros w. apply wp_bind. eapply wp_mono; [by apply control_keeps| |done].
  intros [x b1] w1 W1. cbn [snd] in W1. destruct (negb _); [by apply keeps_ret|by apply Hd].
Qed.

Lemma dataRecvCallback_keeps o : callback_keeps (dataRecvCallback o).
Proof. do 2 apply body_keeps. by intros m b _ w. Qed.

(** ** The adapters' loops *)
Lemma serial_frame_keeps callback a frame b :
  callback_keeps callback → node_wf (board_node b) → board_keeps (handleCompleteFrame callback frame a b).
Proof.
  intros Hcb Hb. unfold handleCompleteFrame.
  destruct (decode _ frame) as [msg|]; [|apply keeps_any; intros; by apply keeps_ret].
  destruct (_ =? _).
  { unfold serial_join_ack. destruct (is_zero _); [by apply keeps_ret|].
    destruct (negb _); by apply on_node_keeps, enrollPeer_preserves. }
  apply keeps_bind.
  - unfold serial_forward. destruct (_ =? _).
    { destruct (mesh_transmit_fn a); [by apply on_node_keeps, transmitDispatch_preserves|].
      apply keeps_any. intros. by apply keeps_ret. }
    destruct (_ =? _); [|by apply keeps_ret].
    destruct (mac_eq _ _); [by apply on_node_keeps, broadcastAdapterData_preserves|
      by apply on_node_keeps, sendDownlink_preserves].
  - intros b1 Hb1. destruct (_ =? _); [|by apply keeps_ret].
    intros w. apply wp_bind. eapply wp_mono; [by apply control_keeps| |done].
    intros [x b2] w2 H2. by apply wp_ret.
Qed.

Lemma receive_keeps h rx f b w :
  (∀ x b', node_wf (board_node b') → board_keeps (h x b')) → node_wf (board_node b) →
  wp (receive h rx (f, b)) w (λ r _, node_wf (board_node r.2)) (λ _, True).
Proof.
  intros Hh. revert f b w. induction rx as [|x rx IH]; intros f b w Hb; [exact Hb|].
  unfold receive. cbn [wfold]. apply wp_bind. cbn [fst snd]. apply wp_any. intros [[] f1] w1.
  - apply wp_bind. eapply wp_mono; [by apply Hh| |done]. intros b1 w2 Hb1. apply wp_ret. by apply IH.
  - apply wp_ret. by apply IH.
Qed.

Lemma serial_loop_keeps callback rx s b w :
  callback_keeps callback → node_wf (board_node b) →
  wp (serial_loop callback rx s b) w (λ r _, node_wf (board_node r.2)) (λ _, True).
Proof.
  intros Hcb Hb. unfold serial_loop. apply wp_any. intros now w1.
  destruct (healthTickDue now (s_base s)) as [due a1].
  assert (∀ s1 b1 w2, node_wf (board_node b1) →
    wp (serial_receive callback rx s1 b1) w2 (λ r _, node_wf (board_node r.2)) (λ _, True)) as Hr.
  { intros s1 b1 w2 Hb1. unfold serial_receive. apply wp_bind.
    eapply wp_mono; [apply receive_keeps; [intros; by apply serial_frame_keeps|done]| |done].
    intros [f b'] w3 Hb'. by apply wp_ret. }
  apply wp_bind. destruct (_ || due).
  - apply wp_bind. eapply wp_mono; [by apply sendSelf_keeps| |done].
    intros b1 w2 Hb1. apply wp_ret. by apply Hr.
  - apply wp_ret. by apply Hr.
Qed.

Lemma sendData_keeps a ty p b : node_wf (board_node b) → board_keeps (sendDataThroughMesh a ty p b).
Proof.
  intros Hb. unfold sendDataThroughMesh. destruct (mesh_transmit_fn a).
  - by apply on_node_keeps, transmitDispatch_preserves.
  - apply keeps_any. intros. by apply keeps_ret.
Qed.

Lemma pir_loop_keeps p b w :
  node_wf (board_node b) →
  wp (pir_loop p b) w (λ r _, node_wf (board_node r.2)) (λ _, True).
Proof.
  intros Hb. unfold pir_loop. destruct (negb _); [by apply wp_ret|].
  apply wp_any. intros now w1. destruct (pir_trigger now p) as [send p1].
  assert (∀ p2 b1 w2, node_wf (board_node b1) →
    wp (pir_health now p2 b1) w2 (λ r _, node_wf (board_node r.2)) (λ _, True)) as Hh.
  { intros p2 b1 w2 Hb1. unfold pir_health. destruct (healthTickDue _ _) as [[] a]; [|by apply wp_ret].
    apply wp_bind. unfold sendNodeHealth. apply wp_any. intros pl w3.
    eapply wp_mono; [by apply sendData_keeps| |done]. intros b2 w4 Hb2. by apply wp_ret. }
  apply wp_bind. apply (wp_mono _ _ (λ b1 _, node_wf (board_node b1)) _ (λ _, True)); [| |done].
  { destruct send; [by apply sendData_keeps|by apply wp_ret]. }
  intros b1 w2 Hb1. destruct (cooled_down _ _); [|by apply Hh].
  apply wp_any. intros [[] x] w3; [by apply Hh|]. apply wp_any. intros r w4. by apply wp_ret.
Qed.

Lemma adapter_loop_keeps rx m w :
  node_wf (mesh m) → wp (adapter_loop rx m) w (λ m' _, node_wf (mesh m')) (λ _, True).
Proof.
  intros Hm. unfold adapter_loop. destruct (adapter m) as [[p|s]|]; [..|by apply wp_ret]; apply wp_bind.
  - eapply wp_mono; [by apply pir_loop_keeps| |done]. intros [p' b'] w1 Hb. by apply wp_ret.
  - eapply wp_mono; [apply serial_loop_keeps; [apply dataRecvCallback_keeps|done]| |done].
    intros [s' b'] w1 Hb. by apply wp_ret.
Qed.

Lemma button_tick_keeps fuel m w :
  node_wf (mesh m) → wp (button_tick fuel m) w (λ m' _, node_wf (mesh m')) (λ _, True).
Proof.
  intros Hm. unfold button_tick. apply wp_bind.
  apply (wp_mono _ _ (λ r _, node_wf r.1.1.2) _ (λ _, True)); [| |done].
  - unfold tickConfig. apply wp_any. intros [[[] btn1] h1] w1; cbn [negb]; [|by apply wp_ret].
    destruct (isDevMode m).
    + apply wp_any. intros g w2. apply wp_ret. by apply setIsMaster_wf.
    + do 5 (apply wp_any; intros ? ?). by apply wp_any.
  - intros [[[[c ch] n] g] dm] w1 Hn. cbn [fst snd] in Hn. apply wp_any.
    intros [[[rb rh] g2] r3] w2. by apply wp_ret.
Qed.

(** One pass of the housekeeping loop - LEDs, the mesh's periodic work, the
    display, the enrollment broadcast, the adapter with whatever arrived on the
    UART, its nested deliveries, the buttons - keeps the node invariant. *)
Theorem housekeeping_wf fuel rx m w m' w' :
  node_wf (mesh m) → housekeeping fuel rx m w = Ok m' w' → node_wf (mesh m').
Proof.
  intros Hm. apply (wp_Ok _ _ (λ m' _, node_wf (mesh m')) (λ _, True)). unfold housekeeping.
  apply wp_bind. apply (wp_mono _ _ (λ m4 _, node_wf (mesh m4)) _ (λ _, True)); [| |done].
  - unfold housekeeping_work. do 5 (apply wp_any; intros ? ?). apply wp_bind.
    apply (wp_mono _ _ (λ m1 _, node_wf (mesh m1)) _ (λ _, True)); [| |done].
    { destruct (startupBlinkDone m); [by apply wp_ret|]. do 2 (apply wp_any; intros ? ?). by apply wp_ret. }
    intros m1 w1 H1. apply wp_bind. eapply wp_mono; [by apply mesh_loop_preserves| |done].
    intros n1 w2 Hn1. apply wp_bind. eapply wp_mono; [by apply timeout_preserves| |done].
    intros n2 w3 Hn2. apply wp_bind.
    apply (wp_mono _ _ (λ m2 _, node_wf (mesh m2)) _ (λ _, True)); [| |done].
    { unfold show_identity. destruct ENABLE_SEVSEG_DISPLAY; [|by apply wp_ret].
      do 2 (apply wp_any; intros ? ?). by apply wp_ret. }
    intros m2 w4 H2. apply wp_bind. eapply wp_mono; [by apply tick_preserves| |done].
    intros [skip n3] w5 Hn3. cbn [snd] in Hn3.
    destruct skip; [by apply wp_ret|by apply adapter_loop_keeps].
  - intros m4 w6 H4. apply wp_bind. eapply wp_mono; [by apply button_tick_keeps| |done].
    intros m5 w7 H5. apply wp_any. intros [] w8. by apply wp_ret.
Qed.
End Invariant.

(** * Watchdog resets *)
Section Watchdog.
Context {E : Env}.

(** A boot after an unexpected reset never gets past the error core. *)
Lemma unexpected_reset_halts reason m w :
  unexpected_reset reason = true → ∃ w', initHardwareOutputs reason m w = Halt w'.
Proof.
  intros Hr.
  enough (∀ w, wp (initHardwareOutputs reason m) w (λ _ _, False) (λ _, True)) as H.
  { specialize (H w). unfold wp in H. destruct (initHardwareOutputs reason m w); [done|eauto]. }
  clear w. intros w. unfold initHardwareOutputs. apply wp_any. intros ok w1.
  apply wp_any. intros [] w2. apply wp_any. intros [[] r] w3; cbn [negb].
  2: { apply wp_any. intros g w4. by apply wp_any. }
  apply wp_bind. apply (wp_mono _ _ (λ _ _, False) _ (λ _, True)); [|done|done].
  rewrite Hr. destruct ENABLE_SEVSEG_DISPLAY; [apply wp_any; intros ok4 w4|]; unfold err_init;
    do 2 (apply wp_any; intros ? ?); unfold wp;
    match goal with |- context [signalError ?t ?m ?s ?w] => destruct (signalError_run t m s w) as [? ->] end;
    done.
Qed.

Context {N : NvsLawful E}.
Abbreviation stored w := (nvs_store nvs_initial (w_trace w)).

Lemma reset_u8_run key v w : ∃ w',
  (n <- nvsPutU8 key v ;; persistOrEscalate n 1 false ;;; wret tt) w = Ok tt w' ∧ w_eeprom w' = w_eeprom w.
Proof.
  destruct (nvsPutU8_run key v w) as (n & w1 & E1 & He & _). unfold wbind. rewrite E1.
  unfold persistOrEscalate. destruct (n =? 1)%nat; by exists w1.
Qed.

Lemma eeprom_init_run w :
  ∃ w', eeprom_init w = Ok true w' ∧ isInitialized (w_eeprom w') = true ∧
        Platform.isDevMode (w_eeprom w') = Platform.isDevMode (w_eeprom w).
Proof.
  unfold eeprom_init. unfold wbind at 1. cbn [get_eeprom].
  destruct (isInitialized (w_eeprom w)) eqn:Hi; [by exists w|].
  unfold wbind at 1, nvs_open at 1. unfold wbind at 1, ask at 1. rewrite nvs_open_ok.
  unfold wbind at 1 2, emit at 1, wret at 1. cbn [negb]. unfold wbind at 1, put_eeprom at 1.
  set (w1 := World _ _ _). unfold wbind at 1. rewrite nvsGetU8_run.
  set (w2 := nvs_read_done _ _ _).
  assert (w_eeprom w2 = EepromState true (Platform.isDevMode (w_eeprom w)) (devEpoch (w_eeprom w))) as H2 by done.
  clearbody w2.
  assert (∀ (b : bool) key v w0, ∃ w', (if b then n <- nvsPutU8 key v ;; persistOrEscalate n 1 false ;;; wret tt
    else wret tt) w0 = Ok tt w' ∧ w_eeprom w' = w_eeprom w0) as Hput.
  { intros [] key v w0; [apply reset_u8_run|by exists w0]. }
  destruct (Hput (u8_of (stored w1 REBOOT_REASON) 255 =? 0) REBOOT_REASON 0xFF w2) as (w3 & E3 & H3).
  unfold wbind at 1. rewrite E3. unfold wbind at 1. rewrite nvsGetU8_run.
  set (w4 := nvs_read_done _ _ _). assert (w_eeprom w4 = w_eeprom w3) as H4 by done. clearbody w4.
  destruct (Hput (10 <? u8_of (stored w3 REBOOT_COUNT) 0) REBOOT_COUNT 0 w4) as (w5 & E5 & H5).
  unfold wbind at 1. rewrite E5. exists w5. split; [done|]. by rewrite H5, H4, H3, H2.
Qed.

(** C35. The watchdog loop counter never counts a loop: the boot that follows a
    watchdog reset ends in the error core's restart (or the check's own halt)
    whatever the counter says, and the boot check of that software restart sets
    the counter to zero again (or an NVS write failed). *)
Theorem wdt_counter_cleared reason m w wb :
  is_wdt reason = true → Platform.isDevMode (w_eeprom wb) = false →
  (∃ w', initHardwareOutputs reason m w = Halt w') ∧
  ∃ w2, (eeprom_init ;;; boot_check ESP_RST_SW) wb = Ok tt w2 ∧
    (stored w2 REBOOT_COUNT = Some (NvsU8 0) ∨ nvs_write_fault E).
Proof.
  intros Hr Hdev. split.
  - apply unexpected_reset_halts. unfold is_wdt, unexpected_reset in *.
    destruct (Z.eqb_spec reason ESP_RST_WDT) as [->|]; [done|].
    destruct (Z.eqb_spec reason ESP_RST_TASK_WDT) as [->|]; [done|].
    by destruct (Z.eqb_spec reason ESP_RST_INT_WDT) as [->|].
  - destruct (eeprom_init_run wb) as (w1 & E1 & Hi & Hd). rewrite Hdev in Hd.
    assert (ready w1) as R1 by by split.
    destruct (save_u8_run REBOOT_REASON (u8 ESP_RST_SW) w1 R1) as (w2 & E2 & S2).
    destruct (save_u8_run REBOOT_COUNT 0 w2 (saved_ready _ _ _ _ S2 R1)) as (w3 & E3 & S3).
    exists w3. split.
    + unfold wbind at 1. rewrite E1. unfold boot_check, saveRebootReason. unfold wbind. rewrite E2.
      exact E3.
    + destruct S3 as (_ & _ & _ & [H|[_ F]]); auto.
Qed.
End Watchdog.

(** * The role a boot takes *)
Section Role.
Context {E : Env} {C : Crypto} {Pr : Protocol} {Pn : Pin} {N : NvsLawful E}.
Abbreviation stored w := (nvs_store nvs_initial (w_trace w)).

Lemma peerKey_master i : peerKey i ≠ MASTER_FLAG.
Proof. unfold peerKey, MASTER_FLAG. cbn. discriminate. Qed.

Lemma nvsPutU8_stable key k v : k ≠ key → stable key (nvsPutU8 k v).
Proof. intros Hk. unfold nvsPutU8, nvs_open, nvs_set, nvs_commit. solve_stable. Qed.

Lemma guard_stable key : stable key save_guard ∧ stable key ensureInitialized.
Proof. unfold save_guard, ensureInitialized, isDevModeInternal. split; solve_stable. Qed.

Lemma hasPeers_stable key : stable key hasPeers.
Proof.
  destruct (guard_stable key) as [_ ?]. unfold hasPeers, nvsHasKey, nvs_open, nvs_get. solve_stable.
Qed.

Lemma savePeerList_stable l : stable MASTER_FLAG (savePeerList l).
Proof.
  destruct (guard_stable MASTER_FLAG). pose proof (persist_stable MASTER_FLAG).
  pose proof peerKey_master.
  assert (∀ i b n, stable MASTER_FLAG (nvsPutBytes (peerKey i) b n))
    by (intros; by apply nvsPutBytes_stable).
  assert (∀ i, stable MASTER_FLAG (nvsRemove (peerKey i))).
  { intros i. unfold nvsRemove, nvs_open, nvs_erase_key, nvs_commit. solve_stable. }
  unfold savePeerList, savePeerRecord, erasePeerRecord, wfor. solve_stable.
Qed.

Lemma adapter_boot_stable :
  stable MASTER_FLAG (initializeDefaultsIfUnset false) ∧ stable MASTER_FLAG (createFromEEPROM false) ∧
  ∀ o, stable MASTER_FLAG (adapter_init o).
Proof.
  destruct (guard_stable MASTER_FLAG). pose proof (persist_stable MASTER_FLAG).
  pose proof (fail_stable MASTER_FLAG). pose proof (nvsGetU8_stable MASTER_FLAG).
  assert (∀ v, stable MASTER_FLAG (nvsPutU8 ADAPTER_TYPE v)) by (intros; by apply nvsPutU8_stable).
  unfold initializeDefaultsIfUnset, createFromEEPROM, loadAdapterTypeFromEEPROM, createAdapter,
    loadAdapterType, saveAdapterType, load_u8, save_u8.
  split_and!; [solve_stable..|]. intros [p|s]; unfold adapter_init; [|solve_stable].
  unfold pir_adapter_init, attachInterrupt, gpio_set_intr_type, gpio_isr_handler_add, gpio_intr_enable.
  solve_stable.
Qed.

(** The stored role, kept through the boot. *)
Definition role_kept (w0 w : world) : Prop := ready w ∧ stored w MASTER_FLAG = stored w0 MASTER_FLAG.

Lemma stable_role {A} (c : W A) w0 w :
  stable MASTER_FLAG c → role_kept w0 w → wp c w (λ _ w', role_kept w0 w') (λ _, True).
Proof.
  intros Hc [R S]. eapply wp_mono; [by apply stable_keeps_store| |done].
  intros a w' [R' S']. split; [done|congruence].
Qed.

Lemma setIsMaster_role v n : isMaster (setIsMaster v n) = v.
Proof.
  unfold setIsMaster, reevaluateRouteTable, allocate_routes. cbn [isMaster upd_isMaster].
  by destruct (routes (upd_isMaster v n)), v.
Qed.

Lemma mesh_init_role b1 b2 b3 m n w0 w :
  role_kept w0 w → wp (mesh_init b1 b2 b3 m n) w (λ _ w', role_kept w0 w') (λ _, True).
Proof.
  intros K. unfold mesh_init. apply wp_bind.
  eapply wp_mono; [apply stable_role; [|exact K]| |done].
  { apply loadPersistentState_stable, (bool_decide_unpack _), I. }
  intros n1 w1 K1. apply wp_bind. eapply wp_mono; [apply stable_role; [|exact K1]| |done].
  { pose proof (nvsGetU32_stable MASTER_FLAG). destruct (guard_stable MASTER_FLAG).
    unfold loadBootEpoch, isDevModeInternal. solve_stable. }
  intros old w2 [R2 S2]. apply wp_bind. eapply wp_mono; [by apply saveBootEpoch_wp| |done].
  intros [] w3 [T3 R3]. assert (role_kept w0 w3) as K3 by (split; [done|by rewrite T3, stored_wrote]).
  apply stable_role; [|exact K3].
  pose proof (λ n', setup_stable MASTER_FLAG b1 b2 b3 m n') as Hs.
  assert (∀ n', stable MASTER_FLAG (setupRadio b1 m n')) by (intros n'; apply Hs).
  assert (∀ n', stable MASTER_FLAG (setupEspNow b2 b3 (peers n'))) by (intros n'; apply Hs).
  destruct (Hs n) as (_ & ? & ? & _). solve_stable.
Qed.

(** A production boot takes the role that is stored: whatever peers, adapter,
    keys and epoch it writes on the way, [initSubsystems] starts the mesh as master
    exactly when the master flag in NVS was set when it began, with the receive
    callback linked and the adapter given its transmit function. *)
Lemma boot_restores_role after radio m w role m' w' :
  ready w → u8_of (stored w DEV_FLAG) 0 = 0 →
  initSubsystems after radio m w = Ok (role, m') w' →
  role = master_flag w ∧ isMaster (mesh m') = master_flag w ∧
  externalRecvCallback (mesh m') = true ∧ isDevMode m' = false ∧
  ∃ o, adapter m' = Some o ∧ mesh_transmit_fn (base_of o) = true.
Proof.
  intros R Hdev.
  apply (wp_Ok _ _ (λ r _, r.1 = master_flag w ∧ isMaster (mesh r.2) = master_flag w ∧
    externalRecvCallback (mesh r.2) = true ∧ isDevMode r.2 = false ∧
    ∃ o, adapter r.2 = Some o ∧ mesh_transmit_fn (base_of o) = true) (λ _, True)).
  unfold initSubsystems, DEV_MODE. apply wp_bind.
  destruct (load_bool_run DEV_FLAG w (proj1 R)) as (w1 & E1 & He1 & _ & S1).
  eapply wp_run; [exact E1|]. rewrite Hdev. cbn [Z.eqb negb andb]. apply wp_bind.
  assert (∃ w2, setDevMode false w1 = Ok tt w2 ∧ role_kept w w2) as (w2 & E2 & K2).
  { eexists. split; [done|]. destruct R as [Ra Rb]. rewrite <- He1 in Ra. split; [by split|apply S1]. }
  eapply wp_run; [exact E2|].
  destruct adapter_boot_stable as (A1 & A2 & A3).
  apply wp_bind. eapply wp_mono; [apply stable_role; [apply hasPeers_stable|exact K2]| |done].
  intros known w3 K3. apply wp_bind.
  eapply wp_mono; [apply stable_role; [|exact K3]| |done].
  { destruct known; [apply stable_ret|apply savePeerList_stable]. }
  intros [] w4 K4. apply wp_bind. eapply wp_mono; [apply stable_role; [exact A1|exact K4]| |done].
  intros [] w5 K5. apply wp_bind. eapply wp_mono; [apply stable_role; [exact A2|exact K5]| |done].
  intros [base|] w6 K6.
  2: { unfold fatal. apply wp_any. intros [] w7. by apply wp_any. }
  apply wp_bind. eapply wp_mono; [apply stable_role; [apply A3|exact K6]| |done].
  intros [[] o] w7 K7; cbn [negb].
  2: { unfold fatal. apply wp_any. intros [] w8. by apply wp_any. }
  apply wp_bind. eapply wp_mono; [by apply mesh_init_role| |done].
  intros [[] n] w8 K8; cbn [negb].
  2: { unfold fatal. apply wp_any. intros [] w9. by apply wp_any. }
  do 2 (apply wp_bind; eapply wp_mono; [apply stable_role; [solve_stable|exact K8]| |done];
        clear K8; intros [] ? K8).
  apply wp_bind. eapply wp_mono; [apply stable_role; [|exact K8]| |done].
  { unfold uart_write_bytes. solve_stable. }
  intros [] w9 [R9 S9]. apply wp_bind.
  destruct (loadMasterFlag_run w9 (proj1 R9)) as (w10 & E10 & _). eapply wp_run; [exact E10|].
  assert (master_flag w9 = master_flag w) as -> by (unfold master_flag; by rewrite S9).
  apply wp_ret. split_and!; try done.
  - apply setIsMaster_role.
  - eexists. split; [done|]. by destruct o.
Qed.

End Role.

(** * The default peers of the first boot *)
(** The first record's key is the second default MAC and 26 foreign bytes; the
    second record is foreign altogether. *)
Lemma default_peers_overrun after :
  default_peer_records after =
    [concat DEFAULT_PEERS ++ take 26 after; slice 26 38 after].
Proof.
  unfold default_peer_records, peer_records, slice. cbn [length DEFAULT_PEERS seq fmap list_fmap].
  change (0 * PEER_RECORD_SIZE)%nat with 0%nat. change (1 * PEER_RECORD_SIZE)%nat with 38%nat.
  rewrite drop_0. by f_equal.
Qed.

(** So the registry a production device loads on its first boot holds the first
    default MAC under a bogus key and, instead of the second, whatever follows. *)
Lemma default_peers_garbled :
  ∃ w, (savePeerList (E := ref_env) (default_peer_records (replicate 64 0x5A)) ;;;
        ps <- loadFromEEPROM (E := ref_env) registry_empty ;;
        wret ((λ p, (p_mac p, publicKey p)) <$> peerMacs ps)) ref_world
    = Ok [([0xAA; 0xBB; 0xCC; 0xDD; 0xEE; 0x01], [0xAA; 0xBB; 0xCC; 0xDD; 0xEE; 0x02] ++ replicate 26 0x5A);
          (replicate 6 0x5A, replicate 32 0x5A)] w.
Proof. eexists. vm_compute. reflexivity. Qed.

(** * Witnesses *)
#[local] Existing Instance documented_protocol.

(** An enrolled leaf with a serial adapter, whose display acknowledges. *)
Definition demo_main : MainState :=
  with_mesh demo_leaf_node
    (with_leds demo_led demo_led
       (with_adapter (Some (ASerial (serial_new SERIAL_ADAPTER_DEFAULT_PIN))) main_new)).

Lemma housekeeping_wf_witness :
  ∃ m' w', housekeeping (E := display_env) (C := toy_crypto) (Pn := demo_pin) 10 [0; 1; 7] demo_main
             ref_world = Ok m' w' ∧ node_wf (C := toy_crypto) (mesh m').
Proof.
  assert (∃ m' w', housekeeping (E := display_env) (C := toy_crypto) (Pn := demo_pin) 10 [0; 1; 7]
            demo_main ref_world = Ok m' w') as (m' & w' & E1).
  { vm_compute. do 2 eexists. reflexivity. }
  exists m', w'. split; [exact E1|].
  exact (@housekeeping_wf display_env toy_crypto documented_protocol demo_pin 10 [0; 1; 7] demo_main
    ref_world m' w' demo_leaf_node_wf E1).
Defined.

Lemma wdt_counter_cleared_witness :
  is_wdt ESP_RST_TASK_WDT = true ∧
  (∃ w', initHardwareOutputs (E := ref_env) ESP_RST_TASK_WDT main_new
           (World [EvNvsSet REBOOT_COUNT (NvsU8 3) true] (EepromState false false 0) (w_err ref_world)) = Halt w') ∧
  ∃ w2, (eeprom_init (E := ref_env) ;;; boot_check (E := ref_env) ESP_RST_SW)
          (World [EvNvsSet REBOOT_COUNT (NvsU8 4) true] (EepromState false false 0) (w_err ref_world)) = Ok tt w2 ∧
    (nvs_store (nvs_initial (E := ref_env)) (w_trace w2) REBOOT_COUNT = Some (NvsU8 0) ∨ nvs_write_fault ref_env).
Proof.
  split; [reflexivity|].
  apply (@wdt_counter_cleared ref_env ref_env_lawful ESP_RST_TASK_WDT main_new); reflexivity.
Defined.

(** A config button held for good, and the boot after it. *)
Definition demo_toggled : result (Button * Hold * Node * Led * bool) :=
  tickConfig (E := slow_env) (Z.to_nat 1200007) false demo_pressed demo_hold node_new demo_led false
    demo_late_world.
Definition demo_reboot : world :=
  World (w_trace (world_of demo_toggled)) (w_eeprom ref_world) (w_err ref_world).
Definition demo_radio_answers : Radio := RadioAnswers true true true (Some (demo_mac 1)) true.

