(* ===== verification/MeshTask.v ===== *)
(** The mesh task (main.cpp, mesh_task_fn): received frames, the node's dispatch and
    the receive callback of main.cpp together, and the firmware as the interleaving
    of this task with the housekeeping task.

    [Mesh] records a delivery as an event; here the registered callback runs at the
    point where the frame is delivered.  What [processAdapterData] does after the
    delivery (relaying a broadcast) comes after the callback, as in the code. *)
From stdpp Require Import relations.
From S2P Require Import Prelude Config Wire Platform ErrorCore Eeprom PeerRegistry Transport Crypto.
From S2P Require Import ReplayCache Enrollment KeyStore Routers Beacon Authorizer Node Messenger Mesh.
From S2P Require Import Boot Hardware Nanopb SerialFraming Adapter SerialAdapter PirAdapter SevenSeg App Main.

Section MeshTask.
Context {E : Env} {C : Crypto} {Pr : Protocol} {Pn : Pin}.

(** [with_callback] for an operation that also returns a value. *)
Definition delivering {A} (callback : mesh_message → Board → W Board) (c : Node → W (Node * A))
    (b : Board) : W (Board * A) := λ w,
  match c (board_node b) w with
  | Ok (n', a) w' =>
      (b' <- wfold callback (new_deliveries w w') (with_node n' b) ;; wret (b', a)) w'
  | Halt w' => Halt w'
  end.

(** [handleReceivedMessage] with the callback at the point of delivery. *)
Definition receive_on_board (callback : mesh_message → Board → W Board) (srcMac : mac)
    (msg : mesh_message) (b : Board) : W Board :=
  gate <- receive_gate srcMac msg (board_node b) ;;
  match gate with
  | None => wret b
  | Some n1 =>
      if message_type msg =? MESH_TYPE_ADAPTER_DATA then
        let* (b2, again) := delivering callback (deliverAdapterData msg) (with_node n1 b) in
        relayBroadcast again msg (board_node b2) ;;; wret b2
      else with_callback callback (dispatch msg) (with_node n1 b)
  end.

(** One wake-up of [mesh_task_fn]; [queue] is what the receive ring buffer hands out
    until it is empty. *)
Definition mesh_task (queue : list RecvQueueEntry) (m : MainState) : W MainState :=
  b <- drain (receive_on_board (dataRecvCallback (adapter m))) queue
         (OnBoard (mesh m) (greenLed m) (isDevMode m)) ;;
  wret (with_leds (board_green b) (redLed m) (with_mesh (board_node b) m)).

(** The motion interrupt ([detectMotionTrampoline]). *)
Definition pir_interrupt (m : MainState) : W MainState :=
  match adapter m with
  | Some (APir p) => p' <- detectMotion p ;; wret (with_adapter (Some (APir p')) m)
  | _ => wret m
  end.

(** The firmware running: wake-ups of the mesh task, passes of the housekeeping task
    and motion interrupts in any order.  [queue] and [rx] are what the radio and the
    UART brought. *)
Inductive firmware_step : MainState * world → MainState * world → Prop :=
  | fw_mesh queue m w m' w' :
      Forall (λ e, wf_message (rq_msg e)) queue →
      mesh_task queue m w = Ok m' w' → firmware_step (m, w) (m', w')
  | fw_housekeeping fuel rx m w m' w' :
      housekeeping fuel rx m w = Ok m' w' → firmware_step (m, w) (m', w')
  | fw_interrupt m w m' w' : pir_interrupt m w = Ok m' w' → firmware_step (m, w) (m', w').
End MeshTask.

Section Properties.
Context {E : Env} {C : Crypto} {Pr : Protocol} {Pn : Pin}.

(** * The composition is the dispatch of [Mesh] *)
Definition silent_callback : mesh_message → Board → W Board := λ _ b, wret b.

Lemma silent_deliveries l b w : wfold silent_callback l b w = Ok b w.
Proof. by induction l. Qed.

(** With a callback that does nothing the composed receive path is
    [handleReceivedMessage] on the node and leaves the rest of the board alone: the
    split of [processAdapterData] at the delivery, on which the composition rests,
    loses nothing. *)
Theorem receive_on_board_refines srcMac msg b w :
  receive_on_board silent_callback srcMac msg b w =
  (n <- handleReceivedMessage srcMac msg (board_node b) ;; wret (with_node n b)) w.
Proof.
  pose proof mesh_types_distinct as HD. rewrite !NoDup_cons in HD.
  unfold receive_on_board, handleReceivedMessage. rewrite !wbind_run.
  destruct (receive_gate srcMac msg (board_node b) w) as [[n1|] w1|]; [|by destruct b|done].
  destruct (Z.eqb_spec (message_type msg) MESH_TYPE_ADAPTER_DATA) as [Ht|_].
  - assert (dispatch msg n1 = processAdapterData msg n1) as ->.
    { unfold dispatch. rewrite Ht, Z.eqb_refl. set_unfold.
      by rewrite !(proj2 (Z.eqb_neq MESH_TYPE_ADAPTER_DATA _)) by naive_solver. }
    unfold processAdapterData. rewrite !wbind_run. unfold delivering. cbn [board_node with_node].
    destruct (deliverAdapterData msg n1 w1) as [[n2 again] w2|]; [|done].
    rewrite wbind_run, silent_deliveries. unfold wret at 1. rewrite !wbind_run. cbn [board_node with_node].
    by destruct (relayBroadcast again msg n2 w2).
  - unfold with_callback. cbn [board_node with_node].
    destruct (dispatch msg n1 w1) as [n2 w2|]; [|done]. by rewrite silent_deliveries.
Qed.

(** * The invariant of the running firmware *)
Section invariant.
Context `{!CryptoLawful C}.

Lemma wfold_keeps callback l b :
  callback_keeps callback → node_wf (board_node b) → board_keeps (wfold callback l b).
Proof.
  intros Hcb. revert b. induction l as [|m l IH]; intros b W; [by apply keeps_ret|].
  cbn [wfold]. apply keeps_bind; [by apply Hcb|apply IH].
Qed.

Lemma receive_keeps_board callback src msg b :
  callback_keeps callback → node_wf (board_node b) → wf_message msg →
  board_keeps (receive_on_board callback src msg b).
Proof.
  intros Hcb W Hm w. unfold receive_on_board. apply wp_bind.
  eapply wp_mono; [by apply receive_gate_effect| |done].
  intros [n1|] w1 [_ Hn1]; [|by apply keeps_ret]. destruct Hn1 as [W1 _].
  destruct (Z.eqb_spec (message_type msg) MESH_TYPE_ADAPTER_DATA) as [Ht|_].
  - apply wp_bind.
    pose proof (deliverAdapterData_effect msg n1 w1 W1 Ht (proj1 (wfm_rlen _ Hm))) as HE.
    unfold wp at 1. unfold delivering. cbn [board_node with_node]. unfold wp in HE.
    destruct (deliverAdapterData msg n1 w1) as [[n2 again] w2|]; [|done]. destruct HE as [W2 _].
    rewrite wbind_run.
    pose proof (wfold_keeps callback (new_deliveries w1 w2) (with_node n2 (with_node n1 b)) Hcb W2 w2) as HF.
    unfold wp in HF. destruct (wfold _ _ _ w2) as [b3 w3|]; [|done].
    exact (keeps_any (relayBroadcast again msg (board_node b3)) _ (λ _, keeps_ret b3 HF) w3).
  - apply with_callback_keeps; [done|]. intros w2. eapply wp_mono; [by apply dispatch_effect| |done].
    by intros n2 w3 [W2 _].
Qed.

Lemma mesh_task_keeps queue m w :
  node_wf (mesh m) → Forall (λ e, wf_message (rq_msg e)) queue →
  wp (mesh_task queue m) w (λ m' _, node_wf (mesh m')) (λ _, True).
Proof.
  intros W Hq. unfold mesh_task. apply wp_bind.
  apply (wp_mono _ _ (λ b _, node_wf (board_node b)) _ (λ _, True)); [| |done].
  - assert (node_wf (board_node (OnBoard (mesh m) (greenLed m) (isDevMode m)))) as Wb by exact W.
    revert Wb. generalize (OnBoard (mesh m) (greenLed m) (isDevMode m)). revert w.
    induction Hq as [|e queue He _ IH]; intros w b Wb; [by apply keeps_ret|]. cbn [drain].
    apply keeps_bind; [|intros b' Wb' w'; by apply IH].
    apply receive_keeps_board; [apply dataRecvCallback_keeps|done..].
  - intros b w' Wb. by apply wp_ret.
Qed.

(** A boot from blank RAM: the node is well-formed unless flash names a peer twice. *)
Lemma initSubsystems_wf after radio m w role m' w' :
  mesh m = node_new → initSubsystems after radio m w = Ok (role, m') w' →
  NoDup (p_mac <$> peerMacs (peers (mesh m'))) → node_wf (mesh m').
Proof.
  intros Hm Hrun. revert Hrun.
  apply (wp_Ok _ _ (λ r _, NoDup (p_mac <$> peerMacs (peers (mesh r.2))) → node_wf (mesh r.2)) (λ _, True)).
  unfold initSubsystems. do 5 (apply wp_any; intros ? ?). apply wp_any.
  intros [base|] w0; [|by apply wp_any; intros [] ?; apply wp_any].
  apply wp_any. intros [[] o] w1; cbn [negb]; [|by apply wp_any; intros [] ?; apply wp_any].
  rewrite Hm. apply wp_bind.
  eapply wp_mono; [apply mesh_init_fresh, node_new_fresh| |done].
  intros [[] n] w2 F; cbn [negb]; [|by apply wp_any; intros [] ?; apply wp_any].
  do 3 (apply wp_any; intros [] ?). apply wp_any. intros value w4. apply wp_ret.
  cbn [snd mesh with_mesh]. intros HN.
  apply node_wf_callback, setIsMaster_wf.
  assert (peers (setIsMaster value (setEnrollmentRelayFn n)) = peers n) as Hp.
  { unfold setIsMaster, reevaluateRouteTable, allocate_routes.
    by destruct (routes (upd_isMaster value (setEnrollmentRelayFn n))), value. }
  apply fresh_ram_wf; [destruct F; by split|].
  change (peers (setEnrollmentRelayFn n)) with (peers n). rewrite <- Hp. exact HN.
Qed.

(** C21. The node invariant holds in every state of a running device.  From a boot
    with blank RAM and any flash that names no peer twice - whatever reset reason,
    radio and memory contents - every interleaving of wake-ups of the mesh task (any
    frames, each with the receive callback run at its delivery, the adapter's answers
    and their nested deliveries included) and of housekeeping passes (any bytes from
    the server, any button presses), with motion interrupts between them, keeps the node well-formed. *)
Theorem firmware_wf reason after radio w0 m1 w1 role m2 w2 m w :
  initHardwareOutputs reason main_new w0 = Ok m1 w1 →
  initSubsystems after radio m1 w1 = Ok (role, m2) w2 →
  NoDup (p_mac <$> peerMacs (peers (mesh m2))) →
  rtc firmware_step (m2, w2) (m, w) → node_wf (mesh m).
Proof.
  intros H1 H2 HN Hr.
  assert (mesh m1 = node_new) as Hm1.
  { revert H1. apply (wp_Ok _ _ (λ m _, mesh m = node_new) (λ _, True)).
    unfold initHardwareOutputs. do 2 (apply wp_any; intros ? ?). apply wp_any. intros [[] r] w3; cbn [negb].
    2: { do 2 (apply wp_any; intros ? ?). done. }
    apply wp_any. intros [] w4. apply wp_any. intros g w5.
    destruct (button_init _) as [ok1 c]. apply wp_any. intros [] w6.
    destruct (button_init _) as [ok2 rb]. apply wp_any. intros [] w7. apply wp_any.
    intros [] w8; cbn [negb]; [by apply wp_ret|]. apply wp_any. intros [] w9. by apply wp_any. }
  pose proof (initSubsystems_wf after radio m1 w1 role m2 w2 Hm1 H2 HN) as W.
  remember (m2, w2) as s eqn:Es. remember (m, w) as s' eqn:Es'.
  assert (node_wf (mesh s.1)) as Ws by (by subst). clear W Es H2 HN.
  assert (node_wf (mesh s'.1)) as Ws'; [|by subst]. clear Es' m w.
  induction Hr as [s|s1 s2 s3 Hs _ IH]; [done|]. apply IH. destruct Hs as [queue m w m' w' Hq Hrun| |m w m' w' Hrun].
  - exact (wp_Ok _ _ _ _ _ _ (mesh_task_keeps queue m w Ws Hq) Hrun).
  - by eapply housekeeping_wf.
  - revert Hrun. apply (wp_Ok _ _ (λ m' _, node_wf (mesh m')) (λ _, True)). unfold pir_interrupt.
    destruct (adapter m) as [[p|s]|]; [|by apply wp_ret..]. apply wp_any. intros p9 w9. by apply wp_ret.
Qed.
End invariant.

(** * A sealed frame on its way to the adapter *)
(** Not a replay for a node whose cache is [cache]. *)
Definition accepted (cache : list rentry) (msg : mesh_message) : Prop :=
  0 < epoch_num msg → ∀ hw, high_water cache (origin_mac_address msg) = Some hw →
  newer (msg_tuple msg) hw = true.

Lemma receive_gate_run src msg n w :
  node_wf n → proto_version msg = PROTO_VERSION → accepted (replay n) msg →
  ∃ cache ps w', receive_gate src msg n w = Ok (Some (upd_peers ps (upd_replay cache n))) w' ∧
    same_keys (peers n) ps ∧ w_eeprom w' = w_eeprom w.
Proof.
  intros W Hv Ha. unfold receive_gate. rewrite Hv, Z.eqb_refl. cbn [negb].
  assert (∃ cache w1, replay_gate msg n w = Ok (Some (upd_replay cache n)) w1 ∧ w_eeprom w1 = w_eeprom w)
    as (cache & w1 & E1 & S1).
  { unfold replay_gate. rewrite Hv, Z.eqb_refl. destruct (Z.ltb_spec 0 (epoch_num msg)) as [He|_]; cbn [andb].
    - destruct (now_ms_run w) as (us & Et). rewrite wbind_run, Et, isReplay_unfold by apply W.
      specialize (Ha He). destruct (high_water _ _) as [hw|]; [rewrite (Ha hw eq_refl)|]; by do 2 eexists.
    - exists (replay n), w. split; [by destruct n|done]. }
  rewrite wbind_run, E1. cbv iota. rewrite wbind_run. change (peers (upd_replay cache n)) with (peers n).
  pose proof (updateLastSeen_effect (peers n) src w1 (nwf_peers n W)) as HU. unfold wp in HU.
  destruct (updateLastSeen (peers n) src w1) as [ps w2|] eqn:Eu; [|done]. destruct HU as (_ & HK & _).
  exists cache, ps, w2. split; [done|]. split; [done|]. rewrite <- S1. revert Eu. unfold updateLastSeen.
  destruct (mac_eq _ _); [by intros [= _ <-]|]. destruct (peer_index _ _); [|by intros [= _ <-]].
  destruct (now_ms_run w1) as (us & Et). rewrite wbind_run, Et. by intros [= _ <-].
Qed.

(** One delivery. *)
Lemma new_deliveries_one w m w' :
  w_trace w' = EvDeliver m :: w_trace w → new_deliveries w w' = [m].
Proof.
  intros H. unfold new_deliveries. rewrite H. cbn [length].
  replace (S (length (w_trace w)) - length (w_trace w))%nat with 1%nat by lia. done.
Qed.

(** The delivery of a frame that is for this leaf and opens. *)
Lemma deliverAdapterData_opened msg opened ks n w :
  isMaster n = false → externalRecvCallback n = true →
  target_mac_address msg = deviceMacAddress n →
  authorize msg false true (currentMaster n) (peers n) (enrollment n) (e2eKeys n) w
    = Ok (Some opened, ks) w →
  ∃ again, deliverAdapterData msg n w =
    Ok (upd_e2eKeys ks n, again) (World (EvDeliver opened :: w_trace w) (w_eeprom w) (w_err w)).
Proof.
  intros Hm Hcb Ht Ha. unfold deliverAdapterData. rewrite Ht, mac_eq_refl, Hm.
  unfold classify. cbn [orb]. rewrite wbind_run, Ha. eexists. unfold deliver.
  change (externalRecvCallback (upd_e2eKeys ks n)) with (externalRecvCallback n). rewrite Hcb.
  reflexivity.
Qed.

(** If the adapter, handed the opened frame, restarts the device, the mesh task that
    receives the sealed one does. *)
Lemma mesh_task_halts o src msg opened m w (Q : world → Prop) :
  adapter m = Some o → node_wf (mesh m) → isMaster (mesh m) = false →
  externalRecvCallback (mesh m) = true → target_mac_address msg = deviceMacAddress (mesh m) →
  message_type msg = MESH_TYPE_ADAPTER_DATA → proto_version msg = PROTO_VERSION →
  accepted (replay (mesh m)) msg →
  (∀ ps w1, same_keys (peers (mesh m)) ps →
     ∃ ks, authorize msg false true (currentMaster (mesh m)) ps (enrollment (mesh m))
             (e2eKeys (mesh m)) w1 = Ok (Some opened, ks) w1) →
  (∀ cb b w1, deviceMacAddress (board_node b) = deviceMacAddress (mesh m) →
     isDevMode_ b = isDevMode m → w_eeprom w1 = w_eeprom w →
     ∃ w2, onMeshData cb (onMeshDataImpl o) (base_of o) opened b w1 = Halt w2 ∧ Q w2) →
  ∃ w2, mesh_task [RecvEntry src msg] m w = Halt w2 ∧ Q w2.
Proof.
  intros Ho W Hm Hcb Ht Hty Hv Hacc Hauth Hcall. unfold mesh_task. rewrite Ho. cbn [drain srcMac rq_msg].
  rewrite !wbind_run. unfold receive_on_board. rewrite wbind_run. cbn [board_node].
  destruct (receive_gate_run src msg (mesh m) w W Hv Hacc) as (cache & ps & w1 & -> & HK & S1).
  cbv iota. rewrite Hty, Z.eqb_refl. rewrite wbind_run. unfold delivering. cbn [board_node with_node].
  set (n1 := upd_peers ps _). destruct (Hauth ps w1 HK) as [ks Ha].
  destruct (deliverAdapterData_opened msg opened ks n1 w1 Hm Hcb Ht Ha) as (again & ->).
  rewrite new_deliveries_one with (m := opened) by done. set (w2 := World _ _ _). cbn [wfold].
  rewrite !wbind_run. unfold dataRecvCallback at 1. unfold callback_body at 1. rewrite wbind_run.
  match goal with |- context[onMeshData ?cb _ _ _ ?b _] =>
    destruct (Hcall cb b w2) as (w3 & -> & HQ); [done..|] end.
  by exists w3.
Qed.

(** * An enrollment request on its way to the server *)
(** What a payload on the line says of the device that asks. *)
Definition enrollment_of (payload : bytes) : option (Z * mac * slot) :=
  slots ← pb_decode mesh_MeshMessage_msg payload; p ← of_slots slots;
  Some (pb_messageType p, pb_originMacAddress p, pb_public_key p).
Definition key_field (k : bytes) : slot := if is_zero k then absent_bytes 32 else present_bytes k.
Definition relay_ok (e : RelayEntry) : Prop := is_bytes 6 (rl_mac e) ∧ is_bytes 32 (rl_pubKey e).

(** Draining the relay queue writes one framed request per entry, oldest first. *)
Lemma drain_relays queue w :
  0 <= MESH_TYPE_ENROLLMENT < 128 → Forall relay_ok queue →
  ∃ w' payloads, drainTo (Some relayEnrollmentToServer) queue w = Ok [] w' ∧
    uart_sent (w_trace w') = uart_sent (w_trace w) ++ concat (on_line <$> payloads) ∧
    Forall2 (λ e p, enrollment_of p = Some (MESH_TYPE_ENROLLMENT, rl_mac e, key_field (rl_pubKey e)) ∧
                    (0 < length p <= 128)%nat) queue payloads.
Proof.
  intros HT HQ. revert w. induction HQ as [|e queue [He1 He2] _ IH]; intros w.
  { exists w, []. split; [done|]. split; [by rewrite app_nil_r|constructor]. }
  destruct (enrollment_relay_fits (rl_mac e) (rl_pubKey e) w HT He1 He2) as (w1 & p & E1 & U1 & Hl & Hp).
  destruct (IH w1) as (w2 & ps & E2 & U2 & HF). exists w2, (p :: ps).
  cbn [drainTo]. rewrite wbind_run, E1. split; [exact E2|]. split.
  - rewrite U2, U1, fmap_cons. cbn [concat]. by rewrite <- app_assoc.
  - by constructor.
Qed.

Definition no_uart (e : event) : Prop := match e with EvUart _ => False | _ => True end.

Lemma uart_silent w w' : appended no_uart w w' → uart_sent (w_trace w') = uart_sent (w_trace w).
Proof.
  intros (evs & -> & HF). induction HF as [|e evs He _ IH]; [done|]. by destruct e.
Qed.

Lemma no_uart_nvs e : is_nvs_event e → no_uart e.
Proof. by destruct e. Qed.

(** The rest of the periodic work writes nothing to the line. *)
Lemma master_loop_silent n :
  isMaster n = true →
  emits no_uart (n1 <- loop_route_report n ;; n2 <- loop_relay_beacon n1 ;;
                 if isMaster n2 then broadcastMasterBeacon n2 else wret n2).
Proof.
  intros Hm. assert (loop_route_report n = now <- now_ms ;; wret n) as ->.
  { unfold loop_route_report. by rewrite Hm. }
  pose proof (λ m, sendBroadcast_emits no_uart m (λ _, I)).
  pose proof (λ e, saveBootEpoch_emits no_uart no_uart_nvs e).
  unfold loop_relay_beacon, broadcastMasterBeacon, beacon_send, intervalElapsed, buildMessage,
    nextSeqGuarded, now_ms, esp_timer_get_time. solve_emits.
Qed.

Lemma master_loop_enrollment n w :
  isMaster n = true →
  wp (n1 <- loop_route_report n ;; n2 <- loop_relay_beacon n1 ;;
      if isMaster n2 then broadcastMasterBeacon n2 else wret n2) w
    (λ n' _, enrollment n' = enrollment n) (λ _, True).
Proof.
  intros Hm. unfold loop_route_report. rewrite Hm. cbn [negb andb].
  apply wp_bind, wp_any. intros now w1. apply wp_ret. apply wp_bind.
  apply (wp_mono _ _ (λ n' _, enrollment n' = enrollment n) _ (λ _, True)); [| |done].
  - unfold loop_relay_beacon. destruct (relayPending _); [|by apply wp_ret].
    apply wp_any. intros now' w2. destruct (_ <=? _); [|by apply wp_ret].
    apply wp_any. intros ? w3. by apply wp_ret.
  - intros n2 w2 He. destruct (isMaster n2); [|by apply wp_ret]. unfold broadcastMasterBeacon.
    apply wp_any. intros [[] b] w3; cbn [negb]; [|by apply wp_ret].
    apply wp_any. intros [msg tx] w4. apply wp_any. intros ? w5. by apply wp_ret.
Qed.

Lemma no_new_deliveries (c : Node → W Node) n n' w w' :
  emits no_delivery (c n) → c n w = Ok n' w' → new_deliveries w w' = [].
Proof.
  intros Hc E1. destruct (emits_Ok _ _ _ _ _ Hc E1) as (evs & H & HF). unfold new_deliveries.
  rewrite H, length_app. replace (length evs + length (w_trace w) - length (w_trace w))%nat
    with (length evs) by lia. rewrite take_app_length. clear H. induction HF as [|e evs He _ IH]; [done|].
  by destruct e.
Qed.

(** The mesh task of a master queues a received request and keeps its role. *)
Lemma enrollment_queued src msg m w m1 w1 :
  node_wf (mesh m) → isMaster (mesh m) = true → message_type msg = MESH_TYPE_ENROLLMENT →
  proto_version msg = PROTO_VERSION → accepted (replay (mesh m)) msg →
  mesh_task [RecvEntry src msg] m w = Ok m1 w1 →
  relayQueue (enrollment (mesh m1)) =
    relay_push (relayQueue (enrollment (mesh m))) (origin_mac_address msg) (enrollment_public_key msg) ∧
  isMaster (mesh m1) = true ∧ enrollmentRelayFn (mesh m1) = enrollmentRelayFn (mesh m).
Proof.
  intros W Hm Hty Hv Ha. pose proof mesh_types_distinct as HD. rewrite !NoDup_cons in HD.
  unfold mesh_task. cbn [drain srcMac rq_msg]. rewrite !wbind_run. unfold receive_on_board.
  rewrite wbind_run. cbn [board_node].
  destruct (receive_gate_run src msg (mesh m) w W Hv Ha) as (cache & ps & w2 & -> & _ & _). cbv iota.
  rewrite Hty. assert ((MESH_TYPE_ENROLLMENT =? MESH_TYPE_ADAPTER_DATA) = false) as ->.
  { apply Z.eqb_neq. intros He. rewrite He in HD. set_solver. }
  unfold with_callback. cbn [board_node with_node]. set (n1 := upd_peers ps _).
  assert (dispatch msg n1 = receive_enrollment msg n1) as Hd by (unfold dispatch; by rewrite Hty, Z.eqb_refl).
  rewrite Hd. unfold receive_enrollment at 1. change (isMaster n1) with (isMaster (mesh m)). rewrite Hm.
  rewrite wbind_run. destruct (registerPeerWithKey _ _ _ _ w2) as [[ok ps'] w3|] eqn:Er; [|done].
  unfold wret at 1. rewrite (no_new_deliveries (λ _, receive_enrollment msg n1) n1 
    (upd_enrollment (processRequest (enrollment (upd_peers ps' n1)) msg) (upd_peers ps' n1))).
  - cbn [wfold]. unfold wret. cbn [drain]. by intros [= <- <-].
  - unfold receive_enrollment. change (isMaster n1) with (isMaster (mesh m)). rewrite Hm.
    pose proof (λ a b c d, emits_silent _ (registerPeerWithKey_quiet a b c d)). solve_emits.
  - unfold receive_enrollment. change (isMaster n1) with (isMaster (mesh m)). rewrite Hm.
    by rewrite wbind_run, Er.
Qed.

(** C23. An enrollment request reaches the server.  When a master's mesh task receives
    one for the first time and the relay queue has room, the next housekeeping pass
    writes to the serial line one framed message per queued request, in the order
    they came, this one last: every one fits its 128-byte buffer, whatever the
    device MAC and key, and decodes to an enrollment of that MAC with that key. *)
Theorem enrollment_reaches_server src msg m w m1 w1 n2 w2 :
  node_wf (mesh m) → isMaster (mesh m) = true → enrollmentRelayFn (mesh m) = true →
  wf_message msg → message_type msg = MESH_TYPE_ENROLLMENT → MESH_TYPE_ENROLLMENT < 128 →
  proto_version msg = PROTO_VERSION → accepted (replay (mesh m)) msg →
  let queue := relayQueue (enrollment (mesh m)) in
  let request := Relay (origin_mac_address msg) (enrollment_public_key msg) in
  Forall relay_ok queue → relay_push queue (rl_mac request) (rl_pubKey request) = queue ++ [request] →
  mesh_task [RecvEntry src msg] m w = Ok m1 w1 →
  mesh_loop relayEnrollmentToServer (mesh m1) w1 = Ok n2 w2 →
  ∃ payloads, uart_sent (w_trace w2) = uart_sent (w_trace w1) ++ concat (on_line <$> payloads) ∧
    relayQueue (enrollment n2) = [] ∧
    Forall2 (λ e p, enrollment_of p = Some (MESH_TYPE_ENROLLMENT, rl_mac e, key_field (rl_pubKey e)) ∧
                    (0 < length p <= 128)%nat) (queue ++ [request]) payloads.
Proof.
  intros W Hm Hf Hw Hty HT Hv Ha queue request HQ Hpush H1 H2.
  destruct (enrollment_queued src msg m w m1 w1 W Hm Hty Hv Ha H1) as (Hq & Hm1 & Hf1).
  change (relay_push _ _ _) with (relay_push queue (rl_mac request) (rl_pubKey request)) in Hq.
  rewrite Hpush in Hq. unfold mesh_loop in H2. rewrite Hf1, Hf in H2. unfold drainPendingRelay in H2.
  rewrite Hq, !wbind_run in H2.
  assert (Forall relay_ok (queue ++ [request])) as HQ1.
  { apply Forall_app. split; [done|]. repeat constructor; apply Hw. }
  assert (0 <= MESH_TYPE_ENROLLMENT < 128) as HT1 by (split; [rewrite <- Hty; apply Hw|done]).
  destruct (drain_relays (queue ++ [request]) w1 HT1 HQ1) as (w3 & ps & E3 & U3 & HF).
  rewrite E3 in H2. cbv beta iota in H2. unfold wret at 1 in H2.
  set (n3 := upd_enrollment _ (mesh m1)) in H2.
  pose proof (emits_Ok _ _ _ _ _ (master_loop_silent n3 Hm1) H2) as HS%uart_silent.
  exists ps. rewrite HS. split; [done|]. split; [|done].
  by rewrite (wp_Ok _ _ _ _ _ _ (master_loop_enrollment n3 w3 Hm1) H2).
Qed.
End Properties.

(** * Witness: power on, a first frame, a housekeeping pass *)
#[local] Existing Instance documented_protocol.

Definition value_of {A} (d : A) (r : result A) : A := match r with Ok a _ => a | Halt _ => d end.

Definition demo_hw : result MainState :=
  initHardwareOutputs (E := display_env) ESP_RST_POWERON main_new (World [] (EepromState false false 0) (w_err ref_world)).
Definition demo_up : result (bool * MainState) :=
  initSubsystems (E := display_env) (zeros 64) demo_radio_answers
    (value_of main_new demo_hw) (world_of demo_hw).
Definition demo_frames : list RecvQueueEntry :=
  [RecvEntry (demo_mac 7) (set_target BROADCAST_MAC (relay_step (demo_mac 5) demo_sealed))].
Definition demo_woken : result MainState :=
  mesh_task (E := display_env) (C := toy_crypto) (Pn := demo_pin)
    demo_frames
    (value_of (false, main_new) demo_up).2 (world_of demo_up).
Definition demo_kept : result MainState :=
  housekeeping (E := display_env) (C := toy_crypto) (Pn := demo_pin) 10 [0; 1; 7]
    (value_of main_new demo_woken) (world_of demo_woken).

#[local] Opaque demo_hw demo_up demo_woken demo_kept.

Lemma firmware_wf_witness :
  ∃ m w, rtc (firmware_step (E := display_env) (C := toy_crypto) (Pn := demo_pin))
           ((value_of (false, main_new) demo_up).2, world_of demo_up) (m, w) ∧
    length (delivered (w_trace w)) = 1%nat ∧ node_wf (C := toy_crypto) (mesh m).
Proof.
  assert (rtc (firmware_step (E := display_env) (C := toy_crypto) (Pn := demo_pin))
    ((value_of (false, main_new) demo_up).2, world_of demo_up)
    (value_of main_new demo_kept, world_of demo_kept)) as Hr.
  { eapply rtc_l; [|apply rtc_once].
    - apply (fw_mesh demo_frames _ _ (value_of main_new demo_woken) (world_of demo_woken)).
      + constructor; [|constructor]. apply wf_messageb_spec. vm_compute. reflexivity.
      + vm_compute. reflexivity.
    - apply (fw_housekeeping 10 [0; 1; 7]). vm_compute. reflexivity. }
  exists (value_of main_new demo_kept), (world_of demo_kept).
  split; [exact Hr|]. split; [vm_compute; reflexivity|].
  apply (@firmware_wf display_env toy_crypto documented_protocol demo_pin toy_lawful ESP_RST_POWERON
    (zeros 64) demo_radio_answers (World [] (EepromState false false 0) (w_err ref_world))
    (value_of main_new demo_hw) (world_of demo_hw) (value_of (false, main_new) demo_up).1
    (value_of (false, main_new) demo_up).2 (world_of demo_up) (value_of main_new demo_kept)
    (world_of demo_kept)); [vm_compute; reflexivity..| |exact Hr].
  apply (bool_decide_unpack _). vm_compute. exact I.
Defined.

Lemma node_wf_relay `{Crypto} n : node_wf n → node_wf (setEnrollmentRelayFn n).
Proof. intros []. by split. Qed.

(** Device 6 asks a master to be enrolled. *)
Definition demo_master : MainState :=
  with_mesh (setEnrollmentRelayFn demo_master_node)
    (with_adapter (Some (ASerial (serial_new SERIAL_ADAPTER_DEFAULT_PIN))) main_new).
Definition demo_request : mesh_message :=
  set_data (zeros 64)
    (MeshMessage PROTO_VERSION MESH_TYPE_ENROLLMENT 0 (demo_mac 6) BROADCAST_MAC (demo_mac 6) (zeros 64)
       0 1 1 (replicate 32 9) 0 (zeros 48) (zeros 16) (zeros 8)).
Definition demo_asked : result MainState :=
  mesh_task (E := ref_env) (C := toy_crypto) (Pn := demo_pin) [RecvEntry (demo_mac 6) demo_request]
    demo_master ref_world.
Definition demo_passed_on : result Node :=
  mesh_loop (E := ref_env) (C := toy_crypto) relayEnrollmentToServer
    (mesh (value_of main_new demo_asked)) (world_of demo_asked).

#[local] Opaque demo_asked demo_passed_on.

Lemma enrollment_reaches_server_witness :
  ∃ p, uart_sent (w_trace (world_of demo_passed_on)) = uart_sent (w_trace (world_of demo_asked)) ++ on_line p ∧
    enrollment_of p = Some (MESH_TYPE_ENROLLMENT, demo_mac 6, present_bytes (replicate 32 9)).
Proof.
  destruct (@enrollment_reaches_server ref_env toy_crypto documented_protocol demo_pin (demo_mac 6)
    demo_request demo_master ref_world (value_of main_new demo_asked) (world_of demo_asked)
    (value_of node_new demo_passed_on) (world_of demo_passed_on)) as (ps & Hu & _ & HF).
  - exact (node_wf_relay demo_master_node demo_master_node_wf).
  - reflexivity.
  - reflexivity.
  - apply wf_messageb_spec. vm_compute. reflexivity.
  - reflexivity.
  - vm_compute. reflexivity.
  - reflexivity.
  - intros _ hw. vm_compute. done.
  - constructor.
  - vm_compute. reflexivity.
  - vm_compute. reflexivity.
  - vm_compute. reflexivity.
  - inversion HF as [|e p l l' [Hp _] Hnil]. inversion Hnil. subst. exists p. split.
    + rewrite Hu. cbn [fmap list_fmap concat]. by rewrite app_nil_r.
    + exact Hp.
Defined.
