(* ===== verification/RxTask.v ===== *)
(** Reception as it runs: the radio's receive callback (MeshTransport.cpp,
    onDataRecvCallback), which fills the ring buffer and notifies, against the mesh
    task (main.cpp, mesh_task_fn), which waits for the notification and drains
    (MeshTransport.cpp, drain).  The radio can come between any two steps of the
    task, the ring buffer's receive and return included.

    [MeshTask] hands a wake-up its frames as a list; the theorems here say that the
    machinery does deliver such lists: every frame the ring took is handled, once, in
    order, and no wake-up is lost. *)
From stdpp Require Import relations.
From S2P Require Import Prelude Config Wire Platform ErrorCore Eeprom PeerRegistry Transport Crypto.
From S2P Require Import ReplayCache Enrollment KeyStore Routers Beacon Authorizer Node Messenger Mesh.
From S2P Require Import Boot Hardware Nanopb SerialFraming Adapter SerialAdapter PirAdapter SevenSeg App Main MeshTask.

(** * FreeRTOS task notifications *)
(** A task's notification, of which the code uses two calls. *)
Class TaskNotify := {
  note : Type;
  note_new : note;                        (* of a task just created *)
  note_give : note → note;                (* vTaskNotifyGiveFromISR *)
  note_wait : note → option note          (* xTaskNotifyWait(0, ULONG_MAX, NULL, portMAX_DELAY);
                                             [None]: the task blocks *)
}.

(** What the API documents: a notification given stays pending until it is waited for. *)
Class NotifyLawful (T : TaskNotify) : Prop := {
  new_blocks : note_wait note_new = None;
  give_wakes : ∀ s : note, is_Some (note_wait (note_give s))
}.

(** The documented behaviour, a value and a state. *)
Record notification := Notification { n_value : Z; n_pending : bool }.
Definition ref_notify : TaskNotify := {|
  note := notification;
  note_new := Notification 0 false;
  note_give := λ s, Notification (u32 (n_value s + 1)) true;
  note_wait := λ s, if n_pending s then Some (Notification 0 false) else None
|}.
Lemma ref_notify_lawful : NotifyLawful ref_notify.
Proof. split; [done|]. intros s. by eexists. Qed.

(** * The state *)
(** Where the mesh task stands. *)
Inductive rx_pc :=
  | Waiting                               (* in xTaskNotifyWait *)
  | Receiving                             (* before xRingbufferReceive *)
  | Copying (e : RecvQueueEntry)          (* the item is copied, not yet returned *)
  | Handling (e : RecvQueueEntry).        (* before the handler *)

(** [rx_ring] holds an item until it is returned.  [rx_isr]: the callback has used the
    ring and not yet notified.  The last three are histories, for the statements: the
    frames the ring took, those the handler has seen, and how often the task was
    notified. *)
Record rx_state `{TaskNotify} := Rx {
  rx_ring : list RecvQueueEntry;
  rx_isr : bool;
  rx_drainNotifyHandle : bool;
  rx_note : note;
  rx_at : rx_pc;
  rx_accepted : list RecvQueueEntry;
  rx_handled : list RecvQueueEntry;
  rx_given : nat
}.
#[global] Arguments Rx {_} _ _ _ _ _ _ _ _.

Section Rx.
Context {E : Env} {T : TaskNotify}.
Context (sizeof_mesh_message : nat) (parse_frame : bytes → mesh_message).

Definition rx_new : rx_state := Rx [] false false note_new Waiting [] [] 0.

(** The receive callback up to the ring buffer; frames that are too short end it. *)
Definition radio_receive (src : mac) (incoming : bytes) (r : rx_state) : rx_state :=
  if (length incoming <? sizeof_mesh_message)%nat then r
  else
    let ring := onDataRecvCallback sizeof_mesh_message parse_frame (rx_ring r) src incoming in
    Rx ring true (rx_drainNotifyHandle r) (rx_note r) (rx_at r)
      (rx_accepted r ++ drop (length (rx_ring r)) ring) (rx_handled r) (rx_given r).

(** The rest of it. *)
Definition radio_notify (r : rx_state) : rx_state :=
  if rx_drainNotifyHandle r
  then Rx (rx_ring r) false true (note_give (rx_note r)) (rx_at r) (rx_accepted r) (rx_handled r) (S (rx_given r))
  else Rx (rx_ring r) false false (rx_note r) (rx_at r) (rx_accepted r) (rx_handled r) (rx_given r).

Definition setDrainNotifyHandle (r : rx_state) : rx_state :=
  Rx (rx_ring r) (rx_isr r) true (rx_note r) (rx_at r) (rx_accepted r) (rx_handled r) (rx_given r).

Definition move_to (pc : rx_pc) (n : note) (r : rx_state) : rx_state :=
  Rx (rx_ring r) (rx_isr r) (rx_drainNotifyHandle r) n pc (rx_accepted r) (rx_handled r) (rx_given r).

(** * The mesh task *)
Section Task.
Context {St : Type} (handler : mac → mesh_message → St → W St).

(** One step of [mesh_task_fn] and the [drain] it calls; [None]: it is blocked.  Every
    item is an entry, sent whole, so [drain]'s guard on the item's size has no case here. *)
Definition task_step (r : rx_state) (s : St) : option (W (rx_state * St)) :=
  match rx_at r with
  | Waiting =>
      n ← note_wait (rx_note r); Some (wret (move_to Receiving n r, s))
  | Receiving =>
      Some (wret (move_to (match rx_ring r with [] => Waiting | e :: _ => Copying e end) (rx_note r) r, s))
  | Copying e =>
      Some (wret (Rx (tail (rx_ring r)) (rx_isr r) (rx_drainNotifyHandle r) (rx_note r) (Handling e)
                    (rx_accepted r) (rx_handled r) (rx_given r), s))
  | Handling e =>
      Some (s' <- handler (srcMac e) (rq_msg e) s ;;
            wret (Rx (rx_ring r) (rx_isr r) (rx_drainNotifyHandle r) (rx_note r) Receiving
                    (rx_accepted r) (rx_handled r ++ [e]) (rx_given r), s'))
  end.

(** [n] steps of the task alone, or until it blocks. *)
Fixpoint task_run (n : nat) (r : rx_state) (s : St) : W (rx_state * St) :=
  match n with
  | O => wret (r, s)
  | S n' =>
      match task_step r s with
      | None => wret (r, s)
      | Some c => let* (r', s') := c in task_run n' r' s'
      end
  end.

(** Everything that can happen next.  [others] is what the rest of the firmware does to
    the state it shares with the handler. *)
Inductive rx_step (others : St * world → St * world → Prop) :
    rx_state * St * world → rx_state * St * world → Prop :=
  | rx_radio src incoming r s w :
      rx_isr r = false → Forall is_byte incoming → rx_step others (r, s, w) (radio_receive src incoming r, s, w)
  | rx_notify r s w :
      rx_isr r = true → rx_step others (r, s, w) (radio_notify r, s, w)
  | rx_handle r s w :
      rx_step others (r, s, w) (setDrainNotifyHandle r, s, w)
  | rx_task r s w c r' s' w' :
      task_step r s = Some c → c w = Ok (r', s') w' → rx_step others (r, s, w) (r', s', w')
  | rx_other r s w s' w' :
      others (s, w) (s', w') → rx_step others (r, s, w) (r, s', w').

(** * Nothing is lost *)
(** The frame in the task's hands, and what it has still to handle. *)
Definition in_hand (r : rx_state) : list RecvQueueEntry :=
  match rx_at r with Handling e => [e] | _ => [] end.
Definition rx_pending (r : rx_state) : list RecvQueueEntry := in_hand r ++ rx_ring r.

Record rx_inv (r : rx_state) : Prop := {
  ri_order : rx_accepted r = rx_handled r ++ rx_pending r;
  ri_copy : ∀ e, rx_at r = Copying e → ∃ rest, rx_ring r = e :: rest;
  ri_wake : rx_at r = Waiting → rx_ring r ≠ [] → rx_isr r = false → (0 < rx_given r)%nat →
            is_Some (note_wait (rx_note r));
  ri_given : (0 < rx_given r)%nat → rx_drainNotifyHandle r = true
}.

Lemma rx_new_inv : rx_inv rx_new.
Proof. split; cbn; [done|done|done|lia]. Qed.

Lemma onDataRecv_extends ring src incoming :
  ∃ new, onDataRecvCallback sizeof_mesh_message parse_frame ring src incoming = ring ++ new.
Proof.
  unfold onDataRecvCallback. destruct (_ <? _)%nat; [by exists []; rewrite app_nil_r|].
  destruct (env_ring_accepts _ _ _); [by eexists|by exists []; rewrite app_nil_r].
Qed.

Lemma radio_receive_inv src incoming r : rx_inv r → rx_inv (radio_receive src incoming r).
Proof.
  intros [H1 H2 H3 H4]. unfold radio_receive. destruct (_ <? _)%nat; [by split|].
  destruct (onDataRecv_extends (rx_ring r) src incoming) as [new ->]. rewrite drop_app_length.
  split; cbn; try done.
  - rewrite H1. unfold rx_pending, in_hand. cbn. by rewrite <- !app_assoc.
  - intros e He. destruct (H2 e He) as [rest ->]. by exists (rest ++ new).
Qed.

Context {TL : NotifyLawful T}.

Lemma radio_notify_inv r : rx_inv r → rx_inv (radio_notify r).
Proof using TL.
  intros [H1 H2 H3 H4]. unfold radio_notify. destruct (rx_drainNotifyHandle r) eqn:Hh; split; cbn; try done.
  - intros _ _ _ _. apply give_wakes.
  - intros _ _ _ Hg. by apply H4 in Hg.
Qed.

Lemma task_step_inv r s c w r' s' w' :
  task_step r s = Some c → c w = Ok (r', s') w' → rx_inv r → rx_inv r'.
Proof using.
  intros Hc Hw [H1 H2 H3 H4]. unfold task_step in Hc. unfold rx_pending, in_hand in H1.
  destruct (rx_at r) as [| |e|e] eqn:Hpc.
  - destruct (note_wait (rx_note r)) as [n|] eqn:En; [|done]. cbn in Hc. injection Hc as <-. injection Hw as <- <- <-.
    by split.
  - injection Hc as <-. injection Hw as <- <- <-. destruct (rx_ring r) as [|e rest] eqn:Hr;
      split; unfold rx_pending, in_hand; cbn; rewrite ?Hr; try done. intros ? [= <-]. by eexists.
  - injection Hc as <-. injection Hw as <- <- <-. destruct (H2 e eq_refl) as [rest Hr].
    split; unfold rx_pending, in_hand; cbn; rewrite ?Hr; try done. by rewrite H1, Hr.
  - injection Hc as <-. rewrite wbind_run in Hw. destruct (handler _ _ _ _) as [s1 w1|]; [|done].
    injection Hw as <- <- <-. split; unfold rx_pending, in_hand; cbn; try done.
    rewrite H1. by rewrite <- app_assoc.
Qed.

Lemma rx_step_inv others r s w r' s' w' :
  rx_step others (r, s, w) (r', s', w') → rx_inv r → rx_inv r'.
Proof using TL.
  intros H I. inversion H; subst; [by apply radio_receive_inv|by apply radio_notify_inv| |by eapply task_step_inv|done].
  destruct I as [H1 H2 H3 H4]. by split.
Qed.

Lemma rx_reachable_inv others s0 w0 r s w :
  rtc (rx_step others) (rx_new, s0, w0) (r, s, w) → rx_inv r.
Proof using TL.
  intros H. remember (rx_new, s0, w0) as x eqn:Ex. remember (r, s, w) as y eqn:Ey.
  assert (rx_inv x.1.1) as I by (subst; apply rx_new_inv). clear Ex.
  assert (rx_inv y.1.1) as I'; [|by subst]. clear Ey.
  induction H as [|[[r1 s1] w1] [[r2 s2] w2] z Hs _ IH]; [done|]. apply IH. by eapply rx_step_inv.
Qed.

(** * The task on its own *)
(** The state once the frames [q] are handled and the ring is found empty. *)
Record drained (q : list RecvQueueEntry) (r r' : rx_state) : Prop := {
  dr_ring : rx_ring r' = [];
  dr_at : rx_at r' = Waiting;
  dr_handled : rx_handled r' = rx_handled r ++ q;
  dr_accepted : rx_accepted r' = rx_accepted r
}.

(** [n] steps of the task hand the frames [q] to the handler, and find the ring empty. *)
Definition drains (q : list RecvQueueEntry) (r : rx_state) : Prop :=
  ∃ n r', drained q r r' ∧ ∀ s w, task_run n r s w = (s' <- drain handler q s ;; wret (r', s')) w.

Lemma drains_step (q : list RecvQueueEntry) r r1 :
  (∀ s, task_step r s = Some (wret (r1, s))) → rx_handled r1 = rx_handled r → rx_accepted r1 = rx_accepted r →
  drains q r1 → drains q r.
Proof using.
  intros Hs H1 H2 (n & r' & [] & Hn). exists (S n), r'. split; [split; congruence|].
  intros s w. cbn [task_run]. rewrite Hs. apply Hn.
Qed.

Lemma drains_handling e q r :
  rx_at r = Handling e →
  drains q (Rx (rx_ring r) (rx_isr r) (rx_drainNotifyHandle r) (rx_note r) Receiving (rx_accepted r)
              (rx_handled r ++ [e]) (rx_given r)) →
  drains (e :: q) r.
Proof using.
  intros Hpc (n & r' & [D1 D2 D3 D4] & Hn). exists (S n), r'. split.
  { split; [done|done| |done]. rewrite D3. cbn. by rewrite <- app_assoc. }
  intros s w. cbn [task_run drain]. unfold task_step. rewrite Hpc.
  rewrite !wbind_run. destruct (handler (srcMac e) (rq_msg e) s w) as [s1 w1|w1]; [|done].
  cbn [wret]. by rewrite Hn, wbind_run.
Qed.

Lemma drains_copying e q r :
  rx_at r = Copying e →
  drains (e :: q) (Rx (tail (rx_ring r)) (rx_isr r) (rx_drainNotifyHandle r) (rx_note r) (Handling e)
                     (rx_accepted r) (rx_handled r) (rx_given r)) → drains (e :: q) r.
Proof using. intros Hpc. apply drains_step; [|done..]. intros s. unfold task_step. by rewrite Hpc. Qed.

Lemma drains_receiving q : ∀ r, rx_at r = Receiving → rx_ring r = q → drains q r.
Proof using.
  induction q as [|e q IH]; intros r Hpc Hq.
  - exists 1%nat, (move_to Waiting (rx_note r) r). split; [split; cbn; by rewrite ?app_nil_r|].
    intros s w. cbn [task_run drain]. unfold task_step. by rewrite Hpc, Hq.
  - apply (drains_step _ _ (move_to (Copying e) (rx_note r) r)); [|done..|].
    { intros s. unfold task_step. by rewrite Hpc, Hq. }
    apply drains_copying; [done|]. apply drains_handling; [done|]. apply IH; [done|]. cbn. by rewrite Hq.
Qed.

(** Whatever the task stands at, unless it waits in vain, it empties the ring. *)
Lemma task_drains r :
  rx_inv r → (rx_at r = Waiting → is_Some (note_wait (rx_note r))) → drains (rx_pending r) r.
Proof using.
  intros [_ H2 _ _] Hw. unfold rx_pending, in_hand. destruct (rx_at r) as [| |e|e] eqn:Hpc; cbn [app].
  - destruct (Hw eq_refl) as [n En]. apply (drains_step _ _ (move_to Receiving n r)).
    + intros s. unfold task_step. by rewrite Hpc, En.
    + done.
    + done.
    + by apply drains_receiving.
  - by apply drains_receiving.
  - destruct (H2 e eq_refl) as [rest Hr]. rewrite Hr. apply drains_copying; [done|].
    apply drains_handling; [done|]. apply drains_receiving; [done|]. cbn. by rewrite Hr.
  - apply drains_handling; [done|]. by apply drains_receiving.
Qed.

(** Once a notification was given, the task on its own handles all that is pending and
    goes back to its wait. *)
Lemma task_empties r :
  rx_inv r → rx_isr r = false → (0 < rx_given r)%nat → drains (rx_pending r) r.
Proof using.
  intros I Hi Hg. destruct (rx_at r) eqn:Hpc; try (apply task_drains; [done|congruence]).
  destruct (rx_ring r) as [|e rest] eqn:Hr.
  - exists 0%nat, r. unfold rx_pending, in_hand. rewrite Hpc, Hr. cbn. split; [by split; rewrite ?app_nil_r|done].
  - apply task_drains; [done|]. intros _. apply (ri_wake _ I); try done. by rewrite Hr.
Qed.

(** Before the handle is set a frame wakes nobody: it waits for the first frame after. *)
Lemma early_frame_waits src incoming :
  rx_drainNotifyHandle (radio_notify (radio_receive src incoming rx_new)) = false ∧
  ∀ s, task_step (radio_notify (radio_receive src incoming rx_new)) s = None.
Proof using TL.
  unfold radio_receive. destruct (_ <? _)%nat; (split; [done|]; intros s; unfold task_step; cbn; by rewrite new_blocks).
Qed.
End Task.
End Rx.

(** * The firmware with its reception *)
Section Firmware.
Context {E : Env} {C : Crypto} {Pr : Protocol} {Pn : Pin} {T : TaskNotify}.
Context (sizeof_mesh_message : nat) (parse_frame : bytes → mesh_message).

(** The handler: one frame through the node, with the receive callback. *)
Definition handle_frame (src : mac) (msg : mesh_message) (m : MainState) : W MainState :=
  mesh_task [RecvEntry src msg] m.

(** What the housekeeping task and the motion sensor do meanwhile. *)
Inductive beside_reception : MainState * world → MainState * world → Prop :=
  | beside_housekeeping fuel rx m w m' w' :
      housekeeping fuel rx m w = Ok m' w' → beside_reception (m, w) (m', w')
  | beside_interrupt m w m' w' : pir_interrupt m w = Ok m' w' → beside_reception (m, w) (m', w').

Definition reception_step : rx_state * MainState * world → rx_state * MainState * world → Prop :=
  rx_step sizeof_mesh_message parse_frame handle_frame beside_reception.

(** The fields of a frame the radio hands over are within their C types. *)
Context (parse_wf : ∀ b, is_bytes sizeof_mesh_message b → wf_message (parse_frame b)).

Definition frames_wf (r : rx_state) : Prop := Forall (λ e, wf_message (rq_msg e)) (rx_accepted r).

Lemma radio_receive_wf src incoming r :
  Forall is_byte incoming → frames_wf r → frames_wf (radio_receive sizeof_mesh_message parse_frame src incoming r).
Proof using parse_wf.
  intros Hb Hr. unfold frames_wf, radio_receive. destruct (Nat.ltb_spec (length incoming) sizeof_mesh_message) as [|Hl]; [done|].
  cbn [rx_accepted]. apply Forall_app. split; [done|]. unfold onDataRecvCallback.
  destruct (Nat.ltb_spec (length incoming) sizeof_mesh_message); [lia|].
  destruct (env_ring_accepts _ _ _); [rewrite drop_app_length|rewrite drop_all; by apply Forall_nil].
  apply Forall_singleton, parse_wf. split; [rewrite length_take; lia|by apply Forall_take].
Qed.

(** One step is a step of [firmware_step] or leaves the rest of the firmware alone. *)
Lemma reception_step_refines r m w r' m' w' :
  reception_step (r, m, w) (r', m', w') → rx_inv r → frames_wf r →
  frames_wf r' ∧ ((m', w') = (m, w) ∨ firmware_step (m, w) (m', w')).
Proof using parse_wf.
  intros H I HW. unfold reception_step in H. inversion H as [? ? ? ? ? _ Hb|r0 ? ? _|?|? ? ? c ? ? ? Hc Hw|? ? ? ? ? Ho]; subst.
  - split; [by apply radio_receive_wf|by left].
  - split; [|by left]. unfold frames_wf, radio_notify. by destruct (rx_drainNotifyHandle r).
  - split; [done|by left].
  - unfold task_step in Hc. destruct (rx_at r) as [| |e|e] eqn:Hpc.
    + destruct (note_wait (rx_note r)); [|done]. cbn in Hc. injection Hc as <-. injection Hw as <- <- <-.
      split; [done|by left].
    + injection Hc as <-. injection Hw as <- <- <-. split; [done|by left].
    + injection Hc as <-. injection Hw as <- <- <-. split; [done|by left].
    + injection Hc as <-. rewrite wbind_run in Hw.
      destruct (handle_frame (srcMac e) (rq_msg e) m w) as [m1 w1|] eqn:Eh; [|done]. injection Hw as <- <- <-.
      split; [done|]. right. eapply fw_mesh; [|exact Eh]. apply Forall_singleton. cbn.
      pose proof (ri_order _ I) as HO. unfold rx_pending, in_hand in HO. rewrite Hpc in HO.
      unfold frames_wf in HW. rewrite HO, !Forall_app in HW. destruct HW as (_ & HW & _). by rewrite Forall_singleton in HW.
  - split; [done|]. right. inversion Ho; subst; [by eapply fw_housekeeping|by apply fw_interrupt].
Qed.

Context {TL : NotifyLawful T}.

Lemma reception_refines m0 w0 r m w :
  rtc reception_step (rx_new, m0, w0) (r, m, w) →
  rtc firmware_step (m0, w0) (m, w).
Proof using parse_wf TL.
  intros H. remember (rx_new, m0, w0) as x eqn:Ex. remember (r, m, w) as y eqn:Ey.
  assert (rx_inv x.1.1 ∧ frames_wf x.1.1) as [I HW] by (subst; split; [apply rx_new_inv|by apply Forall_nil]).
  change (m0, w0) with ((rx_new, m0, w0).1.2, (rx_new, m0, w0).2). change (m, w) with ((r, m, w).1.2, (r, m, w).2).
  rewrite <- Ex, <- Ey. clear Ex Ey.
  induction H as [|[[r1 m1] w1] [[r2 m2] w2] z Hs _ IH]; [done|]. cbn in *.
  destruct (reception_step_refines _ _ _ _ _ _ Hs I HW) as [HW2 Hf].
  pose proof (rx_step_inv _ _ _ _ _ _ _ _ _ _ Hs I) as I2. specialize (IH I2 HW2).
  destruct Hf as [[= -> ->]|Hf]; [done|]. by eapply rtc_l.
Qed.

(** C22. Every frame the ring buffer takes is handled, once and in the order of arrival,
    and no wake-up is lost.  From boot, with the radio's callback coming between any two
    steps of the mesh task - its ring-buffer calls and the wait included - and the
    housekeeping task and motion interrupts between the frames: the frames handled so
    far and the ones pending are the frames taken; once a frame has come with the task's
    handle set, the task is never left waiting for a notification while one is pending:
    on its own it hands all pending frames to the handler and returns to its wait with
    the ring empty; and what the firmware went through is a run of [firmware_step], so
    its theorems hold at this granularity too. *)
Theorem received_frames_handled m0 w0 r m w :
  rtc reception_step (rx_new, m0, w0) (r, m, w) →
  rx_accepted r = rx_handled r ++ rx_pending r ∧ rtc firmware_step (m0, w0) (m, w) ∧
  (rx_isr r = false → (0 < rx_given r)%nat →
   ∃ n r', rx_ring r' = [] ∧ rx_at r' = Waiting ∧ rx_handled r' = rx_accepted r ∧
     ∀ m w, task_run handle_frame n r m w = (m' <- drain handle_frame (rx_pending r) m ;; wret (r', m')) w).
Proof using parse_wf TL.
  intros H. pose proof (rx_reachable_inv _ _ _ _ _ _ _ _ _ H) as I.
  split; [apply I|]. split; [by apply (reception_refines _ _ r)|]. intros Hi Hg.
  destruct (task_empties handle_frame r I Hi Hg) as (n & r' & [D1 D2 D3 D4] & Hrun).
  exists n, r'. split_and!; [done|done| |done]. rewrite D3. symmetry. apply I.
Qed.
End Firmware.

(** * Witness: a frame arrives while the task is at work *)
#[local] Existing Instance documented_protocol.

(** A frame of six bytes, which name its target. *)
Definition demo_parse (b : bytes) : mesh_message := set_target b mesh_message_zero.

Lemma demo_parse_wf b : is_bytes 6 b → wf_message (demo_parse b).
Proof. intros Hb. destruct mesh_message_zero_wf. by split. Qed.

Definition demo_rx_step : rx_state * MainState * world → rx_state * MainState * world → Prop :=
  reception_step (E := ref_env) (C := toy_crypto) (Pn := demo_pin) (T := ref_notify) 6 demo_parse.
Definition demo_heard (frame : bytes) (r : rx_state (H := ref_notify)) : rx_state (H := ref_notify) :=
  radio_notify (radio_receive (E := ref_env) 6 demo_parse (demo_mac 5) frame r).
Definition demo_listening : rx_state (H := ref_notify) :=
  demo_heard (demo_mac 6) (setDrainNotifyHandle rx_new).
(** Three steps into the first frame the second one comes. *)
Definition demo_two : rx_state (H := ref_notify) :=
  demo_heard (demo_mac 7)
    (Rx (H := ref_notify) [] false true (Notification 0 false)
       (Handling (RecvEntry (demo_mac 5) (demo_parse (demo_mac 6))))
       [RecvEntry (demo_mac 5) (demo_parse (demo_mac 6))] [] 1).

Lemma demo_hears frame r m w :
  rx_isr r = false → is_bytes 6 frame → rtc demo_rx_step (r, m, w) (demo_heard frame r, m, w).
Proof.
  intros Hi [Hl Hb]. eapply rtc_l; [by apply rx_radio|]. apply rtc_once, rx_notify.
  unfold radio_receive. by rewrite Hl.
Qed.

Lemma received_frames_handled_witness :
  rtc demo_rx_step (rx_new, main_new, ref_world) (demo_two, main_new, ref_world) ∧
  ∃ n r', rx_ring r' = [] ∧ rx_at r' = Waiting ∧ length (rx_handled r') = 2%nat ∧
    ∀ m w, task_run (handle_frame (E := ref_env) (C := toy_crypto) (Pn := demo_pin)) n demo_two m w =
      (m' <- drain (handle_frame (E := ref_env) (C := toy_crypto) (Pn := demo_pin)) (rx_pending demo_two) m ;;
       wret (r', m')) w.
Proof.
  assert (rtc demo_rx_step (rx_new, main_new, ref_world) (demo_two, main_new, ref_world)) as Hr.
  { eapply rtc_l; [apply rx_handle|]. etrans.
    - apply (demo_hears (demo_mac 6)); [reflexivity|]. apply (bool_decide_unpack _). vm_compute. exact I.
    - do 3 (eapply rtc_l; [eapply rx_task; reflexivity|]).
      apply (demo_hears (demo_mac 7)); [reflexivity|]. apply (bool_decide_unpack _). vm_compute. exact I. }
  split; [exact Hr|].
  destruct (@received_frames_handled ref_env toy_crypto documented_protocol demo_pin ref_notify 6 demo_parse
    demo_parse_wf ref_notify_lawful main_new ref_world demo_two main_new ref_world Hr) as (_ & _ & H).
  destruct (H eq_refl) as (n & r' & H1 & H2 & H3 & H4); [cbv; lia|].
  exists n, r'. split; [exact H1|]. split; [exact H2|]. split; [rewrite H3; reflexivity|exact H4].
Defined.
