(* ===== verification/SerialLine.v ===== *)
(** What shares the serial line: log text and the provisioning line beside the framed
    protocol, and the frames of two tasks.  The reader is the framing machine of
    [SerialFraming], the same on both ends of the line. *)
From S2P Require Import Prelude Config Nanopb Wire Platform Logger ErrorCore SerialFraming Adapter SerialAdapter.
From S2P Require Import Node Messenger Mesh PirAdapter App Main MeshTask.

(** Text as it reaches the line: no NUL bytes. *)
Definition text_byte (b : Z) : Prop := 1 <= b < 256.

Lemma text_is_byte b : text_byte b → is_byte b.
Proof. unfold text_byte, is_byte. lia. Qed.

(** Bytes the machine already holds of the frame under way. *)
Definition lead (f : SerialFraming) : nat :=
  match frameState f with
  | AwaitingLen1 => 0
  | AwaitingLen2 => 1
  | AwaitingPayload => 2 + frameIndex f
  end.

(** A pair of text bytes where a length is due is no valid length: it is skipped. *)
Lemma text_pair_skipped {S} (h : bytes → S → W S) a b rx f s w :
  text_byte a → text_byte b → framing_wf f → frameState f = AwaitingLen1 →
  ∃ f' w', framing_wf f' ∧ frameState f' = AwaitingLen1 ∧
    receive h (a :: b :: rx) (f, s) w = receive h rx (f', s) w'.
Proof.
  intros Ha Hb [Hl _] Hs. destruct f as [st len idx buf]. cbn in Hs, Hl. subst st.
  destruct (comm_error_returns 2 w) as [w1 Ew].
  exists (Framing AwaitingLen1 0 0 buf), w1. split; [by split|]. split; [done|].
  rewrite (receive_step _ a (b :: rx) _ (Framing AwaitingLen2 a 0 buf) s w w) by done.
  apply receive_step. unfold injectByte. cbn [frameState frameLength payloadBuffer].
  rewrite prefix_length by (try apply text_is_byte; unfold text_byte in *; lia).
  unfold text_byte, MAX_PAYLOAD in *.
  destruct (Z.eqb_spec (a + 256 * b) 0); [lia|]. destruct (Z.ltb_spec (Z.of_nat 256) (a + 256 * b)); [|lia].
  cbn [orb]. unfold wbind. by rewrite Ew.
Qed.

(** Text of even length leaves the machine where it was; after text of odd length it
    takes the last byte for the first of a length. *)
Lemma text_skipped {S} (h : bytes → S → W S) n text rx f s w :
  length text = (2 * n)%nat → Forall text_byte text → framing_wf f → frameState f = AwaitingLen1 →
  ∃ f' w', framing_wf f' ∧ frameState f' = AwaitingLen1 ∧
    receive h (text ++ rx) (f, s) w = receive h rx (f', s) w'.
Proof.
  revert text f w. induction n as [|n IH]; intros text f w Hl HT W Hs.
  { destruct text; [|cbn in Hl; lia]. by exists f, w. }
  destruct text as [|a [|b text]]; cbn in Hl; [lia..|]. inversion HT as [|? ? Ha HT']; subst.
  inversion HT' as [|? ? Hb HT2]; subst.
  destruct (text_pair_skipped h a b (text ++ rx) f s w Ha Hb W Hs) as (f1 & w1 & W1 & Hs1 & E1).
  destruct (IH text f1 w1 ltac:(lia) HT2 W1 Hs1) as (f2 & w2 & W2 & Hs2 & E2).
  exists f2, w2. split; [done|]. split; [done|]. cbn [app]. by rewrite E1.
Qed.

(** No frame is longer than the bytes it can have come from. *)
Lemma collected_fit rx f acc w :
  Forall is_byte rx → framing_wf f →
  wp (receive collect rx (f, acc)) w
    (λ r _, ∀ p, p ∈ r.2 → p ∈ acc ∨ (length p + 2 <= length rx + lead f)%nat) (λ _, True).
Proof.
  intros HB. unfold receive. revert f acc w.
  induction HB as [|b rx Hb HB IH]; intros f acc w W; cbn [wfold].
  { apply wp_ret. intros p Hp. by left. }
  destruct (injectByte_safe b f w Hb W) as (c & f1 & w1 & E1 & W1 & _).
  assert (lead f1 <= S (lead f) ∧ (c = true → length (frame_of f1) + 1 <= lead f ∧ lead f1 = 0))%nat as [HL HC].
  { revert E1. unfold injectByte, lead. destruct f as [[] len idx buf]; cbn [frameState frameLength frameIndex payloadBuffer].
    - intros [= <- <- _]. split; [cbn; lia|done].
    - destruct (_ || _).
      + unfold wbind. destruct (comm_error_returns 2 w) as [w2 ->]. intros [= <- <- _]. split; [cbn; lia|done].
      + intros [= <- <- _]. split; [cbn; lia|done].
    - destruct (_ <=? _)%nat.
      + unfold wbind. destruct (comm_error_returns 3 w) as [w2 ->]. intros [= <- <- _]. split; [cbn; lia|done].
      + destruct (_ <=? _); intros [= <- <- _]; split; try done; cbn; try lia. intros _. split; [|done].
        unfold frame_of. cbn [frameIndex payloadBuffer]. rewrite length_take. lia. }
  cbn [fst snd]. apply wp_bind. unfold wp at 1. unfold wbind at 1. rewrite E1. destruct c.
  - unfold collect at 1, wbind at 1, wret at 1 2. eapply wp_mono; [by apply IH| |done].
    intros r ? H p Hp. destruct (HC eq_refl) as [H1 H2].
    destruct (H p Hp) as [[Ha|Ha%list_elem_of_singleton]%elem_of_app|Hf]; [by left|right; rewrite Ha|right];
      cbn [length]; lia.
  - unfold wret at 1. eapply wp_mono; [by apply IH| |done]. intros r ? H p Hp.
    destruct (H p Hp) as [Ha|Hf]; [by left|right]. cbn [length]. lia.
Qed.

(** Text on the line and the frame after it.  While the reader is between frames, text
    of an even number of bytes - log lines, the provisioning line - is skipped two
    bytes at a time, and the frame that follows is received as if it were not there;
    after text of odd length that frame is never received. *)
Theorem text_on_the_line text p f w :
  Forall text_byte text → Forall is_byte p → (0 < length p < 256)%nat →
  framing_wf f → frameState f = AwaitingLen1 →
  ∃ frames f' w', feed (text ++ on_line p) f w = Ok (f', frames) w' ∧ framing_wf f' ∧
    (Nat.Even (length text) → frames = [p] ∧ frameState f' = AwaitingLen1) ∧
    (Nat.Odd (length text) → p ∉ frames).
Proof.
  intros HT HB Hp W Hs.
  assert (Forall is_byte (text ++ on_line p)) as Hall.
  { apply Forall_app. split; [eapply Forall_impl; [exact HT|apply text_is_byte]|].
    unfold on_line. destruct (prefix_bytes (length p)) as (-> & Hb & _); [unfold MAX_PAYLOAD; lia|].
    cbn [app]. rewrite !Forall_cons. split_and!; [|done|done]. apply Z.mod_pos_bound. lia. }
  destruct (receive_safe_run _ f [] w Hall W (Forall_nil_2 _)) as (frames & f' & w' & E1 & W' & _).
  exists frames, f', w'. split; [done|]. split; [done|]. unfold feed in *. split.
  - intros [n Hn]. destruct (text_skipped collect n text (on_line p) f [] w Hn HT W Hs) as (f1 & w1 & W1 & Hs1 & E2).
    destruct (receive_frame collect p f1 W1 Hs1) as (f2 & _ & Hs2 & E3); [unfold MAX_PAYLOAD; lia|].
    rewrite E2 in E1. unfold on_line in E1. rewrite E3 in E1. unfold collect, wbind, wret in E1. by simplify_eq.
  - intros [n Hn]. destruct (prefix_bytes (length p)) as (Hpre & _); [unfold MAX_PAYLOAD; lia|].
    rewrite Z.mod_small, Z.div_small in Hpre by lia.
    destruct (exists_last (l := text)) as (text' & c & ->); [by intros ->; cbn in Hn; lia|].
    rewrite length_app in Hn. cbn [length] in Hn. apply Forall_app in HT as [HT' Hc].
    inversion Hc as [|? ? Hc' _]; subst. unfold on_line in E1. rewrite Hpre, <- app_assoc in E1. cbn [app] in E1.
    destruct (text_skipped collect n text' (c :: Z.of_nat (length p) :: 0 :: p) f [] w ltac:(lia) HT' W Hs)
      as (f1 & w1 & W1 & Hs1 & E2).
    destruct (text_pair_skipped collect c (Z.of_nat (length p)) (0 :: p) f1 [] w1) as (f2 & w2 & W2 & Hs2 & E3);
      [done|unfold text_byte; lia|done..|].
    rewrite E2, E3 in E1. intros Hin.
    pose proof (wp_Ok _ _ _ _ _ _ (collected_fit (0 :: p) f2 [] w2 ltac:(by constructor) W2) E1 p Hin) as [H|H].
    + by apply not_elem_of_nil in H.
    + unfold lead in H. rewrite Hs2 in H. cbn [length] in H. lia.
Qed.
(** The provisioning line is text of 80 bytes: a node that asks to be provisioned
    leaves a framed reader in step. *)
Lemma hex_text x : 0 <= x < 16 → text_byte (hex_digit x).
Proof. intros H. unfold hex_digit, text_byte. destruct (Z.ltb_spec x 10); lia. Qed.

Lemma pubkey_line_text key : Forall is_byte key → Forall text_byte (pubkey_line key).
Proof.
  intros HK. unfold pubkey_line. rewrite !Forall_app. split_and!; [repeat constructor; unfold text_byte; lia| |
    repeat constructor; unfold text_byte; lia].
  apply (Forall_take _ 32%nat) in HK. induction HK as [|b l Hb _ IH]; [constructor|].
  rewrite fmap_cons. cbn [concat app]. unfold is_byte in Hb.
  pose proof (Z.mod_pos_bound b 16 eq_refl). pose proof (Z.div_lt_upper_bound b 16 16).
  pose proof (Z.div_pos b 16). repeat constructor; [apply hex_text; lia..|exact IH].
Qed.

Lemma pubkey_line_length key : is_bytes 32 key → length (pubkey_line key) = 80%nat.
Proof.
  intros [Hl _]. unfold pubkey_line. rewrite take_ge by lia. rewrite !length_app. cbn [length].
  enough (length (concat ((λ b, [hex_digit (b / 16); hex_digit (b mod 16)]) <$> key)) = 64)%nat by lia.
  rewrite <- (Nat.mul_comm 32 2 : _ = 64)%nat, <- Hl. clear Hl.
  induction key as [|b key IH]; [done|]. rewrite fmap_cons. cbn [concat app length]. lia.
Qed.

Lemma c_str_text s : Forall is_byte s → Forall text_byte (c_str s).
Proof.
  intros Hs%c_str_byte. pose proof (c_str_nonzero s) as Hn. rewrite Forall_forall in *.
  intros b Hb. specialize (Hs b Hb). specialize (Hn b Hb). unfold is_byte, text_byte in *. lia.
Qed.

(** So is a log line, of whatever length. *)
Lemma log_line_text tag message :
  Forall is_byte tag → Forall is_byte message → Forall text_byte (line_text tag message).
Proof.
  intros HT HM. unfold line_text. rewrite !Forall_app.
  split_and!; try (by apply c_str_text); repeat constructor; unfold text_byte; lia.
Qed.

(** * Two tasks, one line

    The mesh task writes delivered frames to the server and the housekeeping task
    enrollment requests, each frame in two calls; nothing orders the calls of one task
    against the other's. *)
Inductive merged {A} : list A → list A → list A → Prop :=
  | merged_nil : merged [] [] []
  | merged_left x l1 l2 l : merged l1 l2 l → merged (x :: l1) l2 (x :: l)
  | merged_right x l1 l2 l : merged l1 l2 l → merged l1 (x :: l2) (x :: l).

(** The [uart_write_bytes] calls of a run, oldest first. *)
Fixpoint uart_writes (tr : trace) : list bytes :=
  match tr with
  | [] => []
  | EvUart b :: tr' => uart_writes tr' ++ [b]
  | _ :: tr' => uart_writes tr'
  end.

#[local] Existing Instance documented_protocol.

(** A frame the mesh task hands to the server, and a request relayed meanwhile. *)
Definition demo_forward : result Board :=
  onMeshDataImpl_serial demo_request (demo_board demo_leaf_node) ref_world.
Definition demo_relay : result unit :=
  relayEnrollmentToServer (demo_mac 6) (replicate 32 9) ref_world.
Definition demo_payload (writes : list bytes) : bytes := default [] (writes !! 1%nat).

(** A reader can lose both of two frames written at the same time. *)
Lemma concurrent_frames_lost :
  let w1 := uart_writes (w_trace (world_of demo_forward)) in
  let w2 := uart_writes (w_trace (world_of demo_relay)) in
  ∃ order, merged w1 w2 order ∧
    (∃ f frames w, feed (concat order) framing_new ref_world = Ok (f, frames) w ∧
       (demo_payload w1 ∉ frames) ∧ (demo_payload w2 ∉ frames)).
Proof.
  intros w1 w2.
  set (order := [default [] (w1 !! 0%nat); default [] (w2 !! 0%nat); demo_payload w1; demo_payload w2]).
  exists order. split.
  { assert (w1 = [default [] (w1 !! 0%nat); demo_payload w1]) as E1 by (vm_compute; reflexivity).
    assert (w2 = [default [] (w2 !! 0%nat); demo_payload w2]) as E2 by (vm_compute; reflexivity).
    unfold order. rewrite E1, E2 at 1. repeat constructor. }
  eexists _, _, _. split; [vm_compute; reflexivity|].
  split; apply (bool_decide_unpack _); vm_compute; exact I.
Qed.

(** * Witness: the provisioning line, then a frame *)
Definition demo_key_line : bytes := pubkey_line (replicate 32 0xA5).

Lemma text_on_the_line_witness :
  ∃ f w, feed (demo_key_line ++ on_line (wire_form demo_request)) framing_new ref_world
    = Ok (f, [wire_form demo_request]) w.
Proof.
  destruct (text_on_the_line demo_key_line (wire_form demo_request) framing_new ref_world)
    as (frames & f & w & E1 & _ & Heven & _).
  - apply pubkey_line_text. apply (bool_decide_unpack _). vm_compute. exact I.
  - apply (bool_decide_unpack _). vm_compute. exact I.
  - apply (bool_decide_unpack _). vm_compute. exact I.
  - apply framing_new_wf.
  - reflexivity.
  - destruct Heven as [-> _]; [exists 40%nat; vm_compute; reflexivity|]. by exists f, w.
Defined.
