(* ===== verification/Startup.v ===== *)
(** The entry point (main.cpp): driver set-up, the boot sequence in full, and task
    creation; with the halt loop of a dead red LED and the configuration warnings.

    A driver call is recorded with the answer [Drivers] gives; [ESP_ERROR_CHECK] of a
    failed one aborts, which restarts the device. *)
From stdpp Require Import relations.
From S2P Require Import Prelude Config Wire Platform Logger ErrorCore SerialFraming Hardware SevenSeg Eeprom PeerRegistry.
From S2P Require Import ReplayCache Transport Crypto Enrollment KeyStore Routers Beacon Authorizer Node Messenger RouteReport Mesh Flood Boot Adapter SerialAdapter PirAdapter App Main MeshTask.

(** What [nvs_flash_init] returns. *)
Inductive nvs_init_result := NvsOk | NvsNoFreePages | NvsNewVersion | NvsFailed.

#[export] Instance nvs_init_result_eq_dec : EqDecision nvs_init_result.
Proof. solve_decision. Defined.

(** The drivers' answers at one boot. *)
Record Drivers := DriverAnswers {
  nvs_first : nvs_init_result;
  nvs_erase_ok : bool;
  nvs_second : nvs_init_result;
  driver_ok : driver_call → bool
}.

Definition nvs_is_ok (r : nvs_init_result) : bool := bool_decide (r = NvsOk).
(** The two results main.cpp erases and retries on. *)
Definition nvs_stale (r : nvs_init_result) : bool :=
  match r with NvsNoFreePages | NvsNewVersion => true | _ => false end.

Definition ESP_ERROR_CHECK (ok : bool) : W unit := if ok then wret tt else emit EvAbort ;;; whalt.

Section Startup.
Context {E : Env} {C : Crypto} {Pr : Protocol} {Pn : Pin} (d : Drivers).

Definition driver (call : driver_call) : W bool :=
  let ok := driver_ok d call in emit (EvDriver call ok) ;;; wret ok.
Definition checked_driver (call : driver_call) : W unit := ok <- driver call ;; ESP_ERROR_CHECK ok.

Definition nvs_flash_init (r : nvs_init_result) : W nvs_init_result :=
  emit (EvDriver NvsFlashInit (nvs_is_ok r)) ;;; wret r.

Definition initDrivers : W unit :=
  nvs_err <- nvs_flash_init (nvs_first d) ;;
  nvs_err' <- (if nvs_stale nvs_err then
                 emit (EvFlashErase (nvs_erase_ok d)) ;;;
                 ESP_ERROR_CHECK (nvs_erase_ok d) ;;;
                 nvs_flash_init (nvs_second d)
               else wret nvs_err) ;;
  ESP_ERROR_CHECK (nvs_is_ok nvs_err') ;;;
  checked_driver (GpioConfig [RED_LED_PIN; GREEN_LED_PIN; SEVSEG_DATA_PIN; SEVSEG_CLK_PIN] true false false) ;;;
  checked_driver (GpioConfig [CONFIG_BUTTON_PIN; RESET_BUTTON_PIN] false false true) ;;;
  checked_driver (GpioConfig [PIR_ADAPTER_DEFAULT_PIN] false true false) ;;;
  checked_driver (InstallIsrService 0) ;;;
  checked_driver (UartInstall 1024 0) ;;;
  checked_driver (UartConfig 115200).

(** One round of the endless loop in [haltOnRedLedFailure], the green LED being up:
    six pulses, pumped until they are over, and a pause. *)
Fixpoint pump_green (fuel : nat) (g : Led) : W Led :=
  match fuel with
  | O => whalt
  | S fuel' =>
      if isBusy g then
        now <- now_ms ;; g1 <- update now g ;; vTaskDelay 10 ;;; pump_green fuel' g1
      else wret g
  end.
Definition red_failure_round (fuel : nat) (g : Led) : W Led :=
  g1 <- pulse false 6 100 100 g ;; g2 <- pump_green fuel g1 ;; vTaskDelay 1000 ;;; wret g2.

(** [validateServerConfiguration]. *)
Definition validateServerConfiguration (l : Logger) (m : MainState) : W unit :=
  let warn message := logln (label "CONFIG") (label message) LOG_WARN l in
  isMasterNode <- (if isDevMode m then wret (devMasterFlag m) else loadMasterFlag) ;;
  let hasSerialAdapter :=
    match adapter m with Some o => adapterType (base_of o) =? SERIAL_ADAPTER | None => false end in
  let loggingDisabled := bool_decide (DEFAULT_LOG_LEVEL = LOG_NONE) in
  (if isMasterNode && negb hasSerialAdapter && negb loggingDisabled
   then warn "WARNING: Master node without SERIAL_ADAPTER may cause server communication issues"
   else wret tt) ;;;
  (if hasSerialAdapter && negb loggingDisabled
   then warn "WARNING: SERIAL_ADAPTER with logging enabled will interfere with server communication" ;;;
        warn "Set LATTICE_DEFAULT_LOG_LEVEL = LOG_NONE (4) in LogLevelConfig.h"
   else wret tt).

Definition spawnTasks (isMaster : bool) (l : Logger) (m : MainState) : W unit :=
  driver (WdtInit 10000) ;;;
  validateServerConfiguration l m ;;;
  emit (EvDriver (TaskCreate "hk" 2 None) true) ;;;
  checked_driver (PmConfigure (if isMaster then 240 else 80) 80).

(** [app_main], from power-on state. *)
Definition app_main (reason : Z) (after : bytes) (radio : Radio) : W MainState :=
  initDrivers ;;;
  let l := setLogLevel DEFAULT_LOG_LEVEL logger_new in
  m1 <- initHardwareOutputs reason main_new ;;
  let* (isMaster, m2) := initSubsystems after radio m1 in
  spawnTasks isMaster l m2 ;;;
  wret m2.
End Startup.

#[local] Opaque ACK_POLLS.

(** * Nothing wipes the flash *)
Section flash.
Context {E : Env} {C : Crypto} {Pr : Protocol} {Pn : Pin}.

Lemma quiet_no_erase {A} (c : W A) : emits quiet_event c → emits no_erase c.
Proof. intros H. eapply emits_weaken; [exact H|]. by intros []. Qed.
Lemma silent_no_erase {A} (c : W A) : emits no_send c → emits no_erase c.
Proof. intros H. eapply emits_weaken; [exact H|]. by intros []. Qed.
Lemma error_no_erase e : is_error_event e → no_erase e.
Proof. by destruct e. Qed.
Lemma nvs_no_erase e : is_nvs_event e → no_erase e.
Proof. by destruct e. Qed.

Lemma send_no_erase t m d : emits no_erase (sendMessage t m d).
Proof. by apply sendMessage_emits; [apply error_no_erase|]. Qed.
Lemma broadcast_no_erase m : emits no_erase (sendBroadcast m).
Proof. by apply sendBroadcast_emits. Qed.
Lemma to_peers_no_erase m ps d : emits no_erase (broadcastToAllPeers m ps d).
Proof. by apply broadcastToAllPeers_emits; [apply error_no_erase|]. Qed.
Lemma deliver_no_erase m n : emits no_erase (deliver m n).
Proof. apply silent_no_erase, deliver_no_send. Qed.
Lemma build_no_erase a b c d e f : emits no_erase (buildMessage a b c d e f).
Proof. apply quiet_no_erase, buildMessage_quiet. Qed.

Lemma route_uplink_no_erase m n : emits no_erase (route_uplink m n).
Proof.
  pose proof (λ a b c d e f, quiet_no_erase _ (findNextHop_quiet a b c d e f)).
  pose proof send_no_erase. unfold route_uplink, now_ms, esp_timer_get_time. solve_emits.
Qed.

Lemma transmitCore_no_erase ty p mt ov b n : emits no_erase (transmitCore ty p mt ov b n).
Proof.
  pose proof build_no_erase. pose proof route_uplink_no_erase.
  pose proof (λ m n, quiet_no_erase _ (seal_uplink_quiet m n)). unfold transmitCore. solve_emits.
Qed.

Lemma broadcastData_no_erase ty p b n : emits no_erase (broadcastAdapterData ty p b n).
Proof.
  pose proof build_no_erase. pose proof to_peers_no_erase. pose proof deliver_no_erase.
  unfold broadcastAdapterData. solve_emits.
Qed.

Lemma dispatch_tx_no_erase ty p self n : emits no_erase (transmitDispatch ty p self n).
Proof.
  unfold transmitDispatch. destruct (isMaster n); [apply broadcastData_no_erase|apply transmitCore_no_erase].
Qed.

Lemma downlink_no_erase dest ty p n : emits no_erase (sendDownlinkToNode dest ty p n).
Proof.
  pose proof build_no_erase. pose proof to_peers_no_erase. pose proof send_no_erase.
  pose proof (λ m ps en ks, quiet_no_erase _ (peerE2EKeys_quiet m ps en ks)).
  pose proof (λ l m ps cm, quiet_no_erase _ (registerDownlinkPeer_quiet l m ps cm)).
  pose proof (fail_emits no_erase error_no_erase).
  unfold sendDownlinkToNode, route_downlink, checkEpochRollback. solve_emits.
Qed.

Lemma enrollPeer_no_erase m s1 s2 n : emits no_erase (enrollPeer m s1 s2 n).
Proof.
  pose proof (λ a b c d, quiet_no_erase _ (registerPeerWithKey_quiet a b c d)).
  pose proof (λ tx, quiet_no_erase _ (nextSeqGuarded_quiet tx)). pose proof broadcast_no_erase.
  unfold enrollPeer. solve_emits.
Qed.

Lemma loop_no_erase relayFn n :
  (∀ m k, emits no_erase (relayFn m k)) → emits no_erase (mesh_loop relayFn n).
Proof.
  intros HR. pose proof build_no_erase. pose proof broadcast_no_erase. pose proof transmitCore_no_erase.
  pose proof (λ a b c d e f, quiet_no_erase _ (findNextHop_quiet a b c d e f)).
  assert (∀ fn q, (∀ f, fn = Some f → ∀ m k, emits no_erase (f m k)) → emits no_erase (drainTo fn q)) as HD.
  { intros fn q Hf. induction q as [|e q IH]; cbn [drainTo]; [apply emits_ret|].
    apply emits_bind; [|auto]. destruct fn; [by apply Hf|apply emits_ret]. }
  assert (∀ fn en, (∀ f, fn = Some f → ∀ m k, emits no_erase (f m k)) → emits no_erase (drainPendingRelay fn en)).
  { intros. unfold drainPendingRelay. apply emits_bind; [by apply HD|]. intros. apply emits_ret. }
  unfold mesh_loop. apply emits_bind.
  { apply H3. destruct (enrollmentRelayFn n); [|done]. by intros f [= <-]. }
  unfold loop_route_report, sendRouteReport, loop_relay_beacon, broadcastMasterBeacon,
    beacon_send, intervalElapsed, now_ms, esp_timer_get_time. solve_emits.
Qed.

Lemma tick_no_erase t n : emits no_erase (tickEnrollmentBroadcast t n).
Proof.
  pose proof (λ tx, quiet_no_erase _ (nextSeqGuarded_quiet tx)). pose proof broadcast_no_erase.
  unfold tickEnrollmentBroadcast, sendEnrollmentRequest, sendRequest. solve_emits.
Qed.

Lemma timeout_no_erase n : emits no_erase (checkMasterTimeout n).
Proof. unfold checkMasterTimeout, checkTimeout, now_ms, esp_timer_get_time. solve_emits. Qed.

(** ** The adapters, whatever their callback does *)
Section callback.
Context (callback : mesh_message → Board → W Board).
Context (HC : ∀ m b, emits no_erase (callback m b)).

Lemma deliveries_no_erase l b : emits no_erase (wfold callback l b).
Proof using HC. apply emits_wfold. intros. apply HC. Qed.

Lemma with_callback_no_erase c b :
  emits no_erase (c (board_node b)) → emits no_erase (with_callback callback c b).
Proof using HC.
  intros Hc w. specialize (Hc w). unfold wp, with_callback in *. destruct (c _ w) as [n w1|w1]; [|done].
  pose proof (deliveries_no_erase (new_deliveries w w1) (with_node n b) w1) as HD. unfold wp in HD.
  destruct (wfold _ _ _ w1); by eapply appended_trans.
Qed.

Lemma on_node_no_erase c b : emits no_erase (c (board_node b)) → emits no_erase (on_node c b).
Proof. intros. unfold on_node. solve_emits. Qed.

Lemma selfHealth_no_erase a b : emits no_erase (sendSelfHealthReport callback a b).
Proof using HC.
  unfold sendSelfHealthReport, buildHealthFrame, now_ms, esp_timer_get_time.
  apply emits_bind; [solve_emits|]. intros payload. apply with_callback_no_erase, dispatch_tx_no_erase.
Qed.

Lemma control_no_erase a msg r b : emits no_erase (dispatchControlOp callback a msg r b).
Proof using HC.
  assert (∀ op h, find_op op (kControlOps callback) = Some h → emits no_erase (h a msg r b)) as HO.
  { pose proof nvs_no_erase as HN. pose proof selfHealth_no_erase.
    pose proof (save_u8_emits no_erase nvs_no_erase). pose proof (saveNodeId_emits no_erase nvs_no_erase).
    intros op h. unfold kControlOps. cbn [find_op].
    repeat (destruct (_ =? op); [intros [= <-]|]); [| | | |done].
    - unfold opConfigSet, saveAdapterTypeToEEPROM, saveAdapterType, esp_restart. solve_emits.
    - unfold opNodeIdSet. solve_emits.
    - unfold opHealthReq. solve_emits.
    - pose proof (λ ty p f, on_node_no_erase (broadcastAdapterData ty p f) b (broadcastData_no_erase _ _ _ _)).
      unfold opTxPowerSet, saveTxPowerPreset, esp_wifi_set_max_tx_power. solve_emits. }
  unfold dispatchControlOp. destruct (find_op _ _) as [h|] eqn:Hf; [|apply emits_ret].
  apply emits_bind; [by eapply HO|]. intros. apply emits_ret.
Qed.

Lemma write_frame_no_erase p : emits no_erase (write_frame p).
Proof. unfold write_frame, uart_write_bytes. solve_emits. Qed.

Lemma onMeshData_no_erase o a msg b : emits no_erase (onMeshData callback (onMeshDataImpl o) a msg b).
Proof using HC.
  pose proof control_no_erase. pose proof write_frame_no_erase.
  pose proof (fail_emits no_erase error_no_erase).
  assert (∀ m b, emits no_erase (onMeshDataImpl o m b))
    by (intros; unfold onMeshDataImpl, onMeshDataImpl_serial; destruct o; solve_emits).
  unfold onMeshData. solve_emits.
Qed.

Lemma frame_no_erase frame a b : emits no_erase (handleCompleteFrame callback frame a b).
Proof using HC.
  pose proof control_no_erase. pose proof (fail_emits no_erase error_no_erase).
  pose proof (λ m s1 s2 b, on_node_no_erase (enrollPeer m s1 s2) b (enrollPeer_no_erase _ _ _ _)).
  pose proof (λ ty p b, on_node_no_erase (transmit ty p) b (dispatch_tx_no_erase _ _ _ _)).
  pose proof (λ ty p f b, on_node_no_erase (broadcastAdapterData ty p f) b (broadcastData_no_erase _ _ _ _)).
  pose proof (λ dst ty p b, on_node_no_erase (sendDownlinkToNode dst ty p) b (downlink_no_erase _ _ _ _)).
  unfold handleCompleteFrame, serial_join_ack, serial_forward. solve_emits.
Qed.

Lemma injectByte_no_erase x f : emits no_erase (injectByte x f).
Proof. pose proof (fail_emits no_erase error_no_erase). unfold injectByte. solve_emits. Qed.

Lemma serial_loop_no_erase rx sa b : emits no_erase (serial_loop callback rx sa b).
Proof using HC.
  pose proof selfHealth_no_erase. pose proof frame_no_erase. pose proof injectByte_no_erase.
  unfold serial_loop, serial_receive, receive, now_ms, esp_timer_get_time. solve_emits.
Qed.
End callback.

Lemma pulse_no_erase s n x y l : emits no_erase (pulse s n x y l).
Proof. apply pulse_emits, panel_no_erase. Qed.

Lemma dataRecvCallback_no_erase o m b : emits no_erase (dataRecvCallback o m b).
Proof.
  assert (∀ cb, (∀ m b, emits no_erase (cb m b)) → ∀ m b, emits no_erase (callback_body o cb m b)) as HB.
  { intros cb Hcb m' b'. unfold callback_body. pose proof (λ obj a m b, onMeshData_no_erase cb Hcb obj a m b).
    pose proof pulse_no_erase. solve_emits. }
  unfold dataRecvCallback. apply HB, HB. intros. apply emits_halt.
Qed.

Lemma pir_loop_no_erase p b : emits no_erase (pir_loop p b).
Proof.
  pose proof (fail_emits no_erase error_no_erase).
  assert (∀ ty x b, emits no_erase (on_node (transmit ty x) b))
    by (intros; apply on_node_no_erase, dispatch_tx_no_erase).
  unfold pir_loop, pir_health, sendNodeHealth, sendDataThroughMesh, buildHealthFrame, attachInterrupt,
    gpio_set_intr_type, gpio_isr_handler_add, gpio_intr_enable, now_ms, esp_timer_get_time. solve_emits.
Qed.

Lemma adapter_loop_no_erase rx m : emits no_erase (adapter_loop rx m).
Proof.
  pose proof pir_loop_no_erase.
  pose proof (serial_loop_no_erase _ (dataRecvCallback_no_erase (adapter m))).
  unfold adapter_loop. solve_emits.
Qed.

(** ** The mesh task *)
Lemma relays_no_erase F {A} (c : W A) : emits (only_sends F) c → emits no_erase c.
Proof. intros H. eapply emits_weaken; [exact H|]. by intros []. Qed.

Lemma receive_board_no_erase callback src msg b :
  (∀ m b, emits no_erase (callback m b)) → 0 <= hop_count msg →
  emits no_erase (receive_on_board callback src msg b).
Proof.
  intros HC H0.
  pose proof (λ n, silent_no_erase _ (receive_gate_no_send src msg n)).
  assert (∀ n, emits no_erase (dispatch msg n)) by (intros; by eapply relays_no_erase, dispatch_relays).
  assert (∀ again n, emits no_erase (relayBroadcast again msg n)).
  { intros. unfold relayBroadcast. destruct (_ && _); [by eapply relays_no_erase, relayDownlink_relays|apply emits_ret]. }
  assert (∀ b', emits no_erase (delivering callback (deliverAdapterData msg) b')) as HD.
  { intros b' w. pose proof (relays_no_erase _ _ (deliverAdapterData_relays msg (board_node b') H0) w) as Hd.
    unfold wp, delivering in *. destruct (deliverAdapterData _ _ w) as [[n' a] w1|w1]; [|done].
    rewrite wbind_run.
    pose proof (deliveries_no_erase callback HC (new_deliveries w w1) (with_node n' b') w1) as HF. unfold wp in HF.
    destruct (wfold _ _ _ w1); by eapply appended_trans. }
  unfold receive_on_board. apply emits_bind; [done|]. intros [n1|]; [|apply emits_ret].
  destruct (_ =? _).
  - apply emits_bind; [apply HD|]. intros [b2 again]. solve_emits.
  - by apply with_callback_no_erase.
Qed.

Lemma mesh_task_no_erase queue m :
  Forall (λ e, wf_message (rq_msg e)) queue → emits no_erase (mesh_task queue m).
Proof.
  intros HQ. unfold mesh_task. apply emits_bind; [|intros; apply emits_ret].
  generalize (OnBoard (mesh m) (greenLed m) (Main.isDevMode m)).
  induction HQ as [|e queue He _ IH]; intros b; [apply emits_ret|]. cbn [drain].
  apply emits_bind; [|done].
  apply receive_board_no_erase; [apply dataRecvCallback_no_erase|apply (wfm_hop _ He)].
Qed.

(** ** The panel *)
Lemma level_no_erase p v : emits no_erase (gpio_set_level p v).
Proof. by apply emits_emit. Qed.

Lemma wait_no_erase fuel d s : emits no_erase (wait_ack fuel d s).
Proof.
  induction fuel as [|fuel IH]; cbn [wait_ack]; unfold now_ms, esp_timer_get_time, gpio_get_level; solve_emits.
Qed.

Lemma writeByte_no_erase x d : emits no_erase (writeByte x d).
Proof.
  pose proof level_no_erase as HL. unfold writeByte, clk.
  apply emits_bind.
  { apply emits_wfor. intros i _. unfold clk, dio. do 2 (apply emits_bind; [apply HL|intros []]). apply HL. }
  intros []. apply emits_bind; [apply HL|intros []]. apply emits_bind; [by apply emits_emit|intros []].
  apply emits_bind; [apply HL|intros []]. apply emits_bind; [apply now_ms_emits, panel_no_erase|intros start].
  apply emits_bind; [apply wait_no_erase|intros ack]. apply emits_bind; [by apply emits_emit|intros []].
  apply emits_bind; [apply HL|intros []]. apply emits_bind; [|intros; apply emits_ret].
  destruct (negb ack); [apply (fail_emits no_erase error_no_erase)|apply emits_ret].
Qed.

Lemma setSegments_no_erase segs d : emits no_erase (setSegments segs d).
Proof.
  pose proof level_no_erase. pose proof writeByte_no_erase.
  assert (emits no_erase (bus_start d)) by (unfold bus_start, clk, dio; do 3 (apply emits_bind; [done|intros []]); done).
  assert (emits no_erase (bus_stop d)) by (unfold bus_stop, clk, dio; do 3 (apply emits_bind; [done|intros []]); done).
  assert (emits no_erase (wfor (λ s, writeByte s d ;;; wret tt) segs)).
  { apply emits_wfor. intros x _. apply emits_bind; [done|]. intros. apply emits_ret. }
  unfold setSegments. do 9 (apply emits_bind; [done|intros ?]). done.
Qed.

#[local] Opaque setSegments.
Lemma show_identity_no_erase m : emits no_erase (show_identity m).
Proof.
  pose proof setSegments_no_erase as HS. unfold show_identity. destruct ENABLE_SEVSEG_DISPLAY; [|apply emits_ret].
  apply emits_bind; [apply (load_u8_emits no_erase nvs_no_erase)|]. intros id. apply emits_bind.
  2: { intros. apply emits_ret. }
  unfold display_tick, display_clear, show, showWithDP, showInternal.
  apply emits_bind; [apply now_ms_emits, panel_no_erase|]. intros now.
  destruct (negb _); [destruct (_ <=? _); [|apply emits_ret]|destruct (negb _); [apply emits_ret|]];
    (apply emits_bind; [destruct (_ : bool); apply HS|intros; apply emits_ret]).
Qed.

Lemma update_no_erase t l : emits no_erase (update t l).
Proof. apply update_emits, panel_no_erase. Qed.

Lemma relay_fn_no_erase m k : emits no_erase (relayEnrollmentToServer m k).
Proof.
  pose proof write_frame_no_erase. pose proof (fail_emits no_erase error_no_erase).
  unfold relayEnrollmentToServer. solve_emits.
Qed.

Lemma housekeeping_work_no_erase rx m : emits no_erase (housekeeping_work rx m).
Proof.
  pose proof update_no_erase. pose proof pulse_no_erase. pose proof (blinkPattern_emits no_erase error_no_erase).
  pose proof (λ n, loop_no_erase _ n relay_fn_no_erase). pose proof timeout_no_erase.
  pose proof show_identity_no_erase. pose proof tick_no_erase. pose proof adapter_loop_no_erase.
  unfold housekeeping_work, drainPendingBlink, err_tick, now_ms, esp_timer_get_time. solve_emits.
Qed.

Lemma tickConfig_no_erase fuel dev btn h n g dm : emits no_erase (tickConfig fuel dev btn h n g dm).
Proof.
  pose proof (detectHold_emits no_erase panel_no_erase). pose proof pulse_no_erase.
  pose proof (pump_emits no_erase panel_no_erase). pose proof (save_bool_emits no_erase nvs_no_erase).
  pose proof (load_bool_emits no_erase nvs_no_erase).
  unfold tickConfig, loadMasterFlag, saveMasterFlag, vTaskDelay, esp_restart. solve_emits.
Qed.

(** ** Boot *)
Section boot.
Context (d : Drivers).

(** What a boot may do to the flash: erase the whole partition, if the NVS driver
    found it full or of another version. *)
Definition boot_wipe (e : event) : Prop :=
  match e with
  | EvNvsEraseAll _ => False
  | EvFlashErase _ => nvs_stale (nvs_first d) = true
  | _ => True
  end.

Lemma no_erase_boot {A} (c : W A) : emits no_erase c → emits boot_wipe c.
Proof. intros H. eapply emits_weaken; [exact H|]. by intros []. Qed.

Lemma initDrivers_wipe : emits boot_wipe (initDrivers d).
Proof.
  assert (∀ ok, emits boot_wipe (ESP_ERROR_CHECK ok)) by (intros []; unfold ESP_ERROR_CHECK; solve_emits).
  assert (∀ c, emits boot_wipe (checked_driver d c)) by (intros; unfold checked_driver, driver; solve_emits).
  assert (∀ r, emits boot_wipe (nvs_flash_init r)) by (intros; unfold nvs_flash_init; solve_emits).
  unfold initDrivers, nvs_flash_init at 1.
  apply (emits_bind_spec _ _ _ (λ r, r = nvs_first d)); [solve_emits|by intros w; apply wp_any|].
  intros r ->. apply emits_bind.
  - destruct (nvs_stale (nvs_first d)) eqn:Hs; [|apply emits_ret].
    apply emits_bind; [apply emits_emit; exact Hs|]. solve_emits.
  - intros r. repeat (apply emits_bind; [done|intros []]). done.
Qed.

#[local] Opaque setSegments.
Lemma fatal_no_erase {A} t m sub : emits no_erase (@fatal A t m sub).
Proof. by apply (fatal_emits no_erase error_no_erase). Qed.

Lemma eeprom_init_no_erase : emits no_erase eeprom_init.
Proof.
  pose proof (fail_emits no_erase error_no_erase).
  unfold eeprom_init, nvsGetU8, nvsPutU8, persistOrEscalate, nvs_open, nvs_get, nvs_set, nvs_commit. solve_emits.
Qed.

Lemma boot_check_no_erase reason : emits no_erase (boot_check reason).
Proof.
  pose proof (save_u8_emits no_erase nvs_no_erase). pose proof (load_u8_emits no_erase nvs_no_erase).
  unfold boot_check, saveRebootReason, loadRebootCount, saveRebootCount. solve_emits.
Qed.

Lemma sevenseg_init_no_erase dsp : emits no_erase (sevenseg_init dsp).
Proof.
  pose proof (fail_emits no_erase error_no_erase) as HF. pose proof level_no_erase as HL.
  unfold sevenseg_init, display_clear, clk, dio, vTaskDelay. destruct (_ || _); [apply HF|].
  do 2 (apply emits_bind; [apply HL|intros []]).
  apply emits_bind; [apply setSegments_no_erase|intros []]. apply emits_bind; [by apply emits_emit|intros []].
  apply emits_bind; [apply setSegments_no_erase|intros []]. apply emits_ret.
Qed.

Lemma hardware_no_erase reason m : emits no_erase (initHardwareOutputs reason m).
Proof.
  pose proof (fail_emits no_erase error_no_erase). pose proof (signalError_emits no_erase error_no_erase).
  pose proof (λ A t m s, @fatal_no_erase A t m s). pose proof level_no_erase.
  pose proof eeprom_init_no_erase. pose proof boot_check_no_erase. pose proof sevenseg_init_no_erase.
  assert (∀ b l, emits no_erase (led_init b l)) by (intros; unfold led_init; solve_emits).
  assert (∀ a b c u, emits no_erase (err_init a b c u)) by (intros; unfold err_init; solve_emits).
  unfold initHardwareOutputs. solve_emits.
Qed.

Lemma mesh_init_no_erase b1 b2 b3 m n : emits no_erase (mesh_init b1 b2 b3 m n).
Proof.
  pose proof nvs_no_erase as HN. pose proof (fail_emits no_erase error_no_erase).
  pose proof (signalError_emits no_erase error_no_erase). pose proof (λ A t m s, @fatal_no_erase A t m s).
  pose proof (save_u8_emits no_erase HN). pose proof (load_u8_emits no_erase HN).
  pose proof (load_bool_emits no_erase HN). pose proof (loadKeypair_emits no_erase HN).
  pose proof (saveKeypair_emits no_erase HN). pose proof (loadMeshKey_emits no_erase HN).
  pose proof (saveMeshKey_emits no_erase HN). pose proof (load_master_mac_emits no_erase HN).
  pose proof (loadPeerRecord_emits no_erase HN). pose proof (saveBootEpoch_emits no_erase HN).
  pose proof (loadBootEpoch_emits no_erase HN). pose proof (loadTxPowerPreset_emits no_erase HN).
  assert (emits no_erase (loadPersistentState n)).
  { unfold loadPersistentState, loadFromEEPROM, load_slot, loadMeshKeyFromEEPROM, enrollment_init,
      generateKeypair, x25519_keygen, loadKnownMasterMac, loadKnownMasterMacSecondary, loadEnrolledFlag.
    solve_emits. }
  assert (∀ n', emits no_erase (setupRadio b1 m n'))
    by (intros; unfold setupRadio, transport_setup, checkEsp, readMacAddress; solve_emits).
  assert (∀ ps, emits no_erase (setupEspNow b2 b3 ps)).
  { intros. unfold setupEspNow, registerPeerWithEspNow, checkEsp, esp_now_is_peer_exist, esp_now_add_peer.
    solve_emits. }
  unfold mesh_init, esp_wifi_set_max_tx_power. solve_emits.
Qed.
Lemma savePeerList_no_erase l : emits no_erase (savePeerList l).
Proof.
  pose proof (savePeerRecord_emits no_erase nvs_no_erase). pose proof (erasePeerRecord_emits no_erase nvs_no_erase).
  unfold savePeerList, save_guard, ensureInitialized, isDevModeInternal. solve_emits.
Qed.

Lemma factory_no_erase dev ty :
  emits no_erase (initializeDefaultsIfUnset dev) ∧ emits no_erase (createFromEEPROM dev) ∧
  ∀ pin, emits no_erase (createAdapter ty pin).
Proof.
  pose proof (fail_emits no_erase error_no_erase).
  pose proof (save_u8_emits no_erase nvs_no_erase). pose proof (load_u8_emits no_erase nvs_no_erase).
  unfold initializeDefaultsIfUnset, createFromEEPROM, loadAdapterTypeFromEEPROM, createAdapter, loadAdapterType,
    saveAdapterType. split_and!; solve_emits.
Qed.

Lemma adapter_init_no_erase o : emits no_erase (adapter_init o).
Proof.
  pose proof (fail_emits no_erase error_no_erase).
  unfold adapter_init, pir_adapter_init, attachInterrupt, gpio_set_intr_type, gpio_isr_handler_add, gpio_intr_enable.
  solve_emits.
Qed.

Lemma subsystems_no_erase after radio m : emits no_erase (initSubsystems after radio m).
Proof.
  pose proof savePeerList_no_erase. pose proof mesh_init_no_erase. pose proof adapter_init_no_erase.
  pose proof (λ dev, proj1 (factory_no_erase dev 0)). pose proof (λ dev, proj1 (proj2 (factory_no_erase dev 0))).
  pose proof (λ ty, proj2 (proj2 (factory_no_erase true ty))).
  pose proof (load_bool_emits no_erase nvs_no_erase). pose proof (λ A t m s, @fatal_no_erase A t m s).
  assert (emits no_erase hasPeers) by (unfold hasPeers, nvsHasKey, nvs_open, nvs_get, ensureInitialized; solve_emits).
  assert (∀ b, emits no_erase (uart_write_bytes b)) by (intros; unfold uart_write_bytes; solve_emits).
  assert (∀ b, emits no_erase (setDevMode b)) by (intros; unfold setDevMode; solve_emits).
  assert (∀ c ok, emits no_erase (emit (EvDriver c ok))) by (intros; by apply emits_emit).
  assert (emits no_erase loadDevFlag ∧ emits no_erase loadMasterFlag) as [? ?] by (split; apply load_bool_emits, nvs_no_erase).
  unfold initSubsystems. solve_emits.
Qed.
End boot.
End flash.

(** * A power cycle *)
Section Cycle.
Context {E : Env} {C : Crypto} {Pr : Protocol} {Pn : Pin} (d : Drivers).

(** What the scheduler or the interrupt controller can call next. *)
Inductive task_call (m : MainState) : W MainState → Prop :=
  | call_mesh queue : Forall (λ e, wf_message (rq_msg e)) queue → task_call m (mesh_task queue m)
  | call_housekeeping fuel rx : task_call m (housekeeping fuel rx m)
  | call_interrupt : task_call m (pir_interrupt m).

(** The worlds a device reaches from power-on in [w0]: where boot returned or stopped,
    and where a task's call returned or stopped, after any calls before it. *)
Inductive power_cycle (reason : Z) (after : bytes) (radio : Radio) (w0 : world) : world → Prop :=
  | cycle_boot : power_cycle reason after radio w0 (world_of (app_main d reason after radio w0))
  | cycle_running m1 w1 m w c :
      app_main d reason after radio w0 = Ok m1 w1 → rtc firmware_step (m1, w1) (m, w) →
      task_call m c → power_cycle reason after radio w0 (world_of (c w)).

Lemma wp_world {A} (c : W A) w (Q : world → Prop) : wp c w (λ _, Q) Q → Q (world_of (c w)).
Proof. unfold wp. by destruct (c w). Qed.

Lemma step_call m w m' w' : firmware_step (m, w) (m', w') → ∃ c, task_call m c ∧ c w = Ok m' w'.
Proof. inversion 1; subst; eexists; (split; [|done]); by constructor. Qed.

(** ** The hold that [tickReset] remembers *)
Definition keeps_hold (m : MainState) (c : W MainState) : Prop :=
  ∀ w, wp c w (λ m' _, resetHold m' = resetHold m) (λ _, True).

Lemma adapter_loop_hold rx m : keeps_hold m (adapter_loop rx m).
Proof.
  intros w. unfold adapter_loop. destruct (adapter m) as [[p|s]|]; [| |by apply wp_ret];
    apply wp_any; intros [x b] w1; by apply wp_ret.
Qed.

Lemma housekeeping_work_hold rx m : keeps_hold m (housekeeping_work rx m).
Proof.
  intros w. unfold housekeeping_work. do 5 (apply wp_any; intros ? ?). apply wp_bind.
  apply (wp_mono _ _ (λ m1 _, resetHold m1 = resetHold m) _ (λ _, True)); [| |done].
  { destruct (startupBlinkDone m); [by apply wp_ret|]. do 2 (apply wp_any; intros ? ?). by apply wp_ret. }
  intros m1 w1 H1. do 2 (apply wp_any; intros ? ?). apply wp_bind.
  apply (wp_mono _ _ (λ m2 _, resetHold m2 = resetHold m) _ (λ _, True)); [| |done].
  { unfold show_identity. destruct ENABLE_SEVSEG_DISPLAY; [|by apply wp_ret].
    do 2 (apply wp_any; intros ? ?). by apply wp_ret. }
  intros m2 w2 H2. apply wp_any. intros [skip n3] w3. destruct skip; [by apply wp_ret|].
  eapply wp_mono; [apply adapter_loop_hold| |done]. intros m4 w4 ->. exact H2.
Qed.

Lemma mesh_task_hold queue m : keeps_hold m (mesh_task queue m).
Proof. intros w. unfold mesh_task. apply wp_any. intros b w1. by apply wp_ret. Qed.

Lemma pir_interrupt_no_erase m : emits no_erase (pir_interrupt m).
Proof.
  unfold pir_interrupt, detectMotion, detachInterrupt, gpio_intr_disable, gpio_isr_handler_remove. solve_emits.
Qed.

Lemma pir_interrupt_hold m : keeps_hold m (pir_interrupt m).
Proof.
  intros w. unfold pir_interrupt. destruct (adapter m) as [[p|s]|]; [|by apply wp_ret..].
  apply wp_any. intros p' w1. by apply wp_ret.
Qed.

Lemma task_call_grows m c : task_call m c → grows c.
Proof.
  intros [queue HQ|fuel rx|].
  - eapply emits_weaken; [by apply mesh_task_no_erase|done].
  - assert (∀ P (c : W (Button * Hold * Node * Led * bool)), emits P c → grows c)
      by (intros; by eapply emits_weaken).
    pose proof tickReset_grows as HR. unfold grows, housekeeping, button_tick, vTaskDelay in *.
    apply emits_bind; [eapply emits_weaken; [apply housekeeping_work_no_erase|done]|]. intros m4.
    apply emits_bind; [|solve_emits]. apply emits_bind; [by eapply H, tickConfig_no_erase|]. solve_emits.
  - eapply emits_weaken; [by apply pir_interrupt_no_erase|done].
Qed.

Lemma call_later {A} (c : W A) w : grows c → later w (world_of (c w)).
Proof.
  intros Hc. apply (wp_world c w (later w)).
  eapply wp_mono; [apply Hc|..]; cbn beta; intros; by eapply appended_later.
Qed.

Lemma steps_later m w m' w' : rtc firmware_step (m, w) (m', w') → later w w'.
Proof.
  intros Hr. remember (m, w) as s eqn:Es. remember (m', w') as s' eqn:Es'. revert m w Es.
  induction Hr as [|s [m2 w2] s3 Hs _ IH]; intros m w ->; [injection Es' as -> ->; apply later_refl|].
  apply step_call in Hs as (c & Hc & Hrun). eapply later_trans; [|by eapply IH].
  pose proof (call_later c w (task_call_grows m c Hc)) as Hl. by rewrite Hrun in Hl.
Qed.

(** ** The boot sequence *)
Lemma spawnTasks_no_erase m b l : emits no_erase (spawnTasks d b l m).
Proof.
  pose proof (load_bool_emits no_erase nvs_no_erase).
  assert (∀ a b c, emits no_erase (logln a b c l)).
  { intros. unfold logln, uartWriteLine, uartWrite, uart_write_bytes. destruct (filtered _ _); solve_emits. }
  unfold spawnTasks, checked_driver, driver, ESP_ERROR_CHECK, validateServerConfiguration, loadMasterFlag.
  solve_emits.
Qed.

(** Everything after the drivers. *)
Definition boot_rest (reason : Z) (after : bytes) (radio : Radio) : W MainState :=
  m1 <- initHardwareOutputs reason main_new ;;
  let* (isMaster, m2) := initSubsystems after radio m1 in
  spawnTasks d isMaster (setLogLevel DEFAULT_LOG_LEVEL logger_new) m2 ;;;
  wret m2.

Lemma boot_rest_no_erase reason after radio : emits no_erase (boot_rest reason after radio).
Proof.
  pose proof hardware_no_erase. pose proof subsystems_no_erase. pose proof spawnTasks_no_erase.
  unfold boot_rest. solve_emits.
Qed.

Lemma boot_hold reason after radio w :
  wp (boot_rest reason after radio) w (λ m _, resetHold m = reset_new) (λ _, True).
Proof.
  unfold boot_rest. apply wp_bind. apply (wp_mono _ _ (λ m _, resetHold m = reset_new) _ (λ _, True)); [| |done].
  - unfold initHardwareOutputs. do 2 (apply wp_any; intros ? ?). apply wp_any. intros [[] r] w3; cbn [negb].
    2: { do 2 (apply wp_any; intros ? ?). done. }
    apply wp_any. intros [] w4. apply wp_any. intros g w5.
    destruct (button_init _) as [ok1 c]. apply wp_any. intros [] w6.
    destruct (button_init _) as [ok2 rb]. apply wp_any. intros [] w7. apply wp_any.
    intros [] w8; cbn [negb]; [by apply wp_ret|]. apply wp_any. intros [] w9. by apply wp_any.
  - intros m1 w1 H1. apply wp_bind.
    apply (wp_mono _ _ (λ r _, resetHold r.2 = reset_new) _ (λ _, True)); [| |done].
    + unfold initSubsystems. do 5 (apply wp_any; intros ? ?). apply wp_any.
      intros [base|] w2; [|by apply wp_any; intros [] ?; apply wp_any].
      apply wp_any. intros [[] o] w3; cbn [negb]; [|by apply wp_any; intros [] ?; apply wp_any].
      apply wp_any. intros [[] n] w4; cbn [negb]; [|by apply wp_any; intros [] ?; apply wp_any].
      do 3 (apply wp_any; intros [] ?). apply wp_any. intros v w5. by apply wp_ret.
    + intros [b m2] w2 H2. apply wp_any. intros [] w3. by apply wp_ret.
Qed.

(** * Nothing wipes the device *)
Section Wipe.
Context {L : ClockLawful E}.

Lemma call_safe m c w :
  task_call m c → reset_inv (resetHold m) w →
  wp c w (λ m' w', in_range_clock w' → appended no_erase w w' ∧ reset_inv (resetHold m') w')
         (λ w', in_range_clock w' → appended no_erase w w').
Proof using L.
  intros Hc HI.
  assert (∀ c', emits no_erase c' → keeps_hold m c' →
    wp c' w (λ m' w', in_range_clock w' → appended no_erase w w' ∧ reset_inv (resetHold m') w')
         (λ w', in_range_clock w' → appended no_erase w w')) as Hquiet.
  { intros c' HE HH. specialize (HE w). specialize (HH w). unfold wp in *.
    destruct (c' w) as [m1 w1|w1]; [|done]. intros R. split; [done|].
    rewrite HH. by eapply reset_inv_later, HI; eapply appended_later. }
  destruct Hc as [queue HQ|fuel rx|].
  - apply Hquiet; [by apply mesh_task_no_erase|apply mesh_task_hold].
  - unfold housekeeping. apply wp_bind.
    pose proof (housekeeping_work_no_erase rx m w) as HE. pose proof (housekeeping_work_hold rx m w) as HH.
    unfold wp at 1. unfold wp in HE, HH. destruct (housekeeping_work rx m w) as [m4 w4|w4]; [|done].
    assert (reset_inv (resetHold m4) w4) as I4
      by (rewrite HH; eapply reset_inv_later, HI; by eapply appended_later).
    unfold button_tick. apply wp_bind, wp_bind. set (cfg := tickConfig _ _ _ _ _ _ _).
    assert (emits no_erase cfg) as HC by apply tickConfig_no_erase. specialize (HC w4). clearbody cfg.
    unfold wp at 1. unfold wp in HC. destruct (cfg w4) as [[[[[cb ch] n] g] dm] w5|w5].
    2: { intros _. by eapply appended_trans. }
    pose proof (appended_trans _ _ _ _ HE HC) as A5. apply wp_bind.
    eapply wp_mono; [apply tickReset_safe; eapply reset_inv_later, I4; by eapply appended_later|..]; cbn beta.
    2: { intros w6 Hno R. by destruct Hno. }
    intros [[[rb rh] g2] r3] w6 H6. apply wp_ret. apply wp_bind. eapply wp_run; [reflexivity|]. apply wp_ret.
    set (w7 := World (EvDelay 10 :: w_trace w6) _ _). assert (later w6 w7) as L7 by by exists [EvDelay 10].
    intros R. destruct (H6 (later_clock _ _ L7 R)) as [A6 I6].
    split.
    + eapply appended_trans; [exact A5|]. eapply appended_trans; [exact A6|].
      exists [EvDelay 10]. split; [done|by constructor].
    + by apply (reset_inv_later _ w6 w7).
  - apply Hquiet; [apply pir_interrupt_no_erase|apply pir_interrupt_hold].
Qed.

(** C9. The firmware never factory-resets itself.  From power-on - any flash contents,
    driver answers, radio, reset reason - through boot and any interleaving of the two tasks'
    calls and motion interrupts, and also when a call ends in a restart, no event erases NVS, except
    that the boot erases the partition if [nvs_flash_init] reported it full or of
    another version.  In particular the reset button's confirmation never succeeds,
    however it is pressed, and no frame and no byte from the server can cause a wipe. *)
Theorem firmware_never_wipes reason after radio w0 w :
  power_cycle reason after radio w0 w → in_range_clock w → appended (boot_wipe d) w0 w.
Proof using L.
  assert (emits (boot_wipe d) (app_main d reason after radio)) as HB.
  { apply emits_bind; [apply initDrivers_wipe|]. intros []. apply no_erase_boot, boot_rest_no_erase. }
  intros [|m1 w1 m w' c Hb Hr Hc] R.
  { apply (wp_world _ _ (appended (boot_wipe d) w0)), HB. }
  assert (∀ w1 w2, appended no_erase w1 w2 → appended (boot_wipe d) w1 w2) as HW.
  { intros wa wb (evs & He & HF). exists evs. split; [exact He|]. eapply Forall_impl; [exact HF|]. by intros []. }
  assert (reset_inv (resetHold m1) w1) as I1.
  { revert Hb. unfold app_main. rewrite wbind_run. destruct (initDrivers d w0) as [[] wd|]; [|done].
    intros Hb. fold (boot_rest reason after radio) in Hb.
    rewrite (wp_Ok _ _ _ _ _ _ (boot_hold reason after radio wd) Hb). by split. }
  pose proof (emits_Ok _ _ _ _ _ HB Hb) as A0. clear HB Hb.
  assert (later w' (world_of (c w'))) as Lc by (by eapply call_later, task_call_grows).
  pose proof (later_clock _ _ Lc R) as R'.
  assert (appended no_erase w1 w' ∧ reset_inv (resetHold m) w') as [A1 I2].
  { clear A0 Lc R. remember (m1, w1) as s eqn:Es. remember (m, w') as s' eqn:Es'. revert m1 w1 Es I1.
    induction Hr as [s|s s2 s3 Hs Hr IH]; intros m1 w1 -> I1.
    - injection Es' as -> ->. split; [apply appended_refl|done].
    - destruct s2 as [m2 w2]. apply step_call in Hs as (c2 & Hc2 & E2).
      subst. assert (later w2 w') as L2 by by eapply steps_later.
      destruct (wp_Ok _ _ _ _ _ _ (call_safe m1 c2 w1 Hc2 I1) E2 (later_clock _ _ L2 R')) as [A2 I2].
      destruct (IH eq_refl m2 w2 eq_refl I2) as [A3 I3]. split; [by eapply appended_trans|done]. }
  eapply appended_trans; [exact A0|]. eapply appended_trans; [by apply HW|]. apply HW.
  apply (wp_world c w' (λ w2, in_range_clock w2 → appended no_erase w' w2)); [|exact R].
  eapply wp_mono; [by apply (call_safe m c w')|..]; cbn beta; [|done]. intros m2 w2 H2 R2. by apply H2.
Qed.
End Wipe.

(** * Drivers before use *)
Definition LEVEL_OUTPUTS : driver_call :=
  GpioConfig [RED_LED_PIN; GREEN_LED_PIN; SEVSEG_DATA_PIN; SEVSEG_CLK_PIN] true false false.

(** The driver a call relies on. *)
Definition needs (e : event) : option driver_call :=
  match e with
  | EvNvsOpen _ | EvNvsGet _ _ | EvNvsSet _ _ _ | EvNvsErase _ _ | EvNvsEraseAll _ | EvNvsCommit _ => Some NvsFlashInit
  | EvUart _ => Some (UartInstall 1024 0)
  | EvIsrAdd _ _ | EvIsrRemove _ => Some (InstallIsrService 0)
  | EvLevel _ _ => Some LEVEL_OUTPUTS
  | _ => None
  end.

(** What happened since [w0] used each driver after its set-up had succeeded. *)
Definition in_order (w0 w : world) : Prop := ∃ evs,
  w_trace w = evs ++ w_trace w0 ∧
  ∀ post e pre call, evs = post ++ e :: pre → needs e = Some call → EvDriver call true ∈ pre.

Definition set_up (e : event) : Prop := needs e = None.

Lemma all_set_up evs post e pre call :
  Forall set_up evs → evs = post ++ e :: pre → needs e = Some call → False.
Proof. intros HF -> Hn. apply Forall_app in HF as [_ HF]. apply Forall_cons in HF as [He _]. unfold set_up in He. congruence. Qed.

(** What comes before the last of [initDrivers]'s events needs no driver, what comes
    after finds them all. *)
Lemma in_order_after w0 w1 w booted :
  w_trace w1 = booted ++ w_trace w0 → Forall set_up booted →
  (∀ e call, needs e = Some call → EvDriver call true ∈ booted) → later w1 w → in_order w0 w.
Proof.
  intros H1 HF HD [evs H]. exists (evs ++ booted). split; [by rewrite H, H1, app_assoc|].
  intros post e pre call He Hn. apply app_eq_app in He as [l [[-> He]|[-> He]]].
  - destruct l as [|x l]; cbn in He; [|injection He as -> ->].
    + exfalso. by eapply (all_set_up booted [] e pre).
    + apply elem_of_app. right. by eapply HD.
  - exfalso. by eapply all_set_up.
Qed.

(** Since [w0] only drivers were set up, and these calls succeeded. *)
Definition has (calls : list driver_call) (w0 w : world) : Prop := ∃ booted,
  w_trace w = booted ++ w_trace w0 ∧ Forall set_up booted ∧ Forall (λ c, EvDriver c true ∈ booted) calls.

Lemma has_event e calls w0 w :
  set_up e → has calls w0 w →
  has (match e with EvDriver c true => c :: calls | _ => calls end) w0 (World (e :: w_trace w) (w_eeprom w) (w_err w)).
Proof.
  intros He (b & H & HF & HC). exists (e :: b). cbn [w_trace]. rewrite H. split; [done|].
  split; [by constructor|].
  assert (Forall (λ c, EvDriver c true ∈ e :: b) calls) as HC'.
  { eapply Forall_impl; [exact HC|]. intros c Hc. by right. }
  destruct e; try exact HC'. destruct ok; [|exact HC'].
  constructor; [by left|done].
Qed.

Lemma has_driver call calls w0 w :
  has calls w0 w →
  wp (checked_driver d call) w (λ _ w', has (call :: calls) w0 w') (λ w', ∃ calls', has calls' w0 w').
Proof.
  intros H. unfold checked_driver, driver, ESP_ERROR_CHECK, wp, wbind, emit, wret, whalt.
  destruct (driver_ok d call) eqn:Ho; cbn.
  - by apply (has_event (EvDriver call true)).
  - exists calls. apply (has_event EvAbort calls w0 (World (EvDriver call false :: w_trace w) _ _)); [done|].
    by apply (has_event (EvDriver call false)).
Qed.

Lemma has_check ok calls w0 w :
  has calls w0 w →
  wp (ESP_ERROR_CHECK ok) w (λ _ w', ok = true ∧ w' = w) (λ w', ∃ calls', has calls' w0 w').
Proof.
  intros H. destruct ok; [done|]. exists calls. by apply (has_event EvAbort calls w0 w).
Qed.

Lemma has_nvs r calls w0 w :
  has calls w0 w →
  wp (nvs_flash_init r) w (λ r' w', r' = r ∧ (nvs_is_ok r = true → has (NvsFlashInit :: calls) w0 w') ∧
    has [] w0 w') (λ _, False).
Proof.
  intros (b & H & HF & HC). unfold nvs_flash_init, wp, wbind, emit, wret. split; [done|].
  assert (has calls w0 w) as H1 by by exists b.
  split.
  - intros ->. by apply (has_event (EvDriver NvsFlashInit true)).
  - assert (has [] w0 w) as H0 by by exists b.
    pose proof (has_event (EvDriver NvsFlashInit (nvs_is_ok r)) [] w0 w eq_refl H0) as (b' & E1 & F1 & _).
    by exists b'.
Qed.

(** A boot that gets past the drivers has them all; one that does not has touched
    nothing else. *)
Lemma initDrivers_has w :
  wp (initDrivers d) w
    (λ _ w', has [UartConfig 115200; UartInstall 1024 0; InstallIsrService 0; GpioConfig [PIR_ADAPTER_DEFAULT_PIN] false true false;
       GpioConfig [CONFIG_BUTTON_PIN; RESET_BUTTON_PIN] false false true; LEVEL_OUTPUTS; NvsFlashInit] w w')
    (λ w', ∃ calls, has calls w w').
Proof.
  assert (has [] w w) as H0 by (exists []; split; [done|by split]).
  unfold initDrivers. apply wp_bind. eapply wp_mono; [by eapply has_nvs| |done]. cbn beta.
  intros r w1 (-> & Hok & H1). apply wp_bind.
  apply (wp_mono _ _ (λ r w', (nvs_is_ok r = true → has [NvsFlashInit] w w') ∧ has [] w w') _
           (λ w', ∃ calls, has calls w w')); [| |done].
  { destruct (nvs_stale _); [|by apply wp_ret]. apply wp_bind. eapply wp_run; [reflexivity|].
    pose proof (has_event (EvFlashErase (nvs_erase_ok d)) [] w w1 eq_refl H1) as H2.
    apply wp_bind. eapply wp_mono; [by eapply has_check| |done]. intros [] w3 [_ ->].
    eapply wp_mono; [by eapply has_nvs| |done]. by intros r w4 (-> & ? & ?). }
  intros r w2 [Hr H2]. apply wp_bind. eapply wp_mono; [by eapply has_check| |done].
  intros [] w3 [Hk ->]. specialize (Hr Hk). clear H0 H1 H2 Hok.
  do 5 (apply wp_bind; eapply wp_mono; [by eapply has_driver| |done]; cbn beta; clear Hr; intros [] ? Hr).
  by apply has_driver.
Qed.

(** C28. No driver is used before it is up.  In every power cycle, whichever of the drivers'
    calls fails: no NVS access precedes a successful [nvs_flash_init] (after the
    erase, if there was one), no byte goes to the UART before its driver is
    installed, no interrupt handler is added before the service, no output is set
    before its pin is an output; and a boot whose set-up fails aborts having done
    none of these. *)
Theorem drivers_before_use reason after radio w0 w :
  power_cycle reason after radio w0 w → in_order w0 w.
Proof.
  intros H. pose proof (initDrivers_has w0) as HD.
  assert (∀ wd calls, has calls w0 wd → in_order w0 wd) as Hfail.
  { intros wd calls (b & Hb & HF & _). exists b. split; [done|]. intros post e pre call He Hn.
    exfalso. by eapply all_set_up. }
  assert (∀ wd, initDrivers d w0 = Ok tt wd → later wd w → in_order w0 w) as Hok.
  { intros wd Hd HL. destruct (wp_Ok _ _ _ _ _ _ HD Hd) as (b & Hb & HF & HC).
    eapply in_order_after; [exact Hb|done| |exact HL]. intros e call Hn. rewrite !Forall_cons in HC.
    destruct e; cbn in Hn; try done; injection Hn as <-; naive_solver. }
  assert (∀ wd, later wd (world_of (boot_rest reason after radio wd))) as HR.
  { intros wd. apply call_later. eapply emits_weaken; [apply boot_rest_no_erase|done]. }
  assert (∀ w1, app_main d reason after radio w1 = (initDrivers d ;;; boot_rest reason after radio) w1) as HA by done.
  destruct H as [|m1 w1 m w' c Hb Hr Hc].
  - rewrite HA, wbind_run in *. unfold wp in HD. destruct (initDrivers d w0) as [[] wd|wd] eqn:Ed.
    + apply (Hok wd); [done|apply HR].
    + destruct HD as [calls HD]. by eapply Hfail.
  - rewrite HA, wbind_run in Hb. destruct (initDrivers d w0) as [[] wd|wd] eqn:Ed; [|done].
    apply (Hok wd); [done|]. pose proof (HR wd) as L1. rewrite Hb in L1.
    assert (later wd w') as L2.
    { eapply later_trans; [exact L1|]. by eapply steps_later. }
    eapply later_trans; [exact L2|]. by eapply call_later, task_call_grows.
Qed.
End Cycle.

(** * Witnesses *)
#[local] Existing Instance documented_protocol.

(** A board whose display acknowledges and whose buttons are up. *)
Definition board_env : Env := {|
  env_timer := env_timer (Env := ref_env);
  env_random := env_random (Env := ref_env);
  env_keygen := env_keygen (Env := ref_env);
  env_peer_exist := env_peer_exist (Env := ref_env);
  env_add_peer := env_add_peer (Env := ref_env);
  env_del_peer := env_del_peer (Env := ref_env);
  env_send := env_send (Env := ref_env);
  env_nvs_open := env_nvs_open (Env := ref_env);
  env_nvs_get := env_nvs_get (Env := ref_env);
  env_nvs_set := env_nvs_set (Env := ref_env);
  env_nvs_erase := env_nvs_erase (Env := ref_env);
  env_nvs_commit := env_nvs_commit (Env := ref_env);
  env_tx_power := env_tx_power (Env := ref_env);
  env_isr_add := env_isr_add (Env := ref_env);
  env_gpio_level := λ _ pin, negb (pin =? SEVSEG_DATA_PIN);
  env_ring_accepts := env_ring_accepts (Env := ref_env)
|}.

#[export] Instance board_env_clock : ClockLawful board_env.
Proof. split; intros; cbn [env_timer board_env ref_env]; rewrite ?length_app; cbn [length]; lia. Defined.

(** One round of the dead red LED's signal: the green LED, lit six times. *)
Example red_failure_blinks :
  match red_failure_round (E := slow_env) 100 demo_led (World [] (w_eeprom ref_world) (w_err ref_world)) with
  | Ok g w => isBusy g = false ∧ length (List.filter (λ e, match e with EvLevel _ true => true | _ => false end) (w_trace w)) = 6%nat
  | Halt _ => False
  end.
Proof. vm_compute. split; reflexivity. Qed.

(** The first boot with a new partition layout, every call answering. *)
Definition demo_drivers : Drivers := DriverAnswers NvsNewVersion true NvsOk (λ _, true).
Definition power_on : world := World [] (EepromState false false 0) (w_err ref_world).

Definition demo_app_main : result MainState :=
  app_main (E := board_env) demo_drivers ESP_RST_POWERON (zeros 64) demo_radio_answers power_on.
Definition demo_received : result MainState :=
  mesh_task (E := board_env) (C := toy_crypto) (Pn := demo_pin) demo_frames
    (value_of main_new demo_app_main) (world_of demo_app_main).
Definition demo_pass : result MainState :=
  housekeeping (E := board_env) (C := toy_crypto) (Pn := demo_pin) 10 [0; 1; 7]
    (value_of main_new demo_received) (world_of demo_received).

Lemma demo_pass_unfold :
  demo_pass = housekeeping (E := board_env) (C := toy_crypto) (Pn := demo_pin) 10 [0; 1; 7]
    (value_of main_new demo_received) (world_of demo_received).
Proof. reflexivity. Qed.

#[local] Opaque demo_app_main demo_received demo_pass.

Lemma demo_cycle :
  power_cycle (E := board_env) (C := toy_crypto) (Pn := demo_pin) demo_drivers ESP_RST_POWERON (zeros 64)
    demo_radio_answers power_on (world_of demo_pass).
Proof.
  rewrite demo_pass_unfold. apply (cycle_running (E := board_env) (C := toy_crypto) (Pn := demo_pin) demo_drivers ESP_RST_POWERON (zeros 64)
    demo_radio_answers power_on (value_of main_new demo_app_main) (world_of demo_app_main)
    (value_of main_new demo_received) (world_of demo_received)
    (housekeeping (E := board_env) (C := toy_crypto) (Pn := demo_pin) 10 [0; 1; 7]
       (value_of main_new demo_received))).
  - vm_compute. reflexivity.
  - apply rtc_once. apply (fw_mesh demo_frames _ _ (value_of main_new demo_received) (world_of demo_received)).
    + constructor; [|constructor]. apply wf_messageb_spec. vm_compute. reflexivity.
    + vm_compute. reflexivity.
  - apply call_housekeeping.
Qed.

Lemma firmware_never_wipes_witness :
  existsb (λ e, match e with EvFlashErase true => true | _ => false end) (w_trace (world_of demo_pass)) = true ∧
  appended (boot_wipe demo_drivers) power_on (world_of demo_pass).
Proof.
  split; [vm_compute; reflexivity|].
  apply (@firmware_never_wipes board_env toy_crypto documented_protocol demo_pin demo_drivers board_env_clock
    ESP_RST_POWERON (zeros 64) demo_radio_answers power_on (world_of demo_pass) demo_cycle).
  vm_compute. reflexivity.
Defined.

Lemma drivers_before_use_witness :
  in_order power_on (world_of demo_pass) ∧ delivered (w_trace (world_of demo_pass)) ≠ [].
Proof.
  split; [|vm_compute; discriminate].
  exact (@drivers_before_use board_env toy_crypto documented_protocol demo_pin demo_drivers
    ESP_RST_POWERON (zeros 64) demo_radio_answers power_on (world_of demo_pass) demo_cycle).
Defined.
