(* ===== verification/EndToEnd.v ===== *)
(** A server command end to end: serial line, master, radio, node, reboot.  The
    pieces are the theorems of the components; nothing is modelled here. *)
From S2P Require Import Prelude Config Nanopb Wire Platform ErrorCore SerialFraming Eeprom.
From S2P Require Import PeerRegistry Transport Crypto Enrollment KeyStore Authorizer Node Messenger.
From S2P Require Import ReplayCache Mesh Hardware Adapter SerialAdapter PirAdapter App Main MeshTask.

Section EndToEnd.
Context {Pr : Protocol} {Pn : Pin}.

(** What the server sends to have a command carried to one node. *)
Record server_command (dest : mac) (m : mesh_message) : Prop := {
  sc_wf : wf_message m;
  sc_type : message_type m = MESH_TYPE_SERIAL_CMD_BROADCAST;
  sc_target : target_mac_address m ≠ BROADCAST_MAC;
  sc_data_type : data_type m = SERIAL_ADAPTER;
  sc_dest : slice 1 6 (data m) = dest
}.

Section master.
Context {E : Env} {C : Crypto}.
Context (callback : mesh_message → Board → W Board).

(** One framed message on the line is one call of the frame handler. *)
Lemma serial_receive_frame m sa :
  wf_message m → framing_wf (framing sa) → frameState (framing sa) = AwaitingLen1 →
  ∃ f', framing_wf f' ∧ frameState f' = AwaitingLen1 ∧ ∀ b w,
    serial_receive callback (on_line (wire_form m)) sa b w =
    (b' <- handleCompleteFrame callback (wire_form m) (s_base sa) b ;; wret (with_framing f' sa, b')) w.
Proof.
  intros W Wf Hs.
  destruct (receive_frame (λ frame, handleCompleteFrame callback frame (s_base sa)) (wire_form m)
    (framing sa) Wf Hs (wire_form_fits m W)) as (f' & W' & Hs' & Hr).
  exists f'. split; [done|]. split; [done|]. intros b w. unfold serial_receive, on_line.
  unfold wbind at 1. rewrite Hr. unfold wbind, wret.
  by destruct (handleCompleteFrame _ _ _ _ w).
Qed.

(** A command for another node is sent down to it, and nothing else happens. *)
Lemma command_forwarded dest m a b w :
  server_command dest m → nth 0 (data m) 0 = OP_CONFIG_SET →
  isTargetedAtSelf dest b = false → node_wf (board_node b) → isMaster (board_node b) = true →
  wp (handleCompleteFrame callback (wire_form m) a b) w
    (λ b' w', downlink_ok (board_node b) dest SERIAL_ADAPTER (Some (data m)) w (board_node b') w')
    (λ _, True).
Proof.
  intros [W Ht Hg Hd Hdest] Hop Hself Wn Hm. unfold handleCompleteFrame.
  rewrite decode_wire_form by done.
  pose proof mesh_types_distinct as HD. rewrite !NoDup_cons in HD.
  assert (message_type (link_view (deviceMacAddress (board_node b)) m) = message_type m) as -> by done.
  assert (data_type (link_view (deviceMacAddress (board_node b)) m) = SERIAL_ADAPTER) as -> by done.
  set (msg := link_view _ m).
  rewrite Ht, Z.eqb_refl. set_unfold in HD.
  rewrite (proj2 (Z.eqb_neq MESH_TYPE_SERIAL_CMD_BROADCAST MESH_TYPE_JOIN_ACK)) by naive_solver.
  apply wp_bind. unfold serial_forward.
  assert (message_type msg = MESH_TYPE_SERIAL_CMD_BROADCAST) as -> by done.
  rewrite Z.eqb_refl.
  rewrite (proj2 (Z.eqb_neq MESH_TYPE_SERIAL_CMD_BROADCAST MESH_TYPE_ADAPTER_DATA)) by naive_solver.
  assert (mac_eq (target_mac_address msg) BROADCAST_MAC = false) as ->.
  { unfold mac_eq. by apply bool_decide_eq_false. }
  assert (slice 1 6 (data msg) = dest) as -> by done.
  assert (data_type msg = SERIAL_ADAPTER) as -> by done.
  unfold on_node. apply wp_bind.
  eapply wp_mono; [by apply (sendDownlink_effect dest SERIAL_ADAPTER (Some (data m)))| |done].
  intros n' w' Hok. apply wp_ret. unfold dispatchControlOp, kControlOps. cbn [find_op].
  assert (nth 0 (data msg) 0 = OP_CONFIG_SET) as -> by done. rewrite Z.eqb_refl.
  unfold opConfigSet. assert (slice 1 6 (data msg) = dest) as -> by done.
  assert (isTargetedAtSelf dest (with_node n' b) = false) as ->.
  { destruct Hok as (Hos & _). apply only_sending_fields in Hos as (_ & _ & _ & _ & Hdev & _).
    unfold isTargetedAtSelf in *. cbn [board_node with_node]. by rewrite Hdev. }
  cbn [negb]. do 2 apply wp_bind. apply wp_ret. by do 2 apply wp_ret.
Qed.
End master.

Lemma sealPayload_header `{Crypto} k m s : sealPayload k m = Some s → same_header s m.
Proof. unfold sealPayload. destruct (mb_seal _ _ _ _) as [[c t]|]; [|done]. by intros [= <-]. Qed.

(** What a frame on the air shares with the plaintext the master sealed. *)
Lemma downlink_frame_sealed `{Crypto} n dest s sent t f :
  downlink_sent n dest s sent → (t, f) ∈ sent →
  same_header f s ∧ data f = data s ∧ auth_tag f = auth_tag s.
Proof.
  unfold downlink_sent. destruct (known_route n dest) as [hops|].
  - intros (first & f0 & _ & (Hh & Hd & Ht & _) & _ & _ & _ & ->) Hin.
    destruct (mac_eq _ _); [by apply elem_of_nil in Hin|].
    apply list_elem_of_singleton in Hin. by simplify_eq.
  - intros -> Hin. rewrite list_elem_of_In, <- in_rev, <- list_elem_of_In in Hin.
    apply list_elem_of_fmap in Hin as (m & Heq & _). simplify_eq. by split_and!.
Qed.

(** The trust the node has in the master: each holds the other's public key, the
    master is the one the node has pinned, and the node's key cache is sound. *)
Record trusts `{C : Crypto} `{!CryptoLawful C} (master : Node) (dest : mac) (cm : MasterInfo)
    (peersN : PeerRegistry) (enN : Enrollment) (ksN : E2EKeyStore) : Prop := {
  tr_master_keys : is_keypair (devicePrivateKey (enrollment master)) (devicePublicKey (enrollment master));
  tr_node_keys : is_keypair (devicePrivateKey enN) (devicePublicKey enN);
  tr_at_master : ∃ pN, peer_find (peers master) dest = Some pN ∧ publicKey pN = devicePublicKey enN;
  tr_at_node : ∃ pM, peer_find peersN (m_mac cm) = Some pM ∧
                     publicKey pM = devicePublicKey (enrollment master) ∧ is_zero (publicKey pM) = false;
  tr_pinned : hasMasterMac enN = true ∧ knownMasterMac enN = deviceMacAddress master;
  tr_cache : fresh_cache (devicePrivateKey enN) peersN ksN ∧ (0 < capacity_ ksN)%nat
}.

(** A running leaf that owns the address [dest]. *)
Record leaf_ready `{C : Crypto} (dest : mac) (m : MainState) (w : world) : Prop := {
  lr_adapter : is_Some (adapter m);
  lr_wf : node_wf (mesh m);
  lr_leaf : isMaster (mesh m) = false;
  lr_linked : externalRecvCallback (mesh m) = true;
  lr_mac : deviceMacAddress (mesh m) = dest;
  lr_mode : isDevMode m = false;
  lr_nvs : ready w
}.

(** Refreshing last-seen times does not change whom a node trusts. *)
Lemma trusts_same_keys `{C : Crypto} `{!CryptoLawful C} master dest cm r r' en ks :
  same_keys r r' → trusts master dest cm r en ks → trusts master dest cm r' en ks.
Proof.
  intros HK [T1 T2 T3 (pM & P1 & P2 & P3) T5 [T6 T7]]. split; try done.
  - specialize (HK (m_mac cm)). rewrite P1 in HK. cbn in HK.
    destruct (peer_find r' (m_mac cm)) as [p|]; [|done]. injection HK as HK.
    exists p. split; [done|]. by rewrite HK.
  - split; [|done]. eapply fresh_cache_keeps; [|done]. by apply same_keys_keeps.
Qed.

(** A server command as far as the node's adapter: every frame the master puts on the
    air for it is, however relays rewrite its hop and route fields, one the addressed
    node authorizes with the server's bytes; handed to the adapter, of whatever type,
    it makes the node store the commanded adapter type and restart. *)
Lemma config_command_authorized `{C : Crypto} `{!CryptoLawful C} (EM EN : Env) `{!NvsLawful EN}
    cbM dest m sa bM wM r wM' up down :
  server_command dest m → nth 0 (data m) 0 = OP_CONFIG_SET → configurable (nth 7 (data m) 0) →
  framing_wf (framing sa) → frameState (framing sa) = AwaitingLen1 →
  node_wf (board_node bM) → isMaster (board_node bM) = true → isTargetedAtSelf dest bM = false →
  keys_of (devicePrivateKey (enrollment (board_node bM))) (peers (board_node bM)) dest = Some (up, down) →
  serial_receive (E := EM) cbM (on_line (wire_form m)) sa bM wM = Ok r wM' →
  ∃ sent, sent_frames (w_trace wM') = sent ++ sent_frames (w_trace wM) ∧
    ∀ t f, (t, f) ∈ sent →
    ∀ seen, same_header seen f → data seen = data f → auth_tag seen = auth_tag f →
    (message_type seen = MESH_TYPE_ADAPTER_DATA ∧ proto_version seen = PROTO_VERSION ∧
     target_mac_address seen = dest) ∧
    ∃ delivered, data delivered = data m ∧
    (∀ cm peersN enN ksN wN, trusts (board_node bM) dest cm peersN enN ksN →
       ∃ ks', authorize seen false true cm peersN enN ksN wN = Ok (Some delivered, ks') wN) ∧
    ∀ cbN impl aN bN wN,
      deviceMacAddress (board_node bN) = dest → isDevMode_ bN = false → ready wN →
        ∃ w1 tr, onMeshData (E := EN) cbN impl aN delivered bN wN = Halt w1 ∧
          w_trace w1 = EvRestart :: tr ∧
          let type := adapterTypeFromEEPROM (nth 7 (data m) 0) in
          (nvs_write_fault EN ∨
           ∀ w2, isInitialized (w_eeprom w2) = true →
             nvs_store nvs_initial (w_trace w2) ADAPTER_TYPE =
               nvs_store nvs_initial (w_trace w1) ADAPTER_TYPE →
             ∃ w3, createFromEEPROM (E := EN) false w2
                   = Ok (Some (adapter_new (getDefaultPinForAdapter type) type)) w3).
Proof.
  intros SC Hop Hraw Wf Hs Wn Hm Hself Hkeys Hrun.
  destruct (serial_receive_frame (E := EM) cbM m sa (sc_wf _ _ SC) Wf Hs) as (f' & _ & _ & Hr).
  rewrite Hr in Hrun. clear Hr. unfold wbind in Hrun.
  destruct (handleCompleteFrame cbM (wire_form m) (s_base sa) bM wM) as [bM' w1|w1] eqn:Eh; [|done].
  injection Hrun as _ <-.
  pose proof (wp_Ok _ _ _ _ _ _ (command_forwarded (E := EM) cbM dest m (s_base sa) bM wM SC Hop
    Hself Wn Hm) Eh) as (_ & _ & Hok).
  rewrite Hkeys in Hok. destruct Hok as (plain & (Hpd & Hpo & Hpt & Hpty & Hpdt & _ & Hpv) & Hok).
  destruct (sealPayload down plain) as [s|] eqn:Es.
  2:{ exists []. split; [done|]. intros t f Hin. by apply elem_of_nil in Hin. }
  destruct Hok as (sent & Hsent & Hd). exists sent. split; [done|].
  intros t f Hin seen Hsh Hsd Hst.
  destruct (downlink_frame_sealed _ _ _ _ _ _ Hd Hin) as (Hfh & Hfd & Hft).
  assert (same_header seen plain) as Hpl
    by (etrans; [exact Hsh|]; etrans; [exact Hfh|by eapply sealPayload_header]).
  split. { destruct Hpl as (-> & -> & _ & _ & -> & _). done. }
  assert (data m = data plain) as Hdata.
  { rewrite Hpd. cbn [payload_data]. destruct (sc_wf _ _ SC) as [? ? ? ? ? ? [Hl _] ?].
    by rewrite take_ge by lia. }
  exists (set_data (data plain) seen). split; [done|]. split.
  - intros cm peersN enN ksN wN [K1 K2 (pN & P1 & P2) (pM & P3 & P4 & P5) (T1 & T2) (T3 & T4)].
    apply (downlink_authorized plain s seen cm (peers (board_node bM))
      (enrollment (board_node bM)) peersN enN ksN wN up down pM pN);
      try done; try congruence; by transitivity f.
  - intros cbN impl aN bN wN Hdev Hmode R.
    assert (data_type seen = SERIAL_ADAPTER) as Hdt by (destruct Hpl as (_ & _ & -> & _); congruence).
    unfold onMeshData. cbn [data_type set_data]. rewrite Hdt, Z.eqb_refl.
    unfold dispatchControlOp, kControlOps. cbn [data set_data find_op].
    rewrite <- Hdata, Hop, Z.eqb_refl.
    destruct (config_set_stored (E := EN) aN (set_data (data m) seen) false bN wN R Hmode)
      as (w2 & tr & E2 & Htr & Hboot).
    { cbn [data set_data]. rewrite (sc_dest _ _ SC). unfold isTargetedAtSelf.
      rewrite (take_ge dest), Hdev, mac_eq_refl; [apply orb_true_r|].
      rewrite <- (sc_dest _ _ SC). unfold slice. rewrite length_take. lia. }
    { done. }
    exists w2, tr. unfold wbind. rewrite E2. by split_and!.
Qed.

(** C2. A server command takes effect end to end.  The server writes a CONFIG_SET for
    a node on the serial line; the master reads it, and every frame it then puts on
    the air does this at the addressed leaf, however relays rewrote its hop and
    route fields: when the leaf's mesh task receives it for the first time, from
    whichever neighbor, the leaf stores the commanded adapter type and restarts, and
    the next boot creates that adapter, unless an NVS write fails. *)
Theorem config_command_end_to_end `{C : Crypto} `{!CryptoLawful C} (EM EN : Env) `{!NvsLawful EN}
    cbM dest m sa bM wM r wM' up down :
  server_command dest m → nth 0 (data m) 0 = OP_CONFIG_SET → configurable (nth 7 (data m) 0) →
  framing_wf (framing sa) → frameState (framing sa) = AwaitingLen1 →
  node_wf (board_node bM) → isMaster (board_node bM) = true → isTargetedAtSelf dest bM = false →
  keys_of (devicePrivateKey (enrollment (board_node bM))) (peers (board_node bM)) dest = Some (up, down) →
  serial_receive (E := EM) cbM (on_line (wire_form m)) sa bM wM = Ok r wM' →
  ∃ sent, sent_frames (w_trace wM') = sent ++ sent_frames (w_trace wM) ∧
    ∀ t f, (t, f) ∈ sent →
    ∀ seen, same_header seen f → data seen = data f → auth_tag seen = auth_tag f →
    ∀ src mN wN, leaf_ready dest mN wN → accepted (replay (mesh mN)) seen →
      trusts (board_node bM) dest (currentMaster (mesh mN)) (peers (mesh mN)) (enrollment (mesh mN))
        (e2eKeys (mesh mN)) →
      ∃ w1 tr, mesh_task (E := EN) [RecvEntry src seen] mN wN = Halt w1 ∧
        w_trace w1 = EvRestart :: tr ∧
        let type := adapterTypeFromEEPROM (nth 7 (data m) 0) in
        (nvs_write_fault EN ∨
         ∀ w2, isInitialized (w_eeprom w2) = true →
           nvs_store nvs_initial (w_trace w2) ADAPTER_TYPE =
             nvs_store nvs_initial (w_trace w1) ADAPTER_TYPE →
           ∃ w3, createFromEEPROM (E := EN) false w2
                 = Ok (Some (adapter_new (getDefaultPinForAdapter type) type)) w3).
Proof.
  intros SC Hop Hraw Wf Hs Wn Hm Hself Hkeys Hrun.
  destruct (config_command_authorized EM EN cbM dest m sa bM wM r wM' up down) as (sent & Hsent & H);
    try done. exists sent. split; [done|]. intros t f Hin seen Hsh Hsd Hst src mN wN L Hacc T.
  destruct (H t f Hin seen Hsh Hsd Hst) as ((H1 & H2 & H3) & delivered & _ & Hauth & Hcall).
  destruct L as [(o & Lo) L1 L2 L3 L4 L5 L6].
  destruct (mesh_task_halts (E := EN) o src seen delivered mN wN (λ w1, ∃ tr, w_trace w1 = EvRestart :: tr ∧
    let type := adapterTypeFromEEPROM (nth 7 (data m) 0) in
    (nvs_write_fault EN ∨ ∀ w2, isInitialized (w_eeprom w2) = true →
       nvs_store nvs_initial (w_trace w2) ADAPTER_TYPE = nvs_store nvs_initial (w_trace w1) ADAPTER_TYPE →
       ∃ w3, createFromEEPROM (E := EN) false w2
             = Ok (Some (adapter_new (getDefaultPinForAdapter type) type)) w3)))
    as (w1 & E1 & tr & Htr & Hboot); try done; try congruence.
  - intros ps w1 HK. eapply Hauth, trusts_same_keys; [exact HK|exact T].
  - intros cb b w1 Hb Hmode He.
    destruct (Hcall cb (onMeshDataImpl o) (base_of o) b w1) as (w2 & tr & E2 & H4);
      [congruence..|unfold ready; by rewrite He|]. exists w2. split; [exact E2|]. by exists tr.
  - by exists w1, tr.
Qed.
End EndToEnd.

(** * Witness: a master and a node that know each other *)
#[local] Existing Instance documented_protocol.

Definition demo_callback : mesh_message → Board → W Board := λ _ b, wret b.
Definition demo_master_board : Board := OnBoard demo_master_node (led_new GREEN_LED_PIN) false.
Definition demo_node : MainState :=
  with_mesh (upd_externalRecvCallback true demo_leaf_node)
    (with_adapter (Some (APir (pir_adapter_new PIR_ADAPTER_DEFAULT_PIN))) main_new).

(** CONFIG_SET of node 1 to the serial adapter. *)
Definition demo_server_message : mesh_message :=
  MeshMessage PROTO_VERSION 3 1 (demo_mac 9) (demo_mac 1) (demo_mac 9)
    (0xC1 :: demo_mac 1 ++ [1] ++ zeros 56) 0 0 0 (zeros 32) 0 (zeros 48) (zeros 16) (zeros 8).

Definition demo_serial : SerialAdapter := serial_new SERIAL_ADAPTER_DEFAULT_PIN.

Definition demo_run : result (SerialAdapter * Board) :=
  serial_receive (E := ref_env) (C := toy_crypto) demo_callback
    (on_line (wire_form demo_server_message)) demo_serial demo_master_board ref_world.
Definition demo_after : world := match demo_run with Ok _ w | Halt w => w end.
Definition demo_radio : mesh_message :=
  match sent_frames (w_trace demo_after) with (_, f) :: _ => f | [] => mesh_message_zero end.

#[local] Opaque demo_radio demo_after demo_run.

Lemma demo_trusts :
  trusts (C := toy_crypto) demo_master_node (demo_mac 1) (currentMaster (mesh demo_node))
    (peers (mesh demo_node)) (enrollment (mesh demo_node)) (e2eKeys (mesh demo_node)).
Proof.
  split.
  - by repeat split.
  - by repeat split.
  - eexists. split; [vm_compute; reflexivity|reflexivity].
  - eexists. split; [vm_compute; reflexivity|]. split; reflexivity.
  - split; reflexivity.
  - split; [apply fresh_cache_empty|vm_compute; lia].
Qed.

Lemma config_command_end_to_end_witness :
  ∃ r, demo_run = Ok r demo_after ∧ sent_frames (w_trace demo_after) = [(demo_mac 2, demo_radio)] ∧
    ∃ w1 tr, mesh_task (E := ref_env) (C := toy_crypto) (Pn := demo_pin)
        [RecvEntry (demo_mac 2) (relay_step (demo_mac 2) demo_radio)] demo_node ref_world = Halt w1 ∧
      w_trace w1 = EvRestart :: tr.
Proof.
  eexists. split; [vm_compute; reflexivity|]. split; [vm_compute; reflexivity|].
  destruct (@config_command_end_to_end documented_protocol demo_pin toy_crypto toy_lawful ref_env ref_env
    ref_env_lawful demo_callback (demo_mac 1) demo_server_message
    demo_serial demo_master_board ref_world
    (match demo_run with Ok r _ => r | Halt _ => (demo_serial, demo_master_board) end)
    demo_after demo_keys.1 demo_keys.2) as (sent & Hs & H).
  - split; [|reflexivity|done|reflexivity|reflexivity].
    apply wf_messageb_spec. vm_compute. reflexivity.
  - reflexivity.
  - unfold configurable. cbn. set_unfold. auto.
  - apply framing_new_wf.
  - reflexivity.
  - exact demo_master_node_wf.
  - reflexivity.
  - vm_compute. reflexivity.
  - vm_compute. reflexivity.
  - vm_compute. reflexivity.
  - cbn [sent_frames w_trace ref_world] in Hs. rewrite app_nil_r in Hs.
    destruct (H (demo_mac 2) demo_radio) with (seen := relay_step (demo_mac 2) demo_radio)
      (src := demo_mac 2) (mN := demo_node) (wN := ref_world) as (w1 & tr & E1 & Ht & _).
    + rewrite <- Hs. vm_compute. left.
    + apply relay_step_header.
    + reflexivity.
    + reflexivity.
    + split; [by eexists|exact (node_wf_callback _ _ demo_leaf_node_wf)|reflexivity..|by split].
    + intros _ hw. vm_compute. done.
    + exact demo_trusts.
    + exists w1, tr. split; [exact E1|exact Ht].
Defined.
