(* ===== verification/Telemetry.v ===== *)
(** A reading end to end: leaf, radio, any relays, master, serial line.  The
    counterpart of [EndToEnd], which follows a command the other way. *)
From stdpp Require Import relations.
From S2P Require Import Prelude Config MacTable Nanopb Wire Platform ErrorCore SerialFraming Eeprom ReplayCache.
From S2P Require Import PeerRegistry Transport Crypto Enrollment KeyStore Routers Beacon Authorizer Node Messenger Mesh.
From S2P Require Import RouteReport Flood Hardware Adapter SerialAdapter PirAdapter App Main MeshTask.

(** * Relays leave a frame intact *)
(** [g] is [f] as far as the origin's seal covers it. *)
Definition intact (f g : mesh_message) : Prop :=
  same_header g f ∧ data g = data f ∧ auth_tag g = auth_tag f.

Lemma intact_refl f : intact f f.
Proof. by repeat split. Qed.
Lemma intact_trans f g h : intact f g → intact g h → intact f h.
Proof. intros (H1 & H2 & H3) (G1 & G2 & G3). split; [by etrans|]. split; congruence. Qed.
Lemma intact_relay dev f : intact f (relay_step dev f).
Proof. by repeat split. Qed.
Lemma intact_bump f : intact f (bump_hop f).
Proof. by repeat split. Qed.

Section relays.
Context {E : Env} {C : Crypto} {Pr : Protocol} {Pn : Pin}.

(** A node that did not originate a frame relays it as it is. *)
Lemma transmitCore_foreign ty p mt m b n :
  origin_mac_address m ≠ deviceMacAddress n →
  emits (only_sends (λ g, g = m)) (transmitCore ty p mt (Some m) b n).
Proof.
  intros Ho. unfold transmitCore. apply emits_bind_spec with (Q := λ r, r = (m, n)); [apply emits_ret|done|].
  intros ? ->. cbv beta iota zeta. apply mac_eq_false in Ho. rewrite Ho, !andb_false_r. cbn [andb].
  apply emits_bind_spec with (Q := λ r, r = (Some m, n)); [apply emits_ret|done|].
  intros ? ->. apply route_uplink_sends.
Qed.

Lemma sends_intact f g {A} (c : W A) :
  intact f g → emits (only_sends (λ h, h = g)) c → emits (only_sends (intact f)) c.
Proof. intros Hg Hc. eapply emits_weaken; [exact Hc|]. intros []; try done. by intros ->. Qed.

Lemma relayDownlink_intact f ps dev : emits (only_sends (intact f)) (relayDownlink f ps dev).
Proof.
  assert (∀ t, emits (only_sends (intact f)) (sendMessage t (relay_step dev f) dev))
    by (intros; apply sendMessage_emits; [apply error_only|intros; apply intact_relay]).
  unfold relayDownlink. solve_emits.
Qed.

Lemma deliverAdapterData_intact f n :
  origin_mac_address f ≠ deviceMacAddress n → emits (only_sends (intact f)) (deliverAdapterData f n).
Proof.
  intros Ho. unfold deliverAdapterData. destruct (classify _ _ _ _ _ _) as [| |hop| |].
  - pose proof (λ b s cm ps en ks, emits_quiet_only (intact f) _ (authorize_quiet f b s cm ps en ks)).
    pose proof (λ m n, emits_no_send (intact f) _ (deliver_no_send m n)). solve_emits.
  - apply emits_bind; [|solve_emits].
    apply (sends_intact f (relay_step (deviceMacAddress n) f)); [apply intact_relay|].
    by apply transmitCore_foreign.
  - pose proof (λ l m ps cm, emits_no_send (intact f) _ (registerDownlink_no_send l m ps cm)).
    assert (∀ t d, emits (only_sends (intact f)) (sendMessage t (bump_hop f) d))
      by (intros; apply sendMessage_emits; [apply error_only|intros; apply intact_bump]).
    solve_emits.
  - pose proof (relayDownlink_intact f). solve_emits.
  - apply emits_ret.
Qed.

Lemma gate_device src msg n w :
  wp (receive_gate src msg n) w
    (λ r _, ∀ n1, r = Some n1 → deviceMacAddress n1 = deviceMacAddress n) (λ _, True).
Proof.
  unfold receive_gate. destruct (negb _); [by apply wp_ret|]. apply wp_bind.
  apply (wp_mono _ _ (λ r _, ∀ n1, r = Some n1 → deviceMacAddress n1 = deviceMacAddress n) _ (λ _, True));
    [| |done].
  - unfold replay_gate. destruct (_ && _); [|by apply wp_ret; intros n1 [= <-]].
    apply wp_any. intros now w1. destruct (isReplay _ _ _) as [[] cache]; apply wp_ret; [done|].
    by intros n1 [= <-].
  - intros [n1|] w1 Hn1; [|by apply wp_ret]. apply wp_any. intros ps w2. apply wp_ret.
    intros n2 [= <-]. exact (Hn1 n1 eq_refl).
Qed.

(** Whatever a node sends while it handles another node's adapter data is that frame:
    header, payload and tag untouched. *)
Lemma handle_intact src f n :
  message_type f = MESH_TYPE_ADAPTER_DATA → origin_mac_address f ≠ deviceMacAddress n →
  emits (only_sends (intact f)) (handleReceivedMessage src f n).
Proof.
  intros Ht Ho. unfold handleReceivedMessage.
  apply emits_bind_spec with (Q := λ r, ∀ n1, r = Some n1 → deviceMacAddress n1 = deviceMacAddress n).
  - apply emits_no_send, receive_gate_no_send.
  - intros w. apply gate_device.
  - intros [n1|] Hn1; [|apply emits_ret]. specialize (Hn1 n1 eq_refl).
    pose proof mesh_types_distinct as HD. rewrite !NoDup_cons in HD. set_unfold in HD.
    unfold dispatch. rewrite Ht, Z.eqb_refl.
    rewrite !(proj2 (Z.eqb_neq MESH_TYPE_ADAPTER_DATA _)) by naive_solver.
    unfold processAdapterData, relayBroadcast. pose proof (relayDownlink_intact f).
    apply emits_bind; [apply deliverAdapterData_intact; congruence|]. solve_emits.
Qed.
End relays.

(** One node of any kind on its own platform passes frame [f] on as [g]. *)
Inductive passes_on {C : Crypto} {Pr : Protocol} {Pn : Pin} (f g : mesh_message) : Prop :=
  | passed (E : Env) src n w sent h :
      deviceMacAddress n ≠ origin_mac_address f →
      sent_frames (w_trace (world_of (handleReceivedMessage src f n w))) = sent ++ sent_frames (w_trace w) →
      (h, g) ∈ sent → passes_on f g.

Lemma appended_sends F w w' sent :
  appended (only_sends F) w w' → sent_frames (w_trace w') = sent ++ sent_frames (w_trace w) →
  ∀ h g, (h, g) ∈ sent → F g.
Proof.
  intros (evs & He & HF). rewrite He. clear He. revert sent. 
  induction HF as [|e evs Hp _ IH]; intros sent Hs h g Hin.
  - assert (sent = []) as -> by (apply (app_inv_tail (sent_frames (w_trace w))); by rewrite <- Hs).
    by apply elem_of_nil in Hin.
  - destruct e; cbn in Hs; try by eapply IH.
    destruct sent as [|x sent]; [by apply elem_of_nil in Hin|]. cbn in Hs. injection Hs as <- Hs.
    apply elem_of_cons in Hin as [[= -> ->]|Hin]; [exact Hp|by eapply IH].
Qed.

Section telemetry.
Context {C : Crypto} {Pr : Protocol} {Pn : Pin}.

(** The plaintext of a reading. *)
Record reading_plain (ty : Z) (payload : bytes) (n : Node) (plain : mesh_message) : Prop := {
  rd_proto : proto_version plain = PROTO_VERSION;
  rd_type : message_type plain = MESH_TYPE_ADAPTER_DATA;
  rd_data_type : data_type plain = ty;
  rd_origin : origin_mac_address plain = deviceMacAddress n;
  rd_target : target_mac_address plain = m_mac (currentMaster n);
  rd_data : data plain = take 64 payload
}.

(** What a leaf puts on the air for a reading: nothing, or one frame, the reading
    sealed for its master. *)
Lemma leaf_sends `{E : Env} ty payload n w :
  node_wf n → isMaster n = false →
  wp (transmit ty (Some payload) n) w
    (λ _ w', sent_frames (w_trace w') = sent_frames (w_trace w) ∨
       ∃ h f plain up down, sent_frames (w_trace w') = (h, f) :: sent_frames (w_trace w) ∧
         reading_plain ty payload n plain ∧ sealPayload up plain = Some f ∧
         keys_of (devicePrivateKey (enrollment n)) (peers n) (m_mac (currentMaster n)) = Some (up, down))
    (λ _, True).
Proof.
  intros W Hm. pose proof mesh_types_distinct as HD. rewrite !NoDup_cons in HD. set_unfold in HD.
  unfold transmit, transmitDispatch. rewrite Hm. unfold transmitCore. apply wp_bind, wp_bind.
  eapply wp_mono; [apply wp_emits; [apply buildMessage_quiet|apply buildMessage_effect, (nwf_tx n W)]| |done].
  intros [m tx] w1 ((Wtx & Ht & Ho & Hty & _ & _ & Hd & _ & Hl & Hv) & Hq%appended_quiet).
  cbn [fst snd] in *. apply wp_ret. cbv zeta.
  change (deviceMacAddress (upd_txState tx n)) with (deviceMacAddress n). rewrite Ho, mac_eq_refl, Z.eqb_refl.
  cbn [negb andb]. change (message_type (set_target ?t m)) with (message_type m). rewrite Ht.
  assert (isSealedType MESH_TYPE_ADAPTER_DATA = true) as -> by (unfold isSealedType; by rewrite Z.eqb_refl).
  set (plain := set_target _ m). apply wp_bind.
  eapply wp_mono; [by apply seal_uplink_effect, node_wf_tx| |done].
  intros [[out|] n1] w2 (-> & _ & _ & Hs); [|by apply wp_ret; left]. cbn [fst snd] in Hs.
  destruct (Hs out eq_refl) as (up & down & sealed & _ & Hk & Hse & _ & Hout).
  change (message_type plain) with (message_type m) in Hout. rewrite Ht in Hout.
  rewrite (proj2 (Z.eqb_neq MESH_TYPE_ADAPTER_DATA MESH_TYPE_ROUTE_REPORT)) in Hout by naive_solver. subst sealed.
  destruct (route_uplink_run out n1 w1) as (fp & w3 & hop & now & Er & Hsent & _).
  eapply wp_run; [exact Er|]. rewrite Hsent, Hq. destruct hop as [h|]; [right|by left].
  exists h, out, plain, up, down. split_and!; [done|split; done|done|exact Hk].
Qed.

Lemma passes_intact f g : message_type f = MESH_TYPE_ADAPTER_DATA → passes_on f g → intact f g.
Proof.
  intros Ht [E src n w sent h Ho Hs Hin]. apply not_eq_sym in Ho.
  eapply appended_sends; [|exact Hs|exact Hin].
  pose proof (handle_intact src f n Ht Ho w) as H. unfold wp in H. by destruct (handleReceivedMessage src f n w).
Qed.

Lemma carried_intact f g : message_type f = MESH_TYPE_ADAPTER_DATA → rtc passes_on f g → intact f g.
Proof.
  intros Ht Hr. induction Hr as [f|f g1 g Hp _ IH]; [apply intact_refl|].
  pose proof (passes_intact f g1 Ht Hp) as H1. eapply intact_trans; [exact H1|].
  apply IH. destruct H1 as [(_ & H & _) _]. congruence.
Qed.

(** Leaf and master hold each other's public keys, and the leaf follows that master. *)
Record paired `{!CryptoLawful C} (leaf master : Node) : Prop := {
  pr_leaf_keys : is_keypair (devicePrivateKey (enrollment leaf)) (devicePublicKey (enrollment leaf));
  pr_master_keys : is_keypair (devicePrivateKey (enrollment master)) (devicePublicKey (enrollment master));
  pr_at_master : ∃ p, peer_find (peers master) (deviceMacAddress leaf) = Some p ∧
                      publicKey p = devicePublicKey (enrollment leaf) ∧ is_zero (publicKey p) = false;
  pr_at_leaf : ∃ p, peer_find (peers leaf) (m_mac (currentMaster leaf)) = Some p ∧
                    publicKey p = devicePublicKey (enrollment master);
  pr_follows : m_mac (currentMaster leaf) = deviceMacAddress master
}.

Lemma paired_keys `{!CryptoLawful C} leaf master k :
  paired leaf master →
  keys_of (devicePrivateKey (enrollment leaf)) (peers leaf) (m_mac (currentMaster leaf)) = Some k →
  keys_of (devicePrivateKey (enrollment master)) (peers master) (deviceMacAddress leaf) = Some k.
Proof.
  intros [(_ & _ & KL) (_ & _ & KM) (pL & FL & PL & ZL) (pM & FM & PM) _]. unfold keys_of. rewrite FL, FM. cbn.
  rewrite ZL. destruct (is_zero (publicKey pM)); [done|]. intros <-. rewrite PL, PM.
  unfold derived, x25519_shared. by rewrite KL, KM, x25519_agree.
Qed.

(** A running master with its serial link. *)
Record master_ready (m : MainState) (s : SerialAdapter) : Prop := {
  mr_adapter : adapter m = Some (ASerial s);
  mr_type : adapterType (s_base s) = SERIAL_ADAPTER;
  mr_wf : node_wf (mesh m);
  mr_master : isMaster (mesh m) = true;
  mr_linked : externalRecvCallback (mesh m) = true;
  mr_led : led_initialized (greenLed m) = true
}.

(** ** At the master *)
Section master.
Context {EM : Env} `{!CryptoLawful C}.

(** A frame for this master that opens under its origin's key is delivered. *)
Lemma master_delivers g plain n ks0 w (up down : bytes) :
  isMaster n = true → externalRecvCallback n = true → target_mac_address g = deviceMacAddress n →
  message_type g = MESH_TYPE_ADAPTER_DATA → data_type g ≠ SERIAL_ADAPTER → e2eKeys n = ks0 →
  fresh_cache (devicePrivateKey (enrollment n)) (peers n) ks0 → (0 < capacity_ ks0)%nat →
  keys_of (devicePrivateKey (enrollment n)) (peers n) (origin_mac_address g) = Some (up, down) →
  openPayload up g = Some (set_data plain g) →
  ∃ ks again, deliverAdapterData g n w =
    Ok (upd_e2eKeys ks n, again) (World (EvDeliver (set_data plain g) :: w_trace w) (w_eeprom w) (w_err w)).
Proof.
  intros Hm Hcb Ht Hty Hdt <- F Hc Hk Hopen. unfold deliverAdapterData. rewrite Ht, mac_eq_refl, Hm.
  unfold classify. cbn [orb]. unfold authorize. rewrite Hty.
  assert (isSealedType MESH_TYPE_ADAPTER_DATA = true) as -> by (unfold isSealedType; by rewrite Z.eqb_refl).
  cbn [andb negb]. rewrite !wbind_run.
  pose proof (peerE2EKeys_effect (origin_mac_address g) (peers n) (enrollment n) (e2eKeys n) w F Hc) as HE.
  unfold wp in HE. destruct (peerE2EKeys _ _ _ _ w) as [[k ks] w1|]; [|congruence].
  destruct HE as (-> & Hk1 & _). cbn [fst] in Hk1. rewrite Hk in Hk1. subst k.
  unfold wret at 1. rewrite Hopen. unfold isConfigOpcode.
  change (data_type (set_data plain g)) with (data_type g). rewrite (proj2 (Z.eqb_neq _ _) Hdt). cbn [andb].
  exists ks. eexists. unfold wret at 1, deliver.
  change (externalRecvCallback (upd_e2eKeys ks n)) with (externalRecvCallback n). rewrite Hcb. reflexivity.
Qed.

Lemma green_pulse on off times l w :
  led_initialized l = true →
  ∃ l' w', pulse false times on off l w = Ok l' w' ∧ uart_sent (w_trace w') = uart_sent (w_trace w).
Proof.
  intros Hl. unfold pulse. rewrite Hl. cbn [negb].
  destruct (times =? 0); [by eexists _, w|].
  unfold setState, gpio_set_level, now_ms, esp_timer_get_time, wbind, ask, emit, wret.
  destruct (eqb _ _); by do 2 eexists.
Qed.

(** The receive callback of a master writes a reading to the line. *)
Lemma callback_writes s msg b w :
  adapterType (s_base s) = SERIAL_ADAPTER → led_initialized (board_green b) = true →
  data_type msg ≠ SERIAL_ADAPTER → wf_message msg →
  ∃ b' w', dataRecvCallback (Some (ASerial s)) msg b w = Ok b' w' ∧ board_node b' = board_node b ∧
    uart_sent (w_trace w') = uart_sent (w_trace w) ++ on_line (wire_form msg).
Proof.
  intros Ha Hl Hd Wm. unfold dataRecvCallback, callback_body at 1, onMeshData.
  rewrite (proj2 (Z.eqb_neq _ _) Hd). cbn [base_of]. rewrite Ha, Z.eqb_refl. cbn [negb andb onMeshDataImpl].
  destruct (serial_out msg b w Wm) as (w1 & E1 & U1 & _). rewrite wbind_run, E1.
  destruct (green_pulse 100 100 2 (board_green b) w1 Hl) as (g & w2 & E2 & U2). rewrite wbind_run, E2.
  do 2 eexists. split; [reflexivity|]. split; [done|]. by rewrite U2, U1.
Qed.

Lemma mesh_task_writes m s src g plain w up down :
  master_ready m s → wf_message g → accepted (replay (mesh m)) g → is_bytes 64 plain →
  target_mac_address g = deviceMacAddress (mesh m) → message_type g = MESH_TYPE_ADAPTER_DATA →
  proto_version g = PROTO_VERSION → data_type g ≠ SERIAL_ADAPTER →
  keys_of (devicePrivateKey (enrollment (mesh m))) (peers (mesh m)) (origin_mac_address g) = Some (up, down) →
  openPayload up g = Some (set_data plain g) →
  ∃ m' w', mesh_task [RecvEntry src g] m w = Ok m' w' ∧
    uart_sent (w_trace w') = uart_sent (w_trace w) ++ on_line (wire_form (set_data plain g)).
Proof.
  intros [Ho Ha W Hm Hcb Hl] Wg Hacc Hp Ht Hty Hv Hdt Hk Hopen. unfold mesh_task. rewrite Ho.
  cbn [drain srcMac rq_msg]. rewrite !wbind_run. unfold receive_on_board. rewrite wbind_run. cbn [board_node].
  destruct (receive_gate_run src g (mesh m) w W Hv Hacc) as (cache & ps & w1 & Eg & HK & _).
  assert (uart_sent (w_trace w1) = uart_sent (w_trace w)) as U1.
  { apply uart_silent. eapply (emits_Ok _ _ w _ w1); [|exact Eg].
    unfold receive_gate, replay_gate, updateLastSeen, now_ms, esp_timer_get_time. solve_emits. }
  rewrite Eg. cbv iota. rewrite Hty, Z.eqb_refl. rewrite wbind_run. unfold delivering.
  cbn [board_node with_node]. set (n1 := upd_peers ps _).
  destruct (master_delivers g plain n1 (e2eKeys n1) w1 up down) as (ks & again & Ed); try done.
  { eapply fresh_cache_keeps; [by apply same_keys_keeps|apply W]. }
  { apply W. }
  { by rewrite (keys_of_same _ _ _ _ HK). }
  rewrite Ed. set (w2 := World _ _ _). rewrite (new_deliveries_one w1 (set_data plain g) w2) by done.
  cbn [wfold]. rewrite !wbind_run.
  destruct (callback_writes s (set_data plain g) (OnBoard (upd_e2eKeys ks n1) (greenLed m) (isDevMode m)) w2)
    as (b' & w3 & E3 & Hb & U3); [done|done|done| |].
  { destruct Wg. split; done. }
  match goal with |- context [dataRecvCallback _ _ ?b w2] =>
    change b with (OnBoard (upd_e2eKeys ks n1) (greenLed m) (isDevMode m)) end.
  rewrite E3. unfold wret at 1. unfold wret at 1. cbv beta iota. rewrite wbind_run. rewrite Hb.
  unfold relayBroadcast. cbn [board_node].
  change (isMaster (upd_e2eKeys ks n1)) with (isMaster (mesh m)). rewrite Hm, andb_false_r.
  unfold wret. do 2 eexists. split; [reflexivity|]. by rewrite U3; cbn [w_trace w2 uart_sent]; rewrite U1.
Qed.

(** What a payload on the line says of a reading. *)
Definition reading_of (payload : bytes) : option (Z * Z * mac * slot) :=
  slots ← pb_decode mesh_MeshMessage_msg payload; p ← of_slots slots;
  Some (pb_messageType p, pb_dataType p, pb_originMacAddress p, pb_data p).

Lemma reading_of_wire msg :
  wf_message msg →
  reading_of (wire_form msg) =
    Some (message_type msg, data_type msg, origin_mac_address msg, present_bytes (data msg)).
Proof.
  intros W. unfold reading_of. rewrite pb_decode_wire_form by done. cbn [mbind option_bind].
  unfold slots_of, of_slots, pb_of_message. cbv zeta.
  cbn [mbind option_bind pb_messageType pb_dataType pb_originMacAddress pb_data].
  destruct W as [_ _ _ [Ho _] _ _ [Hd _] _ _ _ _ _ _ _ _]. by rewrite !take_ge by lia.
Qed.

(** C3. A reading reaches the server.  When a leaf's adapter hands a 64-byte payload to
    the mesh and the leaf has a next hop, the frame it sends can be carried by any
    nodes of any role and state, any number of times; the first copy to arrive at the
    master the leaf is paired with makes that master's mesh task write one framed
    message to the serial line, which decodes to the payload, its type and the leaf's
    MAC. *)
Theorem reading_reaches_server (EL : Env) ty payload n w n' w' h f g src m s wM :
  node_wf n → isMaster n = false → ty ≠ SERIAL_ADAPTER → is_bytes 64 payload →
  transmit (E := EL) ty (Some payload) n w = Ok n' w' →
  sent_frames (w_trace w') = (h, f) :: sent_frames (w_trace w) →
  rtc passes_on f g →
  paired n (mesh m) → master_ready m s → wf_message g → accepted (replay (mesh m)) g →
  ∃ m1 w1 q, mesh_task (E := EM) [RecvEntry src g] m wM = Ok m1 w1 ∧
    uart_sent (w_trace w1) = uart_sent (w_trace wM) ++ on_line q ∧
    reading_of q = Some (MESH_TYPE_ADAPTER_DATA, ty, deviceMacAddress n, present_bytes payload).
Proof.
  intros W Hm Hty Hp Hrun Hsent Hr HP HM Wg Hacc.
  pose proof (wp_Ok _ _ _ _ _ _ (leaf_sends ty payload n w W Hm) Hrun) as [H|H].
  { rewrite Hsent in H. by apply (f_equal length) in H; cbn in H; lia. }
  destruct H as (h' & f' & plain & up & down & Hs' & [R1 R2 R3 R4 R5 R6] & Hseal & Hk).
  rewrite Hsent in Hs'. injection Hs' as <- <-.
  assert (take 64 payload = payload) as Hpay by (destruct Hp; apply take_ge; lia).
  assert (same_header f plain) as Hf by (unfold sealPayload in Hseal; destruct (mb_seal _ _ _ _) as [[c t]|]; [|done]; by injection Hseal as <-).
  pose proof Hf as (_ & Hft & _). rewrite R2 in Hft.
  destruct (carried_intact f g Hft Hr) as (Hh & Hd & Ht).
  assert (openPayload up g = Some (set_data payload g)) as Hopen.
  { rewrite <- Hpay, <- R6. by apply (sealed_opens up plain f g Hseal). }
  assert (same_header g plain) as (G1 & G2 & G3 & G4 & G5 & _) by (by etrans).
  pose proof (paired_keys n (mesh m) (up, down) HP Hk) as HkM.
  destruct (mesh_task_writes m s src g payload wM up down) as (m1 & w1 & E1 & U1); try congruence; try done.
  { rewrite G5, R5. apply HP. }
  exists m1, w1, (wire_form (set_data payload g)). split; [done|]. split; [done|].
  rewrite reading_of_wire by (destruct Wg; split; done). cbn.
  by rewrite G2, R2, G3, R3, G4, R4.
Qed.
End master.
End telemetry.

(** * Witness: a PIR reading over one relay *)
#[local] Existing Instance documented_protocol.

Definition demo_reading : bytes := 1 :: zeros 63.
Definition demo_sent : result Node :=
  transmit (E := ref_env) (C := toy_crypto) PIR_ADAPTER (Some demo_reading) demo_leaf_node ref_world.
Definition demo_first : mesh_message :=
  match sent_frames (w_trace (world_of demo_sent)) with (_, f) :: _ => f | [] => mesh_message_zero end.
(** A node that has not enrolled: it floods what is not for it. *)
Definition demo_repeater : Node := upd_peers demo_three_peers (upd_deviceMacAddress (demo_mac 9) node_new).
Definition demo_repeated : result Node :=
  handleReceivedMessage (E := ref_env) (C := toy_crypto) (Pn := demo_pin) (demo_mac 1) demo_first demo_repeater ref_world.
Definition demo_second : mesh_message :=
  match sent_frames (w_trace (world_of demo_repeated)) with (_, f) :: _ => f | [] => mesh_message_zero end.
Definition demo_sink : MainState :=
  with_mesh (upd_externalRecvCallback true demo_master_node)
    (with_leds demo_led demo_led
       (with_adapter (Some (ASerial (serial_new SERIAL_ADAPTER_DEFAULT_PIN))) main_new)).
#[local] Opaque demo_sent demo_first demo_repeated demo_second.

Lemma demo_repeats : passes_on (C := toy_crypto) (Pn := demo_pin) demo_first demo_second.
Proof.
  apply (passed demo_first demo_second ref_env (demo_mac 1) demo_repeater ref_world
    (sent_frames (w_trace (world_of demo_repeated))) (demo_mac 3)).
  - vm_compute. discriminate.
  - vm_compute. reflexivity.
  - vm_compute. left.
Qed.

Lemma demo_paired : paired (C := toy_crypto) demo_leaf_node (mesh demo_sink).
Proof.
  split; [by repeat split..| | |reflexivity].
  - eexists. split; [vm_compute; reflexivity|]. split; reflexivity.
  - eexists. split; [vm_compute; reflexivity|reflexivity].
Qed.

Lemma reading_reaches_server_witness :
  demo_second ≠ demo_first ∧ data demo_second ≠ demo_reading ∧
  ∃ m1 w1 q, mesh_task (E := ref_env) (C := toy_crypto) (Pn := demo_pin) [RecvEntry (demo_mac 9) demo_second]
      demo_sink ref_world = Ok m1 w1 ∧
    uart_sent (w_trace w1) = on_line q ∧
    reading_of q = Some (MESH_TYPE_ADAPTER_DATA, PIR_ADAPTER, demo_mac 1, present_bytes demo_reading).
Proof.
  split; [vm_compute; discriminate|]. split; [vm_compute; discriminate|].
  apply (@reading_reaches_server toy_crypto documented_protocol demo_pin ref_env toy_lawful ref_env PIR_ADAPTER
    demo_reading demo_leaf_node ref_world (value_of node_new demo_sent) (world_of demo_sent) (demo_mac 7) demo_first
    demo_second (demo_mac 9) demo_sink (serial_new SERIAL_ADAPTER_DEFAULT_PIN) ref_world).
  - exact demo_leaf_node_wf.
  - reflexivity.
  - discriminate.
  - split; [reflexivity|]. apply Forall_cons_2; [by split|]. apply Forall_replicate. by split.
  - vm_compute. reflexivity.
  - vm_compute. reflexivity.
  - exact (rtc_once _ _ demo_repeats).
  - exact demo_paired.
  - split; [reflexivity|reflexivity|exact (node_wf_callback _ _ demo_master_node_wf)|reflexivity..].
  - apply wf_messageb_spec. vm_compute. reflexivity.
  - intros _ hw. vm_compute. done.
Defined.
